(* ===== verification/_CoqProject ===== *)
-Q . S2P
Prelude.v
RustStr.v
Json.v
JsonText.v
Auth.v
Config.v
Proto.v
ClientProto.v
Wire.v
Hooks.v
CoreProc.v
Janitor.v
Main.v
Server.v
Supervisor.v
Schedules.v
ProcInv.v
LockInv.v
LeaseInv.v
AuthInv.v
HookInv.v
ExitInv.v
Contract.v
Carried.v
WireInv.v
ReplyInv.v
Sweeps.v
Progress.v
MonitorRef.v
Causes.v
Exits.v
NoDeadlock.v
Writers.v
Races.v
Lives.v
SupervisorClient.v
ClientInv.v
Link.v
Install.v
Conflict.v
Rpc.v
Ffi.v
Bridge.v
FfiMemory.v
FfiInv.v
Returns.v
Stack.v
FfiRaces.v
UnitTests.v
IntegrationTests.v
