(* ===== verification/Prelude.v ===== *)
(** * easytier-mac: a verification library

    ** The program

    easytier-mac runs a VPN core ([easytier-core]) for a macOS GUI.  A privileged
    supervisor ([src/supervisor]) is started by launchd on the first connection to
    its control socket, serves one owner, spawns and reaps a single core, runs hook
    scripts around it and exits when the owner disconnects.  The GUI talks to it
    through a bridge ([src/bridge]): a control client that reconnects by itself, an
    RPC client for the core, installation helpers, and C entry points.  The two
    sides share a protocol of JSON lines, written down twice.

    ** The files

    Ground:
    - [Prelude]: [result] with Rust's question mark, the widths of integers,
      [io::Error], permission bits, the tactics.
    - [RustStr]: the functions of Rust's [str] and [Path] the sources call, on byte
      strings; [Json]: JSON values, the interface [SerdeJson] of the [serde_json]
      crate and the [#[serde]] attributes; [JsonText]: an instance of it.

    The supervisor, a file for each source file under [src/supervisor/src]:
    - [Auth] ([auth.rs]), [Config] ([config.rs]), [Proto] ([proto.rs]), [Hooks]
      ([hooks.rs]), [CoreProc] ([core_proc.rs]), [Janitor] ([janitor.rs]), [Main]
      ([main.rs], [activation.rs]), [Server] ([server.rs]).  They hold the data and
      the sequential decisions: each critical section of the state mutex, each
      check, each loop is one definition.  Loops that end because something outside
      happens ([CoreProc.monitor], [Hooks.wait_loop]) take fuel; their theorems give
      an amount that is enough and the result it gives.
    - [Supervisor] puts them together: the threads of all connections
      ([handle_connection]), one monitor thread per core ([spawn_monitor]), the hook
      threads and the no-owner timer as one executable step function over the
      shared state, the sockets, the processes of the machine and the clock.  A step
      is one critical section, one write to a socket, one system call or one move
      of the environment, so every interleaving of these is a path of [reachable].
    - [Lives] is the process around it: its accept loops, the ways it ends (an exit,
      a panic, a signal from outside, in any state), what becomes of the processes
      it leaves, and the next start of the program, [Main.main] with its sweep.

    The bridge, a file for each source file under [src/bridge/src]:
    - [ClientProto] ([proto.rs]), [SupervisorClient] ([supervisor_client.rs]: the
      driver task as a step function), [Install] ([install.rs]), [Conflict]
      ([conflict.rs]), [Rpc] ([rpc.rs]), [Ffi] ([ffi.rs]: a session, its tasks, and
      the entry points as threads that step beside them).
    - [Bridge] puts them together: the sessions and strings the library has handed
      out, every call under way and the tasks of every session as one executable
      step function; [UB] is its outcome when memory is used that is not the
      library's.

    - [Stack] puts everything together: the supervisors launchd starts one after the
      other, the library with every session and call, and the sockets between them.

    [UnitTests] translates the [#[test]] functions of both crates and runs them on
    the model; [IntegrationTests] does so with the tests that drive the compiled
    programs, each as a schedule of [Supervisor] or of [Stack].

    ** What is shown

    - [ProcInv]: the state and the children agree ([Stopped]: all were reaped;
      [Running]: all but the recorded one, which is there until its monitor clears
      the state); the signals of a monitor's escalation reach only its own child,
      although pids are reused, while its sweep kills whatever process has the pid
      [ps] listed.  [LockInv]: while a monitor sweeps after a crash, step by step
      and under the mutex, the state stays [Stopped] and no core of this supervisor
      is hit.  These and the theorems on exits and hooks except the cores whose
      [try_wait] failed: their monitor goes without knowing what became of them,
      and [Races.failed_wait_two_cores] is what can follow.
    - [LeaseInv], [AuthInv]: the owner slot names exactly the connection that holds
      the lease; a peer that is not allowed gets nothing.
    - [Contract]: the five changes of the shared state, each by the thread that steps.
    - [HookInv], [ExitInv]: a crash is reported exactly when no stop was requested,
      its hook runs at most once, and no other path runs one with that reason; an
      owner's disconnect leaves no core and no running hook behind, if nobody else
      was granted the lease.
    - [Carried]: what is said of the values on their way through the threads is kept
      by the steps that only pass them on; [WireInv] and [Causes] are instances.
    - [WireInv], [ReplyInv]: everything written to a client is a well-typed event;
      the replies of a connection are those to its commands, in order.
    - [Causes]: what a client is told is true: every event has its cause in what
      happened before, in a log of facts kept beside the run.
    - [Sweeps], [MonitorRef]: the threads of [Supervisor] do what the sequential
      definitions say: a sweep in steps is [Janitor.sweep_orphans] on the text [ps]
      printed, and a monitor among all other threads is the loop [CoreProc.monitor].
    - [Progress], [NoDeadlock], [Exits]: in an endless fair run a core that is asked
      to stop is let go by its monitor, which has reaped it (or whose [try_wait]
      failed), after finitely many steps, and every command of a sole client
      is answered; a supervisor whose owner has gone exits; no thread waits for one
      that cannot move, while writes go through.
    - [Writers]: the mutexes of the sockets' writers, and clients that do not read:
      only the writes to such a client wait for it, a takeover never does, and it
      frees the thread that was stuck.
    - [Lives]: across any number of supervisors and ways they end, the next start
      signals every core that was left and nothing but cores, and at most one core
      is alive at a time while the sweeps can see and signal; a failed [accept], a
      sweep without [ps] and a failed [try_wait] are what this does not cover, each
      with its schedule.
    - [Schedules]: executable runs, used by the witnesses; [Races]: complete
      schedules in which the supervisor does something its comments exclude; they
      show why the theorems above have their hypotheses.
    - In the files of the components: escalation of signals and its deadlines,
      idempotence of [start], the gate and the time limit of hooks, the ownership
      checks, the reader of lines, the handshake, the lease, recognition of orphans,
      the command line and the way [main] goes on.
    - [Wire], [Server], [ClientInv]: the two mirrors of the protocol agree in both
      directions, commands written back to back are cut and decoded as sent, and a
      reply reaches the caller of its request.
    - [Link]: a connection with the supervisor at one end and the driver of the
      bridge at the other, in every interleaving of both programs: the answer a
      caller gets is the supervisor's reply to that caller's command, although the
      protocol has no request ids, until a request or the end of the stream cuts a
      read short (the step is there, and marks the link).
    - [Stack]: through any number of sessions and restarts, what the callback and the
      callers of the library are told goes back to what a supervisor did:
      [etb_connect] returns NULL only when the reply to its own request named a core
      that was spawned, and a port the library shows is one on the command line of
      such a process; both of sessions none of whose reads was cut short.
    - [ClientInv], [Rpc], [Install], [Conflict]: conservation of requests, takeovers
      only on request, the pause after [busy], the backoff, the status table, the
      bounded retry, the quoting of the installation command, and a schedule in
      which the client loses a reply.
    - [FfiMemory]: a client that keeps the ownership rules of
      [include/easytier_bridge.h] never makes the library use memory it does not
      own, and what is allocated is what the client holds.  [FfiInv]: what each
      step of [etb_connect] and [etb_disconnect] does to the instance and what they
      have done when they return, and where the port of a session comes from,
      whatever calls overlap.  [Returns]: a call makes a
      bounded number of steps and can always be given the next, but where it waits
      for room in the command channel; [FfiRaces]: then it need never come back;
      schedules in which
      overlapping calls, an early exit of the core or a reconnection leave a session
      in a state that is not the core's.

    ** Choices

    - Code outside the repository is a parameter of the definitions that use it: the
      file system, [ps], [kill], spawning, the clock, [serde_json] (a class with
      laws, instantiated by [JsonText]), [toml], the data of the [easytier] crate (the
      class [Rpc.Crate]) and the answers of its portal, launchd, [osascript], the
      allocator.
    - An integer is a [Z] in the range of its type.  The only counter that could
      wrap is [next_id]: [Supervisor] counts without bound and reduces the id modulo
      2^64; [LeaseInv] assumes that the counter has not gone round.
    - Times are milliseconds; waiting threads may look at any time, so the bounds of
      [wait_timeout] do not matter to safety, and the liveness theorems ask only
      that the clock passes every time and that every thread is given its turns.
    - In [Supervisor] the state mutex is held over the steps of a guarded sweep and
      makes other threads wait; every other critical section is one step.
      [try_wait] failing is a label ([lost] marks such a monitor), and dying of
      SIGTERM is up to the process.
    - A write of the supervisor is one step, which may come late; a client that does
      not read is such a write that does not come, so the safety theorems cover it,
      and [Writers] says what else waits.  The liveness theorems assume that writes
      go through.  A line cut by the time limit of the notice to a displaced owner
      counts as not written.
    - In [SupervisorClient] a [Notify] is its permit; a call while somebody waits
      goes through at once.
    - In [Link] what one end reads is what the other wrote, the lines to the driver
      in any pieces.  A request, or the end of the stream, may come at any time; in
      the middle of a line it drops what was read of it, and sets [torn], which the
      theorems ask to be unset.  A run starts with a fresh connection of any reachable supervisor and any
      driver about to connect, so it covers each session of the driver's life.
      [Stack] has the same rule for every session of every handle; what a supervisor
      reads is left free there, and a supervisor process is started at any time.
    - A fair run is a function from step numbers to states with the steps between
      them; [Exits] uses excluded middle to ask whether such a run ends.
    - A release build aborts at a panic ([panic = abort] in [Cargo.toml]): the
      supervisor ends in the state it is in, which the safety theorems cover as any
      other, and [Lives] says what follows; of the bridge the runs without a panic
      are those of a release build, and its calls recover from one, as [ffi.rs]
      does, in a development build only.
    - The next supervisor of [Lives] has the configuration of the last one; its sweep
      is one step, so a process that ends between [ps] and [kill] counts as one that
      ended later.
    - [serde_json::Map] is ordered by key, so [Json.json_object] sorts what [json!]
      is given.
    - In [Bridge] a call may panic at any of its steps, and the allocator may put
      what it allocates at any address that is free, also one used before.

    ** Not modelled

    A panic of one thread of the supervisor that leaves the others running, which
    only a development build has (the poisoned mutex; a thread that cannot be
    spawned panics); a panic of the event callback, and the time of the waits in the bridge; the inside
    of the [easytier] and [toml] crates; the fixtures of the
    tests; the module declarations of [bridge/src/lib.rs]; the GUI and the
    scripts. *)

From Stdlib Require Import ZArith Lia.
From stdpp Require Import base list strings gmap.

(** ** Fallible computations: Rust's [Result] *)

Inductive result (A E : Type) : Type :=
| Ok (a : A)
| Err (e : E).
Arguments Ok {A E} a.
Arguments Err {A E} e.

Declare Scope rust_scope.
Delimit Scope rust_scope with rust.
Open Scope rust_scope.

(** Rust's [?] operator. *)
Notation "'let?' x := m 'in' k" :=
  (match m with Ok x => k | Err e => Err e end)
  (at level 10, x pattern, m at level 100, k at level 200) : rust_scope.

Definition is_ok {A E} (r : result A E) : bool :=
  match r with Ok _ => true | Err _ => false end.

Definition map_err {A E F} (f : E -> F) (r : result A E) : result A F :=
  match r with Ok a => Ok a | Err e => Err (f e) end.

Definition result_ok {A E} (r : result A E) : option A :=
  match r with Ok a => Some a | Err _ => None end.

(** ** Machine integers: a w-bit value is a [Z] in its range. *)

Definition u16_max : Z := 65535.
Definition u32_max : Z := 4294967295.
Definition u64_max : Z := 18446744073709551615.
Definition i64_max : Z := 9223372036854775807.
Definition i32_min : Z := -2147483648.
Definition i32_max : Z := 2147483647.

Definition in_u16 (n : Z) : bool := (0 <=? n)%Z && (n <=? u16_max)%Z.
Definition in_u32 (n : Z) : bool := (0 <=? n)%Z && (n <=? u32_max)%Z.
Definition in_i32 (n : Z) : bool := (i32_min <=? n)%Z && (n <=? i32_max)%Z.

#[global] Instance result_eq_dec {A E} `{EqDecision A, EqDecision E} : EqDecision (result A E).
Proof. solve_decision. Defined.

(** ** Automation *)

(** Split every boolean conjunction, disjunction and comparison of the context. *)
Ltac breflect :=
  repeat match goal with
  | H : (_ && _)%bool = true |- _ => apply andb_prop in H; destruct H
  | H : (_ || _)%bool = false |- _ => apply orb_false_elim in H; destruct H
  | H : negb _ = true |- _ => apply negb_true_iff in H
  | H : negb _ = false |- _ => apply negb_false_iff in H
  | H : (_ =? _)%Z = true |- _ => apply Z.eqb_eq in H
  | H : (_ =? _)%Z = false |- _ => apply Z.eqb_neq in H
  | H : (_ <=? _)%Z = true |- _ => apply Z.leb_le in H
  | H : (_ <=? _)%Z = false |- _ => apply Z.leb_gt in H
  | H : (_ <? _)%Z = true |- _ => apply Z.ltb_lt in H
  | H : (_ <? _)%Z = false |- _ => apply Z.ltb_ge in H
  end.

(** Case-split the scrutinee of every [match] in the goal. *)
Ltac split_matches :=
  repeat match goal with
  | |- context [match ?x with _ => _ end] => destruct x eqn:?; simplify_eq/=
  end.

(** The same for a hypothesis. *)
Ltac split_matches_in H :=
  repeat match type of H with
  | context [match ?x with _ => _ end] => destruct x eqn:?; simplify_eq/=
  end.

(** ** Generic lemmas *)

Lemma result_ok_Some {A E} (r : result A E) a : result_ok r = Some a <-> r = Ok a.
Proof. destruct r; simpl; split; congruence. Qed.

Lemma in_u16_spec n : in_u16 n = true <-> (0 <= n <= u16_max)%Z.
Proof. unfold in_u16. rewrite andb_true_iff, !Z.leb_le. done. Qed.

Lemma in_u32_spec n : in_u32 n = true <-> (0 <= n <= u32_max)%Z.
Proof. unfold in_u32. rewrite andb_true_iff, !Z.leb_le. done. Qed.

Lemma in_i32_spec n : in_i32 n = true <-> (i32_min <= n <= i32_max)%Z.
Proof. unfold in_i32. rewrite andb_true_iff, !Z.leb_le. done. Qed.

Create Rewrite HintDb rust.
#[export] Hint Rewrite in_u16_spec in_u32_spec in_i32_spec : rust.

(** ** [std::io::Error]: its kind and its text *)

Inductive ErrorKind : Type :=
| NotFound
| PermissionDenied
| InvalidInput
| InvalidData
| TimedOut
| Other.

Record io_error : Type := IoError { kind : ErrorKind; text : string }.

#[global] Instance ErrorKind_eq_dec : EqDecision ErrorKind.
Proof. solve_decision. Defined.
#[global] Instance io_error_eq_dec : EqDecision io_error.
Proof. solve_decision. Defined.

(** ** Permission bits *)

(** A mask with a single bit set. *)
Lemma land_bit_zero m k : (0 <= k)%Z -> Z.land m (2 ^ k) = 0%Z <-> Z.testbit m k = false.
Proof.
  intros Hk. split.
  - intros H. assert (Hb := f_equal (fun z => Z.testbit z k) H). simpl in Hb.
    by rewrite Z.land_spec, Z.pow2_bits_true, andb_true_r, Z.bits_0 in Hb.
  - intros H. apply Z.bits_inj'. intros n Hn. rewrite Z.land_spec, Z.bits_0.
    destruct (Z.eq_dec n k) as [->|Hne]; [by rewrite H|].
    by rewrite Z.pow2_bits_false, andb_false_r by congruence.
Qed.

(** Octal 022 tests the group and the world write bit. *)
Lemma land_022_zero m : Z.land m 18 = 0%Z <-> Z.testbit m 4 = false /\ Z.testbit m 1 = false.
Proof.
  rewrite <- !land_bit_zero by lia. change 18%Z with (Z.lor (2 ^ 4) (2 ^ 1)).
  rewrite Z.land_lor_distr_r. apply Z.lor_eq_0_iff.
Qed.

(** Octal 100 tests the owner's execute bit. *)
Lemma land_100_zero m : Z.land m 64 = 0%Z <-> Z.testbit m 6 = false.
Proof. change 64%Z with (2 ^ 6)%Z. by apply land_bit_zero. Qed.

(** ** Inverting a successful computation *)

Lemma bind_ok {A B E} (m : result A E) (k : A -> result B E) b :
  (let? x := m in k x) = Ok b <-> exists a, m = Ok a /\ k a = Ok b.
Proof. destruct m; naive_solver. Qed.

Lemma map_err_ok {A E F} (f : E -> F) (r : result A E) a : map_err f r = Ok a <-> r = Ok a.
Proof. destruct r; simpl; naive_solver. Qed.
