(* ===== verification/RustStr.v ===== *)
(** * The Rust standard library's string functions the program calls

    A Rust [String] is a Stdlib [string] holding its UTF-8 bytes.  Everything
    here models [std]: no definition of this file stands for code of the
    repository. *)

From Stdlib Require Import ZArith Lia Ascii String DecimalString DecimalZ.
From stdpp Require Import base list strings.
From S2P Require Import Prelude.

Open Scope string_scope.

#[global] Arguments String.append !s1 s2 / : rename.

(** ** Characters *)

Definition nl : string := String "010"%char "".
Definition quote : string := String "034"%char "".
Definition backslash : string := String "092"%char "".

Definition byte (c : ascii) : Z := Z.of_N (N_of_ascii c).
Definition within (lo hi : Z) (c : ascii) : bool := (lo <=? byte c)%Z && (byte c <=? hi)%Z.

(** [char::is_whitespace] on a one-byte character. *)
Definition ws1 (c : ascii) : bool := within 9 13 c || within 32 32 c.

(** On a two-byte character: U+0085 and U+00A0. *)
Definition ws2 (c d : ascii) : bool := within 194 194 c && (within 133 133 d || within 160 160 d).

(** On a three-byte character: U+1680, U+2000..U+200A, U+2028, U+2029, U+202F,
    U+205F and U+3000. *)
Definition ws3 (c d e : ascii) : bool :=
  (within 225 225 c && within 154 154 d && within 128 128 e)
  || (within 226 226 c && within 128 128 d
      && (within 128 138 e || within 168 169 e || within 175 175 e))
  || (within 226 226 c && within 129 129 d && within 159 159 e)
  || (within 227 227 c && within 128 128 d && within 128 128 e).

(** ** Trimming, splitting, searching *)

(** [str::trim_start]: drop the longest prefix of whitespace characters. *)
Fixpoint trim_start (s : string) : string :=
  match s with
  | "" => ""
  | String c s1 =>
      if ws1 c then trim_start s1 else
      match s1 with
      | "" => s
      | String d s2 =>
          if ws2 c d then trim_start s2 else
          match s2 with
          | "" => s
          | String e s3 => if ws3 c d e then trim_start s3 else s
          end
      end
  end.

(** The same on a reversed byte string. *)
Fixpoint trim_rev (s : string) : string :=
  match s with
  | "" => ""
  | String c s1 =>
      if ws1 c then trim_rev s1 else
      match s1 with
      | "" => s
      | String d s2 =>
          if ws2 d c then trim_rev s2 else
          match s2 with
          | "" => s
          | String e s3 => if ws3 e d c then trim_rev s3 else s
          end
      end
  end.

Definition srev (s : string) : string :=
  string_of_list_ascii (List.rev (list_ascii_of_string s)).

Definition trim_end (s : string) : string := srev (trim_rev (srev s)).
Definition trim (s : string) : string := trim_end (trim_start s).

(** [str::starts_with], [str::ends_with]. *)
Definition starts_with (p s : string) : bool := String.prefix p s.

Fixpoint ends_with (p s : string) : bool :=
  (s =? p) || match s with "" => false | String _ s' => ends_with p s' end.

(** [str::split_once(char::is_whitespace)]: the text before and after the first
    whitespace character. *)
Fixpoint split_once_ws (s : string) : option (string * string) :=
  match s with
  | "" => None
  | String c s1 =>
      if ws1 c then Some ("", s1) else
      let skip :=
        match split_once_ws s1 with
        | Some (a, b) => Some (String c a, b)
        | None => None
        end in
      match s1 with
      | String d s2 =>
          if ws2 c d then Some ("", s2) else
          match s2 with
          | String e s3 => if ws3 c d e then Some ("", s3) else skip
          | "" => skip
          end
      | "" => skip
      end
  end.

(** [str::lines]: the terminator [\n] or [\r\n] is dropped; a last unterminated
    line is kept as it is. *)
Definition strip_cr (s : string) : string :=
  match srev s with
  | String "013"%char r => srev r
  | _ => s
  end.

Fixpoint lines_from (cur s : string) : list string :=
  match s with
  | "" => if cur =? "" then [] else [cur]
  | String "010"%char s' => strip_cr cur :: lines_from "" s'
  | String c s' => lines_from (cur ++ String c "") s'
  end.

Definition lines (s : string) : list string := lines_from "" s.

(** [s.rsplit('/').next()]: the text after the last slash. *)
Fixpoint basename_from (cur s : string) : string :=
  match s with
  | "" => cur
  | String "/"%char s' => basename_from "" s'
  | String c s' => basename_from (cur ++ String c "") s'
  end.

Definition basename (s : string) : string := basename_from "" s.

(** [str::contains(char)] on a one-byte character. *)
Fixpoint occurs (c : ascii) (s : string) : bool :=
  match s with
  | "" => false
  | String d s' => Ascii.eqb c d || occurs c s'
  end.

(** ** Paths: [std::path] on Unix *)

Fixpoint split_slash (cur s : string) : list string :=
  match s with
  | "" => [cur]
  | String "/"%char s' => cur :: split_slash "" s'
  | String c s' => split_slash (cur ++ String c "") s'
  end.

(** Drop the trailing separators and [.] components of a reversed list of
    pieces; its last element is the root or the first component. *)
Fixpoint drop_trailing (ps : list string) : list string :=
  match ps with
  | p :: ((_ :: _) as ps') => if (p =? "") || (p =? ".") then drop_trailing ps' else ps
  | _ => ps
  end.

(** [Path::parent]. *)
Definition path_parent (s : string) : option string :=
  match drop_trailing (List.rev (split_slash "" s)) with
  | [] => None
  | [p] => if p =? "" then None else Some ""
  | _ :: ps =>
      match drop_trailing ps with
      | [""] => Some "/"
      | ps' => Some (String.concat "/" (List.rev ps'))
      end
  end.

(** [Path::join] with a relative or an absolute path. *)
Definition path_join (base name : string) : string :=
  if starts_with "/" name then name
  else if (base =? "") || ends_with "/" base then base ++ name
  else base ++ "/" ++ name.

(** ** UTF-8 validity: [String::from_utf8] *)

Definition cont (c : ascii) : bool := within 128 191 c.

(** The second byte of a sequence of three, and of four. *)
Definition second3 (c d : ascii) : bool :=
  if within 224 224 c then within 160 191 d else if within 237 237 c then within 128 159 d else cont d.
Definition second4 (c d : ascii) : bool :=
  if within 240 240 c then within 144 191 d else if within 244 244 c then within 128 143 d else cont d.

Fixpoint utf8_valid (s : string) : bool :=
  match s with
  | "" => true
  | String c s1 =>
      if within 0 127 c then utf8_valid s1
      else if within 194 223 c then
        match s1 with String d s2 => cont d && utf8_valid s2 | _ => false end
      else if within 224 239 c then
        match s1 with
        | String d (String e s3) => second3 c d && cont e && utf8_valid s3
        | _ => false
        end
      else if within 240 244 c then
        match s1 with
        | String d (String e (String f s4)) => second4 c d && cont e && cont f && utf8_valid s4
        | _ => false
        end
      else false
  end.

(** ** Integers *)

(** [format!("{n}")]. *)
Definition dec (n : Z) : string := NilZero.string_of_int (Z.to_int n).

Definition digit_val (c : ascii) : option Z :=
  let n := Z.of_N (N_of_ascii c) in
  if (48 <=? n)%Z && (n <=? 57)%Z then Some (n - 48)%Z else None.

(** The digits of a base-10 literal; [None] on any other character. *)
Fixpoint digits (acc : Z) (s : string) : option Z :=
  match s with
  | "" => Some acc
  | String c s' =>
      match digit_val c with
      | Some d => digits (10 * acc + d)%Z s'
      | None => None
      end
  end.

Definition nonempty_digits (s : string) : option Z :=
  match s with "" => None | _ => digits 0 s end.

(** [str::parse::<i32>]: an optional sign, at least one digit, no overflow. *)
Definition parse_i32 (s : string) : option Z :=
  let v := match s with
           | String "043"%char s' => nonempty_digits s'
           | String "045"%char s' => option_map Z.opp (nonempty_digits s')
           | _ => nonempty_digits s
           end in
  match v with
  | Some n => if in_i32 n then Some n else None
  | None => None
  end.

(** ** Lemmas *)

Lemma sapp_nil_r s : s ++ "" = s.
Proof. induction s as [|c s IH]; simpl; congruence. Qed.

Lemma sapp_assoc a b c : (a ++ b) ++ c = a ++ (b ++ c).
Proof. induction a as [|x a IH]; simpl; congruence. Qed.

Lemma sapp_length a b : String.length (a ++ b) = (String.length a + String.length b)%nat.
Proof. induction a as [|x a IH]; simpl; congruence. Qed.

Lemma sapp_inv_head a b c : a ++ b = a ++ c -> b = c.
Proof. induction a as [|x a IH]; simpl; [done|]. intros [=]; auto. Qed.

Lemma srev_app a b : srev (a ++ b) = srev b ++ srev a.
Proof.
  unfold srev. assert (Hl : forall a b, list_ascii_of_string (a ++ b)
    = (list_ascii_of_string a ++ list_ascii_of_string b)%list).
  { clear. intros a b. induction a; simpl; congruence. }
  rewrite Hl, List.rev_app_distr. generalize (List.rev (list_ascii_of_string b)).
  intros l. induction l; simpl; congruence.
Qed.

Lemma srev_involutive s : srev (srev s) = s.
Proof.
  unfold srev.
  by rewrite list_ascii_of_string_of_list_ascii, List.rev_involutive,
    string_of_list_ascii_of_string.
Qed.

Lemma starts_with_spec p s : starts_with p s = true <-> exists t, s = p ++ t.
Proof.
  unfold starts_with. revert s. induction p as [|c p IH]; intros [|d s]; simpl.
  - split; eauto.
  - split; eauto.
  - split; [done|intros [t [=]]].
  - destruct (ascii_dec c d) as [->|Hne].
    + rewrite IH. split; intros [t Ht]; exists t; congruence.
    + split; [done|intros [t [=]]; congruence].
Qed.

Lemma ends_with_spec p s : ends_with p s = true <-> exists t, s = t ++ p.
Proof.
  induction s as [|c s IH]; cbn [ends_with]; rewrite orb_true_iff, String.eqb_eq.
  - split; [intros [<-|]; [by exists ""|done]|].
    intros [[|] Ht]; simpl in Ht; [by left|done].
  - rewrite IH. split.
    + intros [<-|[t ->]]; [by exists ""|by exists (String c t)].
    + intros [[|x t] Ht]; simpl in Ht; [by left|right; exists t; congruence].
Qed.

Lemma occurs_app c a b : occurs c (a ++ b) = occurs c a || occurs c b.
Proof. induction a as [|x a IH]; simpl; [done|]. by rewrite IH, orb_assoc. Qed.

(** *** Decimal rendering *)

Lemma dec_int z : NilZero.int_of_string (dec z) = Some (Z.to_int z).
Proof. unfold dec. apply NilZero.isi; destruct z as [|p|p]; simpl; try done;
  intros [=H]; apply (DecimalPos.Unsigned.to_uint_nonnil p H). Qed.

(** *** Trimming a line whose ends are not whitespace *)

Lemma within_false lo hi c : (byte c < lo)%Z -> within lo hi c = false.
Proof. unfold within. intros. apply andb_false_iff. left. by apply Z.leb_gt. Qed.

(** A single-byte character that is not a space stops the trimming. *)
Definition solid (c : ascii) : bool := negb (ws1 c) && within 0 127 c.

Lemma solid_ascii c : solid c = true -> ws1 c = false /\ (byte c < 128)%Z.
Proof. unfold solid, within. intros. breflect. split; [done|lia]. Qed.

Lemma ws2_ascii_l c d : (byte c < 128)%Z -> ws2 c d = false.
Proof. intros. unfold ws2. by rewrite within_false by lia. Qed.

Lemma ws2_ascii_r c d : (byte d < 128)%Z -> ws2 c d = false.
Proof. intros. unfold ws2. rewrite !(within_false _ _ d) by lia. by rewrite andb_false_r. Qed.

Lemma ws3_ascii_l c d e : (byte c < 128)%Z -> ws3 c d e = false.
Proof. intros. unfold ws3. by rewrite !(within_false _ _ c) by lia. Qed.

Lemma ws3_ascii_r c d e : (byte e < 128)%Z -> ws3 c d e = false.
Proof. intros. unfold ws3. rewrite !(within_false _ _ e) by lia. by rewrite !andb_false_r. Qed.

Lemma trim_rev_solid c s : solid c = true -> trim_rev (String c s) = String c s.
Proof.
  intros [Hw Hb]%solid_ascii. cbn [trim_rev]. rewrite Hw.
  destruct s as [|d s]; [done|]. rewrite ws2_ascii_r by done.
  destruct s as [|e s]; [done|]. by rewrite ws3_ascii_r.
Qed.

Lemma trim_start_solid c s : solid c = true -> trim_start (String c s) = String c s.
Proof.
  intros [Hw Hb]%solid_ascii. cbn [trim_start]. rewrite Hw.
  destruct s as [|d s]; [done|]. rewrite ws2_ascii_l by done.
  destruct s as [|e s]; [done|]. by rewrite ws3_ascii_l.
Qed.

Lemma trim_end_solid s c : solid c = true -> trim_end (s ++ String c "") = s ++ String c "".
Proof.
  intros H. unfold trim_end. rewrite srev_app.
  change (srev (String c "") ++ srev s) with (String c (srev s)).
  rewrite trim_rev_solid by done.
  change (String c (srev s)) with (srev (String c "") ++ srev s).
  by rewrite <- srev_app, srev_involutive.
Qed.

Lemma trim_end_ws s c : ws1 c = true -> trim_end (s ++ String c "") = trim_end s.
Proof.
  intros H. unfold trim_end. rewrite srev_app.
  change (srev (String c "") ++ srev s) with (String c (srev s)).
  cbn [trim_rev]. by rewrite H.
Qed.

(** A newline-terminated line whose first and last characters are solid. *)
Lemma trim_line c s d : solid c = true -> solid d = true ->
  trim ((String c s ++ String d "") ++ nl) = String c s ++ String d "".
Proof.
  intros Hc Hd. unfold trim. cbn [String.append]. rewrite trim_start_solid by done.
  change (String c ((s ++ String d "") ++ nl)) with ((String c s ++ String d "") ++ nl).
  unfold nl. rewrite trim_end_ws by done. by apply trim_end_solid.
Qed.

(** *** Decimal parsing reads back decimal rendering *)

Lemma digits_acc u p :
  digits (Zpos p) (NilEmpty.string_of_uint u) = Some (Zpos (Pos.of_uint_acc u p)).
Proof.
  revert p. induction u as [|u IH|u IH|u IH|u IH|u IH|u IH|u IH|u IH|u IH|u IH]; intros p;
    [done|..];
    (cbn [NilEmpty.string_of_uint digits Pos.of_uint_acc];
     match goal with |- context [digit_val ?c] =>
       let v := eval vm_compute in (digit_val c) in change (digit_val c) with v end;
     cbv iota beta; rewrite <- IH; f_equal; lia).
Qed.

Lemma digits_uint u : digits 0 (NilEmpty.string_of_uint u) = Some (Z.of_N (Pos.of_uint u)).
Proof.
  induction u as [|u IH|u IH|u IH|u IH|u IH|u IH|u IH|u IH|u IH|u IH]; [done|done|..];
    (cbn [NilEmpty.string_of_uint digits Pos.of_uint];
     match goal with |- context [digit_val ?c] =>
       let v := eval vm_compute in (digit_val c) in change (digit_val c) with v end;
     cbv iota beta; apply digits_acc).
Qed.

Lemma nonempty_digits_dec n : (0 <= n)%Z -> nonempty_digits (dec n) = Some n.
Proof.
  intros Hn. unfold dec.
  assert (Hu : exists u, Z.to_int n = Decimal.Pos u /\ Z.of_N (Pos.of_uint u) = n
    /\ u <> Decimal.Nil).
  { pose proof (DecimalZ.of_to n) as H. destruct (Z.to_int n) as [u|u] eqn:E.
    - exists u. split_and!; [done|exact H|]. destruct n as [|p|p]; [|injection E as <-|lia].
      + injection E as <-. done.
      + apply (DecimalPos.Unsigned.to_uint_nonnil p).
    - destruct n; done. }
  destruct Hu as (u & -> & Hv & Hne). cbn [NilZero.string_of_int].
  assert (Hz : NilZero.string_of_uint u = NilEmpty.string_of_uint u) by (by destruct u).
  rewrite Hz, <- Hv, <- digits_uint. by destruct u.
Qed.

Lemma dec_not_sign n : (0 <= n)%Z ->
  match dec n with String c _ => within 48 57 c = true | "" => False end.
Proof.
  intros Hn. unfold dec. destruct (Z.to_int n) as [u|u] eqn:E; [by destruct u|].
  destruct n; done.
Qed.

(** [n.to_string().parse::<i32>()] for a non-negative [n]. *)
Lemma parse_i32_dec n : (0 <= n <= i32_max)%Z -> parse_i32 (dec n) = Some n.
Proof.
  intros Hn. unfold parse_i32.
  assert (Hi : in_i32 n = true).
  { apply in_i32_spec. unfold i32_min. lia. }
  pose proof (nonempty_digits_dec n ltac:(lia)) as Hd.
  pose proof (dec_not_sign n ltac:(lia)) as Hs.
  destruct (dec n) as [|c s]; [done|].
  destruct c as [[] [] [] [] [] [] [] []]; try discriminate Hs; by rewrite Hd, Hi.
Qed.

(** *** UTF-8 texts can be joined *)

Lemma utf8_app_len n : forall a b, (String.length a <= n)%nat -> utf8_valid a = true ->
  utf8_valid (a ++ b) = utf8_valid b.
Proof.
  induction n as [|n IH]; intros a b Hn Ha; (destruct a as [|c a]; [done|cbn in Hn; try lia]).
  cbn [utf8_valid String.append] in *. destruct (within 0 127 c); [apply IH; [lia|done]|].
  destruct (within 194 223 c); [|destruct (within 224 239 c); [|destruct (within 240 244 c); [|done]]];
    repeat (destruct a as [|? a]; [done|]; cbn [String.append String.length] in *;
            try (apply andb_prop in Ha as [Hd Ha]; rewrite Hd; apply IH; [lia|done])).
Qed.

Lemma utf8_app a b : utf8_valid a = true -> utf8_valid (a ++ b) = utf8_valid b.
Proof. by apply (utf8_app_len (String.length a)). Qed.

Lemma utf8_ascii c s : within 0 127 c = true -> utf8_valid (String c s) = utf8_valid s.
Proof. intros H. cbn [utf8_valid]. by rewrite H. Qed.

Lemma utf8_dec n : utf8_valid (dec n) = true.
Proof.
  assert (Hu : forall u, utf8_valid (NilEmpty.string_of_uint u) = true).
  { induction u; cbn [NilEmpty.string_of_uint]; [done|by rewrite utf8_ascii..]. }
  unfold dec. destruct (Z.to_int n) as [u|u]; destruct u; cbn [NilZero.string_of_int NilZero.string_of_uint];
    rewrite ?utf8_ascii by done; try done; apply (Hu (_ _)).
Qed.

Lemma utf8_app_intro a b : utf8_valid a = true -> utf8_valid b = true -> utf8_valid (a ++ b) = true.
Proof. intros Ha Hb. by rewrite utf8_app. Qed.

Create HintDb utf8.
#[export] Hint Resolve utf8_dec utf8_app_intro : utf8.
#[export] Hint Extern 1 (utf8_valid _ = true) => reflexivity : utf8.

(** For a literal followed by something. *)
Ltac solve_utf8 := repeat rewrite utf8_ascii by reflexivity; auto with utf8.

(** ** Lines hold no newline *)

Lemma srev_cons c s : srev (String c s) = srev s ++ String c "".
Proof. change (String c s) with (String c "" ++ s). by rewrite srev_app. Qed.

Lemma occurs_rev c s : occurs c (srev s) = occurs c s.
Proof.
  induction s as [|d s IH]; [done|]. rewrite srev_cons, occurs_app, IH. cbn. by rewrite orb_false_r, orb_comm.
Qed.

Lemma strip_cr_occurs c s : occurs c s = false -> occurs c (strip_cr s) = false.
Proof.
  intros H. unfold strip_cr. rewrite <- occurs_rev in H. destruct (srev s) as [|d r] eqn:E; [by rewrite <- occurs_rev, E|].
  cbn in H. apply orb_false_elim in H as [Hd Hr].
  assert (Hs : occurs c s = false) by (rewrite <- occurs_rev, E; cbn; by rewrite Hd, Hr).
  destruct d as [[] [] [] [] [] [] [] []]; by rewrite ?occurs_rev.
Qed.

Lemma lines_from_cons cur c s : lines_from cur (String c s) =
  if Ascii.eqb c "010" then strip_cr cur :: lines_from "" s else lines_from (cur ++ String c "") s.
Proof. by destruct c as [[] [] [] [] [] [] [] []]. Qed.

Lemma lines_from_no_newline s : forall cur, occurs "010" cur = false ->
  Forall (fun l => occurs "010" l = false) (lines_from cur s).
Proof.
  induction s as [|c s IH]; intros cur Hc.
  - cbn. destruct (cur =? ""); by repeat constructor.
  - rewrite lines_from_cons. destruct (Ascii.eqb c "010") eqn:E.
    + constructor; [by apply strip_cr_occurs|by apply IH].
    + apply IH. rewrite occurs_app, Hc. cbn [occurs]. by rewrite Ascii.eqb_sym, E.
Qed.

Lemma lines_no_newline s : Forall (fun l => occurs "010" l = false) (lines s).
Proof. by apply lines_from_no_newline. Qed.

(** ** [String::from_utf8_lossy] *)

(** U+FFFD, which stands for each maximal part of an ill-formed sequence. *)
Definition REPLACEMENT : string := String "239" (String "191" (String "189" "")).

Fixpoint from_utf8_lossy (s : string) : string :=
  match s with
  | "" => ""
  | String c s1 =>
      if within 0 127 c then String c (from_utf8_lossy s1)
      else if within 194 223 c then
        match s1 with
        | String d s2 =>
            if cont d then String c (String d (from_utf8_lossy s2))
            else REPLACEMENT ++ from_utf8_lossy s1
        | "" => REPLACEMENT
        end
      else if within 224 239 c then
        match s1 with
        | String d s2 =>
            if second3 c d then
              match s2 with
              | String e s3 =>
                  if cont e then String c (String d (String e (from_utf8_lossy s3)))
                  else REPLACEMENT ++ from_utf8_lossy s2
              | "" => REPLACEMENT
              end
            else REPLACEMENT ++ from_utf8_lossy s1
        | "" => REPLACEMENT
        end
      else if within 240 244 c then
        match s1 with
        | String d s2 =>
            if second4 c d then
              match s2 with
              | String e s3 =>
                  if cont e then
                    match s3 with
                    | String f s4 =>
                        if cont f then String c (String d (String e (String f (from_utf8_lossy s4))))
                        else REPLACEMENT ++ from_utf8_lossy s3
                    | "" => REPLACEMENT
                    end
                  else REPLACEMENT ++ from_utf8_lossy s2
              | "" => REPLACEMENT
              end
            else REPLACEMENT ++ from_utf8_lossy s1
        | "" => REPLACEMENT
        end
      else REPLACEMENT ++ from_utf8_lossy s1
  end.

(** A sequence of four bytes that ends after three is replaced as a whole. *)
Example lossy_ill_formed :
  from_utf8_lossy (String "H" (String "240" (String "144" (String "128" (String "W" "")))))
  = "H" ++ REPLACEMENT ++ "W".
Proof. reflexivity. Qed.

Lemma lossy_valid_len n : forall s, (String.length s <= n)%nat -> utf8_valid (from_utf8_lossy s) = true.
Proof.
  induction n as [|n IH]; intros [|c s1] Hn; cbn [String.length] in Hn; try done; [lia|].
  assert (Hr : forall t, utf8_valid (REPLACEMENT ++ t) = utf8_valid t) by reflexivity.
  cbn [from_utf8_lossy].
  repeat match goal with
  | |- context [match ?s with "" => _ | _ => _ end] => is_var s; destruct s; cbn [String.length] in Hn
  | |- context [if ?b then _ else _] => destruct b eqn:?
  end; try done; rewrite ?Hr; cbn [utf8_valid];
    repeat match goal with H : _ = true |- _ => rewrite H; clear H | H : _ = false |- _ => rewrite H; clear H end;
    apply IH; cbn [String.length]; lia.
Qed.

Lemma lossy_valid s : utf8_valid (from_utf8_lossy s) = true.
Proof. by apply (lossy_valid_len (String.length s)). Qed.

Lemma lossy_id_len n : forall s, (String.length s <= n)%nat -> utf8_valid s = true -> from_utf8_lossy s = s.
Proof.
  induction n as [|n IH]; intros [|c s1] Hn; cbn [String.length] in Hn; try done; [lia|].
  cbn [from_utf8_lossy utf8_valid].
  repeat match goal with
  | |- context [match ?s with "" => _ | _ => _ end] => is_var s; destruct s; cbn [String.length] in Hn
  | |- context [if ?b then _ else _] => destruct b eqn:?
  end; cbn [andb]; rewrite ?andb_false_r; cbn [andb]; try done; intros H;
    by rewrite IH by (done || (cbn [String.length]; lia)).
Qed.

Lemma lossy_id s : utf8_valid s = true -> from_utf8_lossy s = s.
Proof. by apply (lossy_id_len (String.length s)). Qed.
