(* ===== verification/Json.v ===== *)
(** * JSON values and the interface of the [serde_json] crate

    [serde_json] is not part of the repository: its printer and parser are the
    methods of the class [SerdeJson], with the documented behaviour the two
    protocol modules rely on as laws.  The [tagged], [required], ... readers
    below give the [#[serde(...)]] attributes the sources write on their types
    their documented meaning. *)

From Stdlib Require Import ZArith Lia Ascii String.
From stdpp Require Import base list strings option.
From S2P Require Import Prelude RustStr.

Open Scope string_scope.

(** A number that is not an integer keeps its text; the entries of an object
    are kept in text order, repeated keys included. *)
Inductive json : Type :=
| JNull
| JBool (b : bool)
| JInt (n : Z)
| JFloat (lit : string)
| JStr (s : string)
| JArr (l : list json)
| JObj (fs : list (string * json)).

(** A scalar a Rust value of the protocol types can serialize to. *)
Definition scalar (v : json) : bool :=
  match v with
  | JNull | JBool _ => true
  | JInt n => (- 9223372036854775808 <=? n)%Z && (n <=? u64_max)%Z
  | JStr s => utf8_valid s
  | JFloat _ | JArr _ | JObj _ => false
  end.

Definition flat (fs : list (string * json)) : bool :=
  forallb (fun kv => utf8_valid (kv.1) && scalar (kv.2)) fs.

(** ** The interface of [serde_json] *)

Class SerdeJson := {
  (** [serde_json::to_string], on what a derived [Serialize] emits. *)
  to_string : json -> string;
  (** [serde_json::from_str]: the value read from the text. *)
  from_str : string -> option json;
  (** The [Display] text of the [serde_json::Error] of a rejected text. *)
  error_text : string -> string;
  (** The entries a JSON array stands for where an internally tagged enum is
      expected; serde does not document it. *)
  seq_form : list json -> option (list (string * json));
  (** Documented behaviour: what is printed is read back, an object is printed
      between braces, control characters are escaped, and the text is UTF-8, like
      the text of an error. *)
  from_str_to_string fs : flat fs = true -> from_str (to_string (JObj fs)) = Some (JObj fs);
  to_string_braces fs : exists b, to_string (JObj fs) = String "{" b ++ "}";
  to_string_no_newline fs : flat fs = true -> occurs "010" (to_string (JObj fs)) = false;
  to_string_utf8 fs : flat fs = true -> utf8_valid (to_string (JObj fs)) = true;
  error_text_utf8 s : utf8_valid (error_text s) = true
}.

(** ** The serde attributes *)

(** The entries of a value read as an internally tagged enum. *)
Definition entries {S : SerdeJson} (v : json) : option (list (string * json)) :=
  match v with
  | JObj fs => Some fs
  | JArr l => seq_form l
  | _ => None
  end.

(** The values an object gives for a key; a derived [Deserialize] rejects a
    repeated one. *)
Definition values (k : string) (fs : list (string * json)) : list json :=
  map snd (List.filter (fun kv => kv.1 =? k) fs).

Definition field (k : string) (fs : list (string * json)) : option (option json) :=
  match values k fs with
  | [] => Some None
  | [v] => Some (Some v)
  | _ => None
  end.

(** A field without attribute. *)
Definition required {A} (conv : json -> option A) (k : string)
    (fs : list (string * json)) : option A :=
  match field k fs with
  | Some (Some v) => conv v
  | _ => None
  end.

(** A field with [#[serde(default)]]. *)
Definition defaulted {A} (conv : json -> option A) (d : A) (k : string)
    (fs : list (string * json)) : option A :=
  match field k fs with
  | Some (Some v) => conv v
  | Some None => Some d
  | None => None
  end.

(** [Deserialize] of the primitive types. *)
Definition de_int (inrange : Z -> bool) (v : json) : option Z :=
  match v with
  | JInt n => if inrange n then Some n else None
  | _ => None
  end.

Definition de_bool (v : json) : option bool :=
  match v with JBool b => Some b | _ => None end.

Definition de_string (v : json) : option string :=
  match v with JStr s => Some s | _ => None end.

Definition de_option {A} (conv : json -> option A) (v : json) : option (option A) :=
  match v with
  | JNull => Some None
  | _ => option_map Some (conv v)
  end.

(** [Serialize] of an [Option]. *)
Definition ser_option (o : option Z) : json :=
  match o with Some n => JInt n | None => JNull end.

(** ** [serde_json::Map]

    Without the crate's feature [preserve_order], which the repository does not
    turn on, the object of a [serde_json::Value] is a map ordered by key: what
    [json!] builds is printed in that order. *)

Fixpoint map_insert (k : string) (v : json) (m : list (string * json)) : list (string * json) :=
  match m with
  | [] => [(k, v)]
  | (k', v') :: m' =>
      match String.compare k k' with
      | Lt => (k, v) :: m
      | Eq => (k, v) :: m'
      | Gt => (k', v') :: map_insert k v m'
      end
  end.

Definition json_object (fs : list (string * json)) : json :=
  JObj (foldl (fun m kv => map_insert (kv.1) (kv.2) m) [] fs).

(** ** Lemmas *)

(** A new key is added, and nothing else changes but the order. *)
Lemma map_insert_perm k v m : k ∉ map fst m -> Permutation (map_insert k v m) ((k, v) :: m).
Proof.
  induction m as [|[k' v'] m IH]; [done|]. cbn. rewrite not_elem_of_cons. intros [Hk Hm].
  destruct (String.compare k k') eqn:E; [by apply String.compare_eq_iff in E|done|].
  rewrite (IH Hm). apply perm_swap.
Qed.

(** Distinct keys: the object has the given entries, in the order of the keys. *)
Lemma json_object_perm fs : NoDup (map fst fs) -> exists m, json_object fs = JObj m /\ Permutation m fs.
Proof.
  intros Hfs. eexists. split; [done|].
  assert (H : forall m, NoDup (map fst (m ++ fs)%list) ->
    Permutation (foldl (fun m kv => map_insert (kv.1) (kv.2) m) m fs) (m ++ fs)%list).
  { clear Hfs. induction fs as [|[k v] fs IH]; intros m Hm; [by rewrite app_nil_r|]. cbn [foldl fst snd].
    assert (Hp : Permutation (map_insert k v m ++ fs)%list (m ++ (k, v) :: fs)%list).
    { rewrite map_insert_perm; [by rewrite <- Permutation_middle|]. intros Hk.
      rewrite map_app in Hm. apply list.NoDup_app in Hm as (_ & Hm & _). apply (Hm k Hk). by left. }
    rewrite IH; [done|]. by rewrite Hp. }
  by apply (H []).
Qed.

Lemma de_option_ser inrange o :
  (forall n, o = Some n -> inrange n = true) ->
  de_option (de_int inrange) (ser_option o) = Some o.
Proof. destruct o as [n|]; simpl; [|done]. intros ->; done. Qed.

Lemma scalar_ser_option o : (forall n, o = Some n -> scalar (JInt n) = true) ->
  scalar (ser_option o) = true.
Proof. destruct o; simpl; auto. Qed.

Lemma scalar_in_u32 n : in_u32 n = true -> scalar (JInt n) = true.
Proof.
  rewrite in_u32_spec. unfold u32_max. intros. simpl. unfold u64_max.
  apply andb_true_iff. rewrite !Z.leb_le. lia.
Qed.

Lemma scalar_in_u16 n : in_u16 n = true -> scalar (JInt n) = true.
Proof. rewrite in_u16_spec. intros. apply scalar_in_u32, in_u32_spec.
  unfold u16_max, u32_max in *. lia. Qed.

Lemma scalar_in_i32 n : in_i32 n = true -> scalar (JInt n) = true.
Proof.
  rewrite in_i32_spec. unfold i32_min, i32_max. intros. simpl. unfold u64_max.
  apply andb_true_iff. rewrite !Z.leb_le. lia.
Qed.

Create HintDb json.
#[export] Hint Resolve scalar_in_u32 scalar_in_u16 scalar_in_i32 scalar_ser_option
  de_option_ser : json.

Lemma solid_open : solid "{" = true. Proof. done. Qed.
Lemma solid_close : solid "}" = true. Proof. done. Qed.

(** A printed object followed by the line terminator is read back. *)
Lemma from_str_line {S : SerdeJson} fs : flat fs = true ->
  from_str (trim (to_string (JObj fs) ++ nl)) = Some (JObj fs).
Proof.
  intros H. destruct (to_string_braces fs) as [b Hb].
  rewrite Hb, trim_line by done. rewrite <- Hb. by apply from_str_to_string.
Qed.

(** ** Showing that an object can be printed and read back *)

Lemma flat_intro k v fs : utf8_valid k = true -> scalar v = true -> flat fs = true ->
  flat ((k, v) :: fs) = true.
Proof. intros Hk Hv Hfs. cbn [flat forallb fst snd]. by rewrite Hk, Hv. Qed.

Lemma scalar_str s : utf8_valid s = true -> scalar (JStr s) = true.
Proof. done. Qed.

#[export] Hint Resolve scalar_str : json.

(** Closes [flat _ = true] from the ranges of the fields. *)
Ltac solve_flat :=
  repeat (apply flat_intro; [reflexivity | | ]);
  first [reflexivity | solve [auto with json] | idtac].
