(* ===== verification/JsonText.v ===== *)
(** * A concrete JSON text codec

    An executable printer and parser for JSON text that satisfies the laws of
    [Json.SerdeJson].  It models no code of the repository: it shows that the
    interface can be met, and the witnesses of the theorems proved against the
    interface evaluate with it. *)

From Stdlib Require Import ZArith Lia Ascii String DecimalString DecimalZ.
From stdpp Require Import base list strings option.
From S2P Require Import Prelude RustStr Json.

Open Scope string_scope.

(** ** Printing *)

Definition hex_digit (n : Z) : ascii :=
  ascii_of_N (Z.to_N (if (n <? 10)%Z then 48 + n else 87 + n)).

Definition esc_char (c : ascii) : string :=
  if (c =? "034")%char then backslash ++ quote else
  if (c =? "092")%char then backslash ++ backslash else
  if (c =? "010")%char then backslash ++ "n" else
  if (c =? "013")%char then backslash ++ "r" else
  if (c =? "009")%char then backslash ++ "t" else
  if (byte c <? 32)%Z
  then backslash ++ "u00" ++ String (hex_digit (byte c / 16)) (String (hex_digit (byte c mod 16)) "")
  else String c "".

Fixpoint esc (s : string) : string :=
  match s with "" => "" | String c s' => esc_char c ++ esc s' end.

Definition print_str (s : string) : string := quote ++ esc s ++ quote.

Fixpoint print (v : json) : string :=
  match v with
  | JNull => "null"
  | JBool true => "true"
  | JBool false => "false"
  | JInt n => dec n
  | JFloat lit => lit
  | JStr s => print_str s
  | JArr l =>
      "[" ++ (fix go (sep : string) (l : list json) : string :=
                match l with
                | [] => "]"
                | v :: l' => sep ++ print v ++ go "," l'
                end) "" l
  | JObj fs =>
      "{" ++ (fix go (sep : string) (fs : list (string * json)) : string :=
                match fs with
                | [] => "}"
                | (k, v) :: fs' => sep ++ print_str k ++ ":" ++ print v ++ go "," fs'
                end) "" fs
  end.

(** ** Parsing *)

Definition hex_val (c : ascii) : option Z :=
  if within 48 57 c then Some (byte c - 48)%Z
  else if within 97 102 c then Some (byte c - 87)%Z
  else if within 65 70 c then Some (byte c - 55)%Z
  else None.

(** The text of a string literal after its opening quote. *)
Fixpoint parse_chars (s : string) : option (string * string) :=
  match s with
  | "" => None
  | String c r =>
      let more (d : ascii) (r : string) (p : option (string * string)) :=
        match p with Some (t, r') => Some (String d t, r') | None => None end in
      if (c =? "034")%char then Some ("", r)
      else if (c =? "092")%char then
        match r with
        | String "034" r' => more "034"%char r' (parse_chars r')
        | String "092" r' => more "092"%char r' (parse_chars r')
        | String "/" r' => more "/"%char r' (parse_chars r')
        | String "n" r' => more "010"%char r' (parse_chars r')
        | String "r" r' => more "013"%char r' (parse_chars r')
        | String "t" r' => more "009"%char r' (parse_chars r')
        | String "u" (String "0" (String "0" (String x (String y r')))) =>
            match hex_val x, hex_val y with
            | Some a, Some b =>
                more (ascii_of_N (Z.to_N (16 * a + b))) r' (parse_chars r')
            | _, _ => None
            end
        | _ => None
        end
      else if (byte c <? 32)%Z then None
      else more c r (parse_chars r)
  end.

Definition num_char (c : ascii) : bool :=
  within 48 57 c || within 45 46 c || within 43 43 c || within 69 69 c || within 101 101 c.

Fixpoint span_num (s : string) : string * string :=
  match s with
  | String c r => if num_char c then let (t, r') := span_num r in (String c t, r') else ("", s)
  | "" => ("", "")
  end.

Definition parse_num (s : string) : option (json * string) :=
  let (t, r) := span_num s in
  match NilZero.int_of_string t with
  | Some d => Some (JInt (Z.of_int d), r)
  | None => if t =? "" then None else Some (JFloat t, r)
  end.

Fixpoint skip_ws (s : string) : string :=
  match s with
  | String c r => if ws1 c then skip_ws r else s
  | "" => ""
  end.

(** [strip p s]: what follows [p] in [s]. *)
Fixpoint strip (p s : string) : option string :=
  match p, s with
  | "", _ => Some s
  | String c p', String d s' => if (c =? d)%char then strip p' s' else None
  | _, _ => None
  end.

Definition literal (p : string) (v : json) (s : string) : option (json * string) :=
  match strip p s with Some r => Some (v, r) | None => None end.

(** [fuel] bounds the nesting and the number of entries; the length of the text
    is enough for both. *)
Fixpoint parse_value (fuel : nat) (s : string) : option (json * string) :=
  match fuel with
  | O => None
  | S fuel =>
      match skip_ws s with
      | String "n" _ => literal "null" JNull (skip_ws s)
      | String "t" _ => literal "true" (JBool true) (skip_ws s)
      | String "f" _ => literal "false" (JBool false) (skip_ws s)
      | String "034" r =>
          match parse_chars r with Some (t, r') => Some (JStr t, r') | None => None end
      | String "[" r =>
          match skip_ws r with
          | String "]" r' => Some (JArr [], r')
          | _ => match parse_elems fuel r with Some (l, r') => Some (JArr l, r') | None => None end
          end
      | String "{" r =>
          match skip_ws r with
          | String "}" r' => Some (JObj [], r')
          | _ => match parse_entries fuel r with Some (l, r') => Some (JObj l, r') | None => None end
          end
      | r => parse_num r
      end
  end
with parse_elems (fuel : nat) (s : string) : option (list json * string) :=
  match fuel with
  | O => None
  | S fuel =>
      match parse_value fuel s with
      | Some (v, r) =>
          match skip_ws r with
          | String "," r' =>
              match parse_elems fuel r' with Some (l, r'') => Some (v :: l, r'') | None => None end
          | String "]" r' => Some ([v], r')
          | _ => None
          end
      | None => None
      end
  end
with parse_entries (fuel : nat) (s : string) : option (list (string * json) * string) :=
  match fuel with
  | O => None
  | S fuel =>
      match skip_ws s with
      | String "034" r =>
          match parse_chars r with
          | Some (k, r) =>
              match skip_ws r with
              | String ":" r =>
                  match parse_value fuel r with
                  | Some (v, r) =>
                      match skip_ws r with
                      | String "," r' =>
                          match parse_entries fuel r' with
                          | Some (l, r'') => Some ((k, v) :: l, r'')
                          | None => None
                          end
                      | String "}" r' => Some ([(k, v)], r')
                      | _ => None
                      end
                  | None => None
                  end
              | _ => None
              end
          | None => None
          end
      | _ => None
      end
  end.

Definition parse (s : string) : option json :=
  match parse_value (S (S (String.length s))) s with
  | Some (v, r) => if skip_ws r =? "" then Some v else None
  | None => None
  end.

(** ** Reading back what is printed *)

Lemma parse_esc_char c x :
  parse_chars (esc_char c ++ x) =
  match parse_chars x with Some (t, r) => Some (String c t, r) | None => None end.
Proof. destruct c as [[] [] [] [] [] [] [] []]; reflexivity. Qed.

Lemma parse_chars_esc s r : parse_chars (esc s ++ quote ++ r) = Some (s, r).
Proof.
  induction s as [|c s IH]; [done|]. cbn [esc].
  by rewrite sapp_assoc, parse_esc_char, IH.
Qed.

Fixpoint all_num (s : string) : bool :=
  match s with "" => true | String c s' => num_char c && all_num s' end.

Lemma all_num_dec n : all_num (dec n) = true.
Proof.
  assert (Hu : forall u, all_num (NilEmpty.string_of_uint u) = true) by (induction u; done).
  unfold dec. destruct (Z.to_int n) as [u|u]; simpl.
  - destruct u; [done|apply (Hu (_ _))..].
  - destruct u; [done|apply (Hu (_ _))..].
Qed.

Lemma span_num_app t c r : all_num t = true -> num_char c = false ->
  span_num (t ++ String c r) = (t, String c r).
Proof.
  intros Ht Hc. induction t as [|d t IH]; simpl in *.
  - by rewrite Hc.
  - apply andb_prop in Ht as [-> Ht]. by rewrite IH.
Qed.

Lemma dec_head n : exists c t, dec n = String c t /\ (c = "-"%char \/ within 48 57 c = true).
Proof.
  unfold dec. destruct (Z.to_int n) as [u|u]; simpl; [|by eexists _, _; eauto].
  destruct u; simpl; eexists _, _; split; try reflexivity; by right.
Qed.

Lemma parse_num_dec n c r : num_char c = false ->
  parse_num (dec n ++ String c r) = Some (JInt n, String c r).
Proof.
  intros Hc. unfold parse_num. rewrite span_num_app by (done || apply all_num_dec).
  by rewrite dec_int, DecimalZ.of_to.
Qed.

Lemma parse_value_num fuel n c r : num_char c = false ->
  parse_value (S fuel) (dec n ++ String c r) = Some (JInt n, String c r).
Proof.
  intros Hc. rewrite <- (parse_num_dec n c r Hc).
  destruct (dec_head n) as (d & t & -> & Hd). cbn [String.append].
  destruct Hd as [->|Hd]; [done|].
  destruct d as [[] [] [] [] [] [] [] []]; done.
Qed.

Lemma print_str_app s r : print_str s ++ r = String "034" (esc s ++ quote ++ r).
Proof. unfold print_str. by rewrite !sapp_assoc. Qed.

(** The printed scalar is read back, the text after it untouched. *)
Lemma parse_value_scalar fuel v c r : scalar v = true -> num_char c = false ->
  parse_value (S fuel) (print v ++ String c r) = Some (v, String c r).
Proof.
  intros Hv Hc. destruct v as [|[]|n| |s| |]; try done.
  - by apply parse_value_num.
  - cbn [print]. rewrite print_str_app. cbn [parse_value skip_ws].
    change (ws1 "034") with false. cbv iota. by rewrite parse_chars_esc.
Qed.

(** The text of the entries of an object after its opening brace. *)
Fixpoint print_entries (sep : string) (fs : list (string * json)) : string :=
  match fs with
  | [] => "}"
  | (k, v) :: fs' => sep ++ print_str k ++ ":" ++ print v ++ print_entries "," fs'
  end.

Lemma print_obj fs : print (JObj fs) = "{" ++ print_entries "" fs.
Proof. reflexivity. Qed.

(** One entry is read, whatever follows it after a comma or a closing brace. *)
Lemma parse_entry fuel k v c r : scalar v = true -> num_char c = false ->
  parse_entries (S (S fuel)) (print_str k ++ String ":" (print v ++ String c r)) =
  match skip_ws (String c r) with
  | String "," r' =>
      match parse_entries (S fuel) r' with
      | Some (l, r'') => Some ((k, v) :: l, r'')
      | None => None
      end
  | String "}" r' => Some ([(k, v)], r')
  | _ => None
  end.
Proof.
  intros Hv Hc. rewrite print_str_app. remember (S fuel) as f.
  cbn [parse_entries skip_ws]. change (ws1 "034") with false. cbv iota.
  rewrite parse_chars_esc. cbn [String.append skip_ws].
  change (ws1 ":") with false. cbv iota. subst f.
  by rewrite parse_value_scalar.
Qed.

Lemma parse_print_entries fs : forall fuel r, flat fs = true -> fs <> [] ->
  (length fs < fuel)%nat ->
  parse_entries fuel (print_entries "" fs ++ r) = Some (fs, r).
Proof.
  induction fs as [|[k v] fs IH]; intros fuel r Hfs Hne Hlen; [done|].
  cbn [flat forallb fst snd] in Hfs. apply andb_prop in Hfs as [Hkv Hfs].
  apply andb_prop in Hkv as [Hk Hv]. cbn [length] in Hlen.
  destruct fuel as [|[|fuel]]; [lia..|]. cbn [print_entries String.append].
  destruct fs as [|[k' v'] fs].
  - cbn [print_entries]. rewrite !sapp_assoc. cbn [String.append]. rewrite sapp_assoc.
    cbn [String.append]. by rewrite parse_entry.
  - change (print_entries "," ((k', v') :: fs))
      with (String "," (print_entries "" ((k', v') :: fs))).
    rewrite !sapp_assoc. cbn [String.append]. rewrite sapp_assoc.
    cbn [String.append]. rewrite parse_entry by done. cbn [skip_ws].
    change (ws1 ",") with false. cbv iota. rewrite IH; [done..|]. lia.
Qed.

Lemma print_entries_length sep fs : (length fs <= String.length (print_entries sep fs))%nat.
Proof.
  revert sep. induction fs as [|[k v] fs IH]; intros sep; [simpl; lia|].
  cbn [print_entries length]. rewrite !sapp_length. specialize (IH ",").
  change (String.length ":") with 1%nat. lia.
Qed.

Lemma parse_print fs : flat fs = true -> parse (print (JObj fs)) = Some (JObj fs).
Proof.
  intros H. rewrite print_obj. unfold parse. destruct fs as [|[k v] fs]; [done|].
  assert (Hp := parse_print_entries ((k, v) :: fs)
    (S (String.length ("{" ++ print_entries "" ((k, v) :: fs)))) "" H).
  rewrite sapp_nil_r in Hp. cbn [String.append parse_value skip_ws String.length] in *.
  change (ws1 "{") with false. cbv iota.
  destruct (print_entries "" ((k, v) :: fs)) as [|c s] eqn:E; [done|].
  assert (c = "034"%char) as ->.
  { cbn [print_entries String.append] in E. rewrite print_str_app in E. congruence. }
  cbn [skip_ws]. change (ws1 "034") with false. cbv iota.
  assert (Hl := print_entries_length "" ((k, v) :: fs)). rewrite E in Hl.
  rewrite Hp; [done|done|]. cbn [String.length length] in *. lia.
Qed.

(** ** The laws of the interface *)

Lemma print_entries_close sep fs : exists b, print_entries sep fs = b ++ "}".
Proof.
  revert sep. induction fs as [|[k v] fs IH]; intros sep; [by exists ""|].
  destruct (IH ",") as [b Hb]. cbn [print_entries]. rewrite Hb.
  exists (sep ++ print_str k ++ ":" ++ print v ++ b). by rewrite !sapp_assoc.
Qed.

Lemma esc_no_newline s : occurs "010" (esc s) = false.
Proof.
  induction s as [|c s IH]; [done|]. cbn [esc]. rewrite occurs_app, IH, orb_false_r.
  by destruct c as [[] [] [] [] [] [] [] []].
Qed.

Lemma all_num_no_newline s : all_num s = true -> occurs "010" s = false.
Proof.
  induction s as [|c s IH]; [done|]. cbn [all_num occurs]. intros [Hc Hs]%andb_prop.
  rewrite IH by done. rewrite orb_false_r. 
  destruct (Ascii.eqb_spec "010" c) as [<-|]; done.
Qed.

Lemma print_str_no_newline s : occurs "010" (print_str s) = false.
Proof. unfold print_str. by rewrite !occurs_app, esc_no_newline. Qed.

Lemma print_scalar_no_newline v : scalar v = true -> occurs "010" (print v) = false.
Proof.
  destruct v as [|[]|n| |s| |]; try done; intros _.
  - apply all_num_no_newline, all_num_dec.
  - apply print_str_no_newline.
Qed.

Lemma print_entries_no_newline fs : flat fs = true -> forall sep, occurs "010" sep = false ->
  occurs "010" (print_entries sep fs) = false.
Proof.
  induction fs as [|[k v] fs IH]; [done|]. cbn [flat forallb snd]. intros Hf sep Hs.
  apply andb_prop in Hf as [Hv Hfs]. apply andb_prop in Hv as [_ Hv].
  cbn [print_entries]. rewrite !occurs_app, Hs, print_str_no_newline,
    print_scalar_no_newline, IH by done. done.
Qed.

Lemma print_obj_braces fs : exists b, print (JObj fs) = String "{" b ++ "}".
Proof. rewrite print_obj. destruct (print_entries_close "" fs) as [b ->]. by exists b. Qed.

Lemma print_obj_no_newline fs : flat fs = true -> occurs "010" (print (JObj fs)) = false.
Proof. intros H. rewrite print_obj, occurs_app. by rewrite print_entries_no_newline. Qed.

(** *** The printed text is UTF-8 *)

Fixpoint ascii_only (s : string) : bool :=
  match s with "" => true | String c s' => within 0 127 c && ascii_only s' end.

Lemma utf8_ascii_only s : ascii_only s = true -> utf8_valid s = true.
Proof.
  induction s as [|c s IH]; [done|]. cbn [ascii_only]. intros [Hc Hs]%andb_prop.
  rewrite utf8_ascii by done. auto.
Qed.

Lemma esc_char_ascii c : within 0 127 c = true -> ascii_only (esc_char c) = true.
Proof. destruct c as [[] [] [] [] [] [] [] []]; done. Qed.

Lemma esc_char_high c : within 0 127 c = false -> esc_char c = String c "".
Proof. destruct c as [[] [] [] [] [] [] [] []]; done. Qed.

Lemma cont_high c : cont c = true -> within 0 127 c = false.
Proof. unfold cont, within. intros H. breflect. apply andb_false_iff. right. apply Z.leb_gt. lia. Qed.

Lemma second_high c d : second3 c d = true \/ second4 c d = true -> within 0 127 d = false.
Proof.
  unfold second3, second4, cont, within. intros H. apply andb_false_iff. right. apply Z.leb_gt.
  destruct H as [H|H]; repeat case_match; breflect; lia.
Qed.

Lemma esc_high c t : within 0 127 c = false -> esc_char c ++ t = String c t.
Proof. intros Hc. by rewrite esc_char_high. Qed.

Lemma utf8_esc_len n : forall s, (String.length s <= n)%nat -> utf8_valid s = true ->
  utf8_valid (esc s) = true.
Proof.
  induction n as [|n IH]; intros s Hn Hs; (destruct s as [|c s]; [done|cbn in Hn; try lia]).
  cbn [utf8_valid] in Hs. cbn [esc]. destruct (within 0 127 c) eqn:Hc.
  { rewrite utf8_app by (by apply utf8_ascii_only, esc_char_ascii). apply IH; [lia|done]. }
  rewrite (esc_high c) by done. cbn [utf8_valid]. rewrite Hc.
  destruct (within 194 223 c); [|destruct (within 224 239 c); [|destruct (within 240 244 c); [|done]]];
    repeat (destruct s as [|? s]; [done|]; cbn [esc String.length] in * );
    breflect;
    rewrite ?esc_high by eauto using cont_high, second_high;
    repeat match goal with H : _ = true |- _ => rewrite H end; apply IH; done || lia.
Qed.

Lemma utf8_print_str s t : utf8_valid s = true ->
  utf8_valid (print_str s ++ t) = utf8_valid t.
Proof.
  intros Hs. rewrite print_str_app, utf8_ascii, utf8_app by
    (done || by apply (utf8_esc_len (String.length s))).
  unfold quote. cbn [String.append]. by rewrite utf8_ascii.
Qed.

Lemma all_num_ascii s : all_num s = true -> ascii_only s = true.
Proof.
  induction s as [|c s IH]; [done|]. cbn [all_num ascii_only]. intros [Hc Hs]%andb_prop.
  rewrite IH, andb_true_r by done. by destruct c as [[] [] [] [] [] [] [] []].
Qed.

Lemma utf8_print_scalar v t : scalar v = true -> utf8_valid (print v ++ t) = utf8_valid t.
Proof.
  intros Hv. destruct v as [|[]|n| |s| |]; try done.
  - cbn [print]. rewrite utf8_app; [done|]. apply utf8_ascii_only, all_num_ascii, all_num_dec.
  - by apply utf8_print_str.
Qed.

Lemma utf8_print_entries fs sep : flat fs = true -> ascii_only sep = true ->
  utf8_valid (print_entries sep fs) = true.
Proof.
  revert sep. induction fs as [|[k v] fs IH]; intros sep Hf Hs; [done|].
  cbn [flat forallb fst snd] in Hf. apply andb_prop in Hf as [[Hk Hv]%andb_prop Hfs].
  cbn [print_entries]. rewrite utf8_app by (by apply utf8_ascii_only).
  rewrite utf8_print_str by done. cbn [String.append]. rewrite utf8_ascii by done.
  rewrite utf8_print_scalar by done. by apply IH.
Qed.

Lemma print_obj_utf8 fs : flat fs = true -> utf8_valid (print (JObj fs)) = true.
Proof.
  intros H. rewrite print_obj. cbn [String.append]. rewrite utf8_ascii by done.
  by apply utf8_print_entries.
Qed.

#[export] Instance text_json : SerdeJson := {
  to_string := print;
  from_str := parse;
  error_text := fun _ => "invalid JSON";
  seq_form := fun _ => None;
  from_str_to_string := parse_print;
  to_string_braces := print_obj_braces;
  to_string_no_newline := print_obj_no_newline;
  to_string_utf8 := print_obj_utf8;
  error_text_utf8 := fun _ => eq_refl
}.
