(* ===== verification/Auth.v ===== *)
(** * Peer credential authorization: [supervisor/src/auth.rs] *)

From Stdlib Require Import ZArith Lia String.
From stdpp Require Import base list strings.
From S2P Require Import Prelude RustStr.

Open Scope string_scope.

(** ** The kernel's answer

    [getsockopt(SOL_LOCAL, LOCAL_PEERCRED)] returns a code, the length it wrote
    and the [struct xucred] it filled.  The size and the version of that struct
    are constants of the platform's headers. *)
Record xucred : Type := { cr_version : Z; cr_uid : Z; cr_ngroups : Z }.

Record getsockopt_reply : Type := { rc : Z; len : Z; cred : xucred }.

Section Platform.
Context (sizeof_xucred XUCRED_VERSION : Z).
Context (last_os_error : io_error).

Definition peer_uid (r : getsockopt_reply) : result Z io_error :=
  if negb (rc r =? 0)%Z then Err last_os_error
  else if negb (len r =? sizeof_xucred)%Z
  then Err (IoError InvalidData ("unexpected xucred size " ++ dec (len r)))
  else if negb (cr_version (cred r) =? XUCRED_VERSION)%Z
  then Err (IoError InvalidData ("unexpected xucred version " ++ dec (cr_version (cred r))))
  else if (cr_ngroups (cred r) <? 1)%Z
  then Err (IoError InvalidData "xucred reported no groups")
  else Ok (cr_uid (cred r)).

End Platform.

Inductive AuthMode : Type :=
| Launchd (owner_uid : Z)
| Dev (euid : Z).

#[global] Instance AuthMode_eq_dec : EqDecision AuthMode.
Proof. solve_decision. Defined.

Definition allows (m : AuthMode) (uid : Z) : bool :=
  match m with
  | Launchd owner_uid => (uid =? 0)%Z || (uid =? owner_uid)%Z
  | Dev euid => (uid =? euid)%Z
  end.

(** ** What the gate promises *)

Lemma allows_launchd owner uid : allows (Launchd owner) uid = true <-> uid = 0%Z \/ uid = owner.
Proof. unfold allows. by rewrite orb_true_iff, !Z.eqb_eq. Qed.

Lemma allows_dev euid uid : allows (Dev euid) uid = true <-> uid = euid.
Proof. unfold allows. by rewrite Z.eqb_eq. Qed.

(** The reply is trusted exactly when the kernel wrote a full credential of the
    expected version with at least one group. *)
Definition full_credential (sizeof_xucred XUCRED_VERSION : Z) (r : getsockopt_reply) : Prop :=
  rc r = 0%Z /\ len r = sizeof_xucred /\ cr_version (cred r) = XUCRED_VERSION
  /\ (1 <= cr_ngroups (cred r))%Z.

(** C31: the credential check fails closed: a uid is read exactly from a full
    credential, and it is the one the kernel wrote; every other reply is an
    error. *)
Theorem peer_uid_fail_closed size version e r uid :
  peer_uid size version e r = Ok uid <->
  full_credential size version r /\ uid = cr_uid (cred r).
Proof.
  unfold peer_uid, full_credential.
  destruct (Z.eqb_spec (rc r) 0); simpl; [|split; [done|naive_solver]].
  destruct (Z.eqb_spec (len r) size); simpl; [|split; [done|naive_solver]].
  destruct (Z.eqb_spec (cr_version (cred r)) version); simpl; [|split; [done|naive_solver]].
  destruct (Z.ltb_spec (cr_ngroups (cred r)) 1); simpl.
  - split; [done|lia].
  - split; [intros [= <-]; auto|]. by intros [_ ->].
Qed.
