(* ===== verification/Config.v ===== *)
(** * supervisor.toml: [supervisor/src/config.rs] *)

From Stdlib Require Import ZArith Lia String.
From stdpp Require Import base list strings.
From S2P Require Import Prelude RustStr.

Open Scope string_scope.

Definition DEFAULT_HOOK_TIMEOUT_SECS : Z := 30.
Definition DEFAULT_CONFIG_PATH : string :=
  "/Library/Application Support/EasyTier/supervisor.toml".

Record Config : Type := {
  proto : Z;
  owner_uid : Z;
  core_path : string;
  log_dir : string;
  cfg_hooks_dir : option string;
  hook_timeout_secs : option Z
}.

(** The facts of [symlink_metadata] the checks read. *)
Record Metadata : Type := { md_is_file : bool; md_uid : Z; md_gid : Z; md_mode : Z }.

(** Octal 022: writable by the group or by others. *)
Definition GROUP_WORLD_WRITABLE : Z := 18.

Definition check_secure_ownership (is_file : bool) (uid mode : Z) : result unit string :=
  if negb is_file
  then Err "config must be a regular file (symlink or special file rejected)"
  else if negb (uid =? 0)%Z
  then Err ("config must be owned by root, is uid " ++ dec uid)
  else if negb (Z.land mode GROUP_WORLD_WRITABLE =? 0)%Z
  then Err "config must not be group/world writable"
  else Ok tt.

Section Load.
(** The file system and the [toml] crate. *)
Context (symlink_metadata : string -> result Metadata io_error).
Context (read_to_string : string -> result string io_error).
Context (toml_from_str : string -> result Config string).

Definition load (geteuid : Z) (path : string) : result Config io_error :=
  let? _ :=
    (if (geteuid =? 0)%Z then
       let? md := symlink_metadata path in
       map_err (IoError PermissionDenied)
         (check_secure_ownership (md_is_file md) (md_uid md) (md_mode md))
     else Ok tt) in
  let? text := read_to_string path in
  map_err (IoError InvalidData) (toml_from_str text).

End Load.

Definition install_root (c : Config) : string :=
  match path_parent (log_dir c) with
  | Some p => p
  | None => "/"
  end.

Definition hooks_dir (c : Config) : string :=
  match cfg_hooks_dir c with
  | Some d => d
  | None => path_join (install_root c) "hooks"
  end.

(** In seconds. *)
Definition hook_timeout (c : Config) : Z :=
  match hook_timeout_secs c with
  | Some s => s
  | None => DEFAULT_HOOK_TIMEOUT_SECS
  end.

(** ** Properties *)

(** What a root-read configuration file must be. *)
Definition secure_file (md : Metadata) : Prop :=
  md_is_file md = true /\ md_uid md = 0%Z /\
  Z.testbit (md_mode md) 4 = false /\ Z.testbit (md_mode md) 1 = false.

Lemma check_secure_ownership_spec md :
  check_secure_ownership (md_is_file md) (md_uid md) (md_mode md) = Ok tt <-> secure_file md.
Proof.
  unfold check_secure_ownership, secure_file. rewrite <- land_022_zero.
  destruct (md_is_file md); simpl; [|split; [done|naive_solver]].
  destruct (Z.eqb_spec (md_uid md) 0); simpl; [|split; [done|naive_solver]].
  destruct (Z.eqb_spec (Z.land (md_mode md) GROUP_WORLD_WRITABLE) 0); simpl;
    unfold GROUP_WORLD_WRITABLE in *; split; naive_solver.
Qed.

(** C30: a privileged process takes its configuration only from a regular file
    owned by root that neither the group nor others can write; an unprivileged
    one takes it from any readable file.  In both cases it is the [toml] crate's
    reading of that file, and every other case is an error. *)
Theorem load_spec symlink_metadata read_to_string toml_from_str geteuid path c :
  load symlink_metadata read_to_string toml_from_str geteuid path = Ok c <->
  (geteuid = 0%Z -> exists md, symlink_metadata path = Ok md /\ secure_file md) /\
  (exists text, read_to_string path = Ok text /\ toml_from_str text = Ok c).
Proof.
  unfold load. rewrite bind_ok.
  assert (Htext : (let? text := read_to_string path in
    map_err (IoError InvalidData) (toml_from_str text)) = Ok c <->
    exists text, read_to_string path = Ok text /\ toml_from_str text = Ok c).
  { rewrite bind_ok. by setoid_rewrite map_err_ok. }
  setoid_rewrite Htext. destruct (Z.eqb_spec geteuid 0) as [->|Hne]; [|split; [intros (_ & _ & H); done|intros [_ H]; by exists tt]].
  setoid_rewrite bind_ok. setoid_rewrite map_err_ok. split.
  - intros ([] & (md & Hmd & Hc) & Ht). apply check_secure_ownership_spec in Hc. eauto.
  - intros [H Ht]. destruct (H eq_refl) as (md & Hmd & Hc).
    apply check_secure_ownership_spec in Hc. exists tt. eauto.
Qed.
