(* ===== verification/Proto.v ===== *)
(** * Control protocol, supervisor side: [supervisor/src/proto.rs] *)

From Stdlib Require Import ZArith Lia Ascii String.
From stdpp Require Import base list strings option.
From S2P Require Import Prelude RustStr Json.

Open Scope string_scope.

Definition PROTO_VERSION : Z := 1.

Module CoreState.
Inductive CoreState : Type := Stopped | Running.

(** [#[serde(rename_all = "snake_case")]]. *)
Definition name (c : CoreState) : string :=
  match c with Stopped => "stopped" | Running => "running" end.
End CoreState.

Module Cmd.
Inductive Cmd : Type :=
| Hello (proto : Z) (takeover : bool)
| Start
| Status
| Stop.

(** [#[derive(Deserialize)]], tagged by [cmd]. *)
Definition of_json {S : SerdeJson} (v : json) : option Cmd :=
  fs ← entries v;
  tag ← required de_string "cmd" fs;
  if tag =? "hello" then
    proto ← required (de_int in_u32) "proto" fs;
    takeover ← defaulted de_bool false "takeover" fs;
    Some (Hello proto takeover)
  else if tag =? "start" then Some Start
  else if tag =? "status" then Some Status
  else if tag =? "stop" then Some Stop
  else None.
End Cmd.

Module Event.
Inductive Event : Type :=
| Hello (proto : Z) (version : string) (core : CoreState.CoreState) (rpc_port : option Z)
| CoreStarted (pid rpc_port : Z)
| Status (core : CoreState.CoreState) (pid rpc_port : option Z)
| CoreStopped (reason : string)
| CoreExited (code signal : option Z)
| Error (code msg : string)
| Busy (owner : bool)
| Kicked.

(** [Event::error]. *)
Definition error (code msg : string) : Event := Error code msg.

(** [#[derive(Serialize)]], tagged by [event]. *)
Definition fields (ev : Event) : list (string * json) :=
  match ev with
  | Hello proto version core rpc_port =>
      [("event", JStr "hello"); ("proto", JInt proto); ("version", JStr version);
       ("core", JStr (CoreState.name core)); ("rpc_port", ser_option rpc_port)]
  | CoreStarted pid rpc_port =>
      [("event", JStr "core_started"); ("pid", JInt pid); ("rpc_port", JInt rpc_port)]
  | Status core pid rpc_port =>
      [("event", JStr "status"); ("core", JStr (CoreState.name core));
       ("pid", ser_option pid); ("rpc_port", ser_option rpc_port)]
  | CoreStopped reason => [("event", JStr "core_stopped"); ("reason", JStr reason)]
  | CoreExited code signal =>
      [("event", JStr "core_exited"); ("code", ser_option code); ("signal", ser_option signal)]
  | Error code msg => [("event", JStr "error"); ("code", JStr code); ("msg", JStr msg)]
  | Busy owner => [("event", JStr "busy"); ("owner", JBool owner)]
  | Kicked => [("event", JStr "kicked")]
  end.

(** The values of the fields' Rust types: [u16], [u32], [i32] and UTF-8 text. *)
Definition wf (ev : Event) : Prop :=
  let i32 := fun n => in_i32 n = true in
  let u16 := fun n => in_u16 n = true in
  let all := fun (P : Z -> Prop) o => forall n, o = Some n -> P n in
  match ev with
  | Hello proto version _ rpc_port =>
      in_u32 proto = true /\ utf8_valid version = true /\ all u16 rpc_port
  | CoreStarted pid rpc_port => i32 pid /\ u16 rpc_port
  | Status _ pid rpc_port => all i32 pid /\ all u16 rpc_port
  | CoreStopped reason => utf8_valid reason = true
  | CoreExited code signal => all i32 code /\ all i32 signal
  | Error code msg => utf8_valid code = true /\ utf8_valid msg = true
  | Busy _ | Kicked => True
  end.
End Event.

Section Codec.
Context {S : SerdeJson}.

Definition decode_cmd (line : string) : result Cmd.Cmd string :=
  match from_str (trim line) ≫= Cmd.of_json with
  | Some c => Ok c
  | None => Err (error_text (trim line))
  end.

Definition encode_event (ev : Event.Event) : string :=
  to_string (JObj (Event.fields ev)) ++ nl.

End Codec.

#[global] Instance CoreState_eq_dec : EqDecision CoreState.CoreState.
Proof. solve_decision. Defined.
#[global] Instance Cmd_eq_dec : EqDecision Cmd.Cmd.
Proof. solve_decision. Defined.
#[global] Instance Event_eq_dec : EqDecision Event.Event.
Proof. solve_decision. Defined.

(** ** Lemmas *)

Lemma fields_flat ev : Event.wf ev -> flat (Event.fields ev) = true.
Proof.
  destruct ev as [p v c o|p r|c p r|s|c s|c s|b|]; cbn [Event.wf Event.fields];
    intros H; destruct_and?; solve_flat; by destruct c.
Qed.
