(* ===== verification/ClientProto.v ===== *)
(** * Control protocol, client side: [bridge/src/proto.rs] *)

From Stdlib Require Import ZArith Lia Ascii String.
From stdpp Require Import base list strings option.
From S2P Require Import Prelude RustStr Json.

Open Scope string_scope.

Definition PROTO_VERSION : Z := 1.

Module CoreState.
Inductive CoreState : Type := Stopped | Running.

Definition of_json (v : json) : option CoreState :=
  s ← de_string v;
  if s =? "stopped" then Some Stopped
  else if s =? "running" then Some Running
  else None.
End CoreState.

Module Cmd.
Inductive Cmd : Type :=
| Hello (proto : Z) (takeover : bool)
| Start
| Status
| Stop.

(** [#[derive(Serialize)]], tagged by [cmd]. *)
Definition fields (c : Cmd) : list (string * json) :=
  match c with
  | Hello proto takeover =>
      [("cmd", JStr "hello"); ("proto", JInt proto); ("takeover", JBool takeover)]
  | Start => [("cmd", JStr "start")]
  | Status => [("cmd", JStr "status")]
  | Stop => [("cmd", JStr "stop")]
  end.

Definition wf (c : Cmd) : Prop :=
  match c with
  | Hello proto _ => in_u32 proto = true
  | Start | Status | Stop => True
  end.
End Cmd.

Module Event.
Inductive Event : Type :=
| Hello (proto : Z) (version : string) (core : CoreState.CoreState) (rpc_port : option Z)
| CoreStarted (pid rpc_port : Z)
| Status (core : CoreState.CoreState) (pid rpc_port : option Z)
| CoreStopped (reason : string)
| CoreExited (code signal : option Z)
| Error (code msg : string)
| Busy (owner : bool)
| Kicked
| Unknown.

(** [#[derive(Deserialize)]], tagged by [event], with [#[serde(default)]] fields
    and the [#[serde(other)]] variant. *)
Definition of_json {S : SerdeJson} (v : json) : option Event :=
  fs ← entries v;
  tag ← required de_string "event" fs;
  if tag =? "hello" then
    proto ← required (de_int in_u32) "proto" fs;
    version ← defaulted de_string "" "version" fs;
    core ← required CoreState.of_json "core" fs;
    rpc_port ← defaulted (de_option (de_int in_u16)) None "rpc_port" fs;
    Some (Hello proto version core rpc_port)
  else if tag =? "core_started" then
    pid ← required (de_int in_i32) "pid" fs;
    rpc_port ← required (de_int in_u16) "rpc_port" fs;
    Some (CoreStarted pid rpc_port)
  else if tag =? "status" then
    core ← required CoreState.of_json "core" fs;
    pid ← defaulted (de_option (de_int in_i32)) None "pid" fs;
    rpc_port ← defaulted (de_option (de_int in_u16)) None "rpc_port" fs;
    Some (Status core pid rpc_port)
  else if tag =? "core_stopped" then
    reason ← defaulted de_string "" "reason" fs;
    Some (CoreStopped reason)
  else if tag =? "core_exited" then
    code ← defaulted (de_option (de_int in_i32)) None "code" fs;
    signal ← defaulted (de_option (de_int in_i32)) None "signal" fs;
    Some (CoreExited code signal)
  else if tag =? "error" then
    code ← defaulted de_string "" "code" fs;
    msg ← defaulted de_string "" "msg" fs;
    Some (Error code msg)
  else if tag =? "busy" then
    owner ← defaulted de_bool false "owner" fs;
    Some (Busy owner)
  else if tag =? "kicked" then Some Kicked
  else Some Unknown.
End Event.

Section Codec.
Context {S : SerdeJson}.

Definition encode_cmd (c : Cmd.Cmd) : string := to_string (JObj (Cmd.fields c)) ++ nl.

Definition decode_event (line : string) : result Event.Event string :=
  match from_str (trim line) ≫= Event.of_json with
  | Some ev => Ok ev
  | None => Err (error_text (trim line))
  end.

End Codec.

Lemma cmd_fields_flat c : Cmd.wf c -> flat (Cmd.fields c) = true.
Proof. destruct c; cbn [Cmd.wf Cmd.fields]; intros H; solve_flat. Qed.
