(* ===== verification/Wire.v ===== *)
(** * The two sides of the control protocol agree

    [supervisor/src/proto.rs] and [bridge/src/proto.rs] are independent mirrors
    of one protocol.  Here each side's encoder is composed with the other side's
    decoder, over any [serde_json] that satisfies [Json.SerdeJson]. *)

From Stdlib Require Import ZArith Lia Ascii String.
From stdpp Require Import base list strings option.
From S2P Require Import Prelude RustStr Json JsonText Proto ClientProto.

Open Scope string_scope.

(** ** The correspondence of the two mirrors *)

Definition server_cmd (c : ClientProto.Cmd.Cmd) : Proto.Cmd.Cmd :=
  match c with
  | ClientProto.Cmd.Hello p t => Proto.Cmd.Hello p t
  | ClientProto.Cmd.Start => Proto.Cmd.Start
  | ClientProto.Cmd.Status => Proto.Cmd.Status
  | ClientProto.Cmd.Stop => Proto.Cmd.Stop
  end.

Definition client_core (c : Proto.CoreState.CoreState) : ClientProto.CoreState.CoreState :=
  match c with
  | Proto.CoreState.Stopped => ClientProto.CoreState.Stopped
  | Proto.CoreState.Running => ClientProto.CoreState.Running
  end.

Definition client_event (ev : Proto.Event.Event) : ClientProto.Event.Event :=
  match ev with
  | Proto.Event.Hello p v c r => ClientProto.Event.Hello p v (client_core c) r
  | Proto.Event.CoreStarted p r => ClientProto.Event.CoreStarted p r
  | Proto.Event.Status c p r => ClientProto.Event.Status (client_core c) p r
  | Proto.Event.CoreStopped r => ClientProto.Event.CoreStopped r
  | Proto.Event.CoreExited c s => ClientProto.Event.CoreExited c s
  | Proto.Event.Error c m => ClientProto.Event.Error c m
  | Proto.Event.Busy o => ClientProto.Event.Busy o
  | Proto.Event.Kicked => ClientProto.Event.Kicked
  end.

(** Evaluates a decoder on an object whose field values are in range. *)
Ltac wire :=
  repeat match goal with
  | H : ?b = true |- context [if ?b then _ else _] => rewrite H
  | c : Proto.CoreState.CoreState |- _ => destruct c
  end; reflexivity.

Section Wire.
Context {S : SerdeJson}.

(** Every command the client sends is decoded by the supervisor as that command. *)
Lemma decode_encode_cmd c : ClientProto.Cmd.wf c ->
  Proto.decode_cmd (ClientProto.encode_cmd c) = Ok (server_cmd c).
Proof.
  intros Hwf. unfold Proto.decode_cmd, ClientProto.encode_cmd.
  rewrite from_str_line by (by apply cmd_fields_flat).
  destruct c as [p t| | |]; cbn [ClientProto.Cmd.wf] in Hwf;
    cbn -[in_u32]; wire.
Qed.

(** Every event the supervisor emits is decoded by the client as that event. *)
Lemma decode_encode_event ev : Proto.Event.wf ev ->
  ClientProto.decode_event (Proto.encode_event ev) = Ok (client_event ev).
Proof.
  intros Hwf. unfold ClientProto.decode_event, Proto.encode_event.
  rewrite from_str_line by (by apply fields_flat).
  destruct ev as [p v c o|p r|c p r|s|c s|c s|b|]; cbn [Proto.Event.wf] in Hwf;
    cbn -[in_u32 in_i32 in_u16 de_option ser_option]; destruct_and?;
    rewrite ?de_option_ser by done; wire.
Qed.

(** C33: every event the supervisor emits, with the field values its Rust types
    allow, is decoded by the client as that event. *)
Theorem event_roundtrip ev : Proto.Event.wf ev ->
  ClientProto.decode_event (Proto.encode_event ev) = Ok (client_event ev).
Proof. apply decode_encode_event. Qed.

(** An encoded event is one line: its only newline is the terminator, so
    a reader that splits the stream at newlines sees exactly one object. *)
Theorem encoded_event_one_line ev : Proto.Event.wf ev ->
  exists body, Proto.encode_event ev = body ++ nl /\ occurs "010" body = false.
Proof.
  intros Hwf. eexists. split; [reflexivity|]. by apply to_string_no_newline, fields_flat.
Qed.

(** What a text must hold to be a [hello]. *)
Definition hello_entries (line : string) (p : Z) (t : bool) : Prop :=
  exists v fs, from_str (trim line) = Some v /\ entries v = Some fs /\
    field "cmd" fs = Some (Some (JStr "hello")) /\
    field "proto" fs = Some (Some (JInt p)) /\ in_u32 p = true /\
    (field "takeover" fs = Some (Some (JBool t)) \/ (field "takeover" fs = Some None /\ t = false)).

(** The supervisor reads a line as [hello] exactly when its object has that
    tag, one [proto] field holding an integer of the range of [u32], and at most
    one [takeover] field, a boolean, taken as [false] when it is absent. *)
Theorem decode_hello_spec line p t :
  Proto.decode_cmd line = Ok (Proto.Cmd.Hello p t) <-> hello_entries line p t.
Proof.
  unfold Proto.decode_cmd, hello_entries. split.
  - intros H. destruct (from_str (trim line)) as [v|] eqn:Hv; [|done]. cbn in H.
    exists v. unfold Proto.Cmd.of_json in H.
    destruct (entries v) as [fs|] eqn:Hfs; [|done]. cbn in H. exists fs.
    unfold required, defaulted in H.
    destruct (field "cmd" fs) as [[[]|]|] eqn:Hc; try done. cbn in H.
    destruct (s =? "hello") eqn:Hs; [|by repeat (case_match; simplify_eq/=)].
    apply String.eqb_eq in Hs as ->.
    destruct (field "proto" fs) as [[[]|]|] eqn:Hp; try done. cbn -[in_u32] in H.
    destruct (in_u32 n) eqn:Hn; [|done]. cbn in H.
    destruct (field "takeover" fs) as [[[]|]|] eqn:Ht; try done; cbn in H;
      simplify_eq; split_and?; auto.
  - intros (v & fs & -> & Hfs & Hc & Hp & Hn & Ht). cbn.
    unfold Proto.Cmd.of_json. rewrite Hfs. cbn. unfold required, defaulted.
    rewrite Hc, Hp. cbn -[in_u32]. rewrite Hn.
    by destruct Ht as [->|[-> ->]].
Qed.

End Wire.

(** ** The theorems apply *)

Definition sample_status : Proto.Event.Event :=
  Proto.Event.Status Proto.CoreState.Running (Some 12345%Z) (Some 50321%Z).

Lemma sample_status_wf : Proto.Event.wf sample_status.
Proof. split; intros n [= <-]; reflexivity. Defined.

Lemma event_roundtrip_witness :
  Proto.Event.wf sample_status /\
  ClientProto.decode_event (Proto.encode_event sample_status) = Ok (client_event sample_status).
Proof. split; [apply sample_status_wf|]. apply (event_roundtrip sample_status sample_status_wf). Defined.

Lemma encoded_event_one_line_witness :
  exists body, Proto.encode_event sample_status = body ++ nl /\ occurs "010" body = false.
Proof. apply (encoded_event_one_line sample_status sample_status_wf). Defined.

(** The wire shapes the repository's own unit tests pin down. *)
Definition unquoted (s : string) : string :=
  string_of_list_ascii (map (fun c => if Ascii.eqb c "034" then "'"%char else c)
    (list_ascii_of_string s)).

Example hello_shape :
  unquoted (Proto.encode_event (Proto.Event.Hello 1 "0.1.0" Proto.CoreState.Stopped None))
  = "{'event':'hello','proto':1,'version':'0.1.0','core':'stopped','rpc_port':null}" ++ nl.
Proof. vm_compute. reflexivity. Qed.

Example core_exited_shape :
  unquoted (Proto.encode_event (Proto.Event.CoreExited None (Some 9%Z)))
  = "{'event':'core_exited','code':null,'signal':9}" ++ nl.
Proof. vm_compute. reflexivity. Qed.
