(* ===== verification/Hooks.v ===== *)
(** * Lifecycle hooks: [supervisor/src/hooks.rs]

    Which script runs at a core transition, the security gate it must pass, and
    the thread that runs it under a deadline. *)

From Stdlib Require Import ZArith Lia String.
From stdpp Require Import base list strings.
From S2P Require Import Prelude RustStr Config Auth.

Open Scope string_scope.

Definition HOOK_PATH : string := "/usr/bin:/bin:/usr/sbin:/sbin".

(** In milliseconds. *)
Definition POLL_INTERVAL : Z := 50.

Inductive HookEvent : Type := Up | Down.

Definition event_str (e : HookEvent) : string :=
  match e with Up => "up" | Down => "down" end.

Definition script_name (e : HookEvent) : string :=
  match e with Up => "up.sh" | Down => "down.sh" end.

Inductive HookReason : Type := Requested | OwnerDrop | CoreExited | Janitor.

Definition reason_str (r : HookReason) : string :=
  match r with
  | Requested => "requested"
  | OwnerDrop => "owner_drop"
  | CoreExited => "core_exited"
  | Janitor => "janitor"
  end.

#[global] Instance HookEvent_eq_dec : EqDecision HookEvent.
Proof. solve_decision. Defined.
#[global] Instance HookReason_eq_dec : EqDecision HookReason.
Proof. solve_decision. Defined.

Record FileFacts : Type := { is_file : bool; uid : Z; gid : Z; mode : Z }.

(** [lstat] of the script: [Ok None] when it does not exist. *)
Definition file_facts (md : result Metadata io_error) : result (option FileFacts) io_error :=
  match md with
  | Ok md => Ok (Some {| is_file := md_is_file md; uid := md_uid md;
                         gid := md_gid md; mode := md_mode md |})
  | Err e => if decide (kind e = NotFound) then Ok None else Err e
  end.

(** Octal 100: executable by its owner. *)
Definition OWNER_EXECUTABLE : Z := 64.

Definition check_hook_security (f : FileFacts) (auth : AuthMode) : result unit string :=
  if negb (is_file f)
  then Err "hook must be a regular file (symlink or special file rejected)"
  else if negb (Z.land (mode f) GROUP_WORLD_WRITABLE =? 0)%Z
  then Err "hook must not be group/world writable"
  else if (Z.land (mode f) OWNER_EXECUTABLE =? 0)%Z
  then Err "hook must be executable by its owner"
  else match auth with
       | Launchd _ =>
           if negb (uid f =? 0)%Z
           then Err ("hook must be owned by root, is uid " ++ dec (uid f))
           else if negb (gid f =? 0)%Z
           then Err ("hook must be group wheel (gid 0), is gid " ++ dec (gid f))
           else Ok tt
       | Dev euid =>
           if negb (uid f =? euid)%Z
           then Err ("hook (dev mode) must be owned by uid " ++ dec euid ++ ", is uid " ++ dec (uid f))
           else Ok tt
       end.

(** What [run_hook] hands to the thread it spawns. *)
Record HookJob : Type := {
  script : string;
  log_path : string;
  cwd : string;
  timeout : Z;
  event : HookEvent;
  reason : option HookReason
}.

(** The job, if a thread is spawned, and the lines written to stderr. *)
Definition run_hook (symlink_metadata : string -> result Metadata io_error)
    (config : Config) (auth : AuthMode) (event : HookEvent) (reason : option HookReason)
    : option HookJob * list string :=
  let script := path_join (hooks_dir config) (script_name event) in
  match file_facts (symlink_metadata script) with
  | Ok None => (None, [])
  | Err e => (None, ["hook: cannot stat " ++ script ++ ": " ++ text e])
  | Ok (Some facts) =>
      match check_hook_security facts auth with
      | Err why => (None, ["hook: refusing to run " ++ script ++ ": " ++ why])
      | Ok _ =>
          (Some {| script := script;
                   log_path := path_join (Config.log_dir config) "hooks.log";
                   cwd := install_root config;
                   timeout := hook_timeout config;
                   event := event;
                   reason := reason |}, [])
      end
  end.

(** ** The hook thread *)

(** A spawned command: program, environment from scratch, working directory. *)
Record Command : Type := {
  program : string;
  environment : list (string * string);
  current_dir : string
}.

Inductive Effect : Type :=
| Stderr (line : string)
| Log (secs : Z) (body : string)
| Spawn (c : Command)
| Sigkill
| Reap
| Sleep
| Panic (msg : string).

Inductive Poll : Type :=
| Exited (status : string)
| StillRunning
| WaitFailed (e : string).

(** What the operating system answers during one run: the opening of the log,
    the two duplicates of its descriptor, the spawn, and at the i-th turn of the
    wait loop the child's state, the clock in milliseconds and the epoch seconds. *)
Record Env : Type := {
  open_log : result unit string;
  clones_ok : bool;
  spawned : result unit string;
  start_ms : Z;
  start_secs : Z;
  try_wait : nat -> Poll;
  clock : nat -> Z;
  epoch_secs : nat -> Z
}.

Section Run.
Context (job : HookJob) (env : Env).

Definition reason_text : string :=
  match reason job with Some r => reason_str r | None => "" end.

Definition command : Command := {|
  program := script job;
  environment :=
    [("PATH", HOOK_PATH); ("EASYTIER_EVENT", event_str (event job))] ++
    match reason job with Some r => [("EASYTIER_REASON", reason_str r)] | None => [] end;
  current_dir := cwd job
|}%list.

(** [Instant::now() + timeout] panics: the seconds of an [Instant] are an i64. *)
Definition instant_overflow : bool := (i64_max <? start_ms env / 1000 + timeout job)%Z.

(** [{:?}] of a [Duration] of whole seconds. *)
Definition duration_debug (secs : Z) : string := if (secs =? 0)%Z then "0ns" else dec secs ++ "s".

(** In milliseconds. *)
Definition deadline : Z := start_ms env + 1000 * timeout job.

(** [None] is running out of [fuel]. *)
Fixpoint wait_loop (fuel i : nat) : option (list Effect) :=
  match fuel with
  | O => None
  | S fuel =>
      match try_wait env i with
      | Exited status =>
          Some [Log (epoch_secs env i) (event_str (event job) ++ " exit (" ++ status ++ ")")]
      | WaitFailed e =>
          Some [Log (epoch_secs env i) (event_str (event job) ++ " wait failed: " ++ e)]
      | StillRunning =>
          if (deadline <=? clock env i)%Z
          then Some [Sigkill; Reap;
                     Log (epoch_secs env i)
                       (event_str (event job) ++ " timed out after " ++ duration_debug (timeout job)
                        ++ ", killed")]
          else option_map (cons Sleep) (wait_loop fuel (S i))
      end
  end.

Definition run_child (fuel : nat) : option (list Effect) :=
  match open_log env with
  | Err e => Some [Stderr ("hook: open " ++ log_path job ++ ": " ++ e)]
  | Ok _ =>
      let start := Log (start_secs env)
                     (event_str (event job) ++ " start (reason=" ++ reason_text ++ ")") in
      if clones_ok env then
        match spawned env with
        | Err e => Some [start; Spawn command;
                         Log (start_secs env) (event_str (event job) ++ " spawn failed: " ++ e)]
        | Ok _ =>
            if instant_overflow
            then Some [start; Spawn command; Panic "overflow when adding duration to instant"]
            else option_map (fun es => start :: Spawn command :: es) (wait_loop fuel 0)
        end
      else Some [start; Log (start_secs env) (event_str (event job) ++ " clone log fd failed")]
  end.

End Run.

(** ** Properties *)

(** Who may own the script. *)
Definition trusted_owner (auth : AuthMode) (f : FileFacts) : Prop :=
  match auth with
  | Launchd _ => uid f = 0%Z /\ gid f = 0%Z
  | Dev euid => uid f = euid
  end.

Definition secure_hook (auth : AuthMode) (f : FileFacts) : Prop :=
  is_file f = true /\ Z.testbit (mode f) 4 = false /\ Z.testbit (mode f) 1 = false /\
  Z.testbit (mode f) 6 = true /\ trusted_owner auth f.

Lemma check_hook_security_spec f auth :
  check_hook_security f auth = Ok tt <-> secure_hook auth f.
Proof.
  unfold check_hook_security, secure_hook, GROUP_WORLD_WRITABLE, OWNER_EXECUTABLE.
  rewrite <- (not_false_iff_true (Z.testbit (mode f) 6)), <- land_100_zero.
  destruct (is_file f); simpl; [|split; [done|naive_solver]].
  destruct (Z.eqb_spec (Z.land (mode f) 18) 0) as [E|E]; simpl;
    rewrite land_022_zero in E; [|split; [done|naive_solver]].
  destruct (Z.eqb_spec (Z.land (mode f) 64) 0); simpl; [split; [done|naive_solver]|].
  destruct auth as [o|e]; simpl.
  - destruct (Z.eqb_spec (uid f) 0); simpl; [|split; [done|naive_solver]].
    destruct (Z.eqb_spec (gid f) 0); simpl; split; naive_solver.
  - destruct (Z.eqb_spec (uid f) e); simpl; split; naive_solver.
Qed.

(** C28: a hook thread is spawned exactly for a script that exists and passes the
    gate: a regular file, not writable by the group or others, executable by its
    owner, and owned by root:wheel in production or by the process in dev mode.
    The script run is [<hooks_dir>/<event>.sh], whatever the client sent; a
    missing script is skipped in silence and any other one is refused with one
    line on stderr. *)
Theorem run_hook_gate sm config auth ev reason job msgs :
  let path := path_join (hooks_dir config) (script_name ev) in
  run_hook sm config auth ev reason = (job, msgs) ->
  match job with
  | Some j =>
      msgs = [] /\ script j = path /\ event j = ev /\ Hooks.reason j = reason /\
      cwd j = install_root config /\ timeout j = hook_timeout config /\
      exists md, sm path = Ok md /\
        secure_hook auth {| is_file := md_is_file md; uid := md_uid md;
                            gid := md_gid md; mode := md_mode md |}
  | None =>
      (exists e, sm path = Err e /\ (kind e = NotFound <-> msgs = [])) \/
      (exists md line, sm path = Ok md /\ msgs = [line] /\
        ~ secure_hook auth {| is_file := md_is_file md; uid := md_uid md;
                              gid := md_gid md; mode := md_mode md |})
  end.
Proof.
  intros path. unfold run_hook. fold path.
  destruct (sm path) as [md|e]; cbn [file_facts].
  - destruct (check_hook_security _ auth) as [[]|why] eqn:Hc; intros [= <- <-].
    + apply check_hook_security_spec in Hc. split_and!; eauto.
    + right. eexists _, _. split_and!; [done..|]. rewrite <- check_hook_security_spec. congruence.
  - destruct (decide (kind e = NotFound)); intros [= <- <-]; left; exists e; naive_solver.
Qed.

Section Bounded.
Context (job : HookJob) (env : Env).

(** [thread::sleep] sleeps at least its argument. *)
Definition clock_runs : Prop :=
  forall i, (start_ms env + POLL_INTERVAL * Z.of_nat i <= clock env i)%Z.

(** The last effects of a run that ends at turn [n]. *)
Definition verdict (n : nat) : option (list Effect) :=
  match try_wait env n with
  | Exited status =>
      Some [Log (epoch_secs env n) (event_str (event job) ++ " exit (" ++ status ++ ")")]
  | WaitFailed e =>
      Some [Log (epoch_secs env n) (event_str (event job) ++ " wait failed: " ++ e)]
  | StillRunning =>
      if (deadline job env <=? clock env n)%Z
      then Some [Sigkill; Reap;
                 Log (epoch_secs env n)
                   (event_str (event job) ++ " timed out after " ++ duration_debug (timeout job)
                    ++ ", killed")]
      else None
  end.

(** Turns of the wait loop before the deadline has passed. *)
Definition turns : nat := Z.to_nat (20 * timeout job).

Lemma wait_loop_verdict fuel i es : verdict i = Some es -> wait_loop job env (S fuel) i = Some es.
Proof.
  unfold verdict. cbn [wait_loop]. intros H. repeat case_match; congruence.
Qed.

Lemma wait_loop_sleep fuel i :
  verdict i = None -> wait_loop job env (S fuel) i = option_map (cons Sleep) (wait_loop job env fuel (S i)).
Proof. unfold verdict. cbn [wait_loop]. intros H. repeat case_match; congruence. Qed.

Lemma verdict_last n : clock_runs -> (0 <= timeout job)%Z -> (turns <= n)%nat ->
  exists es, verdict n = Some es.
Proof.
  intros Hc Ht Hn. unfold verdict. destruct (try_wait env n); eauto.
  destruct (Z.leb_spec (deadline job env) (clock env n)) as [|Hlt]; eauto. exfalso.
  specialize (Hc n). unfold deadline, turns, POLL_INTERVAL in *. lia.
Qed.

Lemma wait_loop_total k : clock_runs -> (0 <= timeout job)%Z ->
  forall i fuel, (turns <= i + k)%nat -> (k < fuel)%nat ->
  exists n es, (n <= k)%nat /\ verdict (i + n) = Some es /\
    (forall j, (j < n)%nat -> verdict (i + j) = None) /\
    wait_loop job env fuel i = Some (replicate n Sleep ++ es)%list.
Proof.
  intros Hc Ht. induction k as [|k IH]; intros i fuel Hi Hf;
    (destruct fuel as [|fuel]; [lia|]); destruct (verdict i) as [es|] eqn:Hv.
  1,3: exists 0%nat, es; rewrite Nat.add_0_r; split_and!; [lia|done|lia|];
       by apply wait_loop_verdict.
  - destruct (verdict_last i) as [es Hes]; [done..|lia|congruence].
  - destruct (IH (S i) fuel) as (n & es & Hn & He & Hj & Hw); [lia..|].
    exists (S n), es. rewrite <- Nat.add_succ_comm. split_and!; [lia|done| |].
    + intros [|j] Hlt; [by rewrite Nat.add_0_r|]. rewrite <- Nat.add_succ_comm. apply Hj. lia.
    + rewrite wait_loop_sleep, Hw by done. done.
Qed.

(** C29: once the script was started, the hook thread always ends, after at most
    [20 * timeout] sleeps of (at least) 50 ms: it sleeps until the child has
    exited, its wait has failed, or the deadline has passed, and kills and reaps
    the child in the last case only, once, and not before the deadline.  When the
    wait fails it leaves the child as it is.  The only program it runs is the gated
    script, in a scrubbed environment.  With a timeout so large that the deadline is
    beyond the last [Instant], the thread panics instead, with the child running. *)
Theorem run_child_bounded : clock_runs -> (0 <= timeout job)%Z ->
  open_log env = Ok tt -> clones_ok env = true -> spawned env = Ok tt ->
  let start := Log (start_secs env) (event_str (event job) ++ " start (reason=" ++ reason_text job ++ ")") in
  if instant_overflow job env
  then run_child job env (S turns) =
    Some [start; Spawn (command job); Panic "overflow when adding duration to instant"]
  else exists n es, (n <= turns)%nat /\ verdict n = Some es /\
    (forall j, (j < n)%nat -> try_wait env j = StillRunning /\ (clock env j < deadline job env)%Z) /\
    run_child job env (S turns) = Some (start :: Spawn (command job) :: replicate n Sleep ++ es)%list.
Proof.
  intros Hc Ht Hl Hcl Hs start. unfold run_child. rewrite Hl, Hcl, Hs. fold start.
  destruct (instant_overflow job env); [done|].
  destruct (wait_loop_total turns Hc Ht 0 (S turns)) as (n & es & Hn & He & Hj & Hw); [lia..|].
  exists n, es. split_and!; [done|done| |by rewrite Hw].
  intros j Hlt. specialize (Hj j Hlt). unfold verdict in Hj. cbn in Hj.
  repeat case_match; try done. breflect. auto.
Qed.

End Bounded.

(** ** The theorems apply *)

Definition sample_config : Config := {|
  proto := 1; owner_uid := 501; core_path := "/opt/et/bin/easytier-core";
  log_dir := "/opt/et/logs"; cfg_hooks_dir := None; hook_timeout_secs := Some 1%Z |}.

Definition sample_fs (path : string) : result Metadata io_error :=
  if path =? "/opt/et/hooks/down.sh"
  then Ok {| md_is_file := true; md_uid := 0; md_gid := 0; md_mode := 493 |}
  else Err (IoError NotFound "no such file").

Definition sample_job : HookJob := {|
  script := "/opt/et/hooks/down.sh"; log_path := "/opt/et/logs/hooks.log"; cwd := "/opt/et";
  timeout := 1; event := Down; reason := Some OwnerDrop |}.

Lemma run_hook_gate_witness :
  run_hook sample_fs sample_config (Launchd 501) Down (Some OwnerDrop) = (Some sample_job, []) /\
  script sample_job = "/opt/et/hooks/down.sh".
Proof.
  split; [reflexivity|].
  apply (run_hook_gate sample_fs sample_config (Launchd 501) Down (Some OwnerDrop)
           (Some sample_job) []). reflexivity.
Defined.

(** A script that never exits. *)
Definition stuck_env : Env := {|
  open_log := Ok tt; clones_ok := true; spawned := Ok tt; start_ms := 0; start_secs := 0;
  try_wait := fun _ => StillRunning; clock := fun i => (50 * Z.of_nat i)%Z;
  epoch_secs := fun _ => 0%Z |}.

Lemma run_child_bounded_witness :
  exists n es, (n <= 20)%nat /\ verdict sample_job stuck_env n = Some es /\
    (forall j, (j < n)%nat -> try_wait stuck_env j = StillRunning /\
       (clock stuck_env j < deadline sample_job stuck_env)%Z) /\
    run_child sample_job stuck_env 21 =
      Some (Log 0 "down start (reason=owner_drop)"
            :: Spawn (command sample_job) :: replicate n Sleep ++ es)%list.
Proof.
  apply (run_child_bounded sample_job stuck_env); [|done..].
  intros i. unfold stuck_env, POLL_INTERVAL. simpl. lia.
Defined.
