(* ===== verification/CoreProc.v ===== *)
(** * The core process: [supervisor/src/core_proc.rs], and the state it shares
    with [supervisor/src/server.rs]

    Each definition is one critical section of the state mutex, or one decision
    of the monitor thread; [Supervisor] interleaves them. *)

From Stdlib Require Import ZArith Lia String.
From stdpp Require Import base list strings.
From S2P Require Import Prelude RustStr Config Auth Hooks.

Open Scope string_scope.

(** In milliseconds. *)
Definition TERM_GRACE : Z := 5000.
Definition POLL_INTERVAL : Z := 100.

(** ** The shared state *)

Record RunningCore : Type := { pid : Z; rpc_port : Z; stop_requested : bool }.

Inductive CoreProc : Type :=
| Stopped
| Running (r : RunningCore).

(** The current owner's lease. [conn] names the connection whose writer, socket
    and [kicked] flag the slot's handles are aliases of. *)
Record OwnerSlot : Type := { id : Z; conn : nat }.

(** [server::State], behind [Shared::st]. *)
Record State : Type := { owner : option OwnerSlot; core : CoreProc }.

Definition set_owner (o : option OwnerSlot) (st : State) : State :=
  {| owner := o; core := core st |}.
Definition set_core (c : CoreProc) (st : State) : State :=
  {| owner := owner st; core := c |}.

#[global] Instance RunningCore_eq_dec : EqDecision RunningCore.
Proof. solve_decision. Defined.
#[global] Instance CoreProc_eq_dec : EqDecision CoreProc.
Proof. solve_decision. Defined.

Definition is_stopped (st : State) : bool :=
  match core st with Stopped => true | Running _ => false end.

(** ** Spawning *)

Record ExitInfo : Type := { code : option Z; signal : option Z }.

(** [ExitStatus::code] and [ExitStatus::signal] on a wait(2) status. *)
Definition from_status (status : Z) : ExitInfo :=
  let low := Z.land status 127 in
  {| code := if (low =? 0)%Z then Some (Z.land (Z.shiftr status 8) 255) else None;
     signal := if (0 <? low)%Z && (low <? 127)%Z then Some low else None |}.

Record Command : Type := {
  program : string;
  argv0 : string;
  args : list string;
  environment : list (string * string);
  current_dir : string;
  log_file : string
}.

(** What the operating system answers to the steps of [start]: the port the
    loopback probe was given, the opening of the log, and the spawn. *)
Record SpawnEnv : Type := {
  free_port : result Z string;
  log_opened : result unit string;
  spawned : result Z string
}.

Definition pick_free_port (env : SpawnEnv) : result Z string := free_port env.

Definition build_command (config : Config) (env : SpawnEnv) (port : Z) : result Command string :=
  let? _ := log_opened env in
  Ok {| program := core_path config;
        argv0 := core_path config;
        args := ["--daemon"; "--rpc-portal"; "127.0.0.1:" ++ dec port];
        environment := [("PATH", "/usr/bin:/bin:/usr/sbin:/sbin")];
        current_dir := install_root config;
        log_file := path_join (log_dir config) "core.out.log" |}.

Inductive StartOutcome : Type :=
| AlreadyRunning (pid port : Z)
| Spawned (pid port : Z) (cmd : Command).

(** The part of [start] that holds the lock. *)
Definition start_locked (config : Config) (env : SpawnEnv) (st : State)
    : State * result StartOutcome string :=
  match core st with
  | Running r => (st, Ok (AlreadyRunning (pid r) (rpc_port r)))
  | Stopped =>
      match map_err (fun e => "could not pick a free port: " ++ e) (pick_free_port env) with
      | Err e => (st, Err e)
      | Ok port =>
          match map_err (fun e => "open core log: " ++ e) (build_command config env port) with
          | Err e => (st, Err e)
          | Ok cmd =>
              match map_err (fun e => "spawn " ++ core_path config ++ ": " ++ e) (spawned env) with
              | Err e => (st, Err e)
              | Ok pid =>
                  (set_core (Running {| pid := pid; rpc_port := port; stop_requested := false |}) st,
                   Ok (Spawned pid port cmd))
              end
          end
      end
  end.

(** ** The monitor thread *)

Inductive Signal : Type := SIGTERM | SIGKILL.

#[global] Instance Signal_eq_dec : EqDecision Signal.
Proof. solve_decision. Defined.

Record MonitorVars : Type := { term_deadline : option Z; kill_sent : bool }.

Definition monitor_init : MonitorVars := {| term_deadline := None; kill_sent := false |}.

(** The test made under the lock in each turn. *)
Definition stop_requested_for (st : State) (my_pid : Z) : bool :=
  match core st with
  | Running r => (pid r =? my_pid)%Z && stop_requested r
  | Stopped => false
  end.

(** The signal sent in this turn, at time [now]. *)
Definition escalate (stop : bool) (now : Z) (v : MonitorVars) : option Signal * MonitorVars :=
  if stop then
    match term_deadline v with
    | None =>
        (Some SIGTERM, {| term_deadline := Some (now + TERM_GRACE)%Z; kill_sent := kill_sent v |})
    | Some deadline =>
        if negb (kill_sent v) && (deadline <=? now)%Z
        then (Some SIGKILL, {| term_deadline := term_deadline v; kill_sent := true |})
        else (None, v)
    end
  else (None, v).

(** The critical section of [handle_core_exit]: the new state, and whether the
    exit was expected. *)
Definition handle_core_exit_locked (st : State) (my_pid : Z) : State * bool :=
  let mine := match core st with Running r => (pid r =? my_pid)%Z | Stopped => false end in
  let expected := match core st with
                  | Running r => if (pid r =? my_pid)%Z then stop_requested r else true
                  | Stopped => true
                  end in
  (if mine then set_core Stopped st else st, expected).

(** ** Stopping *)

(** The first critical section of [stop]; [false] when no core was running. *)
Definition stop_locked (st : State) : State * bool :=
  match core st with
  | Running r =>
      (set_core (Running {| pid := pid r; rpc_port := rpc_port r; stop_requested := true |}) st, true)
  | Stopped => (st, false)
  end.

(** ** The monitor's loop on its own

    [wait i] is what [try_wait] answers in turn [i], [stop i] the flag seen under
    the lock, [clock i] the time.  The result is the list of signals with the turn
    each was sent in, and the exit information; [None] is running out of fuel. *)
Inductive WaitAnswer : Type :=
| Reaped (status : Z)
| Alive
| WaitError.

Definition no_exit_info : ExitInfo := {| code := None; signal := None |}.

(** What the answer that ends the loop comes to. *)
Definition exit_info (w : WaitAnswer) : ExitInfo :=
  match w with Reaped status => from_status status | _ => no_exit_info end.

Section Monitor.
Context (wait : nat -> WaitAnswer) (stop : nat -> bool) (clock : nat -> Z).

Fixpoint monitor (fuel i : nat) (v : MonitorVars) : option (list (nat * Signal) * ExitInfo) :=
  match fuel with
  | O => None
  | S fuel =>
      match wait i with
      | Reaped status => Some ([], from_status status)
      | WaitError => Some ([], no_exit_info)
      | Alive =>
          let (s, v') := escalate (stop i) (clock i) v in
          match monitor fuel (S i) v' with
          | Some (sent, info) =>
              Some (match s with Some s => (i, s) :: sent | None => sent end, info)
          | None => None
          end
      end
  end.

End Monitor.

(** ** Properties of the critical sections *)

Lemma start_locked_owner config env st : owner (start_locked config env st).1 = owner st.
Proof. unfold start_locked. repeat case_match; done. Qed.

Lemma stop_locked_owner st : owner (stop_locked st).1 = owner st.
Proof. unfold stop_locked. by case_match. Qed.

Lemma exit_locked_owner st p : owner (handle_core_exit_locked st p).1 = owner st.
Proof. unfold handle_core_exit_locked. by repeat case_match. Qed.

(** C27: [start] never runs a second core and never forgets one: on a running
    core it changes nothing and returns that core's pid and port; on a stopped
    one it either records exactly the process it spawned, with no stop pending,
    or fails and leaves the state stopped. *)
Theorem start_spec config env st st' r : start_locked config env st = (st', r) ->
  match core st with
  | Running c => st' = st /\ r = Ok (AlreadyRunning (pid c) (rpc_port c))
  | Stopped =>
      (exists p port cmd, r = Ok (Spawned p port cmd) /\ spawned env = Ok p /\
         free_port env = Ok port /\ program cmd = core_path config /\
         st' = set_core (Running {| pid := p; rpc_port := port; stop_requested := false |}) st)
      \/ (exists e, r = Err e /\ st' = st)
  end.
Proof.
  unfold start_locked, pick_free_port, build_command.
  destruct (core st) as [|c]; [|intros [= <- <-]; done].
  destruct (free_port env) as [port|e] eqn:Hp; cbn; [|intros [= <- <-]; right; eauto].
  destruct (log_opened env) as [u|e]; cbn; [|intros [= <- <-]; right; eauto].
  destruct (spawned env) as [p|e] eqn:Hs; cbn; [|intros [= <- <-]; right; eauto].
  intros [= <- <-]. left. eexists p, port, _. split_and!; done.
Qed.

(** ** Properties of the monitor's loop *)

Section MonitorSpec.
Context (wait : nat -> WaitAnswer) (stop : nat -> bool) (clock : nat -> Z).
Context (T : nat).
Hypothesis alive_before : forall j, (j < T)%nat -> wait j = Alive.
Hypothesis gone_at : wait T <> Alive.

(** The exit information of the last turn. *)
Definition last_info : ExitInfo := exit_info (wait T).

Lemma monitor_last v : monitor wait stop clock 1 T v = Some ([], last_info).
Proof using gone_at. unfold last_info. cbn. by destruct (wait T). Qed.

Lemma monitor_turn fuel i v : (i < T)%nat ->
  monitor wait stop clock (S fuel) i v =
  let (s, v') := escalate (stop i) (clock i) v in
  match monitor wait stop clock fuel (S i) v' with
  | Some (sent, info) => Some (match s with Some s => (i, s) :: sent | None => sent end, info)
  | None => None
  end.
Proof using alive_before. intros Hi. cbn. by rewrite alive_before. Qed.

(** After SIGKILL the monitor only waits. *)
Lemma monitor_killed k : forall i d, (i + k = T)%nat ->
  monitor wait stop clock (S k) i {| term_deadline := Some d; kill_sent := true |}
    = Some ([], last_info).
Proof using alive_before gone_at.
  induction k as [|k IH]; intros i d Hi.
  - rewrite Nat.add_0_r in Hi. subst i. apply monitor_last.
  - rewrite monitor_turn by lia. unfold escalate. cbn [term_deadline kill_sent negb andb].
    destruct (stop i); rewrite IH by lia; done.
Qed.

(** The first turn from [i] on, before the last, in which [P] holds. *)
Fixpoint first_turn (P : nat -> bool) (i k : nat) : option nat :=
  match k with
  | O => None
  | S k => if P i then Some i else first_turn P (S i) k
  end.

(** After SIGTERM it kills in the first turn past the grace period. *)
Lemma monitor_termed k : forall i d, (i + k = T)%nat ->
  monitor wait stop clock (S k) i {| term_deadline := Some d; kill_sent := false |}
    = Some (match first_turn (fun j => stop j && (d <=? clock j)%Z) i k with
            | Some j => [(j, SIGKILL)]
            | None => []
            end, last_info).
Proof using alive_before gone_at.
  induction k as [|k IH]; intros i d Hi.
  - rewrite Nat.add_0_r in Hi. subst i. apply monitor_last.
  - rewrite monitor_turn by lia. unfold escalate. cbn [term_deadline kill_sent negb andb first_turn].
    destruct (stop i); [destruct (d <=? clock i)%Z|]; cbn [andb].
    + by rewrite monitor_killed by lia.
    + by rewrite IH by lia.
    + by rewrite IH by lia.
Qed.

(** The signals of a whole run. *)
Definition signals (i k : nat) : list (nat * Signal) :=
  match first_turn stop i k with
  | None => []
  | Some t =>
      (t, SIGTERM) ::
      match first_turn (fun j => stop j && (clock t + TERM_GRACE <=? clock j)%Z) (S t) (T - S t) with
      | Some j => [(j, SIGKILL)]
      | None => []
      end
  end.

Lemma monitor_fresh k : forall i, (i + k = T)%nat ->
  monitor wait stop clock (S k) i monitor_init = Some (signals i k, last_info).
Proof using alive_before gone_at.
  unfold monitor_init, signals. induction k as [|k IH]; intros i Hi.
  - rewrite Nat.add_0_r in Hi. subst i. apply monitor_last.
  - rewrite monitor_turn by lia. unfold escalate. cbn [term_deadline kill_sent first_turn].
    destruct (stop i).
    + rewrite monitor_termed by lia. by replace (T - S i)%nat with k by lia.
    + by rewrite IH by lia.
Qed.

Lemma first_turn_Some P k : forall i j, first_turn P i k = Some j ->
  (i <= j < i + k)%nat /\ P j = true /\ forall l, (i <= l < j)%nat -> P l = false.
Proof.
  induction k as [|k IH]; intros i j; cbn; [done|]. destruct (P i) eqn:HP.
  - intros [= <-]. split_and!; [lia|lia|done|lia].
  - intros (? & Hj & Hl)%IH. split_and!; [lia|lia|done|].
    intros l Hll. destruct (decide (l = i)) as [->|]; [done|]. apply Hl. lia.
Qed.

Lemma first_turn_None P k : forall i, first_turn P i k = None ->
  forall l, (i <= l < i + k)%nat -> P l = false.
Proof.
  induction k as [|k IH]; intros i; cbn; [lia|]. destruct (P i) eqn:HP; [done|].
  intros H l Hl. destruct (decide (l = i)) as [->|]; [done|]. apply (IH (S i)); [done|lia].
Qed.

Lemma first_turn_hit P i k l : (i <= l < i + k)%nat -> P l = true ->
  exists j, first_turn P i k = Some j /\ (j <= l)%nat.
Proof.
  intros Hl HP. destruct (first_turn P i k) as [j|] eqn:H.
  - exists j. split; [done|]. apply first_turn_Some in H as (_ & _ & Hm).
    destruct (decide (j <= l)%nat); [done|]. rewrite Hm in HP by lia. done.
  - rewrite (first_turn_None P k i H l Hl) in HP. done.
Qed.

(** A signal of the run, and the turn it is sent in. *)
Lemma elem_signals t s : (t, s) ∈ signals 0 T <->
  exists t0, first_turn stop 0 T = Some t0 /\
    ((t = t0 /\ s = SIGTERM) \/
     (s = SIGKILL /\
      first_turn (fun j => stop j && (clock t0 + TERM_GRACE <=? clock j)%Z) (S t0) (T - S t0) = Some t)).
Proof.
  unfold signals. destruct (first_turn stop 0 T) as [t0|]; [|rewrite elem_of_nil; naive_solver].
  destruct (first_turn _ (S t0) _) as [t1|] eqn:H1;
    rewrite !elem_of_cons, elem_of_nil; naive_solver.
Qed.

(** C26: the monitor of a core that is gone at turn [T] ends there with that
    exit's information, having sent: nothing if no stop was requested before;
    SIGTERM in the first turn that sees the request; and SIGKILL in the first
    later turn that is at least 5 s past SIGTERM and still sees it.  Each is sent
    at most once, and only in turns in which the child was seen alive. *)
Theorem monitor_escalation :
  monitor wait stop clock (S T) 0 monitor_init = Some (signals 0 T, last_info) /\
  (forall t s, (t, s) ∈ signals 0 T -> (t < T)%nat /\ wait t = Alive /\ stop t = true) /\
  (forall t, (t < T)%nat -> stop t = true -> exists t', (t' <= t)%nat /\ (t', SIGTERM) ∈ signals 0 T) /\
  (forall t, (t, SIGKILL) ∈ signals 0 T ->
     exists t', (t' < t)%nat /\ (t', SIGTERM) ∈ signals 0 T /\ (clock t' + 5000 <= clock t)%Z) /\
  (forall t t', (t', SIGTERM) ∈ signals 0 T -> (t' < t < T)%nat -> stop t = true ->
     (clock t' + 5000 <= clock t)%Z -> exists t'', (t'' <= t)%nat /\ (t'', SIGKILL) ∈ signals 0 T).
Proof using alive_before gone_at.
  split; [by apply monitor_fresh|]. split_and!.
  - intros t s (t0 & H0 & [[-> ->]|[-> H1]])%elem_signals.
    + apply first_turn_Some in H0 as (? & ? & _). split_and!; [lia|apply alive_before; lia|done].
    + apply first_turn_Some in H1 as (? & [? _]%andb_prop & _).
      apply first_turn_Some in H0 as (? & _). split_and!; [lia|apply alive_before; lia|done].
  - intros t Ht Hs. destruct (first_turn_hit stop 0 T t) as (t0 & H0 & Hle); [lia|done|].
    exists t0. split; [done|]. apply elem_signals. eauto.
  - intros t (t0 & H0 & [[_ [=]]|[_ H1]])%elem_signals. exists t0.
    apply first_turn_Some in H1 as (? & [_ Hc%Z.leb_le]%andb_prop & _).
    split_and!; [lia|apply elem_signals; eauto|done].
  - intros t t' (t0 & H0 & [[-> _]|[[=] _]])%elem_signals Hlt Hs Hc.
    destruct (first_turn_hit (fun j => stop j && (clock t0 + TERM_GRACE <=? clock j)%Z)
                (S t0) (T - S t0) t) as (t1 & H1 & Hle); [lia| |].
    { cbv beta. rewrite Hs. by apply Z.leb_le. }
    exists t1. split; [done|]. apply elem_signals. eauto.
Qed.

End MonitorSpec.

(** ** The theorems apply *)

Definition sample_spawn : SpawnEnv :=
  {| free_port := Ok 50321%Z; log_opened := Ok tt; spawned := Ok 4321%Z |}.

Definition stopped : State := {| owner := None; core := Stopped |}.

Lemma start_spec_witness :
  exists st' r, start_locked sample_config sample_spawn stopped = (st', r) /\
    ((exists p port cmd, r = Ok (Spawned p port cmd) /\ spawned sample_spawn = Ok p /\
        free_port sample_spawn = Ok port /\ program cmd = core_path sample_config /\
        st' = set_core (Running {| pid := p; rpc_port := port; stop_requested := false |}) stopped)
     \/ (exists e, r = Err e /\ st' = stopped)).
Proof.
  eexists _, _. split; [reflexivity|].
  exact (start_spec sample_config sample_spawn stopped _ _ eq_refl).
Defined.

(** A core that ignores SIGTERM and dies of SIGKILL; polled every 100 ms. *)
Definition stubborn (i : nat) : WaitAnswer := if (i <? 60)%nat then Alive else Reaped 9.

Lemma monitor_escalation_witness :
  monitor stubborn (Nat.leb 3) (fun i => 100 * Z.of_nat i)%Z 61 0 monitor_init
    = Some ([(3, SIGTERM); (53, SIGKILL)]%nat, {| code := None; signal := Some 9%Z |}).
Proof.
  assert (Ha : forall j, (j < 60)%nat -> stubborn j = Alive).
  { intros j Hj. unfold stubborn. by rewrite (proj2 (Nat.ltb_lt j 60) Hj). }
  assert (Hg : stubborn 60 <> Alive) by (vm_compute; discriminate).
  destruct (monitor_escalation stubborn (Nat.leb 3) (fun i => 100 * Z.of_nat i)%Z 60 Ha Hg)
    as [H _].
  rewrite H. vm_compute. reflexivity.
Defined.
