(* ===== verification/Janitor.v ===== *)
(** * Orphan reconciliation: [supervisor/src/janitor.rs] *)

From Stdlib Require Import ZArith Lia Ascii String.
From stdpp Require Import base list strings.
From S2P Require Import Prelude RustStr Config Auth Hooks CoreProc.

Open Scope string_scope.

(** The full path, or the full path and a space: the production path holds a
    space, so the text cannot be cut at spaces. *)
Definition argv0_matches (args core_path : string) : bool :=
  (args =? core_path) || starts_with (core_path ++ " ") args.

(** One line of [ps -axww -o pid=,args=]: the pid and the command line. *)
Definition ps_entry (line : string) : option (Z * string) :=
  let line := trim_start line in
  let (first, rest) := match split_once_ws line with
                       | Some (a, b) => (a, b)
                       | None => (line, "")
                       end in
  match parse_i32 first with
  | Some pid => Some (pid, trim_start rest)
  | None => None
  end.

(** The answer of [kill(pid, SIGKILL)]. *)
Inductive KillAnswer : Type :=
| Killed
| NoSuchProcess
| KillFailed (e : string).

(** The lines written to stderr. *)
Inductive Notice : Type :=
| PsFailed (e : string)
| KilledOrphan (pid : Z) (args : string)
| KillError (pid : Z) (e : string)
| HookNotice (line : string).

Section Sweep.
Context (config : Config) (auth : AuthMode).
Context (self_pid : Z) (exclude_pid : option Z).
(** The operating system: the output of [ps], the answer of [kill] for
    a pid, and [lstat]. *)
Context (ps : result string string) (kill : Z -> KillAnswer).
Context (symlink_metadata : string -> result Metadata io_error).

(** The process a line names, if this sweep signals it. *)
Definition victim (line : string) : option (Z * string) :=
  match ps_entry line with
  | Some (pid, args) =>
      if (pid =? self_pid)%Z || bool_decide (Some pid = exclude_pid) then None
      else if argv0_matches args (core_path config) then Some (pid, args)
      else None
  | None => None
  end.

Fixpoint sweep_lines (ls : list string) (killed : nat) (sent : list Z) (out : list Notice)
    : nat * list Z * list Notice :=
  match ls with
  | [] => (killed, sent, out)
  | line :: ls =>
      match victim line with
      | None => sweep_lines ls killed sent out
      | Some (pid, args) =>
          match kill pid with
          | Killed => sweep_lines ls (S killed) (sent ++ [pid]) (out ++ [KilledOrphan pid args])
          | NoSuchProcess => sweep_lines ls killed (sent ++ [pid]) out
          | KillFailed e => sweep_lines ls killed (sent ++ [pid]) (out ++ [KillError pid e])
          end
      end
  end%list.

Record SweepResult : Type := {
  killed : nat;
  signalled : list Z;
  notices : list Notice;
  down_hook : option HookJob
}.

Definition sweep_orphans : SweepResult :=
  match ps with
  | Err e => {| killed := 0; signalled := []; notices := [PsFailed e]; down_hook := None |}
  | Ok output =>
      match sweep_lines (lines (from_utf8_lossy output)) 0 [] [] with
      | (killed, signalled, out) =>
          if (0 <? killed)%nat then
            let (job, errs) := run_hook symlink_metadata config auth Down (Some Janitor) in
            {| killed := killed; signalled := signalled;
               notices := (out ++ map HookNotice errs)%list; down_hook := job |}
          else {| killed := killed; signalled := signalled; notices := out; down_hook := None |}
      end
  end.

End Sweep.

(** Reserved for the route and utun residue; does nothing yet. *)
Definition cleanup_routes (config : Config) : unit := tt.

(** ** Properties *)

Lemma argv0_matches_iff args cp : argv0_matches args cp = true <->
  args = cp \/ exists rest, args = cp ++ String " " rest.
Proof.
  unfold argv0_matches. rewrite orb_true_iff, String.eqb_eq, starts_with_spec.
  setoid_rewrite sapp_assoc. done.
Qed.

(** A command line is taken for one of our cores exactly when it is the
    core path itself or the core path, a space and arguments; in particular a
    sibling whose name only extends the core path never matches. *)
Theorem argv0_matches_spec args cp :
  (argv0_matches args cp = true <-> args = cp \/ exists rest, args = cp ++ String " " rest) /\
  (forall c rest, c <> " "%char -> argv0_matches (cp ++ String c rest) cp = false).
Proof.
  split; [apply argv0_matches_iff|]. intros c rest Hc.
  apply not_true_iff_false. rewrite argv0_matches_iff. intros [H|[rest' H]].
  - rewrite <- (sapp_nil_r cp) in H at 2. by apply sapp_inv_head in H.
  - apply sapp_inv_head in H. congruence.
Qed.

(** How [ps] shows a process: the pid padded with spaces, a space, and the
    arguments joined by spaces. *)
Definition ps_line (pad : nat) (pid : Z) (argv : list string) : string :=
  string_of_list_ascii (repeat " "%char pad) ++ dec pid ++ " " ++ String.concat " " argv.

Lemma trim_start_pad pad s : trim_start (string_of_list_ascii (repeat " "%char pad) ++ s) = trim_start s.
Proof. induction pad as [|pad IH]; [done|]. cbn -[ws1]. by change (ws1 " ") with true. Qed.

Fixpoint all_digits (s : string) : bool :=
  match s with "" => true | String c s' => within 48 57 c && all_digits s' end.

Lemma all_digits_dec n : (0 <= n)%Z -> all_digits (dec n) = true.
Proof.
  intros Hn. assert (Hu : forall u, all_digits (DecimalString.NilEmpty.string_of_uint u) = true)
    by (induction u; done).
  unfold dec. destruct (Z.to_int n) as [u|u] eqn:E; [|by destruct n].
  destruct u; [done|apply (Hu (_ _))..].
Qed.

Lemma solid_digit c : within 48 57 c = true -> solid c = true.
Proof. destruct c as [[] [] [] [] [] [] [] []]; done. Qed.

Lemma split_once_solid c d r : solid c = true ->
  split_once_ws (String c (String d r)) =
  match split_once_ws (String d r) with Some (a, b) => Some (String c a, b) | None => None end.
Proof.
  intros [Hw Hb]%solid_ascii. remember (String d r) as s eqn:E. cbn [split_once_ws].
  rewrite Hw. destruct s as [|d' s]; [done|]. rewrite ws2_ascii_l by done.
  destruct s as [|e s]; [done|]. by rewrite ws3_ascii_l.
Qed.

Lemma split_once_digits s t : all_digits s = true -> split_once_ws (s ++ String " " t) = Some (s, t).
Proof.
  induction s as [|c s IH]; [done|]. cbn [all_digits String.append]. intros [Hc Hs]%andb_prop.
  specialize (IH Hs). apply solid_digit in Hc.
  destruct (s ++ String " " t) as [|d r] eqn:E; [by destruct s|].
  by rewrite split_once_solid, IH.
Qed.

(** The line of a process is read back as its pid and its joined arguments. *)
Lemma ps_entry_line pad p argv : (0 <= p <= i32_max)%Z ->
  ps_entry (ps_line pad p argv) = Some (p, trim_start (String.concat " " argv)).
Proof.
  intros Hp. unfold ps_entry, ps_line. rewrite trim_start_pad.
  assert (Hd := all_digits_dec p ltac:(lia)).
  assert (Ht : trim_start (dec p ++ " " ++ String.concat " " argv)
               = dec p ++ " " ++ String.concat " " argv).
  { pose proof (dec_not_sign p ltac:(lia)) as Hs. destruct (dec p) as [|c s]; [done|].
    by apply trim_start_solid, solid_digit. }
  rewrite Ht. change (" " ++ String.concat " " argv) with (String " " (String.concat " " argv)).
  by rewrite split_once_digits, parse_i32_dec.
Qed.

(** Every core [start] spawns is recognised by a later sweep: the [ps] line
    of the command that [build_command] builds is read back as that process's pid
    and matches the configured core path, for any absolute core path, spaces
    included, any port and any padding. *)
Theorem spawned_core_recognised config env port cmd pad p :
  build_command config env port = Ok cmd ->
  starts_with "/" (core_path config) = true -> (0 <= p <= i32_max)%Z ->
  exists args, ps_entry (ps_line pad p (argv0 cmd :: CoreProc.args cmd)) = Some (p, args) /\
    argv0_matches args (core_path config) = true.
Proof.
  intros Hb [rest Hcp]%starts_with_spec Hp. rewrite ps_entry_line by done.
  eexists. split; [reflexivity|]. unfold build_command in Hb.
  destruct (log_opened env); [|done]. injection Hb as <-. cbn [argv0 CoreProc.args String.concat].
  rewrite Hcp. cbn [String.append]. rewrite trim_start_solid by done.
  apply argv0_matches_iff. right. by eexists.
Qed.

(** *** What a sweep signals *)

Section SweepSpec.
Context (config : Config) (auth : AuthMode) (self_pid : Z) (exclude_pid : option Z).
Context (ps : result string string) (kill : Z -> KillAnswer).
Context (symlink_metadata : string -> result Metadata io_error).

Abbreviation victim := (victim config self_pid exclude_pid).

Definition victims (ls : list string) : list Z := map fst (omap victim ls).

Definition is_killed (p : Z) : bool := match kill p with Killed => true | _ => false end.

Lemma sweep_lines_spec ls : forall n sent out,
  exists out', sweep_lines config self_pid exclude_pid kill ls n sent out
    = (n + length (List.filter is_killed (victims ls)), sent ++ victims ls, out')%nat%list.
Proof.
  unfold victims. induction ls as [|l ls IH]; intros n sent out.
  - exists out. cbn. by rewrite Nat.add_0_r, app_nil_r.
  - cbn [sweep_lines omap list_omap]. destruct (victim l) as [[p a]|] eqn:Hv; [|apply IH].
    cbn [map fst List.filter]. unfold is_killed at 1.
    destruct (kill p) eqn:Hk;
      match goal with |- context [sweep_lines _ _ _ _ _ ?m ?t ?o] =>
        destruct (IH m t o) as [out' ->] end;
      exists out'; rewrite <- app_assoc; f_equal; f_equal; cbn [length]; lia.
Qed.

(** A sweep signals exactly the processes [ps] lists, in order, whose pid is
    neither its own nor the excluded one and whose command line is the core path
    or starts with it and a space; it returns how many of them it killed, and
    runs the [down] hook (reason [janitor]) only if it killed one. *)
Theorem sweep_orphans_spec output : ps = Ok output ->
  let txt := from_utf8_lossy output in
  let r := sweep_orphans config auth self_pid exclude_pid ps kill symlink_metadata in
  let vs := victims (lines txt) in
  signalled r = vs /\ killed r = length (List.filter is_killed vs) /\
  (forall p, p ∈ vs -> p <> self_pid /\ Some p <> exclude_pid /\
     exists line args, line ∈ lines txt /\ ps_entry line = Some (p, args) /\
       argv0_matches args (core_path config) = true) /\
  down_hook r = if (0 <? killed r)%nat
                then (run_hook symlink_metadata config auth Down (Some Janitor)).1
                else None.
Proof.
  intros Hps txt r vs. assert (Hvs : forall p, p ∈ vs -> p <> self_pid /\ Some p <> exclude_pid /\
     exists line args, line ∈ lines txt /\ ps_entry line = Some (p, args) /\
       argv0_matches args (core_path config) = true).
  { intros p ([p' a] & -> & (line & Hl & Hv)%list_elem_of_omap)%list_elem_of_fmap.
    unfold Janitor.victim in Hv. destruct (ps_entry line) as [[q b]|] eqn:He; [|done].
    destruct ((q =? self_pid)%Z || _) eqn:Hx; [done|].
    destruct (argv0_matches b (core_path config)) eqn:Hm; [|done]. injection Hv as <- <-.
    breflect. case_bool_decide; [done|]. eauto 8. }
  unfold r, sweep_orphans. rewrite Hps. fold txt.
  destruct (sweep_lines_spec (lines txt) 0 [] []) as [out ->]. fold vs. cbn [app Nat.add].
  destruct (0 <? length (List.filter is_killed vs))%nat eqn:Hk.
  - destruct (run_hook _ _ _ _ _) as [job errs].
    cbn [killed signalled down_hook fst]. by rewrite Hk.
  - cbn [killed signalled down_hook]. by rewrite Hk.
Qed.

End SweepSpec.

(** ** The theorems apply *)

Definition prod_config : Config := {|
  proto := 1; owner_uid := 501;
  core_path := "/Library/Application Support/EasyTier/bin/easytier-core";
  log_dir := "/Library/Application Support/EasyTier/logs";
  cfg_hooks_dir := None; hook_timeout_secs := None |}.

Lemma spawned_core_recognised_witness :
  exists cmd, build_command prod_config sample_spawn 50321 = Ok cmd /\
  exists args, ps_entry (ps_line 3 42 (argv0 cmd :: CoreProc.args cmd)) = Some (42%Z, args) /\
    argv0_matches args (core_path prod_config) = true.
Proof.
  eexists. split; [reflexivity|].
  apply (spawned_core_recognised prod_config sample_spawn 50321); try reflexivity.
  unfold i32_max. lia.
Defined.

Definition sample_ps : string :=
  "    1 /sbin/launchd" ++ nl ++
  "  777 /opt/et/bin/easytier-core --daemon --rpc-portal 127.0.0.1:5000" ++ nl ++
  "  778 /opt/et/bin/easytier-core-extra --daemon" ++ nl ++
  "  779 /opt/et/bin/easytier-core" ++ nl.

Lemma sweep_orphans_spec_witness :
  let r := sweep_orphans sample_config (Launchd 501) 779 None (Ok sample_ps) (fun _ => Killed) sample_fs in
  signalled r = [777%Z] /\ killed r = 1%nat.
Proof.
  destruct (sweep_orphans_spec sample_config (Launchd 501) 779 None (Ok sample_ps) (fun _ => Killed)
              sample_fs sample_ps eq_refl) as (Hs & Hk & _).
  intros r. unfold r. rewrite Hs, Hk. vm_compute. split; reflexivity.
Defined.
