(* ===== verification/Main.v ===== *)
(** * Starting up: [supervisor/src/main.rs] and [supervisor/src/activation.rs]

    From the command line to the listeners; what runs afterwards is [Supervisor]. *)

From Stdlib Require Import ZArith Lia Ascii String.
From stdpp Require Import base list strings.
From S2P Require Import Prelude RustStr Config Auth Hooks CoreProc Janitor.

Open Scope string_scope.

(** ** The command line *)

Record Args : Type := { config_path : string; dev_listen : option string }.

(** Why a command line is not accepted: a usage error, or a word that is not
    Unicode, at which the iterator [std::env::args] panics. *)
Inductive ArgError : Type :=
| Usage (e : string)
| NotUnicode.

Fixpoint parse_loop (it : list string) (a : Args) : result Args ArgError :=
  match it with
  | [] => Ok a
  | arg :: it =>
      if negb (utf8_valid arg) then Err NotUnicode
      else if arg =? "--config" then
        match it with
        | p :: it =>
            if utf8_valid p then parse_loop it {| config_path := p; dev_listen := dev_listen a |}
            else Err NotUnicode
        | [] => Err (Usage "--config requires a path")
        end
      else if arg =? "--dev-listen" then
        match it with
        | p :: it =>
            if utf8_valid p then parse_loop it {| config_path := config_path a; dev_listen := Some p |}
            else Err NotUnicode
        | [] => Err (Usage "--dev-listen requires a path")
        end
      else Err (Usage ("unknown argument: " ++ arg))
  end.

Definition default_args : Args := {| config_path := DEFAULT_CONFIG_PATH; dev_listen := None |}.

(** [skip(1)] takes the first word as well. *)
Definition parse_args (argv : list string) : result Args ArgError :=
  match argv with
  | [] => Ok default_args
  | program :: it => if utf8_valid program then parse_loop it default_args else Err NotUnicode
  end.

(** ** The listeners *)

Section Listeners.
(** launchd: the return code and the array of descriptors; the text of an errno;
    [bind]. *)
Context (launch_activate_socket : string -> Z * list Z).
Context (os_error : Z -> io_error).
Context (bind : string -> result Z io_error).

Definition NUL : ascii := "000"%char.

(** The text of a [NulError]. *)
Definition nul_error (name : string) : string :=
  "nul byte found in provided data at position: " ++
  dec (match String.index 0 (String NUL "") name with Some n => Z.of_nat n | None => 0%Z end).

Definition activate_listeners (name : string) : result (list Z) io_error :=
  if occurs NUL name then
    Err (IoError InvalidInput (nul_error name))
  else
    let (rc, fds) := launch_activate_socket name in
    if negb (rc =? 0)%Z then Err (os_error rc)
    else match fds with
         | [] => Err (IoError NotFound "launchd returned no listener sockets")
         | _ => Ok fds
         end.

(** The file unlinked first, and the listeners. *)
Definition obtain_listeners (a : Args) : option string * result (list Z) io_error :=
  match dev_listen a with
  | Some path => (Some path, let? fd := bind path in Ok [fd])
  | None => (None, activate_listeners "Listeners")
  end.

(** ** [main] *)

(** The file system, the [toml] crate, the credentials of the process and the
    process table. *)
Context (symlink_metadata : string -> result Metadata io_error).
Context (read_to_string : string -> result string io_error).
Context (toml_from_str : string -> result Config string).
Context (geteuid self_pid : Z).
Context (ps : result string string) (kill : Z -> KillAnswer).

Definition auth_mode (a : Args) (config : Config) : AuthMode :=
  match dev_listen a with
  | Some _ => Dev geteuid
  | None => Launchd (owner_uid config)
  end.

Inductive Outcome : Type :=
| Panic
| Exit (code : Z) (msg : string)
| Serve (config : Config) (auth : AuthMode) (listeners : list Z).

(** [swept] is the sweep, if [main] came to it. *)
Record Startup : Type := { swept : option SweepResult; outcome : Outcome }.

Definition main (argv : list string) : Startup :=
  match parse_args argv with
  | Err NotUnicode => {| swept := None; outcome := Panic |}
  | Err (Usage e) => {| swept := None; outcome := Exit 2 ("easytier-supervisor: " ++ e) |}
  | Ok args =>
      match load symlink_metadata read_to_string toml_from_str geteuid (config_path args) with
      | Err e =>
          {| swept := None;
             outcome := Exit 1 ("easytier-supervisor: failed to load config " ++ config_path args
                                ++ ": " ++ text e) |}
      | Ok config =>
          let auth := auth_mode args config in
          let sweep := sweep_orphans config auth self_pid None ps kill symlink_metadata in
          {| swept := Some sweep;
             outcome :=
               match snd (obtain_listeners args) with
               | Err e => Exit 1 ("easytier-supervisor: no control socket: " ++ text e)
               | Ok listeners => Serve config auth listeners
               end |}
      end
  end.

(** ** Properties *)

(** What the command line is made of. *)
Inductive Opt : Type := OConfig (p : string) | ODevListen (p : string).

Definition opt_words (o : Opt) : list string :=
  match o with OConfig p => ["--config"; p] | ODevListen p => ["--dev-listen"; p] end.

Definition apply_opt (a : Args) (o : Opt) : Args :=
  match o with
  | OConfig p => {| config_path := p; dev_listen := dev_listen a |}
  | ODevListen p => {| config_path := config_path a; dev_listen := Some p |}
  end.

Definition opt_path (o : Opt) : string := match o with OConfig p | ODevListen p => p end.

Lemma parse_loop_words os : Forall (fun o => utf8_valid (opt_path o) = true) os ->
  forall a, parse_loop (flat_map opt_words os) a = Ok (foldl apply_opt a os).
Proof.
  induction 1 as [|[p|p] os Hp _ IH]; intros a; [done|..]; cbn in *; rewrite Hp; exact (IH _).
Qed.

Lemma parse_loop_ok n : forall it a a', (length it <= n)%nat -> parse_loop it a = Ok a' ->
  exists os, it = flat_map opt_words os /\ a' = foldl apply_opt a os /\
    Forall (fun o => utf8_valid (opt_path o) = true) os.
Proof.
  induction n as [|n IH]; intros it a a' Hn; (destruct it as [|arg it];
    [intros [= <-]; by exists []|]); cbn in Hn; [lia|]. cbn [parse_loop].
  destruct (utf8_valid arg); cbn [negb]; [|done].
  destruct (String.eqb_spec arg "--config") as [->|_].
  - destruct it as [|p it]; [done|]. cbn in Hn. destruct (utf8_valid p) eqn:Hp; [|done].
    intros (os & -> & -> & Hos)%IH; [|lia]. exists (OConfig p :: os). by repeat constructor.
  - destruct (String.eqb_spec arg "--dev-listen") as [->|_]; [|done].
    destruct it as [|p it]; [done|]. cbn in Hn. destruct (utf8_valid p) eqn:Hp; [|done].
    intros (os & -> & -> & Hos)%IH; [|lia]. exists (ODevListen p :: os). by repeat constructor.
Qed.

(** The command line is accepted exactly if, after the program's name, it is a
    sequence of [--config <path>] and [--dev-listen <path>], all of it Unicode; of
    several options of one kind the last one counts, and a path may look like an
    option. *)
Theorem parse_args_spec argv a :
  parse_args argv = Ok a <->
  exists os, tail argv = flat_map opt_words os /\ a = foldl apply_opt default_args os /\
    Forall (fun o => utf8_valid (opt_path o) = true) os /\
    match argv with program :: _ => utf8_valid program = true | [] => True end.
Proof.
  destruct argv as [|program it]; cbn [parse_args tail].
  - split; [intros [= <-]; by exists []|]. intros (os & Hos & -> & _). by destruct os as [|[] ].
  - split.
    + destruct (utf8_valid program); [|done]. intros (os & -> & -> & Hos)%(parse_loop_ok (length it)); [|done].
      by exists os.
    + intros (os & -> & -> & Hos & ->). by apply parse_loop_words.
Qed.

(** C40: a supervisor that serves was given a valid command line and a
    configuration that passed the checks of [load], has swept the orphans with
    that configuration, and listens on at least one socket.  It admits root and
    the configured uid if and only if the socket is launchd's, and its own uid
    alone if and only if it was told to make its own socket. *)
Theorem main_serves argv r config auth listeners :
  main argv = r -> outcome r = Serve config auth listeners ->
  exists args, parse_args argv = Ok args /\
    load symlink_metadata read_to_string toml_from_str geteuid (config_path args) = Ok config /\
    swept r = Some (sweep_orphans config auth self_pid None ps kill symlink_metadata) /\
    listeners <> [] /\
    match dev_listen args with
    | Some path => auth = Dev geteuid /\ exists fd, bind path = Ok fd /\ listeners = [fd]
    | None => auth = Launchd (owner_uid config) /\ launch_activate_socket "Listeners" = (0%Z, listeners)
    end.
Proof.
  intros <-. unfold main. destruct (parse_args argv) as [args|[]]; [|done..].
  destruct (load _ _ _ _ _) as [cfg|] eqn:Hl; [|done]. cbn.
  unfold obtain_listeners, auth_mode. destruct (dev_listen args) as [path|] eqn:Hd; cbn.
  - destruct (bind path) as [fd|] eqn:Hb; [|done]. intros [= <- <- <-].
    exists args. rewrite Hd. split_and!; try done. eauto.
  - unfold activate_listeners. change (occurs NUL "Listeners") with false. cbn.
    destruct (launch_activate_socket "Listeners") as [rc fds].
    destruct (Z.eqb_spec rc 0) as [->|]; cbn; [|done]. destruct fds as [|fd fds]; [done|].
    intros [= <- <- <-]. exists args. by rewrite Hd.
Qed.

(** Nothing is signalled and no socket is taken before the configuration was
    accepted: with a bad command line [main] exits with 2, with a refused
    configuration with 1, in both cases without a sweep; without a socket it
    exits with 1. *)
Theorem main_exits argv r code msg : main argv = r -> outcome r = Exit code msg ->
  (code = 2%Z /\ swept r = None /\ exists e, parse_args argv = Err (Usage e)) \/
  (code = 1%Z /\ exists args, parse_args argv = Ok args /\
     match load symlink_metadata read_to_string toml_from_str geteuid (config_path args) with
     | Err _ => swept r = None
     | Ok _ => swept r <> None /\ is_ok (snd (obtain_listeners args)) = false
     end).
Proof.
  intros <-. unfold main. destruct (parse_args argv) as [args|[e|]]; [|intros [= <- _]; left; eauto|done].
  destruct (load _ _ _ _ _) as [cfg|] eqn:Hl; cbn.
  - destruct (snd (obtain_listeners args)) as [ls|e] eqn:Ho; [done|]. intros [= <- _].
    right. split; [done|]. exists args. split; [done|]. by rewrite Hl, Ho.
  - intros [= <- _]. right. split; [done|]. exists args. by rewrite Hl.
Qed.

End Listeners.

(** ** Witnesses *)

Definition sample_main : list string -> Startup :=
  main (fun _ => (0%Z, [3%Z])) (fun _ => IoError Other "no such process") (fun _ => Ok 4%Z)
    (fun p => if p =? DEFAULT_CONFIG_PATH
              then Ok {| md_is_file := true; md_uid := 0; md_gid := 0; md_mode := 420 |}
              else Err (IoError NotFound "no such file"))
    (fun _ => Ok "proto = 1") (fun _ => Ok sample_config) 0 55 (Ok "") (fun _ => NoSuchProcess).

Lemma main_serves_witness : exists args,
  outcome (sample_main ["easytier-supervisor"]) = Serve sample_config (Launchd 501) [3%Z] /\
  parse_args ["easytier-supervisor"] = Ok args /\ dev_listen args = None /\ [3%Z] <> [].
Proof.
  destruct (main_serves (fun _ => (0%Z, [3%Z])) (fun _ => IoError Other "no such process") (fun _ => Ok 4%Z)
    (fun p => if p =? DEFAULT_CONFIG_PATH
              then Ok {| md_is_file := true; md_uid := 0; md_gid := 0; md_mode := 420 |}
              else Err (IoError NotFound "no such file"))
    (fun _ => Ok "proto = 1") (fun _ => Ok sample_config) 0 55 (Ok "") (fun _ => NoSuchProcess)
    ["easytier-supervisor"] _ sample_config (Launchd 501) [3%Z] eq_refl
    ltac:(vm_compute; reflexivity)) as (args & Ha & _ & _ & Hne & _).
  exists args. split; [vm_compute; reflexivity|]. split; [exact Ha|]. split; [|exact Hne].
  vm_compute in Ha. injection Ha as <-. reflexivity.
Defined.

Lemma main_exits_witness : exists msg,
  outcome (sample_main ["easytier-supervisor"; "--config"; "/tmp/x"]) = Exit 1 msg /\
  swept (sample_main ["easytier-supervisor"; "--config"; "/tmp/x"]) = None.
Proof.
  eexists. split; [vm_compute; reflexivity|].
  destruct (main_exits (fun _ => (0%Z, [3%Z])) (fun _ => IoError Other "no such process") (fun _ => Ok 4%Z)
    (fun p => if p =? DEFAULT_CONFIG_PATH
              then Ok {| md_is_file := true; md_uid := 0; md_gid := 0; md_mode := 420 |}
              else Err (IoError NotFound "no such file"))
    (fun _ => Ok "proto = 1") (fun _ => Ok sample_config) 0 55 (Ok "") (fun _ => NoSuchProcess)
    ["easytier-supervisor"; "--config"; "/tmp/x"] _ 1 _ eq_refl
    ltac:(vm_compute; reflexivity)) as [(Hc & _)|(_ & args & Ha & Hl)]; [discriminate Hc|].
  vm_compute in Ha. injection Ha as <-. exact Hl.
Defined.
