(* ===== verification/Server.v ===== *)
(** * Connections and the single-owner lease: [supervisor/src/server.rs]

    The reading of control lines, the [hello] gate, the decision each command
    line leads to, and the critical sections of the lease.  [Supervisor] runs
    them as the threads of one process. *)

From Stdlib Require Import ZArith Lia Ascii String.
From stdpp Require Import base list strings.
From S2P Require Import Prelude RustStr Json JsonText Proto ClientProto Wire CoreProc.
Import Proto.

Open Scope string_scope.

Definition MAX_LINE : Z := 64 * 1024.

(** In milliseconds. *)
Definition HELLO_TIMEOUT : Z := 10000.

Definition CARGO_PKG_VERSION : string := "0.1.0".

(** ** Reading one control line *)

(** What a reader will deliver: the bytes still to come, and whether the stream
    then ends or fails. *)
Record Stream : Type := { bytes : string; failure : option io_error }.

(** [take(max)] and [read_until(b'\n')]: the bytes read and the bytes left. *)
Fixpoint take_line (max : Z) (s : string) : string * string :=
  if (max <=? 0)%Z then ("", s) else
  match s with
  | "" => ("", "")
  | String c s' =>
      if Ascii.eqb c "010" then (String c "", s')
      else let (b, r) := take_line (max - 1) s' in (String c b, r)
  end.

Definition last_is_newline (s : string) : bool := ends_with nl s.

Definition read_line_limited (st : Stream) (max : Z) : result (option string) io_error * Stream :=
  let (buf, rest) := take_line max (bytes st) in
  let st' := {| bytes := rest; failure := failure st |} in
  let short := negb (last_is_newline buf) && (Z.of_nat (String.length buf) <? max)%Z in
  match failure st, short with
  | Some e, true => (Err e, st')
  | _, _ =>
      (if buf =? "" then Ok None
       else if negb (last_is_newline buf)
       then Err (IoError InvalidData "control line exceeds limit or missing newline")
       else if utf8_valid buf then Ok (Some buf)
       else Err (IoError InvalidData "control line is not valid UTF-8"), st')
  end.

(** ** The lease *)

Inductive Lease : Type := Accept | Busy | Takeover.

Definition lease_decision (has_owner takeover : bool) : Lease :=
  match has_owner, takeover with
  | false, _ => Accept
  | true, true => Takeover
  | true, false => Busy
  end.

Definition has_owner (st : State) : bool :=
  match owner st with Some _ => true | None => false end.

(** The critical section of step 3 of [handle_connection]: [None] when the lease
    is refused, otherwise the displaced owner, whose [kicked] flag the caller
    sets before it releases the lock. *)
Definition acquire_lease (st : State) (my_id : Z) (me : nat) (takeover : bool)
    : State * option (option OwnerSlot) :=
  let mine := Some {| id := my_id; conn := me |} in
  match lease_decision (has_owner st) takeover with
  | Busy => (st, None)
  | Takeover => (set_owner mine st, Some (owner st))
  | Accept => (set_owner mine st, Some None)
  end.

(** The critical section of step 6. *)
Definition release_lease (st : State) (my_id : Z) : State :=
  match owner st with
  | Some o => if (id o =? my_id)%Z then set_owner None st else st
  | None => st
  end.

Definition core_snapshot (st : State) : CoreState.CoreState * option Z * option Z :=
  match core st with
  | Stopped => (CoreState.Stopped, None, None)
  | Running r => (CoreState.Running, Some (pid r), Some (rpc_port r))
  end.

(** ** The protocol decisions *)

Section Protocol.
Context {S : SerdeJson}.

(** [Some takeover] for a valid hello; the events written otherwise. *)
Definition read_hello (r : result (option string) io_error) : option bool * list Event.Event :=
  match r with
  | Err _ | Ok None => (None, [])
  | Ok (Some line) =>
      match decode_cmd line with
      | Ok (Cmd.Hello proto takeover) =>
          if negb (proto =? PROTO_VERSION)%Z
          then (None, [Event.error "bad_proto" ("unsupported proto " ++ dec proto)])
          else (Some takeover, [])
      | Ok _ => (None, [Event.error "bad_proto" "expected hello first"])
      | Err e => (None, [Event.error "bad_proto" ("malformed hello: " ++ e)])
      end
  end.

(** What one turn of the command loop does with what it read. *)
Inductive Turn : Type :=
| Break
| Continue
| Reply (ev : Event.Event)
| DoStart
| DoStatus
| DoStop.

Definition command_turn (r : result (option string) io_error) : Turn :=
  match r with
  | Err _ | Ok None => Break
  | Ok (Some line) =>
      if trim line =? "" then Continue else
      match decode_cmd line with
      | Ok (Cmd.Hello _ _) => Reply (Event.error "bad_proto" "duplicate hello")
      | Ok Cmd.Start => DoStart
      | Ok Cmd.Status => DoStatus
      | Ok Cmd.Stop => DoStop
      | Err e => Reply (Event.error "bad_request" e)
      end
  end.

End Protocol.

Definition hello_event (core : CoreState.CoreState) (rpc_port : option Z) : Event.Event :=
  Event.Hello PROTO_VERSION CARGO_PKG_VERSION core rpc_port.

Definition start_reply (r : result (Z * Z) string) : Event.Event :=
  match r with
  | Ok (pid, port) => Event.CoreStarted pid port
  | Err msg => Event.error "spawn_failed" msg
  end.

Definition stop_reply (was_running : bool) : Event.Event :=
  Event.CoreStopped (if was_running then "requested" else "already_stopped").

(** ** Properties of the reader *)

Lemma take_line_app max s b r : take_line max s = (b, r) -> s = b ++ r.
Proof.
  revert max b r. induction s as [|c s IH]; intros max b r; cbn [take_line];
    (destruct (max <=? 0)%Z; [by intros [= <- <-]|]).
  - by intros [= <- <-].
  - destruct (Ascii.eqb c "010"); [by intros [= <- <-]|].
    destruct (take_line (max - 1) s) as [b' r'] eqn:E. intros [= <- <-].
    cbn [String.append]. f_equal. by apply (IH (max - 1)%Z).
Qed.

Lemma take_line_length max s : (Z.of_nat (String.length (take_line max s).1) <= Z.max 0 max)%Z.
Proof.
  revert max. induction s as [|c s IH]; intros max; cbn [take_line];
    (destruct (Z.leb_spec max 0); [cbn; lia|]); [cbn; lia|].
  destruct (Ascii.eqb c "010"); [cbn; lia|]. specialize (IH (max - 1)%Z).
  destruct (take_line (max - 1) s) as [b r]. cbn [fst String.length] in *. lia.
Qed.

(** A line that fits is taken whole. *)
Lemma take_line_line body max r : occurs "010" body = false ->
  (Z.of_nat (String.length body) < max)%Z ->
  take_line max (body ++ nl ++ r) = (body ++ nl, r).
Proof.
  revert max. induction body as [|c body IH]; intros max Ho Hl; cbn [String.append].
  - unfold nl. cbn [String.append take_line String.length] in *.
    destruct (Z.leb_spec max 0); [lia|done].
  - cbn [take_line occurs String.length] in *. destruct (Z.leb_spec max 0); [lia|].
    apply orb_false_elim in Ho as [Hc Ho]. rewrite Ascii.eqb_sym in Hc. rewrite Hc.
    rewrite IH; [done|done|lia].
Qed.

(** The bytes read end with the only newline they hold, if they hold one. *)
Lemma take_line_newline max s :
  let b := (take_line max s).1 in
  (exists body, b = body ++ nl /\ occurs "010" body = false) \/ occurs "010" b = false.
Proof.
  revert max. induction s as [|c s IH]; intros max; cbn [take_line];
    (destruct (max <=? 0)%Z; [by right|]); [by right|].
  destruct (Ascii.eqb_spec c "010") as [->|Hne]; [left; by exists ""|].
  specialize (IH (max - 1)%Z). destruct (take_line (max - 1) s) as [b r]. cbn [fst] in *.
  assert (Hc : Ascii.eqb "010" c = false) by (by apply Ascii.eqb_neq).
  destruct IH as [(body & -> & Ho)|Ho].
  - left. exists (String c body). cbn [occurs]. by rewrite Hc.
  - right. cbn [occurs]. by rewrite Hc.
Qed.

Lemma ends_nl_occurs b : last_is_newline b = true -> occurs "010" b = true.
Proof.
  unfold last_is_newline. intros [t ->]%ends_with_spec. rewrite occurs_app.
  by rewrite orb_comm.
Qed.

(** What a successful read returned: one line of the stream. *)
Definition line_read (st st' : Stream) (max : Z) (l : string) : Prop :=
  bytes st = l ++ bytes st' /\ failure st' = failure st /\
  (exists body, l = body ++ nl /\ occurs "010" body = false) /\
  (Z.of_nat (String.length l) <= max)%Z /\ utf8_valid l = true.

Lemma read_line_complete st st' max l : line_read st st' max l ->
  read_line_limited st max = (Ok (Some l), st').
Proof.
  intros (Hb & Hf & (body & -> & Ho) & Hm & Hu). unfold read_line_limited.
  rewrite Hb, sapp_assoc, take_line_line; [|done|].
  2: { rewrite sapp_length in Hm. change (String.length nl) with 1%nat in Hm. lia. }
  assert (Hn : last_is_newline (body ++ nl) = true).
  { apply ends_with_spec. by eexists. }
  rewrite Hn, Hu. cbn [negb andb].
  assert (He : (body ++ nl =? "") = false) by (by destruct body).
  rewrite He. destruct st' as [b f]. cbn [bytes failure] in *. subst f. by destruct (failure st).
Qed.

(** C34: reading a control line returns a line exactly when the stream starts
    with one: text without newline, then a newline, within the limit and valid
    UTF-8; that line is consumed and nothing after it.  It reports a clean end
    exactly on an empty stream that does not fail. *)
Theorem read_line_limited_spec st st' max l : (0 < max)%Z ->
  (read_line_limited st max = (Ok (Some l), st') <-> line_read st st' max l) /\
  (read_line_limited st max = (Ok None, st') <->
     bytes st = "" /\ failure st = None /\ st' = st).
Proof.
  intros Hmax. split; [split; [|apply read_line_complete]|split].
  - unfold read_line_limited. pose proof (take_line_newline max (bytes st)) as Hnl.
    pose proof (take_line_length max (bytes st)) as Hlen.
    destruct (take_line max (bytes st)) as [b r] eqn:E. cbn [fst] in *.
    apply take_line_app in E. intros H.
    assert (Hx : last_is_newline b = true /\ utf8_valid b = true /\ b = l /\
      st' = {| bytes := r; failure := failure st |}).
    { repeat case_match; simplify_eq; breflect; auto. }
    destruct Hx as (Hb & Hu & <- & ->). split_and!; try done; [|lia].
    destruct Hnl as [?|Ho]; [done|]. apply ends_nl_occurs in Hb. congruence.
  - unfold read_line_limited. destruct (take_line max (bytes st)) as [b r] eqn:E.
    intros H. destruct (bytes st) as [|c s] eqn:Hs.
    + assert (b = "" /\ r = "") as [-> ->].
      { cbn [take_line] in E. destruct (max <=? 0)%Z; by injection E as <- <-. }
      cbn [String.length negb last_is_newline ends_with] in H.
      destruct (Z.ltb_spec (Z.of_nat 0) max); [|lia].
      destruct st as [bs [e|]]; cbn [failure bytes] in *; [done|].
      subst bs. injection H as <-. done.
    + exfalso. cbn [take_line] in E. destruct (Z.leb_spec max 0); [lia|].
      assert (b <> "").
      { destruct (Ascii.eqb c "010"); [by injection E as <- <-|].
        destruct (take_line (max - 1) s). by injection E as <- <-. }
      apply String.eqb_neq in H1. rewrite H1 in H. repeat case_match; done.
  - intros (Hb & Hf & ->). unfold read_line_limited. rewrite Hb, Hf. cbn [take_line].
    destruct st; cbn [bytes failure] in *; subst. by destruct (max <=? 0)%Z.
Qed.

(** ** A stream of commands *)

Fixpoint read_lines (n : nat) (st : Stream) : option (list string * Stream) :=
  match n with
  | O => Some ([], st)
  | S n =>
      match read_line_limited st MAX_LINE with
      | (Ok (Some l), st') =>
          match read_lines n st' with
          | Some (ls, st'') => Some (l :: ls, st'')
          | None => None
          end
      | _ => None
      end
  end.

Definition concat_lines (ls : list string) : string := foldr String.append "" ls.

Lemma concat_lines_cons l ls : concat_lines (l :: ls) = l ++ concat_lines ls.
Proof. done. Qed.

Section Stream.
Context {S : SerdeJson}.

Definition sendable (c : ClientProto.Cmd.Cmd) : Prop :=
  ClientProto.Cmd.wf c /\ (Z.of_nat (String.length (ClientProto.encode_cmd c)) <= MAX_LINE)%Z.

Lemma encode_cmd_line c st : sendable c ->
  line_read {| bytes := ClientProto.encode_cmd c ++ bytes st; failure := failure st |} st
    MAX_LINE (ClientProto.encode_cmd c).
Proof.
  intros [Hwf Hl]. apply cmd_fields_flat in Hwf. split_and!; try done.
  - eexists. split; [reflexivity|]. by apply to_string_no_newline.
  - unfold ClientProto.encode_cmd. by rewrite utf8_app by by apply to_string_utf8.
Qed.

(** C32: whatever sequence of commands the client writes back to back, the
    supervisor's reader cuts it into exactly those lines, in order and without
    touching the bytes that follow, and decodes each as the command sent. *)
Theorem command_stream_roundtrip cs rest f : Forall sendable cs ->
  read_lines (length cs)
    {| bytes := concat_lines (map ClientProto.encode_cmd cs) ++ rest; failure := f |}
    = Some (map ClientProto.encode_cmd cs, {| bytes := rest; failure := f |}) /\
  Forall2 (fun l c => decode_cmd l = Ok (server_cmd c)) (map ClientProto.encode_cmd cs) cs.
Proof.
  induction 1 as [|c cs Hc Hcs [IH1 IH2]]; [done|].
  split; [|constructor; [apply decode_encode_cmd, Hc|done]].
  cbn [length read_lines map].
  rewrite concat_lines_cons. rewrite sapp_assoc.
  pose proof (encode_cmd_line c {| bytes := concat_lines (map ClientProto.encode_cmd cs) ++ rest;
    failure := f |} Hc) as Hl.
  cbn [bytes failure] in Hl. rewrite (read_line_complete _ _ _ _ Hl). by rewrite IH1.
Qed.

(** A connection is let through exactly by a line read in time that is a
    [hello] of this protocol version, and then nothing is written; otherwise it
    gets one [bad_proto] error for a line that was read, and nothing when there
    was none. *)
Theorem read_hello_spec r t evs : read_hello r = (t, evs) ->
  match t with
  | Some takeover =>
      evs = [] /\ exists line, r = Ok (Some line) /\
        decode_cmd line = Ok (Cmd.Hello PROTO_VERSION takeover)
  | None =>
      (evs = [] /\ (r = Ok None \/ exists e, r = Err e)) \/
      (exists line msg, r = Ok (Some line) /\ evs = [Event.Error "bad_proto" msg] /\
        forall takeover, decode_cmd line <> Ok (Cmd.Hello PROTO_VERSION takeover))
  end.
Proof.
  unfold read_hello, Event.error. destruct r as [[line|]|e]; [|intros [= <- <-]; eauto..].
  destruct (decode_cmd line) as [[p takeover| | |]|e] eqn:Hd.
  1: destruct (Z.eqb_spec p PROTO_VERSION) as [->|Hp]; cbn [negb]; intros [= <- <-];
     [eauto|right; eexists _, _; split_and!; [done..|congruence]].
  all: intros [= <- <-]; right; eexists _, _; split_and!; [done..|congruence].
Qed.

End Stream.

(** The lease. A connection that asks for it gets it when nobody owns the
    supervisor or when it asks to take over, and is then the owner; the owner it
    displaces, if any, is the previous one. Without takeover an owned lease is
    refused and nothing changes. The core is never touched. *)
Theorem acquire_lease_spec st my_id me takeover st' r :
  acquire_lease st my_id me takeover = (st', r) ->
  core st' = core st /\
  match r with
  | Some displaced =>
      owner st' = Some {| id := my_id; conn := me |} /\ displaced = owner st /\
      (displaced = None \/ takeover = true)
  | None => st' = st /\ owner st <> None /\ takeover = false
  end.
Proof.
  unfold acquire_lease, has_owner, lease_decision.
  destruct (owner st) as [o|] eqn:Ho, takeover; intros [= <- <-]; cbn; auto.
Qed.

(** ** The theorems apply *)

Definition two_lines : Stream := {| bytes := "stop" ++ nl ++ "leftover"; failure := None |}.

Lemma read_line_limited_spec_witness :
  (0 < MAX_LINE)%Z /\
  (read_line_limited two_lines MAX_LINE
     = (Ok (Some ("stop" ++ nl)), {| bytes := "leftover"; failure := None |}) <->
   line_read two_lines {| bytes := "leftover"; failure := None |} MAX_LINE ("stop" ++ nl)).
Proof.
  assert (H : (0 < MAX_LINE)%Z) by reflexivity. split; [exact H|].
  apply (read_line_limited_spec two_lines {| bytes := "leftover"; failure := None |} MAX_LINE
           ("stop" ++ nl) H).
Defined.

Definition sample_session : list ClientProto.Cmd.Cmd :=
  [ClientProto.Cmd.Hello 1 false; ClientProto.Cmd.Start; ClientProto.Cmd.Stop].

Lemma command_stream_roundtrip_witness :
  Forall sendable sample_session /\
  read_lines 3
    {| bytes := concat_lines (map ClientProto.encode_cmd sample_session) ++ "rest"; failure := None |}
    = Some (map ClientProto.encode_cmd sample_session, {| bytes := "rest"; failure := None |}).
Proof.
  assert (H : Forall sendable sample_session).
  { repeat constructor; vm_compute; discriminate. }
  split; [exact H|].
  apply (command_stream_roundtrip sample_session "rest" None H).
Defined.

Definition hello_line : string := ClientProto.encode_cmd (ClientProto.Cmd.Hello 1 true).

Lemma read_hello_spec_witness :
  read_hello (Ok (Some hello_line)) = (Some true, []) /\
  exists line, Ok (A := option string) (E := io_error) (Some hello_line) = Ok (Some line) /\
    decode_cmd line = Ok (Cmd.Hello PROTO_VERSION true).
Proof.
  assert (H : read_hello (Ok (Some hello_line)) = (Some true, [])) by (vm_compute; reflexivity).
  split; [exact H|]. apply (read_hello_spec (Ok (Some hello_line)) (Some true) [] H).
Defined.

Lemma acquire_lease_spec_witness :
  let st := {| owner := Some {| id := 1; conn := 0 |}; core := Stopped |} in
  owner (acquire_lease st 2 1 true).1 = Some {| id := 2; conn := 1 |}.
Proof.
  intros st.
  apply (acquire_lease_spec st 2 1 true (acquire_lease st 2 1 true).1
           (Some (Some {| id := 1; conn := 0 |})) eq_refl).
Defined.
