(* ===== verification/Supervisor.v ===== *)
(** * The supervisor process: its threads, interleaved

    Connection threads ([server::handle_connection]), one monitor thread per core
    generation ([core_proc::spawn_monitor], [handle_core_exit]), hook threads and
    the no-owner timer ([main::start_no_owner_timer]) run over one state.  A step
    is one critical section, one write to a socket, one system call or one change
    of the environment; [step] is executable, and [reachable] closes it. *)

From Stdlib Require Import ZArith Lia Ascii String.
From stdpp Require Import base list strings gmap.
From S2P Require Import Prelude RustStr Json Proto Config Auth Hooks CoreProc Janitor Server.

Open Scope string_scope.

(** ** Connections *)

(** Where a connection's thread is in [handle_connection] and the functions it
    calls. *)
Inductive Pc : Type :=
| PAuth                                  (* 1. the peer gate and the two clones *)
| PHello                                 (* 2. read_hello *)
| PNextId (takeover : bool)              (* 3. next_id *)
| PLease (takeover : bool)               (* 3. the lease, under the lock *)
| PNotify (displaced : option nat)       (* kicked event and shutdown of the old owner *)
| PSnapshot                              (* 4. core_snapshot *)
| PHelloReply (core : CoreState.CoreState) (rpc_port : option Z)
| PLoop                                  (* 5. read of the next command *)
| PReply (ev : Event.Event)              (* write_locked, then the next turn *)
| PStatus                                (* core_snapshot of a status command *)
| PStart                                 (* start, under the lock *)
| PMonitor (child : nat) (pid port : Z)  (* spawn_monitor *)
| PUpHook (pid port : Z)                 (* run_hook(Up) *)
| PStop (why : HookReason)               (* stop, first critical section *)
| PStopWait (why : HookReason)           (* stop, waiting for Stopped *)
| PDownHook (why : HookReason)           (* stop, run_hook(Down) *)
| PEnded                                 (* 6. kicked.load *)
| PRelease                               (* 6. giving up the lease, under the lock *)
| PSweep (hook : option nat)             (* 6. sweep_orphans: ps *)
| PKill (hook : option nat) (targets : list Z) (killed : nat)  (* 6. its kills *)
| PJoin (hook : nat)                     (* 6. HookHandle::join *)
| PExit                                  (* 6. exit(0) *)
| PDone.

(** [kicked] is the connection's [Arc<AtomicBool>]; [heard] is what the turns of
    the command loop came to, and [wire] everything written to the socket, both in
    order; [live] turns false when the socket is shut down. *)
Record Conn : Type := {
  pc : Pc;
  peer : result Z io_error;
  my_id : Z;
  kicked : bool;
  heard : list Turn;
  wire : list Event.Event;
  live : bool
}.

Definition set_pc (p : Pc) (k : Conn) : Conn :=
  {| pc := p; peer := peer k; my_id := my_id k; kicked := kicked k;
     heard := heard k; wire := wire k; live := live k |}.
Definition set_id (n : Z) (k : Conn) : Conn :=
  {| pc := pc k; peer := peer k; my_id := n; kicked := kicked k;
     heard := heard k; wire := wire k; live := live k |}.
Definition set_kicked (k : Conn) : Conn :=
  {| pc := pc k; peer := peer k; my_id := my_id k; kicked := true;
     heard := heard k; wire := wire k; live := live k |}.
Definition set_down (k : Conn) : Conn :=
  {| pc := pc k; peer := peer k; my_id := my_id k; kicked := kicked k;
     heard := heard k; wire := wire k; live := false |}.
Definition hear (t : Turn) (k : Conn) : Conn :=
  {| pc := pc k; peer := peer k; my_id := my_id k; kicked := kicked k;
     heard := (heard k ++ [t])%list; wire := wire k; live := live k |}.
(** A write to a socket that was shut down fails and is ignored. *)
Definition put (ev : Event.Event) (k : Conn) : Conn :=
  {| pc := pc k; peer := peer k; my_id := my_id k; kicked := kicked k;
     heard := heard k; wire := if live k then (wire k ++ [ev])%list else wire k; live := live k |}.

(** ** Processes, monitors, hooks *)

Inductive ProcStatus : Type :=
| PAlive
| PZombie (status : Z)
| PReaped.

(** A process of the machine; [ours] for a child of this supervisor. *)
Record Proc : Type := { ppid : Z; cmdline : string; ours : bool; status : ProcStatus }.

Definition set_status (x : ProcStatus) (p : Proc) : Proc :=
  {| ppid := ppid p; cmdline := cmdline p; ours := ours p; status := x |}.

Definition unreaped (p : Proc) : bool :=
  match status p with PReaped => false | _ => true end.

(** Where a monitor thread is. [MUnborn]: the [Child] is still in the hands of
    the thread that spawned it. *)
Inductive MPc : Type :=
| MUnborn
| MWait                                   (* try_wait *)
| MCheck                                  (* reads stop_requested under the lock *)
| MSignal (stop : bool)                   (* escalation *)
| MSleep                                  (* cv.wait_timeout *)
| MExit (info : ExitInfo)                 (* handle_core_exit, under the lock *)
| MPush (info : ExitInfo)                 (* write_to_owner, reads the owner *)
| MPushTo (to : option nat) (info : ExitInfo)
| MDown                                   (* run_hook(Down, core_exited) *)
| MGuard                                  (* takes the lock for the guarded sweep *)
| MPs                                     (* the guarded sweep: ps *)
| MKill (targets : list Z) (killed : nat) (* its kills *)
| MDone.

(** The monitor of the process at the same index; [lost] when [try_wait] failed. *)
Record Monitor : Type := { mpid : Z; vars : MonitorVars; mpc : MPc; lost : bool }.

Definition set_mpc (p : MPc) (m : Monitor) : Monitor :=
  {| mpid := mpid m; vars := vars m; mpc := p; lost := lost m |}.

(** One call of [run_hook]; [ran] when the script passed the gate. [about] is the
    generation a [core_exited] hook is for. *)
Record Firing : Type := {
  f_event : HookEvent; f_reason : option HookReason; about : option nat; ran : bool
}.

Record Hook : Type := { h_reason : option HookReason; finished : bool }.

(** One signal of the escalation (SIGTERM or SIGKILL) by the monitor of process
    [sender]: the process that had the pid at that moment. The SIGKILLs of a sweep,
    of a monitor as of the exit path, are steps of their own ([IKill], [JKill]) and
    are not logged here. *)
Record Sent : Type := { sender : nat; receiver : option nat; sig : Signal }.

Inductive TimerPc : Type := TSleep | TFire | TDone.

Record Sys : Type := {
  shared : State;
  (** The monitor that holds the state mutex during its sweep; every other
      critical section is a single step. *)
  held : option nat;
  (** The number of [fetch_add]s on [next_id], plus one; the 64-bit counter holds
      it modulo 2^64. *)
  next_id : Z;
  conns : list Conn;
  procs : list Proc;
  monitors : gmap nat Monitor;
  (** The last process spawned. *)
  cur : nat;
  (** The generations whose [stop_requested] was set. *)
  requested : list nat;
  sent : list Sent;
  fired : list Firing;
  hooks : list Hook;
  timer : TimerPc;
  now : Z;
  exited : option Z
}.

(** *** Field updates *)

Definition with_shared (x : State) (s : Sys) : Sys :=
  {| shared := x; held := held s; next_id := next_id s; conns := conns s; procs := procs s;
     monitors := monitors s; cur := cur s; requested := requested s; sent := sent s;
     fired := fired s; hooks := hooks s; timer := timer s; now := now s;
     exited := exited s |}.
Definition with_held (x : option nat) (s : Sys) : Sys :=
  {| shared := shared s; held := x; next_id := next_id s; conns := conns s; procs := procs s;
     monitors := monitors s; cur := cur s; requested := requested s; sent := sent s;
     fired := fired s; hooks := hooks s; timer := timer s; now := now s;
     exited := exited s |}.
Definition with_next_id (x : Z) (s : Sys) : Sys :=
  {| shared := shared s; held := held s; next_id := x; conns := conns s; procs := procs s;
     monitors := monitors s; cur := cur s; requested := requested s; sent := sent s;
     fired := fired s; hooks := hooks s; timer := timer s; now := now s;
     exited := exited s |}.
Definition with_conns (x : list Conn) (s : Sys) : Sys :=
  {| shared := shared s; held := held s; next_id := next_id s; conns := x; procs := procs s;
     monitors := monitors s; cur := cur s; requested := requested s; sent := sent s;
     fired := fired s; hooks := hooks s; timer := timer s; now := now s;
     exited := exited s |}.
Definition with_procs (x : list Proc) (s : Sys) : Sys :=
  {| shared := shared s; held := held s; next_id := next_id s; conns := conns s; procs := x;
     monitors := monitors s; cur := cur s; requested := requested s; sent := sent s;
     fired := fired s; hooks := hooks s; timer := timer s; now := now s;
     exited := exited s |}.
Definition with_monitors (x : gmap nat Monitor) (s : Sys) : Sys :=
  {| shared := shared s; held := held s; next_id := next_id s; conns := conns s; procs := procs s;
     monitors := x; cur := cur s; requested := requested s; sent := sent s;
     fired := fired s; hooks := hooks s; timer := timer s; now := now s;
     exited := exited s |}.
Definition with_cur (x : nat) (s : Sys) : Sys :=
  {| shared := shared s; held := held s; next_id := next_id s; conns := conns s; procs := procs s;
     monitors := monitors s; cur := x; requested := requested s; sent := sent s;
     fired := fired s; hooks := hooks s; timer := timer s; now := now s;
     exited := exited s |}.
Definition with_requested (x : list nat) (s : Sys) : Sys :=
  {| shared := shared s; held := held s; next_id := next_id s; conns := conns s; procs := procs s;
     monitors := monitors s; cur := cur s; requested := x; sent := sent s;
     fired := fired s; hooks := hooks s; timer := timer s; now := now s;
     exited := exited s |}.
Definition with_sent (x : list Sent) (s : Sys) : Sys :=
  {| shared := shared s; held := held s; next_id := next_id s; conns := conns s; procs := procs s;
     monitors := monitors s; cur := cur s; requested := requested s; sent := x;
     fired := fired s; hooks := hooks s; timer := timer s; now := now s;
     exited := exited s |}.
Definition with_fired (x : list Firing) (s : Sys) : Sys :=
  {| shared := shared s; held := held s; next_id := next_id s; conns := conns s; procs := procs s;
     monitors := monitors s; cur := cur s; requested := requested s; sent := sent s;
     fired := x; hooks := hooks s; timer := timer s; now := now s; exited := exited s |}.
Definition with_hooks (x : list Hook) (s : Sys) : Sys :=
  {| shared := shared s; held := held s; next_id := next_id s; conns := conns s; procs := procs s;
     monitors := monitors s; cur := cur s; requested := requested s; sent := sent s;
     fired := fired s; hooks := x; timer := timer s; now := now s; exited := exited s |}.
Definition with_timer (x : TimerPc) (s : Sys) : Sys :=
  {| shared := shared s; held := held s; next_id := next_id s; conns := conns s; procs := procs s;
     monitors := monitors s; cur := cur s; requested := requested s; sent := sent s;
     fired := fired s; hooks := hooks s; timer := x; now := now s; exited := exited s |}.
Definition with_now (x : Z) (s : Sys) : Sys :=
  {| shared := shared s; held := held s; next_id := next_id s; conns := conns s; procs := procs s;
     monitors := monitors s; cur := cur s; requested := requested s; sent := sent s;
     fired := fired s; hooks := hooks s; timer := timer s; now := x;
     exited := exited s |}.
Definition with_exited (x : option Z) (s : Sys) : Sys :=
  {| shared := shared s; held := held s; next_id := next_id s; conns := conns s; procs := procs s;
     monitors := monitors s; cur := cur s; requested := requested s; sent := sent s;
     fired := fired s; hooks := hooks s; timer := timer s; now := now s; exited := x |}.

(** Apply [f] to connection [c]. *)
Definition on_conn (c : nat) (f : Conn -> Conn) (s : Sys) : Sys :=
  with_conns (alter f c (conns s)) s.
Definition goto (c : nat) (p : Pc) : Sys -> Sys := on_conn c (set_pc p).
Definition write (c : nat) (ev : Event.Event) : Sys -> Sys := on_conn c (put ev).

Definition write_all (c : nat) (evs : list Event.Event) (s : Sys) : Sys :=
  foldl (fun s ev => write c ev s) s evs.

(** Apply [f] to the monitor of process [i]. *)
Definition on_monitor (i : nat) (f : Monitor -> Monitor) (s : Sys) : Sys :=
  with_monitors (alter f i (monitors s)) s.

(** ** The operating system *)

(** The pid of a new process is one that no process, zombies included, has. *)
Definition pid_free (p : Z) (s : Sys) : bool :=
  forallb (fun q => negb (unreaped q && (ppid q =? p)%Z)) (procs s).

(** The process a signal sent to a pid reaches. *)
Fixpoint holder (p : Z) (ps : list Proc) (i : nat) : option nat :=
  match ps with
  | [] => None
  | q :: ps => if unreaped q && (ppid q =? p)%Z then Some i else holder p ps (S i)
  end.

(** Death by SIGKILL; a zombie stays as it is. *)
Definition killed_proc (p : Proc) : Proc :=
  match status p with PAlive => set_status (PZombie 9) p | _ => p end.

(** [kill] by the monitor of [i]. SIGTERM may be ignored: dying of it is a step
    of the process. *)
Definition send_signal (i : nat) (p : Z) (sg : Signal) (s : Sys) : Sys :=
  let r := holder p (procs s) 0 in
  let s := with_sent (sent s ++ [{| sender := i; receiver := r; sig := sg |}])%list s in
  match sg, r with
  | SIGKILL, Some j => with_procs (alter killed_proc j (procs s)) s
  | _, _ => s
  end.

(** A call of [run_hook]: logged, and a hook thread if the script passed. *)
Definition fire (ev : HookEvent) (why : option HookReason) (gen : option nat) (present : bool)
    (s : Sys) : Sys :=
  let s := with_fired (fired s ++ [{| f_event := ev; f_reason := why; about := gen; ran := present |}])%list s in
  if present then with_hooks (hooks s ++ [{| h_reason := why; finished := false |}])%list s else s.

(** ** Labels: what the environment decides *)

Inductive ConnInput : Type :=
| INone
| IClone (ok : bool)                                 (* both try_clones *)
| IRead (r : result (option string) io_error)        (* read_line_limited *)
| ITryLock (free : bool)                             (* the old owner's writer *)
| ISpawn (env : SpawnEnv)
| IScript (present : bool)                           (* the script passes the gate *)
| IPs (ok : bool)                                    (* ps runs *)
| IKill (ok : bool).                                 (* kill is permitted *)

Inductive MonitorInput : Type :=
| JNone
| JTryWait (ok : bool)
| JScript (present : bool)
| JPs (ok : bool)
| JKill (ok : bool).

Inductive Label : Type :=
| LAccept (peer : result Z io_error)
| LConn (c : nat) (i : ConnInput)
| LMonitor (i : nat) (j : MonitorInput)
| LTimer
| LTick (ms : Z)
| LDies (i : nat) (status : Z)                       (* a process ends *)
| LForeign (pid : Z) (cmdline : string)              (* another program starts one *)
| LForeignReap (i : nat)
| LHookDone (h : nat).

Definition NO_OWNER_TIMEOUT_SECS : Z := 30.

Section Program.
Context {SJ : SerdeJson} (config : Config) (auth : AuthMode).

(** *** [sweep_orphans]: one [ps], one [kill] after the other, the hook *)

(** A process [ps] shows with our core path; a zombie has lost its arguments. *)
Definition swept (p : Proc) : bool :=
  match status p with
  | PAlive => argv0_matches (trim_start (cmdline p)) (core_path config)
  | _ => false
  end.

(** The pids a sweep is to signal; none when [ps] could not be run. *)
Definition ps_targets (ok : bool) (s : Sys) : list Z :=
  if ok then map ppid (List.filter swept (procs s)) else [].

(** [kill(pid, SIGKILL)], and whether it returned 0: some process has the pid and
    may be signalled. *)
Definition kill_pid (pid : Z) (ok : bool) (s : Sys) : Sys * bool :=
  match holder pid (procs s) 0, ok with
  | Some j, true => (with_procs (alter killed_proc j (procs s)) s, true)
  | _, _ => (s, false)
  end.

Definition count (killed : nat) (hit : bool) : nat := if hit then S killed else killed.

(** The [down] hook, if anything was killed. *)
Definition end_sweep (killed : nat) (present : bool) (s : Sys) : Sys :=
  if (0 <? killed)%nat then fire Down (Some Hooks.Janitor) None present s else s.

(** ** The thread of a connection *)

(** [spawn_monitor]: the monitor thread takes the [Child] over and starts. *)
Definition spawn_monitor (m : Monitor) : Monitor :=
  match mpc m with MUnborn => set_mpc MWait m | _ => m end.

Definition new_conn (peer : result Z io_error) : Conn :=
  {| pc := PAuth; peer := peer; my_id := 0; kicked := false; heard := []; wire := []; live := true |}.

Definition new_proc (pid : Z) (cmd : CoreProc.Command) : Proc :=
  {| ppid := pid; cmdline := String.concat " " (argv0 cmd :: args cmd); ours := true;
     status := PAlive |}.

Definition new_monitor (pid : Z) : Monitor :=
  {| mpid := pid; vars := monitor_init; mpc := MUnborn; lost := false |}.

(** The answers are values of their types, and the pid a spawn returns is free. *)
Definition spawn_possible (env : SpawnEnv) (s : Sys) : bool :=
  match free_port env with Ok p => in_u16 p | Err e => utf8_valid e end &&
  match log_opened env with Ok _ => true | Err e => utf8_valid e end &&
  match CoreProc.spawned env with
  | Ok p => (0 <? p)%Z && (p <=? i32_max)%Z && pid_free p s
  | Err e => utf8_valid e
  end.

(** [start] up to the release of the lock. *)
Definition do_start (c : nat) (env : SpawnEnv) (s : Sys) : Sys :=
  match start_locked config env (shared s) with
  | (_, Ok (AlreadyRunning pid port)) => goto c (PReply (start_reply (Ok (pid, port)))) s
  | (st, Ok (Spawned pid port cmd)) =>
      let child := length (procs s) in
      goto c (PMonitor child pid port)
        (with_shared st (with_cur child
          (with_monitors (<[child := new_monitor pid]> (monitors s))
            (with_procs (procs s ++ [new_proc pid cmd])%list s))))
  | (_, Err e) => goto c (PReply (start_reply (Err e))) s
  end.

(** Where [stop] returns to: the command loop, or step 6 of the connection. *)
Definition after_stop (why : HookReason) (was_running : bool) (hook : option nat) : Pc :=
  match why with
  | Requested => PReply (stop_reply was_running)
  | _ => PSweep hook
  end.

Definition do_stop (c : nat) (why : HookReason) (s : Sys) : Sys :=
  match stop_locked (shared s) with
  | (_, false) => goto c (after_stop why false None) s
  | (st, true) => goto c (PStopWait why) (with_shared st (with_requested (cur s :: requested s) s))
  end.

Definition do_lease (c : nat) (k : Conn) (takeover : bool) (s : Sys) : Sys :=
  match acquire_lease (shared s) (my_id k) c takeover with
  | (_, None) => goto c PDone (write c (Event.Busy true) s)
  | (st, Some displaced) =>
      let old := option_map conn displaced in
      let s := with_shared st s in
      goto c (PNotify old) (match old with Some o => on_conn o set_kicked s | None => s end)
  end.

Definition do_turn (c : nat) (t : Turn) (s : Sys) : Sys :=
  match t with
  | Break => goto c PEnded s
  | Continue => goto c PLoop s
  | Reply ev => goto c (PReply ev) s
  | DoStart => goto c PStart s
  | DoStatus => goto c PStatus s
  | DoStop => goto c (PStop Requested) s
  end.

(** One step of [handle_connection] of connection [c]. *)
Definition conn_step (c : nat) (k : Conn) (i : ConnInput) (s : Sys) : option Sys :=
  match pc k, i with
  | PAuth, IClone ok =>
      Some (match peer k with
            | Ok uid => goto c (if allows auth uid && ok then PHello else PDone) s
            | Err _ => goto c PDone s
            end)
  | PHello, IRead r =>
      let (t, evs) := read_hello r in
      Some (goto c (match t with Some t => PNextId t | None => PDone end) (write_all c evs s))
  | PNextId t, INone =>
      Some (goto c (PLease t)
              (on_conn c (set_id (next_id s mod (u64_max + 1))%Z) (with_next_id (next_id s + 1)%Z s)))
  | PLease t, INone => Some (do_lease c k t s)
  | PNotify None, INone => Some (goto c PSnapshot s)
  | PNotify (Some o), ITryLock free =>
      Some (goto c PSnapshot (on_conn o set_down (if free then write o Event.Kicked s else s)))
  | PSnapshot, INone =>
      let '(core, _, port) := core_snapshot (shared s) in
      Some (goto c (PHelloReply core port) s)
  | PHelloReply core port, INone => Some (goto c PLoop (write c (hello_event core port) s))
  | PLoop, IRead r => Some (do_turn c (command_turn r) (on_conn c (hear (command_turn r)) s))
  | PReply ev, INone => Some (goto c PLoop (write c ev s))
  | PStatus, INone =>
      let '(core, pid, port) := core_snapshot (shared s) in
      Some (goto c (PReply (Event.Status core pid port)) s)
  | PStart, ISpawn env => if spawn_possible env s then Some (do_start c env s) else None
  | PMonitor child pid port, INone =>
      Some (goto c (PUpHook pid port) (on_monitor child spawn_monitor s))
  | PUpHook pid port, IScript present =>
      Some (goto c (PReply (start_reply (Ok (pid, port)))) (fire Up None None present s))
  | PStop why, INone => Some (do_stop c why s)
  | PStopWait why, INone =>
      Some (if is_stopped (shared s) then goto c (PDownHook why) s else s)
  | PDownHook why, IScript present =>
      Some (goto c (after_stop why true (if present then Some (length (hooks s)) else None))
              (fire Down (Some why) None present s))
  | PEnded, INone => Some (goto c (if kicked k then PDone else PRelease) s)
  | PRelease, INone =>
      Some (goto c (PStop OwnerDrop) (with_shared (release_lease (shared s) (my_id k)) s))
  | PSweep hook, IPs ok => Some (goto c (PKill hook (ps_targets ok s) 0) s)
  | PKill hook (p :: ps) killed, IKill ok =>
      let (s, hit) := kill_pid p ok s in Some (goto c (PKill hook ps (count killed hit)) s)
  | PKill hook [] killed, IScript present =>
      Some (goto c (match hook with Some h => PJoin h | None => PExit end) (end_sweep killed present s))
  | PJoin h, INone =>
      match hooks s !! h with
      | Some hk => if finished hk then Some (goto c PExit s) else None
      | None => None
      end
  | PExit, INone => Some (with_exited (Some 0%Z) s)
  | _, _ => None
  end.

(** ** The monitor thread of process [i] *)

Definition monitor_step (i : nat) (m : Monitor) (j : MonitorInput) (s : Sys) : option Sys :=
  match mpc m, j with
  | MWait, JTryWait true =>
      match status <$> procs s !! i with
      | Some (PZombie st) =>
          Some (on_monitor i (set_mpc (MExit (from_status st)))
                  (with_procs (alter (set_status PReaped) i (procs s)) s))
      | Some PAlive => Some (on_monitor i (set_mpc MCheck) s)
      | _ => None
      end
  | MWait, JTryWait false =>
      Some (on_monitor i (fun m => {| mpid := mpid m; vars := vars m;
                                      mpc := MExit no_exit_info; lost := true |}) s)
  | MCheck, JNone => Some (on_monitor i (set_mpc (MSignal (stop_requested_for (shared s) (mpid m)))) s)
  | MSignal stop, JNone =>
      let (sg, v) := escalate stop (now s) (vars m) in
      Some (on_monitor i (fun m => {| mpid := mpid m; vars := v; mpc := MSleep; lost := lost m |})
              (match sg with Some sg => send_signal i (mpid m) sg s | None => s end))
  | MSleep, JNone => Some (on_monitor i (set_mpc MWait) s)
  | MExit info, JNone =>
      let (st, expected) := handle_core_exit_locked (shared s) (mpid m) in
      Some (on_monitor i (set_mpc (if expected then MDone else MPush info)) (with_shared st s))
  | MPush info, JNone =>
      Some (on_monitor i (set_mpc (MPushTo (option_map conn (owner (shared s))) info)) s)
  | MPushTo to info, JNone =>
      Some (on_monitor i (set_mpc MDown)
              (match to with
               | Some c => write c (Event.CoreExited (code info) (signal info)) s
               | None => s
               end))
  | MDown, JScript present =>
      Some (on_monitor i (set_mpc MGuard) (fire Down (Some Hooks.CoreExited) (Some i) present s))
  | MGuard, JNone =>
      Some (if is_stopped (shared s) then on_monitor i (set_mpc MPs) (with_held (Some i) s)
            else on_monitor i (set_mpc MDone) s)
  | MPs, JPs ok => Some (on_monitor i (set_mpc (MKill (ps_targets ok s) 0)) s)
  | MKill (p :: ps) killed, JKill ok =>
      let (s, hit) := kill_pid p ok s in Some (on_monitor i (set_mpc (MKill ps (count killed hit))) s)
  | MKill [] killed, JScript present =>
      Some (on_monitor i (set_mpc MDone) (with_held None (end_sweep killed present s)))
  | _, _ => None
  end.

(** ** The no-owner timer *)

Definition timer_step (s : Sys) : option Sys :=
  match timer s with
  | TSleep =>
      if (NO_OWNER_TIMEOUT_SECS * 1000 <=? now s)%Z
      then Some (with_timer (if has_owner (shared s) then TDone else TFire) s)
      else None
  | TFire => Some (with_exited (Some 0%Z) s)
  | TDone => None
  end.

(** ** The state mutex *)

(** The steps that take it. *)
Definition locks (p : Pc) : bool :=
  match p with
  | PLease _ | PSnapshot | PStatus | PStart | PStop _ | PStopWait _ | PRelease => true
  | _ => false
  end.

Definition monitor_locks (p : MPc) : bool :=
  match p with MCheck | MSleep | MExit _ | MPush _ | MGuard => true | _ => false end.

Definition timer_locks (t : TimerPc) : bool := match t with TSleep => true | _ => false end.

(** A step waits as long as another thread sweeps under the lock. *)
Definition blocked (takes : bool) (s : Sys) : bool :=
  takes && match held s with Some _ => true | None => false end.

(** ** One step of the process or of its environment *)

Definition step (s : Sys) (l : Label) : option Sys :=
  match exited s with
  | Some _ => None
  | None =>
      match l with
      | LAccept peer => Some (with_conns (conns s ++ [new_conn peer])%list s)
      | LConn c i =>
          match conns s !! c with
          | Some k => if blocked (locks (pc k)) s then None else conn_step c k i s
          | None => None
          end
      | LMonitor i j =>
          match monitors s !! i with
          | Some m => if blocked (monitor_locks (mpc m)) s then None else monitor_step i m j s
          | None => None
          end
      | LTimer => if blocked (timer_locks (timer s)) s then None else timer_step s
      | LTick ms => if (0 <=? ms)%Z then Some (with_now (now s + ms)%Z s) else None
      | LDies i st =>
          match status <$> procs s !! i with
          | Some PAlive => Some (with_procs (alter (set_status (PZombie st)) i (procs s)) s)
          | _ => None
          end
      | LForeign p cmd =>
          if pid_free p s
          then Some (with_procs (procs s ++ [{| ppid := p; cmdline := cmd; ours := false;
                                               status := PAlive |}])%list s)
          else None
      | LForeignReap i =>
          match procs s !! i with
          | Some p =>
              match ours p, status p with
              | false, PZombie _ => Some (with_procs (alter (set_status PReaped) i (procs s)) s)
              | _, _ => None
              end
          | None => None
          end
      | LHookDone h =>
          Some (with_hooks (alter (fun k => {| h_reason := h_reason k; finished := true |}) h (hooks s)) s)
      end
  end.

(** [Shared::new], when the listeners are up. *)
Definition initial : Sys := {|
  shared := {| owner := None; core := Stopped |}; held := None; next_id := 1; conns := []; procs := [];
  monitors := ∅; cur := 0; requested := []; sent := []; fired := []; hooks := [];
  timer := TSleep; now := 0; exited := None |}.

Inductive reachable : Sys -> Prop :=
| reachable_init : reachable initial
| reachable_step s l s' : reachable s -> step s l = Some s' -> reachable s'.

Fixpoint run (s : Sys) (ls : list Label) : option Sys :=
  match ls with
  | [] => Some s
  | l :: ls => match step s l with Some s' => run s' ls | None => None end
  end.

(** A [kill] changes nothing but the status of one process. *)
Lemma kill_pid_procs p ok s : exists ps, (kill_pid p ok s).1 = with_procs ps s /\
  (ps = procs s \/ exists j, holder p (procs s) 0 = Some j /\ ps = alter killed_proc j (procs s)).
Proof.
  assert (Hid : s = with_procs (procs s) s) by (by destruct s).
  unfold kill_pid. destruct (holder p (procs s) 0) as [j|], ok; cbn [fst]; [|eauto..].
  eexists. split; [reflexivity|]. right. by exists j.
Qed.

Lemma run_reachable ls : forall s s', reachable s -> run s ls = Some s' -> reachable s'.
Proof.
  induction ls as [|l ls IH]; intros s s' Hs; cbn [run].
  - by intros [= <-].
  - destruct (step s l) as [s1|] eqn:Hl; [|done]. apply IH. by econstructor.
Qed.

End Program.
