(* ===== verification/Schedules.v ===== *)
(** * Schedules: executable runs of the supervisor

    The configuration and the pieces of label lists from which the witnesses of the
    invariants and the schedules of [Races] are put together. *)

From Stdlib Require Import ZArith Lia Ascii String.
From stdpp Require Import base list strings gmap.
From S2P Require Import Prelude RustStr Json JsonText Proto ClientProto Config Auth Hooks CoreProc Janitor Server Supervisor.
Import Proto.

Open Scope string_scope.

(** ** The pieces of a schedule *)

Module Schedule.

Definition the_config : Config := sample_config.
Definition the_auth : AuthMode := Launchd 501.

Abbreviation step := (step the_config the_auth).
Abbreviation run := (run the_config the_auth initial).
Abbreviation reachable := (reachable the_config the_auth).

Definition line_of (c : ClientProto.Cmd.Cmd) : ConnInput :=
  IRead (Ok (Some (ClientProto.encode_cmd c))).
Definition eof : ConnInput := IRead (Ok None).

(** Connection [c] of the owner's uid connects and says hello, up to the lease. *)
Definition connects (c : nat) (takeover : bool) : list Label :=
  [LAccept (Ok 501%Z); LConn c (IClone true); LConn c (line_of (ClientProto.Cmd.Hello 1 takeover));
   LConn c INone; LConn c INone].

(** From the lease to the command loop. *)
Definition greeted (c : nat) : list Label := [LConn c INone; LConn c INone; LConn c INone].

(** The same for a connection that displaces connection [old]. *)
Definition greeted_over (c : nat) : list Label :=
  [LConn c (ITryLock true); LConn c INone; LConn c INone].

(** [start], up to the release of the lock. *)
Definition spawns (c : nat) (pid : Z) : list Label :=
  [LConn c (line_of ClientProto.Cmd.Start);
   LConn c (ISpawn {| free_port := Ok 50321%Z; log_opened := Ok tt; CoreProc.spawned := Ok pid |})].

(** The rest of [start]: the monitor, the [up] hook, the reply. *)
Definition started (c : nat) : list Label := [LConn c INone; LConn c (IScript true); LConn c INone].

(** One turn of the monitor of process [i] that finds it alive. *)
Definition polls (i : nat) : list Label :=
  [LMonitor i (JTryWait true); LMonitor i JNone; LMonitor i JNone; LMonitor i JNone].

(** The process dies and its monitor clears the state. *)
Definition dies (i : nat) (st : Z) : list Label :=
  [LDies i st; LMonitor i (JTryWait true); LMonitor i JNone].

Definition alive_cores (s : Sys) : list Z :=
  map ppid (List.filter (fun p => ours p && match status p with PAlive => true | _ => false end) (procs s)).

(** The reasons of the [down] hooks that were run. *)
Definition downs (s : Sys) : list (option HookReason) :=
  map f_reason (List.filter (fun f => bool_decide (f_event f = Down)) (fired s)).

Definition wire_of (c : nat) (s : Sys) : list Event.Event :=
  match conns s !! c with Some k => wire k | None => [] end.

Ltac schedule ls :=
  match eval vm_compute in (run ls) with
  | Some ?s => exists s; split; [apply (run_reachable the_config the_auth ls initial);
                                [constructor | vm_compute; reflexivity] | vm_compute]
  end.

End Schedule.
