(* ===== verification/ProcInv.v ===== *)
(** * Processes and signals: what holds in every reachable state

    The claims of [core_proc.rs]'s module comment and of [start]: a core process
    exists exactly while the state says [Running], and a monitor's signals reach
    only its own child. *)

From Stdlib Require Import ZArith Lia String.
From stdpp Require Import base list strings gmap.
From S2P Require Import Prelude RustStr Json JsonText Proto ClientProto Config Auth Hooks CoreProc Janitor Server Supervisor Schedules.
Import Proto.

(** ** The invariant *)

(** The monitor has not yet reaped its child. *)
Definition watching (p : MPc) : bool :=
  match p with MUnborn | MWait | MCheck | MSignal _ | MSleep => true | _ => false end.

(** The monitor has not yet cleared the shared state. *)
Definition inflight (p : MPc) : bool :=
  watching p || match p with MExit _ => true | _ => false end.

(** What the invariant sees of a process. *)
Definition pview (p : Proc) : Z * bool * bool := (ppid p, ours p, unreaped p).

Record proc_inv (co : CoreProc) (ms : gmap nat Monitor) (ps : list Proc) (cu : nat)
    (se : list Sent) : Prop := {
  pi_proc i m : ms !! i = Some m ->
    exists u, pview <$> ps !! i = Some (mpid m, true, u) /\
      (watching (mpc m) = true -> u = true) /\
      (u = true -> watching (mpc m) = true \/ lost m = true);
  pi_unique i j p o1 o2 : pview <$> ps !! i = Some (p, o1, true) ->
    pview <$> ps !! j = Some (p, o2, true) -> i = j;
  pi_flight i m : ms !! i = Some m -> inflight (mpc m) = true ->
    i = cu /\ exists r, co = Running r /\ pid r = mpid m;
  pi_child i p u : pview <$> ps !! i = Some (p, true, u) -> is_Some (ms !! i);
  pi_core r : co = Running r ->
    exists m, ms !! cu = Some m /\ inflight (mpc m) = true /\ mpid m = pid r;
  pi_sent e : e ∈ se -> receiver e = Some (sender e)
}.

Definition proc_ok (s : Sys) : Prop :=
  proc_inv (core (shared s)) (monitors s) (procs s) (cur s) (sent s).

(** ** Lists of processes that look the same *)

Definition same_procs (ps ps' : list Proc) : Prop :=
  forall i, pview <$> ps !! i = pview <$> ps' !! i.

#[global] Instance same_procs_equiv : Equivalence same_procs.
Proof.
  split; [by intros ps i|by intros ps ps' H i|]. intros ps1 ps2 ps3 H1 H2 i. by rewrite H1.
Qed.

Lemma proc_inv_same co ms ps ps' cu se :
  same_procs ps ps' -> proc_inv co ms ps cu se -> proc_inv co ms ps' cu se.
Proof.
  intros H [H1 H2 H3 H4 H5 H6]. unfold same_procs in H.
  constructor; intros *; rewrite <- ?H; eauto.
Qed.

Lemma same_alter f i ps : (forall p, ps !! i = Some p -> pview (f p) = pview p) ->
  same_procs ps (alter f i ps).
Proof.
  intros Hf j. rewrite list_lookup_alter. case_decide as E; [subst j|done].
  destruct (ps !! i) as [p|] eqn:Hp; [|done]. cbn. by rewrite Hf.
Qed.

Lemma same_map f ps : (forall p, pview (f p) = pview p) -> same_procs ps (map f ps).
Proof.
  intros Hf j. change (map f ps) with (f <$> ps). rewrite list_lookup_fmap.
  destruct (ps !! j) as [p|]; [|done]. cbn. by rewrite Hf.
Qed.

Lemma killed_view p : pview (killed_proc p) = pview p.
Proof. unfold killed_proc, pview, unreaped. destruct (status p) eqn:E; cbn; by rewrite ?E. Qed.

Lemma zombie_view p st : status p = PAlive -> pview (set_status (PZombie st) p) = pview p.
Proof. intros E. unfold pview, unreaped. cbn. by rewrite E. Qed.

(** ** The receiver of a signal *)

Lemma holder_unique p ps : forall i k o,
  pview <$> ps !! i = Some (p, o, true) ->
  (forall j o', pview <$> ps !! j = Some (p, o', true) -> j = i) ->
  holder p ps k = Some (k + i)%nat.
Proof.
  induction ps as [|q ps IH]; intros i k o Hi Hu; [done|]. cbn [holder].
  destruct (unreaped q && (ppid q =? p)%Z) eqn:Hq.
  - apply andb_prop in Hq as [Hq Hp%Z.eqb_eq].
    rewrite <- (Hu 0%nat (ours q)); [by rewrite Nat.add_0_r|]. cbn. unfold pview. by rewrite Hp, Hq.
  - destruct i as [|i].
    + cbn in Hi. unfold pview in Hi. injection Hi as Hp Ho Hr. by rewrite Hr, Hp, Z.eqb_refl in Hq.
    + rewrite (IH i (S k) o Hi); [f_equal; lia|].
      intros j o' Hj. specialize (Hu (S j) o' Hj). lia.
Qed.

(** The pid of a child that was not reaped is that child's. *)
Lemma holder_own co ms ps cu se i m : proc_inv co ms ps cu se -> ms !! i = Some m ->
  watching (mpc m) = true -> holder (mpid m) ps 0 = Some i.
Proof.
  intros H Hm Hw. destruct (pi_proc _ _ _ _ _ H i m Hm) as (u & Hu & Hwu & _). specialize (Hwu Hw). subst u.
  rewrite (holder_unique _ _ i 0 true); [done|done|]. intros j o Hj. by eapply (pi_unique _ _ _ _ _ H).
Qed.

(** The receiver has the pid. *)
Lemma holder_hit p ps : forall k j, holder p ps k = Some j ->
  exists q, ps !! (j - k)%nat = Some q /\ unreaped q = true /\ ppid q = p.
Proof.
  assert (Hle : forall ps k j, holder p ps k = Some j -> (k <= j)%nat).
  { clear ps. intros ps. induction ps as [|q ps IH]; intros k j; cbn [holder]; [done|].
    case_match; [intros [= ->]; lia|]. intros Hj%IH. lia. }
  induction ps as [|q ps IH]; intros k j; cbn [holder]; [done|].
  destruct (unreaped q && (ppid q =? p)%Z) eqn:E.
  - intros [= ->]. breflect. exists q. by rewrite Nat.sub_diag.
  - intros Hj. pose proof (Hle _ _ _ Hj). destruct (IH (S k) j Hj) as (q' & Hq' & Hu).
    exists q'. split; [|done]. by replace (j - k)%nat with (S (j - S k)) by lia.
Qed.

Lemma send_signal_ok co ms ps cu se i m p s :
  monitors s = ms -> procs s = ps -> sent s = se -> core (shared s) = co -> cur s = cu ->
  proc_inv co ms ps cu se -> ms !! i = Some m -> watching (mpc m) = true -> mpid m = p ->
  forall sg, proc_ok (send_signal i p sg s).
Proof.
  intros <- <- <- <- <- H Hm Hw <- sg.
  assert (Hr : holder (mpid m) (procs s) 0 = Some i).
  { by eapply holder_own. }
  unfold send_signal, proc_ok. rewrite Hr.
  assert (H' : proc_inv (core (shared s)) (monitors s) (procs s) (cur s)
    (sent s ++ [{| sender := i; receiver := Some i; sig := sg |}])%list).
  { destruct H as [H1 H2 H3 H4 H5 H6]. constructor; auto.
    intros e [He|He%list_elem_of_singleton]%elem_of_app; [auto|by subst e]. }
  destruct sg; cbn; [done|]. eapply proc_inv_same, H'. apply same_alter.
  intros q _. apply killed_view.
Qed.

(** ** Each kind of step *)

(** The monitor of [i] moves, without leaving the states the invariant tells
    apart. *)
Lemma monitor_move_ok co ms ps cu se i m m' :
  proc_inv co ms ps cu se -> ms !! i = Some m -> mpid m' = mpid m ->
  (watching (mpc m') = true -> watching (mpc m) = true) ->
  (watching (mpc m) = true -> watching (mpc m') = true \/ lost m' = true) ->
  inflight (mpc m') = inflight (mpc m) -> (lost m = true -> lost m' = true) ->
  proc_inv co (<[i := m']> ms) ps cu se.
Proof.
  intros [H1 H2 H3 H4 H5 H6] Hm Hp Hw Hw' Hf Hl. constructor; auto.
  - intros j n [[<- <-]|[Hne Hj]]%lookup_insert_Some; [|eauto].
    destruct (H1 i m Hm) as (u & Hu & Hwu & Hlu). exists u. rewrite Hp. naive_solver.
  - intros j n [[<- <-]|[Hne Hj]]%lookup_insert_Some; [|eauto]. rewrite Hf, Hp. eauto.
  - intros j p u Hj. rewrite lookup_insert_is_Some. destruct (decide (i = j)); naive_solver.
  - intros r Hr. destruct (H5 r Hr) as (n & Hn & Hor & Hpr).
    destruct (decide (i = cu)) as [<-|Hne].
    + exists m'. rewrite lookup_insert_eq. simplify_eq. rewrite Hf, Hp. auto.
    + exists n. by rewrite lookup_insert_ne.
Qed.

Lemma monitor_bound s i m : proc_ok s -> monitors s !! i = Some m -> (i < length (procs s))%nat.
Proof.
  intros H Hm. destruct (pi_proc _ _ _ _ _ H i m Hm) as (u & Hu & _).
  destruct (procs s !! i) eqn:E; [|done]. by eapply lookup_lt_Some.
Qed.

(** [alter] at a known key is an insertion. *)
Lemma alter_known (f : Monitor -> Monitor) i m (ms : gmap nat Monitor) :
  ms !! i = Some m -> alter f i ms = <[i := f m]> ms.
Proof.
  intros Hm. apply map_eq. intros j. destruct (decide (i = j)) as [<-|Hne].
  - by rewrite lookup_alter_eq, Hm, lookup_insert_eq.
  - by rewrite lookup_alter_ne, lookup_insert_ne.
Qed.

(** A new process with a free pid. *)
Lemma pview_app ps q i v : pview <$> (ps ++ [q])%list !! i = Some v ->
  (i < length ps)%nat /\ pview <$> ps !! i = Some v \/ i = length ps /\ v = pview q.
Proof.
  intros H. destruct (decide (i < length ps)%nat) as [Hlt|Hge].
  - left. by rewrite lookup_app_l in H.
  - right. rewrite lookup_app_r in H by lia. destruct (i - length ps)%nat as [|k] eqn:E; cbn in H.
    + injection H as <-. split; [lia|done].
    + done.
Qed.

Lemma pview_app_l ps q i v : pview <$> ps !! i = Some v -> pview <$> (ps ++ [q])%list !! i = Some v.
Proof.
  intros H. destruct (ps !! i) as [p|] eqn:E; [|done].
  by rewrite (lookup_app_l_Some _ _ _ _ E).
Qed.

Lemma pid_free_no p s i o : pid_free p s = true -> pview <$> procs s !! i <> Some (p, o, true).
Proof.
  unfold pid_free. rewrite forallb_forall. intros Hall H.
  destruct (procs s !! i) as [q|] eqn:Hq; [|done]. cbn in H. unfold pview in H.
  injection H as Hp Ho Hu. apply list_elem_of_lookup_2, list_elem_of_In in Hq.
  specialize (Hall q Hq). by rewrite Hu, Hp, Z.eqb_refl in Hall.
Qed.

Lemma new_proc_unique s q i j p o1 o2 : proc_ok s -> pid_free (ppid q) s = true ->
  pview <$> (procs s ++ [q])%list !! i = Some (p, o1, true) ->
  pview <$> (procs s ++ [q])%list !! j = Some (p, o2, true) -> i = j.
Proof.
  intros H Hf [[_ Hi]|[Hi Hqi]]%pview_app [[_ Hj]|[Hj Hqj]]%pview_app.
  - by eapply (pi_unique _ _ _ _ _ H).
  - unfold pview in Hqj. injection Hqj as -> _ _. by apply (pid_free_no _ _ _ _ Hf) in Hi.
  - unfold pview in Hqi. injection Hqi as -> _ _. by apply (pid_free_no _ _ _ _ Hf) in Hj.
  - congruence.
Qed.

(** A program that is not a core starts. *)
Lemma foreign_ok s p cmd : proc_ok s -> pid_free p s = true ->
  proc_ok (with_procs
    (procs s ++ [{| ppid := p; cmdline := cmd; ours := false; status := PAlive |}])%list s).
Proof.
  intros H Hf. pose proof H as [H1 H2 H3 H4 H5 H6]. constructor; auto; cbn.
  - intros i m Hm. destruct (H1 i m Hm) as (u & Hu & Hw). exists u.
    split; [by apply pview_app_l|done].
  - intros *. by apply new_proc_unique.
  - intros i q u [[_ Hi]|[_ [=]]]%pview_app. by eapply H4.
Qed.

(** A core is spawned. *)
Lemma spawn_ok s p q r : proc_ok s -> core (shared s) = Stopped ->
  pid_free p s = true -> ppid q = p -> ours q = true -> unreaped q = true -> pid r = p ->
  proc_inv (Running r) (<[length (procs s) := new_monitor p]> (monitors s))
    (procs s ++ [q])%list (length (procs s)) (sent s).
Proof.
  intros H Hs Hf Hq Ho Hu Hr. pose proof H as [H1 H2 H3 H4 H5 H6].
  assert (Hno : forall i m, monitors s !! i = Some m -> inflight (mpc m) = false).
  { intros i m Hm. destruct (inflight (mpc m)) eqn:E; [|done].
    destruct (H3 i m Hm E) as (_ & r' & Hr' & _). congruence. }
  constructor; auto.
  - intros i m [[<- <-]|[Hne Hm]]%lookup_insert_Some.
    + exists true. split; [|naive_solver]. rewrite lookup_app_r, Nat.sub_diag by done. cbn.
      unfold pview. by rewrite Hq, Ho, Hu.
    + destruct (H1 i m Hm) as (u & Hv & Hw). exists u. split; [by apply pview_app_l|done].
  - intros *. apply new_proc_unique; [done|by rewrite Hq].
  - intros i m [[<- <-]|[Hne Hm]]%lookup_insert_Some Hfl; [eauto|].
    rewrite (Hno i m Hm) in Hfl. done.
  - intros i p' u [[Hi Hp]|[-> _]]%pview_app; rewrite lookup_insert_is_Some; [|auto].
    right. split; [lia|]. by eapply H4.
  - intros r' [= <-]. exists (new_monitor p). rewrite lookup_insert_eq. auto.
Qed.

(** The state changes, but not which core it records. *)
Lemma core_same_ok co co' ms ps cu se : proc_inv co ms ps cu se ->
  match co, co' with
  | Running r, Running r' => pid r = pid r'
  | Stopped, Stopped => True
  | _, _ => False
  end -> proc_inv co' ms ps cu se.
Proof.
  intros [H1 H2 H3 H4 H5 H6] Hco. constructor; auto.
  - intros i m Hm Hf. destruct (H3 i m Hm Hf) as (-> & r & -> & Hr). split; [done|].
    destruct co' as [|r']; [done|]. exists r'. split; [done|]. congruence.
  - intros r' ->. destruct co as [|r]; [done|]. destruct (H5 r eq_refl) as (m & Hm & Hf & Hp).
    exists m. split_and!; [done|done|congruence].
Qed.

Lemma lookup_reaped i (ps : list Proc) j v : pview <$> alter (set_status PReaped) i ps !! j = Some v ->
  (j = i /\ exists w, pview <$> ps !! i = Some w /\ v = (w.1, false)) \/
  (j <> i /\ pview <$> ps !! j = Some v).
Proof.
  rewrite list_lookup_alter. case_decide as E; [subst j|by auto].
  destruct (ps !! i) as [p|]; cbn; [|done]. intros [= <-]. left. split; [done|].
  exists (pview p). done.
Qed.

(** The monitor of [i] reaps its child. *)
Lemma reap_ok co ms ps cu se i m st info : proc_inv co ms ps cu se -> ms !! i = Some m ->
  mpc m = MWait -> status <$> ps !! i = Some (PZombie st) ->
  proc_inv co (<[i := set_mpc (MExit info) m]> ms) (alter (set_status PReaped) i ps) cu se.
Proof.
  intros H Hm Hpc Hst. pose proof H as [H1 H2 H3 H4 H5 H6]. constructor; auto.
  - intros j n [[<- <-]|[Hne Hj]]%lookup_insert_Some.
    + destruct (H1 i m Hm) as (u & Hu & _). exists false. split; [|done].
      rewrite list_lookup_alter_eq. destruct (ps !! i); [|done]. cbn in *. unfold pview in *.
      cbn. congruence.
    + rewrite list_lookup_alter_ne by done. eauto.
  - intros j k p o1 o2 [[-> (?&?&[=])]|[Hj Hj']]%lookup_reaped
      [[-> (?&?&[=])]|[Hk Hk']]%lookup_reaped. eauto.
  - intros j n [[<- <-]|[Hne Hj]]%lookup_insert_Some Hf; [|eauto].
    apply (H3 i m Hm). by rewrite Hpc.
  - intros j p u Hj. rewrite lookup_insert_is_Some. apply lookup_reaped in Hj as [[-> _]|[Hne Hj]]; [by auto|].
    right. split; [done|]. by eapply H4.
  - intros r Hr. destruct (H5 r Hr) as (n & Hn & Hor & Hpr). destruct (decide (i = cu)) as [<-|Hne].
    + exists (set_mpc (MExit info) m). rewrite lookup_insert_eq. simplify_eq. auto.
    + exists n. by rewrite lookup_insert_ne.
Qed.

(** The monitor of [i] clears the state. *)
Lemma cleared_ok st ms ps cu se i m info p' :
  proc_inv (core st) ms ps cu se -> ms !! i = Some m -> mpc m = MExit info ->
  inflight p' = false ->
  proc_inv (core (handle_core_exit_locked st (mpid m)).1) (<[i := set_mpc p' m]> ms) ps cu se.
Proof.
  intros H Hm Hpc Hp'. pose proof H as [H1 H2 H3 H4 H5 H6].
  destruct (H3 i m Hm) as (-> & r & Hr & Hpr); [by rewrite Hpc|].
  assert (Hst : core (handle_core_exit_locked st (mpid m)).1 = Stopped).
  { unfold handle_core_exit_locked. rewrite Hr, Hpr, Z.eqb_refl. done. }
  assert (Hw' : watching p' = false) by (by destruct p').
  rewrite Hst. constructor; auto; [| | |done].
  - intros j n [[<- <-]|[Hne Hj]]%lookup_insert_Some; [|eauto].
    destruct (H1 cu m Hm) as (u & Hu & Hw & Hl). exists u. rewrite Hpc in Hl. cbn.
    rewrite Hw'. naive_solver.
  - intros j n [[<- <-]|[Hne Hj]]%lookup_insert_Some Hf; [cbn in Hf; congruence|].
    destruct (H3 j n Hj Hf) as (-> & _). done.
  - intros j p u Hj. rewrite lookup_insert_is_Some. destruct (decide (cu = j)); [by auto|].
    right. split; [done|]. by eapply H4.
Qed.

(** Another program's zombie is reaped by its parent. *)
Lemma foreign_reap_ok s i : proc_ok s -> ours <$> procs s !! i = Some false ->
  proc_ok (with_procs (alter (set_status PReaped) i (procs s)) s).
Proof.
  intros [H1 H2 H3 H4 H5 H6] Ho.
  assert (Hno : forall p u, pview <$> procs s !! i <> Some (p, true, u)).
  { intros p u. destruct (procs s !! i) as [q|]; [|done]. cbn in *. unfold pview. congruence. }
  constructor; auto; cbn.
  - intros j m Hm. destruct (H1 j m Hm) as (u & Hu & Hw). exists u.
    rewrite list_lookup_alter_ne by (intros ->; by apply Hno in Hu). done.
  - intros j k p o1 o2 [[-> (?&?&[=])]|[Hj Hj']]%lookup_reaped
      [[-> (?&?&[=])]|[Hk Hk']]%lookup_reaped. eauto.
  - intros j p u [[-> (w & Hw & Hu)]|[Hne Hj]]%lookup_reaped; [|by eapply H4].
    destruct w as [[q o] v]. cbn in Hu. simplify_eq. by apply Hno in Hw.
Qed.

(** ** Every step *)

Lemma write_all_shared c evs : forall s, proc_ok s -> proc_ok (write_all c evs s).
Proof. induction evs as [|e evs IH]; intros s Hs; cbn; [done|]. by apply IH. Qed.

Lemma fire_ok ev why gen present s : proc_ok s -> proc_ok (fire ev why gen present s).
Proof. intros Hs. unfold fire. by destruct present. Qed.

Lemma spawn_monitor_ok i s : proc_ok s -> proc_ok (on_monitor i spawn_monitor s).
Proof.
  intros Hs. unfold proc_ok. cbn. destruct (monitors s !! i) as [m|] eqn:Hm.
  - rewrite (alter_known _ _ m) by done.
    destruct (mpc m) eqn:Hpc; (eapply monitor_move_ok; [exact Hs|exact Hm|..]);
      unfold spawn_monitor; rewrite Hpc; cbn; rewrite ?Hpc; auto.
  - rewrite alter_id; [done|]. congruence.
Qed.

Section Steps.
Context {SJ : SerdeJson} (config : Config) (auth : AuthMode).

Lemma kill_ok p ok s s' hit : proc_ok s -> kill_pid p ok s = (s', hit) -> proc_ok s'.
Proof.
  intros Hs Hk. destruct (kill_pid_procs p ok s) as (ps & E & Hps). rewrite Hk in E. cbn in E. subst s'.
  eapply proc_inv_same, Hs. destruct Hps as [->|(j & _ & ->)]; [done|].
  apply same_alter. intros q _. apply killed_view.
Qed.

Lemma end_sweep_ok killed present s : proc_ok s -> proc_ok (end_sweep killed present s).
Proof. intros Hs. unfold end_sweep. case_match; [by apply fire_ok|done]. Qed.

Lemma lease_core st me c takeover : core (acquire_lease st me c takeover).1 = core st.
Proof. unfold acquire_lease. by case_match. Qed.

Lemma release_core st me : core (release_lease st me) = core st.
Proof. unfold release_lease. by repeat case_match. Qed.

Lemma do_lease_ok c k t s : proc_ok s -> proc_ok (do_lease c k t s).
Proof.
  intros Hs. unfold do_lease. pose proof (lease_core (shared s) (my_id k) c t) as Hc.
  destruct (acquire_lease _ _ _ _) as [st [d|]]; cbn in Hc; [|exact Hs].
  unfold proc_ok. destruct (option_map conn d); cbn; rewrite Hc; exact Hs.
Qed.

Lemma do_stop_ok c why s : proc_ok s -> proc_ok (do_stop c why s).
Proof.
  intros Hs. unfold do_stop, stop_locked. destruct (core (shared s)) as [|r] eqn:Hc; [exact Hs|].
  unfold proc_ok. cbn. eapply core_same_ok; [exact Hs|]. by rewrite Hc.
Qed.

Lemma do_start_ok c env s : spawn_possible env s = true -> proc_ok s -> proc_ok (do_start config c env s).
Proof.
  intros Hp Hs. unfold do_start. destruct (start_locked config env (shared s)) as [st r] eqn:Hst.
  unfold start_locked, pick_free_port, build_command in Hst.
  destruct (core (shared s)) as [|c0] eqn:Hc; [|injection Hst as <- <-; exact Hs].
  unfold spawn_possible in Hp. apply andb_prop in Hp as [_ Hp].
  destruct (free_port env), (log_opened env), (spawned env) as [p|]; cbn in Hst;
    injection Hst as <- <-; try exact Hs.
  unfold proc_ok. cbn. eapply spawn_ok; try done. by apply andb_prop in Hp as [_ ?].
Qed.

Lemma goto_ok c p s : proc_ok s -> proc_ok (goto c p s).
Proof. done. Qed.

Lemma do_turn_ok c t s : proc_ok s -> proc_ok (do_turn c t s).
Proof. by destruct t. Qed.

Lemma release_ok s me : proc_ok s -> proc_ok (with_shared (release_lease (shared s) me) s).
Proof. intros Hs. unfold proc_ok. cbn. by rewrite release_core. Qed.

Lemma conn_step_ok c k i s s' : proc_ok s -> conn_step config auth c k i s = Some s' -> proc_ok s'.
Proof.
  intros Hs. unfold conn_step.
  destruct (pc k), i; try done; repeat case_match; intros; simplify_eq;
    try exact Hs; auto using goto_ok, do_start_ok, do_stop_ok, do_lease_ok, fire_ok, end_sweep_ok,
      write_all_shared, spawn_monitor_ok, do_turn_ok, release_ok.
  apply goto_ok. by eapply kill_ok.
Qed.

(** The monitor of [i] moves by [f]. *)
Lemma on_monitor_ok i f m s : proc_ok s -> monitors s !! i = Some m ->
  mpid (f m) = mpid m -> watching (mpc (f m)) = watching (mpc m) ->
  inflight (mpc (f m)) = inflight (mpc m) -> lost (f m) = lost m -> proc_ok (on_monitor i f s).
Proof.
  intros Hs Hm Hp Hw Hf Hl. unfold proc_ok. cbn. rewrite (alter_known _ _ m) by done.
  eapply monitor_move_ok; [exact Hs|exact Hm|done|congruence| |done|congruence].
  intros H. left. congruence.
Qed.

Lemma send_ok i m sg s : proc_ok s -> monitors s !! i = Some m -> watching (mpc m) = true ->
  proc_ok (send_signal i (mpid m) sg s).
Proof. intros Hs Hm Hw. by eapply send_signal_ok. Qed.

Lemma send_monitors i p sg s : monitors (send_signal i p sg s) = monitors s.
Proof. unfold send_signal. by destruct sg, (holder p (procs s) 0). Qed.

Lemma fire_monitors ev why gen present s : monitors (fire ev why gen present s) = monitors s.
Proof. unfold fire. by destruct present. Qed.

Lemma end_sweep_monitors killed present s : monitors (end_sweep killed present s) = monitors s.
Proof. unfold end_sweep. case_match; [by rewrite fire_monitors|done]. Qed.

Lemma kill_monitors p ok s s' hit : kill_pid p ok s = (s', hit) -> monitors s' = monitors s.
Proof. intros Hk. destruct (kill_pid_procs p ok s) as (ps & E & _). rewrite Hk in E. cbn in E. by subst s'. Qed.

Lemma clear_ok i m info s st expected :
  proc_ok s -> monitors s !! i = Some m -> mpc m = MExit info ->
  handle_core_exit_locked (shared s) (mpid m) = (st, expected) ->
  proc_ok (on_monitor i (set_mpc (if expected then MDone else MPush info)) (with_shared st s)).
Proof.
  intros Hs Hm Hpc He. unfold proc_ok. cbn. rewrite (alter_known _ _ m) by done.
  replace st with (handle_core_exit_locked (shared s) (mpid m)).1 by (by rewrite He).
  eapply cleared_ok; [exact Hs|exact Hm|exact Hpc|by destruct expected].
Qed.

Lemma reaped_ok i m st info s : proc_ok s -> monitors s !! i = Some m -> mpc m = MWait ->
  status <$> procs s !! i = Some (PZombie st) ->
  proc_ok (on_monitor i (set_mpc (MExit info)) (with_procs (alter (set_status PReaped) i (procs s)) s)).
Proof.
  intros Hs Hm Hpc Hst. unfold proc_ok. cbn. rewrite (alter_known _ _ m) by done.
  by eapply reap_ok.
Qed.

Lemma lost_ok i m s : proc_ok s -> monitors s !! i = Some m -> mpc m = MWait ->
  proc_ok (on_monitor i (fun m => {| mpid := mpid m; vars := vars m;
                                     mpc := MExit no_exit_info; lost := true |}) s).
Proof.
  intros Hs Hm Hpc. unfold proc_ok. cbn. rewrite (alter_known _ _ m) by done.
  eapply monitor_move_ok; [exact Hs|exact Hm|..]; cbn; rewrite ?Hpc; auto.
Qed.

Ltac advance Hpc := eapply on_monitor_ok; [|cbn; rewrite ?fire_monitors, ?end_sweep_monitors, ?send_monitors;
  eassumption|cbn; rewrite ?Hpc; try done..].

Lemma monitor_step_ok i m j s s' : proc_ok s -> monitors s !! i = Some m ->
  monitor_step config i m j s = Some s' -> proc_ok s'.
Proof.
  intros Hs Hm. unfold monitor_step. destruct (mpc m) as [| | | | | | | | | | |[|p ps] n|] eqn:Hpc, j as [|[]| | |]; try done.
  - repeat case_match; intros; simplify_eq; [advance Hpc; done|by eapply reaped_ok].
  - intros [= <-]. by eapply lost_ok.
  - intros [= <-]. by advance Hpc.
  - destruct (escalate _ _ _) as [[sg|] v]; intros [= <-]; advance Hpc; [|done].
    eapply send_ok; [done|done|by rewrite Hpc].
  - intros [= <-]. by advance Hpc.
  - destruct (handle_core_exit_locked _ _) as [st expected] eqn:He. intros [= <-]. by eapply clear_ok.
  - intros [= <-]. by advance Hpc.
  - intros [= <-]. by destruct to; advance Hpc.
  - intros [= <-]. advance Hpc. by apply fire_ok.
  - intros [= <-]. by case_match; advance Hpc.
  - intros [= <-]. by advance Hpc.
  - intros [= <-]. advance Hpc. by apply end_sweep_ok.
  - destruct (kill_pid p ok s) as [s1 hit] eqn:Hk. intros [= <-]. rewrite <- (kill_monitors _ _ _ _ _ Hk) in Hm.
    apply (kill_ok _ _ _ _ _ Hs) in Hk. by advance Hpc.
Qed.

Lemma step_proc_ok s l s' : proc_ok s -> step config auth s l = Some s' -> proc_ok s'.
Proof.
  intros Hs. unfold step. destruct (exited s); [done|]. destruct l as [p|c i|i j| |ms|i st|p cmd|i|h].
  - by intros [= <-].
  - destruct (conns s !! c); [|done]. case_match; [done|]. by apply conn_step_ok.
  - destruct (monitors s !! i) eqn:Hm; [|done]. case_match; [done|]. by apply monitor_step_ok.
  - unfold timer_step. repeat case_match; intros; by simplify_eq.
  - case_match; intros; by simplify_eq.
  - destruct (procs s !! i) as [q|] eqn:Hq; cbn; [|done]. destruct (status q) eqn:Hst; try done.
    intros [= <-]. eapply proc_inv_same, Hs. apply same_alter. intros q' Hq'. simplify_eq.
    by apply zombie_view.
  - case_match; intros; simplify_eq. by apply foreign_ok.
  - destruct (procs s !! i) as [q|] eqn:Hq; [|done]. destruct (ours q) eqn:Ho, (status q) eqn:Hst; try done.
    intros [= <-]. apply foreign_reap_ok; [done|].
    rewrite Hq. cbn. by rewrite Ho.
  - by intros [= <-].
Qed.

Lemma initial_proc_ok : proc_ok initial.
Proof. constructor; cbn; intros; try done. by apply not_elem_of_nil in H. Qed.

Lemma reachable_proc_ok s : reachable config auth s -> proc_ok s.
Proof. induction 1; [apply initial_proc_ok|by eapply step_proc_ok]. Qed.

(** ** What follows *)

Definition none_lost (s : Sys) : Prop := map_Forall (fun _ m => lost m = false) (monitors s).

(** With no [try_wait] failed, an unreaped child is the current core. *)
Lemma unreaped_is_current s i p : reachable config auth s -> none_lost s ->
  procs s !! i = Some p -> ours p = true -> unreaped p = true ->
  i = cur s /\ exists r, core (shared s) = Running r.
Proof.
  intros Hr Hl Hp Ho Hu. pose proof (reachable_proc_ok s Hr) as H.
  destruct (pi_child _ _ _ _ _ H i (ppid p) true) as [m Hm].
  { rewrite Hp. cbn. unfold pview. by rewrite Ho, Hu. }
  destruct (pi_proc _ _ _ _ _ H i m Hm) as (u & Hv & _ & Hw).
  rewrite Hp in Hv. cbn in Hv. unfold pview in Hv. injection Hv as _ _ Hv. rewrite Hu in Hv. subst u.
  destruct (Hw eq_refl) as [Hw'|Hlo]; [|specialize (Hl i m Hm); cbn in Hl; congruence].
  destruct (pi_flight _ _ _ _ _ H i m Hm) as (-> & r & Hc & _).
  { unfold inflight. by rewrite Hw'. }
  eauto.
Qed.

(** The [try_wait] of the monitor of [i] has failed: nobody waits for [i] any more. *)
Definition lost_at (s : Sys) (i : nat) : Prop := exists m, monitors s !! i = Some m /\ lost m = true.

Definition gone_or_lost (s : Sys) (i : nat) (p : Proc) : Prop := status p = PReaped \/ lost_at s i.

Lemma reaped_status p : unreaped p = false -> status p = PReaped.
Proof. unfold unreaped. by destruct (status p). Qed.

(** An unreaped child is the core the state records, or nobody waits for it. *)
Lemma unreaped_child s i p : reachable config auth s -> procs s !! i = Some p -> ours p = true ->
  unreaped p = true -> lost_at s i \/ i = cur s /\ exists r, core (shared s) = Running r /\ pid r = ppid p.
Proof.
  intros Hr Hp Ho Hu. pose proof (reachable_proc_ok s Hr) as H.
  destruct (pi_child _ _ _ _ _ H i (ppid p) true) as [m Hm].
  { rewrite Hp. cbn. unfold pview. by rewrite Ho, Hu. }
  destruct (pi_proc _ _ _ _ _ H i m Hm) as (u & Hv & _ & Hw).
  rewrite Hp in Hv. cbn in Hv. unfold pview in Hv. injection Hv as Hpid _ Hv. rewrite Hu in Hv. subst u.
  destruct (Hw eq_refl) as [Hw'|Hlo]; [right|left; by exists m].
  destruct (pi_flight _ _ _ _ _ H i m Hm) as (-> & r & Hc & Hpr).
  { unfold inflight. by rewrite Hw'. }
  split; [done|]. exists r. split; [done|]. congruence.
Qed.

(** A child the state does not record is gone, or nobody waits for it. *)
Lemma unrecorded_gone s i p : reachable config auth s -> procs s !! i = Some p -> ours p = true ->
  (i = cur s -> core (shared s) = Stopped) -> gone_or_lost s i p.
Proof.
  intros Hr Hp Ho Hi. destruct (unreaped p) eqn:Hu; [|left; by apply reaped_status].
  right. destruct (unreaped_child s i p Hr Hp Ho Hu) as [|(Hc & r & Hrun & _)]; [done|]. rewrite (Hi Hc) in Hrun. done.
Qed.

(** Apart from its own child, a step of a monitor changes only the process that has
    the pid its sweep is at. *)
Lemma monitor_step_procs s i m j s' : monitors s !! i = Some m -> monitor_step config i m j s = Some s' ->
  holder (mpid m) (procs s) 0 = Some i \/ watching (mpc m) = false ->
  forall k p, procs s !! k = Some p -> k <> i -> procs s' !! k <> Some p ->
  exists qs n, mpc m = MKill (ppid p :: qs) n /\ unreaped p = true.
Proof.
  intros Hm Hst Hh k p Hp Hne Hch.
  assert (Hsame : procs s' <> procs s) by (intros E; by rewrite E in Hch).
  assert (Hown : forall f, procs s' <> alter f i (procs s)).
  { intros f E. rewrite E, list_lookup_alter_ne in Hch by done. done. }
  revert Hst. unfold monitor_step.
  destruct (mpc m) as [| | |stop| |info|info|to info| | | |[|q qs] n|] eqn:Hpc, j as [|[]| | |]; try done;
    try (intros [= E]; exfalso; apply Hsame; rewrite <- E; unfold end_sweep, fire; by repeat case_match).
  - destruct (status <$> procs s !! i) as [[]|]; intros [= E]; exfalso.
    + apply Hsame. by rewrite <- E.
    + eapply Hown. by rewrite <- E.
  - destruct Hh as [Hh|]; [|done]. destruct (escalate stop (now s) (vars m)) as [[sg|] v]; intros [= E]; exfalso.
    + unfold send_signal in E. rewrite Hh in E. destruct sg; [apply Hsame|eapply Hown]; by rewrite <- E.
    + apply Hsame. by rewrite <- E.
  - destruct (kill_pid q ok s) as [s1 hit] eqn:Hk. intros [= E].
    destruct (kill_pid_procs q ok s) as (ps & E1 & Hps). rewrite Hk in E1. cbn in E1. subst s1.
    assert (E2 : procs s' = ps) by (by rewrite <- E). destruct Hps as [->|(x & Hx & ->)]; [done|].
    destruct (decide (k = x)) as [->|Hkx]; [|rewrite E2, list_lookup_alter_ne in Hch by done; done].
    apply holder_hit in Hx as (p' & Hp' & Hu & Hpid). rewrite Nat.sub_0_r, Hp in Hp'. injection Hp' as <-.
    exists qs, n. by rewrite Hpid.
Qed.

(** C2: a signal of a monitor's escalation, SIGTERM or SIGKILL, reaches that
    monitor's own child, and never a process that was given the pid after the
    child was reaped.  The only other process a step of a monitor changes is one
    that its sweep after a crash kills: it has, at that moment, the pid the sweep
    has come to (which [ps] listed earlier, and which may have been reused by
    then: [Races.sweep_kills_recycled_pid]). *)
Theorem signals_reach_own_child s : reachable config auth s ->
  (forall e, e ∈ sent s -> receiver e = Some (sender e)) /\
  (forall i j s', step config auth s (LMonitor i j) = Some s' ->
     forall k p, procs s !! k = Some p -> k <> i -> procs s' !! k <> Some p ->
     exists m qs n, monitors s !! i = Some m /\ mpc m = MKill (ppid p :: qs) n /\ unreaped p = true).
Proof.
  intros Hr. pose proof (reachable_proc_ok s Hr) as H. split; [apply (pi_sent _ _ _ _ _ H)|].
  intros i j s' Hst k p Hp Hne Hch. unfold step in Hst. destruct (exited s); [done|].
  destruct (monitors s !! i) as [m|] eqn:Hm; [|done]. destruct (blocked _ s); [done|].
  destruct (monitor_step_procs s i m j s' Hm Hst) with (k := k) (p := p) as (qs & n & Hpc & Hu); [|done..|].
  - destruct (watching (mpc m)) eqn:Hw; [left; by eapply holder_own|by right].
  - by exists m, qs, n.
Qed.

(** C1: the shared state and the processes agree: when it says [Stopped] every child
    was reaped; when it says [Running] the recorded pid is that of the last child
    spawned, every other child was reaped, and this one was not, unless its monitor
    has just done so and is about to clear the state.  The one exception are
    children whose [try_wait] has failed: their monitor clears the state without
    knowing what became of them ([Races.failed_wait_two_cores]). *)
Theorem core_exists_iff_running s : reachable config auth s ->
  match core (shared s) with
  | Stopped => forall i p, procs s !! i = Some p -> ours p = true -> gone_or_lost s i p
  | Running r =>
      exists p m, procs s !! cur s = Some p /\ monitors s !! cur s = Some m /\
        ours p = true /\ ppid p = pid r /\
        (unreaped p = true \/ exists info, mpc m = MExit info) /\
        forall i q, i <> cur s -> procs s !! i = Some q -> ours q = true -> gone_or_lost s i q
  end.
Proof.
  intros Hr. pose proof (reachable_proc_ok s Hr) as H. destruct (core (shared s)) as [|r] eqn:Hc.
  - intros i p Hp Ho. by apply unrecorded_gone.
  - destruct (pi_core _ _ _ _ _ H r Hc) as (m & Hm & Hf & Hp).
    destruct (pi_proc _ _ _ _ _ H _ m Hm) as (u & Hv & Hw & _).
    destruct (procs s !! cur s) as [p|] eqn:Hps; [|done]. cbn in Hv. unfold pview in Hv.
    exists p, m. split_and!; [done|done|congruence|congruence| |].
    + unfold inflight in Hf. destruct (watching (mpc m)) eqn:E; [left; rewrite <- (Hw eq_refl); congruence|].
      right. destruct (mpc m); try done. eauto.
    + intros i q Hi Hq Ho. by apply unrecorded_gone.
Qed.

End Steps.

(** ** Witnesses *)

Import Schedule.

(** A core is started, its owner asks for a stop, the monitor sends SIGTERM. *)
Definition stopping_schedule : list Label :=
  connects 0 false ++ greeted 0 ++ spawns 0 100 ++ started 0 ++
  [LConn 0 (line_of ClientProto.Cmd.Stop); LConn 0 INone] ++ polls 0.
Definition stopping : Sys := default initial (run stopping_schedule).

Lemma stopping_reachable : reachable stopping.
Proof.
  apply (run_reachable the_config the_auth stopping_schedule initial); [constructor|].
  vm_compute. reflexivity.
Qed.

(** An orphan of another run is there when the core crashes. *)
Definition crashed_schedule : list Label :=
  LForeign 77 (core_path the_config ++ " --daemon")%string ::
  connects 0 false ++ greeted 0 ++ spawns 0 100 ++ started 0 ++ dies 1 11 ++
  [LMonitor 1 JNone; LMonitor 1 JNone; LMonitor 1 (JScript true)].
Definition crashed : Sys := default initial (run crashed_schedule).

Lemma crashed_reachable : reachable crashed.
Proof.
  apply (run_reachable the_config the_auth crashed_schedule initial); [constructor|].
  vm_compute. reflexivity.
Qed.

Lemma signals_reach_own_child_witness : map sig (sent stopping) = [SIGTERM] /\
  forall e, e ∈ sent stopping -> receiver e = Some (sender e).
Proof.
  split; [vm_compute; reflexivity|].
  exact (proj1 (signals_reach_own_child the_config the_auth stopping stopping_reachable)).
Defined.

Lemma core_exists_iff_running_witness : exists p m,
  procs stopping !! 0 = Some p /\ monitors stopping !! 0 = Some m /\ ppid p = 100%Z /\
  (unreaped p = true \/ exists info, mpc m = MExit info).
Proof.
  destruct (core_exists_iff_running the_config the_auth stopping stopping_reachable)
    as (p & m & Hp & Hm & _ & Hpid & Hu & _).
  exists p, m. split_and!; [exact Hp|exact Hm|exact Hpid|exact Hu].
Defined.
