(* ===== verification/LockInv.v ===== *)
(** * The state mutex during a guarded sweep: what holds in every reachable state

    After a crash the monitor lists and kills with the state mutex in its hands;
    every other critical section is one step.  Meanwhile nobody changes the shared
    state, so no core can be started, and the sweep meets only strangers. *)

From Stdlib Require Import ZArith Lia String.
From stdpp Require Import base list strings gmap.
From S2P Require Import Prelude RustStr Json JsonText Proto ClientProto Config Auth Hooks CoreProc Janitor Server Supervisor Schedules ProcInv.
Import Proto.

Open Scope string_scope.

(** The monitor is in the middle of its sweep. *)
Definition sweeping (p : MPc) : bool :=
  match p with MPs | MKill _ _ => true | _ => false end.

Record lock_inv (co : CoreProc) (ms : gmap nat Monitor) (he : option nat) : Prop := {
  lk_stopped : is_Some he -> co = Stopped;
  lk_holder i : he = Some i -> exists m, ms !! i = Some m /\ sweeping (mpc m) = true;
  lk_sweeping i m : ms !! i = Some m -> sweeping (mpc m) = true -> he = Some i
}.

Definition lock_ok (s : Sys) : Prop := lock_inv (core (shared s)) (monitors s) (held s).

(** ** Steps that leave the mutex alone *)

Lemma fire_shared ev why gen present s : shared (fire ev why gen present s) = shared s.
Proof. unfold fire. by destruct present. Qed.

Lemma fire_held ev why gen present s : held (fire ev why gen present s) = held s.
Proof. unfold fire. by destruct present. Qed.

Lemma end_sweep_shared n present s : shared (end_sweep n present s) = shared s.
Proof. unfold end_sweep. case_match; [apply fire_shared|done]. Qed.

Lemma end_sweep_held n present s : held (end_sweep n present s) = held s.
Proof. unfold end_sweep. case_match; [apply fire_held|done]. Qed.

Lemma write_all_same c evs : forall s, shared (write_all c evs s) = shared s /\
  held (write_all c evs s) = held s /\ monitors (write_all c evs s) = monitors s.
Proof. induction evs as [|e evs IH]; intros s; [done|]. exact (IH (write c e s)). Qed.

(** What a step that is not the holder's does to a monitor. *)
Definition keeps_sweeping (ms ms' : gmap nat Monitor) : Prop :=
  forall i, (sweeping ∘ mpc) <$> ms !! i = Some true <-> (sweeping ∘ mpc) <$> ms' !! i = Some true.

Lemma lock_same s s' : lock_ok s -> held s' = held s ->
  (held s = None \/ shared s' = shared s) -> keeps_sweeping (monitors s) (monitors s') -> lock_ok s'.
Proof.
  intros [H1 H2 H3] Hh Hc Hk.
  assert (Hmap : forall (ms : gmap nat Monitor) i,
    (sweeping ∘ mpc) <$> ms !! i = Some true <-> exists m, ms !! i = Some m /\ sweeping (mpc m) = true).
  { intros ms i. destruct (ms !! i) as [m|]; cbn; split; [|intros (m' & [= <-] & E); by rewrite E|done|].
    - intros [= E]. eauto.
    - by intros (m' & [=] & _). }
  constructor; rewrite ?Hh.
  - intros Hs. destruct Hc as [Hc|Hc]; [by rewrite Hc in Hs; destruct Hs|]. rewrite Hc. auto.
  - intros i Hi. apply Hmap, Hk, Hmap. auto.
  - intros i m Hm Hs. destruct (proj1 (Hmap (monitors s) i)) as (m0 & Hm0 & Hs0).
    { apply Hk, Hmap. eauto. }
    eauto.
Qed.

Lemma keeps_refl ms : keeps_sweeping ms ms.
Proof. done. Qed.

Lemma keeps_alter f i ms : (forall m, ms !! i = Some m -> sweeping (mpc (f m)) = sweeping (mpc m)) ->
  keeps_sweeping ms (alter f i ms).
Proof.
  intros Hf j. destruct (decide (i = j)) as [<-|Hne]; [|by rewrite lookup_alter_ne].
  rewrite lookup_alter_eq. destruct (ms !! i) as [m|]; [|done]. cbn. by rewrite Hf.
Qed.

Lemma keeps_insert i m ms : ms !! i = None -> sweeping (mpc m) = false -> keeps_sweeping ms (<[i := m]> ms).
Proof.
  intros Hn Hm j. destruct (decide (i = j)) as [<-|Hne]; [|by rewrite lookup_insert_ne].
  rewrite lookup_insert_eq, Hn. cbn. rewrite Hm. done.
Qed.

Lemma born_sweeping m : sweeping (mpc (spawn_monitor m)) = sweeping (mpc m).
Proof. unfold spawn_monitor. by destruct (mpc m) eqn:E; cbn; rewrite ?E. Qed.

(** ** Every step *)

Section Steps.
Context {SJ : SerdeJson} (config : Config) (auth : AuthMode).

(** A connection's step takes no part in a sweep under the lock. *)
Definition bystander (s s' : Sys) : Prop :=
  held s' = held s /\ keeps_sweeping (monitors s) (monitors s').

Lemma start_bystander c env s : proc_ok s -> bystander s (do_start config c env s).
Proof.
  intros Hp. unfold do_start. destruct (start_locked config env (shared s)) as [st [[|]|]];
    split; try done. apply keeps_insert; [|done].
  destruct (monitors s !! length (procs s)) as [m|] eqn:Hm; [|done].
  pose proof (monitor_bound s _ m Hp Hm). lia.
Qed.

Lemma write_all_bystander c evs p s : bystander s (goto c p (write_all c evs s)).
Proof. destruct (write_all_same c evs s) as (_ & Hh & Hm). split; cbn; [done|]. by rewrite Hm. Qed.

Lemma lease_bystander c k t s : bystander s (do_lease c k t s).
Proof.
  unfold do_lease. destruct (acquire_lease _ _ _ _) as [st [d|]]; [by destruct (option_map conn d)|done].
Qed.

Lemma turn_bystander c t s s1 : bystander s s1 -> bystander s (do_turn c t s1).
Proof. by destruct t. Qed.

Lemma stop_bystander c why s : bystander s (do_stop c why s).
Proof. unfold do_stop. by destruct (stop_locked (shared s)) as [st []]. Qed.

Lemma fire_bystander ev why gen present s : bystander s (fire ev why gen present s).
Proof. unfold fire. by destruct present. Qed.

Lemma end_sweep_bystander n present s : bystander s (end_sweep n present s).
Proof. unfold end_sweep. case_match; [apply fire_bystander|done]. Qed.

Lemma kill_bystander p ok s s1 hit : kill_pid p ok s = (s1, hit) -> bystander s s1.
Proof. intros H. destruct (kill_pid_procs p ok s) as (ps & E & _). rewrite H in E. cbn in E. by subst s1. Qed.

Lemma born_bystander i s : bystander s (on_monitor i spawn_monitor s).
Proof. split; [done|]. apply keeps_alter. intros m _. apply born_sweeping. Qed.

(** The thread of a connection goes on. *)
Lemma goto_bystander c p s s1 : bystander s s1 -> bystander s (goto c p s1).
Proof. done. Qed.

Lemma conn_step_bystander c k i s s' : proc_ok s -> conn_step config auth c k i s = Some s' ->
  bystander s s'.
Proof.
  intros Hp. unfold conn_step. destruct (pc k), i; try done; repeat case_match; intros; simplify_eq;
    try done; eauto using goto_bystander, write_all_bystander, lease_bystander, turn_bystander,
      stop_bystander, fire_bystander, end_sweep_bystander, kill_bystander, born_bystander, start_bystander.
  by apply turn_bystander.
Qed.

(** Only a critical section changes the shared state. *)
Lemma conn_step_shared c k i s s' : conn_step config auth c k i s = Some s' -> locks (pc k) = false ->
  shared s' = shared s.
Proof.
  unfold conn_step. destruct (pc k), i; try done; repeat case_match; intros; simplify_eq; try done; cbn;
    rewrite ?fire_shared, ?end_sweep_shared; try done.
  - apply (write_all_same c).
  - apply (write_all_same c).
  - by destruct (command_turn r).
  - match goal with H : kill_pid ?p ?o ?s = _ |- _ =>
      destruct (kill_pid_procs p o s) as (ps & E & _); rewrite H in E; cbn in E; by subst end.
Qed.

Lemma send_same i p sg s : shared (send_signal i p sg s) = shared s /\ held (send_signal i p sg s) = held s.
Proof. unfold send_signal. by destruct sg, (holder p (procs s) 0). Qed.

Lemma monitor_move_lock i f s s1 : lock_ok s -> held s1 = held s -> monitors s1 = monitors s ->
  held s = None \/ shared s1 = shared s ->
  (forall m, monitors s !! i = Some m -> sweeping (mpc (f m)) = sweeping (mpc m)) ->
  lock_ok (on_monitor i f s1).
Proof.
  intros H Hh Hm Hs Hf. eapply lock_same; [exact H|done|done|]. cbn. rewrite Hm. by apply keeps_alter.
Qed.

(** It takes the mutex for its sweep. *)
Lemma take_lock i m s : lock_ok s -> held s = None -> monitors s !! i = Some m ->
  core (shared s) = Stopped -> lock_ok (on_monitor i (set_mpc MPs) (with_held (Some i) s)).
Proof.
  intros [H1 H2 H3] Hn Hm Hc. constructor; cbn; [done|..]; rewrite (alter_known _ _ m) by done.
  - intros j [= <-]. rewrite lookup_insert_eq. eauto.
  - intros j n [[<- <-]|[Hne Hj]]%lookup_insert_Some Hs; [done|]. specialize (H3 j n Hj Hs). congruence.
Qed.

(** It has finished and releases the mutex. *)
Lemma release_lock i m s s1 : lock_ok s -> monitors s !! i = Some m -> sweeping (mpc m) = true ->
  monitors s1 = monitors s -> lock_ok (on_monitor i (set_mpc MDone) (with_held None s1)).
Proof.
  intros [H1 H2 H3] Hm Hs Hms. constructor; cbn; [by intros []|done|]. rewrite Hms.
  rewrite (alter_known _ _ m) by done.
  intros j n [[<- <-]|[Hne Hj]]%lookup_insert_Some Hsn; [done|].
  pose proof (H3 i m Hm Hs) as E. pose proof (H3 j n Hj Hsn). congruence.
Qed.

Lemma blocked_none s : blocked true s = false -> held s = None.
Proof. unfold blocked. by destruct (held s). Qed.

Ltac moves Hpc := eapply monitor_move_lock; [eassumption|done|done|by right|];
  intros ? ?; simplify_eq; by rewrite ?Hpc.

Lemma monitor_step_lock i m j s s' : lock_ok s -> monitors s !! i = Some m ->
  blocked (monitor_locks (mpc m)) s = false -> monitor_step config i m j s = Some s' -> lock_ok s'.
Proof.
  intros H Hm Hb. unfold monitor_step.
  destruct (mpc m) as [| | |stop| |info|info|to info| | | |[|p ps] n|] eqn:Hpc, j as [|[]| | |]; try done.
  - repeat case_match; intros; simplify_eq; moves Hpc.
  - intros [= <-]. moves Hpc.
  - intros [= <-]. moves Hpc.
  - destruct (escalate _ _ _) as [[sg|] v]; intros [= <-]; [|moves Hpc].
    destruct (send_same i (mpid m) sg s) as [Hs Hh].
    eapply monitor_move_lock; [done|done|apply send_monitors|by right|]. intros ? ?. simplify_eq. by rewrite Hpc.
  - intros [= <-]. moves Hpc.
  - destruct (handle_core_exit_locked _ _) as [st expected] eqn:He. intros [= <-]. apply blocked_none in Hb.
    eapply monitor_move_lock; [done|done|done|by left|]. intros ? ?. simplify_eq. rewrite Hpc. by destruct expected.
  - intros [= <-]. moves Hpc.
  - intros [= <-]. by destruct to; moves Hpc.
  - intros [= <-]. eapply monitor_move_lock; [done|apply fire_held|apply fire_monitors|right; apply fire_shared|].
    intros ? ?. simplify_eq. by rewrite Hpc.
  - intros [= <-]. apply blocked_none in Hb. unfold is_stopped. destruct (core (shared s)) eqn:Hc; [by eapply take_lock|].
    moves Hpc.
  - intros [= <-]. moves Hpc.
  - intros [= <-]. eapply release_lock; [done|done|by rewrite Hpc|apply end_sweep_monitors].
  - destruct (kill_pid p ok s) as [s1 hit] eqn:Hk. intros [= <-].
    destruct (kill_pid_procs p ok s) as (ps' & E & _). rewrite Hk in E. cbn in E. subst s1. moves Hpc.
Qed.

Lemma step_lock s l s' : proc_ok s -> lock_ok s -> step config auth s l = Some s' -> lock_ok s'.
Proof.
  intros Hp Hs. unfold step. destruct (exited s); [done|]. destruct l as [p|c i|i j| |ms|i st|p cmd|i|h].
  - by intros [= <-].
  - destruct (conns s !! c) as [k|]; [|done]. destruct (blocked _ s) eqn:Hb; [done|]. intros Hst.
    destruct (conn_step_bystander c k i s s' Hp Hst) as [Hh Hk]. apply (lock_same s); [done|done| |done].
    destruct (locks (pc k)) eqn:Hl; [left; by apply blocked_none|right; by eapply conn_step_shared].
  - destruct (monitors s !! i) eqn:Hm; [|done]. destruct (blocked _ s) eqn:Hb; [done|].
    by eapply monitor_step_lock.
  - unfold timer_step. repeat case_match; intros; by simplify_eq.
  - case_match; intros; by simplify_eq.
  - repeat case_match; intros; by simplify_eq.
  - case_match; intros; by simplify_eq.
  - repeat case_match; intros; by simplify_eq.
  - by intros [= <-].
Qed.

Lemma reachable_lock s : reachable config auth s -> lock_ok s.
Proof.
  induction 1 as [|s l s' Hr IH Hst]; [constructor; cbn; try done; by intros []|].
  eapply step_lock; [by eapply reachable_proc_ok|done|done].
Qed.

(** ** Processes only grow older *)

(** Alive, then a zombie, then reaped: what a process may become. *)
Definition older (p p' : Proc) : Prop :=
  ppid p' = ppid p /\ (ours p' = ours p /\ cmdline p' = cmdline p) /\
  match status p with
  | PAlive => True
  | PZombie st => status p' = PZombie st \/ status p' = PReaped
  | PReaped => p' = p
  end.

Definition ages (ps ps' : list Proc) : Prop :=
  forall j p, ps !! j = Some p -> exists p', ps' !! j = Some p' /\ older p p'.

Lemma older_refl p : older p p.
Proof. unfold older. split_and!; [done..|]. destruct (status p) eqn:E; auto. Qed.

Lemma ages_refl ps : ages ps ps.
Proof. intros j p Hj. eauto using older_refl. Qed.

Lemma ages_app ps qs : ages ps (ps ++ qs)%list.
Proof. intros j p Hj. exists p. split; [by apply lookup_app_l_Some|apply older_refl]. Qed.

Lemma ages_alter f i ps : (forall p, ps !! i = Some p -> older p (f p)) -> ages ps (alter f i ps).
Proof.
  intros Hf j p Hj. rewrite list_lookup_alter. case_decide as E; [subst j|eauto using older_refl].
  rewrite Hj. cbn. eauto.
Qed.

Lemma killed_older p : older p (killed_proc p).
Proof. unfold killed_proc. destruct (status p) eqn:E; unfold older; cbn; rewrite E; eauto. Qed.

Lemma kill_ages p ok s s1 hit : kill_pid p ok s = (s1, hit) -> ages (procs s) (procs s1).
Proof.
  intros H. destruct (kill_pid_procs p ok s) as (ps & E & Hps). rewrite H in E. cbn in E. subst s1.
  destruct Hps as [->|(i & _ & ->)]; [apply ages_refl|]. apply ages_alter. intros q _. apply killed_older.
Qed.

Lemma send_ages i p sg s : ages (procs s) (procs (send_signal i p sg s)).
Proof.
  unfold send_signal. destruct sg, (holder p (procs s) 0); try apply ages_refl. cbn.
  apply ages_alter. intros q _. apply killed_older.
Qed.

Lemma end_sweep_procs n present s : procs (end_sweep n present s) = procs s.
Proof. unfold end_sweep, fire. by repeat case_match. Qed.

Lemma write_all_procs c evs : forall s, procs (write_all c evs s) = procs s.
Proof. induction evs as [|e evs IH]; intros s; [done|]. exact (IH (write c e s)). Qed.

Lemma lease_procs c k t s : procs (do_lease c k t s) = procs s.
Proof. unfold do_lease. destruct (acquire_lease _ _ _ _) as [st [d|]]; [by destruct (option_map conn d)|done]. Qed.

Lemma turn_procs c t s : procs (do_turn c t s) = procs s.
Proof. by destruct t. Qed.

Lemma fire_procs ev why gen present s : procs (fire ev why gen present s) = procs s.
Proof. unfold fire. by destruct present. Qed.

Lemma stop_procs c why s : procs (do_stop c why s) = procs s.
Proof. unfold do_stop. by destruct (stop_locked (shared s)) as [st []]. Qed.

Lemma start_procs c env s : exists ps, procs (do_start config c env s) = (procs s ++ ps)%list.
Proof.
  unfold do_start. destruct (start_locked config env (shared s)) as [st [[|]|]]; cbn; [|by eexists|];
    exists []; by rewrite app_nil_r.
Qed.

Lemma conn_step_ages c k i s s' : conn_step config auth c k i s = Some s' -> ages (procs s) (procs s').
Proof.
  unfold conn_step. destruct (pc k), i; try done; repeat case_match; intros; simplify_eq;
    cbn; rewrite ?end_sweep_procs, ?write_all_procs, ?lease_procs, ?turn_procs, ?fire_procs,
      ?stop_procs; eauto using ages_refl, kill_ages.
  destruct (start_procs c env s) as [ps ->]. apply ages_app.
Qed.

Lemma monitor_step_ages i m x s s' : monitor_step config i m x s = Some s' -> ages (procs s) (procs s').
Proof.
  unfold monitor_step.
  destruct (mpc m) as [| | |stop| |info|info|to info| | | |[|p ps] n|], x as [|[]| | |]; try done.
  - destruct (procs s !! i) as [p|] eqn:Hi; cbn; [|done]. destruct (status p) eqn:Hp; intros [= <-]; [apply ages_refl|].
    apply ages_alter. intros q Hq. simplify_eq. unfold older. cbn. rewrite Hp. auto.
  - intros [= <-]. apply ages_refl.
  - intros [= <-]. apply ages_refl.
  - destruct (escalate _ _ _) as [[sg|] v]; intros [= <-]; [apply send_ages|apply ages_refl].
  - intros [= <-]. apply ages_refl.
  - destruct (handle_core_exit_locked _ _) as [st expected]. intros [= <-]. apply ages_refl.
  - intros [= <-]. apply ages_refl.
  - intros [= <-]. destruct to; apply ages_refl.
  - intros [= <-]. cbn. rewrite fire_procs. apply ages_refl.
  - intros [= <-]. destruct (is_stopped (shared s)); apply ages_refl.
  - intros [= <-]. apply ages_refl.
  - intros [= <-]. cbn. rewrite end_sweep_procs. apply ages_refl.
  - destruct (kill_pid p ok s) as [s1 hit] eqn:Hk. intros [= <-]. exact (kill_ages _ _ _ _ _ Hk).
Qed.

Lemma step_ages s l s' : step config auth s l = Some s' -> ages (procs s) (procs s').
Proof.
  unfold step. destruct (exited s); [done|]. destruct l as [p|c i|i x| |ms|i st|p cmd|i|h].
  - intros [= <-]. apply ages_refl.
  - repeat case_match; try done. apply conn_step_ages.
  - repeat case_match; try done. apply monitor_step_ages.
  - unfold timer_step. repeat case_match; intros; simplify_eq; apply ages_refl.
  - case_match; intros; simplify_eq; apply ages_refl.
  - destruct (procs s !! i) as [p|] eqn:Hi; cbn; [|done]. destruct (status p) eqn:Hp; try done. intros [= <-].
    apply ages_alter. intros q Hq. simplify_eq. unfold older. by rewrite Hp.
  - case_match; intros; simplify_eq. apply ages_app.
  - destruct (procs s !! i) as [p|] eqn:Hi; [|done]. destruct (ours p) eqn:Ho, (status p) eqn:Hp; try done.
    intros [= <-]. apply ages_alter. intros q Hq. simplify_eq. unfold older. rewrite Hp. cbn. auto.
  - intros [= <-]. apply ages_refl.
Qed.

Lemma step_reaped s l s' j q : procs s !! j = Some q -> status q = PReaped ->
  step config auth s l = Some s' -> procs s' !! j = Some q.
Proof.
  intros Hj Hq Hst. destruct (step_ages s l s' Hst j q Hj) as (q' & Hj' & _ & _ & Ho).
  rewrite Hq in Ho. by subst q'.
Qed.

(** ** What follows *)

Lemma monitor_step_shared i m j s s' : is_Some (held s) -> blocked (monitor_locks (mpc m)) s = false ->
  monitor_step config i m j s = Some s' -> shared s' = shared s.
Proof.
  intros Hh Hb. unfold monitor_step.
  destruct (mpc m) as [| | |stop| |info|info|to info| | | |[|p ps] n|] eqn:Hpc, j as [|[]| | |]; try done.
  - repeat case_match; intros; by simplify_eq.
  - by intros [= <-].
  - by intros [= <-].
  - destruct (escalate _ _ _) as [[sg|] v]; intros [= <-]; [apply send_same|done].
  - by intros [= <-].
  - apply blocked_none in Hb. rewrite Hb in Hh. by destruct Hh.
  - by intros [= <-].
  - intros [= <-]. by destruct to.
  - intros [= <-]. apply fire_shared.
  - intros [= <-]. by destruct (is_stopped (shared s)).
  - by intros [= <-].
  - intros [= <-]. apply end_sweep_shared.
  - destruct (kill_pid_procs p ok s) as (ps' & E & _). destruct (kill_pid p ok s) as [s1 hit].
    cbn in E. subst s1. by intros [= <-].
Qed.

(** While the mutex is held nobody changes the shared state. *)
Lemma held_shared s l s' : lock_ok s -> is_Some (held s) -> step config auth s l = Some s' ->
  shared s' = shared s.
Proof.
  intros H Hh. unfold step. destruct (exited s); [done|]. destruct l as [p|c i|i j| |ms|i st|p cmd|i|h].
  - by intros [= <-].
  - destruct (conns s !! c) as [k|]; [|done]. destruct (blocked _ s) eqn:Hb; [done|]. intros Hst.
    eapply conn_step_shared; [exact Hst|]. destruct (locks (pc k)); [|done].
    apply blocked_none in Hb. rewrite Hb in Hh. by destruct Hh.
  - destruct (monitors s !! i) as [m|] eqn:Hm; [|done]. destruct (blocked _ s) eqn:Hb; [done|].
    by apply (monitor_step_shared i m j s s').
  - unfold timer_step. repeat case_match; intros; by simplify_eq.
  - case_match; intros; by simplify_eq.
  - repeat case_match; intros; by simplify_eq.
  - case_match; intros; by simplify_eq.
  - repeat case_match; intros; by simplify_eq.
  - by intros [= <-].
Qed.

(** C18: the sweep after an unexpected exit leaves the supervisor's own children
    alone, from its [ps] to its last [kill] and whatever the other threads do
    meanwhile: the state says [Stopped] and no step of anybody changes it, so no
    core is started; and no step touches a process the supervisor ever spawned,
    except for one whose [try_wait] has failed, which may be alive and is then an
    orphan like any other. *)
Theorem guarded_sweep_spares_own s i m l s' : reachable config auth s ->
  monitors s !! i = Some m -> sweeping (mpc m) = true -> step config auth s l = Some s' ->
  core (shared s) = Stopped /\ shared s' = shared s /\
  forall j p, procs s !! j = Some p -> ours p = true -> procs s' !! j = Some p \/ lost_at s j.
Proof.
  intros Hr Hm Hsw Hst. pose proof (reachable_lock s Hr) as Hlk.
  pose proof (lk_sweeping _ _ _ Hlk i m Hm Hsw) as Hh.
  assert (Hc : core (shared s) = Stopped) by (apply (lk_stopped _ _ _ Hlk); by rewrite Hh).
  split_and!; [done|by eapply held_shared; [done|rewrite Hh|]|]. intros j p Hp Ho.
  destruct (unrecorded_gone config auth s j p Hr Hp Ho ltac:(done)) as [Hrp|Hlo]; [left|by right].
  by eapply step_reaped.
Qed.

End Steps.

(** ** Witness *)

Import Schedule.

(** The monitor of the crashed core has listed an orphan of another run; the owner
    has just sent [start]. *)
Definition mid_sweep_schedule : list Label :=
  crashed_schedule ++ [LMonitor 1 JNone; LMonitor 1 (JPs true); LConn 0 (line_of ClientProto.Cmd.Start)].
Definition mid_sweep : Sys := default initial (run mid_sweep_schedule).

Lemma mid_sweep_reachable : reachable mid_sweep.
Proof.
  apply (run_reachable the_config the_auth mid_sweep_schedule initial); [constructor|].
  vm_compute. reflexivity.
Qed.

Lemma guarded_sweep_spares_own_witness : exists s', step mid_sweep (LMonitor 1 (JKill true)) = Some s' /\
  status <$> procs mid_sweep !! 0 = Some PAlive /\ status <$> procs s' !! 0 = Some (PZombie 9) /\
  step mid_sweep (LConn 0 (ISpawn {| free_port := Ok 50322%Z; log_opened := Ok tt; CoreProc.spawned := Ok 101%Z |})) = None /\
  core (shared mid_sweep) = Stopped /\ procs s' !! 1 = procs mid_sweep !! 1.
Proof.
  eexists. split; [vm_compute; reflexivity|]. split; [vm_compute; reflexivity|]. split; [vm_compute; reflexivity|].
  split; [vm_compute; reflexivity|].
  destruct (guarded_sweep_spares_own the_config the_auth mid_sweep 1
    {| mpid := 100; vars := monitor_init; mpc := MKill [77%Z] 0; lost := false |} (LMonitor 1 (JKill true)) _
    mid_sweep_reachable ltac:(vm_compute; reflexivity) eq_refl ltac:(vm_compute; reflexivity)) as (Hc & _ & Hp).
  split; [exact Hc|].
  destruct (Hp 1 {| ppid := 100; cmdline := core_path the_config ++ " --daemon --rpc-portal 127.0.0.1:50321";
       ours := true; status := PReaped |} ltac:(vm_compute; reflexivity) eq_refl) as [->|(m & Hm & Hl)].
  - vm_compute. reflexivity.
  - vm_compute in Hm. injection Hm as <-. discriminate Hl.
Defined.
