(* ===== verification/LeaseInv.v ===== *)
(** * The lease: what holds in every reachable state

    [server.rs] promises one owner at a time, decided under the state mutex, and
    that a displaced connection loses everything it owned.  The ids that tell a
    connection whether the lease is still its own come from a 64-bit counter. *)

From Stdlib Require Import ZArith Lia String.
From stdpp Require Import base list strings gmap.
From S2P Require Import Prelude RustStr Json JsonText Proto ClientProto Config Auth Hooks CoreProc Janitor Server Supervisor Schedules.
Import Proto.

(** ** The life of a connection *)

Inductive Stage : Type :=
| Fresh        (* no id yet *)
| Identified   (* has an id, asks for the lease *)
| Holding      (* got the lease and has not given it up *)
| Gone.        (* gave it up, or never got it *)

#[global] Instance Stage_eq_dec : EqDecision Stage.
Proof. solve_decision. Defined.

Definition stage (p : Pc) : Stage :=
  match p with
  | PAuth | PHello | PNextId _ => Fresh
  | PLease _ => Identified
  | PStop Requested | PStopWait Requested | PDownHook Requested => Holding
  | PStop _ | PStopWait _ | PDownHook _ | PSweep _ | PKill _ _ _ | PJoin _ | PExit | PDone => Gone
  | _ => Holding
  end.

(** What the invariant sees of a connection. *)
Definition cview (k : Conn) : Stage * Z * bool := (stage (pc k), my_id k, kicked k).

Definition has_id (x : Stage) : bool :=
  match x with Identified | Holding => true | _ => false end.

Record lease_inv (ow : option OwnerSlot) (n : Z) (cs : list Conn) : Prop := {
  li_next : (1 <= n)%Z;
  li_id c x i q : cview <$> cs !! c = Some (x, i, q) -> has_id x = true -> (1 <= i < n)%Z;
  li_unique c c' x x' i q q' : cview <$> cs !! c = Some (x, i, q) ->
    cview <$> cs !! c' = Some (x', i, q') -> has_id x = true -> has_id x' = true -> c = c';
  li_fresh c x i : cview <$> cs !! c = Some (x, i, true) -> x = Holding \/ x = Gone;
  li_owner o : ow = Some o -> cview <$> cs !! conn o = Some (Holding, id o, false);
  li_holding c i : cview <$> cs !! c = Some (Holding, i, false) -> ow = Some {| id := i; conn := c |}
}.

(** The counter has not wrapped around. *)
Definition no_wrap (s : Sys) : Prop := (next_id s <= u64_max + 1)%Z.

Definition lease_ok (s : Sys) : Prop :=
  no_wrap s -> lease_inv (owner (shared s)) (next_id s) (conns s).

(** ** Steps the invariant does not see *)

Definition same_conns (cs cs' : list Conn) : Prop :=
  forall c, cview <$> cs !! c = cview <$> cs' !! c.

#[global] Instance same_conns_equiv : Equivalence same_conns.
Proof.
  split; [by intros cs c|by intros cs cs' H c|]. intros cs1 cs2 cs3 H1 H2 c. by rewrite H1.
Qed.

#[global] Instance lease_inv_proper ow n : Proper (same_conns ==> iff) (lease_inv ow n).
Proof.
  assert (Himp : forall cs cs', same_conns cs cs' -> lease_inv ow n cs -> lease_inv ow n cs').
  { unfold same_conns. intros cs cs' H [H1 H2 H3 H4 H5 H6].
    constructor; [done|..]; intros *; rewrite <- ?H; eauto. }
  intros cs cs' H. split; apply Himp; [done|by symmetry].
Qed.

Lemma same_alter_conn f c cs : (forall k, cs !! c = Some k -> cview (f k) = cview k) ->
  same_conns (alter f c cs) cs.
Proof.
  intros Hf j. rewrite list_lookup_alter. case_decide as E; [subst j|done].
  destruct (cs !! c) as [k|] eqn:Hk; [|done]. cbn. by rewrite Hf.
Qed.

(** [s'] differs from [s] in nothing the invariant sees. *)
Definition quiet (s s' : Sys) : Prop :=
  owner (shared s') = owner (shared s) /\ next_id s' = next_id s /\ same_conns (conns s') (conns s).

Lemma quiet_ok s s' : quiet s s' -> lease_ok s -> lease_ok s'.
Proof.
  intros (Ho & Hn & Hc) Hs. unfold lease_ok, no_wrap in *. rewrite Ho, Hn, Hc. done.
Qed.

Lemma quiet_refl s : quiet s s.
Proof. by split_and!. Qed.

Lemma quiet_trans s s' s'' : quiet s s' -> quiet s' s'' -> quiet s s''.
Proof. intros (?&?&?) (?&?&?). split_and!; [congruence|congruence|]. by etrans. Qed.

Lemma quiet_write c ev s : quiet s (write c ev s).
Proof. split_and!; [done|done|]. by apply same_alter_conn. Qed.

Lemma quiet_write_all c evs : forall s, quiet s (write_all c evs s).
Proof.
  induction evs as [|ev evs IH]; intros s; [apply quiet_refl|]. cbn.
  eapply quiet_trans, IH. apply quiet_write.
Qed.

Lemma quiet_goto c p k s : conns s !! c = Some k -> stage p = stage (pc k) -> quiet s (goto c p s).
Proof.
  intros Hk Hp. split_and!; [done|done|]. apply same_alter_conn. intros k' Hk'. simplify_eq.
  unfold cview. cbn. by rewrite Hp.
Qed.

Lemma quiet_goto_after c p k s s1 : quiet s s1 -> conns s !! c = Some k -> stage p = stage (pc k) ->
  quiet s (goto c p s1).
Proof.
  intros Hq Hk Hp. eapply quiet_trans; [exact Hq|]. destruct Hq as (_ & _ & Hc).
  specialize (Hc c). rewrite Hk in Hc. destruct (conns s1 !! c) as [k1|] eqn:Hk1; [|done].
  cbn in Hc. eapply quiet_goto; [exact Hk1|]. unfold cview in Hc. congruence.
Qed.

Lemma quiet_fire ev why gen present s : quiet s (fire ev why gen present s).
Proof. unfold fire. by destruct present. Qed.

Lemma quiet_signal i p sg s : quiet s (send_signal i p sg s).
Proof. unfold send_signal. by destruct sg, (holder p (procs s) 0). Qed.

Lemma quiet_end_sweep n present s : quiet s (end_sweep n present s).
Proof. unfold end_sweep. case_match; [apply quiet_fire|done]. Qed.

Lemma quiet_kill p ok s s1 hit : kill_pid p ok s = (s1, hit) -> quiet s s1.
Proof. intros H. destruct (kill_pid_procs p ok s) as (ps & E & _). rewrite H in E. cbn in E. by subst s1. Qed.

(** ** The steps that change the stage of a connection *)

(** Connection [c] becomes what [f] makes of it, nothing else changes. *)
Lemma view_alter (f : Conn -> Conn) c (cs : list Conn) k j : cs !! c = Some k ->
  cview <$> alter f c cs !! j = if decide (c = j) then Some (cview (f k)) else cview <$> cs !! j.
Proof.
  intros Hk. rewrite list_lookup_alter. case_decide; [subst j|]; by rewrite ?Hk.
Qed.

Ltac at_view := match goal with
  | H : context [if decide ?P then _ else _] |- _ => destruct (decide P)
  | |- context [if decide ?P then _ else _] => destruct (decide P)
  end.

(** It ends, without having the lease. *)
Lemma gone_ok ow n cs c k (f : Conn -> Conn) : lease_inv ow n cs -> cs !! c = Some k ->
  cview (f k) = (Gone, my_id k, kicked k) -> (stage (pc k) = Holding -> kicked k = true) ->
  lease_inv ow n (alter f c cs).
Proof.
  intros [H1 H2 H3 H4 H5 H6] Hk Hf Hh. constructor; [done|..].
  - intros j x i q. rewrite (view_alter _ _ _ k), Hf by done. at_view; [|apply H2].
    intros [= <- <- <-]. done.
  - intros j j' x x' i q q'. rewrite !(view_alter _ _ _ k), Hf by done.
    at_view; [by intros [= <- <- <-]|]. at_view; [by intros _ [= <- <- <-]|]. apply H3.
  - intros j x i. rewrite (view_alter _ _ _ k), Hf by done. at_view; [|apply H4].
    intros [= <- <- _]. by right.
  - intros o Ho. rewrite (view_alter _ _ _ k) by done. specialize (H5 o Ho). at_view; [|done].
    subst c. rewrite Hk in H5. unfold cview in H5. cbn in H5. injection H5 as E _ Eq.
    rewrite (Hh E) in Eq. done.
  - intros j i. rewrite (view_alter _ _ _ k), Hf by done. at_view; [done|apply H6].
Qed.

(** It is given an id. *)
Lemma identified_ok ow n cs c k (f : Conn -> Conn) : lease_inv ow n cs -> cs !! c = Some k ->
  stage (pc k) = Fresh -> cview (f k) = (Identified, n, kicked k) ->
  lease_inv ow (n + 1) (alter f c cs).
Proof.
  intros [H1 H2 H3 H4 H5 H6] Hk Hs Hf.
  assert (Hnew : forall j x q, cview <$> cs !! j = Some (x, n, q) -> has_id x = false).
  { intros j x q Hj. destruct (has_id x) eqn:E; [|done]. specialize (H2 j x n q Hj E). lia. }
  constructor; [lia|..].
  - intros j x i q. rewrite (view_alter _ _ _ k), Hf by done. at_view.
    + intros [= <- <- <-] _. lia.
    + intros Hj Hx. specialize (H2 j x i q Hj Hx). lia.
  - intros j j' x x' i q q'. rewrite !(view_alter _ _ _ k), Hf by done. do 2 at_view.
    + congruence.
    + intros [= <- <- <-] Hj' _ Hx'. rewrite (Hnew _ _ _ Hj') in Hx'. done.
    + intros Hj [= <- <- <-] Hx. rewrite (Hnew _ _ _ Hj) in Hx. done.
    + apply H3.
  - intros j x i. rewrite (view_alter _ _ _ k), Hf by done. at_view; [|apply H4].
    intros [= <- <- Hkk]. destruct (H4 c (stage (pc k)) (my_id k)) as [|]; [|congruence..].
    rewrite Hk. unfold cview. cbn. by rewrite Hkk.
  - intros o Ho. rewrite (view_alter _ _ _ k) by done. specialize (H5 o Ho). at_view; [|done].
    subst c. rewrite Hk in H5. unfold cview in H5. cbn in H5. congruence.
  - intros j i. rewrite (view_alter _ _ _ k), Hf by done. at_view; [done|apply H6].
Qed.

(** It gives the lease up, if it still has it. *)
Lemma release_lease_ok st n cs c k (f : Conn -> Conn) : lease_inv (owner st) n cs -> cs !! c = Some k ->
  stage (pc k) = Holding -> cview (f k) = (Gone, my_id k, kicked k) ->
  lease_inv (owner (release_lease st (my_id k))) n (alter f c cs).
Proof.
  intros H Hk Hs Hf. destruct (kicked k) eqn:Hkk.
  - replace (owner (release_lease st (my_id k))) with (owner st);
      [eapply gone_ok; try done; by rewrite Hkk|].
    unfold release_lease. destruct (owner st) as [o|] eqn:Ho; [|done].
    destruct (Z.eqb_spec (id o) (my_id k)) as [E|]; [|done].
    pose proof (li_owner _ _ _ H o eq_refl) as Hv.
    assert (conn o = c).
    { apply (li_unique _ _ _ H _ _ Holding Holding (id o) false true); [done| |done|done].
      rewrite Hk. unfold cview. cbn. by rewrite Hs, Hkk, E. }
    subst c. rewrite Hk in Hv. unfold cview in Hv. cbn in Hv. congruence.
  - assert (Ho : owner st = Some {| id := my_id k; conn := c |}).
    { apply (li_holding _ _ _ H). rewrite Hk. unfold cview. cbn. by rewrite Hs, Hkk. }
    unfold release_lease. rewrite Ho. cbn. rewrite Z.eqb_refl. cbn.
    assert (Hno : forall j i, j <> c -> cview <$> cs !! j <> Some (Holding, i, false)).
    { intros j i Hj Hv. apply (li_holding _ _ _ H) in Hv. congruence. }
    destruct H as [H1 H2 H3 H4 H5 H6]. constructor; [done|..].
    + intros j x i q. rewrite (view_alter _ _ _ k), Hf by done. at_view; [by intros [= <- <- <-]|apply H2].
    + intros j j' x x' i q q'. rewrite !(view_alter _ _ _ k), Hf by done.
      at_view; [by intros [= <- <- <-]|]. at_view; [by intros _ [= <- <- <-]|]. apply H3.
    + intros j x i. rewrite (view_alter _ _ _ k), Hf by done. at_view; [done|apply H4].
    + done.
    + intros j i. rewrite (view_alter _ _ _ k), Hf by done. at_view; [done|].
      intros Hv. by destruct (Hno j i).
Qed.

(** It gets the lease; the previous owner, if any, is kicked. *)
Lemma acquired_ok ow n cs cs' c i q : lease_inv ow n cs ->
  cview <$> cs !! c = Some (Identified, i, q) -> cview <$> cs' !! c = Some (Holding, i, q) ->
  (forall j, j <> c -> cview <$> cs' !! j =
     (fun v => if decide (conn <$> ow = Some j) then (v.1, true) else v) <$> (cview <$> cs !! j)) ->
  lease_inv (Some {| id := i; conn := c |}) n cs'.
Proof.
  intros [H1 H2 H3 H4 H5 H6] Hc Hc' Hcs.
  assert (Hq : q = false) by (destruct q; [|done]; by destruct (H4 _ _ _ Hc)). subst q.
  assert (Hold : forall j x y q, j <> c -> cview <$> cs' !! j = Some (x, y, q) ->
    exists q', cview <$> cs !! j = Some (x, y, q')).
  { intros j x y q Hj. rewrite Hcs by done. destruct (cview <$> cs !! j) as [[[x0 y0] q0]|]; cbn; [|done].
    case_decide; intros [=]; subst; eauto. }
  constructor; [done|..].
  - intros j x y q Hj Hx. destruct (decide (j = c)) as [->|Hne].
    + rewrite Hc' in Hj. injection Hj as <- <- <-. by apply (H2 _ _ _ _ Hc).
    + destruct (Hold j x y q Hne Hj) as [q' Hq']. by apply (H2 _ _ _ _ Hq').
  - intros j j' x x' y q q' Hj Hj' Hx Hx'.
    destruct (decide (j = c)) as [->|Hne], (decide (j' = c)) as [->|Hne']; [done|..].
    + rewrite Hc' in Hj. injection Hj as <- <- <-. destruct (Hold _ _ _ _ Hne' Hj') as [q0 Hq0].
      by eapply H3.
    + rewrite Hc' in Hj'. injection Hj' as <- <- <-. destruct (Hold _ _ _ _ Hne Hj) as [q0 Hq0].
      by eapply H3.
    + destruct (Hold _ _ _ _ Hne Hj) as [q0 Hq0], (Hold _ _ _ _ Hne' Hj') as [q1 Hq1]. by eapply H3.
  - intros j x y Hj. destruct (decide (j = c)) as [->|Hne]; [congruence|].
    rewrite Hcs in Hj by done. destruct (cview <$> cs !! j) as [[[x0 y0] q0]|] eqn:E; cbn in Hj; [|done].
    case_decide as Ho.
    + injection Hj as <- <-. destruct ow as [o|]; [|done]. injection Ho as <-.
      rewrite (H5 o eq_refl) in E. injection E as <- _ _. by left.
    + injection Hj as <- <- ->. by eapply H4.
  - intros o [= <-]. done.
  - intros j y Hj. destruct (decide (j = c)) as [->|Hne]; [congruence|].
    rewrite Hcs in Hj by done. destruct (cview <$> cs !! j) as [[[x0 y0] q0]|] eqn:E; cbn in Hj; [|done].
    case_decide as Ho; [done|]. injection Hj as -> -> ->. rewrite (H6 _ _ E) in Ho. done.
Qed.

Lemma do_lease_step c k t s : conns s !! c = Some k -> pc k = PLease t -> lease_ok s ->
  lease_ok (do_lease c k t s).
Proof.
  intros Hk Hpc Hs. unfold do_lease. destruct (acquire_lease (shared s) (my_id k) c t) as [st r] eqn:Ha.
  assert (Hv : cview <$> conns s !! c = Some (Identified, my_id k, kicked k)).
  { rewrite Hk. cbn. unfold cview. by rewrite Hpc. }
  destruct r as [d|].
  - intros Hw.
    assert (Hw' : no_wrap s) by (unfold no_wrap in *; destruct (option_map conn d); exact Hw).
    specialize (Hs Hw').
    assert (Hst : owner st = Some {| id := my_id k; conn := c |} /\ d = owner (shared s)).
    { unfold acquire_lease, lease_decision, has_owner in Ha.
      by destruct (owner (shared s)), t; simplify_eq/=. }
    destruct Hst as [Ho ->].
    replace (owner (shared _)) with (Some {| id := my_id k; conn := c |})
      by (by destruct (option_map conn (owner (shared s))); rewrite <- Ho).
    replace (next_id _) with (next_id s) by (by destruct (option_map conn (owner (shared s)))).
    eapply acquired_ok; [exact Hs|exact Hv|..].
    + destruct (owner (shared s)) as [o|] eqn:Hos; cbn; rewrite list_lookup_alter_eq.
      * rewrite list_lookup_alter_ne, Hk; [done|]. intros <-.
        pose proof (li_owner _ _ _ Hs o eq_refl) as Hvo. rewrite Hv in Hvo. done.
      * by rewrite Hk.
    + intros j Hj. destruct (owner (shared s)) as [o|] eqn:Hos; cbn;
        rewrite list_lookup_alter_ne by done.
      * rewrite list_lookup_alter. case_decide as E; case_decide as E'; try congruence.
        -- subst j. by destruct (conns s !! conn o).
        -- by destruct (conns s !! j).
      * by destruct (conns s !! j).
  - intros Hw. eapply (gone_ok _ _ _ c (put (Event.Busy true) k)).
    + exact (quiet_ok _ _ (quiet_write c (Event.Busy true) s) Hs Hw).
    + cbn. by rewrite list_lookup_alter_eq, Hk.
    + done.
    + cbn. by rewrite Hpc.
Qed.

(** ** Every step *)

Lemma gone_step c k s s1 : quiet s s1 -> conns s !! c = Some k ->
  (stage (pc k) = Holding -> kicked k = true) -> lease_ok s -> lease_ok (goto c PDone s1).
Proof.
  intros Hq Hk Hh Hs Hw. assert (Hs1 : lease_ok s1) by (by eapply quiet_ok).
  destruct Hq as (_ & _ & Hc). specialize (Hc c). rewrite Hk in Hc.
  destruct (conns s1 !! c) as [k1|] eqn:Hk1; [|done]. unfold cview in Hc. injection Hc as E1 E2 E3.
  eapply (gone_ok _ _ _ c k1); [exact (Hs1 Hw)|exact Hk1|done|]. by rewrite E1, E3.
Qed.

Lemma next_id_step c k t s : conns s !! c = Some k -> pc k = PNextId t -> lease_ok s ->
  lease_ok (goto c (PLease t)
    (on_conn c (set_id (next_id s mod (u64_max + 1))%Z) (with_next_id (next_id s + 1)%Z s))).
Proof.
  intros Hk Hpc Hs Hw. unfold no_wrap in Hw. cbn in Hw.
  assert (H : lease_inv (owner (shared s)) (next_id s) (conns s)) by (apply Hs; unfold no_wrap; lia).
  pose proof (li_next _ _ _ H). cbn. rewrite Z.mod_small, list_alter_alter_eq by lia.
  eapply identified_ok; [exact H|exact Hk|by rewrite Hpc|done].
Qed.

Section Steps.
Context {SJ : SerdeJson} (config : Config) (auth : AuthMode).

Lemma quiet_start c k env s : conns s !! c = Some k -> pc k = PStart -> quiet s (do_start config c env s).
Proof.
  intros Hk Hpc. unfold do_start. pose proof (start_locked_owner config env (shared s)) as Ho.
  destruct (start_locked config env (shared s)) as [st [[|p po cmd]|]]; cbn in Ho;
    (eapply quiet_goto_after; [|exact Hk|by rewrite Hpc]); [done| |done].
  by split_and!.
Qed.

Lemma stage_after_stop why b h : stage (after_stop why b h) = stage (PStop why).
Proof. by destruct why. Qed.

Lemma quiet_stop c k why s : conns s !! c = Some k -> pc k = PStop why -> quiet s (do_stop c why s).
Proof.
  intros Hk Hpc. unfold do_stop. pose proof (stop_locked_owner (shared s)) as Ho.
  destruct (stop_locked (shared s)) as [st []]; cbn in Ho;
    (eapply quiet_goto_after; [|exact Hk|rewrite Hpc]); [by split_and!|by destruct why|done|apply stage_after_stop].
Qed.

Lemma quiet_hear c t s : quiet s (on_conn c (hear t) s).
Proof. split_and!; [done|done|]. by apply same_alter_conn. Qed.

Lemma quiet_turn c k t s : conns s !! c = Some k -> pc k = PLoop ->
  quiet s (do_turn c t (on_conn c (hear t) s)).
Proof.
  intros Hk Hpc. by destruct t; (eapply quiet_goto_after; [apply quiet_hear|exact Hk|rewrite Hpc]).
Qed.

Lemma release_step c k s : conns s !! c = Some k -> pc k = PRelease -> lease_ok s ->
  lease_ok (goto c (PStop OwnerDrop) (with_shared (release_lease (shared s) (my_id k)) s)).
Proof.
  intros Hk Hpc Hs Hw. eapply release_lease_ok; [exact (Hs Hw)|exact Hk|by rewrite Hpc|done].
Qed.

Lemma quiet_shut c s : quiet s (on_conn c set_down s).
Proof. split_and!; [done|done|]. by apply same_alter_conn. Qed.

Lemma quiet_down c k why present h s : conns s !! c = Some k -> pc k = PDownHook why ->
  quiet s (goto c (after_stop why true h) (fire Down (Some why) None present s)).
Proof.
  intros Hk Hpc. eapply quiet_goto_after; [apply quiet_fire|exact Hk|].
  rewrite Hpc, stage_after_stop. by destruct why.
Qed.

Lemma conn_step_lease c k i s s' : conns s !! c = Some k -> lease_ok s ->
  conn_step config auth c k i s = Some s' -> lease_ok s'.
Proof.
  intros Hk Hs. unfold conn_step. destruct (pc k) eqn:Hpc, i; try done.
  all: repeat case_match; intros; simplify_eq; try exact Hs.
  all: try (eapply gone_step; [|exact Hk|by rewrite Hpc|exact Hs]; try done; apply quiet_write_all).
  all: try (eapply quiet_ok; [|exact Hs]; (eapply quiet_goto_after; [|exact Hk|rewrite Hpc; done]);
    try done; eauto using quiet_write, quiet_write_all, quiet_fire, quiet_end_sweep, quiet_kill).
  all: eauto using next_id_step, do_lease_step, release_step, quiet_ok, quiet_turn, quiet_start,
    quiet_stop, quiet_down, quiet_shut, quiet_trans, quiet_write.
Qed.

Lemma monitor_step_quiet i m j s s' : monitor_step config i m j s = Some s' -> quiet s s'.
Proof.
  unfold monitor_step. destruct (mpc m) as [| | |stop| |info|info|to info| | | |[|p ps] n|], j as [|[]| | |]; try done.
  - repeat case_match; intros; by simplify_eq.
  - by intros [= <-].
  - by intros [= <-].
  - destruct (escalate _ _ _) as [[sg|] v]; intros [= <-]; [|done]. apply quiet_signal.
  - by intros [= <-].
  - destruct (handle_core_exit_locked _ _) as [st expected] eqn:He. intros [= <-].
    split_and!; [|done|done]. cbn. rewrite <- (exit_locked_owner (shared s) (mpid m)). by rewrite He.
  - by intros [= <-].
  - intros [= <-]. destruct to; [apply quiet_write|done].
  - intros [= <-]. apply quiet_fire.
  - intros [= <-]. by case_match.
  - by intros [= <-].
  - intros [= <-]. by eapply quiet_trans; [apply quiet_end_sweep|].
  - destruct (kill_pid p ok s) as [s1 hit] eqn:Hk. intros [= <-]. by eapply quiet_trans; [by eapply quiet_kill|].
Qed.

(** A connection is accepted. *)
Lemma accept_ok p s : lease_ok s -> lease_ok (with_conns (conns s ++ [new_conn p])%list s).
Proof.
  intros Hs Hw. specialize (Hs Hw).
  assert (Hv : forall c x i q, cview <$> (conns s ++ [new_conn p])%list !! c = Some (x, i, q) ->
    cview <$> conns s !! c = Some (x, i, q) \/ x = Fresh /\ q = false).
  { intros c x i q Hc. destruct (decide (c < length (conns s))%nat) as [Hlt|Hge].
    - left. by rewrite lookup_app_l in Hc.
    - right. rewrite lookup_app_r in Hc by lia.
      destruct (c - length (conns s))%nat; cbn in Hc; [by injection Hc as <- _ <-|done]. }
  destruct Hs as [H1 H2 H3 H4 H5 H6]. constructor; [done|..]; cbn.
  - intros c x i q [Hc|[-> ->]]%Hv Hx; [by eapply H2|done].
  - intros c c' x x' i q q' [Hc|[-> ->]]%Hv [Hc'|[-> ->]]%Hv Hx Hx'; try done. by eapply H3.
  - intros c x i [Hc|[_ [=]]]%Hv. by eapply H4.
  - intros o Ho. specialize (H5 o Ho). rewrite lookup_app_l; [done|].
    destruct (conns s !! conn o) eqn:E; [|done]. by eapply lookup_lt_Some.
  - intros c i [Hc|[[=] _]]%Hv. by apply H6.
Qed.

Lemma step_lease_ok s l s' : lease_ok s -> step config auth s l = Some s' -> lease_ok s'.
Proof.
  intros Hs. unfold step. destruct (exited s); [done|]. destruct l as [p|c i|i j| |ms|i st|p cmd|i|h].
  - intros [= <-]. by apply accept_ok.
  - destruct (conns s !! c) eqn:Hk; [|done]. case_match; [done|]. by eapply conn_step_lease.
  - destruct (monitors s !! i) eqn:Hm; [|done]. destruct (blocked _ s); [done|]. intros Hst. by eapply quiet_ok; [eapply monitor_step_quiet|].
  - unfold timer_step. repeat case_match; intros; by simplify_eq.
  - case_match; intros; by simplify_eq.
  - repeat case_match; intros; by simplify_eq.
  - case_match; intros; by simplify_eq.
  - repeat case_match; intros; by simplify_eq.
  - by intros [= <-].
Qed.

Lemma initial_lease_ok : lease_ok initial.
Proof. intros _. constructor; cbn; done. Qed.

Lemma reachable_lease_ok s : reachable config auth s -> lease_ok s.
Proof. induction 1; [apply initial_lease_ok|by eapply step_lease_ok]. Qed.

(** ** What follows *)

(** C3: exactly the connection the lease names holds it: as long as the id counter
    has not wrapped around, the state's owner slot is [Some] of id [i] and
    connection [c] if and only if connection [c], with the id [i], has been
    granted the lease, has not given it up and has not been kicked.  So two
    connections never both believe to be the owner. *)
Theorem lease_owner_iff s c i : reachable config auth s -> (next_id s <= u64_max + 1)%Z ->
  (owner (shared s) = Some {| id := i; conn := c |} <->
   exists k, conns s !! c = Some k /\ stage (pc k) = Holding /\ my_id k = i /\ kicked k = false).
Proof.
  intros Hr Hw. pose proof (reachable_lease_ok s Hr Hw) as H. split.
  - intros Ho. pose proof (li_owner _ _ _ H _ Ho) as Hv. cbn in Hv.
    destruct (conns s !! c) as [k|] eqn:Hk; [|done]. unfold cview in Hv. cbn in Hv.
    injection Hv as Hst Hi Hq. eauto.
  - intros (k & Hk & Hst & Hi & Hq). apply (li_holding _ _ _ H). rewrite Hk. unfold cview. cbn.
    by rewrite Hst, Hi, Hq.
Qed.

End Steps.

(** ** Witness *)

Import Schedule.

(** A second client has taken the lease over from the first. *)
Definition taken_over_schedule : list Label :=
  connects 0 false ++ greeted 0 ++ connects 1 true ++ greeted_over 1.
Definition taken_over : Sys := default initial (run taken_over_schedule).

Lemma taken_over_reachable : reachable taken_over.
Proof.
  apply (run_reachable the_config the_auth taken_over_schedule initial); [constructor|].
  vm_compute. reflexivity.
Qed.

Lemma lease_owner_iff_witness :
  wire_of 0 taken_over = [Event.Hello 1 "0.1.0" CoreState.Stopped None; Event.Kicked] /\
  exists k, conns taken_over !! 1 = Some k /\ stage (pc k) = Holding /\ my_id k = 2%Z /\ kicked k = false.
Proof.
  split; [vm_compute; reflexivity|].
  apply (lease_owner_iff the_config the_auth taken_over 1 2 taken_over_reachable).
  - vm_compute. discriminate.
  - vm_compute. reflexivity.
Defined.
