(* ===== verification/AuthInv.v ===== *)
(** * Peers that are refused: what holds in every reachable state

    A connection of a uid that is not allowed gets no answer, no push and no
    lease. *)

From Stdlib Require Import ZArith Lia String.
From stdpp Require Import base list strings gmap.
From S2P Require Import Prelude RustStr Json JsonText Proto ClientProto Config Auth Hooks CoreProc Janitor Server Supervisor Schedules LeaseInv.
Import Proto.

Section Refused.
Context {SJ : SerdeJson} (config : Config) (auth : AuthMode).

Definition permitted (k : Conn) : bool :=
  match peer k with Ok uid => allows auth uid | Err _ => false end.

(** The connection has done nothing yet, or was dropped at the gate. *)
Definition inert (k : Conn) : Prop := (pc k = PAuth \/ pc k = PDone) /\ wire k = [].

Definition permitted_at (cs : list Conn) (c : nat) : Prop := permitted <$> cs !! c = Some true.

(** Everybody the state, a thread or a monitor is about to write to was let in. *)
Record auth_inv (ow : option OwnerSlot) (cs : list Conn) (ms : gmap nat Monitor) : Prop := {
  ai_conn c k : cs !! c = Some k -> permitted k = true \/ inert k;
  ai_owner o : ow = Some o -> permitted_at cs (conn o);
  ai_notify c k o : cs !! c = Some k -> pc k = PNotify (Some o) -> permitted_at cs o;
  ai_push i m o info : ms !! i = Some m -> mpc m = MPushTo (Some o) info -> permitted_at cs o
}.

Definition auth_ok (s : Sys) : Prop := auth_inv (owner (shared s)) (conns s) (monitors s).

Definition keeps_peer (f : Conn -> Conn) : Prop := forall k, peer (f k) = peer k.

Lemma permitted_alter f c cs o : keeps_peer f -> permitted_at cs o -> permitted_at (alter f c cs) o.
Proof.
  unfold permitted_at, permitted. intros Hf. rewrite list_lookup_alter. case_decide; [subst o|done].
  destruct (cs !! c) as [k|]; [|done]. cbn. by rewrite Hf.
Qed.

(** A connection that was let in moves. *)
Lemma alter_ok ow cs ms c f : auth_inv ow cs ms -> permitted_at cs c -> keeps_peer f ->
  (forall k o, cs !! c = Some k -> pc (f k) = PNotify (Some o) -> permitted_at cs o) ->
  auth_inv ow (alter f c cs) ms.
Proof.
  intros [H1 H2 H3 H4] Hc Hf Hn. constructor.
  - intros j k. rewrite list_lookup_alter. case_decide; [subst j|apply H1].
    unfold permitted_at in Hc. destruct (cs !! c) as [k0|]; [|done]. cbn in *.
    intros [= <-]. left. injection Hc as Hc. unfold permitted in *. by rewrite Hf.
  - intros o Ho. apply permitted_alter; auto.
  - intros j k o Hj Hpc. apply permitted_alter; [done|]. rewrite list_lookup_alter in Hj.
    case_decide; [subst j|by eapply H3]. destruct (cs !! c) as [k0|] eqn:Hk0; [|done].
    cbn in Hj. injection Hj as <-. by eapply Hn.
  - intros i m o info Hm Hp. apply permitted_alter; [done|]. by eapply H4.
Qed.

Lemma on_conn_ok c f s : auth_ok s -> permitted_at (conns s) c -> keeps_peer f ->
  (forall k, pc (f k) = pc k) -> auth_ok (on_conn c f s).
Proof.
  intros H Hc Hf Hpc. apply alter_ok; [done|done|done|]. intros k o Hk. rewrite Hpc.
  by eapply ai_notify.
Qed.

Lemma goto_auth c p s : auth_ok s -> permitted_at (conns s) c ->
  (forall o, p = PNotify (Some o) -> permitted_at (conns s) o) -> auth_ok (goto c p s).
Proof. intros H Hc Hp. apply alter_ok; [done|done|done|]. intros k o _. apply Hp. Qed.

Lemma write_auth c ev s : auth_ok s -> permitted_at (conns s) c -> auth_ok (write c ev s).
Proof. intros H Hc. by apply on_conn_ok. Qed.

Lemma permitted_write c ev o s : permitted_at (conns s) o -> permitted_at (conns (write c ev s)) o.
Proof. by apply permitted_alter. Qed.

Lemma write_all_auth c evs : forall s, auth_ok s -> permitted_at (conns s) c ->
  auth_ok (write_all c evs s) /\ permitted_at (conns (write_all c evs s)) c.
Proof.
  induction evs as [|ev evs IH]; intros s H Hc; [done|]. cbn. apply IH; [by apply write_auth|].
  by apply permitted_write.
Qed.

(** The state changes, but not its owner. *)
Lemma shared_auth st s : owner st = owner (shared s) -> auth_ok s -> auth_ok (with_shared st s).
Proof. intros Ho H. unfold auth_ok. cbn. by rewrite Ho. Qed.

Lemma fire_auth ev why gen present s : auth_ok s -> auth_ok (fire ev why gen present s).
Proof. unfold fire. by destruct present. Qed.

Lemma fire_conns ev why gen present s : conns (fire ev why gen present s) = conns s.
Proof. unfold fire. by destruct present. Qed.

Lemma end_sweep_auth n present s : auth_ok s -> auth_ok (end_sweep n present s).
Proof. intros H. unfold end_sweep. case_match; [apply fire_auth|]; exact H. Qed.

Lemma end_sweep_conns n present s : conns (end_sweep n present s) = conns s.
Proof. unfold end_sweep. case_match; [by rewrite fire_conns|done]. Qed.

Lemma kill_auth p ok s s1 hit : kill_pid p ok s = (s1, hit) -> auth_ok s ->
  auth_ok s1 /\ conns s1 = conns s.
Proof. intros H Hs. destruct (kill_pid_procs p ok s) as (ps & E & _). rewrite H in E. cbn in E. by subst s1. Qed.

(** A monitor moves; it only picks a connection to write to from the owner slot. *)
Lemma monitor_auth i f s : auth_ok s ->
  (forall m o info, monitors s !! i = Some m -> mpc (f m) = MPushTo (Some o) info ->
     permitted_at (conns s) o) -> auth_ok (on_monitor i f s).
Proof.
  intros [H1 H2 H3 H4] Hf. constructor; cbn; [done|done|done|].
  intros j m o info Hm Hp. apply lookup_alter_Some in Hm as [(<- & m0 & Hm & ->)|[_ Hm]]; [|by eapply H4].
  by eapply Hf.
Qed.

Lemma insert_monitor_auth i m s : auth_ok s -> mpc m = MUnborn ->
  auth_ok (with_monitors (<[i := m]> (monitors s)) s).
Proof.
  intros [H1 H2 H3 H4] Hm. constructor; cbn; [done|done|done|].
  intros j n o info [[<- <-]|[_ Hn]]%lookup_insert_Some Hp; [congruence|by eapply H4].
Qed.

(** *** Steps of a connection *)

Lemma gate_auth c k p s : auth_ok s -> conns s !! c = Some k -> pc k = PAuth ->
  p = PHello /\ permitted k = true \/ p = PDone -> auth_ok (goto c p s).
Proof.
  intros H Hk Hpc [[-> Hp]| ->].
  - apply goto_auth; [done| |done]. unfold permitted_at. rewrite Hk. cbn. by rewrite Hp.
  - destruct (ai_conn _ _ _ H c k Hk) as [Hp|[_ Hw]].
    + apply goto_auth; [done| |done]. unfold permitted_at. rewrite Hk. cbn. by rewrite Hp.
    + destruct H as [H1 H2 H3 H4].
      assert (Hkeep : forall o, permitted_at (conns s) o ->
        permitted_at (alter (set_pc PDone) c (conns s)) o) by (intros o; by apply permitted_alter).
      constructor; cbn.
      * intros j k'. rewrite list_lookup_alter. case_decide; [subst j|apply H1]. rewrite Hk. cbn.
        intros [= <-]. right. split; [by right|done].
      * eauto.
      * intros j k' o. rewrite list_lookup_alter. case_decide; [subst j|eauto]. rewrite Hk. cbn.
        by intros [= <-].
      * eauto.
Qed.

Lemma lease_auth c k t s : auth_ok s -> permitted_at (conns s) c -> auth_ok (do_lease c k t s).
Proof.
  intros H Hc. unfold do_lease, acquire_lease.
  destruct (lease_decision (has_owner (shared s)) t).
  - apply goto_auth; [|done|done].
    destruct H as [H1 H2 H3 H4]. constructor; cbn; [done| |done|done]. by intros o [= <-].
  - apply goto_auth; [by apply write_auth|by apply permitted_write|done].
  - set (s1 := with_shared _ s).
    assert (H1 : auth_ok s1).
    { destruct H as [H1 H2 H3 H4]. constructor; cbn; [done| |done|done]. by intros o [= <-]. }
    destruct (owner (shared s)) as [o|] eqn:Ho; cbn; [|by apply goto_auth].
    assert (Hp : permitted_at (conns s) (conn o)) by (by apply (ai_owner _ _ _ H)).
    apply goto_auth.
    + by apply on_conn_ok.
    + by apply permitted_alter.
    + intros o' [= <-]. by apply permitted_alter.
Qed.

Lemma start_auth c env s : auth_ok s -> permitted_at (conns s) c -> auth_ok (do_start config c env s).
Proof.
  intros H Hc. unfold do_start. pose proof (start_locked_owner config env (shared s)) as Ho.
  destruct (start_locked config env (shared s)) as [st [[|p po cmd]|]]; cbn in Ho;
    (apply goto_auth; [|done|done]); [done| |done].
  apply shared_auth; [done|].
  exact (insert_monitor_auth (length (procs s)) (new_monitor p) s H eq_refl).
Qed.

Lemma stop_auth c why s : auth_ok s -> permitted_at (conns s) c -> auth_ok (do_stop c why s).
Proof.
  intros H Hc. unfold do_stop. pose proof (stop_locked_owner (shared s)) as Ho.
  destruct (stop_locked (shared s)) as [st []]; cbn in Ho; apply goto_auth; try done; try by destruct why.
  by apply shared_auth.
Qed.

Lemma release_auth me s : auth_ok s -> auth_ok (with_shared (release_lease (shared s) me) s).
Proof.
  intros H. unfold release_lease. destruct (owner (shared s)) as [o|] eqn:Ho; [|done].
  case_match; [|done]. destruct H as [H1 H2 H3 H4]. by constructor.
Qed.

Lemma turn_auth c t s : auth_ok s -> permitted_at (conns s) c -> auth_ok (do_turn c t s).
Proof. intros H Hc. by destruct t; apply goto_auth. Qed.

Lemma after_stop_notify why b h o : after_stop why b h <> PNotify (Some o).
Proof. by destruct why. Qed.

(** Only a connection that was let in leaves [PAuth]. *)
Lemma past_gate c k s : auth_ok s -> conns s !! c = Some k -> pc k <> PAuth -> pc k <> PDone ->
  permitted_at (conns s) c.
Proof.
  intros H Hk Ha Hd. destruct (ai_conn _ _ _ H c k Hk) as [Hp|[[|] _]]; [|done..].
  unfold permitted_at. rewrite Hk. cbn. by rewrite Hp.
Qed.

Lemma conn_step_auth c k i s s' : auth_ok s -> conns s !! c = Some k ->
  conn_step config auth c k i s = Some s' -> auth_ok s'.
Proof.
  intros H Hk. pose proof (past_gate c k s H Hk) as Hg. unfold conn_step.
  destruct (pc k) eqn:Hpc, i; try done; try specialize (Hg ltac:(done) ltac:(done));
    try (by destruct displaced); try (by destruct targets).
  - intros [= <-]. destruct (peer k) as [uid|] eqn:Hp; (eapply gate_auth; [done|done|done|]); [|by right].
    case_match eqn:Ha; [|by right]. apply andb_prop in Ha as [Ha _]. left. unfold permitted. by rewrite Hp.
  - destruct (read_hello r) as [t evs]. intros [= <-].
    destruct (write_all_auth c evs s H Hg). apply goto_auth; [done|done|by destruct t].
  - intros [= <-]. apply goto_auth; [|by apply permitted_alter|done]. by apply on_conn_ok.
  - intros [= <-]. by apply lease_auth.
  - destruct displaced; intros [= <-]. by apply goto_auth.
  - destruct displaced as [o|]; intros [= <-].
    pose proof (ai_notify _ _ _ H c k o Hk Hpc) as Ho.
    destruct free; (apply goto_auth; [|by repeat apply permitted_alter|done]);
      (apply on_conn_ok; [|by repeat apply permitted_alter|done|done]); [by apply write_auth|done].
  - destruct (core_snapshot _) as [[co p] po]. intros [= <-]. by apply goto_auth.
  - intros [= <-]. apply goto_auth; [by apply write_auth|by apply permitted_write|done].
  - intros [= <-]. apply turn_auth; [by apply on_conn_ok|by apply permitted_alter].
  - intros [= <-]. apply goto_auth; [by apply write_auth|by apply permitted_write|done].
  - destruct (core_snapshot _) as [[co p] po]. intros [= <-]. by apply goto_auth.
  - case_match; intros [= <-]. by apply start_auth.
  - intros [= <-]. apply goto_auth; [|done|done]. apply monitor_auth; [done|].
    intros m o info Hm. unfold spawn_monitor. case_match; cbn; try done; try congruence.
    intros Hp. by eapply (ai_push _ _ _ H child).
  - intros [= <-]. apply goto_auth; [by apply fire_auth|by rewrite fire_conns|done].
  - intros [= <-]. by apply stop_auth.
  - intros [= <-]. case_match; [|done]. by apply goto_auth.
  - intros [= <-]. apply goto_auth; [by apply fire_auth|by rewrite fire_conns|].
    intros o Ho. by apply after_stop_notify in Ho.
  - intros [= <-]. by case_match; apply goto_auth.
  - intros [= <-]. apply goto_auth; [by apply release_auth|done|done].
  - intros [= <-]. by apply goto_auth.
  - destruct targets; intros [= <-].
    apply goto_auth; [by apply end_sweep_auth|by rewrite end_sweep_conns|by destruct hook].
  - destruct targets as [|p ps]; [done|]. destruct (kill_pid p ok s) as [s1 hit] eqn:Hkill. intros [= <-].
    destruct (kill_auth _ _ _ _ _ Hkill H) as [H1 H2]. apply goto_auth; [done|by rewrite H2|done].
  - case_match; [|done]. case_match; intros [= <-]. by apply goto_auth.
  - by intros [= <-].
Qed.

(** *** Steps of a monitor *)

Lemma monitor_step_auth i m j s s' : auth_ok s -> monitors s !! i = Some m ->
  monitor_step config i m j s = Some s' -> auth_ok s'.
Proof.
  intros H Hm. unfold monitor_step. destruct (mpc m) as [| | |stop| |info|info|to info| | | |[|p ps] n|] eqn:Hpc, j as [|[]| | |]; try done.
  - repeat case_match; intros; simplify_eq; by apply monitor_auth.
  - intros [= <-]. by apply monitor_auth.
  - intros [= <-]. by apply monitor_auth.
  - destruct (escalate _ _ _) as [[sg|] v]; intros [= <-]; apply monitor_auth; try done.
    unfold send_signal. by destruct sg, (holder (mpid m) (procs s) 0).
  - intros [= <-]. by apply monitor_auth.
  - destruct (handle_core_exit_locked _ _) as [st expected] eqn:He. intros [= <-].
    apply monitor_auth; [|by destruct expected].
    apply shared_auth; [|done]. rewrite <- (exit_locked_owner (shared s) (mpid m)). by rewrite He.
  - intros [= <-]. apply monitor_auth; [done|]. intros m' o info' _ [= Ho _].
    destruct (owner (shared s)) as [ow|] eqn:How; [|done]. injection Ho as <-.
    by apply (ai_owner _ _ _ H).
  - intros [= <-]. apply monitor_auth; [|done]. destruct to as [o|]; [|done].
    apply write_auth; [done|]. by eapply (ai_push _ _ _ H).
  - intros [= <-]. apply monitor_auth; [by apply fire_auth|done].
  - intros [= <-]. by case_match; apply monitor_auth.
  - intros [= <-]. by apply monitor_auth.
  - intros [= <-]. apply monitor_auth; [by apply end_sweep_auth|done].
  - destruct (kill_pid p ok s) as [s1 hit] eqn:Hkill. intros [= <-].
    destruct (kill_auth _ _ _ _ _ Hkill H) as [H1 H2]. by apply monitor_auth.
Qed.

Lemma accept_auth p s : auth_ok s -> auth_ok (with_conns (conns s ++ [new_conn p])%list s).
Proof.
  intros [H1 H2 H3 H4].
  assert (Hkeep : forall o, permitted_at (conns s) o -> permitted_at (conns s ++ [new_conn p])%list o).
  { unfold permitted_at. intros o. destruct (conns s !! o) as [k|] eqn:Hk; [|done].
    by rewrite (lookup_app_l_Some _ _ _ _ Hk). }
  assert (Hnew : forall c k, (conns s ++ [new_conn p])%list !! c = Some k ->
    conns s !! c = Some k \/ k = new_conn p).
  { intros c k [Hk|[_ Hk]]%lookup_app_Some; [by left|right].
    by apply list_lookup_singleton_Some in Hk as [_ <-]. }
  constructor; cbn.
  - intros c k [Hk| ->]%Hnew; [by eapply H1|]. right. by split; [left|].
  - eauto.
  - intros c k o [Hk| ->]%Hnew Hp; [by eauto|done].
  - eauto.
Qed.

Lemma step_auth s l s' : auth_ok s -> step config auth s l = Some s' -> auth_ok s'.
Proof.
  intros Hs. unfold step. destruct (exited s); [done|]. destruct l as [p|c i|i j| |ms|i st|p cmd|i|h].
  - intros [= <-]. by apply accept_auth.
  - destruct (conns s !! c) eqn:Hk; [|done]. case_match; [done|]. by eapply conn_step_auth.
  - destruct (monitors s !! i) eqn:Hm; [|done]. case_match; [done|]. by eapply monitor_step_auth.
  - unfold timer_step. repeat case_match; intros; by simplify_eq.
  - case_match; intros; by simplify_eq.
  - repeat case_match; intros; by simplify_eq.
  - case_match; intros; by simplify_eq.
  - repeat case_match; intros; by simplify_eq.
  - by intros [= <-].
Qed.

Lemma reachable_auth s : reachable config auth s -> auth_ok s.
Proof.
  induction 1; [|by eapply step_auth]. constructor; cbn; done.
Qed.

(** C16: a peer whose uid the mode does not allow, or cannot be read, gets nothing:
    in every reachable state its connection is either not looked at yet or closed,
    nothing was ever written to it, and it does not own the supervisor. *)
Theorem refused_peer_gets_nothing s c k : reachable config auth s -> conns s !! c = Some k ->
  match peer k with Ok uid => allows auth uid | Err _ => false end = false ->
  (pc k = PAuth \/ pc k = PDone) /\ wire k = [] /\ option_map conn (owner (shared s)) <> Some c.
Proof.
  intros Hr Hk Hp. pose proof (reachable_auth s Hr) as H. fold (permitted k) in Hp.
  destruct (ai_conn _ _ _ H c k Hk) as [|[Hpc Hw]]; [congruence|]. split_and!; [done|done|].
  destruct (owner (shared s)) as [o|] eqn:Ho; [|done]. intros [= <-].
  pose proof (ai_owner _ _ _ H o Ho) as Hpo. unfold permitted_at in Hpo. rewrite Hk in Hpo. cbn in Hpo.
  congruence.
Qed.

End Refused.

(** ** Witness *)

Import Schedule.

(** A stranger connects next to the owner. *)
Definition stranger_schedule : list Label :=
  connects 0 false ++ greeted 0 ++ [LAccept (Ok 502%Z); LConn 1 (IClone true)].
Definition stranger : Sys := default initial (run stranger_schedule).

Lemma stranger_reachable : reachable stranger.
Proof.
  apply (run_reachable the_config the_auth stranger_schedule initial); [constructor|].
  vm_compute. reflexivity.
Qed.

Lemma refused_peer_gets_nothing_witness : exists k, conns stranger !! 1 = Some k /\
  pc k = PDone /\ wire k = [] /\ option_map conn (owner (shared stranger)) = Some 0.
Proof.
  eexists. split; [vm_compute; reflexivity|].
  destruct (refused_peer_gets_nothing the_config the_auth stranger 1
    {| pc := PDone; peer := Ok 502%Z; my_id := 0; kicked := false; heard := []; wire := []; live := true |}
    stranger_reachable ltac:(vm_compute; reflexivity) ltac:(vm_compute; reflexivity)) as (_ & Hw & _).
  split_and!; [reflexivity|exact Hw|vm_compute; reflexivity].
Defined.
