(* ===== verification/HookInv.v ===== *)
(** * The [down] hook of a crash: what holds in every reachable state

    The [core_exited] hook is run at most once for each core, and only for a core
    nobody asked to stop. *)

From Stdlib Require Import ZArith Lia String.
From stdpp Require Import base list strings gmap.
From S2P Require Import Prelude RustStr Json JsonText Proto ClientProto Config Auth Hooks CoreProc Janitor Server Supervisor Schedules ProcInv.
Import Proto.

(** The monitor found that its core exited unasked. *)
Definition crashed_at (p : MPc) : bool :=
  match p with MPush _ | MPushTo _ _ | MDown | MGuard | MPs | MKill _ _ => true | _ => false end.

(** The monitor has run the hook. *)
Definition reported (p : MPc) : bool :=
  match p with MGuard | MPs | MKill _ _ | MDone => true | _ => false end.

(** The generations a [core_exited] hook was run for. *)
Definition reports (fs : list Firing) : list nat := omap about fs.

Record hook_inv (co : CoreProc) (ms : gmap nat Monitor) (n cu : nat) (rq : list nat)
    (fs : list Firing) : Prop := {
  hi_bound i : i ∈ rq -> (i < n)%nat;
  hi_flag r : co = Running r -> (stop_requested r = true <-> cu ∈ rq);
  hi_cur r : co = Running r -> (cu < n)%nat;
  hi_crashed i m : ms !! i = Some m -> crashed_at (mpc m) = true -> i ∉ rq;
  hi_reports i : i ∈ reports fs -> i ∉ rq /\ exists m, ms !! i = Some m /\ reported (mpc m) = true;
  hi_once : NoDup (reports fs);
  hi_reason f i : f ∈ fs -> about f = Some i -> f_event f = Down /\ f_reason f = Some Hooks.CoreExited
}.

Definition hook_ok (s : Sys) : Prop :=
  hook_inv (core (shared s)) (monitors s) (length (procs s)) (cur s) (requested s) (fired s).

(** A hook that is not about a crash. *)
Lemma other_fired ev why present s : reports (fired (fire ev why None present s)) = reports (fired s).
Proof.
  unfold fire, reports. destruct present; cbn; rewrite omap_app; cbn; by rewrite app_nil_r.
Qed.

(** ** Each kind of step *)

(** A hook that is not about a crash is run. *)
Lemma hook_fired co ms n cu rq fs fs' : hook_inv co ms n cu rq fs -> reports fs' = reports fs ->
  (forall f i, f ∈ fs' -> about f = Some i -> f ∈ fs) -> hook_inv co ms n cu rq fs'.
Proof. intros [H1 H2 H3 H4 H5 H6 H7] Hr Hf. constructor; rewrite ?Hr; eauto. Qed.

Lemma fire_hook ev why present s : hook_ok s -> hook_ok (fire ev why None present s).
Proof.
  intros H.
  assert (Hf : hook_inv (core (shared s)) (monitors s) (length (procs s)) (cur s) (requested s)
    (fired (fire ev why None present s))).
  { eapply hook_fired; [exact H|apply other_fired|]. intros f i Hf Ha.
    assert (Hf' : f ∈ (fired s ++ [{| f_event := ev; f_reason := why; about := None; ran := present |}])%list)
      by (unfold fire in Hf; by destruct present).
    apply elem_of_app in Hf' as [|Hl]; [done|]. apply list_elem_of_singleton in Hl. by subst f. }
  unfold fire in *. by destruct present.
Qed.

(** Processes change, the number of them does not. *)
Lemma procs_hook ps s : length ps = length (procs s) -> hook_ok s -> hook_ok (with_procs ps s).
Proof. intros Hl H. unfold hook_ok. cbn. by rewrite Hl. Qed.

Lemma monitor_hook i m f s : hook_ok s -> monitors s !! i = Some m ->
  (crashed_at (mpc (f m)) = true -> crashed_at (mpc m) = true) ->
  (reported (mpc m) = true -> reported (mpc (f m)) = true) -> hook_ok (on_monitor i f s).
Proof.
  intros [H1 H2 H3 H4 H5 H6 H7] Hm Hc Hr. unfold hook_ok. cbn. rewrite (alter_known _ _ m) by done.
  constructor; auto.
  - intros j n [[<- <-]|[_ Hj]]%lookup_insert_Some; eauto.
  - intros j Hj. destruct (H5 j Hj) as (Hn & n & Hln & Hrn). split; [done|].
    destruct (decide (i = j)) as [<-|Hne].
    + exists (f m). rewrite lookup_insert_eq. simplify_eq. auto.
    + exists n. by rewrite lookup_insert_ne.
Qed.

Lemma spawn_hook s q p r : proc_ok s -> hook_ok s -> stop_requested r = false ->
  hook_inv (Running r) (<[length (procs s) := new_monitor p]> (monitors s))
    (length (procs s ++ [q])%list) (length (procs s)) (requested s) (fired s).
Proof.
  intros Hp [H1 H2 H3 H4 H5 H6 H7] Hr. rewrite length_app. cbn. constructor; auto.
  - intros i Hi. specialize (H1 i Hi). lia.
  - intros r' [= <-]. rewrite Hr. split; [done|]. intros Hi%H1. lia.
  - intros _ _. lia.
  - intros i m [[<- <-]|[_ Hm]]%lookup_insert_Some; [done|eauto].
  - intros i Hi. destruct (H5 i Hi) as (Hn & m & Hm & Hrm). split; [done|]. exists m.
    pose proof (monitor_bound s i m Hp Hm). rewrite lookup_insert_ne by lia. done.
Qed.

Lemma stop_hook s r : proc_ok s -> hook_ok s -> core (shared s) = Running r ->
  hook_inv (Running {| pid := pid r; rpc_port := rpc_port r; stop_requested := true |}) (monitors s)
    (length (procs s)) (cur s) (cur s :: requested s) (fired s).
Proof.
  intros Hp [H1 H2 H3 H4 H5 H6 H7] Hr.
  destruct (pi_core _ _ _ _ _ Hp r Hr) as (m & Hm & Hf & _).
  assert (Hno : forall i n, monitors s !! i = Some n -> inflight (mpc n) = false -> i <> cur s).
  { intros i n Hn Hi ->. congruence. }
  constructor; auto.
  - intros i [->|Hi]%elem_of_cons; eauto.
  - intros r' [= <-]. cbn. rewrite elem_of_cons. split; auto.
  - intros r' _. eauto.
  - intros i n Hn Hc. rewrite not_elem_of_cons. split; [|by eapply H4].
    apply (Hno i n Hn). by destruct (mpc n).
  - intros i Hi. destruct (H5 i Hi) as (Hni & n & Hn & Hrn). split; [|eauto].
    rewrite not_elem_of_cons. split; [|done]. apply (Hno i n Hn). by destruct (mpc n).
Qed.

Lemma clear_hook s i m info st expected : proc_ok s -> hook_ok s -> monitors s !! i = Some m ->
  mpc m = MExit info -> handle_core_exit_locked (shared s) (mpid m) = (st, expected) ->
  hook_ok (on_monitor i (set_mpc (if expected then MDone else MPush info)) (with_shared st s)).
Proof.
  intros Hp H Hm Hpc He. destruct (pi_flight _ _ _ _ _ Hp i m Hm) as (-> & r & Hr & Hpid); [by rewrite Hpc|].
  unfold handle_core_exit_locked in He. rewrite Hr, Hpid, Z.eqb_refl in He. injection He as <- <-.
  destruct H as [H1 H2 H3 H4 H5 H6 H7]. unfold hook_ok. cbn. rewrite (alter_known _ _ m) by done.
  constructor; auto; try done.
  - intros j n [[<- <-]|[_ Hj]]%lookup_insert_Some Hc; [|eauto]. cbn in Hc.
    rewrite <- (H2 r Hr). by destruct (stop_requested r).
  - intros j Hj. destruct (H5 j Hj) as (Hni & n & Hn & Hrn). split; [done|]. exists n.
    rewrite lookup_insert_ne; [done|]. intros <-. simplify_eq. by rewrite Hpc in Hrn.
Qed.

Lemma report_hook s i m present : hook_ok s -> monitors s !! i = Some m -> mpc m = MDown ->
  hook_ok (on_monitor i (set_mpc MGuard) (fire Down (Some Hooks.CoreExited) (Some i) present s)).
Proof.
  intros [H1 H2 H3 H4 H5 H6 H7] Hm Hpc.
  set (f := {| f_event := Down; f_reason := Some Hooks.CoreExited; about := Some i; ran := present |}).
  assert (Hi : i ∉ reports (fired s)).
  { intros Hi. destruct (H5 i Hi) as (_ & n & Hn & Hrn). simplify_eq. by rewrite Hpc in Hrn. }
  assert (H : hook_inv (core (shared s)) (<[i := set_mpc MGuard m]> (monitors s)) (length (procs s))
    (cur s) (requested s) (fired s ++ [f])%list).
  { assert (Hrep : reports (fired s ++ [f])%list = (reports (fired s) ++ [i])%list)
      by (unfold reports; by rewrite omap_app).
    constructor; rewrite ?Hrep; auto.
    - intros j n [[<- <-]|[_ Hj]]%lookup_insert_Some Hc; [|eauto]. apply (H4 i m Hm). by rewrite Hpc.
    - intros j [Hj|Hj]%elem_of_app.
      + destruct (H5 j Hj) as (Hni & n & Hn & Hrn). split; [done|]. exists n.
        rewrite lookup_insert_ne; [done|]. by intros <-.
      + apply list_elem_of_singleton in Hj. subst j. split; [apply (H4 i m Hm); by rewrite Hpc|].
        eexists. by rewrite lookup_insert_eq.
    - apply NoDup_app. split_and!; [done| |apply NoDup_singleton].
      intros j Hj ->%list_elem_of_singleton. done.
    - intros g j [Hg|Hg]%elem_of_app Ha; [eauto|]. apply list_elem_of_singleton in Hg. by subst g. }
  unfold hook_ok, fire. destruct present; cbn; by rewrite (alter_known _ _ m).
Qed.

(** ** Every step *)

Lemma hook_core st s : hook_ok s -> core st = core (shared s) -> hook_ok (with_shared st s).
Proof. intros H Hc. unfold hook_ok. cbn. by rewrite Hc. Qed.

Lemma write_all_hook c evs : forall s, hook_ok s -> hook_ok (write_all c evs s).
Proof. induction evs as [|e evs IH]; intros s Hs; cbn; [done|]. by apply IH. Qed.

Lemma goto_hook c p s : hook_ok s -> hook_ok (goto c p s).
Proof. done. Qed.

Lemma born_hook i s : hook_ok s -> hook_ok (on_monitor i spawn_monitor s).
Proof.
  intros H. destruct (monitors s !! i) as [m|] eqn:Hm.
  - eapply monitor_hook; [done|done|..]; unfold spawn_monitor; by destruct (mpc m) eqn:Hpc; cbn; rewrite ?Hpc.
  - unfold hook_ok. cbn. rewrite alter_id; [done|]. congruence.
Qed.

Lemma signal_hook i p sg s : hook_ok s -> hook_ok (send_signal i p sg s).
Proof.
  intros H. unfold send_signal. destruct sg, (holder p (procs s) 0); try exact H.
  exact (procs_hook _ s (length_alter killed_proc (procs s) n) H).
Qed.

Section Steps.
Context {SJ : SerdeJson} (config : Config) (auth : AuthMode).

Lemma end_sweep_hook n present s : hook_ok s -> hook_ok (end_sweep n present s).
Proof. intros H. unfold end_sweep. case_match; [by apply fire_hook|done]. Qed.

Lemma kill_hook p ok s s1 hit : hook_ok s -> kill_pid p ok s = (s1, hit) -> hook_ok s1.
Proof.
  intros H Hk. destruct (kill_pid_procs p ok s) as (ps & E & Hps). rewrite Hk in E. cbn in E. subst s1.
  apply procs_hook; [|done]. destruct Hps as [->|(j & _ & ->)]; [done|apply length_alter].
Qed.

Lemma do_start_hook c env s : proc_ok s -> hook_ok s -> hook_ok (do_start config c env s).
Proof.
  intros Hp Hs. unfold do_start. destruct (start_locked config env (shared s)) as [st r] eqn:Hst.
  unfold start_locked, pick_free_port, build_command in Hst.
  destruct (core (shared s)) as [|c0] eqn:Hc; [|injection Hst as <- <-; exact Hs].
  destruct (free_port env), (log_opened env), (spawned env) as [p|]; cbn in Hst;
    injection Hst as <- <-; try exact Hs.
  unfold hook_ok. cbn. by apply spawn_hook.
Qed.

Lemma do_stop_hook c why s : proc_ok s -> hook_ok s -> hook_ok (do_stop c why s).
Proof.
  intros Hp Hs. unfold do_stop, stop_locked. destruct (core (shared s)) as [|r] eqn:Hc; [exact Hs|].
  unfold hook_ok. cbn. by apply stop_hook.
Qed.

Lemma do_lease_hook c k t s : hook_ok s -> hook_ok (do_lease c k t s).
Proof.
  intros Hs. unfold do_lease. pose proof (lease_core (shared s) (my_id k) c t) as Hc.
  destruct (acquire_lease _ _ _ _) as [st [d|]]; cbn in Hc; [|exact Hs].
  pose proof (hook_core st s Hs Hc) as H. by destruct (option_map conn d).
Qed.

Lemma turn_hook c t s : hook_ok s -> hook_ok (do_turn c t s).
Proof. by destruct t. Qed.

Lemma release_hook s me : hook_ok s -> hook_ok (with_shared (release_lease (shared s) me) s).
Proof. intros Hs. apply hook_core; [done|]. apply release_core. Qed.

Lemma conn_step_hook c k i s s' : proc_ok s -> hook_ok s ->
  conn_step config auth c k i s = Some s' -> hook_ok s'.
Proof.
  intros Hp Hs. unfold conn_step.
  destruct (pc k), i; try done; repeat case_match; intros; simplify_eq;
    try exact Hs; auto using goto_hook, do_start_hook, do_stop_hook, do_lease_hook, fire_hook,
      end_sweep_hook, write_all_hook, born_hook, turn_hook, release_hook.
  apply goto_hook. by eapply kill_hook.
Qed.

Lemma monitor_step_hook i m j s s' : proc_ok s -> hook_ok s -> monitors s !! i = Some m ->
  monitor_step config i m j s = Some s' -> hook_ok s'.
Proof.
  intros Hp Hs Hm. unfold monitor_step.
  destruct (mpc m) as [| | |stop| |info|info|to info| | | |[|p ps] n|] eqn:Hpc, j as [|[]| | |]; try done.
  - repeat case_match; intros; simplify_eq.
    + eapply monitor_hook; [done|done|..]; cbn; by rewrite ?Hpc.
    + eapply monitor_hook; [apply procs_hook; [apply length_alter|done]|done|..]; cbn; by rewrite ?Hpc.
  - intros [= <-]. eapply monitor_hook; [done|done|..]; cbn; by rewrite ?Hpc.
  - intros [= <-]. eapply monitor_hook; [done|done|..]; cbn; by rewrite ?Hpc.
  - destruct (escalate _ _ _) as [[sg|] v]; intros [= <-];
      (eapply monitor_hook; [|by rewrite ?send_monitors|..]; cbn; rewrite ?Hpc; try done).
    by apply signal_hook.
  - intros [= <-]. eapply monitor_hook; [done|done|..]; cbn; by rewrite ?Hpc.
  - destruct (handle_core_exit_locked _ _) as [st expected] eqn:He. intros [= <-]. by eapply clear_hook.
  - intros [= <-]. eapply monitor_hook; [done|done|..]; cbn; by rewrite ?Hpc.
  - intros [= <-]. destruct to; (eapply monitor_hook; [done|done|..]; cbn; by rewrite ?Hpc).
  - intros [= <-]. by eapply report_hook.
  - intros [= <-]. case_match; (eapply monitor_hook; [done|done|..]; cbn; by rewrite ?Hpc).
  - intros [= <-]. eapply monitor_hook; [done|done|..]; cbn; by rewrite ?Hpc.
  - intros [= <-]. eapply monitor_hook; [by apply end_sweep_hook|by cbn; rewrite end_sweep_monitors|..]; cbn; by rewrite ?Hpc.
  - destruct (kill_pid p ok s) as [s1 hit] eqn:Hk. intros [= <-].
    eapply monitor_hook; [by eapply kill_hook|by rewrite (kill_monitors _ _ _ _ _ Hk)|..]; cbn; by rewrite ?Hpc.
Qed.

Lemma step_hook s l s' : proc_ok s -> hook_ok s -> step config auth s l = Some s' -> hook_ok s'.
Proof.
  intros Hp Hs. unfold step. destruct (exited s); [done|]. destruct l as [p|c i|i j| |ms|i st|p cmd|i|h].
  - by intros [= <-].
  - destruct (conns s !! c); [|done]. case_match; [done|]. by apply conn_step_hook.
  - destruct (monitors s !! i) eqn:Hm; [|done]. case_match; [done|]. by apply monitor_step_hook.
  - unfold timer_step. repeat case_match; intros; by simplify_eq.
  - case_match; intros; by simplify_eq.
  - repeat case_match; intros; simplify_eq. by apply procs_hook; [apply length_alter|].
  - case_match; intros; simplify_eq. destruct Hs as [H1 H2 H3 H4 H5 H6 H7].
    constructor; cbn; rewrite ?length_app; cbn; auto.
    + intros j Hj. specialize (H1 j Hj). lia.
    + intros r Hr. specialize (H3 r Hr). lia.
  - repeat case_match; intros; simplify_eq. by apply procs_hook; [apply length_alter|].
  - by intros [= <-].
Qed.

Lemma reachable_hook s : reachable config auth s -> hook_ok s.
Proof.
  induction 1 as [|s l s' Hr IH Hst]; [|eapply step_hook; [by eapply reachable_proc_ok|done|done]].
  constructor; cbn; try done; try (by intros i Hi%not_elem_of_nil); [by apply NoDup_nil|].
  by intros f i Hf%not_elem_of_nil.
Qed.

(** ** The reasons of the hooks *)

(** [stop] is never called with the reason of a crash. *)
Definition stopper (p : Pc) : Prop :=
  match p with PStop why | PStopWait why | PDownHook why => why <> Hooks.CoreExited | _ => True end.

(** A hook with that reason says which core it is about. *)
Record reasons_ok (s : Sys) : Prop := {
  ro_conn c k : conns s !! c = Some k -> stopper (pc k);
  ro_fired f : f ∈ fired s -> f_reason f = Some Hooks.CoreExited -> about f <> None
}.

Lemma reasons_view s s' : reasons_ok s -> conns s' = conns s -> fired s' = fired s -> reasons_ok s'.
Proof. intros [H1 H2] E1 E2. by constructor; rewrite ?E1, ?E2. Qed.

Lemma reasons_conn c f s : reasons_ok s -> (forall k, stopper (pc k) -> stopper (pc (f k))) -> reasons_ok (on_conn c f s).
Proof.
  intros [H1 H2] Hf. constructor; [|done]. cbn. intros j k. rewrite list_lookup_alter. case_decide; [subst j|by apply H1].
  destruct (conns s !! c) as [k0|] eqn:Hk; [|done]. cbn. intros [= <-]. eauto.
Qed.

Lemma reasons_goto c p s : reasons_ok s -> stopper p -> reasons_ok (goto c p s).
Proof. intros H Hp. by apply reasons_conn. Qed.

Lemma reasons_write c ev s : reasons_ok s -> reasons_ok (write c ev s).
Proof. intros H. by apply reasons_conn. Qed.

Lemma reasons_write_all c evs : forall s, reasons_ok s -> reasons_ok (write_all c evs s).
Proof. induction evs as [|ev evs IH]; intros s H; [done|]. apply (IH (write c ev s)). by apply reasons_write. Qed.

Lemma reasons_fire ev why gen present s : reasons_ok s -> (why = Some Hooks.CoreExited -> gen <> None) ->
  reasons_ok (fire ev why gen present s).
Proof.
  intros [H1 H2] Hw.
  assert (H : forall f, f ∈ (fired s ++ [{| f_event := ev; f_reason := why; about := gen; ran := present |}])%list ->
    f_reason f = Some Hooks.CoreExited -> about f <> None).
  { intros f [Hf|Hf]%elem_of_app; [by apply H2|]. apply list_elem_of_singleton in Hf. by subst f. }
  unfold fire. destruct present; by constructor.
Qed.

Lemma reasons_sweep n present s : reasons_ok s -> reasons_ok (end_sweep n present s).
Proof. intros H. unfold end_sweep. case_match; [by apply reasons_fire|done]. Qed.

Lemma reasons_kill p ok s s1 hit : reasons_ok s -> kill_pid p ok s = (s1, hit) -> reasons_ok s1.
Proof.
  intros H Hk. destruct (kill_pid_procs p ok s) as (ps & E & _). rewrite Hk in E. cbn in E. subst s1.
  by eapply reasons_view.
Qed.

Lemma reasons_lease c k t s : reasons_ok s -> reasons_ok (do_lease c k t s).
Proof.
  intros H. unfold do_lease. destruct (acquire_lease _ _ _ _) as [st [d|]].
  - apply reasons_goto; [|done]. destruct (option_map conn d); [|by eapply reasons_view].
    apply reasons_conn; [by eapply reasons_view|done].
  - apply reasons_goto; [by apply reasons_write|done].
Qed.

Lemma reasons_start c env s : reasons_ok s -> reasons_ok (do_start config c env s).
Proof.
  intros H. unfold do_start. repeat case_match; (apply reasons_goto; [|done]); try done. by eapply reasons_view.
Qed.

Lemma reasons_stop c why s : reasons_ok s -> stopper (PStop why) -> reasons_ok (do_stop c why s).
Proof.
  intros H Hw. unfold do_stop. repeat case_match; (apply reasons_goto; [|by destruct why]); [by eapply reasons_view|done].
Qed.

Lemma reasons_conn_step c k i s s' : reasons_ok s -> conns s !! c = Some k ->
  conn_step config auth c k i s = Some s' -> reasons_ok s'.
Proof.
  intros H Hk. pose proof (ro_conn s H c k Hk) as Hp. unfold conn_step.
  destruct (pc k) as [| |t|t|[o|]| |co po| |ev| | |ch p po|p po|why|why|why| | |hook|hook [|q qs] n|h| |] eqn:E, i;
    try done.
  - intros [= <-]. by repeat case_match; apply reasons_goto.
  - destruct (read_hello r) as [t evs]. intros [= <-]. apply reasons_goto; [by apply reasons_write_all|by destruct t].
  - intros [= <-]. apply reasons_goto; [|done]. apply reasons_conn; [by eapply reasons_view|done].
  - intros [= <-]. by apply reasons_lease.
  - intros [= <-]. apply reasons_goto; [|done]. apply reasons_conn; [|done]. destruct free; [by apply reasons_write|done].
  - intros [= <-]. by apply reasons_goto.
  - destruct (core_snapshot _) as [[co p] po]. intros [= <-]. by apply reasons_goto.
  - intros [= <-]. apply reasons_goto; [by apply reasons_write|done].
  - intros [= <-]. assert (H' : reasons_ok (on_conn c (hear (command_turn r)) s)) by by apply reasons_conn.
    by destruct (command_turn r); apply reasons_goto.
  - intros [= <-]. apply reasons_goto; [by apply reasons_write|done].
  - destruct (core_snapshot _) as [[co p] po]. intros [= <-]. by apply reasons_goto.
  - case_match; [|done]. intros [= <-]. by apply reasons_start.
  - intros [= <-]. apply reasons_goto; [|done]. by eapply reasons_view.
  - intros [= <-]. apply reasons_goto; [by apply reasons_fire|done].
  - intros [= <-]. by apply reasons_stop.
  - intros [= <-]. case_match; [by apply reasons_goto|done].
  - intros [= <-]. apply reasons_goto; [|by destruct why]. apply reasons_fire; [done|]. intros [= ->]. by destruct Hp.
  - intros [= <-]. apply reasons_goto; [done|by case_match].
  - intros [= <-]. apply reasons_goto; [by eapply reasons_view|done].
  - intros [= <-]. by apply reasons_goto.
  - intros [= <-]. apply reasons_goto; [by apply reasons_sweep|by destruct hook].
  - destruct (kill_pid q ok s) as [s1 hit] eqn:Hkill. intros [= <-]. apply reasons_goto; [by eapply reasons_kill|done].
  - repeat case_match; try done. intros [= <-]. by apply reasons_goto.
  - intros [= <-]. by eapply reasons_view.
Qed.

Lemma reasons_monitor_step i m x s s' : reasons_ok s -> monitor_step config i m x s = Some s' -> reasons_ok s'.
Proof.
  intros H. unfold monitor_step.
  destruct (mpc m) as [| | |stop| |info|info|to info| | | |[|p ps] n|], x as [|[]| | |]; try done.
  - destruct (status <$> procs s !! i) as [[]|]; intros [= <-]; by eapply reasons_view.
  - intros [= <-]. by eapply reasons_view.
  - intros [= <-]. by eapply reasons_view.
  - destruct (escalate _ _ _) as [[sg|] v]; intros [= <-]; [|by eapply reasons_view].
    eapply reasons_view; [exact H|..]; unfold send_signal; by destruct sg, (holder (mpid m) (procs s) 0).
  - intros [= <-]. by eapply reasons_view.
  - destruct (handle_core_exit_locked _ _) as [st ex]. intros [= <-]. by eapply reasons_view.
  - intros [= <-]. by eapply reasons_view.
  - intros [= <-]. destruct to as [c|]; [|by eapply reasons_view].
    eapply reasons_view; [apply (reasons_write c (Event.CoreExited (code info) (signal info)) s H)|done..].
  - intros [= <-]. eapply reasons_view; [by apply (reasons_fire Down (Some Hooks.CoreExited) (Some i) present s)|done..].
  - intros [= <-]. destruct (is_stopped (shared s)); by eapply reasons_view.
  - intros [= <-]. by eapply reasons_view.
  - intros [= <-]. eapply reasons_view; [by apply (reasons_sweep n present s)|done..].
  - destruct (kill_pid p ok s) as [s1 hit] eqn:Hk. intros [= <-].
    eapply reasons_view; [by eapply (reasons_kill p ok s)|done..].
Qed.

Lemma reasons_step s l s' : reasons_ok s -> step config auth s l = Some s' -> reasons_ok s'.
Proof.
  intros H. unfold step. destruct (exited s); [done|]. destruct l as [p|c i|i j| |ms|i st|p cmd|i|h].
  - intros [= <-]. destruct H as [H1 H2]. constructor; [|done]. cbn. intros c k [Hk|[_ Hk]]%lookup_app_Some; [eauto|].
    by apply list_lookup_singleton_Some in Hk as [_ <-].
  - destruct (conns s !! c) eqn:Hk; [|done]. case_match; [done|]. by apply reasons_conn_step.
  - destruct (monitors s !! i) eqn:Hm; [|done]. case_match; [done|]. by apply reasons_monitor_step.
  - unfold timer_step. repeat case_match; intros; simplify_eq; by eapply reasons_view.
  - case_match; intros; simplify_eq; by eapply reasons_view.
  - repeat case_match; intros; simplify_eq; by eapply reasons_view.
  - case_match; intros; simplify_eq; by eapply reasons_view.
  - repeat case_match; intros; simplify_eq; by eapply reasons_view.
  - intros [= <-]. by eapply reasons_view.
Qed.

Lemma reachable_reasons s : reachable config auth s -> reasons_ok s.
Proof. induction 1; [|by eapply reasons_step]. constructor; [done|]. by intros f Hf%not_elem_of_nil. Qed.

(** C17: the [core_exited] hook is run at most once for each core, only for a core
    that is gone (or whose [try_wait] failed), and never for one that was asked to
    stop; and a hook with that reason is always one of these, run by the monitor
    of a core: no [stop] runs it. *)
Theorem core_exited_hook_once s : reachable config auth s ->
  NoDup (omap about (fired s)) /\
  (forall f, f ∈ fired s -> (f_reason f = Some Hooks.CoreExited <-> about f <> None)) /\
  forall f i, f ∈ fired s -> about f = Some i -> f_event f = Down /\ i ∉ requested s /\
    exists p, procs s !! i = Some p /\ ours p = true /\ gone_or_lost s i p.
Proof.
  intros Hr. pose proof (reachable_hook s Hr) as H. split_and!; [apply (hi_once _ _ _ _ _ _ H)| |].
  - intros f Hf. split; [by apply (ro_fired s (reachable_reasons s Hr))|]. intros Ha.
    destruct (about f) as [i|] eqn:E; [|done]. by apply (hi_reason _ _ _ _ _ _ H f i).
  - intros f i Hf Ha. destruct (hi_reason _ _ _ _ _ _ H f i Hf Ha) as [He _].
    destruct (hi_reports _ _ _ _ _ _ H i) as (Hn & m & Hm & Hrep); [apply list_elem_of_omap; eauto|].
    split_and!; [done|done|]. destruct (pi_proc _ _ _ _ _ (reachable_proc_ok _ _ s Hr) i m Hm) as (u & Hv & _ & Hw).
    destruct (procs s !! i) as [p|]; [|done]. cbn in Hv. unfold pview in Hv. injection Hv as _ Ho Hu.
    exists p. split_and!; [done|done|]. destruct u; [|left; by apply reaped_status].
    right. exists m. split; [done|]. destruct (Hw eq_refl) as [Hw'|]; [|done]. by destruct (mpc m).
Qed.

(** A monitor reports a crash if and only if its core was not asked to stop:
    when it finds its child gone, it goes on to push [core_exited] to the owner
    and run the hook exactly if no [stop] has set the flag of that core, and stays
    quiet otherwise; in both cases the state is [Stopped] afterwards. *)
Theorem crash_reported_iff_unrequested s i m info s' : reachable config auth s ->
  monitors s !! i = Some m -> mpc m = MExit info ->
  step config auth s (LMonitor i JNone) = Some s' ->
  core (shared s') = Stopped /\
  mpc <$> monitors s' !! i = Some (if decide (i ∈ requested s) then MDone else MPush info).
Proof.
  intros Hr Hm Hpc Hst. pose proof (reachable_proc_ok _ _ s Hr) as Hp.
  pose proof (reachable_hook s Hr) as H. unfold step in Hst. destruct (exited s); [done|].
  rewrite Hm in Hst. destruct (blocked _ s); [done|]. unfold monitor_step in Hst. rewrite Hpc in Hst.
  destruct (pi_flight _ _ _ _ _ Hp i m Hm) as (-> & r & Hc & Hpid); [by rewrite Hpc|].
  pose proof (hi_flag _ _ _ _ _ _ H r Hc) as Hflag.
  unfold handle_core_exit_locked in Hst. rewrite Hc, Hpid, Z.eqb_refl in Hst. injection Hst as <-.
  split; [done|]. cbn. rewrite lookup_alter_eq, Hm. cbn. f_equal.
  case_decide as Hd; destruct (stop_requested r); naive_solver.
Qed.

End Steps.

(** ** Witness *)

Import Schedule.

Lemma crash_reported_iff_unrequested_witness : exists s s', reachable s /\
  step s (LMonitor 1 JNone) = Some s' /\ core (shared s') = Stopped /\
  mpc <$> monitors s' !! 1 = Some (MPush {| code := None; signal := Some 11%Z |}).
Proof.
  set (ls := LForeign 77 "/bin/zsh" :: connects 0 false ++ greeted 0 ++ spawns 0 100 ++ started 0 ++
    [LDies 1 11; LMonitor 1 (JTryWait true)]).
  assert (Hr : reachable (default initial (run ls))).
  { apply (run_reachable the_config the_auth ls initial); [constructor|vm_compute; reflexivity]. }
  eexists (default initial (run ls)), _. split; [exact Hr|]. split; [vm_compute; reflexivity|].
  destruct (crash_reported_iff_unrequested the_config the_auth _ 1
    {| mpid := 100; vars := monitor_init; mpc := MExit {| code := None; signal := Some 11%Z |}; lost := false |}
    {| code := None; signal := Some 11%Z |} _ Hr ltac:(vm_compute; reflexivity) eq_refl
    ltac:(vm_compute; reflexivity)) as [Hc Hm].
  split; [exact Hc|exact Hm].
Defined.

Lemma core_exited_hook_once_witness : exists s, reachable s /\ omap about (fired s) = [1] /\
  NoDup (omap about (fired s)) /\ 1 ∉ requested s.
Proof.
  exists crashed. split; [exact crashed_reachable|]. split; [vm_compute; reflexivity|].
  destruct (core_exited_hook_once the_config the_auth crashed crashed_reachable) as (Hn & _ & Hf).
  split; [exact Hn|].
  apply (Hf {| f_event := Down; f_reason := Some Hooks.CoreExited; about := Some 1; ran := true |} 1);
    [|reflexivity]. vm_compute. right. left.
Defined.
