(* ===== verification/ExitInv.v ===== *)
(** * The exit of the supervisor: what holds in every reachable state

    When the owner disconnects the supervisor stops the core, waits for the [down]
    hook and exits.  As long as no other connection has been granted the lease,
    it leaves nothing behind; [Races] shows that the condition is needed. *)

From Stdlib Require Import ZArith Lia String.
From stdpp Require Import base list strings gmap.
From S2P Require Import Prelude RustStr Json JsonText Proto ClientProto Config Auth Hooks CoreProc Janitor Server Supervisor Schedules ProcInv LeaseInv AuthInv.
Import Proto.

(** ** Connections that never had the lease *)

(** The program counters of connections that have, or had, the lease. *)
Definition entered (p : Pc) : bool :=
  match stage p with
  | Fresh | Identified => false
  | Holding => true
  | Gone => match p with PDone => false | _ => true end
  end.

(** The connection has not been granted the lease: it is on its way to ask for it,
    or was turned away. *)
Definition out (k : Conn) : bool := negb (kicked k) && negb (entered (pc k)).

Definition only (c : nat) (s : Sys) : Prop :=
  forall j k, j <> c -> conns s !! j = Some k -> out k = true.

(** A connection that was granted the lease stays so. *)
Definition stays (cs cs' : list Conn) : Prop :=
  forall j k, cs !! j = Some k -> out k = false -> exists k', cs' !! j = Some k' /\ out k' = false.

Lemma stays_refl cs : stays cs cs.
Proof. intros j k Hj Hk. eauto. Qed.

Lemma stays_trans cs1 cs2 cs3 : stays cs1 cs2 -> stays cs2 cs3 -> stays cs1 cs3.
Proof. intros H1 H2 j k Hj Hk. destruct (H1 j k Hj Hk) as (k' & Hj' & Hk'). eauto. Qed.

Lemma stays_alter f c cs : (forall k, cs !! c = Some k -> out k = false -> out (f k) = false) ->
  stays cs (alter f c cs).
Proof.
  intros Hf j k Hj Hk. rewrite list_lookup_alter. case_decide; [subst j|by eauto].
  rewrite Hj. cbn. eauto.
Qed.

(** Nothing moves but what is written to sockets, and ids. *)
Definition calm (s s1 : Sys) : Prop :=
  forall j, (fun k => (pc k, kicked k)) <$> conns s1 !! j = (fun k => (pc k, kicked k)) <$> conns s !! j.

Lemma calm_trans s1 s2 s3 : calm s1 s2 -> calm s2 s3 -> calm s1 s3.
Proof. intros H1 H2 j. by rewrite H2. Qed.

Lemma calm_alter c f s : (forall k, pc (f k) = pc k) -> (forall k, kicked (f k) = kicked k) ->
  calm s (on_conn c f s).
Proof.
  intros Hp Hk j. cbn. rewrite list_lookup_alter. case_decide; [subst j|done].
  destruct (conns s !! c) as [k|]; [|done]. cbn. by rewrite Hp, Hk.
Qed.

Lemma calm_write c ev s : calm s (write c ev s).
Proof. by apply calm_alter. Qed.

Lemma calm_write_all c evs : forall s, calm s (write_all c evs s).
Proof.
  induction evs as [|ev evs IH]; intros s; [done|]. cbn. eapply calm_trans, IH. apply calm_write.
Qed.

Lemma calm_fire ev why gen present s : calm s (fire ev why gen present s).
Proof. intros j. by rewrite fire_conns. Qed.

Lemma calm_stays s s1 : calm s s1 -> stays (conns s) (conns s1).
Proof.
  intros Hc j k Hj Hk. specialize (Hc j). rewrite Hj in Hc. destruct (conns s1 !! j) as [k1|]; [|done].
  exists k1. split; [done|]. injection Hc as E1 E2. unfold out in *. by rewrite E1, E2.
Qed.

(** The thread of [c] moves on, after a calm step. *)
Lemma stays_goto c k p s s1 : conns s !! c = Some k -> calm s s1 ->
  (kicked k = false -> entered (pc k) = true -> entered p = true) ->
  stays (conns s) (conns (goto c p s1)).
Proof.
  intros Hk Hc Hp. eapply stays_trans; [by apply calm_stays|]. apply stays_alter. intros k1 Hk1.
  specialize (Hc c). rewrite Hk, Hk1 in Hc. injection Hc as E1 E2. unfold out. cbn. rewrite E1, E2.
  destruct (kicked k); [done|]. cbn. destruct (entered (pc k)) eqn:E; [|done]. by rewrite Hp.
Qed.

Section Steps.
Context {SJ : SerdeJson} (config : Config) (auth : AuthMode).

Lemma entered_after why b h : entered (after_stop why b h) = true.
Proof. by destruct why. Qed.

Lemma calm_end_sweep n present s : calm s (end_sweep n present s).
Proof. intros j. by rewrite end_sweep_conns. Qed.

Lemma calm_kill p ok s s1 hit : kill_pid p ok s = (s1, hit) -> calm s s1.
Proof. intros H. destruct (kill_pid_procs p ok s) as (ps & E & _). rewrite H in E. cbn in E. by subst s1. Qed.

Lemma start_stays c k env s : conns s !! c = Some k -> pc k = PStart ->
  stays (conns s) (conns (do_start config c env s)).
Proof.
  intros Hk Hpc. unfold do_start.
  by destruct (start_locked config env (shared s)) as [st [[|]|]]; apply (stays_goto c k).
Qed.

Lemma stop_stays c k why s : conns s !! c = Some k -> pc k = PStop why ->
  stays (conns s) (conns (do_stop c why s)).
Proof.
  intros Hk Hpc. unfold do_stop.
  destruct (stop_locked (shared s)) as [st []]; apply (stays_goto c k); try done; intros _ _;
    [by destruct why|apply entered_after].
Qed.

Lemma lease_stays c k t s : conns s !! c = Some k -> pc k = PLease t ->
  stays (conns s) (conns (do_lease c k t s)).
Proof.
  intros Hk Hpc. unfold do_lease. destruct (acquire_lease _ _ _ _) as [st [d|]].
  - eapply stays_trans with (conns (match option_map conn d with
      | Some o => on_conn o set_kicked (with_shared st s) | None => with_shared st s end)).
    + destruct (option_map conn d); [by apply stays_alter|apply stays_refl].
    + apply stays_alter. intros k' _. unfold out. cbn. by rewrite andb_false_r.
  - apply (stays_goto c k); [done|apply calm_write|by rewrite Hpc].
Qed.

Lemma calm_hear c t s : calm s (on_conn c (hear t) s).
Proof. by apply calm_alter. Qed.

Lemma turn_stays c k t s : conns s !! c = Some k -> pc k = PLoop ->
  stays (conns s) (conns (do_turn c t (on_conn c (hear t) s))).
Proof. intros Hk Hpc. by destruct t; apply (stays_goto c k); try done; apply calm_hear. Qed.

Lemma hook_stays c k why h present s : conns s !! c = Some k ->
  stays (conns s) (conns (goto c (after_stop why true h) (fire Down (Some why) None present s))).
Proof.
  intros Hk. apply (stays_goto c k); [done|apply calm_fire|]. intros _ _. apply entered_after.
Qed.

Lemma calm_id c n m s : calm s (on_conn c (set_id n) (with_next_id m s)).
Proof. by apply (calm_alter c (set_id n) (with_next_id m s)). Qed.

Lemma calm_shut c s : calm s (on_conn c set_down s).
Proof. by apply calm_alter. Qed.

Lemma conn_step_stays c k i s s' : conns s !! c = Some k ->
  conn_step config auth c k i s = Some s' -> stays (conns s) (conns s').
Proof.
  intros Hk. unfold conn_step.
  destruct (pc k) eqn:Hpc, i; try done; repeat case_match; intros; simplify_eq; try apply stays_refl.
  all: try (eapply (stays_goto c k); [done| |by rewrite ?Hpc; try congruence]; try done;
    eauto using calm_write, calm_write_all, calm_fire, calm_end_sweep, calm_kill).
  all: eauto using calm_id, calm_shut, calm_write, calm_trans, lease_stays, turn_stays, start_stays,
    stop_stays, hook_stays.
Qed.

Lemma monitor_step_calm i m j s s' : monitor_step config i m j s = Some s' -> calm s s'.
Proof.
  unfold monitor_step. destruct (mpc m) as [| | |stop| |info|info|to info| | | |[|p ps] n|], j as [|[]| | |]; try done.
  - repeat case_match; intros; by simplify_eq.
  - by intros [= <-].
  - by intros [= <-].
  - destruct (escalate _ _ _) as [[sg|] v]; intros [= <-]; [|done].
    unfold send_signal. by destruct sg, (holder (mpid m) (procs s) 0).
  - by intros [= <-].
  - destruct (handle_core_exit_locked _ _) as [st expected]. by intros [= <-].
  - by intros [= <-].
  - intros [= <-]. destruct to; [apply calm_write|done].
  - intros [= <-]. apply calm_fire.
  - intros [= <-]. by case_match.
  - by intros [= <-].
  - intros [= <-]. apply calm_end_sweep.
  - destruct (kill_pid p ok s) as [s1 hit] eqn:Hk. intros [= <-]. by apply calm_kill in Hk.
Qed.

Lemma step_stays s l s' : step config auth s l = Some s' -> stays (conns s) (conns s').
Proof.
  unfold step. destruct (exited s); [done|]. destruct l as [p|c i|i j| |ms|i st|p cmd|i|h].
  - intros [= <-] j k Hj Hk. exists k. cbn. split; [by apply lookup_app_l_Some|done].
  - destruct (conns s !! c) eqn:Hk; [|done]. case_match; [done|]. by apply conn_step_stays.
  - destruct (monitors s !! i) eqn:Hm; [|done]. case_match; [done|]. intros Hst. eapply calm_stays, monitor_step_calm, Hst.
  - unfold timer_step. repeat case_match; intros; simplify_eq; apply stays_refl.
  - case_match; intros; simplify_eq; apply stays_refl.
  - repeat case_match; intros; simplify_eq; apply stays_refl.
  - case_match; intros; simplify_eq; apply stays_refl.
  - repeat case_match; intros; simplify_eq; apply stays_refl.
  - intros [= <-]. apply stays_refl.
Qed.

(** If no other connection has had the lease by now, none had before. *)
Lemma only_before c s s' : stays (conns s) (conns s') -> only c s' -> only c s.
Proof.
  intros Hs Ho j k Hj Hk. destruct (out k) eqn:E; [done|].
  destruct (Hs j k Hk E) as (k' & Hk' & E'). specialize (Ho j k' Hj Hk'). congruence.
Qed.

(** ** The invariant *)

Definition is_requested (why : HookReason) : bool :=
  match why with Requested => true | _ => false end.

(** [stop] has returned, or is about to run its hook. *)
Definition closing (p : Pc) : bool :=
  match p with
  | PDownHook why => negb (is_requested why)
  | PSweep _ | PKill _ _ _ | PJoin _ | PExit => true
  | _ => false
  end.

(** The thread still has to join this hook. *)
Definition to_join (p : Pc) : option nat :=
  match p with PSweep hook | PKill hook _ _ => hook | PJoin h => Some h | _ => None end.

Record exit_inv (co : CoreProc) (hs : list Hook) (p : Pc) : Prop := {
  ei_core : closing p = true -> co = Stopped;
  ei_hooks h hk : hs !! h = Some hk -> h_reason hk = Some OwnerDrop ->
    finished hk = true \/ to_join p = Some h
}.

Definition exit_ok (c : nat) (s : Sys) : Prop :=
  only c s -> exit_inv (core (shared s)) (hooks s) (default PAuth (pc <$> conns s !! c)).
(** *** Steps of the connection itself *)

Lemma pc_goto c p s : is_Some (conns s !! c) -> default PAuth (pc <$> conns (goto c p s) !! c) = p.
Proof. intros [k Hk]. cbn. by rewrite list_lookup_alter_eq, Hk. Qed.

Lemma calm_some c k s s1 : conns s !! c = Some k -> calm s s1 -> is_Some (conns s1 !! c).
Proof.
  intros Hk Hc. specialize (Hc c). rewrite Hk in Hc. destruct (conns s1 !! c); [eauto|done].
Qed.

(** It goes on in its session. *)
Lemma plain_ok co co' hs p q : exit_inv co hs p -> to_join p = None -> closing q = false ->
  exit_inv co' hs q.
Proof.
  intros [H1 H2] Hp Hq. constructor; [congruence|]. intros h hk Hh Hr.
  destruct (H2 h hk Hh Hr); [by left|congruence].
Qed.

(** A hook with another reason is run. *)
Lemma other_hook_ok co hs p why : exit_inv co hs p -> why <> Some OwnerDrop ->
  exit_inv co (hs ++ [{| h_reason := why; finished := false |}])%list p.
Proof.
  intros [H1 H2] Hw. constructor; [done|]. intros h hk [Hh|[_ Hh]]%lookup_app_Some Hr; [eauto|].
  apply list_lookup_singleton_Some in Hh as [_ <-]. done.
Qed.

Lemma fire_exit ev why gen present p s : exit_inv (core (shared s)) (hooks s) p -> why <> Some OwnerDrop ->
  exit_inv (core (shared (fire ev why gen present s))) (hooks (fire ev why gen present s)) p.
Proof. intros H Hw. unfold fire. destruct present; [by apply other_hook_ok|done]. Qed.

Lemma end_sweep_exit n present p s : exit_inv (core (shared s)) (hooks s) p ->
  exit_inv (core (shared (end_sweep n present s))) (hooks (end_sweep n present s)) p.
Proof. intros H. unfold end_sweep. case_match; [|done]. by apply (fire_exit _ _ _ _ p s). Qed.

Lemma kill_same p ok s s1 hit : kill_pid p ok s = (s1, hit) ->
  shared s1 = shared s /\ hooks s1 = hooks s /\ conns s1 = conns s.
Proof. intros H. destruct (kill_pid_procs p ok s) as (ps & E & _). rewrite H in E. cbn in E. by subst s1. Qed.

Lemma write_all_fields c evs : forall s,
  core (shared (write_all c evs s)) = core (shared s) /\ hooks (write_all c evs s) = hooks s.
Proof. induction evs as [|e evs IH]; intros s; [done|]. exact (IH (write c e s)). Qed.

(** The [down] hook of the disconnect is run; the thread will join it. *)
Lemma drop_hook_ok c k why present s : conns s !! c = Some k -> pc k = PDownHook why ->
  exit_inv (core (shared s)) (hooks s) (pc k) ->
  exit_inv (core (shared s)) (hooks (fire Down (Some why) None present s))
    (after_stop why true (if present then Some (length (hooks s)) else None)).
Proof.
  intros Hk Hpc [H1 H2]. rewrite Hpc in H1, H2.
  assert (Hj : forall x, to_join (after_stop why true x) = if is_requested why then None else x)
    by (by destruct why).
  assert (Hfin : forall h hk, hooks s !! h = Some hk -> h_reason hk = Some OwnerDrop -> finished hk = true)
    by (intros h hk Hh Hr; by destruct (H2 h hk Hh Hr)).
  constructor.
  - intros Hc. apply H1. by destruct why.
  - intros h hk Hh Hr. rewrite Hj. unfold fire in Hh. destruct present; cbn in Hh; [|left; eauto].
    apply lookup_app_Some in Hh as [Hh|[Hle Hh]]; [left; eauto|].
    apply list_lookup_singleton_Some in Hh as [Hlen <-]. cbn in Hr. injection Hr as ->. right. cbn.
    f_equal. lia.
Qed.

Lemma start_exit c k env s : conns s !! c = Some k -> pc k = PStart ->
  exit_inv (core (shared s)) (hooks s) (pc k) ->
  exit_inv (core (shared (do_start config c env s))) (hooks (do_start config c env s))
    (default PAuth (pc <$> conns (do_start config c env s) !! c)).
Proof.
  intros Hk Hpc H. unfold do_start.
  destruct (start_locked config env (shared s)) as [st [[|]|]];
    rewrite pc_goto by (cbn; eauto); (eapply plain_ok; [exact H|by rewrite Hpc|done]).
Qed.

Lemma stop_exit c k why s : conns s !! c = Some k -> pc k = PStop why ->
  exit_inv (core (shared s)) (hooks s) (pc k) ->
  exit_inv (core (shared (do_stop c why s))) (hooks (do_stop c why s))
    (default PAuth (pc <$> conns (do_stop c why s) !! c)).
Proof.
  intros Hk Hpc [H1 H2]. unfold do_stop, stop_locked. rewrite Hpc in H2.
  assert (Hfin : forall h hk, hooks s !! h = Some hk -> h_reason hk = Some OwnerDrop -> finished hk = true)
    by (intros h hk Hh Hr; by destruct (H2 h hk Hh Hr)).
  destruct (core (shared s)) as [|r] eqn:Hc; rewrite pc_goto by (cbn; eauto); cbn;
    constructor; try done; eauto.
Qed.

Lemma alter_some (f : Conn -> Conn) o c (cs : list Conn) :
  is_Some (cs !! c) -> is_Some (alter f o cs !! c).
Proof. intros Hs. rewrite list_lookup_alter. case_decide; [subst o; by apply fmap_is_Some|done]. Qed.

Lemma lease_exit c k t s : conns s !! c = Some k -> pc k = PLease t ->
  exit_inv (core (shared s)) (hooks s) (pc k) ->
  exit_inv (core (shared (do_lease c k t s))) (hooks (do_lease c k t s))
    (default PAuth (pc <$> conns (do_lease c k t s) !! c)).
Proof.
  intros Hk Hpc H. unfold do_lease. destruct (acquire_lease _ _ _ _) as [st [d|]].
  - destruct (option_map conn d) as [o|]; rewrite pc_goto by (cbn; eauto using alter_some);
      (eapply plain_ok; [exact H|by rewrite Hpc|done]).
  - rewrite pc_goto by (eapply calm_some, calm_write; done).
    eapply plain_ok; [exact H|by rewrite Hpc|done].
Qed.

Lemma conn_step_exit c k i s s' : conns s !! c = Some k ->
  exit_inv (core (shared s)) (hooks s) (pc k) -> conn_step config auth c k i s = Some s' ->
  exit_inv (core (shared s')) (hooks s') (default PAuth (pc <$> conns s' !! c)).
Proof.
  intros Hk H. unfold conn_step. destruct (pc k) eqn:Hpc, i; try done; try (by destruct displaced);
    try (by destruct targets).
  - intros [= <-]. destruct (peer k); rewrite pc_goto by eauto; (eapply plain_ok; [done..|]); by repeat case_match.
  - destruct (read_hello r) as [t evs]. intros [= <-].
    rewrite pc_goto by (eapply calm_some, calm_write_all; done). cbn.
    destruct (write_all_fields c evs s) as [-> ->]. eapply plain_ok; [done..|]. by destruct t.
  - intros [= <-]. rewrite pc_goto by (eapply calm_some, calm_id; done). by eapply plain_ok.
  - intros [= <-]. eapply lease_exit; [done|done|]. by rewrite Hpc.
  - destruct displaced; intros [= <-]. rewrite pc_goto by eauto. by eapply plain_ok.
  - destruct displaced as [o|]; intros [= <-]. rewrite pc_goto by (cbn; destruct free; cbn; eauto using alter_some).
    by destruct free; eapply plain_ok.
  - destruct (core_snapshot _) as [[co p] po]. intros [= <-]. rewrite pc_goto by eauto. by eapply plain_ok.
  - intros [= <-]. rewrite pc_goto by (cbn; eauto using alter_some). by eapply plain_ok.
  - intros [= <-]. by destruct (command_turn r); cbn [do_turn];
      rewrite pc_goto by (eapply calm_some, calm_hear; done); eapply plain_ok.
  - intros [= <-]. rewrite pc_goto by (cbn; eauto using alter_some). by eapply plain_ok.
  - destruct (core_snapshot _) as [[co p] po]. intros [= <-]. rewrite pc_goto by eauto. by eapply plain_ok.
  - case_match; intros [= <-]. eapply start_exit; [done|done|]. by rewrite Hpc.
  - intros [= <-]. rewrite pc_goto by (cbn; eauto). by eapply plain_ok.
  - intros [= <-]. rewrite pc_goto by (rewrite fire_conns; eauto).
    eapply plain_ok; [by apply fire_exit|done..].
  - intros [= <-]. eapply stop_exit; [done|done|]. by rewrite Hpc.
  - intros [= <-]. unfold is_stopped. destruct (core (shared s)) eqn:Hc; [|rewrite Hc, Hk; cbn; by rewrite Hpc].
    rewrite pc_goto by eauto. cbn. rewrite Hc. destruct H as [H1 H2]. by constructor.
  - intros [= <-]. rewrite pc_goto by (rewrite fire_conns; eauto).
    replace (core (shared (goto _ _ _))) with (core (shared s)) by (by destruct present).
    eapply drop_hook_ok; [done|done|]. by rewrite Hpc.
  - intros [= <-]. rewrite pc_goto by eauto. eapply plain_ok; [done..|]. by case_match.
  - intros [= <-]. rewrite pc_goto by (cbn; eauto). by eapply plain_ok.
  - intros [= <-]. rewrite pc_goto by eauto. destruct H as [H1 H2]. by constructor.
  - destruct targets; intros [= <-]. rewrite pc_goto by (rewrite end_sweep_conns; eauto).
    apply (end_sweep_exit killed present _ s). destruct H as [H1 H2].
    by destruct hook; constructor.
  - destruct targets as [|p ps]; [done|]. destruct (kill_pid p ok s) as [s1 hit] eqn:Hkill. intros [= <-].
    destruct (kill_same _ _ _ _ _ Hkill) as (Es & Eh & Ec). rewrite pc_goto by (rewrite Ec; eauto). cbn.
    rewrite Es, Eh. destruct H as [H1 H2]. by constructor.
  - destruct (hooks s !! hook) as [hk|] eqn:Hh; [|done]. destruct (finished hk) eqn:Hf; intros [= <-].
    rewrite pc_goto by eauto. destruct H as [H1 H2]. constructor; [intros _; by apply H1|].
    intros h hk' Hh' Hr. left. destruct (H2 h hk' Hh' Hr) as [|[= ->]]; [done|]. cbn in Hh'. congruence.
  - intros [= <-]. cbn. rewrite Hk. cbn. by rewrite Hpc.
Qed.

(** *** Steps of everybody else *)

Lemma other_pc c j f (cs : list Conn) : c <> j -> pc <$> alter f j cs !! c = pc <$> cs !! c.
Proof. intros Hne. by rewrite list_lookup_alter_ne by done. Qed.

Lemma calm_pc c s s1 : calm s s1 -> pc <$> conns s1 !! c = pc <$> conns s !! c.
Proof.
  intros Hc. specialize (Hc c). destruct (conns s1 !! c), (conns s !! c); try done. cbn in *. congruence.
Qed.

(** A connection that has not had the lease touches neither the core nor the
    hooks. *)
Lemma conn_step_other c j k i s s' : c <> j -> conns s !! j = Some k -> out k = true ->
  conn_step config auth j k i s = Some s' ->
  core (shared s') = core (shared s) /\ hooks s' = hooks s /\ pc <$> conns s' !! c = pc <$> conns s !! c.
Proof.
  intros Hne Hk Ho. unfold out in Ho. apply andb_prop in Ho as [_ He%negb_true_iff]. unfold conn_step.
  destruct (pc k) eqn:Hpc, i; try done; try (by destruct why).
  - intros [= <-]. destruct (peer k); cbn; by rewrite other_pc.
  - destruct (read_hello r) as [t evs]. intros [= <-]. cbn.
    destruct (write_all_fields j evs s) as [-> ->]. rewrite other_pc by done.
    by rewrite (calm_pc _ _ _ (calm_write_all j evs s)).
  - intros [= <-]. cbn. by rewrite !other_pc.
  - intros [= <-]. unfold do_lease. pose proof (lease_core (shared s) (my_id k) j takeover) as Hc.
    destruct (acquire_lease _ _ _ _) as [st [d|]]; cbn in Hc; [|cbn; by rewrite !other_pc].
    destruct (option_map conn d) as [o|]; cbn; rewrite other_pc by done; split_and!; try done.
    rewrite list_lookup_alter. case_decide; [subst o; by destruct (conns s !! c)|done].
Qed.

Lemma monitor_step_exit i m j p s s' : monitor_step config i m j s = Some s' ->
  exit_inv (core (shared s)) (hooks s) p -> exit_inv (core (shared s')) (hooks s') p.
Proof.
  intros Hst H. unfold monitor_step in Hst. destruct (mpc m) as [| | |stop| |info|info|to info| | | |[|q qs] n|], j as [|[]| | |]; try done.
  - repeat case_match; intros; by simplify_eq.
  - by injection Hst as <-.
  - by injection Hst as <-.
  - destruct (escalate _ _ _) as [[sg|] v]; injection Hst as <-; [|done].
    unfold send_signal. by destruct sg, (holder (mpid m) (procs s) 0).
  - by injection Hst as <-.
  - unfold handle_core_exit_locked in Hst. destruct H as [H1 H2]. injection Hst as <-.
    constructor; [|done]. intros Hp. specialize (H1 Hp). cbn. by rewrite H1.
  - by injection Hst as <-.
  - injection Hst as <-. by destruct to.
  - injection Hst as <-. by apply (fire_exit _ _ _ _ p s).
  - injection Hst as <-. by case_match.
  - by injection Hst as <-.
  - injection Hst as <-. by apply (end_sweep_exit _ _ p s).
  - destruct (kill_pid q ok s) as [s1 hit] eqn:Hk. injection Hst as <-.
    destruct (kill_same _ _ _ _ _ Hk) as (Es & Eh & _). cbn. by rewrite Es, Eh.
Qed.

Lemma hook_done_exit co hs p h : exit_inv co hs p ->
  exit_inv co (alter (fun k => {| h_reason := h_reason k; finished := true |}) h hs) p.
Proof.
  intros [H1 H2]. constructor; [done|]. intros h' hk Hh Hr. rewrite list_lookup_alter in Hh.
  case_decide; [subst h'|by eapply H2]. destruct (hs !! h); [|done]. injection Hh as <-. by left.
Qed.

Lemma step_exit_ok c s l s' : exit_ok c s -> step config auth s l = Some s' -> exit_ok c s'.
Proof.
  intros H Hst Ho. pose proof (only_before c s s' (step_stays s l s' Hst) Ho) as Ho'.
  specialize (H Ho'). unfold step in Hst. destruct (exited s); [done|].
  destruct l as [p|j i|i j| |ms|i st|p cmd|i|h].
  - injection Hst as <-. cbn. destruct (conns s !! c) as [k|] eqn:Hk.
    + by rewrite (lookup_app_l_Some _ _ _ _ Hk).
    + cbn in H. destruct ((conns s ++ [new_conn p])%list !! c) as [k|] eqn:Hk'; [|done].
      apply lookup_app_Some in Hk' as [Hk'|[_ Hk']]; [congruence|].
      by apply list_lookup_singleton_Some in Hk' as [_ <-].
  - destruct (conns s !! j) as [k|] eqn:Hk; [|done]. destruct (blocked _ s); [done|].
    destruct (decide (c = j)) as [<-|Hne].
    + rewrite Hk in H. by eapply conn_step_exit.
    + apply not_eq_sym in Hne as Hne'.
      destruct (conn_step_other c j k i s s' Hne Hk (Ho' j k Hne' Hk) Hst) as (-> & -> & ->). done.
  - destruct (monitors s !! i) as [m|]; [|done]. destruct (blocked _ s); [done|].
    rewrite (calm_pc _ _ _ (monitor_step_calm _ _ _ _ _ Hst)). by eapply monitor_step_exit.
  - unfold timer_step in Hst. by repeat case_match; simplify_eq.
  - by case_match; simplify_eq.
  - by repeat case_match; simplify_eq.
  - by case_match; simplify_eq.
  - by repeat case_match; simplify_eq.
  - injection Hst as <-. by apply hook_done_exit.
Qed.

Lemma reachable_exit_ok c s : reachable config auth s -> exit_ok c s.
Proof. induction 1; [|by eapply step_exit_ok]. intros _. by constructor. Qed.

(** C15: an owner's disconnect leaves nothing behind.  When a connection's thread
    reaches the final [exit(0)] and no other connection was granted the lease up
    to then, no core is recorded and every core ever spawned was reaped, unless
    its [try_wait] failed (then nobody knows what became of it); and the
    [owner_drop] hook, if it ran, has finished. *)
Theorem disconnect_leaves_nothing s c k : reachable config auth s ->
  conns s !! c = Some k -> pc k = PExit ->
  (forall j k', j <> c -> conns s !! j = Some k' -> out k' = true) ->
  core (shared s) = Stopped /\
  (forall i p, procs s !! i = Some p -> ours p = true -> gone_or_lost s i p) /\
  (forall h, h ∈ hooks s -> h_reason h = Some OwnerDrop -> finished h = true).
Proof.
  intros Hr Hk Hpc Ho. destruct (reachable_exit_ok c s Hr Ho) as [H1 H2].
  rewrite Hk in H1, H2. cbn in H1, H2. rewrite Hpc in H1, H2. specialize (H1 eq_refl).
  split_and!; [done| |].
  - intros i p Hp Hours. by eapply unrecorded_gone.
  - intros h [i Hi]%list_elem_of_lookup Hreason. by destruct (H2 i h Hi Hreason).
Qed.

End Steps.

(** ** Witness *)

Import Schedule.

(** A session with a running core ends; a second client had been told [busy]. *)
Definition disconnect_schedule : list Label :=
  connects 0 false ++ greeted 0 ++ spawns 0 100 ++ started 0 ++ connects 1 false ++
  [LConn 0 eof; LConn 0 INone; LConn 0 INone; LConn 0 INone] ++ polls 0 ++ dies 0 15 ++
  [LConn 0 INone; LConn 0 (IScript true); LConn 0 (IPs true); LConn 0 (IScript true); LHookDone 1; LConn 0 INone].
Definition disconnected : Sys := default initial (run disconnect_schedule).

Lemma disconnected_reachable : reachable disconnected.
Proof.
  apply (run_reachable the_config the_auth disconnect_schedule initial); [constructor|].
  vm_compute. reflexivity.
Qed.

Definition disconnected_conn : Conn := default (new_conn (Ok 0%Z)) (conns disconnected !! 0).

Lemma disconnect_leaves_nothing_witness : exists k, conns disconnected !! 0 = Some k /\ pc k = PExit /\
  core (shared disconnected) = Stopped /\ map h_reason (hooks disconnected) = [None; Some OwnerDrop] /\
  forall h, h ∈ hooks disconnected -> h_reason h = Some OwnerDrop -> finished h = true.
Proof.
  exists disconnected_conn. split; [vm_compute; reflexivity|]. split; [vm_compute; reflexivity|].
  destruct (disconnect_leaves_nothing the_config the_auth disconnected 0 disconnected_conn disconnected_reachable
    ltac:(vm_compute; reflexivity) ltac:(vm_compute; reflexivity)) as (Hc & _ & Hh).
  - assert (H1 : out <$> conns disconnected !! 1 = Some true) by (vm_compute; reflexivity).
    assert (H2 : length (conns disconnected) = 2) by (vm_compute; reflexivity).
    intros [|[|j]] k Hj Hk; [by destruct Hj|rewrite Hk in H1; by injection H1|].
    apply lookup_lt_Some in Hk. lia.
  - split; [exact Hc|]. split; [vm_compute; reflexivity|exact Hh].
Defined.
