(* ===== verification/Contract.v ===== *)
(** * Who may change the shared state, and how

    The contract of the state mutex: five kinds of changes, each with the one who
    may make it and the condition under which.  Every step of the supervisor keeps
    the shared state or makes one of them. *)

From Stdlib Require Import ZArith Lia String.
From stdpp Require Import base list strings gmap.
From S2P Require Import Prelude RustStr Json JsonText Proto ClientProto Config Auth Hooks CoreProc Janitor Server Supervisor Schedules ProcInv LeaseInv AuthInv ExitInv.
Import Proto.

Section Contract.
Context {SJ : SerdeJson} (config : Config) (auth : AuthMode).

(** Connection [c] was let in by the gate and stands at [p]. *)
Definition acts (s : Sys) (c : nat) (p : Pc) (k : Conn) : Prop :=
  conns s !! c = Some k /\ pc k = p /\ permitted auth k = true.

(** The change a step may make, by its label: who makes it, and when. *)
Inductive change (s : Sys) : Label -> State -> State -> Prop :=
| change_grant st c k takeover :
    acts s c (PLease takeover) k -> owner st = None \/ takeover = true ->
    change s (LConn c INone) st (set_owner (Some {| id := my_id k; conn := c |}) st)
| change_release st c k o :
    acts s c PRelease k -> owner st = Some o -> id o = my_id k ->
    change s (LConn c INone) st (set_owner None st)
| change_start st c k env p port :
    acts s c PStart k -> core st = Stopped -> free_port env = Ok port -> spawned env = Ok p ->
    (0 < p <= i32_max)%Z -> pid_free p s = true ->
    change s (LConn c (ISpawn env)) st
      (set_core (Running {| pid := p; rpc_port := port; stop_requested := false |}) st)
| change_request st c k why r :
    acts s c (PStop why) k -> core st = Running r ->
    change s (LConn c INone) st
      (set_core (Running {| pid := pid r; rpc_port := rpc_port r; stop_requested := true |}) st)
| change_gone st i m info r :
    monitors s !! i = Some m -> mpc m = MExit info -> core st = Running r -> pid r = mpid m ->
    lost m = true \/ status <$> procs s !! i = Some PReaped ->
    change s (LMonitor i JNone) st (set_core Stopped st).

Definition may_change (s : Sys) (l : Label) (s' : Sys) : Prop :=
  shared s' = shared s \/ change s l (shared s) (shared s').

Lemma write_all_state c evs : forall s, shared (write_all c evs s) = shared s.
Proof. induction evs as [|e evs IH]; intros s; [done|]. exact (IH (write c e s)). Qed.

Lemma fire_state ev why gen present s : shared (fire ev why gen present s) = shared s.
Proof. unfold fire. by destruct present. Qed.

Lemma end_sweep_state n present s : shared (end_sweep n present s) = shared s.
Proof. unfold end_sweep. case_match; [by rewrite fire_state|done]. Qed.

Lemma start_changes c k env s : acts s c PStart k -> spawn_possible env s = true ->
  may_change s (LConn c (ISpawn env)) (do_start config c env s).
Proof.
  intros Ha Hp. unfold do_start, start_locked, pick_free_port, build_command.
  destruct (core (shared s)) as [|r] eqn:Hc; [|by left].
  unfold spawn_possible in Hp.
  destruct (free_port env) eqn:Hf, (log_opened env), (spawned env) as [p|] eqn:Hsp; cbn; try by left.
  right. breflect. eapply change_start; [exact Ha|exact Hc|done|done|lia|done].
Qed.

Lemma lease_changes c k t s : acts s c (PLease t) k -> may_change s (LConn c INone) (do_lease c k t s).
Proof.
  intros Ha. unfold do_lease, acquire_lease, lease_decision, has_owner.
  destruct (owner (shared s)) as [o|] eqn:Ho, t; cbn; try by left.
  all: right; eapply change_grant; [exact Ha|auto].
Qed.

Lemma stop_changes c k why s : acts s c (PStop why) k -> may_change s (LConn c INone) (do_stop c why s).
Proof.
  intros Ha. unfold do_stop, stop_locked. destruct (core (shared s)) as [|r] eqn:Hc; [by left|].
  right. by eapply change_request.
Qed.

Lemma release_changes c k p s : acts s c PRelease k ->
  may_change s (LConn c INone) (goto c p (with_shared (release_lease (shared s) (my_id k)) s)).
Proof.
  intros Ha. unfold may_change, release_lease. cbn. destruct (owner (shared s)) as [o|] eqn:Ho; [|by left].
  destruct (Z.eqb_spec (id o) (my_id k)); [|by left]. right. by eapply change_release.
Qed.

Lemma conn_step_changes c k i s s' : auth_ok auth s -> conns s !! c = Some k ->
  conn_step config auth c k i s = Some s' -> may_change s (LConn c i) s'.
Proof.
  intros Hok Hk Hst.
  assert (Ha : pc k <> PAuth -> pc k <> PDone -> acts s c (pc k) k).
  { intros H1 H2. split_and!; [done|done|].
    pose proof (past_gate auth c k s Hok Hk H1 H2) as Hp. unfold permitted_at in Hp.
    rewrite Hk in Hp. by injection Hp. }
  unfold conn_step in Hst. destruct (pc k) eqn:Hpc, i; try done; try specialize (Ha ltac:(done) ltac:(done)).
  all: repeat match type of Hst with
    | context [match ?x with _ => _ end] => destruct x eqn:?
    end; simplify_eq; eauto using start_changes, lease_changes, stop_changes, release_changes.
  all: left; cbn; rewrite ?fire_state, ?end_sweep_state, ?write_all_state; try done.
  - by destruct (command_turn r).
  - match goal with H : kill_pid _ _ _ = _ |- _ => apply kill_same in H as [H _] end. done.
Qed.

Lemma gone_changes s i m info st expected : proc_ok s -> monitors s !! i = Some m ->
  mpc m = MExit info -> handle_core_exit_locked (shared s) (mpid m) = (st, expected) ->
  st = shared s \/ change s (LMonitor i JNone) (shared s) st.
Proof.
  intros H Hm Hpc. unfold handle_core_exit_locked.
  destruct (core (shared s)) as [|r] eqn:Hc; [intros [= <- _]; by left|].
  destruct (Z.eqb_spec (pid r) (mpid m)); intros [= <- _]; [right|by left].
  eapply change_gone; [exact Hm|exact Hpc|exact Hc|done|].
  destruct (pi_proc _ _ _ _ _ H i m Hm) as (u & Hv & _ & Hw). rewrite Hpc in Hw.
  destruct (lost m); [by left|]. right. destruct (procs s !! i) as [p|]; [|done]. cbn in *. f_equal.
  apply reaped_status. unfold pview in Hv. injection Hv as _ _ Hu. destruct u; [|done].
  by destruct (Hw eq_refl).
Qed.

Lemma monitor_step_changes i m j s s' : proc_ok s -> monitors s !! i = Some m ->
  monitor_step config i m j s = Some s' -> may_change s (LMonitor i j) s'.
Proof.
  intros H Hm. unfold monitor_step. destruct (mpc m) as [| | |stop| |info|info|to info| | | |[|p ps] n|] eqn:Hpc, j as [|[]| | |]; try done.
  - repeat case_match; intros; simplify_eq; by left.
  - intros [= <-]. by left.
  - intros [= <-]. by left.
  - destruct (escalate _ _ _) as [[sg|] v]; intros [= <-]; left; [|done].
    unfold send_signal. by destruct sg, (holder (mpid m) (procs s) 0).
  - intros [= <-]. by left.
  - destruct (handle_core_exit_locked _ _) as [st expected] eqn:He. intros [= <-]. by eapply gone_changes.
  - intros [= <-]. by left.
  - intros [= <-]. left. by destruct to.
  - intros [= <-]. left. apply fire_state.
  - intros [= <-]. left. by case_match.
  - intros [= <-]. by left.
  - intros [= <-]. left. apply end_sweep_state.
  - destruct (kill_pid p ok s) as [s1 hit] eqn:Hk. intros [= <-]. left. by apply kill_same in Hk as [Hk _].
Qed.

(** C4: every step of every thread keeps the shared state or makes one of five
    changes, each made by the thread that is entitled to it, which is the one that
    steps, at the place of its code for it: a connection that was let in takes
    the lease, if it is free or it asked to take over; the connection whose id the
    lease has gives it up; a connection past the handshake records a core it
    spawned with a free pid, if none was recorded; one flags the recorded core as
    asked to stop; and a core's own monitor clears it, once its process was reaped
    or can no longer be waited for. *)
Theorem shared_state_contract s l s' : reachable config auth s -> step config auth s l = Some s' ->
  shared s' = shared s \/ change s l (shared s) (shared s').
Proof.
  intros Hr Hst. pose proof (reachable_proc_ok config auth s Hr) as Hp.
  pose proof (reachable_auth config auth s Hr) as Ha. unfold step in Hst. destruct (exited s); [done|].
  destruct l as [p|c i|i j| |ms|i st|p cmd|i|h].
  - left. by injection Hst as <-.
  - destruct (conns s !! c) eqn:Hk; [|done]. case_match; [done|]. by eapply conn_step_changes.
  - destruct (monitors s !! i) eqn:Hm; [|done]. case_match; [done|]. by eapply monitor_step_changes.
  - left. unfold timer_step in Hst. by repeat case_match; simplify_eq.
  - left. by case_match; simplify_eq.
  - left. by repeat case_match; simplify_eq.
  - left. by case_match; simplify_eq.
  - left. by repeat case_match; simplify_eq.
  - left. by injection Hst as <-.
Qed.

End Contract.

(** ** Witness *)

Import Schedule.

(** A connection has said hello and has its id. *)
Definition asking : Sys := default initial (run (take 4 (connects 0 false))).

Lemma asking_reachable : reachable asking.
Proof.
  apply (run_reachable the_config the_auth (take 4 (connects 0 false)) initial); [constructor|].
  vm_compute. reflexivity.
Qed.

Lemma shared_state_contract_witness : exists s', step asking (LConn 0 INone) = Some s' /\
  owner (shared s') = Some {| id := 1; conn := 0 |} /\ change the_auth asking (LConn 0 INone) (shared asking) (shared s').
Proof.
  eexists. split; [vm_compute; reflexivity|]. split; [vm_compute; reflexivity|].
  destruct (shared_state_contract the_config the_auth asking (LConn 0 INone) _ asking_reachable
    ltac:(vm_compute; reflexivity)) as [He|Hc].
  - vm_compute in He. discriminate He.
  - exact Hc.
Defined.
