(* ===== verification/Carried.v ===== *)
(** * What the threads carry

    Invariants about the values that travel through the supervisor: from the shared
    state and the system calls into the local variables of the threads and from
    there to the sockets.  Given predicates on the core, the places of the
    threads and the events, [carried] says that all that is in flight
    satisfies them; the lemmas treat the steps that merely pass values on. *)

From Stdlib Require Import ZArith Lia String.
From stdpp Require Import base list strings gmap.
From S2P Require Import Prelude RustStr Json Proto Config Auth Hooks CoreProc Janitor Server Supervisor Schedules ProcInv.
Import Proto.

Section Carried.
(** The core of the shared state, the place of a connection's thread, the events
    written to a connection, the place of a monitor. *)
Context {core_of : CoreProc -> Prop} {pc_of : nat -> Pc -> Prop}.
Context {event_of : nat -> Event.Event -> Prop} {mpc_of : nat -> MPc -> Prop}.

Definition conn_carried (c : nat) (k : Conn) : Prop := pc_of c (pc k) /\ Forall (event_of c) (wire k).

Record carried (s : Sys) : Prop := {
  ca_core : core_of (core (shared s));
  ca_conn c k : conns s !! c = Some k -> conn_carried c k;
  ca_monitor i m : monitors s !! i = Some m -> mpc_of i (mpc m)
}.

Lemma carried_conn s c f : carried s -> (forall k, conns s !! c = Some k -> conn_carried c (f k)) ->
  carried (on_conn c f s).
Proof.
  intros [H1 H2 H3] Hf. constructor; [done| |done]. cbn. intros j k. rewrite list_lookup_alter.
  case_decide; [subst j|by apply H2]. destruct (conns s !! c) as [k0|] eqn:Hk; [|done]. cbn. intros [= <-]. auto.
Qed.

Lemma carried_goto s c p : carried s -> pc_of c p -> carried (goto c p s).
Proof. intros H Hp. apply carried_conn; [done|]. intros k Hk. by destruct (ca_conn s H c k Hk). Qed.

Lemma put_carried c ev k : event_of c ev -> conn_carried c k -> conn_carried c (put ev k).
Proof.
  intros He [Hp Hw]. split; [done|]. cbn. destruct (live k); [|done]. apply Forall_app. by split; [|constructor].
Qed.

Lemma carried_write s c ev : carried s -> event_of c ev -> carried (write c ev s).
Proof. intros H He. apply carried_conn; [done|]. intros k Hk. apply put_carried; [done|]. by eapply (ca_conn s H). Qed.

Lemma carried_write_all c evs : forall s, carried s -> Forall (event_of c) evs -> carried (write_all c evs s).
Proof.
  induction evs as [|ev evs IH]; intros s H He; [done|]. inversion He; subst. cbn. apply IH; [|done].
  by apply carried_write.
Qed.

(** A field that is not looked at. *)
Lemma carried_view s s' : carried s -> core (shared s') = core (shared s) -> conns s' = conns s ->
  monitors s' = monitors s -> carried s'.
Proof. intros [H1 H2 H3] E1 E2 E3. constructor; rewrite ?E1, ?E2, ?E3; done. Qed.

Lemma carried_shared st s : carried s -> core_of (core st) -> carried (with_shared st s).
Proof. intros [H1 H2 H3] Hc. by constructor. Qed.

Lemma carried_keep c f s : carried s -> (forall k, pc (f k) = pc k) -> (forall k, wire (f k) = wire k) ->
  carried (on_conn c f s).
Proof.
  intros H Hp Hw. apply carried_conn; [done|]. intros k Hk. unfold conn_carried. rewrite Hp, Hw. by eapply (ca_conn s H).
Qed.

Lemma carried_fire ev why gen present s : carried s -> carried (fire ev why gen present s).
Proof. intros H. unfold fire. destruct present; by eapply carried_view. Qed.

Lemma carried_end_sweep n present s : carried s -> carried (end_sweep n present s).
Proof. intros H. unfold end_sweep. case_match; [by apply carried_fire|done]. Qed.

Lemma carried_kill p ok s s1 hit : carried s -> kill_pid p ok s = (s1, hit) -> carried s1.
Proof.
  intros H Hk. destruct (kill_pid_procs p ok s) as (ps & E & _). rewrite Hk in E. cbn in E. subst s1.
  by eapply carried_view.
Qed.

Lemma carried_monitor i f s : carried s -> (forall m, monitors s !! i = Some m -> mpc_of i (mpc (f m))) ->
  carried (on_monitor i f s).
Proof.
  intros [H1 H2 H3] Hf. constructor; [done|done|]. cbn.
  intros j m [(<- & m0 & Hm & ->)|[_ Hm]]%lookup_alter_Some; eauto.
Qed.

Lemma carried_born i s : carried s -> mpc_of i MWait -> carried (on_monitor i spawn_monitor s).
Proof.
  intros H Hw. apply carried_monitor; [done|]. intros m Hm. pose proof (ca_monitor s H i m Hm).
  unfold spawn_monitor. by destruct (mpc m) eqn:E; rewrite ?E.
Qed.

Lemma carried_send i p sg s : carried s -> carried (send_signal i p sg s).
Proof. intros H. unfold send_signal. destruct sg, (holder p (procs s) 0); by eapply carried_view. Qed.

Lemma carried_release me s : carried s -> carried (with_shared (release_lease (shared s) me) s).
Proof. intros H. apply carried_shared; [done|]. rewrite release_core. apply (ca_core s H). Qed.

Lemma carried_accept p s : carried s -> pc_of (length (conns s)) PAuth ->
  carried (with_conns (conns s ++ [new_conn p])%list s).
Proof.
  intros [H1 H2 H3] Ha. constructor; [done| |done]. cbn. intros c k [Hk|[Hc Hk]]%lookup_app_Some; [by eauto|].
  apply list_lookup_singleton_Some in Hk as [Hc' <-]. replace c with (length (conns s)) by lia. by repeat constructor.
Qed.

End Carried.

Arguments carried : clear implicits.
