(* ===== verification/WireInv.v ===== *)
(** * What is written to the sockets: what holds in every reachable state

    Every event on every connection has the field values its Rust types allow, so
    the client of the other side decodes each line it is sent. *)

From Stdlib Require Import ZArith Lia String.
From stdpp Require Import base list strings gmap.
From S2P Require Import Prelude RustStr Json JsonText Proto ClientProto Wire Config Auth Hooks CoreProc Janitor Server Supervisor Schedules ProcInv Carried.
Import Proto.

Open Scope string_scope.

(** ** The types of what the threads carry *)

Definition all_in (P : Z -> bool) (o : option Z) : Prop := forall n, o = Some n -> P n = true.

Definition info_wf (i : ExitInfo) : Prop := all_in in_i32 (code i) /\ all_in in_i32 (signal i).

Definition core_wf (co : CoreProc) : Prop :=
  match co with
  | Running r => in_i32 (pid r) = true /\ in_u16 (rpc_port r) = true
  | Stopped => True
  end.

Definition pc_wf (p : Pc) : Prop :=
  match p with
  | PHelloReply _ port => all_in in_u16 port
  | PReply ev => Event.wf ev
  | PMonitor _ pid port | PUpHook pid port => in_i32 pid = true /\ in_u16 port = true
  | _ => True
  end.

Definition mpc_wf (p : MPc) : Prop :=
  match p with MExit info | MPush info | MPushTo _ info => info_wf info | _ => True end.

Abbreviation typed := (carried core_wf (fun _ => pc_wf) (fun _ => Event.wf) (fun _ => mpc_wf)).

(** ** The values *)

Lemma all_in_none P : all_in P None.
Proof. by intros n [=]. Qed.

Lemma all_in_some (P : Z -> bool) n : P n = true -> all_in P (Some n).
Proof. by intros H m [= <-]. Qed.

#[local] Hint Resolve all_in_none all_in_some : core.

Lemma in_i32_small n : (0 <= n <= 255)%Z -> in_i32 n = true.
Proof. intros H. apply in_i32_spec. unfold i32_min, i32_max. lia. Qed.

Lemma land_mask n k : (0 <= k <= 8)%Z -> (0 <= Z.land n (Z.ones k) <= 255)%Z.
Proof.
  intros Hk. rewrite Z.land_ones by lia. pose proof (Z.mod_pos_bound n (2 ^ k) ltac:(lia)).
  assert (2 ^ k <= 2 ^ 8)%Z by (apply Z.pow_le_mono_r; lia). lia.
Qed.

(** An exit status has a code of 8 bits or a signal of 7. *)
Lemma from_status_wf st : info_wf (from_status st).
Proof.
  unfold from_status, info_wf. cbn [code signal]. split; intros n; case_match; intros [= <-];
    apply in_i32_small; [apply (land_mask _ 8); lia|apply (land_mask _ 7); lia].
Qed.

Lemma no_exit_info_wf : info_wf no_exit_info.
Proof. by split. Qed.

Lemma error_wf code msg : utf8_valid code = true -> utf8_valid msg = true -> Event.wf (Event.error code msg).
Proof. done. Qed.

Lemma snapshot_wf st co p port : core_wf (core st) -> core_snapshot st = (co, p, port) ->
  all_in in_i32 p /\ all_in in_u16 port.
Proof. unfold core_snapshot. destruct (core st) as [|r]; intros H [= <- <- <-]; [by split|]. destruct H. auto. Qed.

Lemma stop_reply_wf b : Event.wf (stop_reply b).
Proof. by destruct b. Qed.

Section Values.
Context {SJ : SerdeJson}.

Lemma read_hello_wf r t evs : read_hello r = (t, evs) -> Forall Event.wf evs.
Proof.
  unfold read_hello, decode_cmd, Event.error.
  destruct r as [[line|]|e]; [|by intros [= <- <-]..].
  destruct (from_str (trim line) ≫= Cmd.of_json) as [[p t0| | |]|]; [case_match|..]; intros [= <- <-];
    try done; apply Forall_singleton; split; solve_utf8; apply error_text_utf8.
Qed.

Lemma command_turn_wf r ev : command_turn r = Reply ev -> Event.wf ev.
Proof.
  unfold command_turn, decode_cmd. destruct r as [[line|]|e]; try done. case_match; [done|].
  destruct (from_str (trim line) ≫= Cmd.of_json) as [[]|]; intros [= <-]; repeat split; auto using error_text_utf8.
Qed.

End Values.

(** ** Every step *)

Section Steps.
Context {SJ : SerdeJson} (config : Config) (auth : AuthMode).
(** [core_path] is a Rust string. *)
Context (core_path_utf8 : utf8_valid (core_path config) = true).

Lemma typed_start c env s : typed s -> spawn_possible env s = true -> typed (do_start config c env s).
Proof using core_path_utf8.
  intros H Hp. unfold do_start, start_locked, pick_free_port, build_command.
  destruct (core (shared s)) as [|r] eqn:Hc.
  2: { apply carried_goto; [done|]. pose proof (ca_core s H) as Hr. by rewrite Hc in Hr. }
  unfold spawn_possible in Hp. apply andb_prop in Hp as [Hp Hs]. apply andb_prop in Hp as [Hf Hl].
  destruct (free_port env) as [port|e]; cbn [map_err];
    [|apply carried_goto; [done|]; apply error_wf; auto with utf8].
  destruct (log_opened env) as [u|e]; cbn [map_err];
    [|apply carried_goto; [done|]; apply error_wf; auto with utf8].
  destruct (spawned env) as [p|e]; cbn [map_err];
    [|apply carried_goto; [done|]; apply error_wf; auto 7 with utf8].
  breflect. assert (Hi : in_i32 p = true) by (apply in_i32_spec; unfold i32_min; lia).
  apply carried_goto; [|done]. constructor; cbn; [done|apply (ca_conn s H)|].
  intros i m [[<- <-]|[_ Hm]]%lookup_insert_Some; [done|]. by eapply (ca_monitor s H).
Qed.

Lemma typed_stop c why s : typed s -> typed (do_stop c why s).
Proof.
  intros H. unfold do_stop, stop_locked. pose proof (ca_core s H) as Hc.
  destruct (core (shared s)) as [|r]; [by apply carried_goto; [|destruct why]|].
  apply carried_goto; [|done]. by apply (carried_shared _ (with_requested _ s)); [eapply carried_view|].
Qed.

Lemma typed_lease c k t s : typed s -> typed (do_lease c k t s).
Proof.
  intros H. unfold do_lease. pose proof (lease_core (shared s) (my_id k) c t) as Hc.
  destruct (acquire_lease _ _ _ _) as [st [d|]]; cbn in Hc; [|apply carried_goto; [by apply carried_write|done]].
  apply carried_goto; [|done].
  assert (Hst : typed (with_shared st s)) by (apply carried_shared; [done|]; rewrite Hc; apply (ca_core s H)).
  destruct (option_map conn d); [by apply carried_keep|done].
Qed.

Lemma typed_turn c r s : typed s -> typed (do_turn c (command_turn r) s).
Proof.
  intros H. destruct (command_turn r) eqn:E; apply carried_goto; try done. by eapply command_turn_wf.
Qed.

Lemma conn_step_typed c k i s s' : typed s -> conns s !! c = Some k ->
  conn_step config auth c k i s = Some s' -> typed s'.
Proof using core_path_utf8.
  intros H Hk. destruct (ca_conn s H c k Hk) as [Hpc Hw]. unfold conn_step.
  destruct (pc k) as [| |t|t|[o|]| |co po| |ev| | |ch p po|p po|why|why|why| | |hook|hook [|q qs] n|h| |] eqn:E, i;
    try done; cbn in Hpc.
  - intros [= <-]. by destruct (peer k) as [u|e]; [case_match|]; apply carried_goto.
  - destruct (read_hello r) as [t evs] eqn:Hr. intros [= <-].
    apply carried_goto; [|by destruct t]. apply carried_write_all; [done|]. by eapply read_hello_wf.
  - intros [= <-]. apply carried_goto; [|done]. apply (carried_keep c _ (with_next_id _ s)); [by eapply carried_view|done..].
  - intros [= <-]. by apply typed_lease.
  - intros [= <-]. apply carried_goto; [|done]. apply carried_keep; [|done..]. destruct free; [by apply carried_write|done].
  - intros [= <-]. by apply carried_goto.
  - destruct (core_snapshot _) as [[co p] po] eqn:Hs. intros [= <-]. apply carried_goto; [done|].
    by apply snapshot_wf in Hs as [_ Hs]; [|apply (ca_core s H)].
  - intros [= <-]. apply carried_goto; [|done]. apply carried_write; [done|]. by split_and!.
  - intros [= <-]. apply typed_turn. by apply carried_keep.
  - intros [= <-]. apply carried_goto; [|done]. by apply carried_write.
  - destruct (core_snapshot _) as [[co p] po] eqn:Hs. intros [= <-]. apply carried_goto; [done|].
    by apply snapshot_wf in Hs; [|apply (ca_core s H)].
  - case_match; intros [= <-]. by apply typed_start.
  - intros [= <-]. apply carried_goto; [|done]. by apply carried_born.
  - intros [= <-]. apply carried_goto; [|done]. by apply carried_fire.
  - intros [= <-]. by apply typed_stop.
  - intros [= <-]. case_match; [by apply carried_goto|done].
  - intros [= <-]. apply carried_goto; [by apply carried_fire|by destruct why].
  - intros [= <-]. by apply carried_goto; [|case_match].
  - intros [= <-]. apply carried_goto; [|done]. by apply carried_release.
  - intros [= <-]. by apply carried_goto.
  - intros [= <-]. by apply carried_goto; [apply carried_end_sweep|destruct hook].
  - destruct (kill_pid q ok s) as [s1 hit] eqn:Hkill. intros [= <-]. apply carried_goto; [by eapply carried_kill|done].
  - case_match; [|done]. case_match; intros [= <-]. by apply carried_goto.
  - intros [= <-]. by eapply carried_view.
Qed.

Lemma monitor_step_typed i m j s s' : typed s -> monitors s !! i = Some m ->
  monitor_step config i m j s = Some s' -> typed s'.
Proof.
  intros H Hm. pose proof (ca_monitor s H i m Hm) as Hw. unfold monitor_step.
  destruct (mpc m) as [| | |stop| |info|info|to info| | | |[|p ps] n|] eqn:Hpc, j as [|[]| | |]; try done.
  - repeat case_match; intros; simplify_eq; (apply carried_monitor; [|intros; try done]); [done|by eapply carried_view|].
    apply from_status_wf.
  - intros [= <-]. apply carried_monitor; [done|]. intros. apply no_exit_info_wf.
  - intros [= <-]. by apply carried_monitor.
  - destruct (escalate _ _ _) as [[sg|] v]; intros [= <-]; (apply carried_monitor; [|done]); [by apply carried_send|done].
  - intros [= <-]. by apply carried_monitor.
  - destruct (handle_core_exit_locked _ _) as [st expected] eqn:He. intros [= <-].
    apply carried_monitor; [|intros; by destruct expected]. apply carried_shared; [done|].
    unfold handle_core_exit_locked in He. injection He as <- _. pose proof (ca_core s H). by repeat case_match.
  - intros [= <-]. by apply carried_monitor.
  - intros [= <-]. apply carried_monitor; [|done]. destruct to; [|done]. by apply carried_write.
  - intros [= <-]. apply carried_monitor; [by apply carried_fire|done].
  - intros [= <-]. case_match; (apply carried_monitor; [|done]); [by eapply carried_view|done].
  - intros [= <-]. by apply carried_monitor.
  - intros [= <-]. apply carried_monitor; [|done].
    eapply (carried_view (end_sweep n present s)); [by apply carried_end_sweep|done..].
  - destruct (kill_pid p ok s) as [s1 hit] eqn:Hkill. intros [= <-].
    apply carried_monitor; [by eapply carried_kill|done].
Qed.

Lemma step_typed s l s' : typed s -> step config auth s l = Some s' -> typed s'.
Proof using core_path_utf8.
  intros H. unfold step. destruct (exited s); [done|]. destruct l as [p|c i|i j| |ms|i st|p cmd|i|h].
  - intros [= <-]. by apply carried_accept.
  - destruct (conns s !! c) eqn:Hk; [|done]. case_match; [done|]. by apply conn_step_typed.
  - destruct (monitors s !! i) eqn:Hm; [|done]. case_match; [done|]. by apply monitor_step_typed.
  - unfold timer_step. repeat case_match; intros; simplify_eq; by eapply carried_view.
  - case_match; intros; simplify_eq; by eapply carried_view.
  - repeat case_match; intros; simplify_eq; by eapply carried_view.
  - case_match; intros; simplify_eq; by eapply carried_view.
  - repeat case_match; intros; simplify_eq; by eapply carried_view.
  - intros [= <-]. by eapply carried_view.
Qed.

Lemma reachable_typed s : reachable config auth s -> typed s.
Proof using core_path_utf8.
  induction 1 as [|s l s' Hr IH Hst]; [constructor; cbn; done|by eapply step_typed].
Qed.

(** C22: every event the supervisor ever writes, on whatever connection and in
    whatever interleaving, has the field values its Rust types allow (a pid and an
    exit code of 32 bits, a port of 16, texts in UTF-8), provided the operating
    system's answers and the configured path have theirs; so the client decodes
    each line as that event. *)
Theorem wire_well_typed s c k ev : reachable config auth s -> conns s !! c = Some k -> ev ∈ wire k ->
  Event.wf ev /\ ClientProto.decode_event (encode_event ev) = Ok (client_event ev).
Proof using core_path_utf8.
  intros Hr Hk Hev. destruct (ca_conn s (reachable_typed s Hr) c k Hk) as [_ Hw].
  assert (He : Event.wf ev) by (by eapply Forall_forall in Hw).
  split; [done|]. by apply decode_encode_event.
Qed.

End Steps.

(** ** Witness *)

Import Schedule.

Lemma wire_well_typed_witness :
  last (wire_of 0 crashed) = Some (Event.CoreExited None (Some 11%Z)) /\
  Event.wf (Event.CoreExited None (Some 11%Z)) /\
  ClientProto.decode_event (encode_event (Event.CoreExited None (Some 11%Z)))
    = Ok (ClientProto.Event.CoreExited None (Some 11%Z)).
Proof.
  split; [vm_compute; reflexivity|].
  assert (Hk : exists k, conns crashed !! 0 = Some k /\ Event.CoreExited None (Some 11%Z) ∈ wire k).
  { exists (default (new_conn (Ok 0%Z)) (conns crashed !! 0)). split; [vm_compute; reflexivity|].
    apply (bool_decide_unpack _). vm_compute. exact I. }
  destruct Hk as (k & Hk & Hev).
  apply (wire_well_typed the_config the_auth ltac:(vm_compute; reflexivity) crashed 0 k _ crashed_reachable Hk Hev).
Defined.
