(* ===== verification/ReplyInv.v ===== *)
(** * The replies on a connection: what holds in every reachable state

    The protocol has no request ids: the bridge matches replies to requests by
    their order ([ClientInv]).  Here is the supervisor's part of that bargain: one
    reply for each command, in the order of the commands, whatever pushes other
    threads write in between. *)

From Stdlib Require Import ZArith Lia String.
From stdpp Require Import base list strings gmap.
From S2P Require Import Prelude RustStr Json JsonText Proto ClientProto Config Auth Hooks CoreProc Janitor Server Supervisor Schedules ProcInv.
Import Proto.

Open Scope string_scope.

(** ** Requests and replies *)

(** A turn of the command loop that owes a reply. *)
Definition asks (t : Turn) : bool :=
  match t with Break | Continue => false | _ => true end.

(** What a connection is owed, in order: [None] stands for the [hello] that let it
    in. *)
Definition asked (k : Conn) : list (option Turn) := None :: map Some (List.filter asks (heard k)).

(** Events that answer nobody. *)
Definition is_push (ev : Event.Event) : bool :=
  match ev with Event.CoreExited _ _ | Event.Kicked | Event.Busy _ => true | _ => false end.

Definition replies (k : Conn) : list Event.Event := List.filter (fun ev => negb (is_push ev)) (wire k).

Definition answers (t : option Turn) (ev : Event.Event) : bool :=
  match t, ev with
  | None, Event.Hello _ _ _ _ => true
  | Some (Reply e), _ => bool_decide (ev = e)
  | Some DoStart, Event.CoreStarted _ _ => true
  | Some DoStart, Event.Error code _ => code =? "spawn_failed"
  | Some DoStatus, Event.Status _ _ _ => true
  | Some DoStop, Event.CoreStopped _ => true
  | _, _ => false
  end.

Definition all_answered (ts : list (option Turn)) (evs : list Event.Event) : Prop :=
  Forall2 (fun t ev => answers t ev = true) ts evs.

(** ** The invariant *)

(** The turn a thread at [p] is working on. *)
Definition awaited (p : Pc) (t : option Turn) : Prop :=
  match p with
  | PAuth | PHello | PNextId _ | PLease _ | PNotify _ | PSnapshot | PHelloReply _ _ => t = None
  | PReply ev => answers t ev = true /\ is_push ev = false
  | PStatus => t = Some DoStatus
  | PStart | PMonitor _ _ _ | PUpHook _ _ => t = Some DoStart
  | PStop Requested | PStopWait Requested | PDownHook Requested => t = Some DoStop
  | _ => False
  end.

Definition pending (p : Pc) : bool :=
  match p with
  | PAuth | PHello | PNextId _ | PLease _ | PNotify _ | PSnapshot | PHelloReply _ _
  | PReply _ | PStatus | PStart | PMonitor _ _ _ | PUpHook _ _
  | PStop Requested | PStopWait Requested | PDownHook Requested => true
  | _ => false
  end.

(** A connection still open owes nothing but the turn it works on; one that was
    shut down was answered up to some turn. *)
Definition up_to_date (k : Conn) : Prop :=
  if live k then
    if pending (pc k)
    then exists l t, asked k = (l ++ [t])%list /\ awaited (pc k) t /\ all_answered l (replies k)
    else all_answered (asked k) (replies k)
  else exists n, all_answered (take n (asked k)) (replies k).

Definition is_hello (ev : Event.Event) : bool := match ev with Event.Hello _ _ _ _ => true | _ => false end.

(** A connection that was turned away was never greeted. *)
Definition reply_inv (k : Conn) : Prop :=
  up_to_date k \/ (pc k = PDone /\ asked k = [None] /\ Forall (fun ev => is_hello ev = false) (replies k)).

Definition reply_ok (s : Sys) : Prop := forall c k, conns s !! c = Some k -> reply_inv k.

(** ** Steps of one connection *)

Lemma some_prefix k : up_to_date k -> exists n, all_answered (take n (asked k)) (replies k).
Proof.
  unfold up_to_date. destruct (live k); [|done]. case_match.
  - intros (l & t & -> & _ & Hl). exists (length l). by rewrite take_app_length.
  - intros Hl. exists (length (asked k)). by rewrite firstn_all.
Qed.

Lemma move_inv k p : reply_inv k -> pc k <> PDone -> pending p = pending (pc k) ->
  (forall t, awaited (pc k) t -> awaited p t) -> reply_inv (set_pc p k).
Proof.
  intros [H|[H _]] Hd Hp Ha; [|done]. left. unfold up_to_date in *. cbn. rewrite Hp. unfold asked, replies in *. cbn.
  destruct (live k); [|done]. destruct (pending (pc k)); [|done]. destruct H as (l & t & ? & ? & ?).
  exists l, t. auto.
Qed.

(** It had no command yet. *)
Lemma fresh_asked k : up_to_date k -> (forall t, awaited (pc k) t -> t = None) -> pending (pc k) = true ->
  live k = true -> asked k = [None].
Proof.
  intros H Ha Hp Hl. unfold up_to_date in H. rewrite Hl, Hp in H.
  destruct H as (l & t & Hk & Ht & _). apply Ha in Ht as ->. unfold asked in *.
  destruct l as [|x l]; [done|]. exfalso. injection Hk as _ Hk.
  assert (Hin : None ∈ Some <$> List.filter asks (heard k)).
  { change (None ∈ map Some (List.filter asks (heard k))). rewrite Hk. apply elem_of_app. right.
    by apply list_elem_of_singleton. }
  by apply list_elem_of_fmap in Hin as (? & [=] & _).
Qed.

Lemma replies_put ev k : replies (put ev k) = if live k && negb (is_push ev) then (replies k ++ [ev])%list else replies k.
Proof.
  unfold replies. cbn. destruct (live k); [|done]. cbn. rewrite List.filter_app. cbn.
  destruct (is_push ev); cbn; [by rewrite app_nil_r|done].
Qed.

(** It writes the reply it owes. *)
Lemma reply_step_inv k ev p : reply_inv k -> pc k <> PDone -> pending (pc k) = true ->
  is_push ev = false -> (forall t, awaited (pc k) t -> answers t ev = true) -> pending p = false ->
  reply_inv (set_pc p (put ev k)).
Proof.
  intros [H|[H _]] Hd Hpc Hev Ha Hp; [|done]. left. unfold up_to_date in *.
  change (live (set_pc p (put ev k))) with (live k). change (pc (set_pc p (put ev k))) with p.
  change (asked (set_pc p (put ev k))) with (asked k).
  change (replies (set_pc p (put ev k))) with (replies (put ev k)). rewrite replies_put, Hev, Hp. cbn [negb].
  destruct (live k); [|done]. cbn [andb]. rewrite Hpc in H. destruct H as (l & t & Hk & Ht & Hl).
  rewrite Hk. apply Forall2_app; [done|]. by constructor; [apply Ha|].
Qed.

Lemma fresh_replies k : up_to_date k -> (forall t, awaited (pc k) t -> t = None) -> pending (pc k) = true ->
  live k = true -> replies k = [].
Proof.
  intros H Ha Hp Hl. pose proof (fresh_asked k H Ha Hp Hl) as Hf. unfold up_to_date in H. rewrite Hl, Hp in H.
  destruct H as (l & t & Hk & _ & Hr). rewrite Hf in Hk. destruct l as [|x [|y l]]; try done. by inversion Hr.
Qed.

(** It is turned away before its session. *)
Lemma reject_inv k k' : reply_inv k -> (forall t, awaited (pc k) t -> t = None) -> pending (pc k) = true ->
  heard k' = heard k -> live k' = live k -> (live k = false -> wire k' = wire k) ->
  (replies k = [] -> Forall (fun ev => is_hello ev = false) (replies k')) ->
  reply_inv (set_pc PDone k').
Proof.
  intros [H|[H _]] Ha Hp Hh Hl Hw Hg; [|by rewrite H in Hp].
  destruct (live k) eqn:E.
  - right. split; [done|]. split; [|by apply Hg, (fresh_replies k)].
    unfold asked. cbn. rewrite Hh. by apply (fresh_asked k).
  - left. unfold up_to_date, asked, replies in *. cbn. by rewrite Hl, Hh, Hw, E in *.
Qed.

(** It reads a command. *)
Lemma hear_inv k t p : reply_inv k -> pc k = PLoop ->
  (if asks t then pending p = true /\ awaited p (Some t) else pending p = false) ->
  reply_inv (set_pc p (hear t k)).
Proof.
  intros [H|[H _]] Hpc Hp; [|congruence].
  assert (Hk : asked (set_pc p (hear t k)) = (asked k ++ if asks t then [Some t] else [])%list).
  { unfold asked. cbn. rewrite List.filter_app. cbn. destruct (asks t); [by rewrite map_app|by rewrite !app_nil_r]. }
  left. unfold up_to_date in *. rewrite Hk. change (live (set_pc p (hear t k))) with (live k).
  change (pc (set_pc p (hear t k))) with p. change (replies (set_pc p (hear t k))) with (replies k).
  rewrite Hpc in H. destruct (live k).
  - destruct (asks t); [|by rewrite Hp, app_nil_r]. destruct Hp as [-> Ht]. eauto.
  - destruct H as [n Hn]. exists (n `min` length (asked k)). rewrite take_app_le by lia.
    destruct (decide (n <= length (asked k))) as [Hle|Hgt].
    + by rewrite Nat.min_l.
    + rewrite Nat.min_r by lia. rewrite firstn_all. rewrite take_ge in Hn by lia. done.
Qed.

(** Another thread pushes an event, or shuts the socket down. *)
Lemma push_inv ev k : is_push ev = true -> reply_inv k -> reply_inv (put ev k).
Proof.
  intros He [H|(H1 & H2 & H3)].
  2: { right. split; [done|]. split; [done|]. by rewrite replies_put, He, andb_false_r. }
  left. unfold up_to_date in *. change (live (put ev k)) with (live k).
  change (pc (put ev k)) with (pc k). change (asked (put ev k)) with (asked k).
  by rewrite replies_put, He, andb_false_r.
Qed.

Lemma down_inv k : reply_inv k -> reply_inv (set_down k).
Proof. intros [H|H]; [left|by right]. exact (some_prefix k H). Qed.

Lemma kicked_inv k : reply_inv k -> reply_inv (set_kicked k).
Proof. done. Qed.

Lemma id_inv n k : reply_inv k -> reply_inv (set_id n k).
Proof. done. Qed.

(** ** Every step *)

Lemma ok_conn s c f : reply_ok s -> (forall k, conns s !! c = Some k -> reply_inv (f k)) ->
  reply_ok (on_conn c f s).
Proof.
  intros H Hf j k. cbn. rewrite list_lookup_alter. case_decide; [subst j|by apply H].
  destruct (conns s !! c) as [k0|] eqn:Hk; [|done]. cbn. intros [= <-]. auto.
Qed.

Lemma ok_conn2 s c f g : reply_ok s -> (forall k, conns s !! c = Some k -> reply_inv (f (g k))) ->
  reply_ok (on_conn c f (on_conn c g s)).
Proof.
  intros H Hf j k. cbn. rewrite list_alter_alter_eq, list_lookup_alter. case_decide; [subst j|by apply H].
  destruct (conns s !! c) as [k0|] eqn:Hk; [|done]. cbn. intros [= <-]. auto.
Qed.

Lemma ok_view s s' : reply_ok s -> conns s' = conns s -> reply_ok s'.
Proof. intros H E j k. rewrite E. apply H. Qed.

(** The thread of [c] goes on to [p]. *)
Lemma ok_move c k p s1 : reply_ok s1 -> pc <$> conns s1 !! c = Some (pc k) -> pc k <> PDone ->
  pending p = pending (pc k) -> (forall t, awaited (pc k) t -> awaited p t) -> reply_ok (goto c p s1).
Proof.
  intros H Hk Hd Hp Ha. apply ok_conn; [done|]. intros k1 Hk1. rewrite Hk1 in Hk. injection Hk as E.
  apply move_inv; rewrite ?E; [by eapply H|done..].
Qed.

Definition put_all (evs : list Event.Event) (k : Conn) : Conn := foldl (fun k ev => put ev k) k evs.

Lemma put_all_same evs : forall k, heard (put_all evs k) = heard k /\ live (put_all evs k) = live k /\
  (live k = false -> wire (put_all evs k) = wire k) /\ pc (put_all evs k) = pc k.
Proof.
  induction evs as [|ev evs IH]; intros k; [done|].
  change (put_all (ev :: evs) k) with (put_all evs (put ev k)). destruct (IH (put ev k)) as (-> & -> & H3 & ->).
  split_and!; [done|done| |done]. intros Hl. rewrite H3 by done. cbn. by rewrite Hl.
Qed.

Lemma put_all_replies evs : Forall (fun ev => is_hello ev = false) evs -> forall k,
  Forall (fun ev => is_hello ev = false) (replies k) ->
  Forall (fun ev => is_hello ev = false) (replies (put_all evs k)).
Proof.
  induction 1 as [|ev evs Hev _ IH]; intros k Hk; [done|]. apply (IH (put ev k)).
  rewrite replies_put. case_match; [|done]. apply Forall_app. by split; [|constructor].
Qed.

Lemma read_hello_greets {SJ : SerdeJson} r : Forall (fun ev => is_hello ev = false) (read_hello r).2.
Proof. unfold read_hello. by repeat case_match; repeat constructor. Qed.

Lemma write_all_conns c evs : forall s, conns (write_all c evs s) = alter (put_all evs) c (conns s).
Proof.
  induction evs as [|ev evs IH]; intros s.
  - cbn. symmetry. apply list_eq. intros i. rewrite list_lookup_alter. case_decide; [subst i|done].
    by destruct (conns s !! c).
  - change (write_all c (ev :: evs) s) with (write_all c evs (write c ev s)). rewrite IH. apply list_alter_alter_eq.
Qed.

Lemma start_reply_answers r : answers (Some DoStart) (start_reply r) = true /\ is_push (start_reply r) = false.
Proof. by destruct r as [[]|]. Qed.

Section Steps.
Context {SJ : SerdeJson} (config : Config) (auth : AuthMode).

(** It is turned away, perhaps with an event. *)
Lemma ok_reject c k evs s : reply_ok s -> conns s !! c = Some k ->
  (forall t, awaited (pc k) t -> t = None) -> pending (pc k) = true ->
  Forall (fun ev => is_hello ev = false) evs -> reply_ok (goto c PDone (write_all c evs s)).
Proof.
  intros H Hk Ha Hp Hev j k'. cbn. rewrite write_all_conns, list_alter_alter_eq, list_lookup_alter.
  case_decide; [subst j|by apply H]. rewrite Hk. cbn. intros [= <-].
  destruct (put_all_same evs k) as (H1 & H2 & H3 & _). eapply reject_inv; eauto.
  intros Hr. apply put_all_replies; [done|]. by rewrite Hr.
Qed.

Lemma ok_turn c k t s : reply_ok s -> conns s !! c = Some k -> pc k = PLoop ->
  (forall ev, t = Reply ev -> is_push ev = false) -> reply_ok (do_turn c t (on_conn c (hear t) s)).
Proof.
  intros H Hk Hpc Ht. destruct t; cbn [do_turn]; (apply ok_conn2; [done|]; intros k0 Hk0; simplify_eq;
    (apply hear_inv; [by eapply H|done|])); cbn; try done.
  split; [done|]. split; [by apply bool_decide_eq_true|auto].
Qed.

Lemma command_turn_reply r ev : command_turn r = Reply ev -> is_push ev = false.
Proof. unfold command_turn. by repeat case_match; intros [= <-]. Qed.

Lemma ok_lease c k t s : reply_ok s -> conns s !! c = Some k -> pc k = PLease t -> reply_ok (do_lease c k t s).
Proof.
  intros H Hk Hpc. unfold do_lease. destruct (acquire_lease _ _ _ _) as [st [d|]].
  - eapply (ok_move c k); rewrite ?Hpc; try done.
    + destruct (option_map conn d) as [o|]; [|by eapply ok_view]. apply ok_conn; [by eapply ok_view|].
      intros k0 Hk0. apply kicked_inv. by eapply H.
    + destruct (option_map conn d) as [o|]; cbn; [|by rewrite Hk; cbn; rewrite Hpc].
      rewrite list_lookup_alter, Hk. case_decide; cbn; [subst o|]; by rewrite ?Hk; cbn; rewrite Hpc.
  - apply (ok_reject c k [Event.Busy true]); [done|done|by rewrite Hpc|by rewrite Hpc|by constructor].
Qed.

Lemma ok_start c k env s : reply_ok s -> conns s !! c = Some k -> pc k = PStart -> reply_ok (do_start config c env s).
Proof.
  intros H Hk Hpc. unfold do_start.
  destruct (start_locked config env (shared s)) as [st [[p po|]|e]];
    eapply (ok_move c k); rewrite ?Hpc; try done.
  all: try by (cbn; rewrite Hk; cbn; rewrite Hpc).
  all: intros t ->; apply start_reply_answers.
Qed.

Lemma ok_stop c k why s : reply_ok s -> conns s !! c = Some k -> pc k = PStop why -> reply_ok (do_stop c why s).
Proof.
  intros H Hk Hpc. unfold do_stop. destruct (stop_locked (shared s)) as [st []];
    eapply (ok_move c k); rewrite ?Hpc; try done; try by (destruct why).
  all: try by (cbn; rewrite Hk; cbn; rewrite Hpc).
  intros t Ht. destruct why; try done. cbn in Ht. by subst t.
Qed.

Lemma kill_conns p ok s s1 hit : kill_pid p ok s = (s1, hit) -> conns s1 = conns s.
Proof. intros H. destruct (kill_pid_procs p ok s) as (ps & E & _). rewrite H in E. cbn in E. by subst s1. Qed.

Lemma fire_conns' ev why gen present s : conns (fire ev why gen present s) = conns s.
Proof. unfold fire. by destruct present. Qed.

Lemma end_sweep_conns' n present s : conns (end_sweep n present s) = conns s.
Proof. unfold end_sweep. case_match; [apply fire_conns'|done]. Qed.

(** The plain moves of a thread: nothing else happens to the connections. *)
Lemma ok_plain c k p s s1 : reply_ok s -> conns s !! c = Some k -> conns s1 = conns s -> pc k <> PDone ->
  pending p = pending (pc k) -> (forall t, awaited (pc k) t -> awaited p t) -> reply_ok (goto c p s1).
Proof. intros H Hk E. apply (ok_move c k p); [by eapply ok_view|]. by rewrite E, Hk. Qed.

Lemma ok_notify c k o (free : bool) s : reply_ok s -> conns s !! c = Some k -> pc k = PNotify (Some o) ->
  reply_ok (goto c PSnapshot (on_conn o set_down (if free then write o Event.Kicked s else s))).
Proof.
  intros H Hk E. eapply (ok_move c k); rewrite ?E; try done.
  - apply ok_conn.
    + destruct free; [|done]. apply ok_conn; [done|]. intros k0 Hk0. apply push_inv; [done|]. by eapply H.
    + intros k0 Hk0. apply down_inv. destruct free; [|by eapply H].
      cbn in Hk0. rewrite list_lookup_alter_eq in Hk0. destruct (conns s !! o) as [k1|] eqn:Hk1; [|done].
      injection Hk0 as <-. apply push_inv; [done|]. by eapply H.
  - destruct free; cbn; rewrite !list_lookup_alter; repeat case_decide; subst; rewrite ?Hk; cbn; by rewrite ?E.
Qed.

Lemma ok_reply c k ev s : reply_ok s -> conns s !! c = Some k -> pc k = PReply ev ->
  reply_ok (goto c PLoop (write c ev s)).
Proof.
  intros H Hk E. apply ok_conn2; [done|]. intros k0 Hk0. simplify_eq. destruct (is_push ev) eqn:Hev.
  - destruct (H c k Hk) as [Hu|[Hu _]]; [|congruence].
    unfold up_to_date in Hu. destruct (live k) eqn:Hl.
    + rewrite E in Hu. cbn in Hu. destruct Hu as (l & t & _ & [_ Ht] & _). congruence.
    + left. unfold up_to_date. change (live (set_pc PLoop (put ev k))) with (live k).
      change (asked (set_pc PLoop (put ev k))) with (asked k).
      change (replies (set_pc PLoop (put ev k))) with (replies (put ev k)). by rewrite replies_put, Hl.
  - apply reply_step_inv; rewrite ?E; try done; [by eapply H|]. by intros t [].
Qed.

Lemma conn_step_reply c k i s s' : reply_ok s -> conns s !! c = Some k ->
  conn_step config auth c k i s = Some s' -> reply_ok s'.
Proof.
  intros H Hk. unfold conn_step.
  destruct (pc k) as [| |t|t|[o|]| |co po| |ev| | |ch p po|p po|why|why|why| | |hook|hook [|q qs] n|h| |] eqn:E, i;
    try done.
  - intros [= <-].
    assert (Hr : reply_ok (goto c PDone s)) by (apply (ok_reject c k []); [done|done|by rewrite E..|done]).
    assert (Hh : reply_ok (goto c PHello s)) by (eapply (ok_plain c k _ s s); rewrite ?E; done).
    destruct (peer k) as [u|]; [|done]. by destruct (allows auth u && ok).
  - destruct (read_hello r) as [t evs] eqn:Hr. intros [= <-]. destruct t as [t|].
    + replace evs with (@nil Event.Event); [eapply (ok_plain c k _ s s); rewrite ?E; done|].
      unfold read_hello in Hr. by repeat case_match; simplify_eq.
    + apply (ok_reject c k); [done|done|by rewrite E|by rewrite E|]. pose proof (read_hello_greets r) as Hg.
      by rewrite Hr in Hg.
  - intros [= <-]. eapply (ok_move c k); rewrite ?E; try done.
    + apply ok_conn; [by eapply ok_view|]. intros k0 Hk0. apply id_inv. by eapply H.
    + cbn. rewrite list_lookup_alter_eq, Hk. cbn. by rewrite E.
  - intros [= <-]. by apply ok_lease.
  - intros [= <-]. by apply (ok_notify c k).
  - intros [= <-]. eapply (ok_plain c k _ s s); rewrite ?E; done.
  - destruct (core_snapshot _) as [[co p] po]. intros [= <-]. eapply (ok_plain c k _ s s); rewrite ?E; done.
  - intros [= <-]. apply ok_conn2; [done|]. intros k0 Hk0. simplify_eq.
    apply reply_step_inv; rewrite ?E; try done; [by eapply H|]. by intros t ->.
  - intros [= <-]. apply (ok_turn c k); try done. intros ev. apply command_turn_reply.
  - intros [= <-]. by apply (ok_reply c k).
  - destruct (core_snapshot _) as [[co p] po]. intros [= <-]. eapply (ok_plain c k _ s s); rewrite ?E; try done.
    by intros t ->.
  - case_match; intros [= <-]. by apply (ok_start c k).
  - intros [= <-]. eapply (ok_plain c k _ s); rewrite ?E; done.
  - intros [= <-]. eapply (ok_plain c k _ s); rewrite ?E; try done; [apply fire_conns'|].
    by intros t ->.
  - intros [= <-]. by apply (ok_stop c k).
  - intros [= <-]. case_match; [|done]. eapply (ok_plain c k _ s s); rewrite ?E; done.
  - intros [= <-]. eapply (ok_plain c k _ s); rewrite ?E; try done; [apply fire_conns'|by destruct why|].
    intros t Ht. destruct why; try done. cbn in Ht. by subst t.
  - intros [= <-]. by case_match; eapply (ok_plain c k _ s s); rewrite ?E.
  - intros [= <-]. by eapply (ok_plain c k _ s); rewrite ?E.
  - intros [= <-]. by eapply (ok_plain c k _ s); rewrite ?E.
  - intros [= <-]. by eapply (ok_plain c k _ s); rewrite ?E; [..|apply end_sweep_conns'| |destruct hook|].
  - destruct (kill_pid q ok s) as [s1 hit] eqn:Hkill. intros [= <-].
    eapply (ok_plain c k _ s); rewrite ?E; try done. by eapply kill_conns.
  - case_match; [|done]. case_match; intros [= <-]. by eapply (ok_plain c k _ s s); rewrite ?E.
  - by intros [= <-].
Qed.

Lemma monitor_step_reply i m j s s' : reply_ok s -> monitor_step config i m j s = Some s' -> reply_ok s'.
Proof.
  intros H. unfold monitor_step.
  destruct (mpc m) as [| | |stop| |info|info|to info| | | |[|p ps] n|] eqn:Hpc, j as [|[]| | |]; try done.
  - repeat case_match; intros; simplify_eq; by eapply ok_view.
  - intros [= <-]. by eapply ok_view.
  - intros [= <-]. by eapply ok_view.
  - destruct (escalate _ _ _) as [[sg|] v]; intros [= <-]; (eapply ok_view; [exact H|]); [|done].
    unfold send_signal. by destruct sg, (holder (mpid m) (procs s) 0).
  - intros [= <-]. by eapply ok_view.
  - destruct (handle_core_exit_locked _ _) as [st expected]. intros [= <-]. by eapply ok_view.
  - intros [= <-]. by eapply ok_view.
  - intros [= <-]. destruct to as [c|]; [|by eapply ok_view]. apply ok_conn; [done|].
    intros k Hk. apply push_inv; [done|]. by eapply H.
  - intros [= <-]. eapply ok_view; [exact H|apply fire_conns'].
  - intros [= <-]. case_match; by eapply ok_view.
  - intros [= <-]. by eapply ok_view.
  - intros [= <-]. eapply ok_view; [exact H|apply end_sweep_conns'].
  - destruct (kill_pid p ok s) as [s1 hit] eqn:Hkill. intros [= <-]. eapply ok_view; [exact H|exact (kill_conns _ _ _ _ _ Hkill)].
Qed.

Lemma step_reply s l s' : reply_ok s -> step config auth s l = Some s' -> reply_ok s'.
Proof.
  intros H. unfold step. destruct (exited s); [done|]. destruct l as [p|c i|i j| |ms|i st|p cmd|i|h].
  - intros [= <-] c k [Hk|[_ Hk]]%lookup_app_Some; [by eapply H|].
    apply list_lookup_singleton_Some in Hk as [_ <-]. left. unfold up_to_date. cbn. exists [], None.
    by split_and!; [| |constructor].
  - destruct (conns s !! c) eqn:Hk; [|done]. case_match; [done|]. by apply conn_step_reply.
  - destruct (monitors s !! i) eqn:Hm; [|done]. case_match; [done|]. by apply monitor_step_reply.
  - unfold timer_step. repeat case_match; intros; simplify_eq; by eapply ok_view.
  - case_match; intros; simplify_eq; by eapply ok_view.
  - repeat case_match; intros; simplify_eq; by eapply ok_view.
  - case_match; intros; simplify_eq; by eapply ok_view.
  - repeat case_match; intros; simplify_eq; by eapply ok_view.
  - intros [= <-]. by eapply ok_view.
Qed.

Lemma reachable_reply s : reachable config auth s -> reply_ok s.
Proof. induction 1 as [|s l s' Hr IH Hst]; [by intros c k Hk|by eapply step_reply]. Qed.

(** C23: the replies on a connection answer its commands one to one and in order,
    the [hello] first: leaving out the pushes, the events written to a connection
    that was let in are the answers to what it asked up to some point; while it is
    open and its thread waits for the next command, nothing it asked is
    unanswered. *)
Theorem replies_in_order s c k : reachable config auth s -> conns s !! c = Some k ->
  pc k <> PDone \/ asked k <> [None] ->
  (exists n, all_answered (take n (asked k)) (replies k)) /\
  (pc k = PLoop -> live k = true -> all_answered (asked k) (replies k)).
Proof.
  intros Hr Hk Hs. destruct (reachable_reply s Hr c k Hk) as [Hu|(Hd & Ha & _)]; [|naive_solver].
  split; [by apply some_prefix|]. intros Hpc Hl. unfold up_to_date in Hu. by rewrite Hl, Hpc in Hu.
Qed.

End Steps.

(** ** Witness *)

Import Schedule.

(** A session with a [start], a crash push, a blank line, a [status] and a line
    that is no command. *)
Definition chatter_schedule : list Label :=
  connects 0 false ++ greeted 0 ++ spawns 0 100 ++ started 0 ++ dies 0 11 ++
  [LMonitor 0 JNone; LMonitor 0 JNone; LConn 0 (IRead (Ok (Some nl)))] ++
  [LConn 0 (line_of ClientProto.Cmd.Status); LConn 0 INone; LConn 0 INone;
   LConn 0 (IRead (Ok (Some "what?"))); LConn 0 INone].
Definition chatter : Sys := default initial (run chatter_schedule).
Definition chatter_conn : Conn := default (new_conn (Ok 0%Z)) (conns chatter !! 0).

Lemma chatter_reachable : reachable chatter.
Proof.
  apply (run_reachable the_config the_auth chatter_schedule initial); [constructor|].
  vm_compute. reflexivity.
Qed.

Lemma replies_in_order_witness :
  wire_of 0 chatter = [Event.Hello 1 "0.1.0" CoreState.Stopped None; Event.CoreStarted 100 50321;
    Event.CoreExited None (Some 11%Z); Event.Status CoreState.Stopped None None;
    Event.Error "bad_request" "invalid JSON"] /\
  asked chatter_conn = [None; Some DoStart; Some DoStatus; Some (Reply (Event.Error "bad_request" "invalid JSON"))] /\
  all_answered (asked chatter_conn) (replies chatter_conn).
Proof.
  split; [vm_compute; reflexivity|]. split; [vm_compute; reflexivity|].
  apply (replies_in_order the_config the_auth chatter 0 chatter_conn chatter_reachable).
  - vm_compute. reflexivity.
  - left. vm_compute. discriminate.
  - vm_compute. reflexivity.
  - vm_compute. reflexivity.
Defined.
