(* ===== verification/Sweeps.v ===== *)
(** * The sweep of a thread is the sweep of [janitor.rs]

    [Supervisor] takes a sweep apart into its system calls and reads the process
    table itself; [Janitor.sweep_orphans] is the function of the source, which
    parses the text [ps] prints.  Here the two are shown to agree on every
    reachable process table and every text that lists it. *)

From Stdlib Require Import ZArith Lia Ascii String.
From stdpp Require Import base list strings gmap.
From S2P Require Import Prelude RustStr Json JsonText Proto ClientProto Config Auth Hooks CoreProc Janitor Server Supervisor Schedules ProcInv.

Open Scope string_scope.

Lemma map_same {A} (f : A -> A) l : (forall x, x ∈ l -> f x = x) -> map f l = l.
Proof.
  induction l as [|x l IH]; intros H; [done|]. cbn. rewrite H by left. f_equal. apply IH. intros y Hy. apply H. by right.
Qed.

Lemma filter_perm {A} (f : A -> bool) l l' : Permutation l l' -> Permutation (List.filter f l) (List.filter f l').
Proof.
  induction 1 as [|x l l' _ IH|x y l|l1 l2 l3 _ IH1 _ IH2]; cbn; [done| | |by etrans].
  - by destruct (f x); [apply perm_skip|].
  - destruct (f x), (f y); try done. apply perm_swap.
Qed.

(** ** Killing by pid, as a map over the process table *)

(** No two processes have a pid at the same time. *)
Definition uniq (ps : list Proc) : Prop := forall i j p o1 o2,
  pview <$> ps !! i = Some (p, o1, true) -> pview <$> ps !! j = Some (p, o2, true) -> i = j.

Definition hit_by (f : Z -> bool) (q : Proc) : Proc :=
  if unreaped q && f (ppid q) then killed_proc q else q.

Lemma hit_view f q : pview (hit_by f q) = pview q.
Proof. unfold hit_by. case_match; [apply killed_view|done]. Qed.

Lemma hit_uniq f ps : uniq ps -> uniq (map (hit_by f) ps).
Proof.
  intros H i j p o1 o2. pose proof (same_map (hit_by f) ps (hit_view f)) as E.
  rewrite <- !E. apply H.
Qed.

Lemma killed_twice q : killed_proc (killed_proc q) = killed_proc q.
Proof. unfold killed_proc. by destruct (status q) eqn:E; cbn; rewrite ?E. Qed.

Lemma hit_fields f q : ppid (hit_by f q) = ppid q /\ unreaped (hit_by f q) = unreaped q.
Proof. pose proof (hit_view f q) as H. unfold pview in H. by injection H. Qed.

Lemma hit_hit f g q : hit_by g (hit_by f q) = hit_by (fun p => f p || g p) q.
Proof.
  destruct (hit_fields f q) as [H1 H2]. unfold hit_by at 1 3. rewrite H1, H2. unfold hit_by.
  destruct (unreaped q), (f (ppid q)), (g (ppid q)); cbn; by rewrite ?killed_twice.
Qed.

Lemma holder_spec p ps : forall k,
  match holder p ps k with
  | Some j => exists i q, j = (k + i)%nat /\ ps !! i = Some q /\ unreaped q = true /\ ppid q = p
  | None => forall q, q ∈ ps -> unreaped q && (ppid q =? p)%Z = false
  end.
Proof.
  induction ps as [|q ps IH]; intros k; cbn [holder].
  - intros q Hq. by apply elem_of_nil in Hq.
  - destruct (unreaped q && (ppid q =? p)%Z) eqn:E.
    + apply andb_prop in E as [Eu Ep%Z.eqb_eq]. exists 0%nat, q. split_and!; [lia|done..].
    + specialize (IH (S k)). destruct (holder p ps (S k)) as [j|].
      * destruct IH as (i & q' & -> & Hq & Hu & Hp). exists (S i), q'. split_and!; [lia|done..].
      * intros q' [->|Hq]%elem_of_cons; auto.
Qed.

(** The pid names a process. *)
Definition taken (p : Z) (ps : list Proc) : bool := existsb (fun q => unreaped q && (ppid q =? p)%Z) ps.

Lemma taken_spec p ps : taken p ps = true <-> exists q, q ∈ ps /\ unreaped q && (ppid q =? p)%Z = true.
Proof.
  unfold taken. rewrite existsb_exists. split; intros (q & Hq & H); exists q; (split; [|done]).
  - by apply list_elem_of_In.
  - by apply list_elem_of_In.
Qed.

Lemma taken_hit p f ps : taken p (map (hit_by f) ps) = taken p ps.
Proof.
  unfold taken. induction ps as [|q ps IH]; [done|]. cbn. rewrite IH.
  by destruct (hit_fields f q) as [-> ->].
Qed.

Lemma kill_pid_map p ok s : uniq (procs s) ->
  kill_pid p ok s = (with_procs (map (hit_by (fun r => ok && (r =? p)%Z)) (procs s)) s, ok && taken p (procs s)).
Proof.
  intros Hu.
  assert (Hid : forall f, (forall q, q ∈ procs s -> unreaped q && f (ppid q) = false) ->
    with_procs (map (hit_by f) (procs s)) s = s).
  { intros f Hf. rewrite map_same; [by destruct s|]. intros q Hq. unfold hit_by. by rewrite Hf. }
  unfold kill_pid. pose proof (holder_spec p (procs s) 0) as Hh.
  destruct (holder p (procs s) 0) as [j|].
  - destruct Hh as (i & q & -> & Hq & Huq & Hp). cbn [Nat.add]. destruct ok.
    2: { rewrite Hid; [done|]. intros. apply andb_false_r. }
    assert (Ht : taken p (procs s) = true).
    { apply taken_spec. exists q. split; [by eapply list_elem_of_lookup_2|]. rewrite Huq, Hp, Z.eqb_refl. done. }
    rewrite Ht. f_equal. f_equal. apply list_eq. intros k.
    change (map ?f ?l) with (f <$> l). rewrite list_lookup_alter, list_lookup_fmap. case_decide as Hk.
    + subst k. rewrite Hq. cbn. unfold hit_by. by rewrite Huq, Hp, Z.eqb_refl.
    + destruct (procs s !! k) as [q'|] eqn:Hq'; [|done]. cbn. unfold hit_by. f_equal.
      destruct (unreaped q' && (ppid q' =? p)%Z) eqn:E; [|done]. exfalso. apply Hk.
      apply andb_prop in E as [Eu Ep%Z.eqb_eq].
      apply (Hu i k p (ours q) (ours q')); rewrite ?Hq, ?Hq'; cbn; unfold pview;
        [by rewrite Hp, Huq|by rewrite Ep, Eu].
  - assert (Ht : taken p (procs s) = false).
    { apply not_true_iff_false. rewrite taken_spec. intros (q & Hq & E). by rewrite Hh in E. }
    rewrite Ht, andb_false_r. rewrite Hid; [done|]. intros q Hq. specialize (Hh q Hq).
    destruct (unreaped q); [|done]. cbn in *. rewrite Hh. apply andb_false_r.
Qed.

(** A pid that is one of [ts] and may be signalled. *)
Definition among (ts : list Z) (allowed : Z -> bool) (p : Z) : bool :=
  existsb (fun t => allowed t && (p =? t)%Z) ts.

Lemma hit_none allowed ps : map (hit_by (among [] allowed)) ps = ps.
Proof. apply map_same. intros q _. unfold hit_by. by rewrite andb_false_r. Qed.

Lemma hit_next t ts allowed ps :
  map (hit_by (among ts allowed)) (map (hit_by (fun r => allowed t && (r =? t)%Z)) ps)
  = map (hit_by (among (t :: ts) allowed)) ps.
Proof. rewrite map_map. apply map_ext. intros q. apply hit_hit. Qed.

Lemma count_next (t : Z) (ts : list Z) (allowed : Z -> bool) n :
  (count n (allowed t) + length (List.filter allowed ts))%nat = (n + length (List.filter allowed (t :: ts)))%nat.
Proof. cbn. destruct (allowed t); cbn; lia. Qed.

Section Sweeps.
Context {SJ : SerdeJson} (config : Config) (auth : AuthMode).

(** ** The text of [ps] *)

(** A process and its line: the pid, padded, a space, and its arguments, joined;
    a zombie has lost them.  A pid fits 32 bits. *)
Definition shows (q : Proc) (line : string) : Prop :=
  (0 <= ppid q <= i32_max)%Z /\ exists pad args, line = ps_line pad (ppid q) [args] /\
  match status q with
  | PAlive => args = cmdline q
  | _ => argv0_matches (trim_start args) (core_path config) = false
  end.

(** The lines list the supervisor itself and every process that was not reaped, in
    some order. *)
Definition lists (self : Z) (ps : list Proc) (ls : list string) : Prop :=
  exists own before after qs, ls = (before ++ own :: after)%list /\
    (exists args, ps_entry own = Some (self, args)) /\
    Permutation qs (List.filter unreaped ps) /\ Forall2 shows qs (before ++ after)%list /\
    Forall (fun q => ppid q <> self) qs.

Lemma shows_victim self q line : shows q line -> ppid q <> self ->
  victim config self None line = if swept config q then Some (ppid q, trim_start (cmdline q)) else None.
Proof.
  intros (Hp & pad & args & -> & Ha) Hs. unfold victim. rewrite ps_entry_line by done. cbn [String.concat].
  apply Z.eqb_neq in Hs as ->. rewrite bool_decide_eq_false_2 by done. cbn [orb]. unfold swept.
  destruct (status q); [by rewrite Ha|by rewrite Ha..].
Qed.

Lemma shows_victims self qs ls : Forall2 shows qs ls -> Forall (fun q => ppid q <> self) qs ->
  victims config self None ls = map ppid (List.filter (swept config) qs).
Proof.
  intros H. induction H as [|q l qs ls Hq _ IH]; intros Hs; [done|]. inversion Hs. subst.
  unfold victims in *. cbn [omap list_omap]. rewrite (shows_victim self q l) by done. cbn [List.filter].
  destruct (swept config q); cbn; by rewrite IH.
Qed.

Lemma swept_unreaped q : swept config q = true -> unreaped q = true.
Proof. unfold swept, unreaped. by destruct (status q). Qed.

Lemma filter_swept ps : List.filter (swept config) (List.filter unreaped ps) = List.filter (swept config) ps.
Proof.
  induction ps as [|q ps IH]; [done|]. cbn. destruct (unreaped q) eqn:Hu; cbn; [by rewrite IH|].
  destruct (swept config q) eqn:Hs; [by rewrite swept_unreaped in Hu|done].
Qed.

(** The lines a sweep acts on name the processes [ps_targets] finds. *)
Lemma lists_victims self s ls : lists self (procs s) ls ->
  Permutation (victims config self None ls) (ps_targets config true s).
Proof.
  intros (own & before & after & qs & -> & (args & Hown) & Hperm & Hshow & Hself).
  assert (E : victims config self None (before ++ own :: after)%list
    = victims config self None (before ++ after)%list).
  { unfold victims. rewrite !omap_app. cbn [omap list_omap].
    assert (Hv : victim config self None own = None) by (unfold victim; by rewrite Hown, Z.eqb_refl). by rewrite Hv. }
  rewrite E, (shows_victims self qs) by done. unfold ps_targets. apply Permutation_map. rewrite <- (filter_swept (procs s)).
  by apply filter_perm.
Qed.

(** ** A sweep without interruption *)

Lemma pids_uniq s : reachable config auth s -> uniq (procs s).
Proof. intros Hr i j p o1 o2. by eapply (pi_unique _ _ _ _ _ (reachable_proc_ok config auth s Hr)). Qed.

Lemma targets_taken s : Forall (fun t => taken t (procs s) = true) (ps_targets config true s).
Proof.
  apply Forall_forall. intros t (q & -> & Hq)%list_elem_of_fmap. apply list_elem_of_In, filter_In in Hq as [Hq Hs].
  apply taken_spec. exists q. split; [by apply list_elem_of_In|]. by rewrite (swept_unreaped q Hs), Z.eqb_refl.
Qed.

(** What the kills leave of the process table. *)
Definition after_kills (allowed : Z -> bool) (ps : list Proc) : list Proc :=
  map (fun q => if swept config q && allowed (ppid q) then killed_proc q else q) ps.

Lemma uniq_eq ps q q' : uniq ps -> q ∈ ps -> q' ∈ ps -> unreaped q = true -> unreaped q' = true ->
  ppid q = ppid q' -> q = q'.
Proof.
  intros Hu [i Hi]%list_elem_of_lookup_1 [j Hj]%list_elem_of_lookup_1 E1 E2 Ep.
  assert (i = j); [|congruence]. apply (Hu i j (ppid q) (ours q) (ours q')); rewrite ?Hi, ?Hj; cbn; unfold pview.
  - by rewrite E1.
  - by rewrite E2, Ep.
Qed.

Lemma kills_targets allowed s : uniq (procs s) ->
  map (hit_by (among (ps_targets config true s) allowed)) (procs s) = after_kills allowed (procs s).
Proof.
  intros Hu. apply map_ext_in. intros q Hq%list_elem_of_In. unfold hit_by.
  assert (E : unreaped q && among (ps_targets config true s) allowed (ppid q) = swept config q && allowed (ppid q));
    [|by rewrite E].
  apply eq_true_iff_eq. unfold among. rewrite !andb_true_iff, existsb_exists. split.
  - intros [Hur (t & Ht & [Ha Hp%Z.eqb_eq]%andb_prop)]. subst t. split; [|done].
    apply in_map_iff in Ht as (q' & Hp' & Hq'). apply filter_In in Hq' as [Hq' Hs].
    rewrite (uniq_eq (procs s) q q'); auto using swept_unreaped. by apply list_elem_of_In.
  - intros [Hs Ha]. split; [by apply swept_unreaped|]. exists (ppid q). rewrite Ha, Z.eqb_refl. split; [|done].
    apply in_map_iff. exists q. split; [done|]. apply filter_In. split; [by apply list_elem_of_In|done].
Qed.

(** *** The kills of a thread *)

Lemma goto_self c k s : conns s !! c = Some k -> goto c (pc k) s = s.
Proof.
  intros Hk. unfold goto, on_conn. replace (alter (set_pc (pc k)) c (conns s)) with (conns s); [by destruct s|].
  apply list_eq. intros i. rewrite list_lookup_alter. case_decide as E; [subst i|done]. rewrite Hk. by destruct k.
Qed.

Lemma goto_goto c p p' s : goto c p (goto c p' s) = goto c p s.
Proof. unfold goto, on_conn. cbn. by rewrite list_alter_alter_eq. Qed.

Lemma goto_procs c p ps s : with_procs ps (goto c p s) = goto c p (with_procs ps s).
Proof. done. Qed.

Lemma move_self i m s : monitors s !! i = Some m -> on_monitor i (set_mpc (mpc m)) s = s.
Proof.
  intros Hm. unfold on_monitor. rewrite alter_id; [by destruct s|]. intros m' Hm'. rewrite Hm in Hm'.
  injection Hm' as <-. by destruct m.
Qed.

Lemma move_move i p p' s : on_monitor i (set_mpc p) (on_monitor i (set_mpc p') s) = on_monitor i (set_mpc p) s.
Proof. unfold on_monitor. cbn. by rewrite alter_alter_eq. Qed.

Lemma move_procs i p ps s : with_procs ps (on_monitor i (set_mpc p) s) = on_monitor i (set_mpc p) (with_procs ps s).
Proof. done. Qed.

Lemma still_taken (f : Z -> bool) ts ps : Forall (fun t => taken t ps = true) ts ->
  Forall (fun t => taken t (map (hit_by f) ps) = true) ts.
Proof. intros H. eapply Forall_impl; [exact H|]. intros t Ht. by rewrite taken_hit. Qed.

Lemma conn_kills c hook allowed ts : forall n s k, exited s = None -> conns s !! c = Some k ->
  pc k = PKill hook ts n -> uniq (procs s) -> Forall (fun t => taken t (procs s) = true) ts ->
  run config auth s (map (fun p => LConn c (IKill (allowed p))) ts) =
  Some (goto c (PKill hook [] (n + length (List.filter allowed ts)))
    (with_procs (map (hit_by (among ts allowed)) (procs s)) s)).
Proof.
  induction ts as [|t ts IH]; intros n s k He Hk Hp Hu Ht.
  - rewrite hit_none. cbn [map run length List.filter]. rewrite Nat.add_0_r, <- Hp.
    replace (with_procs (procs s) s) with s by (by destruct s). by rewrite (goto_self c k).
  - inversion Ht as [|? ? Ht1 Ht2]. subst. cbn [map run]. unfold step. rewrite He, Hk, Hp. cbn [locks blocked andb].
    unfold conn_step. rewrite Hp, kill_pid_map, Ht1, andb_true_r by done.
    rewrite (IH (count n (allowed t)) _ (set_pc (PKill hook ts (count n (allowed t))) k)).
    + rewrite count_next. cbn [procs goto on_conn with_conns with_procs]. rewrite hit_next.
      by rewrite goto_procs, goto_goto.
    + done.
    + cbn. by rewrite list_lookup_alter_eq, Hk.
    + done.
    + by apply hit_uniq.
    + by apply still_taken.
Qed.

Lemma monitor_kills i allowed ts : forall n s m, exited s = None -> monitors s !! i = Some m ->
  mpc m = MKill ts n -> uniq (procs s) -> Forall (fun t => taken t (procs s) = true) ts ->
  run config auth s (map (fun p => LMonitor i (JKill (allowed p))) ts) =
  Some (on_monitor i (set_mpc (MKill [] (n + length (List.filter allowed ts))))
    (with_procs (map (hit_by (among ts allowed)) (procs s)) s)).
Proof.
  induction ts as [|t ts IH]; intros n s m He Hm Hp Hu Ht.
  - rewrite hit_none. cbn [map run length List.filter]. rewrite Nat.add_0_r, <- Hp.
    replace (with_procs (procs s) s) with s by (by destruct s). by rewrite (move_self i m).
  - inversion Ht as [|? ? Ht1 Ht2]. subst. cbn [map run]. unfold step. rewrite He, Hm, Hp. cbn [monitor_locks blocked andb].
    unfold monitor_step. rewrite Hp, kill_pid_map, Ht1, andb_true_r by done.
    rewrite (IH (count n (allowed t)) _ (set_mpc (MKill ts (count n (allowed t))) m)).
    + rewrite count_next. cbn [procs on_monitor with_monitors with_procs]. rewrite hit_next.
      by rewrite move_procs, move_move.
    + done.
    + cbn. by rewrite lookup_alter_eq, Hm.
    + done.
    + by apply hit_uniq.
    + by apply still_taken.
Qed.

(** ** The equivalence *)

(** The answers of the operating system to one sweep: the output of [ps], [kill]
    and [lstat]. *)
Context (self : Z) (output : result string string) (kill : Z -> KillAnswer).
Context (symlink_metadata : string -> result Metadata io_error).

Definition the_sweep : SweepResult :=
  sweep_orphans config auth self None output kill symlink_metadata.

Definition ran_hook (r : SweepResult) : bool := match down_hook r with Some _ => true | None => false end.

(** What [ps] prints, if it runs, lists the processes there are. *)
Definition ps_output_ok (s : Sys) : Prop :=
  match output with Ok o => lists self (procs s) (lines (from_utf8_lossy o)) | Err _ => True end.

(** The process table after the sweep. *)
Definition table_after (s : Sys) : list Proc :=
  if is_ok output then after_kills (is_killed kill) (procs s) else procs s.

Definition targets (s : Sys) : list Z := ps_targets config (is_ok output) s.

Lemma agrees s : ps_output_ok s ->
  Permutation (signalled the_sweep) (targets s) /\
  killed the_sweep = length (List.filter (is_killed kill) (targets s)).
Proof.
  unfold ps_output_ok, the_sweep, targets, sweep_orphans. destruct output as [o|e]; cbn [is_ok]; [|done].
  intros H. apply lists_victims in H.
  destruct (sweep_lines_spec config self None kill (lines (from_utf8_lossy o)) 0 [] []) as [out Eq]. rewrite Eq.
  assert (Hl : length (List.filter (is_killed kill) (victims config self None (lines (from_utf8_lossy o))))
    = length (List.filter (is_killed kill) (ps_targets config true s))) by by apply Permutation_length, filter_perm.
  cbn [app Nat.add]. rewrite Hl. case_match; [destruct (run_hook _ _ _ _ _)|]; cbn; auto.
Qed.

Lemma targets_ok s : Forall (fun t => taken t (procs s) = true) (targets s).
Proof. unfold targets. destruct output; [apply targets_taken|by constructor]. Qed.

Lemma table_hits s : uniq (procs s) ->
  map (hit_by (among (targets s) (is_killed kill))) (procs s) = table_after s.
Proof.
  intros Hu. unfold targets, table_after. destruct output as [o|e]; cbn [is_ok]; [by apply kills_targets|apply hit_none].
Qed.

(** The labels of a sweep that nothing interrupts. *)
Definition exit_sweep (c : nat) (s : Sys) : list Label :=
  LConn c (IPs (is_ok output)) :: map (fun p => LConn c (IKill (is_killed kill p))) (targets s)
    ++ [LConn c (IScript (ran_hook the_sweep))].

Definition guarded_sweep (i : nat) (s : Sys) : list Label :=
  LMonitor i (JPs (is_ok output)) :: map (fun p => LMonitor i (JKill (is_killed kill p))) (targets s)
    ++ [LMonitor i (JScript (ran_hook the_sweep))].

(** The state a sweep leaves, up to where its thread goes. *)
Definition swept_state (s : Sys) : Sys :=
  end_sweep (killed the_sweep) (ran_hook the_sweep) (with_procs (table_after s) s).

Lemma run_app ls ls' s s1 : run config auth s ls = Some s1 -> run config auth s (ls ++ ls') = run config auth s1 ls'.
Proof.
  revert s. induction ls as [|l ls IH]; intros s; cbn [run app]; [by intros [= ->]|].
  destruct (step config auth s l); [apply IH|done].
Qed.

Lemma end_goto c p n present s : end_sweep n present (goto c p s) = goto c p (end_sweep n present s).
Proof. unfold end_sweep, fire. by destruct (0 <? n)%nat, present. Qed.

Lemma end_move i p n present s : end_sweep n present (on_monitor i (set_mpc p) s) =
  on_monitor i (set_mpc p) (end_sweep n present s).
Proof. unfold end_sweep, fire. by destruct (0 <? n)%nat, present. Qed.

(** The ends of the two sweeps. *)
Lemma exit_sweep_last c s k hook n present : exited s = None -> conns s !! c = Some k -> pc k = PKill hook [] n ->
  step config auth s (LConn c (IScript present)) =
  Some (goto c (match hook with Some h => PJoin h | None => PExit end) (end_sweep n present s)).
Proof. intros He Hk Hp. unfold step. rewrite He, Hk, Hp. cbn [locks blocked andb]. unfold conn_step. by rewrite Hp. Qed.

Lemma guarded_sweep_last i s m n present : exited s = None -> monitors s !! i = Some m -> mpc m = MKill [] n ->
  step config auth s (LMonitor i (JScript present)) =
  Some (on_monitor i (set_mpc MDone) (with_held None (end_sweep n present s))).
Proof.
  intros He Hm Hp. unfold step. rewrite He, Hm, Hp. cbn [monitor_locks blocked andb]. unfold monitor_step. by rewrite Hp.
Qed.

Lemma exit_sweep_run s c k hook : reachable config auth s -> exited s = None -> ps_output_ok s ->
  conns s !! c = Some k -> pc k = PSweep hook ->
  run config auth s (exit_sweep c s) =
  Some (goto c (match hook with Some h => PJoin h | None => PExit end) (swept_state s)).
Proof.
  intros Hr He Ho Hk Hp. pose proof (pids_uniq s Hr) as Hu. destruct (agrees s Ho) as [_ Hkilled].
  unfold exit_sweep. cbn [run]. unfold step at 1. rewrite He, Hk, Hp. cbn [locks blocked andb].
  unfold conn_step. rewrite Hp.
  set (s1 := goto c (PKill hook (targets s) 0) s).
  assert (Hk1 : conns s1 !! c = Some (set_pc (PKill hook (targets s) 0) k)) by (cbn; by rewrite list_lookup_alter_eq, Hk).
  rewrite (run_app _ _ _ _ (conn_kills c hook (is_killed kill) (targets s) 0 s1 _ He Hk1 eq_refl Hu (targets_ok s))).
  cbn [Nat.add]. rewrite <- Hkilled. change (procs s1) with (procs s). rewrite (table_hits s Hu).
  unfold s1. rewrite goto_procs, goto_goto. cbn [run].
  rewrite (exit_sweep_last c _ (set_pc (PKill hook [] (killed the_sweep)) k) hook (killed the_sweep) (ran_hook the_sweep));
    [|done|cbn; by rewrite list_lookup_alter_eq, Hk|done].
  by rewrite end_goto, goto_goto.
Qed.

Lemma guarded_sweep_run s i m : reachable config auth s -> exited s = None -> ps_output_ok s ->
  monitors s !! i = Some m -> mpc m = MPs ->
  run config auth s (guarded_sweep i s) = Some (on_monitor i (set_mpc MDone) (with_held None (swept_state s))).
Proof.
  intros Hr He Ho Hm Hp. pose proof (pids_uniq s Hr) as Hu. destruct (agrees s Ho) as [_ Hkilled].
  unfold guarded_sweep. cbn [run]. unfold step at 1. rewrite He, Hm, Hp. cbn [monitor_locks blocked andb].
  unfold monitor_step. rewrite Hp.
  set (s1 := on_monitor i (set_mpc (MKill (targets s) 0)) s).
  assert (Hm1 : monitors s1 !! i = Some (set_mpc (MKill (targets s) 0) m)) by (cbn; by rewrite lookup_alter_eq, Hm).
  rewrite (run_app _ _ _ _ (monitor_kills i (is_killed kill) (targets s) 0 s1 _ He Hm1 eq_refl Hu (targets_ok s))).
  cbn [Nat.add]. rewrite <- Hkilled. change (procs s1) with (procs s). rewrite (table_hits s Hu).
  unfold s1. rewrite move_procs, move_move. cbn [run].
  rewrite (guarded_sweep_last i _ (set_mpc (MKill [] (killed the_sweep)) m) (killed the_sweep) (ran_hook the_sweep));
    [|done|cbn; by rewrite lookup_alter_eq, Hm|done].
  rewrite end_move. f_equal. apply (move_move i MDone _ (with_held None (swept_state s))).
Qed.

(** C14: a sweep taken apart is [sweep_orphans] of [janitor.rs]: in every reachable
    state, given any text of [ps] that lists the processes there are (or no output
    at all), any answers of [kill] and any state of the hook's file, the function
    parses the text, signals exactly the processes whose command line is the core
    path, whatever the order of the lines, and counts its kills; and both the exit
    of a connection and the guarded sweep of a monitor, run with these answers,
    kill just those processes, and run the [down] hook if and only if the
    function does. *)
Theorem sweeps_are_janitors s : reachable config auth s -> exited s = None -> ps_output_ok s ->
  (Permutation (signalled the_sweep) (targets s) /\
   killed the_sweep = length (List.filter (is_killed kill) (targets s))) /\
  (forall c k hook, conns s !! c = Some k -> pc k = PSweep hook ->
     run config auth s (exit_sweep c s) =
     Some (goto c (match hook with Some h => PJoin h | None => PExit end) (swept_state s))) /\
  (forall i m, monitors s !! i = Some m -> mpc m = MPs ->
     run config auth s (guarded_sweep i s) = Some (on_monitor i (set_mpc MDone) (with_held None (swept_state s)))).
Proof.
  intros Hr He Ho. split; [by apply agrees|]. split.
  - intros c k hook. by apply exit_sweep_run.
  - intros i m. by apply guarded_sweep_run.
Qed.

End Sweeps.

(** ** Witness *)

Import Schedule.

(** A core of this supervisor has crashed while one of an earlier run, of pid 77,
    was left over; its monitor is about to sweep. *)
Definition about_to_sweep : Sys :=
  default initial (run (crashed_schedule ++ [LMonitor 1 JNone])%list).

Lemma about_to_sweep_reachable : reachable about_to_sweep.
Proof.
  apply (run_reachable the_config the_auth (crashed_schedule ++ [LMonitor 1 JNone])%list initial); [constructor|].
  vm_compute. reflexivity.
Qed.

(** The supervisor, a shell and the orphan, as [ps] prints them. *)
Definition ps_text : string :=
  "  500 /opt/et/bin/easytier-supervisor --config x" ++ nl ++
  "   77 " ++ core_path the_config ++ " --daemon" ++ nl.

Lemma ps_text_ok : ps_output_ok the_config 500 (Ok ps_text) about_to_sweep.
Proof.
  exists "  500 /opt/et/bin/easytier-supervisor --config x", [],
    ["   77 " ++ core_path the_config ++ " --daemon"], (List.filter unreaped (procs about_to_sweep)).
  split; [vm_compute; reflexivity|]. split; [eexists; vm_compute; reflexivity|]. split; [done|].
  assert (E : List.filter unreaped (procs about_to_sweep) =
    [{| ppid := 77; cmdline := core_path the_config ++ " --daemon"; ours := false; status := PAlive |}])
    by (vm_compute; reflexivity).
  rewrite E. split; [|by repeat constructor]. constructor; [|done]. split; [unfold i32_max; cbn; lia|].
  exists 3, (core_path the_config ++ " --daemon"). split; vm_compute; reflexivity.
Qed.

Definition sampled_sweep : SweepResult :=
  the_sweep the_config the_auth 500 (Ok ps_text) (fun _ => Killed) sample_fs.

Lemma sweeps_are_janitors_witness :
  signalled sampled_sweep = [77%Z] /\ killed sampled_sweep = 1 /\ ran_hook sampled_sweep = true /\
  Supervisor.run the_config the_auth about_to_sweep
    (guarded_sweep the_config the_auth 500 (Ok ps_text) (fun _ => Killed) sample_fs 1 about_to_sweep)
  = Some (on_monitor 1 (set_mpc MDone) (with_held None
      (swept_state the_config the_auth 500 (Ok ps_text) (fun _ => Killed) sample_fs about_to_sweep))).
Proof.
  split; [vm_compute; reflexivity|]. split; [vm_compute; reflexivity|]. split; [vm_compute; reflexivity|].
  destruct (sweeps_are_janitors the_config the_auth 500 (Ok ps_text) (fun _ => Killed) sample_fs about_to_sweep
    about_to_sweep_reachable ltac:(vm_compute; reflexivity) ps_text_ok) as (_ & _ & Hg).
  apply (Hg 1 {| mpid := 100; vars := monitor_init; mpc := MPs; lost := false |}); vm_compute; reflexivity.
Defined.
