(* ===== verification/Progress.v ===== *)
(** * Progress: what happens however the threads are scheduled

    A core that was asked to stop is gone after a bounded number of turns of its
    monitor, before and after the grace period; and no thread is stuck: each can
    move, waits for the world outside, or waits for a thread that can move. *)

From Stdlib Require Import ZArith Lia String.
From stdpp Require Import base list strings gmap.
From S2P Require Import Prelude RustStr Json JsonText Proto ClientProto Config Auth Hooks CoreProc Janitor Server Supervisor Schedules ProcInv LockInv HookInv.
Import Proto.

Open Scope string_scope.

Section Frame.
Context {SJ : SerdeJson} (config : Config) (auth : AuthMode).

(** ** What the steps of the others leave a monitor *)

Definition turn_of (i : nat) (l : Label) : bool :=
  match l with LMonitor j _ => (i =? j)%nat | _ => false end.

(** It stays as it is, or is started, or is a new one. *)
Definition monitor_frame (i : nat) (ms ms' : gmap nat Monitor) : Prop :=
  match ms !! i with
  | Some m => exists m', ms' !! i = Some m' /\ (m' = m \/ m' = spawn_monitor m)
  | None => ms' !! i = None \/ exists p, ms' !! i = Some (new_monitor p)
  end.

Lemma frame_refl i ms : monitor_frame i ms ms.
Proof. unfold monitor_frame. destruct (ms !! i); eauto. Qed.

Lemma frame_alter i j f ms : j <> i -> monitor_frame i ms (alter f j ms).
Proof.
  intros Hne. unfold monitor_frame. rewrite lookup_alter_ne by done. destruct (ms !! i); eauto.
Qed.

Lemma frame_born i j ms : monitor_frame i ms (alter spawn_monitor j ms).
Proof.
  unfold monitor_frame. destruct (decide (j = i)) as [->|Hne]; [|rewrite lookup_alter_ne by done].
  - rewrite lookup_alter_eq. destruct (ms !! i); cbn; eauto.
  - destruct (ms !! i); eauto.
Qed.

Lemma frame_start i c env s : proc_ok s ->
  monitor_frame i (monitors s) (monitors (do_start config c env s)).
Proof.
  intros Hp. unfold do_start. destruct (start_locked config env (shared s)) as [st [[|p po cmd]|]];
    try apply frame_refl. cbn. unfold monitor_frame. destruct (decide (length (procs s) = i)) as [<-|Hne].
  - rewrite lookup_insert_eq. destruct (monitors s !! length (procs s)) as [m|] eqn:Hm; [|eauto].
    pose proof (monitor_bound s _ m Hp Hm). lia.
  - rewrite lookup_insert_ne by done. destruct (monitors s !! i); eauto.
Qed.

(** What every step does to the rest. *)
Record forward (s s' : Sys) : Prop := {
  fw_now : (now s <= now s')%Z;
  fw_sent e : e ∈ sent s -> e ∈ sent s';
  fw_requested i : i ∈ requested s -> i ∈ requested s'
}.

#[global] Instance forward_preorder : PreOrder forward.
Proof. split; [by intros s|]. intros s1 s2 s3 [] []. constructor; [lia|auto..]. Qed.

Lemma forward_same s s' : now s' = now s -> sent s' = sent s -> requested s' = requested s -> forward s s'.
Proof. intros E1 E2 E3. constructor; rewrite ?E1, ?E2, ?E3; done. Qed.

Lemma fire_forward ev why gen present s : forward s (fire ev why gen present s).
Proof. unfold fire. by destruct present; apply forward_same. Qed.

Lemma end_sweep_forward n present s : forward s (end_sweep n present s).
Proof. unfold end_sweep. case_match; [apply fire_forward|done]. Qed.

Lemma kill_forward p ok s s1 hit : kill_pid p ok s = (s1, hit) -> forward s s1.
Proof.
  intros H. destruct (kill_pid_procs p ok s) as (ps & E & _). rewrite H in E. cbn in E. subst s1. by apply forward_same.
Qed.

Lemma send_forward i p sg s : forward s (send_signal i p sg s).
Proof.
  assert (H : forward s (with_sent (sent s ++ [{| sender := i; receiver := holder p (procs s) 0; sig := sg |}])%list s)).
  { constructor; cbn; [done| |done]. intros e He. apply elem_of_app. by left. }
  unfold send_signal. destruct sg, (holder p (procs s) 0); try exact H.
  etrans; [exact H|]. by apply forward_same.
Qed.

Lemma write_all_forward c evs : forall s, forward s (write_all c evs s).
Proof. induction evs as [|e evs IH]; intros s; [done|]. etrans; [|apply (IH (write c e s))]. by apply forward_same. Qed.

Lemma lease_forward c k t s : forward s (do_lease c k t s).
Proof.
  unfold do_lease. destruct (acquire_lease _ _ _ _) as [st [d|]]; [|by apply forward_same].
  by destruct (option_map conn d); apply forward_same.
Qed.

Lemma start_forward c env s : forward s (do_start config c env s).
Proof. unfold do_start. by destruct (start_locked config env (shared s)) as [st [[|]|]]; apply forward_same. Qed.

Lemma stop_forward c why s : forward s (do_stop c why s).
Proof.
  unfold do_stop. destruct (stop_locked (shared s)) as [st []]; [|by apply forward_same].
  constructor; cbn; [done|done|]. intros i Hi. apply elem_of_cons. by right.
Qed.

Lemma turn_forward c t s s1 : forward s s1 -> forward s (do_turn c t s1).
Proof. intros H. destruct t; (etrans; [exact H|by apply forward_same]). Qed.

Lemma goto_forward c p s s1 : forward s s1 -> forward s (goto c p s1).
Proof. intros H. etrans; [exact H|by apply forward_same]. Qed.

Lemma frame_same i ms ms' : ms' = ms -> monitor_frame i ms ms'.
Proof. intros ->. apply frame_refl. Qed.

Lemma write_all_monitors c evs s : monitors (write_all c evs s) = monitors s.
Proof. apply (write_all_same c evs s). Qed.

Lemma lease_monitors c k t s : monitors (do_lease c k t s) = monitors s.
Proof. unfold do_lease. destruct (acquire_lease _ _ _ _) as [st [d|]]; [by destruct (option_map conn d)|done]. Qed.

Lemma turn_monitors c t s : monitors (do_turn c t s) = monitors s.
Proof. by destruct t. Qed.

Lemma stop_monitors c why s : monitors (do_stop c why s) = monitors s.
Proof. unfold do_stop. by destruct (stop_locked (shared s)) as [st []]. Qed.

Lemma hear_forward c t s : forward s (on_conn c (hear t) s).
Proof. by apply forward_same. Qed.

Lemma conn_step_frame c k i j s s' : proc_ok s -> conn_step config auth c k i s = Some s' ->
  forward s s' /\ monitor_frame j (monitors s) (monitors s').
Proof.
  intros Hp. unfold conn_step. destruct (pc k), i; try done; repeat case_match; intros; simplify_eq.
  all: split; [try by apply forward_same|try apply frame_refl].
  all: eauto using frame_start, start_forward, stop_forward, lease_forward, turn_forward, hear_forward, goto_forward,
    write_all_forward, fire_forward, end_sweep_forward, kill_forward, frame_born.
  all: try apply frame_born.
  all: apply frame_same; cbn; rewrite ?write_all_monitors, ?lease_monitors, ?turn_monitors, ?stop_monitors,
    ?fire_monitors, ?end_sweep_monitors; eauto using kill_monitors.
Qed.

Lemma monitor_step_frame i j m x s s' : monitor_step config i m x s = Some s' ->
  forward s s' /\ (i <> j -> monitor_frame j (monitors s) (monitors s')).
Proof.
  unfold monitor_step.
  destruct (mpc m) as [| | |stop| |info|info|to info| | | |[|p ps] n|], x as [|[]| | |]; try done.
  - repeat case_match; intros; simplify_eq; (split; [by apply forward_same|by apply frame_alter]).
  - intros [= <-]. split; [by apply forward_same|by apply frame_alter].
  - intros [= <-]. split; [by apply forward_same|by apply frame_alter].
  - destruct (escalate _ _ _) as [[sg|] v]; intros [= <-];
      (split; [|cbn; rewrite ?send_monitors; by apply frame_alter]); [|by apply forward_same].
    etrans; [apply send_forward|by apply forward_same].
  - intros [= <-]. split; [by apply forward_same|by apply frame_alter].
  - destruct (handle_core_exit_locked _ _) as [st expected]. intros [= <-].
    split; [by apply forward_same|by apply frame_alter].
  - intros [= <-]. split; [by apply forward_same|by apply frame_alter].
  - intros [= <-]. destruct to; (split; [by apply forward_same|by apply frame_alter]).
  - intros [= <-]. split; [|cbn; rewrite fire_monitors; by apply frame_alter].
    etrans; [apply fire_forward|by apply forward_same].
  - intros [= <-]. case_match; (split; [by apply forward_same|by apply frame_alter]).
  - intros [= <-]. split; [by apply forward_same|by apply frame_alter].
  - intros [= <-]. split; [|cbn; rewrite end_sweep_monitors; by apply frame_alter].
    etrans; [apply end_sweep_forward|by apply forward_same].
  - destruct (kill_pid p ok s) as [s1 hit] eqn:Hk. intros [= <-].
    split; [|cbn; rewrite (kill_monitors _ _ _ _ _ Hk); by apply frame_alter].
    etrans; [by eapply kill_forward|by apply forward_same].
Qed.

Lemma step_forward s l s' : proc_ok s -> step config auth s l = Some s' -> forward s s'.
Proof.
  intros Hp. unfold step. destruct (exited s); [done|]. destruct l as [p|c i|i x| |ms|i st|p cmd|i|h].
  - intros [= <-]. by apply forward_same.
  - repeat case_match; try done. intros Hst. by apply (conn_step_frame c c0 i 0) in Hst as [? _].
  - repeat case_match; try done. intros Hst. by apply (monitor_step_frame i i) in Hst as [? _].
  - unfold timer_step. repeat case_match; intros; simplify_eq; by apply forward_same.
  - case_match eqn:Hms; intros; simplify_eq. apply Z.leb_le in Hms. by constructor; cbn; [lia|..].
  - repeat case_match; intros; simplify_eq; by apply forward_same.
  - case_match; intros; simplify_eq; by apply forward_same.
  - repeat case_match; intros; simplify_eq; by apply forward_same.
  - intros [= <-]. by apply forward_same.
Qed.

Lemma step_frame i s l s' : proc_ok s -> turn_of i l = false -> step config auth s l = Some s' ->
  monitor_frame i (monitors s) (monitors s').
Proof.
  intros Hp Hl. unfold step. destruct (exited s); [done|]. destruct l as [p|c x|j x| |ms|j st|p cmd|j|h].
  - intros [= <-]. apply frame_refl.
  - repeat case_match; try done. intros Hst. by apply (conn_step_frame c c0 x i) in Hst as [_ ?].
  - repeat case_match; try done. intros Hst. apply (monitor_step_frame j i) in Hst as [_ Hf]. apply Hf.
    cbn in Hl. apply Nat.eqb_neq in Hl. congruence.
  - unfold timer_step. repeat case_match; intros; simplify_eq; apply frame_refl.
  - case_match; intros; simplify_eq; apply frame_refl.
  - repeat case_match; intros; simplify_eq; apply frame_refl.
  - case_match; intros; simplify_eq; apply frame_refl.
  - repeat case_match; intros; simplify_eq; apply frame_refl.
  - intros [= <-]. apply frame_refl.
Qed.
End Frame.

(** ** The escalation in every reachable state *)

Definition dead (i : nat) (s : Sys) : Prop := exists p, procs s !! i = Some p /\ status p <> PAlive.

Record escalated (i : nat) (m : Monitor) (s : Sys) : Prop := {
  es_term d : term_deadline (vars m) = Some d -> (d <= now s + TERM_GRACE)%Z /\
    exists e, e ∈ sent s /\ sender e = i /\ sig e = SIGTERM;
  es_kill : kill_sent (vars m) = true -> dead i s
}.

Definition escalate_ok (s : Sys) : Prop := forall i m, monitors s !! i = Some m -> escalated i m s.

Lemma dead_ages i s s' : ages (procs s) (procs s') -> dead i s -> dead i s'.
Proof.
  intros Ha (p & Hp & Hd). destruct (Ha i p Hp) as (p' & Hp' & _ & _ & Ho). exists p'. split; [done|].
  destruct (status p) eqn:E; [done|by destruct Ho as [Ho|Ho]; rewrite Ho|by subst p'; rewrite E].
Qed.

Lemma escalated_later i m m' s s' : escalated i m s -> vars m' = vars m -> forward s s' ->
  ages (procs s) (procs s') -> escalated i m' s'.
Proof.
  intros [H1 H2] E [F1 F2 F3] Ha. constructor; rewrite E.
  - intros d Hd. destruct (H1 d Hd) as (Hle & e & He & Hs). split; [lia|eauto].
  - intros Hk. eapply dead_ages; eauto.
Qed.

Lemma born_vars m : vars (spawn_monitor m) = vars m.
Proof. unfold spawn_monitor. by destruct (mpc m). Qed.

(** SIGKILL, sent to one's own child. *)
Lemma kill_own i m s : proc_ok s -> monitors s !! i = Some m -> watching (mpc m) = true ->
  dead i (send_signal i (mpid m) SIGKILL s).
Proof.
  intros Hp Hm Hw. pose proof (holder_own _ _ _ _ _ i m Hp Hm Hw) as Hh.
  pose proof (monitor_bound s i m Hp Hm) as Hi. apply lookup_lt_is_Some_2 in Hi as [p Hpi].
  unfold send_signal. rewrite Hh. exists (killed_proc p). cbn. rewrite list_lookup_alter_eq, Hpi.
  split; [done|]. unfold killed_proc. by destruct (status p) eqn:E; cbn; rewrite ?E.
Qed.

Section Own.
Context {SJ : SerdeJson} (config : Config) (auth : AuthMode).

(** What a turn of the monitor's own makes of it. *)
Definition own_move (i : nat) (s s' : Sys) (m m' : Monitor) : Prop :=
  match mpc m with
  | MWait => mpc m' = MCheck /\ vars m' = vars m /\ ~ dead i s \/
             (exists info, mpc m' = MExit info) /\ vars m' = vars m
  | MCheck => mpc m' = MSignal (stop_requested_for (shared s) (mpid m)) /\ vars m' = vars m
  | MSignal b => mpc m' = MSleep /\ vars m' = (escalate b (now s) (vars m)).2 /\
      match (escalate b (now s) (vars m)).1 with
      | Some SIGKILL => dead i s'
      | Some SIGTERM => exists e, e ∈ sent s' /\ sender e = i /\ sig e = SIGTERM
      | None => True
      end
  | MSleep => mpc m' = MWait /\ vars m' = vars m
  | _ => inflight (mpc m') = false /\ vars m' = vars m
  end.

Lemma own_step i m x s s' : proc_ok s -> monitors s !! i = Some m ->
  monitor_step config i m x s = Some s' -> exists m', monitors s' !! i = Some m' /\ own_move i s s' m m'.
Proof.
  intros Hp Hm. unfold monitor_step, own_move.
  destruct (mpc m) as [| | |b| |info|info|to info| | | |[|p ps] n|] eqn:Hpc, x as [|[]| | |]; try done.
  - destruct (procs s !! i) as [q|] eqn:Hq; cbn; [|done]. destruct (status q) eqn:Hs; intros [= <-];
      cbn; rewrite lookup_alter_eq, Hm; (eexists; split; [reflexivity|]); cbn; [|right; eauto].
    left. split_and!; [done|done|]. intros (q' & Hq' & Hd). congruence.
  - intros [= <-]. cbn. rewrite lookup_alter_eq, Hm. eexists. split; [reflexivity|]. right. eauto.
  - intros [= <-]. cbn. rewrite lookup_alter_eq, Hm. eexists. split; [reflexivity|]. done.
  - destruct (escalate b (now s) (vars m)) as [sg v] eqn:He. intros [= <-]. destruct sg as [sg|].
    + cbn. rewrite send_monitors, lookup_alter_eq, Hm. eexists. split; [reflexivity|]. cbn. split_and!; [done|done|].
      destruct sg.
      * exists {| sender := i; receiver := holder (mpid m) (procs s) 0; sig := SIGTERM |}.
        split; [|done]. unfold send_signal. cbn. apply elem_of_app. right. by apply list_elem_of_singleton.
      * apply (kill_own i m s Hp Hm). by rewrite Hpc.
    + cbn. rewrite lookup_alter_eq, Hm. eexists. split; [reflexivity|]. done.
  - intros [= <-]. cbn. rewrite lookup_alter_eq, Hm. eexists. split; [reflexivity|]. done.
  - destruct (handle_core_exit_locked _ _) as [st expected]. intros [= <-]. cbn.
    rewrite lookup_alter_eq, Hm. eexists. split; [reflexivity|]. by destruct expected.
  - intros [= <-]. cbn. rewrite lookup_alter_eq, Hm. eexists. split; [reflexivity|]. done.
  - intros [= <-]. destruct to; cbn; rewrite lookup_alter_eq, Hm; (eexists; split; [reflexivity|]); done.
  - intros [= <-]. cbn. rewrite fire_monitors, lookup_alter_eq, Hm. eexists. split; [reflexivity|]. done.
  - intros [= <-]. case_match; cbn; rewrite lookup_alter_eq, Hm; (eexists; split; [reflexivity|]); done.
  - intros [= <-]. cbn. rewrite lookup_alter_eq, Hm. eexists. split; [reflexivity|]. done.
  - intros [= <-]. cbn. rewrite end_sweep_monitors, lookup_alter_eq, Hm. eexists. split; [reflexivity|]. done.
  - destruct (kill_pid p ok s) as [s1 hit] eqn:Hk. intros [= <-]. cbn.
    rewrite (kill_monitors _ _ _ _ _ Hk), lookup_alter_eq, Hm. eexists. split; [reflexivity|]. done.
Qed.

(** Whose turn a step is. *)
Lemma step_turn i s l s' m : proc_ok s -> monitors s !! i = Some m -> turn_of i l = true ->
  step config auth s l = Some s' -> exists m', monitors s' !! i = Some m' /\ own_move i s s' m m'.
Proof.
  intros Hp Hm Hl. destruct l as [p|c x|j x| |ms|j st|p cmd|j|h]; try done. cbn in Hl.
  apply Nat.eqb_eq in Hl as <-. unfold step. destruct (exited s); [done|]. rewrite Hm.
  case_match; [done|]. by apply own_step.
Qed.

Lemma step_other i s l s' m : proc_ok s -> monitors s !! i = Some m -> turn_of i l = false ->
  step config auth s l = Some s' -> exists m', monitors s' !! i = Some m' /\ (m' = m \/ m' = spawn_monitor m).
Proof.
  intros Hp Hm Hl Hst. pose proof (step_frame config auth i s l s' Hp Hl Hst) as Hf.
  unfold monitor_frame in Hf. by rewrite Hm in Hf.
Qed.

Lemma step_escalate s l s' : proc_ok s -> escalate_ok s -> step config auth s l = Some s' -> escalate_ok s'.
Proof.
  intros Hp H Hst i m' Hm'. pose proof (step_forward config auth s l s' Hp Hst) as Hf.
  pose proof (step_ages config auth s l s' Hst) as Ha.
  destruct (monitors s !! i) as [m|] eqn:Hm.
  - pose proof (H i m Hm) as He.
    destruct (turn_of i l) eqn:Hl.
    + destruct (step_turn i s l s' m Hp Hm Hl Hst) as (m1 & Hm1 & Hmv). rewrite Hm1 in Hm'. injection Hm' as ->.
      unfold own_move in Hmv. destruct (mpc m) as [| | |b| | | | | | | | |] eqn:Hpc;
        try (eapply escalated_later;
          [exact He|first [by destruct Hmv as [_ ?]|by destruct Hmv as [(_ & ? & _)|[_ ?]]]|done|done]).
      destruct Hmv as (_ & Hv & Hs). unfold escalate in Hv, Hs. destruct b; [|by eapply escalated_later].
      destruct (term_deadline (vars m)) as [d|] eqn:Hd.
      * destruct (negb (kill_sent (vars m)) && (d <=? now s)%Z); [|by eapply escalated_later].
        cbn in Hv, Hs. constructor; rewrite Hv; cbn; [|done]. intros d' [= <-].
        destruct (es_term _ _ _ He d Hd) as (Hle & e & Hin & Hse). destruct Hf as [F1 F2 _].
        split; [lia|eauto].
      * cbn in Hv, Hs. constructor; rewrite Hv; cbn.
        -- intros d' [= <-]. destruct Hf as [F1 _ _]. split; [unfold TERM_GRACE in *; lia|done].
        -- intros Hk. eapply dead_ages; [done|]. by apply (es_kill _ _ _ He).
    + destruct (step_other i s l s' m Hp Hm Hl Hst) as (m1 & Hm1 & Hv). rewrite Hm1 in Hm'. injection Hm' as ->.
      eapply escalated_later; [exact He|destruct Hv as [->| ->]; [done|apply born_vars]|done|done].
  - destruct (turn_of i l) eqn:Hl.
    + exfalso. destruct l; try done. cbn in Hl. apply Nat.eqb_eq in Hl as <-. unfold step in Hst.
      destruct (exited s); [done|]. by rewrite Hm in Hst.
    + pose proof (step_frame config auth i s l s' Hp Hl Hst) as Hfr. unfold monitor_frame in Hfr. rewrite Hm in Hfr.
      destruct Hfr as [Hn|[p Hn]]; rewrite Hn in Hm'; [done|]. injection Hm' as <-. by constructor.
Qed.

Lemma reachable_escalate s : reachable config auth s -> escalate_ok s.
Proof.
  induction 1 as [|s l s' Hr IH Hst]; [by intros i m Hm|].
  eapply step_escalate; [by eapply reachable_proc_ok|done|done].
Qed.

End Own.

(** ** Two measures *)

Definition is_dead (i : nat) (s : Sys) : bool :=
  match procs s !! i with
  | Some p => match status p with PAlive => false | _ => true end
  | None => false
  end.

Lemma is_dead_iff i s : is_dead i s = true <-> dead i s.
Proof.
  unfold is_dead, dead. destruct (procs s !! i) as [p|]; [|by split; [|intros (? & [=] & _)]].
  destruct (status p) eqn:E; split; try done.
  - intros (q & [= <-] & Hq). congruence.
  - intros _. exists p. by rewrite E.
  - intros _. exists p. by rewrite E.
Qed.

(** Turns a monitor past the deadline needs to clear the state, at most. *)
Definition rank (z : bool) (p : MPc) : nat :=
  match p with
  | MExit _ => 1
  | MSignal true => 4
  | MCheck => 5
  | MWait => if z then 2 else 6
  | MSleep => if z then 3 else 7
  | MSignal false => if z then 4 else 8
  | _ => 0
  end.

(** Turns it needs to send SIGTERM, at most. *)
Definition early (m : Monitor) : nat :=
  match term_deadline (vars m), mpc m with
  | None, MSignal true => 1
  | None, MCheck => 2
  | None, MWait => 3
  | None, MSleep => 4
  | None, MSignal false => 5
  | _, _ => 0
  end.

(** The monitor was started, and watches, if at all, with a deadline up to [D]. *)
Definition due (D : Z) (i : nat) (s : Sys) (m : Monitor) : Prop :=
  monitors s !! i = Some m /\ mpc m <> MUnborn /\
  (watching (mpc m) = true -> exists d, term_deadline (vars m) = Some d /\ (d <= D)%Z).

Definition turns (i : nat) (ls : list Label) : nat := length (List.filter (turn_of i) ls).

Section Measures.
Context {SJ : SerdeJson} (config : Config) (auth : AuthMode).

Lemma stop_seen i m s : proc_ok s -> hook_ok s -> i ∈ requested s -> monitors s !! i = Some m ->
  inflight (mpc m) = true -> stop_requested_for (shared s) (mpid m) = true.
Proof.
  intros Hp Hh Hi Hm Hf. destruct (pi_flight _ _ _ _ _ Hp i m Hm Hf) as (-> & r & Hc & Hpid).
  unfold stop_requested_for. rewrite Hc, Hpid, Z.eqb_refl. by apply (hi_flag _ _ _ _ _ _ Hh r Hc).
Qed.

Lemma spawn_started m : mpc m <> MUnborn -> spawn_monitor m = m.
Proof. unfold spawn_monitor. by destruct (mpc m). Qed.

(** A turn of its own, or none. *)
Lemma started_step i s l s' m : proc_ok s -> monitors s !! i = Some m -> mpc m <> MUnborn ->
  step config auth s l = Some s' -> exists m', monitors s' !! i = Some m' /\
    (turn_of i l = true /\ own_move i s s' m m' \/ turn_of i l = false /\ m' = m).
Proof.
  intros Hp Hm Hb Hst. destruct (turn_of i l) eqn:Hl.
  - destruct (step_turn config auth i s l s' m Hp Hm Hl Hst) as (m' & Hm' & Hmv). eauto.
  - destruct (step_other config auth i s l s' m Hp Hm Hl Hst) as (m' & Hm' & Hmv).
    rewrite spawn_started in Hmv by done. exists m'. split; [done|]. right. by destruct Hmv.
Qed.

Lemma own_born i s s' m m' : own_move i s s' m m' -> mpc m' <> MUnborn.
Proof.
  unfold own_move. intros H E. rewrite E in H.
  destruct (mpc m); try (by destruct H); destruct H as [(? & _)|([? ?] & _)]; done.
Qed.

Lemma step_due D i s l s' m : proc_ok s -> due D i s m -> step config auth s l = Some s' ->
  exists m', due D i s' m'.
Proof.
  intros Hp (Hm & Hb & Hd) Hst.
  destruct (started_step i s l s' m Hp Hm Hb Hst) as (m' & Hm' & [[_ Hmv]|[_ ->]]); [|by exists m].
  exists m'. split_and!; [done|by eapply own_born|]. unfold own_move in Hmv. intros Hw.
  destruct (mpc m) as [| | |b| | | | | | | | |] eqn:Hpc;
    try (destruct Hmv as [Hi _]; unfold inflight in Hi; rewrite Hw in Hi; done).
  - destruct Hmv as [(_ & -> & _)|((info & E) & _)]; [by apply Hd|by rewrite E in Hw].
  - destruct Hmv as (_ & ->). by apply Hd.
  - destruct Hmv as (_ & -> & _). destruct (Hd eq_refl) as (d & E & Hle). exists d. split; [|done].
    unfold escalate. destruct b; [|done]. rewrite E. by case_match.
  - destruct Hmv as (_ & ->). by apply Hd.
Qed.

(** Past the deadline each turn of its own brings it closer, and no step of
    another takes it back. *)
Lemma step_rank D i s l s' m : proc_ok s -> hook_ok s -> escalate_ok s -> i ∈ requested s ->
  due D i s m -> (D <= now s)%Z -> step config auth s l = Some s' ->
  exists m', due D i s' m' /\
    (rank (is_dead i s') (mpc m') <= rank (is_dead i s) (mpc m) - Nat.b2n (turn_of i l))%nat.
Proof.
  intros Hp Hh He Hi Hdue HD Hst. destruct (step_due D i s l s' m Hp Hdue Hst) as (m' & Hdue').
  exists m'. split; [done|]. destruct Hdue as (Hm & Hb & Hd), Hdue' as (Hm' & _ & _).
  assert (Hz : is_dead i s = true -> is_dead i s' = true).
  { rewrite !is_dead_iff. by apply dead_ages, (step_ages config auth s l). }
  destruct (started_step i s l s' m Hp Hm Hb Hst) as (m1 & Hm1 & Hmv). rewrite Hm1 in Hm'. injection Hm' as ->.
  destruct Hmv as [[-> Hmv]|[-> ->]].
  2: { destruct (is_dead i s) eqn:E; [rewrite Hz by done; cbn; lia|].
       destruct (is_dead i s'), (mpc m) as [| | |[]| | | | | | | | |]; cbn; lia. }
  assert (Hclear : inflight (mpc m') = false -> rank (is_dead i s') (mpc m') = 0%nat).
  { by destruct (mpc m') as [| | |[]| | | | | | | | |]. }
  unfold own_move in Hmv. destruct (mpc m) as [| | |b| | | | | | | | |] eqn:Hpc; try done;
    try (destruct Hmv as [Hf _]; rewrite (Hclear Hf); lia).
  - destruct Hmv as [(E & _ & Hnd)|((info & E) & _)]; rewrite E; cbn.
    + destruct (is_dead i s) eqn:Ed; [by apply is_dead_iff in Ed|lia].
    + destruct (is_dead i s); lia.
  - destruct Hmv as (E & _). rewrite (stop_seen i m s) in E; [|done..|by rewrite Hpc]. rewrite E. cbn. lia.
  - destruct Hmv as (E & _ & Hs). rewrite E. cbn. destruct b.
    + destruct (Hd eq_refl) as (d & Ed & Hle). unfold escalate in Hs. rewrite Ed in Hs.
      assert (Hdead : is_dead i s' = true).
      { destruct (kill_sent (vars m)) eqn:Ek; cbn in Hs.
        - apply Hz, is_dead_iff. by apply (es_kill _ _ _ (He i m Hm)).
        - assert (Hn : (d <=? now s)%Z = true) by (apply Z.leb_le; lia). rewrite Hn in Hs. by apply is_dead_iff. }
      rewrite Hdead. lia.
    + destruct (is_dead i s) eqn:Ed; [rewrite Hz by done; lia|]. destruct (is_dead i s'); lia.
  - destruct Hmv as (E & _). rewrite E. cbn.
    destruct (is_dead i s) eqn:Ed; [rewrite Hz by done; lia|]. destruct (is_dead i s'); lia.
Qed.

(** Before SIGTERM, too. *)
Lemma step_early i s l s' m : proc_ok s -> hook_ok s -> i ∈ requested s -> monitors s !! i = Some m ->
  mpc m <> MUnborn -> step config auth s l = Some s' ->
  exists m', monitors s' !! i = Some m' /\ mpc m' <> MUnborn /\
    (early m' <= early m - Nat.b2n (turn_of i l))%nat.
Proof.
  intros Hp Hh Hi Hm Hb Hst.
  destruct (started_step i s l s' m Hp Hm Hb Hst) as (m' & Hm' & [[-> Hmv]|[-> ->]]);
    [|exists m; split_and!; [done|done|cbn; lia]].
  exists m'. split_and!; [done|by eapply own_born|].
  assert (Hclear : inflight (mpc m') = false -> early m' = 0%nat).
  { unfold early. by destruct (term_deadline (vars m')), (mpc m') as [| | |[]| | | | | | | | |]. }
  unfold own_move in Hmv. destruct (mpc m) as [| | |b| | | | | | | | |] eqn:Hpc; try done;
    try (destruct Hmv as [Hf _]; rewrite (Hclear Hf); lia).
  - destruct Hmv as [(E & Ev & _)|((info & E) & Ev)]; unfold early; rewrite E, Ev, Hpc;
      destruct (term_deadline (vars m)); cbn; lia.
  - destruct Hmv as (E & Ev). rewrite (stop_seen i m s) in E; [|done..|by rewrite Hpc].
    unfold early. rewrite E, Ev, Hpc. destruct (term_deadline (vars m)); cbn; lia.
  - destruct Hmv as (E & Ev & _). unfold early. rewrite E, Hpc.
    destruct (term_deadline (vars m)) as [d|] eqn:Ed.
    + assert (Ed' : term_deadline (vars m') = Some d)
        by (rewrite Ev; unfold escalate; destruct b; [rewrite Ed; by case_match|done]).
      rewrite Ed'. lia.
    + rewrite Ev. unfold escalate. destruct b; rewrite ?Ed; cbn; rewrite ?Ed; lia.
  - destruct Hmv as (E & Ev). unfold early. rewrite E, Ev, Hpc. destruct (term_deadline (vars m)); cbn; lia.
Qed.

(** ** Whole runs *)

Lemma turns_cons i l ls : turns i (l :: ls) = (Nat.b2n (turn_of i l) + turns i ls)%nat.
Proof. unfold turns. cbn. by destruct (turn_of i l). Qed.

Lemma run_cons s l ls s' : run config auth s (l :: ls) = Some s' ->
  exists s1, step config auth s l = Some s1 /\ run config auth s1 ls = Some s'.
Proof. cbn. destruct (step config auth s l); [eauto|done]. Qed.

Lemma run_early ls : forall i s s' m, reachable config auth s -> i ∈ requested s ->
  monitors s !! i = Some m -> mpc m <> MUnborn -> run config auth s ls = Some s' ->
  exists m', monitors s' !! i = Some m' /\ mpc m' <> MUnborn /\ i ∈ requested s' /\
    (early m' <= early m - turns i ls)%nat.
Proof.
  induction ls as [|l ls IH]; intros i s s' m Hr Hi Hm Hb Hrun.
  - injection Hrun as <-. exists m. change (turns i []) with 0%nat. split_and!; [done..|lia].
  - apply run_cons in Hrun as (s1 & Hst & Hrun). pose proof (reachable_proc_ok _ _ s Hr) as Hp.
    destruct (step_early i s l s1 m Hp (reachable_hook _ _ s Hr) Hi Hm Hb Hst) as (m1 & Hm1 & Hb1 & He1).
    assert (Hi1 : i ∈ requested s1) by (by apply (fw_requested _ _ (step_forward _ _ _ _ _ Hp Hst))).
    destruct (IH i s1 s' m1) as (m' & ? & ? & ? & ?); [by econstructor|done..|].
    exists m'. rewrite turns_cons. split_and!; [done..|lia].
Qed.

Lemma run_due D ls : forall i s s' m, reachable config auth s -> i ∈ requested s ->
  due D i s m -> run config auth s ls = Some s' ->
  exists m', due D i s' m' /\ i ∈ requested s' /\ (now s <= now s')%Z /\
    ((D <= now s)%Z -> (rank (is_dead i s') (mpc m') <= rank (is_dead i s) (mpc m) - turns i ls)%nat).
Proof.
  induction ls as [|l ls IH]; intros i s s' m Hr Hi Hd Hrun.
  - injection Hrun as <-. exists m. change (turns i []) with 0%nat. split_and!; [done|done|lia|lia].
  - apply run_cons in Hrun as (s1 & Hst & Hrun). pose proof (reachable_proc_ok _ _ s Hr) as Hp.
    pose proof (step_forward _ _ _ _ _ Hp Hst) as Hf.
    assert (Hi1 : i ∈ requested s1) by (by apply (fw_requested _ _ Hf)). pose proof (fw_now _ _ Hf) as Hn.
    destruct (decide (D <= now s)%Z) as [HD|HD].
    + destruct (step_rank D i s l s1 m Hp (reachable_hook _ _ s Hr) (reachable_escalate _ _ s Hr) Hi Hd HD Hst)
        as (m1 & Hd1 & Hr1).
      destruct (IH i s1 s' m1) as (m' & ? & ? & ? & Hr'); [by econstructor|done..|].
      specialize (Hr' ltac:(lia)). exists m'. rewrite turns_cons. split_and!; [done|done|lia|lia].
    + destruct (step_due D i s l s1 m Hp Hd Hst) as (m1 & Hd1).
      destruct (IH i s1 s' m1) as (m' & ? & ? & ? & _); [by econstructor|done..|].
      exists m'. split_and!; [done|done|lia|lia].
Qed.

Lemma reachable_run ls s s' : reachable config auth s -> run config auth s ls = Some s' -> reachable config auth s'.
Proof. by apply run_reachable. Qed.

Lemma run_now ls : forall s s', reachable config auth s -> run config auth s ls = Some s' -> (now s <= now s')%Z.
Proof.
  induction ls as [|l ls IH]; intros s s' Hr Hrun; [by injection Hrun as <-|].
  apply run_cons in Hrun as (s1 & Hst & Hrun).
  pose proof (fw_now _ _ (step_forward _ _ _ _ _ (reachable_proc_ok _ _ s Hr) Hst)).
  specialize (IH s1 s' ltac:(by econstructor) Hrun). lia.
Qed.

End Measures.

(** ** Endless runs *)

Lemma rank_bound z p : (rank z p <= 8)%nat.
Proof. destruct p as [| | |[]| | | | | | | | |], z; cbn; lia. Qed.

Lemma rank_zero z p : p <> MUnborn -> rank z p = 0%nat -> inflight p = false.
Proof. by destruct p as [| | |[]| | | | | | | | |], z. Qed.

Lemma early_bound m : (early m <= 5)%nat.
Proof. unfold early. destruct (term_deadline (vars m)), (mpc m) as [| | |[]| | | | | | | | |]; cbn; lia. Qed.

Lemma early_zero m : mpc m <> MUnborn -> early m = 0%nat -> watching (mpc m) = true ->
  exists d, term_deadline (vars m) = Some d.
Proof. unfold early. destruct (term_deadline (vars m)), (mpc m) as [| | |[]| | | | | | | | |]; by eauto. Qed.

Section Liveness.
Context {SJ : SerdeJson} (config : Config) (auth : AuthMode).

(** The states of an endless run and the steps between them. *)
Context (σ : nat -> Sys) (lab : nat -> Label).
Hypothesis from_reachable : reachable config auth (σ 0).
Hypothesis steps : forall n, step config auth (σ n) (lab n) = Some (σ (S n)).

Definition cleared (i : nat) (s : Sys) : Prop :=
  exists m, monitors s !! i = Some m /\ inflight (mpc m) = false.

Definition between (n k : nat) : list Label := map lab (seq n k).

Lemma endless_run n k : run config auth (σ n) (between n k) = Some (σ (n + k)).
Proof using steps.
  revert n. induction k as [|k IH]; intros n; [by rewrite Nat.add_0_r|].
  unfold between. cbn. rewrite steps. replace (n + S k) with (S n + k) by lia. apply IH.
Qed.

Lemma endless_reachable n : reachable config auth (σ n).
Proof using from_reachable steps.
  pose proof (endless_run 0 n) as H. by apply (reachable_run _ _ (between 0 n) (σ 0)).
Qed.

Context (i : nat).
(** The scheduler does not forget the monitor thread for good, while it has
    something to do. *)
Hypothesis fair : forall n, exists k, turn_of i (lab (n + k)) = true \/ cleared i (σ (n + k)).

Lemma enough_turns t : forall n, exists k, (t <= turns i (between n k))%nat \/ cleared i (σ (n + k)).
Proof using fair.
  induction t as [|t IH]; intros n; [exists 0; left; lia|].
  destruct (fair n) as (k & [Hk|Hk]); [|by exists k; right].
  destruct (IH (S (n + k))) as (k' & [Hk'|Hk']); [|exists (k + S k'); right; by replace (n + (k + S k')) with (S (n + k) + k') by lia].
  exists (k + S k'). left. unfold between in *. rewrite seq_app, map_app. unfold turns in *.
  rewrite List.filter_app, length_app. cbn. rewrite Hk. cbn. lia.
Qed.

End Liveness.

Section Liveness2.
Context {SJ : SerdeJson} (config : Config) (auth : AuthMode).

(** A monitor that has cleared the state has reaped its child, or lost it. *)
Lemma cleared_reaped i s : reachable config auth s -> cleared i s ->
  (forall r, core (shared s) = Running r -> cur s <> i) /\
  exists m, monitors s !! i = Some m /\ inflight (mpc m) = false /\
    (lost m = true \/ status <$> procs s !! i = Some PReaped).
Proof.
  intros Hr (m & Hm & Hf). pose proof (reachable_proc_ok _ _ s Hr) as H. split.
  - intros r Hc <-. destruct (pi_core _ _ _ _ _ H r Hc) as (m' & Hm' & Hf' & _). congruence.
  - exists m. split_and!; [done|done|]. destruct (pi_proc _ _ _ _ _ H i m Hm) as (u & Hu & _ & Hw).
    destruct (procs s !! i) as [p|]; [|done]. cbn in *. unfold pview in Hu. injection Hu as _ _ Hu.
    destruct u.
    + destruct (Hw eq_refl) as [Hw'|]; [|by left]. unfold inflight in Hf. by rewrite Hw' in Hf.
    + right. f_equal. by apply reaped_status.
Qed.

(** A core that is asked to stop is gone after finitely many steps. *)
Lemma requested_cleared (σ : nat -> Sys) (lab : nat -> Label) i m :
  reachable config auth (σ 0) -> (forall n, step config auth (σ n) (lab n) = Some (σ (S n))) ->
  i ∈ requested (σ 0) -> monitors (σ 0) !! i = Some m -> mpc m <> MUnborn ->
  (forall n, exists k, turn_of i (lab (n + k)) = true \/ cleared i (σ (n + k))) ->
  (forall t, exists n, (t <= now (σ n))%Z) -> exists n, cleared i (σ n).
Proof.
  intros Hr Hsteps Hi Hm Hb Hfair Htime.
  destruct (enough_turns σ lab i Hfair 5 0) as (n1 & [Ht1|Hc]); [|eauto].
  destruct (run_early config auth (between lab 0 n1) i (σ 0) (σ n1) m) as (m1 & Hm1 & Hb1 & Hi1 & He1);
    [done..|apply (endless_run config auth σ lab Hsteps 0 n1)|].
  pose proof (early_bound m). assert (He : early m1 = 0) by lia.
  pose proof (endless_reachable config auth σ lab Hr Hsteps n1) as Hr1.
  assert (Hdue : due (now (σ n1) + TERM_GRACE) i (σ n1) m1).
  { split_and!; [done|done|]. intros Hw. destruct (early_zero m1 Hb1 He Hw) as [d Hd]. exists d. split; [done|].
    by apply (es_term _ _ _ (reachable_escalate config auth _ Hr1 i m1 Hm1)). }
  destruct (Htime (now (σ n1) + TERM_GRACE)%Z) as [n2 Hn2].
  destruct (run_due config auth (now (σ n1) + TERM_GRACE) (between lab n1 n2) i (σ n1) (σ (n1 + n2)) m1)
    as (m2 & Hd2 & Hi2 & _ & _); [done..|apply (endless_run config auth σ lab Hsteps n1 n2)|].
  assert (Hlate : (now (σ n1) + TERM_GRACE <= now (σ (n1 + n2)%nat))%Z).
  { etrans; [exact Hn2|]. replace (n1 + n2) with (n2 + n1) by lia.
    pose proof (endless_run config auth σ lab Hsteps n2 n1) as Hrun.
    pose proof (endless_reachable config auth σ lab Hr Hsteps n2) as Hr2. by eapply run_now. }
  destruct (enough_turns σ lab i Hfair 8 (n1 + n2)) as (n3 & [Ht3|Hc]); [|eauto].
  destruct (run_due config auth (now (σ n1) + TERM_GRACE) (between lab (n1 + n2) n3) i (σ (n1 + n2))
    (σ (n1 + n2 + n3)) m2) as (m3 & (Hm3 & Hb3 & _) & _ & _ & Hrank);
    [by eapply endless_reachable|done|done|apply (endless_run config auth σ lab Hsteps (n1 + n2) n3)|].
  specialize (Hrank Hlate). pose proof (rank_bound (is_dead i (σ (n1 + n2))) (mpc m2)).
  exists (n1 + n2 + n3), m3. split; [done|]. apply (rank_zero (is_dead i (σ (n1 + n2 + n3)))); [done|lia].
Qed.

(** C19: a request to stop a core is honoured.  In every endless run of the
    supervisor in which time goes on and the core's monitor thread, once started,
    is scheduled again and again while it has work, its monitor comes to the end of
    its loop, the state no longer records it, and the core was reaped or a
    [try_wait] has failed (in which case it may go on), whatever the core does
    with SIGTERM and whatever the other threads, the owner and other processes
    do. *)
Theorem stop_request_is_honoured (σ : nat -> Sys) (lab : nat -> Label) i m :
  reachable config auth (σ 0) -> (forall n, step config auth (σ n) (lab n) = Some (σ (S n))) ->
  i ∈ requested (σ 0) -> monitors (σ 0) !! i = Some m -> mpc m <> MUnborn ->
  (forall n, exists k, turn_of i (lab (n + k)) = true \/ cleared i (σ (n + k))) ->
  (forall t, exists n, (t <= now (σ n))%Z) ->
  exists n, (forall r, core (shared (σ n)) = Running r -> cur (σ n) <> i) /\
    exists m', monitors (σ n) !! i = Some m' /\ inflight (mpc m') = false /\
      (lost m' = true \/ status <$> procs (σ n) !! i = Some PReaped).
Proof.
  intros Hr Hsteps Hi Hm Hb Hfair Htime.
  destruct (requested_cleared σ lab i m) as [n Hn]; [done..|].
  exists n. apply cleared_reaped; [by eapply endless_reachable|done].
Qed.

End Liveness2.

(** ** Witness *)

Import Schedule.

(** A [stop] was requested; the core ignores SIGTERM, is killed after the grace
    period and reaped; then only time goes on. *)
Definition stop_schedule : list Label :=
  connects 0 false ++ greeted 0 ++ spawns 0 100 ++ started 0 ++
  [LConn 0 (line_of ClientProto.Cmd.Stop); LConn 0 INone].
Definition stop_sent : Sys := default initial (run stop_schedule).

Definition stubborn : list Label :=
  polls 0 ++ [LTick 5000] ++ polls 0 ++ [LMonitor 0 (JTryWait true); LMonitor 0 JNone].

Definition stubborn_end : Sys := default initial (Supervisor.run the_config the_auth stop_sent stubborn).

Definition endless_label (n : nat) : Label := nth n stubborn (LTick 1000).
Definition endless (n : nat) : Sys :=
  if (n <? 11)%nat then default initial (Supervisor.run the_config the_auth stop_sent (take n stubborn))
  else with_now (now stubborn_end + 1000 * Z.of_nat (n - 11))%Z stubborn_end.

Lemma stop_sent_reachable : reachable stop_sent.
Proof.
  apply (run_reachable the_config the_auth stop_schedule initial); [constructor|].
  vm_compute. reflexivity.
Qed.

Lemma endless_late n : (11 <= n)%nat ->
  endless n = with_now (now stubborn_end + 1000 * Z.of_nat (n - 11))%Z stubborn_end.
Proof. intros Hn. unfold endless. by rewrite (proj2 (Nat.ltb_ge n 11) Hn). Qed.

Lemma tick_step s t : exited s = None -> step (with_now t s) (LTick 1000) = Some (with_now (t + 1000) s).
Proof. intros He. unfold Supervisor.step. cbn [exited with_now]. by rewrite He. Qed.

Lemma endless_label_late n : (11 <= n)%nat -> endless_label n = LTick 1000.
Proof.
  intros Hn. apply nth_overflow. assert (H : length stubborn = 11%nat) by reflexivity. by rewrite H.
Qed.

Lemma endless_steps n : step (endless n) (endless_label n) = Some (endless (S n)).
Proof.
  destruct (decide (n < 11)%nat) as [Hlt|Hge].
  - do 11 (destruct n as [|n]; [vm_compute; reflexivity|]). lia.
  - assert (He : exited stubborn_end = None) by (vm_compute; reflexivity).
    rewrite (endless_late n), (endless_late (S n)), endless_label_late by lia. rewrite (tick_step _ _ He).
    do 2 f_equal. lia.
Qed.

Lemma stop_request_is_honoured_witness : exists n, exists m', monitors (endless n) !! 0 = Some m' /\
  inflight (mpc m') = false /\ (lost m' = true \/ status <$> procs (endless n) !! 0 = Some PReaped).
Proof.
  destruct (stop_request_is_honoured the_config the_auth endless endless_label 0
    {| mpid := 100; vars := monitor_init; mpc := MWait; lost := false |}) as (n & _ & Hn).
  - exact stop_sent_reachable.
  - exact endless_steps.
  - apply (bool_decide_unpack _). vm_compute. exact I.
  - vm_compute. reflexivity.
  - discriminate.
  - intros n. exists 11. right. rewrite endless_late by lia. eexists. split; vm_compute; reflexivity.
  - intros t. exists (11 + Z.to_nat (Z.max 0 t))%nat. rewrite endless_late by lia. cbn [now with_now].
    assert (0 <= now stubborn_end)%Z by (vm_compute; discriminate). lia.
  - exists n. exact Hn.
Defined.
