(* ===== verification/MonitorRef.v ===== *)
(** * A monitor thread runs the loop of [spawn_monitor]

    [Supervisor] takes a turn of the monitor apart into four steps, between which
    everybody else may move; [CoreProc.monitor] is the loop of the source in one
    piece.  Whatever the interleaving, a monitor thread has sent the signals the
    loop sends on what the thread has seen, and reports the exit the loop
    returns. *)

From Stdlib Require Import ZArith Lia String.
From stdpp Require Import base list strings gmap.
From S2P Require Import Prelude RustStr Json JsonText Proto ClientProto Config Auth Hooks CoreProc Janitor Server Supervisor Schedules ProcInv LockInv HookInv Progress.

(** ** The loop on a list of turns *)

(** The turns in which the child was seen alive: the flag seen under the lock and
    the time. *)
Fixpoint replay (ts : list (bool * Z)) (i : nat) (v : MonitorVars) : list (nat * Signal) * MonitorVars :=
  match ts with
  | [] => ([], v)
  | (stop, t) :: ts =>
      let (sg, v) := escalate stop t v in
      let (sigs, v) := replay ts (S i) v in
      (match sg with Some sg => (i, sg) :: sigs | None => sigs end, v)
  end.

Lemma replay_snoc stop t ts : forall i v,
  replay (ts ++ [(stop, t)]) i v =
  let (sigs, v1) := replay ts i v in
  let (sg, v2) := escalate stop t v1 in
  (sigs ++ match sg with Some sg => [((i + length ts)%nat, sg)] | None => [] end, v2)%list.
Proof.
  induction ts as [|[b u] ts IH]; intros i v; cbn [replay app length].
  - destruct (escalate stop t v) as [[sg|] v2]; cbn; by rewrite ?Nat.add_0_r.
  - destruct (escalate b u v) as [sg1 v1]. rewrite IH. destruct (replay ts (S i) v1) as [sigs v2].
    destruct (escalate stop t v2) as [sg v3]. rewrite Nat.add_succ_r. by destruct sg1, sg.
Qed.

(** What the loop is given: the turns, and the answer of the last [try_wait]. *)
Definition waits (ts : list (bool * Z)) (w : WaitAnswer) (i : nat) : WaitAnswer :=
  if (i <? length ts)%nat then Alive else w.
Definition stops (ts : list (bool * Z)) (i : nat) : bool := (nth i ts (false, 0%Z)).1.
Definition clocks (ts : list (bool * Z)) (i : nat) : Z := (nth i ts (false, 0%Z)).2.

Lemma monitor_alive wait stop clock fuel i v : wait i = Alive ->
  monitor wait stop clock (S fuel) i v =
  let (s, v') := escalate (stop i) (clock i) v in
  match monitor wait stop clock fuel (S i) v' with
  | Some (sigs, info) => Some (match s with Some s => (i, s) :: sigs | None => sigs end, info)
  | None => None
  end.
Proof. intros H. cbn [monitor]. by rewrite H. Qed.

Lemma nth_turn ts1 b t ts2 : stops (ts1 ++ (b, t) :: ts2) (length ts1) = b /\
  clocks (ts1 ++ (b, t) :: ts2) (length ts1) = t.
Proof. unfold stops, clocks. by rewrite nth_middle. Qed.

Lemma monitor_replay_from w ts : w <> Alive -> forall ts2 ts1 v, ts = (ts1 ++ ts2)%list ->
  monitor (waits ts w) (stops ts) (clocks ts) (S (length ts2)) (length ts1) v =
  Some ((replay ts2 (length ts1) v).1, exit_info w).
Proof.
  intros Hw ts2. induction ts2 as [|[b t] ts2 IH]; intros ts1 v E.
  - rewrite E, app_nil_r. cbn. unfold waits. rewrite Nat.ltb_irrefl. by destruct w.
  - assert (Ha : waits ts w (length ts1) = Alive).
    { unfold waits. rewrite (proj2 (Nat.ltb_lt _ _)); [done|]. rewrite E, length_app. cbn. lia. }
    cbn [length]. rewrite monitor_alive by done. destruct (nth_turn ts1 b t ts2) as [Hb Ht]. rewrite <- E in Hb, Ht.
    rewrite Hb, Ht. cbn [replay]. destruct (escalate b t v) as [sg v1].
    specialize (IH (ts1 ++ [(b, t)])%list v1). rewrite <- app_assoc, length_app, Nat.add_1_r in IH.
    rewrite (IH E). destruct (replay ts2 (S (length ts1)) v1) as [sigs v2]. by destruct sg.
Qed.

Lemma monitor_replay w ts v : w <> Alive ->
  monitor (waits ts w) (stops ts) (clocks ts) (S (length ts)) 0 v = Some ((replay ts 0 v).1, exit_info w).
Proof. intros Hw. by apply (monitor_replay_from w ts Hw ts []). Qed.

(** ** What a thread sees *)

Record Seen : Type := { turns : list (bool * Z); ended : option WaitAnswer }.

(** The answer of [try_wait] that ends the loop, and at the end of each turn the
    flag and the time. *)
Definition sees (i : nat) (s : Sys) (l : Label) (o : Seen) : Seen :=
  match l, mpc <$> monitors s !! i with
  | LMonitor j (JTryWait true), Some MWait =>
      match status <$> procs s !! i with
      | Some (PZombie st) => if (j =? i)%nat then {| turns := turns o; ended := Some (Reaped st) |} else o
      | _ => o
      end
  | LMonitor j (JTryWait false), Some MWait =>
      if (j =? i)%nat then {| turns := turns o; ended := Some WaitError |} else o
  | LMonitor j JNone, Some (MSignal stop) =>
      if (j =? i)%nat then {| turns := (turns o ++ [(stop, now s)])%list; ended := ended o |} else o
  | _, _ => o
  end.

Section Seen.
Context {SJ : SerdeJson} (config : Config) (auth : AuthMode).

Fixpoint seen (i : nat) (s : Sys) (ls : list Label) (o : Seen) : Seen :=
  match ls with
  | [] => o
  | l :: ls =>
      match step config auth s l with
      | Some s' => seen i s' ls (sees i s l o)
      | None => o
      end
  end.
End Seen.

(** ** Who sends signals *)

Definition sent_by (i : nat) (s : Sys) : list Signal :=
  map sig (List.filter (fun e => (sender e =? i)%nat) (sent s)).

Lemma write_all_sent c evs : forall s, sent (write_all c evs s) = sent s.
Proof. induction evs as [|ev evs IH]; intros s; [done|]. apply (IH (write c ev s)). Qed.

Lemma fire_sent ev why gen present s : sent (fire ev why gen present s) = sent s.
Proof. unfold fire. by destruct present. Qed.

Lemma end_sweep_sent n present s : sent (end_sweep n present s) = sent s.
Proof. unfold end_sweep. case_match; [apply fire_sent|done]. Qed.

Lemma kill_sent' p ok s s1 hit : kill_pid p ok s = (s1, hit) -> sent s1 = sent s.
Proof. intros H. destruct (kill_pid_procs p ok s) as (ps & E & _). rewrite H in E. cbn in E. by subst s1. Qed.

Lemma lease_sent c k t s : sent (do_lease c k t s) = sent s.
Proof. unfold do_lease. destruct (acquire_lease _ _ _ _) as [st [d|]]; [by destruct (option_map conn d)|done]. Qed.

Section Ref.
Context {SJ : SerdeJson} (config : Config) (auth : AuthMode).

Lemma start_sent c env s : sent (do_start config c env s) = sent s.
Proof. unfold do_start. by destruct (start_locked config env (shared s)) as [st [[|]|]]. Qed.

Lemma conn_step_sent c k i s s' : conn_step config auth c k i s = Some s' -> sent s' = sent s.
Proof.
  unfold conn_step.
  destruct (pc k) as [| |t|t|[o|]| |co po| |ev| | |ch p po|p po|why|why|why| | |hook|hook [|q qs] n|h| |] eqn:E, i;
    try done; try (intros [= <-]; done).
  - intros [= <-]. by repeat case_match.
  - destruct (read_hello r) as [t evs]. intros [= <-]. apply write_all_sent.
  - intros [= <-]. apply lease_sent.
  - intros [= <-]. by destruct free.
  - destruct (core_snapshot _) as [[co p] po]. by intros [= <-].
  - intros [= <-]. by destruct (command_turn r).
  - destruct (core_snapshot _) as [[co p] po]. by intros [= <-].
  - case_match; [|done]. intros [= <-]. apply start_sent.
  - intros [= <-]. apply fire_sent.
  - intros [= <-]. unfold do_stop. by destruct (stop_locked (shared s)) as [st []].
  - intros [= <-]. by case_match.
  - intros [= <-]. apply fire_sent.
  - intros [= <-]. apply end_sweep_sent.
  - destruct (kill_pid q ok s) as [s1 hit] eqn:Hk. intros [= <-]. exact (kill_sent' _ _ _ _ _ Hk).
  - repeat case_match; try done. by intros [= <-].
Qed.

(** A monitor sends in [MSignal], the signal [escalate] says, and nowhere else. *)
Definition shot (m : Monitor) (s : Sys) : option Signal :=
  match mpc m with MSignal stop => (escalate stop (now s) (vars m)).1 | _ => None end.

Lemma monitor_step_sent i m j s s' : monitor_step config i m j s = Some s' ->
  exists r, sent s' = (sent s ++ match shot m s with
    | Some sg => [{| sender := i; receiver := r; sig := sg |}] | None => [] end)%list.
Proof.
  assert (Hsame : forall s1, sent s1 = sent s -> shot m s = None -> exists r, sent s1 = (sent s ++ match shot m s with
    | Some sg => [{| sender := i; receiver := r; sig := sg |}] | None => [] end)%list).
  { intros s1 E ->. exists None. by rewrite app_nil_r. }
  unfold monitor_step. destruct (mpc m) as [| | |stop| |info|info|to info| | | |[|p ps] n|] eqn:Hpc, j as [|[]| | |]; try done;
    try (intros [= <-]; apply Hsame; [done|by unfold shot; rewrite Hpc]).
  - destruct (status <$> procs s !! i) as [[]|]; intros [= <-]; (apply Hsame; [done|by unfold shot; rewrite Hpc]).
  - unfold shot. rewrite Hpc. destruct (escalate stop (now s) (vars m)) as [[sg|] v]; intros [= <-]; cbn.
    + exists (holder (mpid m) (procs s) 0). unfold send_signal. by destruct sg, (holder (mpid m) (procs s) 0).
    + exists None. by rewrite app_nil_r.
  - intros [= <-]. apply Hsame; [by destruct to|by unfold shot; rewrite Hpc].
  - intros [= <-]. apply Hsame; [apply fire_sent|by unfold shot; rewrite Hpc].
  - intros [= <-]. apply Hsame; [by destruct (is_stopped (shared s))|by unfold shot; rewrite Hpc].
  - intros [= <-]. apply Hsame; [apply end_sweep_sent|by unfold shot; rewrite Hpc].
  - destruct (kill_pid p ok s) as [s1 hit] eqn:Hk. intros [= <-].
    apply Hsame; [exact (kill_sent' _ _ _ _ _ Hk)|by unfold shot; rewrite Hpc].
Qed.

Lemma step_sent_other i s l s' : step config auth s l = Some s' -> turn_of i l = false -> sent_by i s' = sent_by i s.
Proof.
  unfold step. destruct (exited s); [done|]. intros Hs Hl.
  assert (Hsame : sent s' = sent s -> sent_by i s' = sent_by i s) by (unfold sent_by; by intros ->).
  destruct l as [p|c x|j x| |ms|j st|p cmd|j|h].
  - injection Hs as <-. by apply Hsame.
  - repeat case_match; try done. apply Hsame. by eapply conn_step_sent.
  - destruct (monitors s !! j) as [m|] eqn:Hm; [|done]. case_match; [done|].
    destruct (monitor_step_sent j m x s s' Hs) as [r E]. unfold sent_by. rewrite E, List.filter_app, map_app.
    destruct (shot m s); cbn; [|by rewrite app_nil_r]. cbn in Hl. rewrite Nat.eqb_sym, Hl. by rewrite app_nil_r.
  - apply Hsame. unfold timer_step in Hs. repeat case_match; by simplify_eq.
  - apply Hsame. case_match; by simplify_eq.
  - apply Hsame. repeat case_match; by simplify_eq.
  - apply Hsame. case_match; by simplify_eq.
  - apply Hsame. repeat case_match; by simplify_eq.
  - apply Hsame. by injection Hs as <-.
Qed.

(** ** The refinement *)

(** The exit a thread reports is the answer that ended its loop. *)
Definition reports (p : MPc) (o : Seen) : Prop :=
  match p with
  | MExit info | MPush info | MPushTo _ info => exists w, ended o = Some w /\ w <> Alive /\ info = exit_info w
  | _ => True
  end.

Record ref_ok (i : nat) (s : Sys) (o : Seen) (m : Monitor) : Prop := {
  rf_sent : sent_by i s = map snd (replay (turns o) 0 monitor_init).1;
  rf_vars : vars m = (replay (turns o) 0 monitor_init).2;
  rf_end : reports (mpc m) o
}.

Definition refines (i : nat) (s : Sys) (o : Seen) : Prop :=
  match monitors s !! i with
  | Some m => ref_ok i s o m
  | None => sent_by i s = [] /\ turns o = []
  end.

Lemma sees_other i s l o : turn_of i l = false -> sees i s l o = o.
Proof.
  unfold sees, turn_of. intros Hl. destruct l as [| |j x| | | | | |]; try done. rewrite Nat.eqb_sym, Hl.
  by destruct x as [|[]| | |], (mpc <$> monitors s !! i) as [[]|], (status <$> procs s !! i) as [[]|].
Qed.

Lemma other_refines i s l s' o : proc_ok s -> step config auth s l = Some s' -> turn_of i l = false ->
  refines i s o -> refines i s' (sees i s l o).
Proof.
  intros Hp Hst Hl H. rewrite sees_other by done. pose proof (step_sent_other i s l s' Hst Hl) as Hsent.
  pose proof (step_frame config auth i s l s' Hp Hl Hst) as Hf. unfold monitor_frame in Hf. unfold refines in *.
  destruct (monitors s !! i) as [m|].
  - destruct H as [H1 H2 H3]. destruct Hf as (m' & -> & [->| ->]); [by constructor; rewrite ?Hsent|].
    constructor; [by rewrite Hsent|by rewrite born_vars|]. unfold spawn_monitor. by destruct (mpc m) eqn:E; cbn; rewrite ?E.
  - destruct H as [H1 H2]. destruct Hf as [->|[p ->]]; [by rewrite Hsent|]. by constructor; rewrite ?Hsent, ?H1, ?H2.
Qed.

Lemma sent_by_shot i m j s s' : monitor_step config i m j s = Some s' ->
  sent_by i s' = (sent_by i s ++ match shot m s with Some sg => [sg] | None => [] end)%list.
Proof.
  intros [r E]%monitor_step_sent. unfold sent_by. rewrite E, List.filter_app, map_app.
  destruct (shot m s); cbn; [by rewrite Nat.eqb_refl|done].
Qed.

(** A step without a signal. *)
Lemma own_quiet i f s s1 o m : monitors s !! i = Some m -> ref_ok i s o m -> monitors s1 = monitors s ->
  sent_by i (on_monitor i f s1) = sent_by i s -> vars (f m) = vars m ->
  forall o', turns o' = turns o -> reports (mpc (f m)) o' ->
  exists m', monitors (on_monitor i f s1) !! i = Some m' /\ ref_ok i (on_monitor i f s1) o' m'.
Proof.
  intros Hm [H1 H2 H3] E Hs Hv o' Ho Hr. exists (f m). cbn. rewrite E, lookup_alter_eq, Hm. split; [done|].
  by constructor; rewrite ?Hs, ?Hv, ?Ho.
Qed.

Ltac own_quiet :=
  eapply own_quiet;
    [done|done|first [done|apply fire_monitors|apply end_sweep_monitors|by eapply kill_monitors]|done|done|done|cbn; eauto].

Lemma own_refines i m x s s' o : monitors s !! i = Some m -> monitor_step config i m x s = Some s' ->
  ref_ok i s o m -> exists m', monitors s' !! i = Some m' /\ ref_ok i s' (sees i s (LMonitor i x) o) m'.
Proof.
  intros Hm Hst H. pose proof (sent_by_shot i m x s s' Hst) as Hsent. unfold shot in Hsent.
  pose proof (rf_end _ _ _ _ H) as Hend.
  unfold sees. rewrite Hm, Nat.eqb_refl. cbn [fmap option_fmap option_map]. revert Hst Hsent. unfold monitor_step.
  destruct (mpc m) as [| | |stop| |info|info|to info| | | |[|p ps] n|] eqn:Hpc, x as [|[]| | |]; try done; rewrite ?app_nil_r.
  - destruct (status <$> procs s !! i) as [[]|]; intros [= <-] Hsent; own_quiet.
  - intros [= <-] Hsent. own_quiet.
  - intros [= <-] Hsent. own_quiet.
  - destruct H as [H1 H2 _]. destruct (escalate stop (now s) (vars m)) as [sg v] eqn:He. intros [= <-] Hsent. cbn [fst] in Hsent.
    eexists. split.
    { cbn. destruct sg; rewrite ?send_monitors, lookup_alter_eq, Hm; reflexivity. }
    rewrite H2 in He. destruct (replay (turns o) 0 monitor_init) as [sigs v0] eqn:Er. cbn [fst snd] in He, H1.
    constructor; cbn [turns vars mpc]; [|by rewrite replay_snoc, Er, He|done].
    rewrite Hsent, H1, replay_snoc, Er, He. cbn. rewrite map_app. by destruct sg.
  - intros [= <-] Hsent. own_quiet.
  - destruct (handle_core_exit_locked _ _) as [st []]; intros [= <-] Hsent; own_quiet.
  - intros [= <-] Hsent. own_quiet.
  - intros [= <-] Hsent. destruct to; own_quiet.
  - intros [= <-] Hsent. own_quiet.
  - intros [= <-]. destruct (is_stopped (shared s)); intros Hsent; own_quiet.
  - intros [= <-] Hsent. own_quiet.
  - intros [= <-] Hsent. own_quiet.
  - destruct (kill_pid p ok s) as [s1 hit] eqn:Hk. intros [= <-] Hsent.
    own_quiet.
Qed.

Lemma step_refines i s l s' o : proc_ok s -> step config auth s l = Some s' -> refines i s o ->
  refines i s' (sees i s l o).
Proof.
  intros Hp Hst H. destruct (turn_of i l) eqn:Hl; [|by apply other_refines].
  destruct l as [| |j x| | | | | |]; try done. cbn in Hl. apply Nat.eqb_eq in Hl as <-.
  unfold refines in *. unfold step in Hst. destruct (exited s); [done|].
  destruct (monitors s !! i) as [m|] eqn:Hm; [|done]. case_match; [done|].
  destruct (own_refines i m x s s' o Hm Hst H) as (m' & -> & H'). exact H'.
Qed.

Lemma run_refines i ls : forall s s' o, reachable config auth s -> refines i s o ->
  run config auth s ls = Some s' -> refines i s' (seen config auth i s ls o).
Proof.
  induction ls as [|l ls IH]; intros s s' o Hr H; cbn [run seen]; [by intros [= <-]|].
  destruct (step config auth s l) as [s1|] eqn:Hst; [|done]. intros Hrun.
  eapply IH; [by econstructor| |done]. eapply step_refines; [by eapply reachable_proc_ok|done|done].
Qed.

Definition nothing_seen : Seen := {| turns := []; ended := None |}.

(** The signals of the loop, and when they are sent. *)
Record disciplined (ts : list (bool * Z)) (sigs : list (nat * Signal)) : Prop := {
  di_order : map snd sigs ∈ [[]; [SIGTERM]; [SIGTERM; SIGKILL]];
  di_asked t sg : (t, sg) ∈ sigs -> (t < length ts)%nat /\ stops ts t = true;
  di_grace t : (t, SIGKILL) ∈ sigs -> exists t', (t' < t)%nat /\ (t', SIGTERM) ∈ sigs /\
    (clocks ts t' + 5000 <= clocks ts t)%Z
}.

Lemma replay_disciplined ts : disciplined ts (replay ts 0 monitor_init).1.
Proof.
  assert (Ha : forall j, (j < length ts)%nat -> waits ts WaitError j = Alive).
  { intros j Hj. unfold waits. by rewrite (proj2 (Nat.ltb_lt _ _) Hj). }
  assert (Hg : waits ts WaitError (length ts) <> Alive) by (unfold waits; by rewrite Nat.ltb_irrefl).
  assert (E : (replay ts 0 monitor_init).1 = signals (stops ts) (clocks ts) (length ts) 0 (length ts)).
  { pose proof (monitor_replay WaitError ts monitor_init ltac:(done)) as H.
    rewrite (monitor_fresh _ _ (clocks ts) (length ts) Ha Hg (length ts) 0 eq_refl) in H. by injection H. }
  rewrite E. constructor.
  - unfold signals. destruct (first_turn _ _ _) as [t|]; [|by left]. destruct (first_turn _ _ _) as [t'|].
    + do 2 right. by left.
    + right. by left.
  - intros t sg Hin%(elem_signals (waits ts WaitError) (stops ts) (clocks ts) (length ts) Hg). destruct Hin as (t0 & H0 & [[-> ->]|[-> H1]]).
    + apply first_turn_Some in H0 as (? & ? & _). split; [lia|done].
    + apply first_turn_Some in H1 as (? & [? _]%andb_prop & _). apply first_turn_Some in H0 as (? & _). split; [lia|done].
  - intros t Hin%(elem_signals (waits ts WaitError) (stops ts) (clocks ts) (length ts) Hg). destruct Hin as (t0 & H0 & [[_ [=]]|[_ H1]]).
    exists t0. apply first_turn_Some in H1 as (? & [_ Hc%Z.leb_le]%andb_prop & _).
    split_and!; [lia|apply (elem_signals (waits ts WaitError) _ _ _ Hg); eauto|done].
Qed.

(** C13: whatever the interleaving, a monitor thread runs the loop of
    [spawn_monitor] on what it has seen: taking, for each of its turns so far, the
    flag it read under the lock and the time of that turn, and any answer that
    ends the loop next, [CoreProc.monitor] sends exactly the signals the thread
    has sent; and the exit the thread hands on is what the loop returns on the
    answer of [try_wait] it got.  So, in every run of the supervisor: the
    escalation sends nothing unless a stop was seen to be requested, SIGTERM comes
    first, SIGKILL at most once and 5 s later at the earliest, and no other signal;
    and each of them reaches the monitor's own child. *)
Theorem monitor_thread_runs_the_loop i ls s m : run config auth initial ls = Some s -> monitors s !! i = Some m ->
  let o := seen config auth i initial ls nothing_seen in
  exists sigs, sent_by i s = map snd sigs /\ disciplined (turns o) sigs /\
    (forall w, w <> Alive ->
       monitor (waits (turns o) w) (stops (turns o)) (clocks (turns o)) (S (length (turns o))) 0 monitor_init
       = Some (sigs, exit_info w)) /\
    reports (mpc m) o /\
    forall e, e ∈ sent s -> sender e = i -> receiver e = Some i.
Proof.
  intros Hrun Hm o.
  assert (H : refines i s o) by (eapply run_refines; [constructor|done|done]).
  unfold refines in H. rewrite Hm in H. destruct H as [H1 _ H3]. exists (replay (turns o) 0 monitor_init).1.
  split_and!; [done|apply replay_disciplined| |done|].
  - intros w Hw. by apply monitor_replay.
  - intros e He <-. assert (Hr : reachable config auth s) by (by eapply run_reachable; [constructor|]).
    by apply (pi_sent _ _ _ _ _ (reachable_proc_ok config auth s Hr)).
Qed.
End Ref.

(** ** Witness *)

Import Schedule.

(** A stop of a core that ignores SIGTERM, up to its end by SIGKILL. *)
Definition stubborn_schedule : list Label :=
  (connects 0 false ++ greeted 0 ++ spawns 0 100 ++ started 0 ++ polls 0 ++
   [LConn 0 (line_of ClientProto.Cmd.Stop); LConn 0 INone; LTick 100] ++ polls 0 ++ [LTick 1000] ++ polls 0 ++ [LTick 4000] ++ polls 0 ++
   [LMonitor 0 (JTryWait true)])%list.
Definition stubborn_state : Sys := default initial (run stubborn_schedule).
Definition stubborn_seen : Seen := seen the_config the_auth 0 initial stubborn_schedule nothing_seen.

Example stubborn_turns : turns stubborn_seen = [(false, 0); (true, 100); (true, 1100); (true, 5100)]%Z /\
  ended stubborn_seen = Some (Reaped 9) /\ sent_by 0 stubborn_state = [SIGTERM; SIGKILL].
Proof. vm_compute. done. Qed.

Lemma monitor_thread_runs_the_loop_witness :
  exists sigs, sent_by 0 stubborn_state = map snd sigs /\
    monitor (waits (turns stubborn_seen) (Reaped 9)) (stops (turns stubborn_seen)) (clocks (turns stubborn_seen)) 5 0 monitor_init
      = Some (sigs, {| code := None; signal := Some 9%Z |}) /\
    map snd sigs = [SIGTERM; SIGKILL].
Proof.
  assert (Hr : run stubborn_schedule = Some stubborn_state) by (vm_compute; reflexivity).
  assert (Hm : monitors stubborn_state !! 0 = Some {| mpid := 100;
    vars := {| term_deadline := Some 5100%Z; kill_sent := true |};
    mpc := MExit {| code := None; signal := Some 9%Z |}; lost := false |}) by (vm_compute; reflexivity).
  destruct (monitor_thread_runs_the_loop the_config the_auth 0 stubborn_schedule stubborn_state _ Hr Hm)
    as (sigs & Hs & _ & Hl & _ & _).
  exists sigs. split; [exact Hs|]. split.
  - specialize (Hl (Reaped 9) ltac:(discriminate)). exact Hl.
  - rewrite <- Hs. vm_compute. reflexivity.
Defined.
