(* ===== verification/Causes.v ===== *)
(** * Every event has its cause

    What the supervisor tells its clients is true: each event on a socket goes back
    to something that happened before, a process spawned with that pid and that
    RPC port, an exit with that status nobody had asked for, a takeover, a refusal.
    The facts are logged beside a run; the log is not part of the program. *)

From Stdlib Require Import ZArith Lia String.
From stdpp Require Import base list strings gmap.
From S2P Require Import Prelude RustStr Json JsonText Proto ClientProto Config Auth Hooks CoreProc Janitor Server Supervisor Schedules ProcInv LockInv HookInv Carried Progress.
Import Proto.

Open Scope string_scope.

(** ** The facts *)

Inductive Fact : Type :=
| FSpawned (i : nat) (pid port : Z)    (* process [i], told to serve RPC on [port] *)
| FFailed (e : string)                 (* a start failed with this message *)
| FAsked (i : nat)                     (* a stop was requested of core [i] *)
| FDied (i : nat) (w : WaitAnswer)     (* the last answer of [try_wait] on [i] *)
| FGone (i : nat) (expected : bool)    (* the state was cleared after core [i] *)
| FRefused (c : nat)                   (* a connection was refused the lease *)
| FTakenOver (c : nat).                (* the lease was taken from a connection *)

Section Log.
Context (config : Config).

(** What a step makes true. *)
Definition logged (s : Sys) (l : Label) : list Fact :=
  match l with
  | LConn c i =>
      match conns s !! c with
      | Some k =>
          match pc k, i with
          | PStart, ISpawn env =>
              match (start_locked config env (shared s)).2 with
              | Ok (Spawned p port _) => [FSpawned (length (procs s)) p port]
              | Ok (AlreadyRunning _ _) => []
              | Err e => [FFailed e]
              end
          | PStop _, INone => if (stop_locked (shared s)).2 then [FAsked (cur s)] else []
          | PLease t, INone =>
              match (acquire_lease (shared s) (my_id k) c t).2 with
              | None => [FRefused c]
              | Some (Some o) => [FTakenOver (conn o)]
              | Some None => []
              end
          | _, _ => []
          end
      | None => []
      end
  | LMonitor i j =>
      match mpc <$> monitors s !! i, j with
      | Some MWait, JTryWait true =>
          match status <$> procs s !! i with Some (PZombie st) => [FDied i (Reaped st)] | _ => [] end
      | Some MWait, JTryWait false => [FDied i WaitError]
      | Some (MExit _), JNone =>
          match monitors s !! i with
          | Some m => [FGone i (handle_core_exit_locked (shared s) (mpid m)).2]
          | None => []
          end
      | _, _ => []
      end
  | _ => []
  end.

End Log.

Section Causes.
Context {SJ : SerdeJson} (config : Config) (auth : AuthMode).

Fixpoint facts (s : Sys) (ls : list Label) : list Fact :=
  match ls with
  | [] => []
  | l :: ls =>
      match step config auth s l with
      | Some s' => (logged config s l ++ facts s' ls)%list
      | None => []
      end
  end.

(** ** Causes *)

(** A core with this pid, serving RPC on this port. *)
Definition spawned_as (G : list Fact) (pid port : Z) : Prop := exists i, FSpawned i pid port ∈ G.

(** The event [ev], written to connection [c], is a consequence of the facts. *)
Definition caused (G : list Fact) (c : nat) (ev : Event.Event) : Prop :=
  match ev with
  | Event.Hello proto _ co port =>
      proto = PROTO_VERSION /\
      match co with
      | CoreState.Stopped => port = None
      | CoreState.Running => exists pid q, port = Some q /\ spawned_as G pid q
      end
  | Event.CoreStarted pid port => spawned_as G pid port
  | Event.Status co pid port =>
      match co with
      | CoreState.Stopped => pid = None /\ port = None
      | CoreState.Running => exists p q, pid = Some p /\ port = Some q /\ spawned_as G p q
      end
  | Event.CoreStopped reason =>
      reason = "already_stopped" \/
      (reason = "requested" /\ exists i b, FAsked i ∈ G /\ FGone i b ∈ G)
  | Event.CoreExited co sg =>
      exists i w, FDied i w ∈ G /\ exit_info w = {| code := co; signal := sg |} /\ FGone i false ∈ G
  | Event.Error code msg =>
      code = "bad_proto" \/ code = "bad_request" \/ (code = "spawn_failed" /\ FFailed msg ∈ G)
  | Event.Busy owner => owner = true /\ FRefused c ∈ G
  | Event.Kicked => FTakenOver c ∈ G
  end.

Definition core_caused (G : list Fact) (cu : nat) (co : CoreProc) : Prop :=
  match co with Running r => FSpawned cu (pid r) (rpc_port r) ∈ G | Stopped => True end.

Definition pc_caused (G : list Fact) (c : nat) (p : Pc) : Prop :=
  match p with
  | PHelloReply co port => caused G c (hello_event co port)
  | PReply ev => caused G c ev
  | PMonitor _ pid port | PUpHook pid port => spawned_as G pid port
  | PNotify (Some o) => FTakenOver o ∈ G
  | PStopWait _ => exists i, FAsked i ∈ G
  | PDownHook _ => exists i b, FAsked i ∈ G /\ FGone i b ∈ G
  | _ => True
  end.

Definition mpc_caused (G : list Fact) (i : nat) (p : MPc) : Prop :=
  match p with
  | MExit info => exists w, FDied i w ∈ G /\ exit_info w = info
  | MPush info | MPushTo _ info => exists w, FDied i w ∈ G /\ exit_info w = info /\ FGone i false ∈ G
  | _ => True
  end.

Definition causes (G : list Fact) (s : Sys) : Prop :=
  carried (core_caused G (cur s)) (pc_caused G) (caused G) (mpc_caused G) s.

(** Which cores were asked to stop, and which are gone. *)
Record asked_gone (G : list Fact) (s : Sys) : Prop := {
  ag_asked i : FAsked i ∈ G <-> i ∈ requested s;
  ag_pending i : FAsked i ∈ G -> (exists b, FGone i b ∈ G) \/ (i = cur s /\ is_stopped (shared s) = false);
  ag_gone i b : FGone i b ∈ G -> exists m, monitors s !! i = Some m /\ inflight (mpc m) = false;
  ag_crash i : FGone i false ∈ G -> i ∉ requested s
}.

(** More facts, same causes. *)
Lemma spawned_mono G G' p q : G ⊆ G' -> spawned_as G p q -> spawned_as G' p q.
Proof. intros H [i Hi]. exists i. auto. Qed.

Lemma caused_mono G G' c ev : G ⊆ G' -> caused G c ev -> caused G' c ev.
Proof.
  intros H. destruct ev as [p v co port|p port|co p port|r|co sg|co msg|o|]; cbn.
  - destruct co; [done|]. intros (? & pid & q & ? & ?). eauto 6 using spawned_mono.
  - by apply spawned_mono.
  - destruct co; [done|]. intros (pid & q & ? & ? & ?). eauto 6 using spawned_mono.
  - intros [?|(? & i & b & ? & ?)]; [by left|right]. split; [done|]. exists i, b. auto.
  - intros (i & w & ? & ? & ?). exists i, w. auto.
  - intros [?|[?|[? ?]]]; auto.
  - intros [? ?]. auto.
  - auto.
Qed.

Lemma pc_caused_mono G G' c p : G ⊆ G' -> pc_caused G c p -> pc_caused G' c p.
Proof.
  intros H. destruct p as [| | | |[o|]| |co po| |ev| | | | | | | | | | | | | |]; cbn; try done; auto.
  - intros [? Hc]. split; [done|]. destruct co; [done|]. destruct Hc as (pid & q & ? & ?). eauto using spawned_mono.
  - by apply caused_mono.
  - by apply spawned_mono.
  - by apply spawned_mono.
  - intros (i & ?). exists i. auto.
  - intros (i & b & ? & ?). exists i, b. auto.
Qed.

Lemma mpc_caused_mono G G' i p : G ⊆ G' -> mpc_caused G i p -> mpc_caused G' i p.
Proof. intros H. destruct p; cbn; try done; intros (w & ?); destruct_and?; exists w; auto. Qed.

Lemma causes_mono G G' s : G ⊆ G' -> causes G s -> causes G' s.
Proof.
  intros H [H1 H2 H3]. constructor.
  - unfold core_caused in *. case_match; auto.
  - intros c k Hk. destruct (H2 c k Hk) as [Hp Hw]. split; [by eapply pc_caused_mono|].
    eapply Forall_impl; [exact Hw|]. intros ev. by apply caused_mono.
  - intros i m Hm. eapply mpc_caused_mono; eauto.
Qed.
(** ** The values *)

Lemma hello_caused G cu st c co p port : core_caused G cu (core st) -> core_snapshot st = (co, p, port) ->
  caused G c (hello_event co port) /\ caused G c (Event.Status co p port).
Proof.
  unfold core_snapshot, core_caused. destruct (core st) as [|r]; intros H [= <- <- <-]; cbn; [done|].
  assert (spawned_as G (pid r) (rpc_port r)) by by exists cu. split; [split; [done|]|]; eauto 6.
Qed.

Lemma read_hello_caused G c r t evs : read_hello r = (t, evs) -> Forall (caused G c) evs.
Proof. unfold read_hello, Event.error. repeat case_match; intros [= <- <-]; repeat constructor; by left. Qed.

Lemma command_turn_caused G c r ev : command_turn r = Reply ev -> caused G c ev.
Proof. unfold command_turn, Event.error. repeat case_match; intros [= <-]; cbn; auto. Qed.

(** ** The steps of a connection *)

Lemma causes_cur G s s' : causes G s -> core (shared s') = core (shared s) -> conns s' = conns s ->
  monitors s' = monitors s -> cur s' = cur s -> causes G s'.
Proof. unfold causes. intros H E1 E2 E3 E4. rewrite E4. by eapply carried_view. Qed.

Lemma causes_goto G c p s : causes G s -> pc_caused G c p -> causes G (goto c p s).
Proof. apply carried_goto. Qed.

Lemma causes_write G c ev s : causes G s -> caused G c ev -> causes G (write c ev s).
Proof. apply carried_write. Qed.

Lemma causes_write_all G c evs : forall s, causes G s -> Forall (caused G c) evs -> causes G (write_all c evs s).
Proof.
  induction evs as [|ev evs IH]; intros s H Hev; [done|]. inversion Hev. subst. apply (IH (write c ev s)); [|done].
  by apply causes_write.
Qed.

Lemma causes_keep G c f s : causes G s -> (forall k, pc (f k) = pc k) -> (forall k, wire (f k) = wire k) ->
  causes G (on_conn c f s).
Proof. apply carried_keep. Qed.

Lemma causes_fire G ev why gen present s : causes G s -> causes G (fire ev why gen present s).
Proof. intros H. unfold fire. destruct present; by eapply causes_cur. Qed.

Lemma causes_end_sweep G n present s : causes G s -> causes G (end_sweep n present s).
Proof. intros H. unfold end_sweep. case_match; [by apply causes_fire|done]. Qed.

Lemma causes_kill G p ok s s1 hit : causes G s -> kill_pid p ok s = (s1, hit) -> causes G s1.
Proof.
  intros H Hk. destruct (kill_pid_procs p ok s) as (ps & E & _). rewrite Hk in E. cbn in E. subst s1.
  by eapply causes_cur.
Qed.

Lemma causes_monitor G i f s : causes G s -> (forall m, monitors s !! i = Some m -> mpc_caused G i (mpc (f m))) ->
  causes G (on_monitor i f s).
Proof. apply carried_monitor. Qed.

Lemma causes_start G c k env s : causes G s -> conns s !! c = Some k -> pc k = PStart ->
  logged config s (LConn c (ISpawn env)) ⊆ G -> causes G (do_start config c env s).
Proof.
  intros H Hk Hp HG. unfold logged in HG. rewrite Hk, Hp in HG. unfold do_start.
  destruct (start_locked config env (shared s)) as [st [[p port|p port cmd]|e]] eqn:Hs; cbn [snd] in HG.
  - apply (causes_goto _ _ _ _ H). cbn. unfold start_locked in Hs. pose proof (ca_core s H) as Hc.
    destruct (core (shared s)) as [|r]; [by repeat case_match|]. injection Hs as _ <- <-. by exists (cur s).
  - destruct H as [_ H2 H3]. unfold causes.
    assert (Hin : FSpawned (length (procs s)) p port ∈ G) by (apply HG; by left).
    apply carried_goto; [|by exists (length (procs s))]. constructor; cbn.
    + unfold start_locked in Hs. destruct (core (shared s)) as [|r]; [|done].
      repeat case_match; simplify_eq. done.
    + exact H2.
    + intros i m [[<- <-]|[_ Hm]]%lookup_insert_Some; [done|eauto].
  - apply (causes_goto _ _ _ _ H). cbn. right. right. split; [done|]. apply HG. by left.
Qed.

Lemma causes_stop G c k why s : causes G s -> conns s !! c = Some k -> pc k = PStop why ->
  logged config s (LConn c INone) ⊆ G -> causes G (do_stop c why s).
Proof.
  intros H Hk Hp HG. unfold logged in HG. rewrite Hk, Hp in HG. unfold do_stop, stop_locked in *.
  pose proof (ca_core s H) as Hc. destruct (core (shared s)) as [|r]; cbn [snd] in HG.
  - apply (causes_goto _ _ _ _ H). destruct why; cbn; auto.
  - unfold causes. apply carried_goto; [|cbn; exists (cur s); apply HG; by left].
    apply (carried_shared _ (with_requested _ s)); [by eapply carried_view|done].
Qed.

Lemma causes_lease G c k t s : causes G s -> conns s !! c = Some k -> pc k = PLease t ->
  logged config s (LConn c INone) ⊆ G -> causes G (do_lease c k t s).
Proof.
  intros H Hk Hp HG. unfold logged in HG. rewrite Hk, Hp in HG. unfold do_lease.
  pose proof (lease_core (shared s) (my_id k) c t) as Hc.
  destruct (acquire_lease _ _ _ _) as [st [d|]]; cbn [fst snd] in Hc, HG.
  - assert (Hst : causes G (with_shared st s)) by (eapply causes_cur; done).
    destruct d as [o|]; cbn [option_map].
    + apply causes_goto; [by apply causes_keep|]. cbn. apply HG. by left.
    + by apply (causes_goto _ _ _ _ Hst).
  - apply causes_goto; [|done]. apply causes_write; [done|]. cbn. split; [done|]. apply HG. by left.
Qed.

Lemma causes_turn G c r s : causes G s -> causes G (do_turn c (command_turn r) s).
Proof.
  intros H. destruct (command_turn r) eqn:E; apply (causes_goto _ _ _ _ H); try done. by eapply command_turn_caused.
Qed.

Lemma conn_step_causes G c k i s s' : causes G s -> conns s !! c = Some k ->
  (forall why, pc k = PStopWait why -> is_stopped (shared s) = true -> pc_caused G c (PDownHook why)) ->
  logged config s (LConn c i) ⊆ G -> conn_step config auth c k i s = Some s' -> causes G s'.
Proof.
  intros H Hk Hwait HG. destruct (ca_conn s H c k Hk) as [Hpc Hw]. unfold conn_step.
  destruct (pc k) as [| |t|t|[o|]| |co po| |ev| | |ch p po|p po|why|why|why| | |hook|hook [|q qs] n|h| |] eqn:E, i;
    try done; cbn in Hpc.
  - intros [= <-]. by destruct (peer k) as [u|e]; [case_match|]; apply causes_goto.
  - destruct (read_hello r) as [t evs] eqn:Hr. intros [= <-].
    apply causes_goto; [|by destruct t]. apply causes_write_all; [done|]. by eapply read_hello_caused.
  - intros [= <-]. apply causes_goto; [|done]. apply causes_keep; [by eapply causes_cur|done..].
  - intros [= <-]. by eapply causes_lease.
  - intros [= <-]. apply causes_goto; [|done]. apply causes_keep; [|done..]. destruct free; [by apply causes_write|done].
  - intros [= <-]. by apply causes_goto.
  - destruct (core_snapshot _) as [[co p] po] eqn:Hs. intros [= <-]. apply causes_goto; [done|].
    by eapply hello_caused, Hs; apply (ca_core s H).
  - intros [= <-]. apply causes_goto; [|done]. by apply causes_write.
  - intros [= <-]. apply causes_turn. by apply causes_keep.
  - intros [= <-]. apply causes_goto; [|done]. by apply causes_write.
  - destruct (core_snapshot _) as [[co p] po] eqn:Hs. intros [= <-]. apply causes_goto; [done|].
    by eapply hello_caused, Hs; apply (ca_core s H).
  - case_match; intros [= <-]. by eapply causes_start.
  - intros [= <-]. apply causes_goto; [|done]. by apply (carried_born ch s H).
  - intros [= <-]. apply causes_goto; [by apply causes_fire|done].
  - intros [= <-]. by eapply causes_stop.
  - intros [= <-]. case_match; [|done]. apply causes_goto; [done|]. by apply Hwait.
  - intros [= <-]. apply causes_goto; [by apply causes_fire|]. destruct why; cbn; auto.
  - intros [= <-]. by apply causes_goto; [|case_match].
  - intros [= <-]. apply causes_goto; [|done]. by apply (carried_release _ s H).
  - intros [= <-]. by apply causes_goto.
  - intros [= <-]. apply causes_goto; [by apply causes_end_sweep|by destruct hook].
  - destruct (kill_pid q ok s) as [s1 hit] eqn:Hkill. intros [= <-]. apply causes_goto; [by eapply causes_kill|done].
  - case_match; [|done]. case_match; intros [= <-]. by apply causes_goto.
  - intros [= <-]. by eapply causes_cur.
Qed.

(** ** The steps of a monitor *)

Lemma monitor_step_causes G i m j s s' : causes G s -> monitors s !! i = Some m ->
  logged config s (LMonitor i j) ⊆ G -> monitor_step config i m j s = Some s' -> causes G s'.
Proof.
  intros H Hm HG. pose proof (ca_monitor s H i m Hm) as Hw. unfold logged in HG. rewrite Hm in HG.
  cbn [fmap option_fmap option_map] in HG. unfold monitor_step.
  destruct (mpc m) as [| | |stop| |info|info|to info| | | |[|p ps] n|] eqn:Hpc, j as [|[]| | |]; try done; cbn in Hw.
  - destruct (status <$> procs s !! i) as [[]|]; intros [= <-]; (apply causes_monitor; [by eapply causes_cur|]).
    + done.
    + intros m' _. eexists. split; [apply HG; by left|done].
  - intros [= <-]. apply causes_monitor; [done|]. intros m' _. eexists. split; [apply HG; by left|done].
  - intros [= <-]. by apply causes_monitor.
  - destruct (escalate _ _ _) as [[sg|] v]; intros [= <-]; (apply causes_monitor; [|done]); [|done].
    unfold send_signal. destruct sg, (holder (mpid m) (procs s) 0); by eapply causes_cur.
  - intros [= <-]. by apply causes_monitor.
  - destruct (handle_core_exit_locked _ _) as [st expected] eqn:He. intros [= <-].
    apply causes_monitor.
    + apply (carried_shared st s H). unfold handle_core_exit_locked in He. injection He as <- _.
      pose proof (ca_core s H). by repeat case_match.
    + intros m' _. destruct expected; [done|]. cbn. destruct Hw as (w & Hd & Hi). exists w. split_and!; [done|done|].
      apply HG. by left.
  - intros [= <-]. by apply causes_monitor.
  - intros [= <-]. apply causes_monitor; [|done]. destruct to; [|done]. apply causes_write; [done|].
    destruct Hw as (w & Hd & Hi & Hg). exists i, w. split_and!; [done| |done]. by destruct info.
  - intros [= <-]. apply causes_monitor; [by apply causes_fire|done].
  - intros [= <-]. destruct (is_stopped (shared s)); (apply causes_monitor; [|done]); [by eapply causes_cur|done].
  - intros [= <-]. by apply causes_monitor.
  - intros [= <-]. apply causes_monitor; [|done].
    apply (causes_cur _ (end_sweep n present s)); [by apply causes_end_sweep|done..].
  - destruct (kill_pid p ok s) as [s1 hit] eqn:Hkill. intros [= <-]. apply causes_monitor; [by eapply causes_kill|done].
Qed.

Lemma step_causes G s l s' : asked_gone G s -> causes G s -> step config auth s l = Some s' ->
  causes (G ++ logged config s l) s'.
Proof.
  intros Hag H. set (G' := (G ++ logged config s l)%list).
  assert (Hsub : G ⊆ G') by (intros f Hf; apply elem_of_app; by left).
  assert (Hlog : logged config s l ⊆ G') by (intros f Hf; apply elem_of_app; by right).
  assert (H' : causes G' s) by exact (causes_mono G G' s Hsub H).
  unfold step. destruct (exited s); [done|]. destruct l as [p|c i|i j| |ms|i st|p cmd|i|h].
  - intros [= <-]. by apply (carried_accept p s H').
  - destruct (conns s !! c) as [k|] eqn:Hk; [|done]. case_match; [done|]. apply conn_step_causes; [done|done| |done].
    intros why Hp Hstop. destruct (ca_conn s H c k Hk) as [Hpc _]. rewrite Hp in Hpc. destruct Hpc as [j Hj].
    apply (pc_caused_mono G); [done|]. exists j. destruct (ag_pending _ _ Hag j Hj) as [[b Hb]|[_ Hr]]; [eauto|congruence].
  - destruct (monitors s !! i) as [m|] eqn:Hm; [|done]. case_match; [done|]. by apply monitor_step_causes.
  - unfold timer_step. repeat case_match; intros; simplify_eq; by eapply causes_cur.
  - case_match; intros; simplify_eq; by eapply causes_cur.
  - repeat case_match; intros; simplify_eq; by eapply causes_cur.
  - case_match; intros; simplify_eq; by eapply causes_cur.
  - repeat case_match; intros; simplify_eq; by eapply causes_cur.
  - intros [= <-]. by eapply causes_cur.
Qed.

(** ** Asked and gone *)

(** The part of the state these facts are about. *)
Definition same_core (s s' : Sys) : Prop :=
  requested s' = requested s /\ cur s' = cur s /\ core (shared s') = core (shared s).

Lemma same_core_trans s1 s2 s3 : same_core s1 s2 -> same_core s2 s3 -> same_core s1 s3.
Proof. intros (A1 & A2 & A3) (B1 & B2 & B3). split_and!; congruence. Qed.

Lemma same_core_fire ev why gen present s : same_core s (fire ev why gen present s).
Proof. unfold fire. by destruct present. Qed.

Lemma same_core_end_sweep n present s : same_core s (end_sweep n present s).
Proof. unfold end_sweep. case_match; [apply same_core_fire|done]. Qed.

Lemma same_core_kill p ok s s1 hit : kill_pid p ok s = (s1, hit) -> same_core s s1.
Proof. intros Hk. destruct (kill_pid_procs p ok s) as (ps & E & _). rewrite Hk in E. cbn in E. by subst s1. Qed.

Lemma same_core_send i p sg s : same_core s (send_signal i p sg s).
Proof. unfold send_signal. by destruct sg, (holder p (procs s) 0). Qed.

Lemma same_core_write_all c evs : forall s, same_core s (write_all c evs s).
Proof. induction evs as [|ev evs IH]; intros s; [done|]. apply (IH (write c ev s)). Qed.

Lemma same_core_lease c k t s : same_core s (do_lease c k t s).
Proof.
  unfold do_lease. pose proof (lease_core (shared s) (my_id k) c t) as Hc.
  destruct (acquire_lease _ _ _ _) as [st [d|]]; [|done]. by destruct (option_map conn d).
Qed.

(** Facts about neither. *)
Definition aside (f : Fact) : Prop := match f with FAsked _ | FGone _ _ => False | _ => True end.

Lemma aside_keeps G F s s' : proc_ok s -> asked_gone G s -> Forall aside F -> same_core s s' ->
  (forall i m, monitors s !! i = Some m -> inflight (mpc m) = false ->
     exists m', monitors s' !! i = Some m' /\ inflight (mpc m') = false) -> asked_gone (G ++ F) s'.
Proof.
  intros Hp [H1 H2 H3 H4] HF (E1 & E2 & E3) Hm.
  assert (Ha : forall i, FAsked i ∈ (G ++ F)%list <-> FAsked i ∈ G).
  { intros i. rewrite elem_of_app. split; [|auto]. intros [|Hi]; [done|]. by rewrite Forall_forall in HF; apply HF in Hi. }
  assert (Hg : forall i b, FGone i b ∈ (G ++ F)%list <-> FGone i b ∈ G).
  { intros i b. rewrite elem_of_app. split; [|auto]. intros [|Hi]; [done|]. by rewrite Forall_forall in HF; apply HF in Hi. }
  constructor; intros i.
  - by rewrite Ha, E1.
  - rewrite Ha. intros Hi. destruct (H2 i Hi) as [[b Hb]|[-> Hs]].
    + left. exists b. by rewrite Hg.
    + right. unfold is_stopped in *. by rewrite E2, E3.
  - intros b. rewrite Hg. intros (m & Hmi & Hf)%H3. eauto.
  - rewrite Hg, E1. apply H4.
Qed.

(** A core that is not watched any more stays so. *)
Lemma step_past i s l s' m : proc_ok s -> step config auth s l = Some s' -> monitors s !! i = Some m ->
  inflight (mpc m) = false -> exists m', monitors s' !! i = Some m' /\ inflight (mpc m') = false.
Proof.
  intros Hp Hst Hm Hf. destruct (turn_of i l) eqn:Hl.
  - destruct (step_turn config auth i s l s' m Hp Hm Hl Hst) as (m' & Hm' & Hmv). exists m'. split; [done|].
    unfold own_move in Hmv. by destruct (mpc m); destruct Hmv.
  - destruct (step_other config auth i s l s' m Hp Hm Hl Hst) as (m' & Hm' & [->| ->]); [eauto|].
    exists (spawn_monitor m). split; [done|]. unfold spawn_monitor. by destruct (mpc m) eqn:E; cbn; rewrite ?E.
Qed.

(** A stop is requested. *)
Lemma ask_keeps G s s' r : proc_ok s -> asked_gone G s -> core (shared s) = Running r ->
  requested s' = cur s :: requested s -> cur s' = cur s -> is_stopped (shared s') = false ->
  monitors s' = monitors s -> asked_gone (G ++ [FAsked (cur s)]) s'.
Proof.
  intros Hp [H1 H2 H3 H4] Hr E1 E2 E3 E4.
  assert (Ha : forall i, FAsked i ∈ (G ++ [FAsked (cur s)])%list <-> i = cur s \/ FAsked i ∈ G).
  { intros i. rewrite elem_of_app, list_elem_of_singleton. naive_solver. }
  assert (Hg : forall i b, FGone i b ∈ (G ++ [FAsked (cur s)])%list <-> FGone i b ∈ G).
  { intros i b. rewrite elem_of_app, list_elem_of_singleton. naive_solver. }
  destruct (pi_core _ _ _ _ _ Hp r Hr) as (m & Hm & Hf & _).
  constructor; intros i.
  - rewrite Ha, E1, elem_of_cons. by rewrite H1.
  - rewrite Ha. intros [->|Hi]; [by right|]. destruct (H2 i Hi) as [[b Hb]|[-> _]]; [left; exists b; by rewrite Hg|by right].
  - intros b. rewrite Hg, E4. apply H3.
  - rewrite Hg, E1, not_elem_of_cons. intros Hi. split; [|by apply H4].
    intros ->. destruct (H3 _ _ Hi) as (m' & Hm' & Hf'). congruence.
Qed.

(** A core is started. *)
Lemma born_keeps G F s s' p : proc_ok s -> asked_gone G s -> Forall aside F -> core (shared s) = Stopped ->
  requested s' = requested s -> monitors s' = <[length (procs s) := new_monitor p]> (monitors s) ->
  asked_gone (G ++ F) s'.
Proof.
  intros Hp [H1 H2 H3 H4] HF Hc E1 E4.
  assert (Hin : forall f, ~ aside f -> f ∈ (G ++ F)%list <-> f ∈ G).
  { intros f Hf. rewrite elem_of_app. split; [|auto]. intros [|Hi]; [done|].
    rewrite Forall_forall in HF. by apply HF in Hi. }
  constructor; intros i.
  - rewrite Hin, E1 by auto. apply H1.
  - rewrite Hin by auto. intros Hi. destruct (H2 i Hi) as [[b Hb]|[_ Hs]]; [left; exists b; by rewrite Hin by auto|].
    unfold is_stopped in Hs. by rewrite Hc in Hs.
  - intros b. rewrite Hin by auto. intros (m & Hm & Hf)%H3. exists m. split; [|done].
    pose proof (monitor_bound s i m Hp Hm). rewrite E4, lookup_insert_ne by lia. done.
  - rewrite Hin, E1 by auto. apply H4.
Qed.

(** A core is cleared. *)
Lemma clear_keeps G s m st expected : proc_ok s -> hook_ok s -> asked_gone G s -> monitors s !! cur s = Some m ->
  forall info r, mpc m = MExit info -> core (shared s) = Running r -> pid r = mpid m ->
  handle_core_exit_locked (shared s) (mpid m) = (st, expected) ->
  asked_gone (G ++ [FGone (cur s) expected])
    (on_monitor (cur s) (set_mpc (if expected then MDone else MPush info)) (with_shared st s)).
Proof.
  intros Hp Hh [H1 H2 H3 H4] Hm info r Hpc Hr Hpid He.
  unfold handle_core_exit_locked in He. rewrite Hr, Hpid, Z.eqb_refl in He. injection He as <- <-.
  set (F := [FGone (cur s) (stop_requested r)]).
  assert (Ha : forall i, FAsked i ∈ (G ++ F)%list <-> FAsked i ∈ G).
  { intros i. rewrite elem_of_app. unfold F. rewrite list_elem_of_singleton. naive_solver. }
  constructor; cbn; intros i.
  - rewrite Ha. apply H1.
  - rewrite Ha. intros Hi. left. destruct (H2 i Hi) as [[b Hb]|[-> _]].
    + exists b. apply elem_of_app. by left.
    + exists (stop_requested r). apply elem_of_app. right. by left.
  - intros b [Hi|Hi]%elem_of_app.
    + destruct (H3 i b Hi) as (n & Hn & Hf). exists n. rewrite lookup_alter_ne; [done|].
      intros <-. rewrite Hm in Hn. injection Hn as <-. by rewrite Hpc in Hf.
    + apply list_elem_of_singleton in Hi. injection Hi as -> ->. rewrite lookup_alter_eq, Hm. eexists. split; [done|].
      by destruct (stop_requested r).
  - intros [Hi|Hi]%elem_of_app; [by apply H4|]. apply list_elem_of_singleton in Hi. injection Hi as -> Hs.
    rewrite <- (hi_flag _ _ _ _ _ _ Hh r Hr), <- Hs. done.
Qed.

Lemma conn_step_asked G c k i s s' : proc_ok s -> asked_gone G s -> conns s !! c = Some k ->
  step config auth s (LConn c i) = Some s' -> conn_step config auth c k i s = Some s' ->
  asked_gone (G ++ logged config s (LConn c i)) s'.
Proof.
  intros Hp H Hk Hst.
  assert (Hq : same_core s s' -> Forall aside (logged config s (LConn c i)) -> asked_gone (G ++ logged config s (LConn c i)) s').
  { intros Hs HF. apply (aside_keeps G _ s); [done..|]. intros j m Hm Hf. by eapply step_past. }
  unfold conn_step, logged in *. rewrite Hk in *.
  destruct (pc k) as [| |t|t|[o|]| |co po| |ev| | |ch p po|p po|why|why|why| | |hook|hook [|q qs] n|h| |] eqn:E, i;
    try done; try (intros [= Hs']; apply Hq; [by rewrite <- Hs'|by constructor]).
  - intros [= Hs']. apply Hq; [|by constructor]. rewrite <- Hs'. by destruct (peer k) as [u|]; [destruct (allows auth u && ok)|].
  - destruct (read_hello r) as [t evs]. intros [= Hs']. apply Hq; [|by constructor]. rewrite <- Hs'.
    exact (same_core_write_all c evs s).
  - intros [= Hs']. apply Hq; [rewrite <- Hs'; apply same_core_lease|]. destruct (acquire_lease _ _ _ _).2 as [[o|]|]; by repeat constructor.
  - intros [= Hs']. apply Hq; [|by constructor]. rewrite <- Hs'. by destruct free.
  - destruct (core_snapshot _) as [[co p] po]. intros [= Hs']. apply Hq; [by rewrite <- Hs'|by constructor].
  - intros [= Hs']. apply Hq; [|by constructor]. rewrite <- Hs'. by destruct (command_turn r).
  - destruct (core_snapshot _) as [[co p] po]. intros [= Hs']. apply Hq; [by rewrite <- Hs'|by constructor].
  - destruct (spawn_possible env s); [|done]. intros [= Hs']. unfold do_start in Hs'.
    destruct (start_locked config env (shared s)) as [st [[p port|p port cmd]|e]] eqn:Hl; cbn [snd] in *.
    + apply Hq; [by rewrite <- Hs'|by constructor].
    + rewrite <- Hs'. unfold start_locked in Hl. destruct (core (shared s)) as [|r] eqn:Hc; [|done].
      eapply born_keeps; try done. by repeat constructor.
    + apply Hq; [by rewrite <- Hs'|by repeat constructor].
  - intros [= Hs']. apply Hq; [|by constructor]. rewrite <- Hs'. exact (same_core_fire Up None None present s).
  - intros [= Hs']. unfold do_stop in Hs'. unfold stop_locked in *. destruct (core (shared s)) as [|r] eqn:Hc; cbn [snd].
    + apply Hq; [by rewrite <- Hs'|by constructor].
    + rewrite <- Hs'. by eapply (ask_keeps G s _ r).
  - intros [= Hs']. apply Hq; [|by constructor]. rewrite <- Hs'. by destruct (is_stopped (shared s)).
  - intros [= Hs']. apply Hq; [|by constructor]. rewrite <- Hs'. exact (same_core_fire Down (Some why) None present s).
  - intros [= Hs']. apply Hq; [|by constructor]. rewrite <- Hs'. split_and!; try done. apply release_core.
  - intros [= Hs']. apply Hq; [|by constructor]. rewrite <- Hs'. exact (same_core_end_sweep n present s).
  - destruct (kill_pid q ok s) as [s1 hit] eqn:Hkill. intros [= Hs']. apply Hq; [|by constructor]. rewrite <- Hs'.
    exact (same_core_kill _ _ _ _ _ Hkill).
  - destruct (hooks s !! h) as [hk|]; [|done]. destruct (finished hk); [|done]. intros [= Hs']. apply Hq; [by rewrite <- Hs'|by constructor].
Qed.

Lemma monitor_step_asked G i m j s s' : proc_ok s -> hook_ok s -> asked_gone G s -> monitors s !! i = Some m ->
  step config auth s (LMonitor i j) = Some s' -> monitor_step config i m j s = Some s' ->
  asked_gone (G ++ logged config s (LMonitor i j)) s'.
Proof.
  intros Hp Hh H Hm Hst.
  assert (Hq : same_core s s' -> Forall aside (logged config s (LMonitor i j)) -> asked_gone (G ++ logged config s (LMonitor i j)) s').
  { intros Hs HF. apply (aside_keeps G _ s); [done..|]. intros j' m' Hm' Hf. by eapply step_past. }
  unfold monitor_step, logged in *. rewrite Hm in *. cbn [fmap option_fmap option_map] in *.
  destruct (mpc m) as [| | |stop| |info|info|to info| | | |[|p ps] n|] eqn:Hpc, j as [|[]| | |]; try done;
    try (intros [= Hs']; apply Hq; [by rewrite <- Hs'|by repeat constructor]).
  - destruct (status <$> procs s !! i) as [[]|]; intros [= Hs']; (apply Hq; [by rewrite <- Hs'|by repeat constructor]).
  - destruct (escalate _ _ _) as [sg v]. intros [= Hs']. apply Hq; [|by constructor]. rewrite <- Hs'.
    destruct sg as [sg|]; [|done]. exact (same_core_send i (mpid m) sg s).
  - destruct (pi_flight _ _ _ _ _ Hp i m Hm) as (-> & r & Hr & Hpid); [by rewrite Hpc|].
    destruct (handle_core_exit_locked _ _) as [st expected] eqn:He. intros [= <-]. by eapply clear_keeps.
  - intros [= Hs']. apply Hq; [|by constructor]. rewrite <- Hs'. by destruct to.
  - intros [= Hs']. apply Hq; [|by constructor]. rewrite <- Hs'. exact (same_core_fire Down (Some Hooks.CoreExited) (Some i) present s).
  - intros [= Hs']. apply Hq; [|by constructor]. rewrite <- Hs'. by destruct (is_stopped (shared s)).
  - intros [= Hs']. apply Hq; [|by constructor]. rewrite <- Hs'. exact (same_core_end_sweep n present s).
  - destruct (kill_pid p ok s) as [s1 hit] eqn:Hkill. intros [= Hs']. apply Hq; [|by constructor]. rewrite <- Hs'.
    exact (same_core_kill _ _ _ _ _ Hkill).
Qed.

Lemma step_asked G s l s' : proc_ok s -> hook_ok s -> asked_gone G s -> step config auth s l = Some s' ->
  asked_gone (G ++ logged config s l) s'.
Proof.
  intros Hp Hh H Hst.
  assert (Hq : same_core s s' -> logged config s l = [] -> asked_gone (G ++ logged config s l) s').
  { intros Hs ->. apply (aside_keeps G _ s); [done|done|done|done|]. intros j m Hm Hf. by eapply step_past. }
  pose proof Hst as Hst'. unfold step in Hst. destruct (exited s); [done|].
  destruct l as [p|c i|i j| |ms|i st|p cmd|i|h].
  - injection Hst as <-. by apply Hq.
  - destruct (conns s !! c) as [k|] eqn:Hk; [|done]. case_match; [done|]. by eapply conn_step_asked.
  - destruct (monitors s !! i) as [m|] eqn:Hm; [|done]. case_match; [done|]. by eapply monitor_step_asked.
  - unfold timer_step in Hst. repeat case_match; simplify_eq; by apply Hq.
  - case_match; simplify_eq; by apply Hq.
  - repeat case_match; simplify_eq; by apply Hq.
  - case_match; simplify_eq; by apply Hq.
  - repeat case_match; simplify_eq; by apply Hq.
  - injection Hst as <-. by apply Hq.
Qed.

(** ** The cores there are *)

(** The command line of a core told to serve RPC on this port. *)
Definition core_line (port : Z) : string :=
  String.concat " " [core_path config; "--daemon"; "--rpc-portal"; "127.0.0.1:" ++ dec port].

(** A process spawned is a child of this supervisor, with that command line. *)
Definition cores_real (G : list Fact) (s : Sys) : Prop := forall i p port, FSpawned i p port ∈ G ->
  exists pr, procs s !! i = Some pr /\ ours pr = true /\ ppid pr = p /\ cmdline pr = core_line port.

Lemma logged_spawn s l s' i p port : step config auth s l = Some s' -> FSpawned i p port ∈ logged config s l ->
  exists pr, procs s' !! i = Some pr /\ ours pr = true /\ ppid pr = p /\ cmdline pr = core_line port.
Proof.
  intros Hst Hin. unfold logged in Hin. destruct l as [|c x|j x| | | | | |]; try by apply elem_of_nil in Hin.
  - unfold step in Hst. destruct (exited s); [done|]. destruct (conns s !! c) as [k|]; [|by apply elem_of_nil in Hin].
    destruct (blocked _ _); [done|]. unfold conn_step in Hst.
    destruct (pc k), x; try by apply elem_of_nil in Hin.
    + destruct (acquire_lease _ _ _ _).2 as [[o|]|]; [apply list_elem_of_singleton in Hin|by apply elem_of_nil in Hin|
        apply list_elem_of_singleton in Hin]; done.
    + destruct (spawn_possible env s); [|done]. injection Hst as <-. unfold do_start.
      destruct (start_locked config env (shared s)) as [st [[q po|q po cmd]|e]] eqn:Hl; cbn [snd] in Hin;
        [by apply elem_of_nil in Hin| |by apply list_elem_of_singleton in Hin].
      apply list_elem_of_singleton in Hin. injection Hin as -> -> ->. exists (new_proc q cmd).
      split; [cbn; by apply list_lookup_middle|]. split_and!; [done|done|].
      unfold start_locked, build_command in Hl. destruct (core (shared s)); [|done].
      repeat (case_match; simplify_eq/=). done.
    + destruct (stop_locked _).2; [by apply list_elem_of_singleton in Hin|by apply elem_of_nil in Hin].
  - repeat case_match; try (by apply elem_of_nil in Hin); by apply list_elem_of_singleton in Hin.
Qed.

Lemma step_real G s l s' : step config auth s l = Some s' -> cores_real G s -> cores_real (G ++ logged config s l) s'.
Proof.
  intros Hst H i p port [Hi|Hi]%elem_of_app; [|by eapply logged_spawn].
  destruct (H i p port Hi) as (pr & Hp & Ho & Hq & Hc). destruct (step_ages config auth s l s' Hst i pr Hp) as (pr' & Hp' & E1 & [E2 E3] & _).
  exists pr'. by rewrite E1, E2, E3.
Qed.

(** ** Every run *)

Lemma run_causes ls : forall G s s', reachable config auth s -> causes G s -> asked_gone G s -> cores_real G s ->
  run config auth s ls = Some s' ->
  causes (G ++ facts s ls) s' /\ asked_gone (G ++ facts s ls) s' /\ cores_real (G ++ facts s ls) s'.
Proof.
  induction ls as [|l ls IH]; intros G s s' Hr H1 H2 H3; cbn [run facts].
  - intros [= <-]. by rewrite app_nil_r.
  - destruct (step config auth s l) as [s1|] eqn:Hst; [|done]. rewrite app_assoc. apply IH.
    + by econstructor.
    + by apply step_causes.
    + apply step_asked; [by eapply reachable_proc_ok|by eapply reachable_hook|done|done].
    + by apply step_real.
Qed.

End Causes.

(** ** Witness *)

Import Schedule.

(** The core of a session dies of a signal, and its owner is told. *)
Definition told_schedule : list Label :=
  (connects 0 false ++ greeted 0 ++ spawns 0 100 ++ started 0 ++ dies 0 11 ++ [LMonitor 0 JNone; LMonitor 0 JNone])%list.
Definition told_state : Sys := default initial (run told_schedule).
Definition told_conn : Conn := default (new_conn (Ok 0%Z)) (conns told_state !! 0).

