(* ===== verification/Exits.v ===== *)
(** * A supervisor whose owner has gone exits

    The last part of the life of a supervisor: the owner's connection has ended, the
    lease is released, the core is stopped, a last sweep is made, the hook joined,
    the process exits.  [ExitInv] says what holds when it does; here it is shown
    that it does, in every fair run. *)

From Stdlib Require Import ZArith Lia String Classical.
From stdpp Require Import base list strings gmap.
From S2P Require Import Prelude RustStr Json JsonText Proto ClientProto Config Auth Hooks CoreProc Janitor Server Supervisor Schedules ProcInv LockInv LeaseInv AuthInv HookInv ExitInv ReplyInv Progress.
Import Proto.

Section Threads.
Context {SJ : SerdeJson} (config : Config) (auth : AuthMode).

(** ** A step of one connection leaves the others where they are *)

Definition stand (c : nat) (s s1 : Sys) : Prop :=
  forall j, j <> c -> pc <$> conns s1 !! j = pc <$> conns s !! j.

Lemma stand_trans c s1 s2 s3 : stand c s1 s2 -> stand c s2 s3 -> stand c s1 s3.
Proof. intros H1 H2 j Hj. by rewrite H2, H1. Qed.

Lemma stand_calm c s s1 : calm s s1 -> stand c s s1.
Proof. intros H j _. by apply calm_pc. Qed.

Lemma stand_goto c p s s1 : stand c s s1 -> stand c s (goto c p s1).
Proof. intros H j Hj. cbn. rewrite other_pc by done. by apply H. Qed.

Lemma stand_same c s s1 : conns s1 = conns s -> stand c s s1.
Proof. by intros E j _; rewrite E. Qed.

Lemma stand_lease c k t s : stand c s (do_lease c k t s).
Proof.
  unfold do_lease. destruct (acquire_lease _ _ _ _) as [st [d|]]; [|by apply stand_goto, stand_calm, calm_write].
  apply stand_goto. destruct (option_map conn d) as [o|]; [|by apply stand_same].
  intros j _. cbn. rewrite list_lookup_alter. case_decide; [subst o|done]. by destruct (conns s !! j).
Qed.

Lemma conn_step_stand c k i s s' : conn_step config auth c k i s = Some s' -> stand c s s'.
Proof.
  unfold conn_step.
  destruct (pc k) as [| |t|t|[o|]| |co po| |ev| | |ch p po|p po|why|why|why| | |hook|hook [|q qs] n|h| |] eqn:E, i;
    try done.
  - intros [= <-]. by destruct (peer k); apply stand_goto.
  - destruct (read_hello r) as [t evs]. intros [= <-]. apply stand_goto, stand_calm, calm_write_all.
  - intros [= <-]. apply stand_goto, stand_calm, calm_id.
  - intros [= <-]. apply stand_lease.
  - intros [= <-]. apply stand_goto. eapply stand_trans; [|apply stand_calm, calm_shut].
    apply stand_calm. destruct free; [apply calm_write|by intros j].
  - intros [= <-]. by apply stand_goto.
  - destruct (core_snapshot _) as [[co p] po]. intros [= <-]. by apply stand_goto.
  - intros [= <-]. apply stand_goto, stand_calm, calm_write.
  - intros [= <-]. by destruct (command_turn r); apply stand_goto, stand_calm, calm_hear.
  - intros [= <-]. apply stand_goto, stand_calm, calm_write.
  - destruct (core_snapshot _) as [[co p] po]. intros [= <-]. by apply stand_goto.
  - case_match; [|done]. intros [= <-]. unfold do_start. repeat case_match; by apply stand_goto.
  - intros [= <-]. by apply stand_goto.
  - intros [= <-]. apply stand_goto, stand_calm, calm_fire.
  - intros [= <-]. unfold do_stop. destruct (stop_locked _) as [st []]; by apply stand_goto.
  - intros [= <-]. case_match; [by apply stand_goto|done].
  - intros [= <-]. apply stand_goto, stand_calm, calm_fire.
  - intros [= <-]. by apply stand_goto.
  - intros [= <-]. by apply stand_goto.
  - intros [= <-]. by apply stand_goto.
  - intros [= <-]. apply stand_goto, stand_calm, calm_end_sweep.
  - destruct (kill_pid q ok s) as [s1 hit] eqn:Hkill. intros [= <-]. apply stand_goto, stand_calm. by eapply calm_kill.
  - repeat case_match; try done. intros [= <-]. by apply stand_goto.
  - intros [= <-]. by apply stand_same.
Qed.

(** A step of somebody else. *)
Definition of_conn (c : nat) (l : Label) : bool := match l with LConn j _ => (j =? c)%nat | _ => false end.

Lemma step_stand c s l s' k : step config auth s l = Some s' -> of_conn c l = false -> conns s !! c = Some k ->
  pc <$> conns s' !! c = Some (pc k).
Proof.
  intros Hst Hl Hk. assert (Hpc : pc <$> conns s !! c = Some (pc k)) by by rewrite Hk.
  unfold step in Hst. destruct (exited s); [done|]. destruct l as [p|j i|i j| |ms|i st|p cmd|i|h].
  - injection Hst as <-. cbn. by rewrite (lookup_app_l_Some _ _ _ _ Hk).
  - cbn in Hl. apply Nat.eqb_neq in Hl. repeat case_match; try done.
    apply conn_step_stand in Hst. by rewrite (Hst c).
  - repeat case_match; try done. by rewrite (calm_pc _ _ _ (monitor_step_calm _ _ _ _ _ _ Hst)).
  - unfold timer_step in Hst. by repeat case_match; simplify_eq.
  - by case_match; simplify_eq.
  - by repeat case_match; simplify_eq.
  - by case_match; simplify_eq.
  - by repeat case_match; simplify_eq.
  - by simplify_eq.
Qed.

(** ** A child whose monitor has not started is in the hands of a connection *)

Definition nursed (s : Sys) : Prop := forall i m, monitors s !! i = Some m -> mpc m = MUnborn ->
  exists c k p port, conns s !! c = Some k /\ pc k = PMonitor i p port.

(** A new monitor is that of a start, and the connection goes on with it. *)
Lemma conn_step_new c k x s s' i : conns s !! c = Some k -> conn_step config auth c k x s = Some s' ->
  monitors s !! i = None ->
  monitors s' !! i = None \/ exists p port, pc <$> conns s' !! c = Some (PMonitor i p port).
Proof.
  intros Hk Hst Hi. assert (Hsame : monitors s' = monitors s -> monitors s' !! i = None) by (by intros ->).
  unfold conn_step in Hst.
  destruct (pc k) as [| |t|t|[o|]| |co po| |ev| | |ch p po|p po|why|why|why| | |hook|hook [|q qs] n|h| |] eqn:E, x;
    try done; try (left; apply Hsame; injection Hst as <-; done).
  - left. apply Hsame. injection Hst as <-. by destruct (peer k).
  - left. apply Hsame. destruct (read_hello r) as [t evs]. injection Hst as <-. apply write_all_monitors.
  - left. apply Hsame. injection Hst as <-. apply lease_monitors.
  - left. apply Hsame. injection Hst as <-. by destruct free.
  - left. apply Hsame. destruct (core_snapshot _) as [[co p] po]. by injection Hst as <-.
  - left. apply Hsame. injection Hst as <-. by rewrite turn_monitors.
  - left. apply Hsame. destruct (core_snapshot _) as [[co p] po]. by injection Hst as <-.
  - destruct (spawn_possible env s); [|done]. injection Hst as <-. unfold do_start.
    destruct (start_locked config env (shared s)) as [st [[p port|p port cmd]|e]]; [by left| |by left].
    cbn. destruct (decide (length (procs s) = i)) as [<-|Hne].
    + right. exists p, port. by rewrite list_lookup_alter_eq, Hk.
    + left. by rewrite lookup_insert_ne.
  - left. injection Hst as <-. cbn. destruct (decide (ch = i)) as [->|].
    + by rewrite lookup_alter_eq, Hi.
    + by rewrite lookup_alter_ne.
  - left. apply Hsame. injection Hst as <-. apply fire_monitors.
  - left. apply Hsame. injection Hst as <-. apply stop_monitors.
  - left. apply Hsame. injection Hst as <-. by destruct (is_stopped _).
  - left. apply Hsame. injection Hst as <-. apply fire_monitors.
  - left. apply Hsame. injection Hst as <-. apply end_sweep_monitors.
  - left. apply Hsame. destruct (kill_pid q ok s) as [s1 hit] eqn:Hkill. injection Hst as <-. cbn. by eapply kill_monitors.
  - left. apply Hsame. repeat case_match; by simplify_eq.
Qed.

Lemma alter_none {A} (f : A -> A) i j (ms : gmap nat A) : ms !! j = None -> alter f i ms !! j = None.
Proof. intros H. destruct (decide (i = j)) as [->|]; [by rewrite lookup_alter_eq, H|by rewrite lookup_alter_ne]. Qed.

Lemma monitor_step_new i m x s s' j : monitor_step config i m x s = Some s' ->
  monitors s !! j = None -> monitors s' !! j = None.
Proof.
  intros Hst Hj. unfold monitor_step in Hst.
  destruct (mpc m) as [| | |stop| |info|info|to info| | | |[|p ps] n|], x as [|[]| | |]; try done.
  - repeat case_match; simplify_eq; by apply alter_none.
  - injection Hst as <-. by apply alter_none.
  - injection Hst as <-. by apply alter_none.
  - destruct (escalate _ _ _) as [[sg|] v]; injection Hst as <-; apply alter_none; [by rewrite send_monitors|done].
  - injection Hst as <-. by apply alter_none.
  - destruct (handle_core_exit_locked _ _) as [st expected]. injection Hst as <-. by apply alter_none.
  - injection Hst as <-. by apply alter_none.
  - injection Hst as <-. by destruct to; apply alter_none.
  - injection Hst as <-. apply alter_none. by rewrite fire_monitors.
  - injection Hst as <-. by case_match; apply alter_none.
  - injection Hst as <-. by apply alter_none.
  - injection Hst as <-. apply alter_none. cbn. by rewrite end_sweep_monitors.
  - destruct (kill_pid p ok s) as [s1 hit] eqn:Hk. injection Hst as <-. apply alter_none.
    by rewrite (kill_monitors _ _ _ _ _ Hk).
Qed.

Lemma spawn_born m : mpc (spawn_monitor m) <> MUnborn.
Proof. unfold spawn_monitor. by destruct (mpc m) eqn:E; rewrite ?E. Qed.

Lemma pc_some c p (cs : list Conn) : pc <$> cs !! c = Some p -> exists k, cs !! c = Some k /\ pc k = p.
Proof. destruct (cs !! c) as [k|]; [|done]. intros [= <-]. by exists k. Qed.

Lemma step_nursed s l s' : proc_ok s -> nursed s -> step config auth s l = Some s' -> nursed s'.
Proof.
  intros Hp Hn Hst i m' Hm' Hub. destruct (monitors s !! i) as [m|] eqn:Hm.
  - destruct (turn_of i l) eqn:Hl.
    { destruct (step_turn config auth i s l s' m Hp Hm Hl Hst) as (m1 & Hm1 & Hmv). simplify_eq.
      by apply own_born in Hmv. }
    destruct (step_other config auth i s l s' m Hp Hm Hl Hst) as (m1 & Hm1 & Hmv).
    rewrite Hm' in Hm1. injection Hm1 as <-. destruct Hmv as [->| ->]; [|by apply spawn_born in Hub].
    destruct (Hn i m Hm Hub) as (c & k & p & port & Hk & Hpc). destruct (of_conn c l) eqn:Hc.
    + exfalso. destruct l as [|j x| | | | | | |]; try done. cbn in Hc. apply Nat.eqb_eq in Hc as ->.
      unfold step in Hst. destruct (exited s); [done|]. rewrite Hk in Hst. destruct (blocked _ s); [done|].
      unfold conn_step in Hst. rewrite Hpc in Hst. destruct x; try done. injection Hst as <-. cbn in Hm'.
      rewrite lookup_alter_eq, Hm in Hm'. injection Hm' as Hs. apply (spawn_born m). by rewrite Hs.
    + pose proof (step_stand c s l s' k Hst Hc Hk) as H. apply pc_some in H as (k' & Hk' & Hpc').
      exists c, k', p, port. by rewrite Hpc'.
  - assert (Hno : monitors s' !! i = None -> exists c k p port, conns s' !! c = Some k /\ pc k = PMonitor i p port)
      by congruence.
    unfold step in Hst. destruct (exited s); [done|]. destruct l as [p|c x|j x| |ms|j st|p cmd|j|h].
    + apply Hno. by injection Hst as <-.
    + destruct (conns s !! c) as [k|] eqn:Hk; [|done]. destruct (blocked _ s); [done|].
      destruct (conn_step_new c k x s s' i Hk Hst Hm) as [|(p & port & H)]; [by apply Hno|].
      apply pc_some in H as (k' & Hk' & Hpc'). by exists c, k', p, port.
    + apply Hno. repeat case_match; try done. by eapply monitor_step_new.
    + apply Hno. unfold timer_step in Hst. by repeat case_match; simplify_eq.
    + apply Hno. by case_match; simplify_eq.
    + apply Hno. by repeat case_match; simplify_eq.
    + apply Hno. by case_match; simplify_eq.
    + apply Hno. by repeat case_match; simplify_eq.
    + apply Hno. by simplify_eq.
Qed.

Lemma reachable_nursed s : reachable config auth s -> nursed s.
Proof.
  induction 1 as [|s l s' Hr IH Hst]; [done|]. eapply step_nursed; [by eapply reachable_proc_ok|done|exact Hst].
Qed.

(** ** Nobody disturbs the last connection *)

(** Only a monitor changes the core, and it only clears it. *)
Lemma step_undisturbed c s l s' : only c s -> of_conn c l = false -> step config auth s l = Some s' ->
  (core (shared s') = core (shared s) \/ core (shared s') = Stopped) /\ cur s' = cur s.
Proof.
  intros Ho Hl Hst. unfold step in Hst. destruct (exited s); [done|]. destruct l as [p|j i|i j| |ms|i st|p cmd|i|h].
  - injection Hst as <-. auto.
  - cbn in Hl. apply Nat.eqb_neq in Hl. destruct (conns s !! j) as [k|] eqn:Hk; [|done].
    destruct (blocked _ s); [done|]. pose proof (Ho j k Hl Hk) as Hout.
    destruct (conn_step_other config auth c j k i s s') as (Hc & _); [congruence|done..|].
    split; [by left|]. unfold out in Hout. apply andb_prop in Hout as [_ He%negb_true_iff].
    unfold conn_step in Hst. destruct (pc k) as [| |t|t|[o|]| |co po| |ev| | |ch p po|p po|[]|[]|[]| | |hook|hook [|q qs] n|h| |] eqn:E, i;
      try done.
    + injection Hst as <-. by destruct (peer k).
    + destruct (read_hello r) as [t evs]. injection Hst as <-. cbn.
      assert (H : forall evs s, cur (write_all j evs s) = cur s) by
        (clear; intros evs; induction evs as [|ev evs IH]; intros s; [done|apply (IH (write j ev s))]). apply H.
    + by injection Hst as <-.
    + injection Hst as <-. unfold do_lease. destruct (acquire_lease _ _ _ _) as [st [d|]]; [by destruct (option_map conn d)|done].
  - destruct (monitors s !! i) as [m|]; [|done]. destruct (blocked _ s); [done|]. unfold monitor_step in Hst.
    destruct (mpc m) as [| | |stop| |info|info|to info| | | |[|p ps] n|], j as [|[]| | |]; try done;
      try (injection Hst as <-; by auto).
    + repeat case_match; simplify_eq; auto.
    + destruct (escalate _ _ _) as [[sg|] v]; injection Hst as <-; [|auto].
      unfold send_signal. destruct sg, (holder (mpid m) (procs s) 0); auto.
    + unfold handle_core_exit_locked in Hst. injection Hst as <-. cbn. split; [|done].
      destruct (core (shared s)) eqn:Hc; [by left|]. destruct (_ =? _)%Z; [by right|by left].
    + injection Hst as <-. destruct to; auto.
    + injection Hst as <-. unfold fire. destruct present; auto.
    + injection Hst as <-. case_match; auto.
    + injection Hst as <-. unfold end_sweep, fire. repeat case_match; auto.
    + destruct (kill_pid p ok s) as [s1 hit] eqn:Hk. injection Hst as <-.
      destruct (kill_pid_procs p ok s) as (qs & E & _). rewrite Hk in E. cbn in E. subst s1. by auto.
  - unfold timer_step in Hst. repeat case_match; simplify_eq; auto.
  - case_match; simplify_eq; auto.
  - repeat case_match; simplify_eq; auto.
  - case_match; simplify_eq; auto.
  - repeat case_match; simplify_eq; auto.
  - simplify_eq; auto.
Qed.
End Threads.

(** ** Endless runs in which one connection is served *)

Section Endless.
Context {SJ : SerdeJson} (config : Config) (auth : AuthMode).
Context (σ : nat -> Sys) (lab : nat -> Label) (c : nat).
(** The thread of [c] is at [p]. *)
Definition at_ (p : Pc) (n : nat) : Prop := exists k, conns (σ n) !! c = Some k /\ pc k = p.

Hypothesis from_reachable : reachable config auth (σ 0).
Hypothesis steps : forall n, step config auth (σ n) (lab n) = Some (σ (S n)).
(** Nobody else is granted the lease. *)
Hypothesis alone : forall n, only c (σ n).
(** The connection, unless it waits for a command, and the monitors are scheduled
    again and again, and time goes on. *)
Hypothesis fair : forall n, exists k, of_conn c (lab (n + k)) = true \/ at_ PLoop (n + k).
Hypothesis fair_monitors : forall i n m, monitors (σ n) !! i = Some m -> mpc m <> MUnborn ->
  exists k, turn_of i (lab (n + k)) = true \/ cleared i (σ (n + k)).
Hypothesis time : forall t, exists n, (t <= now (σ n))%Z.

Let reach n : reachable config auth (σ n) := endless_reachable config auth σ lab from_reachable steps n.

Lemma at_goto n p s1 : is_Some (conns s1 !! c) -> σ n = goto c p s1 -> at_ p n.
Proof.
  intros [k Hk] E. exists (set_pc p k). rewrite E. cbn. by rewrite list_lookup_alter_eq, Hk.
Qed.

(** The next turn of [c], and what the others keep until then. *)
Lemma next_turn (Q : Sys -> Prop) p : (forall n, Q (σ n) -> of_conn c (lab n) = false -> Q (σ (S n))) ->
  p <> PLoop -> forall n, at_ p n -> Q (σ n) -> exists m k x, conns (σ m) !! c = Some k /\ pc k = p /\ Q (σ m) /\
    conn_step config auth c k x (σ m) = Some (σ (S m)).
Proof using steps fair.
  intros HQ Hno n Hp Hn. destruct (fair n) as [j Hj]. revert n Hp Hn Hj.
  induction j as [|j IH]; intros n (k & Hk & Hpc) Hn Hj; destruct (of_conn c (lab n)) eqn:Hl.
  2: { rewrite Nat.add_0_r, Hl in Hj. destruct Hj as [|(k' & Hk' & Hpc')]; [done|]. congruence. }
  3: { apply (IH (S n)); [|by apply HQ|by replace (S n + j) with (n + S j) by lia].
       pose proof (step_stand config auth c _ _ _ k (steps n) Hl Hk) as H. apply pc_some in H as (k' & Hk' & Hpc').
       exists k'. by rewrite Hpc'. }
  all: pose proof (steps n) as Hs; unfold step in Hs; destruct (exited (σ n)); [done|];
    destruct (lab n) as [|c' x| | | | | | |]; try done; cbn in Hl; apply Nat.eqb_eq in Hl as ->;
    rewrite Hk in Hs; destruct (blocked _ _); [done|]; by exists n, k, x.
Qed.

Lemma next_step p n : at_ p n -> p <> PLoop -> exists m k x, conns (σ m) !! c = Some k /\ pc k = p /\
  conn_step config auth c k x (σ m) = Some (σ (S m)).
Proof using steps fair.
  intros Hp Hno. destruct (next_turn (fun _ => True) p) with (n := n) as (m & k & x & Hk & Hpc & _ & Hs); [done..|].
  by exists m, k, x.
Qed.

Lemma some_conn n k : conns (σ n) !! c = Some k -> is_Some (conns (σ n) !! c).
Proof. intros ->. eauto. Qed.
Create HintDb leaving.
#[local] Hint Resolve some_conn : leaving.

(** *** After the core is gone *)

Lemma leaves_exit n : at_ PExit n -> False.
Proof using steps fair.
  intros (m & k & x & Hk & Hpc & Hs)%next_step; [|done]. unfold conn_step in Hs. rewrite Hpc in Hs. destruct x; try done.
  injection Hs as Hs. pose proof (steps (S m)) as H. unfold step in H. by rewrite <- Hs in H.
Qed.

Lemma leaves_join h n : at_ (PJoin h) n -> exists m, at_ PExit m.
Proof using steps fair.
  intros (m & k & x & Hk & Hpc & Hs)%next_step; [|done]. unfold conn_step in Hs. rewrite Hpc in Hs. destruct x; try done.
  destruct (hooks _ !! h) as [hk|]; [|done]. destruct (finished hk); [|done]. injection Hs as Hs.
  exists (S m). eapply at_goto; [|by symmetry]. eauto with leaving.
Qed.

Lemma leaves_sweep h ps : forall killed n, at_ (PKill h ps killed) n -> exists m, at_ PExit m.
Proof using steps fair.
  induction ps as [|p ps IH]; intros killed n (m & k & x & Hk & Hpc & Hs)%next_step; try done; unfold conn_step in Hs;
    rewrite Hpc in Hs; destruct x; try done.
  - injection Hs as Hs. assert (Ha : at_ (match h with Some h => PJoin h | None => PExit end) (S m)).
    { eapply at_goto; [|by symmetry]. rewrite end_sweep_conns. eauto with leaving. }
    destruct h; [by eapply leaves_join|by exists (S m)].
  - destruct (kill_pid p ok (σ m)) as [s1 hit] eqn:Hkill. injection Hs as Hs. eapply IH.
    eapply at_goto; [|by symmetry]. destruct (kill_same _ _ _ _ _ Hkill) as (_ & _ & ->). eauto with leaving.
Qed.

Lemma leaves_ps h n : at_ (PSweep h) n -> exists m, at_ PExit m.
Proof using steps fair.
  intros (m & k & x & Hk & Hpc & Hs)%next_step; [|done]. unfold conn_step in Hs. rewrite Hpc in Hs. destruct x; try done.
  injection Hs as Hs. eapply leaves_sweep. eapply at_goto; [|by symmetry]. eauto with leaving.
Qed.

Lemma leaves_hook n : at_ (PDownHook OwnerDrop) n -> exists m, at_ PExit m.
Proof using steps fair.
  intros (m & k & x & Hk & Hpc & Hs)%next_step; [|done]. unfold conn_step in Hs. rewrite Hpc in Hs. destruct x; try done.
  injection Hs as Hs. eapply leaves_ps. eapply at_goto; [|by symmetry]. rewrite fire_conns. eauto with leaving.
Qed.

(** *** Waiting for the core *)

(** [c] waits, and the core it asked to stop is the last one started. *)
Definition waits_for (why : HookReason) (i n : nat) : Prop :=
  at_ (PStopWait why) n /\ cur (σ n) = i.

Lemma waits_on why i n x : waits_for why i n -> (exists m, at_ (PDownHook why) m) \/ waits_for why i (n + x).
Proof using steps alone.
  intros Hw. induction x as [|x [IH|IH]]; [right; by rewrite Nat.add_0_r|by left|].
  replace (n + S x) with (S (n + x)) by lia. destruct IH as [(k & Hk & Hpc) Hcur].
  destruct (of_conn c (lab (n + x))) eqn:Hl.
  - pose proof (steps (n + x)) as Hs. unfold step in Hs. destruct (exited _); [done|].
    destruct (lab (n + x)) as [|c' j| | | | | | |]; try done. cbn in Hl. apply Nat.eqb_eq in Hl as ->.
    rewrite Hk in Hs. destruct (blocked _ _); [done|]. unfold conn_step in Hs. rewrite Hpc in Hs. destruct j; try done.
    injection Hs as Hs. destruct (is_stopped _).
    + left. exists (S (n + x)). eapply at_goto; [|by symmetry]. eauto.
    + right. unfold waits_for, at_. rewrite <- Hs. split; [by exists k|done].
  - right. pose proof (step_stand config auth c _ _ _ k (steps _) Hl Hk) as H. apply pc_some in H as (k' & Hk' & Hpc').
    split; [exists k'; by rewrite Hpc'|].
    destruct (step_undisturbed config auth c _ _ _ (alone _) Hl (steps (n + x))) as [_ ->]. done.
Qed.

Lemma born_later i n x m : monitors (σ n) !! i = Some m -> mpc m <> MUnborn ->
  exists m', monitors (σ (n + x)) !! i = Some m' /\ mpc m' <> MUnborn.
Proof using steps from_reachable.
  intros Hm Hb. induction x as [|x (m' & Hm' & Hb')]; [exists m; by rewrite Nat.add_0_r|].
  replace (n + S x) with (S (n + x)) by lia.
  destruct (started_step config auth i _ _ _ m' (reachable_proc_ok _ _ _ (reach (n + x))) Hm' Hb' (steps _))
    as (m1 & Hm1 & [[_ Hmv]|[_ ->]]); [exists m1; split; [done|by eapply own_born]|by exists m'].
Qed.

Lemma wait_is_over why i n m : waits_for why i n -> i ∈ requested (σ n) -> monitors (σ n) !! i = Some m ->
  mpc m <> MUnborn -> exists m, at_ (PDownHook why) m.
Proof using from_reachable steps alone fair fair_monitors time.
  intros Hw Hi Hm Hb.
  destruct (requested_cleared config auth (fun x => σ (n + x)) (fun x => lab (n + x)) i m) as [x Hx].
  - rewrite Nat.add_0_r. apply reach.
  - intros x. rewrite Nat.add_succ_r. apply steps.
  - by rewrite Nat.add_0_r.
  - by rewrite Nat.add_0_r.
  - done.
  - intros x. destruct (born_later i n x m Hm Hb) as (m' & Hm' & Hb').
    destruct (fair_monitors i (n + x) m' Hm' Hb') as [k Hk]. exists k. by rewrite Nat.add_assoc.
  - intros t. destruct (time t) as [x Hx]. exists x. rewrite Nat.add_comm.
    pose proof (run_now config auth (between lab x n) (σ x) (σ (x + n)) (reach x) (endless_run config auth σ lab steps x n)). lia.
  - destruct (waits_on why i n x Hw) as [|[Hat Hcur]]; [done|].
    destruct (cleared_reaped config auth i _ (reach (n + x)) Hx) as [Hno _].
    assert (Hst : core (shared (σ (n + x))) = Stopped).
    { destruct (core _) as [|r] eqn:Hc; [done|]. by destruct (Hno r eq_refl). }
    destruct (next_turn (fun s => core (shared s) = Stopped) (PStopWait why)) with (n := n + x)
      as (m1 & k & y & Hk & Hpc & Hc & Hs); [|done|done|done|].
    + intros j Hj Hl. destruct (step_undisturbed config auth c _ _ _ (alone j) Hl (steps j)) as [[->|?] _]; done.
    + unfold conn_step in Hs. rewrite Hpc in Hs. destruct y; try done. injection Hs as Hs.
      unfold is_stopped in Hs. rewrite Hc in Hs. exists (S m1). eapply at_goto; [|by symmetry]. eauto.
Qed.

(** [stop] returns. *)
Lemma stop_returns why n : at_ (PStop why) n ->
  (exists m, at_ (PDownHook why) m) \/ exists m, at_ (after_stop why false None) m.
Proof using from_reachable steps alone fair fair_monitors time.
  intros (m & k & x & Hk & Hpc & Hs)%next_step; [|done]. unfold conn_step in Hs. rewrite Hpc in Hs. destruct x; try done.
  injection Hs as Hs. unfold do_stop, stop_locked in Hs. destruct (core (shared (σ m))) as [|r] eqn:Hc.
  - right. exists (S m). eapply at_goto; [|by symmetry]. eauto with leaving.
  - left. destruct (pi_core _ _ _ _ _ (reachable_proc_ok _ _ _ (reach m)) r Hc) as (mo & Hmo & _ & _).
    assert (Hb : mpc mo <> MUnborn).
    { intros Hub. destruct (reachable_nursed config auth _ (reach m) _ _ Hmo Hub) as (j & kj & p & port & Hj & Hpj).
      destruct (decide (j = c)) as [->|Hne]; [congruence|]. pose proof (alone m j kj Hne Hj) as Ho.
      unfold out in Ho. rewrite Hpj, andb_false_r in Ho. done. }
    apply (wait_is_over why (cur (σ m)) (S m) mo); [| | |done].
    + split; [|by rewrite <- Hs]. eapply at_goto; [|by symmetry]. cbn. eauto.
    + rewrite <- Hs. cbn. by left.
    + by rewrite <- Hs.
Qed.

(** *** From the end of the connection *)

Lemma leaves_stop n : at_ (PStop OwnerDrop) n -> exists m, at_ PExit m.
Proof using from_reachable steps alone fair fair_monitors time.
  intros [[m Hm]|[m Hm]]%stop_returns; [by eapply leaves_hook|by eapply leaves_ps].
Qed.

Lemma never_endless n : at_ PRelease n -> False.
Proof using from_reachable steps alone fair fair_monitors time.
  intros (m & k & x & Hk & Hpc & Hs)%next_step; [|done]. unfold conn_step in Hs. rewrite Hpc in Hs. destruct x; try done.
  injection Hs as Hs. destruct (leaves_stop (S m)) as [m' Hm']; [|by eapply leaves_exit].
  eapply at_goto; [|by symmetry]. eauto with leaving.
Qed.

(** *** From a command to its reply *)

Lemma serves_reply ev n : at_ (PReply ev) n -> exists m, at_ PLoop m.
Proof using steps fair.
  intros (m & k & x & Hk & Hpc & Hs)%next_step; [|done]. unfold conn_step in Hs. rewrite Hpc in Hs. destruct x; try done.
  injection Hs as Hs. exists (S m). eapply at_goto; [|by symmetry]. cbn. apply alter_some. eauto.
Qed.

Lemma serves_status n : at_ PStatus n -> exists m, at_ PLoop m.
Proof using steps fair.
  intros (m & k & x & Hk & Hpc & Hs)%next_step; [|done]. unfold conn_step in Hs. rewrite Hpc in Hs. destruct x; try done.
  destruct (core_snapshot _) as [[co p] po]. injection Hs as Hs. eapply serves_reply.
  eapply at_goto; [|by symmetry]. eauto.
Qed.

Lemma serves_hook pid port n : at_ (PUpHook pid port) n -> exists m, at_ PLoop m.
Proof using steps fair.
  intros (m & k & x & Hk & Hpc & Hs)%next_step; [|done]. unfold conn_step in Hs. rewrite Hpc in Hs. destruct x; try done.
  injection Hs as Hs. eapply serves_reply. eapply at_goto; [|by symmetry]. rewrite fire_conns. eauto.
Qed.

Lemma serves_monitor ch pid port n : at_ (PMonitor ch pid port) n -> exists m, at_ PLoop m.
Proof using steps fair.
  intros (m & k & x & Hk & Hpc & Hs)%next_step; [|done]. unfold conn_step in Hs. rewrite Hpc in Hs. destruct x; try done.
  injection Hs as Hs. eapply serves_hook. eapply at_goto; [|by symmetry]. cbn. eauto.
Qed.

Lemma serves_start n : at_ PStart n -> exists m, at_ PLoop m.
Proof using steps fair.
  intros (m & k & x & Hk & Hpc & Hs)%next_step; [|done]. unfold conn_step in Hs. rewrite Hpc in Hs. destruct x; try done.
  destruct (spawn_possible env _); [|done]. injection Hs as Hs. unfold do_start in Hs.
  destruct (start_locked _ _ _) as [st [[p port|p port cmd]|e]]; [eapply serves_reply|eapply serves_monitor|eapply serves_reply];
    (eapply at_goto; [|by symmetry]; cbn; eauto).
Qed.

Lemma serves_stop n : at_ (PStop Requested) n -> exists m, at_ PLoop m.
Proof using from_reachable steps alone fair fair_monitors time.
  intros [[n' Hn]|[n' Hn]]%stop_returns; [|by eapply serves_reply]. revert Hn.
  intros (m & k & x & Hk & Hpc & Hs)%next_step; [|done]. unfold conn_step in Hs. rewrite Hpc in Hs. destruct x; try done.
  injection Hs as Hs. eapply serves_reply. eapply at_goto; [|by symmetry]. rewrite fire_conns. eauto.
Qed.

(** Where a command that was read leads. *)
Definition commanded (p : Pc) : bool :=
  match p with PReply _ | PStatus | PStart | PStop Requested => true | _ => false end.

Lemma serves p n : at_ p n -> commanded p = true -> exists m, at_ PLoop m.
Proof using from_reachable steps alone fair fair_monitors time.
  destruct p as [| | | | | | | |ev| | | | |why| | | | | | | | |]; try done.
  all: try destruct why; try done; intros H _; eauto using serves_reply, serves_status, serves_start, serves_stop.
Qed.
End Endless.

(** ** The exit *)

Section Exit.
Context {SJ : SerdeJson} (config : Config) (auth : AuthMode).

Lemma exited_write_all c evs : forall s, exited (write_all c evs s) = exited s.
Proof. induction evs as [|ev evs IH]; intros s; [done|exact (IH (write c ev s))]. Qed.

Lemma exited_end_sweep n present s : exited (end_sweep n present s) = exited s.
Proof. unfold end_sweep, fire. by repeat case_match. Qed.

Lemma exited_kill p ok s s1 hit : kill_pid p ok s = (s1, hit) -> exited s1 = exited s.
Proof. intros Hk. destruct (kill_pid_procs p ok s) as (ps & E & _). rewrite Hk in E. cbn in E. by subst s1. Qed.

(** Who ends the process. *)
(** Only the last step of a connection ends the process. *)
Lemma conn_step_exited c k i s s' : conn_step config auth c k i s = Some s' ->
  exited s' = exited s \/ exited s' = Some 0%Z /\ i = INone /\ pc k = PExit.
Proof.
  intros Hst. assert (Hno : forall P : Prop, exited s' = exited s -> exited s' = exited s \/ P) by by left.
  unfold conn_step in Hst.
  destruct (pc k) as [| |t|t|[o|]| |co po| |ev| | |ch p po|p po|why|why|why| | |hook|hook [|q qs] n|h| |] eqn:E, i;
    try done; try (apply Hno; injection Hst as <-; done).
  - apply Hno. injection Hst as <-. by destruct (peer k).
  - apply Hno. destruct (read_hello r) as [t evs]. injection Hst as <-. apply exited_write_all.
  - apply Hno. injection Hst as <-. unfold do_lease.
    destruct (acquire_lease _ _ _ _) as [st [d|]]; [by destruct (option_map conn d)|done].
  - apply Hno. injection Hst as <-. by destruct free.
  - apply Hno. destruct (core_snapshot _) as [[co p] po]. by injection Hst as <-.
  - apply Hno. injection Hst as <-. by destruct (command_turn r).
  - apply Hno. destruct (core_snapshot _) as [[co p] po]. by injection Hst as <-.
  - apply Hno. destruct (spawn_possible env s); [|done]. injection Hst as <-. unfold do_start.
    by destruct (start_locked config env (shared s)) as [st [[|]|]].
  - apply Hno. injection Hst as <-. unfold fire. by destruct present.
  - apply Hno. injection Hst as <-. unfold do_stop. by destruct (stop_locked _) as [st []].
  - apply Hno. injection Hst as <-. by destruct (is_stopped _).
  - apply Hno. injection Hst as <-. unfold fire. by destruct present.
  - apply Hno. injection Hst as <-. apply exited_end_sweep.
  - apply Hno. destruct (kill_pid q ok s) as [s1 hit] eqn:Hkill. injection Hst as <-. exact (exited_kill _ _ _ _ _ Hkill).
  - apply Hno. repeat case_match; by simplify_eq.
  - injection Hst as <-. by right.
Qed.

Lemma monitor_step_exited i m x s s' : monitor_step config i m x s = Some s' -> exited s' = exited s.
Proof.
  intros Hst. unfold monitor_step in Hst.
  destruct (mpc m) as [| | |stop| |info|info|to info| | | |[|p ps] n|], x as [|[]| | |]; try done;
    try (injection Hst as <-; done).
  - repeat case_match; by simplify_eq.
  - destruct (escalate _ _ _) as [[sg|] v]; injection Hst as <-; [|done].
    unfold send_signal. by destruct sg, (holder (mpid m) (procs s) 0).
  - injection Hst as <-. by destruct to.
  - injection Hst as <-. unfold fire. by destruct present.
  - injection Hst as <-. by case_match.
  - injection Hst as <-. apply exited_end_sweep.
  - destruct (kill_pid p ok s) as [s1 hit] eqn:Hk. injection Hst as <-. exact (exited_kill _ _ _ _ _ Hk).
Qed.

Lemma exit_step s l s' : step config auth s l = Some s' -> exited s' <> None ->
  exited s' = Some 0%Z /\
  (l = LTimer \/ exists j k, l = LConn j INone /\ conns s !! j = Some k /\ pc k = PExit).
Proof.
  unfold step. destruct (exited s) eqn:Hex; [done|]. intros Hst He.
  assert (Hno : exited s' = exited s -> exited s' = Some 0%Z /\
    (l = LTimer \/ exists j k, l = LConn j INone /\ conns s !! j = Some k /\ pc k = PExit)) by congruence.
  destruct l as [p|c i|i x| |ms|i st|p cmd|i|h].
  - apply Hno. by injection Hst as <-.
  - destruct (conns s !! c) as [k|] eqn:Hk; [|done]. destruct (blocked _ s); [done|].
    destruct (conn_step_exited _ _ _ _ _ Hst) as [E|(E & -> & Hp)]; [apply Hno; congruence|].
    split; [done|]. right. by exists c, k.
  - destruct (monitors s !! i) as [m|]; [|done]. destruct (blocked _ s); [done|]. apply Hno.
    apply monitor_step_exited in Hst. congruence.
  - unfold timer_step in Hst. destruct (blocked _ s); [done|]. destruct (timer s); try done.
    + apply Hno. case_match; [|done]. by injection Hst as <-.
    + injection Hst as <-. split; [done|by left].
  - apply Hno. case_match; by simplify_eq.
  - apply Hno. repeat case_match; by simplify_eq.
  - apply Hno. case_match; by simplify_eq.
  - apply Hno. repeat case_match; by simplify_eq.
  - apply Hno. by injection Hst as <-.
Qed.

(** The states of a run until the process ends, and the steps between them. *)
Context (σ : nat -> Sys) (lab : nat -> Label).
Hypothesis from_reachable : reachable config auth (σ 0).
Hypothesis steps : forall n, exited (σ n) = None -> step config auth (σ n) (lab n) = Some (σ (S n)).

Lemma until_exit n : (forall j, (j <= n)%nat -> exited (σ j) = None) -> reachable config auth (σ n).
Proof using from_reachable steps.
  induction n as [|n IH]; intros Hj; [done|]. econstructor; [apply IH|apply steps]; intros; apply Hj; lia.
Qed.

Lemma first_exit N : exited (σ 0) = None -> (forall j, (j <= N)%nat -> exited (σ j) = None) \/
  exists n, (forall j, (j <= n)%nat -> exited (σ j) = None) /\ exited (σ (S n)) <> None.
Proof.
  intros H0. induction N as [|N [IH|IH]]; [left; intros j Hj; by replace j with 0 by lia| |by right].
  destruct (exited (σ (S N))) as [e|] eqn:He.
  - right. exists N. by rewrite He.
  - left. intros j Hj. destruct (decide (j = S N)) as [->|]; [done|apply IH; lia].
Qed.

(** C10: a supervisor whose owner has gone exits.  In every run in which the owner's
    connection has come to the release of the lease, nobody else is granted it,
    time goes on and the thread of the connection and the monitors are scheduled
    again and again, the process ends after finitely many steps, whatever the core
    does with its signals: with code 0, and either by the thread of the
    connection, every core being reaped by then but for one whose [try_wait]
    failed, or by the timer for a supervisor without an owner (which does not look
    whether there is a core: [Races.timer_exit_orphans_core]). *)
Theorem orphaned_supervisor_exits c k : exited (σ 0) = None ->
  conns (σ 0) !! c = Some k -> pc k = PRelease ->
  (forall n, exited (σ n) = None -> only c (σ n)) ->
  (forall n, exists j, of_conn c (lab (n + j)) = true \/ exited (σ (n + j)) <> None) ->
  (forall i n m, monitors (σ n) !! i = Some m -> mpc m <> MUnborn ->
     exists j, turn_of i (lab (n + j)) = true \/ cleared i (σ (n + j)) \/ exited (σ (n + j)) <> None) ->
  (forall t, exists n, (t <= now (σ n))%Z \/ exited (σ n) <> None) ->
  exists n, exited (σ n) = None /\ exited (σ (S n)) = Some 0%Z /\
    (lab n = LTimer \/
     lab n = LConn c INone /\ core (shared (σ n)) = Stopped /\
     forall i p, procs (σ n) !! i = Some p -> ours p = true -> gone_or_lost (σ n) i p).
Proof using from_reachable steps.
  intros H0 Hk Hpc Honly Hfair Hmon Htime.
  assert (Hend : exists N, exited (σ N) <> None).
  { destruct (classic (exists N, exited (σ N) <> None)) as [|Hno]; [done|exfalso].
    assert (Hnone : forall n, exited (σ n) = None).
    { intros n. destruct (exited (σ n)) eqn:He; [|done]. destruct Hno. exists n. by rewrite He. }
    eapply (never_endless config auth σ lab c) with (n := 0); [done|intros n; by apply steps|intros n; by apply Honly| | | |by exists k].
    - intros n. destruct (Hfair n) as (j & [Hj|Hj]); [exists j; by left|by rewrite Hnone in Hj].
    - intros i n m Hm Hb. destruct (Hmon i n m Hm Hb) as (j & [Hj|[Hj|Hj]]); [exists j; by left|exists j; by right|].
      by rewrite Hnone in Hj.
    - intros t. destruct (Htime t) as (n & [Hn|Hn]); [by exists n|by rewrite Hnone in Hn]. }
  destruct Hend as [N HN]. destruct (first_exit N H0) as [Hall|(n & Hall & Hn)]; [by rewrite Hall in HN by done|].
  pose proof (Hall n (le_n n)) as Hnow. pose proof (until_exit n Hall) as Hr.
  destruct (exit_step _ _ _ (steps n Hnow) Hn) as [H1 H2]. exists n. split_and!; [done|done|].
  destruct H2 as [|(j & kj & Hl & Hj & Hpj)]; [by left|]. right.
  destruct (decide (j = c)) as [->|Hne].
  2: { pose proof (Honly n Hnow j kj Hne Hj) as Ho. unfold out in Ho. by rewrite Hpj, andb_false_r in Ho. }
  destruct (reachable_exit_ok config auth c _ Hr (Honly n Hnow)) as [Hc _]. rewrite Hj in Hc. cbn in Hc.
  rewrite Hpj in Hc. specialize (Hc eq_refl). split_and!; [done|done|].
  intros i p Hp Hours. by eapply unrecorded_gone.
Qed.
End Exit.

(** ** The replies *)

Section Served.
Context {SJ : SerdeJson} (config : Config) (auth : AuthMode).

(** C11: every command is answered.  In every endless run in which one client has the
    lease to itself, time goes on, and its thread (while it has something to do) and
    the monitors are scheduled again and again, a command the thread has read is
    answered after finitely many steps: the thread comes back to reading, and if the
    socket is still open everything it was asked is answered, a [stop] too, however
    long the core resists. *)
Theorem every_command_is_answered (σ : nat -> Sys) (lab : nat -> Label) c n k :
  reachable config auth (σ 0) -> (forall n, step config auth (σ n) (lab n) = Some (σ (S n))) ->
  (forall n, only c (σ n)) ->
  (forall n, exists j, of_conn c (lab (n + j)) = true \/ at_ σ c PLoop (n + j)) ->
  (forall i n m, monitors (σ n) !! i = Some m -> mpc m <> MUnborn ->
     exists j, turn_of i (lab (n + j)) = true \/ cleared i (σ (n + j))) ->
  (forall t, exists n, (t <= now (σ n))%Z) ->
  conns (σ n) !! c = Some k -> commanded (pc k) = true ->
  exists m k', conns (σ m) !! c = Some k' /\ pc k' = PLoop /\
    (live k' = true -> all_answered (asked k') (replies k')).
Proof.
  intros Hr Hsteps Hal Hfair Hmon Htime Hk Hp.
  destruct (serves config auth σ lab c Hr Hsteps Hal Hfair Hmon Htime (pc k) n) as (m & k' & Hk' & Hpc'); [by exists k|done|].
  exists m, k'. split_and!; [done|done|]. intros Hl. pose proof (endless_reachable config auth σ lab Hr Hsteps m) as Hrm.
  destruct (reachable_reply config auth _ Hrm c k' Hk') as [Hu|(Hd & _)]; [|congruence].
  unfold up_to_date in Hu. by rewrite Hl, Hpc' in Hu.
Qed.
End Served.

(** ** Witnesses *)

Import Schedule.

(** A core that ignores SIGTERM is asked to stop, killed after the grace period and
    reaped, and the reply is written; then only time goes on. *)
Definition asks_to_stop : list Label :=
  connects 0 false ++ greeted 0 ++ spawns 0 100 ++ started 0 ++ [LConn 0 (line_of ClientProto.Cmd.Stop)].
Definition stop_read : Sys := default initial (run asks_to_stop).
Definition resists : list Label :=
  [LConn 0 INone] ++ polls 0 ++ [LConn 0 INone; LTick 5000] ++ polls 0 ++
  [LMonitor 0 (JTryWait true); LMonitor 0 JNone; LConn 0 INone; LConn 0 (IScript true); LConn 0 INone].
Definition resists_end : Sys := default initial (Supervisor.run the_config the_auth stop_read resists).
Definition resists_label (n : nat) : Label := nth n resists (LTick 1000).
Definition resists_state (n : nat) : Sys :=
  if (n <? 16)%nat then default initial (Supervisor.run the_config the_auth stop_read (take n resists))
  else with_now (now resists_end + 1000 * Z.of_nat (n - 16))%Z resists_end.

Lemma resists_late n : (16 <= n)%nat ->
  resists_state n = with_now (now resists_end + 1000 * Z.of_nat (n - 16))%Z resists_end.
Proof. intros Hn. unfold resists_state. by rewrite (proj2 (Nat.ltb_ge n 16) Hn). Qed.

Lemma resists_label_late n : (16 <= n)%nat -> resists_label n = LTick 1000.
Proof. intros Hn. apply nth_overflow. assert (H : length resists = 16%nat) by reflexivity. by rewrite H. Qed.

Lemma resists_steps n : step (resists_state n) (resists_label n) = Some (resists_state (S n)).
Proof.
  destruct (decide (n < 16)%nat) as [Hlt|Hge].
  - do 16 (destruct n as [|n]; [vm_compute; reflexivity|]). lia.
  - assert (He : exited resists_end = None) by (vm_compute; reflexivity).
    rewrite (resists_late n), (resists_late (S n)), resists_label_late by lia. rewrite (tick_step _ _ He).
    do 2 f_equal. lia.
Qed.

(** The owner of a running core hangs up; a second client had been told [busy]. *)
Definition hangs_up : list Label :=
  connects 0 false ++ greeted 0 ++ spawns 0 100 ++ started 0 ++ connects 1 false ++ [LConn 0 eof; LConn 0 INone].
Definition hung_up : Sys := default initial (run hangs_up).

(** The core dies of SIGTERM, the hook runs and is joined. *)
Definition farewell : list Label :=
  [LConn 0 INone; LConn 0 INone] ++ polls 0 ++ dies 0 15 ++
  [LConn 0 INone; LConn 0 (IScript true); LConn 0 (IPs true); LConn 0 (IScript true); LHookDone 1;
   LConn 0 INone; LConn 0 INone].

Definition farewell_label (n : nat) : Label := nth n farewell (LTick 0).
Definition farewell_state (n : nat) : Sys :=
  default initial (Supervisor.run the_config the_auth hung_up (take n farewell)).
Definition hung_up_conn : Conn := default (new_conn (Ok 0%Z)) (conns hung_up !! 0).

Lemma hung_up_reachable : reachable (farewell_state 0).
Proof. apply (run_reachable the_config the_auth hangs_up initial); [constructor|]. vm_compute. reflexivity. Qed.

Lemma farewell_late n : (16 <= n)%nat -> farewell_state n = farewell_state 16.
Proof. intros Hn. unfold farewell_state. by rewrite !take_ge. Qed.

Lemma farewell_over n : exited (farewell_state (n + 16)) <> None.
Proof. rewrite farewell_late by lia. vm_compute. discriminate. Qed.

Lemma farewell_steps n : exited (farewell_state n) = None ->
  step (farewell_state n) (farewell_label n) = Some (farewell_state (S n)).
Proof.
  intros He. destruct (decide (n < 16)%nat) as [Hlt|Hge].
  - clear He. do 16 (destruct n as [|n]; [vm_compute; reflexivity|]). lia.
  - exfalso. apply (farewell_over (n - 16)). by replace (n - 16 + 16) with n by lia.
Qed.

Lemma resists_reachable : reachable (resists_state 0).
Proof. apply (run_reachable the_config the_auth asks_to_stop initial); [constructor|]. vm_compute. reflexivity. Qed.

Definition onlyb (c : nat) (s : Sys) : bool :=
  forallb (fun j => (j =? c)%nat || match conns s !! j with Some k => out k | None => true end) (seq 0 (length (conns s))).

Lemma onlyb_only c s : onlyb c s = true -> only c s.
Proof.
  intros H j k Hj Hk. unfold onlyb in H. rewrite forallb_forall in H. specialize (H j). rewrite Hk in H.
  apply lookup_lt_Some in Hk. destruct (Nat.eqb_spec j c); [done|]. apply H, in_seq. lia.
Qed.

Lemma farewell_only n : only 0 (farewell_state n).
Proof.
  apply onlyb_only. destruct (decide (n < 16)%nat) as [Hlt|Hge]; [|rewrite farewell_late by lia; vm_compute; reflexivity].
  do 16 (destruct n as [|n]; [vm_compute; reflexivity|]). lia.
Qed.

Lemma orphaned_supervisor_exits_witness : map status (procs hung_up) = [PAlive] /\
  exists n, exited (farewell_state (S n)) = Some 0%Z /\
    (farewell_label n = LTimer \/ farewell_label n = LConn 0 INone /\ core (shared (farewell_state n)) = Stopped).
Proof.
  split; [vm_compute; reflexivity|].
  assert (H0 : exited (farewell_state 0) = None) by (vm_compute; reflexivity).
  assert (Hk : conns (farewell_state 0) !! 0 = Some hung_up_conn) by (vm_compute; reflexivity).
  assert (Hpc : pc hung_up_conn = PRelease) by (vm_compute; reflexivity).
  destruct (orphaned_supervisor_exits the_config the_auth farewell_state farewell_label hung_up_reachable
    farewell_steps 0 hung_up_conn H0 Hk Hpc (fun n _ => farewell_only n)) as (n & _ & Hn & Hl).
  - intros n. exists 16. right. apply farewell_over.
  - intros i n m _ _. exists 16. right. right. apply farewell_over.
  - intros t. exists 16. right. apply (farewell_over 0).
  - exists n. split; [exact Hn|]. destruct Hl as [Hl|(Hl & Hc & _)]; [left; exact Hl|right; split; [exact Hl|exact Hc]].
Defined.

(** Time changes none of this. *)
Lemma later_only c t s : only c s -> only c (with_now t s).
Proof. done. Qed.
Lemma later_cleared i t s : cleared i s -> cleared i (with_now t s).
Proof. done. Qed.
Lemma later_conn c k t s : conns s !! c = k -> conns (with_now t s) !! c = k.
Proof. done. Qed.
Lemma later_procs t s : procs (with_now t s) = procs s.
Proof. done. Qed.

Lemma resists_only n : only 0 (resists_state n).
Proof.
  destruct (decide (n < 16)%nat) as [Hlt|Hge].
  - apply onlyb_only. do 16 (destruct n as [|n]; [vm_compute; reflexivity|]). lia.
  - rewrite resists_late by lia. apply later_only, onlyb_only. vm_compute. reflexivity.
Qed.

Lemma resists_monitor n i m : monitors (resists_state n) !! i = Some m -> i = 0.
Proof.
  intros Hm. pose proof (endless_reachable _ _ _ _ resists_reachable resists_steps n) as Hr.
  pose proof (monitor_bound _ _ _ (reachable_proc_ok _ _ _ Hr) Hm) as Hb.
  assert (H1 : length (procs (resists_state n)) = 1); [|lia].
  destruct (decide (n < 16)%nat) as [Hlt|Hge]; [|rewrite resists_late, later_procs by lia; vm_compute; reflexivity].
  clear Hm Hr Hb. do 16 (destruct n as [|n]; [vm_compute; reflexivity|]). lia.
Qed.

Definition stop_read_conn : Conn := default (new_conn (Ok 0%Z)) (conns stop_read !! 0).

Lemma every_command_is_answered_witness : pc stop_read_conn = PStop Requested /\
  exists m k', conns (resists_state m) !! 0 = Some k' /\ pc k' = PLoop /\
    (live k' = true -> all_answered (asked k') (replies k')).
Proof.
  split; [vm_compute; reflexivity|].
  assert (Hk : conns (resists_state 0) !! 0 = Some stop_read_conn) by (vm_compute; reflexivity).
  assert (Hc : commanded (pc stop_read_conn) = true) by (vm_compute; reflexivity).
  assert (Hloop : exists k, conns resists_end !! 0 = Some k /\ pc k = PLoop) by (eexists; split; vm_compute; reflexivity).
  assert (Hcl : cleared 0 resists_end) by (eexists; split; vm_compute; reflexivity).
  destruct (every_command_is_answered the_config the_auth resists_state resists_label 0 0 stop_read_conn
    resists_reachable resists_steps resists_only) as (m & k' & H); [| | |exact Hk|exact Hc|exists m, k'; exact H].
  - intros n. exists 16. right. unfold at_. rewrite resists_late by lia. destruct Hloop as (k & Hl & Hp). exists k. split; [exact (later_conn _ _ _ _ Hl)|exact Hp].
  - intros i n m Hm _. exists 16. right. rewrite resists_late by lia. apply resists_monitor in Hm as ->. exact (later_cleared _ _ _ Hcl).
  - intros t. exists (16 + Z.to_nat (Z.max 0 t))%nat. rewrite resists_late by lia. cbn [now with_now].
    assert (0 <= now resists_end)%Z by (vm_compute; discriminate). lia.
Defined.
