(* ===== verification/NoDeadlock.v ===== *)
(** * No thread is stuck: what holds in every reachable state

    The threads wait for each other in three ways: for the state mutex, for a hook
    thread, and, inside [stop], for a monitor.  None of these waits is in vain. *)

From Stdlib Require Import ZArith Lia String.
From stdpp Require Import base list strings gmap.
From S2P Require Import Prelude RustStr Json JsonText Proto ClientProto Config Auth Hooks CoreProc Janitor Server Supervisor Schedules ProcInv LockInv LeaseInv AuthInv HookInv ExitInv.
Import Proto.

Open Scope string_scope.

(** ** A hook that is waited for exists *)

Definition joins_ok (s : Sys) : Prop :=
  forall c k h, conns s !! c = Some k -> to_join (pc k) = Some h -> (h < length (hooks s))%nat.

Definition more_hooks (s s' : Sys) : Prop := (length (hooks s) <= length (hooks s'))%nat.

(** The program counters of [s'] are those of [s], but for [c]'s. *)
Lemma joins_goto c p s s1 : joins_ok s -> more_hooks s s1 ->
  (forall j, pc <$> conns s1 !! j = pc <$> conns s !! j) ->
  (forall h, to_join p = Some h -> (h < length (hooks s1))%nat) -> joins_ok (goto c p s1).
Proof.
  intros H Hm Hc Hp j k h. cbn. rewrite list_lookup_alter. case_decide as E.
  - subst j. destruct (conns s1 !! c) as [k1|]; [|done]. intros [= <-]. apply Hp.
  - intros Hk Hj. unfold more_hooks in Hm. specialize (Hc j). rewrite Hk in Hc.
    destruct (conns s !! j) as [k0|] eqn:Hk0; [|done]. cbn in Hc. injection Hc as Hc. rewrite Hc in Hj.
    specialize (H j k0 h Hk0 Hj). lia.
Qed.

Lemma joins_same s s' : joins_ok s -> more_hooks s s' ->
  (forall j, pc <$> conns s' !! j = pc <$> conns s !! j) -> joins_ok s'.
Proof.
  intros H Hm Hc j k h Hk Hj. unfold more_hooks in Hm. specialize (Hc j). rewrite Hk in Hc.
  destruct (conns s !! j) as [k0|] eqn:Hk0; [|done]. cbn in Hc. injection Hc as Hc. rewrite Hc in Hj.
  specialize (H j k0 h Hk0 Hj). lia.
Qed.

Lemma pc_alter f c (cs : list Conn) j : (forall k, pc (f k) = pc k) -> pc <$> alter f c cs !! j = pc <$> cs !! j.
Proof.
  intros Hf. rewrite list_lookup_alter. case_decide; [subst j|done]. destruct (cs !! c); [|done]. cbn. by rewrite Hf.
Qed.

Lemma more_refl s : more_hooks s s.
Proof. unfold more_hooks. lia. Qed.

Lemma more_same s s' : hooks s' = hooks s -> more_hooks s s'.
Proof. unfold more_hooks. by intros ->. Qed.

Lemma more_fire ev why gen present s : more_hooks s (fire ev why gen present s).
Proof. unfold more_hooks, fire. destruct present; cbn; rewrite ?length_app; lia. Qed.

Lemma more_end n present s : more_hooks s (end_sweep n present s).
Proof. unfold end_sweep. case_match; [apply more_fire|apply more_refl]. Qed.

Section Steps.
Context {SJ : SerdeJson} (config : Config) (auth : AuthMode).

(** A step that runs no hook and changes program counters by [goto] only. *)
Ltac moves := eapply joins_goto; [eassumption|..].

Lemma conn_step_joins c k i s s' : joins_ok s -> conns s !! c = Some k ->
  conn_step config auth c k i s = Some s' -> joins_ok s'.
Proof.
  intros H Hk. unfold conn_step.
  assert (Hnone : forall p s1, hooks s1 = hooks s -> (forall j, pc <$> conns s1 !! j = pc <$> conns s !! j) ->
    to_join p = None -> joins_ok (goto c p s1)).
  { intros p s1 Eh Ec Ep. eapply joins_goto; [exact H| |done|by rewrite Ep]. unfold more_hooks. by rewrite Eh. }
  assert (Hpc : forall h, to_join (pc k) = Some h -> (h < length (hooks s))%nat) by (intros h; by eapply H).
  destruct (pc k) as [| |t|t|[o|]| |co po| |ev| | |ch p po|p po|why|why|why| | |hook|hook [|q qs] n|h| |] eqn:E, i;
    try done; cbn in Hpc.
  - intros [= <-]. by destruct (peer k) as [u|e]; [case_match|]; apply Hnone.
  - destruct (read_hello r) as [t evs]. intros [= <-].
    apply Hnone; [apply (write_all_fields c evs s)| |by destruct t]. intros j. apply calm_pc, calm_write_all.
  - intros [= <-]. apply Hnone; [done| |done]. intros j. by apply pc_alter.
  - intros [= <-]. unfold do_lease. destruct (acquire_lease _ _ _ _) as [st [d|]].
    + destruct (option_map conn d) as [o|]; apply Hnone; try done. intros j. by apply pc_alter.
    + apply Hnone; [done| |done]. intros j. by apply pc_alter.
  - intros [= <-]. apply Hnone; [by destruct free| |done]. intros j. cbn. rewrite pc_alter by done.
    destruct free; [|done]. by apply pc_alter.
  - intros [= <-]. by apply Hnone.
  - destruct (core_snapshot _) as [[co p] po]. intros [= <-]. by apply Hnone.
  - intros [= <-]. apply Hnone; [done| |done]. intros j. by apply pc_alter.
  - intros [= <-]. by destruct (command_turn r); apply Hnone; try done; intros j; apply pc_alter.
  - intros [= <-]. apply Hnone; [done| |done]. intros j. by apply pc_alter.
  - destruct (core_snapshot _) as [[co p] po]. intros [= <-]. by apply Hnone.
  - case_match; intros [= <-]. unfold do_start.
    by destruct (start_locked config env (shared s)) as [st [[|]|]]; apply Hnone.
  - intros [= <-]. by apply Hnone.
  - intros [= <-]. moves; [apply more_fire|by rewrite fire_conns|done].
  - intros [= <-]. unfold do_stop. destruct (stop_locked (shared s)) as [st []]; apply Hnone; try done. by destruct why.
  - intros [= <-]. case_match; [by apply Hnone|done].
  - intros [= <-]. moves; [apply more_fire|by rewrite fire_conns|]. intros h Hh.
    assert (Hx : to_join (after_stop why true (if present then Some (length (hooks s)) else None)) =
      if is_requested why then None else if present then Some (length (hooks s)) else None) by (by destruct why).
    rewrite Hx in Hh. destruct (is_requested why); [done|]. destruct present; [|done]. injection Hh as <-.
    unfold fire. cbn. rewrite length_app. cbn. lia.
  - intros [= <-]. by case_match; apply Hnone.
  - intros [= <-]. by apply Hnone.
  - intros [= <-]. moves; [apply more_refl|done|done].
  - intros [= <-]. moves; [apply more_end|by rewrite end_sweep_conns|]. intros h Hh.
    pose proof (more_end n present s). unfold more_hooks in *. destruct hook as [h0|]; [|done].
    injection Hh as <-. specialize (Hpc h0 eq_refl). lia.
  - destruct (kill_pid q ok s) as [s1 hit] eqn:Hkill. intros [= <-].
    destruct (kill_same _ _ _ _ _ Hkill) as (_ & Eh & Ec).
    moves; [unfold more_hooks; by rewrite Eh|by rewrite Ec|]. rewrite Eh. exact Hpc.
  - case_match; [|done]. case_match; intros [= <-]. by apply Hnone.
  - intros [= <-]. by eapply joins_same; [exact H|unfold more_hooks; cbn; lia|].
Qed.

Lemma monitor_step_hooks i m j s s' : monitor_step config i m j s = Some s' -> more_hooks s s'.
Proof.
  unfold monitor_step. destruct (mpc m) as [| | |stop| |info|info|to info| | | |[|p ps] n|], j as [|[]| | |]; try done.
  - repeat case_match; intros; simplify_eq; by apply more_same.
  - intros [= <-]. by apply more_same.
  - intros [= <-]. by apply more_same.
  - destruct (escalate _ _ _) as [[sg|] v]; intros [= <-]; [|by apply more_same].
    unfold send_signal, more_hooks. by destruct sg, (holder (mpid m) (procs s) 0).
  - intros [= <-]. by apply more_same.
  - destruct (handle_core_exit_locked _ _) as [st expected]. intros [= <-]. by apply more_same.
  - intros [= <-]. by apply more_same.
  - intros [= <-]. by destruct to; apply more_same.
  - intros [= <-]. apply (more_fire _ _ _ _ s).
  - intros [= <-]. by case_match; apply more_same.
  - intros [= <-]. by apply more_same.
  - intros [= <-]. apply (more_end _ _ s).
  - destruct (kill_pid p ok s) as [s1 hit] eqn:Hk. intros [= <-].
    destruct (kill_same _ _ _ _ _ Hk) as (_ & Eh & _). by apply more_same.
Qed.

Lemma step_joins s l s' : joins_ok s -> step config auth s l = Some s' -> joins_ok s'.
Proof.
  intros H. unfold step. destruct (exited s); [done|]. destruct l as [p|c i|i j| |ms|i st|p cmd|i|h].
  - intros [= <-] j k h [Hk|[_ Hk]]%lookup_app_Some Hj; [by eapply H|].
    apply list_lookup_singleton_Some in Hk as [_ <-]. done.
  - destruct (conns s !! c) eqn:Hk; [|done]. case_match; [done|]. by apply conn_step_joins.
  - destruct (monitors s !! i) eqn:Hm; [|done]. case_match; [done|]. intros Hst.
    eapply joins_same; [exact H|by eapply monitor_step_hooks|]. intros c. apply calm_pc. by eapply monitor_step_calm.
  - unfold timer_step. repeat case_match; intros; simplify_eq; (by eapply joins_same; [exact H|unfold more_hooks; cbn; lia|]).
  - case_match; intros; simplify_eq; (by eapply joins_same; [exact H|unfold more_hooks; cbn; lia|]).
  - repeat case_match; intros; simplify_eq; (by eapply joins_same; [exact H|unfold more_hooks; cbn; lia|]).
  - case_match; intros; simplify_eq; (by eapply joins_same; [exact H|unfold more_hooks; cbn; lia|]).
  - repeat case_match; intros; simplify_eq; (by eapply joins_same; [exact H|unfold more_hooks; cbn; lia|]).
  - intros [= <-]. eapply joins_same; [exact H| |done]. unfold more_hooks. cbn. by rewrite length_alter.
Qed.

Lemma reachable_joins s : reachable config auth s -> joins_ok s.
Proof. induction 1 as [|s l s' Hr IH Hst]; [by intros c k h Hk|by eapply step_joins]. Qed.

(** ** Who can move *)

(** The thread that holds the mutex can go on. *)
Lemma sweeper_moves s i : lock_ok s -> exited s = None -> held s = Some i ->
  exists x, is_Some (step config auth s (LMonitor i x)).
Proof.
  intros Hlk He Hh. destruct (lk_holder _ _ _ Hlk i Hh) as (m & Hm & Hs). unfold step. rewrite He, Hm.
  unfold monitor_step, blocked. destruct (mpc m) as [| | | | | | | | | | |[|p ps] n|]; try done; cbn [monitor_locks andb].
  - exists (JPs true). eauto.
  - exists (JScript true). eauto.
  - exists (JKill true). destruct (kill_pid p true s). eauto.
Qed.

(** Waiting for the mutex, whose holder can go on. *)
Definition awaits_mutex (s : Sys) : Prop :=
  exists j x, held s = Some j /\ is_Some (step config auth s (LMonitor j x)).

Lemma blocked_awaits takes s : lock_ok s -> exited s = None -> blocked takes s = true -> awaits_mutex s.
Proof.
  intros Hlk He Hb. unfold blocked in Hb. apply andb_prop in Hb as [_ Hb].
  destruct (held s) as [j|] eqn:Hh; [|done]. destruct (sweeper_moves s j Hlk He Hh) as (x & Hx). by exists j, x.
Qed.

(** Some answer the operating system may give to [start]. *)
Definition no_spawn : SpawnEnv := {| free_port := Err "none"; log_opened := Err "none"; CoreProc.spawned := Err "none" |}.

Lemma conn_not_stuck s c k : reachable config auth s -> exited s = None -> conns s !! c = Some k -> pc k <> PDone ->
  (exists x, is_Some (step config auth s (LConn c x))) \/
  (exists h hk, pc k = PJoin h /\ hooks s !! h = Some hk /\ finished hk = false) \/
  awaits_mutex s.
Proof.
  intros Hr He Hk Hd. pose proof (reachable_lock config auth s Hr) as Hlk.
  destruct (blocked (locks (pc k)) s) eqn:Hb; [right; right; by eapply blocked_awaits|].
  pose proof (reachable_joins s Hr c k) as Hj.
  assert (Hs : forall x, is_Some (conn_step config auth c k x s) -> exists x, is_Some (step config auth s (LConn c x))).
  { intros x Hx. exists x. unfold step. by rewrite He, Hk, Hb. }
  unfold conn_step in Hs.
  destruct (pc k) as [| |t|t|[o|]| |co po| |ev| | |ch p po|p po|why|why|why| | |hook|hook [|q qs] n|h| |] eqn:E; try done.
  all: try (left; apply (Hs INone); repeat case_match; by eauto).
  - left. apply (Hs (IClone true)). eauto.
  - left. apply (Hs (IRead (Ok None))). cbn. eauto.
  - left. apply (Hs (ITryLock true)). eauto.
  - left. apply (Hs (IRead (Ok None))). eauto.
  - left. apply (Hs (ISpawn no_spawn)). cbn. eauto.
  - left. apply (Hs (IScript true)). eauto.
  - left. apply (Hs (IScript true)). eauto.
  - left. apply (Hs (IPs true)). eauto.
  - left. apply (Hs (IScript true)). eauto.
  - left. apply (Hs (IKill true)). destruct (kill_pid q true s). eauto.
  - specialize (Hj h Hk eq_refl). apply lookup_lt_is_Some_2 in Hj as [hk Hh]. destruct (finished hk) eqn:Hf.
    + left. apply (Hs INone). rewrite Hh, Hf. eauto.
    + right. left. eauto.
Qed.

Lemma monitor_not_stuck s i m : reachable config auth s -> exited s = None -> monitors s !! i = Some m ->
  mpc m <> MUnborn -> mpc m <> MDone ->
  (exists x, x <> JTryWait false /\ is_Some (step config auth s (LMonitor i x))) \/ awaits_mutex s.
Proof.
  intros Hr He Hm Hb Hd. pose proof (reachable_lock config auth s Hr) as Hlk.
  pose proof (reachable_proc_ok config auth s Hr) as Hp.
  destruct (blocked (monitor_locks (mpc m)) s) eqn:Hbl; [right; by eapply blocked_awaits|].
  left. assert (Hs : forall x, x <> JTryWait false -> is_Some (monitor_step config i m x s) ->
    exists x, x <> JTryWait false /\ is_Some (step config auth s (LMonitor i x))).
  { intros x Hn Hx. exists x. split; [done|]. unfold step. by rewrite He, Hm, Hbl. }
  unfold monitor_step in Hs. destruct (mpc m) as [| | |b| |info|info|to info| | | |[|p ps] n|] eqn:E; try done.
  - apply (Hs (JTryWait true)); [done|]. destruct (pi_proc _ _ _ _ _ Hp i m Hm) as (u & Hu & Hw & _).
    rewrite E in Hw. specialize (Hw eq_refl). subst u. destruct (procs s !! i) as [p|]; [|done]. cbn in *.
    unfold pview, unreaped in Hu. by destruct (status p); eauto.
  - apply (Hs JNone); eauto.
  - apply (Hs JNone); [done|]. destruct (escalate _ _ _). eauto.
  - apply (Hs JNone); eauto.
  - apply (Hs JNone); [done|]. destruct (handle_core_exit_locked _ _). eauto.
  - apply (Hs JNone); eauto.
  - apply (Hs JNone); eauto.
  - apply (Hs (JScript true)); eauto.
  - apply (Hs JNone); eauto.
  - apply (Hs (JPs true)); eauto.
  - apply (Hs (JScript true)); eauto.
  - apply (Hs (JKill true)); [done|]. destruct (kill_pid p true s). eauto.
Qed.

(** No thread is ever stuck.  In every reachable state of a running supervisor,
    a connection's thread that has not ended can take a step, or waits for a hook
    that has not finished, or for the state mutex while the monitor that holds it
    can take a step; and a core's monitor that was started and has not ended can
    take a step, without [try_wait] failing, or waits for the mutex likewise. *)
Theorem no_thread_is_stuck s : reachable config auth s -> exited s = None ->
  (forall c k, conns s !! c = Some k -> pc k <> PDone ->
     (exists x, is_Some (step config auth s (LConn c x))) \/
     (exists h hk, pc k = PJoin h /\ hooks s !! h = Some hk /\ finished hk = false) \/
     awaits_mutex s) /\
  (forall i m, monitors s !! i = Some m -> mpc m <> MUnborn -> mpc m <> MDone ->
     (exists x, x <> JTryWait false /\ is_Some (step config auth s (LMonitor i x))) \/ awaits_mutex s).
Proof.
  intros Hr He. split; [intros c k; by apply conn_not_stuck|intros i m; by apply monitor_not_stuck].
Qed.

End Steps.

(** ** Witness *)

Import Schedule.

(** The owner's thread wants the mutex for [start] while the monitor sweeps. *)
Lemma no_thread_is_stuck_witness : held mid_sweep = Some 1 /\
  exists x, x <> JTryWait false /\ is_Some (step mid_sweep (LMonitor 1 x)).
Proof.
  split; [vm_compute; reflexivity|].
  destruct (no_thread_is_stuck the_config the_auth mid_sweep mid_sweep_reachable ltac:(vm_compute; reflexivity)) as [_ H].
  destruct (H 1 {| mpid := 100; vars := monitor_init; mpc := MKill [77%Z] 0; lost := false |}
    ltac:(vm_compute; reflexivity) ltac:(discriminate) ltac:(discriminate)) as [Hx|(j & x & Hj & Hx)]; [exact Hx|].
  exists (JKill true). split; [discriminate|]. vm_compute. eexists. reflexivity.
Defined.
