(* ===== verification/Writers.v ===== *)
(** * Writers that block: a client that does not read

    A write to a socket whose client does not read blocks once the buffer is full,
    and the thread that writes holds the mutex of the connection's writer
    meanwhile.  [Supervisor] lets a thread be late with its write for as long as it
    likes, so its theorems hold here too; what is added is who waits for whom, and
    that a client that does not read holds up nothing that has to go on. *)

From Stdlib Require Import ZArith Lia String.
From stdpp Require Import base list strings gmap.
From S2P Require Import Prelude RustStr Json JsonText Proto ClientProto Config Auth Hooks CoreProc Janitor Server Supervisor Schedules ProcInv LockInv LeaseInv AuthInv HookInv ExitInv Progress Exits NoDeadlock.
Import Proto.

Open Scope string_scope.

(** ** Sockets that are full, and who holds their writers *)

Inductive Tid : Type :=
| TConn (c : nat)
| TMonitor (i : nat).

#[global] Instance Tid_eq_dec : EqDecision Tid.
Proof. solve_decision. Defined.

Definition thread_of (l : Label) : option Tid :=
  match l with LConn c _ => Some (TConn c) | LMonitor i _ => Some (TMonitor i) | _ => None end.

(** The connection whose writer a thread is about to lock, or has locked
    ([write_locked], [write_to_owner]).  Before the lease a connection's writer is
    its own, and its first event finds the buffer empty. *)
Definition writes_to (s : Sys) (t : Tid) : option nat :=
  match t with
  | TConn c => match pc <$> conns s !! c with Some (PReply _ | PHelloReply _ _) => Some c | _ => None end
  | TMonitor i => match mpc <$> monitors s !! i with Some (MPushTo to _) => to | _ => None end
  end.

(** [full]: the connections whose socket takes no more. [writers]: the threads
    that hold a writer's mutex. *)
Record Net : Type := { sys : Sys; full : gset nat; writers : gmap nat Tid }.

Inductive NLabel : Type :=
| Grab (t : Tid)                     (* writer.lock() *)
| Sup (l : Label)
| Fill (q : nat)                     (* the client does not read *)
| Drain (q : nat).                   (* it reads on, or closes its end *)

Definition alive_at (s : Sys) (q : nat) : bool := match conns s !! q with Some k => live k | None => false end.

(** A write to the socket returns: there is room, or it was shut down and the
    write fails. *)
Definition returns (n : Net) (q : nat) : bool := negb (bool_decide (q ∈ full n)) || negb (alive_at (sys n) q).

(** What a step waits for. A write needs the mutex of the writer, and the socket.
    The notice to a displaced owner is written if [try_lock] gets the writer, and
    given up after a second if the socket takes nothing. *)
Definition permitted (n : Net) (l : Label) : bool :=
  match l with
  | LConn c (ITryLock free) =>
      match pc <$> conns (sys n) !! c with
      | Some (PNotify (Some o)) => eqb free (bool_decide (writers n !! o = None) && returns n o)
      | _ => true
      end
  | _ =>
      match thread_of l with
      | Some t =>
          match writes_to (sys n) t with
          | Some q => bool_decide (writers n !! q = Some t) && returns n q
          | None => true
          end
      | None => true
      end
  end.

(** The mutex is released after the write. *)
Definition release (s : Sys) (l : Label) (ws : gmap nat Tid) : gmap nat Tid :=
  match thread_of l with
  | Some t => match writes_to s t with Some q => delete q ws | None => ws end
  | None => ws
  end.

Section Program.
Context {SJ : SerdeJson} (config : Config) (auth : AuthMode).

Definition nstep (n : Net) (l : NLabel) : option Net :=
  match exited (sys n), l with
  | Some _, _ => None
  | None, Grab t =>
      match writes_to (sys n) t with
      | Some q =>
          match writers n !! q with
          | None => Some {| sys := sys n; full := full n; writers := <[q := t]> (writers n) |}
          | Some _ => None
          end
      | None => None
      end
  | None, Sup l =>
      if permitted n l
      then option_map (fun s => {| sys := s; full := full n; writers := release (sys n) l (writers n) |})
             (step config auth (sys n) l)
      else None
  | None, Fill q => Some {| sys := sys n; full := {[q]} ∪ full n; writers := writers n |}
  | None, Drain q => Some {| sys := sys n; full := full n ∖ {[q]}; writers := writers n |}
  end.

Definition net_initial : Net := {| sys := initial; full := ∅; writers := ∅ |}.

Inductive net_reachable : Net -> Prop :=
| net_init : net_reachable net_initial
| net_step n l n' : net_reachable n -> nstep n l = Some n' -> net_reachable n'.

Fixpoint net_run (n : Net) (ls : list NLabel) : option Net :=
  match ls with
  | [] => Some n
  | l :: ls => match nstep n l with Some n' => net_run n' ls | None => None end
  end.

Lemma net_run_reachable ls : forall n n', net_reachable n -> net_run n ls = Some n' -> net_reachable n'.
Proof.
  induction ls as [|l ls IH]; intros n n' Hn; cbn [net_run]; [by intros [= <-]|].
  destruct (nstep n l) as [n1|] eqn:Hl; [|done]. apply IH. by econstructor.
Qed.

(** ** It is the supervisor *)

Lemma nstep_sup n l n' : nstep n (Sup l) = Some n' -> exited (sys n) = None /\ permitted n l = true /\
  step config auth (sys n) l = Some (sys n') /\ full n' = full n /\ writers n' = release (sys n) l (writers n).
Proof.
  unfold nstep. destruct (exited (sys n)); [done|]. destruct (permitted n l); [|done].
  destruct (step config auth (sys n) l); [|done]. by intros [= <-].
Qed.

Lemma nstep_sys n l n' : nstep n l = Some n' ->
  sys n' = sys n \/ exists sl, l = Sup sl /\ step config auth (sys n) sl = Some (sys n').
Proof.
  destruct l as [t|l|q|q].
  - unfold nstep. intros H. left. by repeat case_match; simplify_eq.
  - intros (_ & _ & H & _)%nstep_sup. right. by exists l.
  - unfold nstep. intros H. left. by repeat case_match; simplify_eq.
  - unfold nstep. intros H. left. by repeat case_match; simplify_eq.
Qed.

Lemma net_sys n : net_reachable n -> reachable config auth (sys n).
Proof.
  induction 1 as [|n l n' Hn IH Hst]; [constructor|].
  destruct (nstep_sys _ _ _ Hst) as [->|(sl & _ & H)]; [done|by econstructor].
Qed.

(** ** Who holds a writer is about to write *)

Lemma writes_other s l s' t q : proc_ok s -> step config auth s l = Some s' -> thread_of l <> Some t ->
  writes_to s t = Some q -> writes_to s' t = Some q.
Proof.
  intros Hp Hst Hl. destruct t as [c|i]; cbn.
  - destruct (conns s !! c) as [k|] eqn:Hk; [|done]. cbn. rewrite (step_stand config auth c s l s' k Hst); [done| |done].
    destruct l as [|j x| | | | | | |]; try done. cbn. apply Nat.eqb_neq. by intros ->.
  - destruct (monitors s !! i) as [m|] eqn:Hm; [|done].
    assert (Hf : monitor_frame i (monitors s) (monitors s')).
    { eapply step_frame; [exact Hp| |exact Hst]. destruct l as [| |j x| | | | | |]; try done. cbn.
      apply Nat.eqb_neq. by intros ->. }
    unfold monitor_frame in Hf. rewrite Hm in Hf. destruct Hf as (m' & -> & [->| ->]); [done|].
    cbn. unfold spawn_monitor. by destruct (mpc m) eqn:E; rewrite ?E.
Qed.

Definition writers_ok (n : Net) : Prop := forall q t, writers n !! q = Some t -> writes_to (sys n) t = Some q.

Lemma net_writers n : net_reachable n -> writers_ok n.
Proof.
  induction 1 as [|n l n' Hn IH Hst]; [done|]. destruct l as [t|l|q|q].
  - unfold nstep in Hst. destruct (exited (sys n)); [done|]. destruct (writes_to (sys n) t) as [q|] eqn:Hw; [|done].
    destruct (writers n !! q); [done|]. injection Hst as <-.
    intros q' t'. cbn. by intros [[<- <-]|[_ H']]%lookup_insert_Some; [|by apply IH].
  - apply nstep_sup in Hst as (_ & Hperm & Hst & _ & Hws). intros q t Hq. rewrite Hws in Hq.
    pose proof (reachable_proc_ok config auth _ (net_sys _ Hn)) as Hp. unfold release in Hq.
    destruct (thread_of l) as [t0|] eqn:Ht.
    2: { apply (writes_other (sys n) l _ t q Hp Hst); [by rewrite Ht|by apply IH]. }
    assert (writers n !! q = Some t /\ t <> t0) as [Hold Hne].
    { destruct (writes_to (sys n) t0) as [q0|] eqn:Hw.
      - apply lookup_delete_Some in Hq as [Hq Hn0]. split; [done|]. intros ->. apply IH in Hn0. congruence.
      - split; [done|]. intros ->. apply IH in Hq. congruence. }
    apply (writes_other (sys n) l _ t q Hp Hst); [rewrite Ht; congruence|by apply IH].
  - unfold nstep in Hst. case_match; [done|]. by injection Hst as <-.
  - unfold nstep in Hst. case_match; [done|]. by injection Hst as <-.
Qed.

(** ** Who can move *)

Definition nthread_of (l : NLabel) : option Tid :=
  match l with Grab t => Some t | Sup l => thread_of l | _ => None end.

(** By a step of its own, without [try_wait] failing. *)
Definition can_move (n : Net) (t : Tid) : Prop :=
  exists l n', nthread_of l = Some t /\ (forall i, l <> Sup (LMonitor i (JTryWait false))) /\ nstep n l = Some n'.

Definition is_try (l : Label) : bool := match l with LConn _ (ITryLock _) => true | _ => false end.

Lemma nstep_plain n l s' : exited (sys n) = None -> permitted n l = true -> step config auth (sys n) l = Some s' ->
  exists n', nstep n (Sup l) = Some n' /\ sys n' = s'.
Proof. intros He Hp Hs. unfold nstep. rewrite He, Hp, Hs. cbn. by eexists. Qed.

Lemma permitted_plain n l t : is_try l = false -> thread_of l = Some t ->
  match writes_to (sys n) t with Some q => writers n !! q = Some t /\ returns n q = true | None => True end ->
  permitted n l = true.
Proof.
  intros Hl Ht Hw. unfold permitted.
  assert (match thread_of l with Some t => match writes_to (sys n) t with
    | Some q => bool_decide (writers n !! q = Some t) && returns n q | None => true end | None => true end = true) as Hx.
  { rewrite Ht. destruct (writes_to (sys n) t) as [q|]; [|done]. destruct Hw as [Hw ->].
    by rewrite bool_decide_eq_true_2. }
  by destruct l as [|c []| | | | | | |].
Qed.

(** The write itself never needs anything else. *)
Lemma write_step s t q : exited s = None -> writes_to s t = Some q ->
  exists l s', thread_of l = Some t /\ is_try l = false /\ (forall i, l <> LMonitor i (JTryWait false)) /\
    step config auth s l = Some s'.
Proof.
  intros He Hw. destruct t as [c|i]; cbn in Hw.
  - exists (LConn c INone). unfold step. rewrite He. destruct (conns s !! c) as [k|]; [|done]. cbn in Hw.
    unfold blocked, conn_step. destruct (pc k); try done; eexists; split_and!; try done.
  - exists (LMonitor i JNone). unfold step. rewrite He. destruct (monitors s !! i) as [m|]; [|done]. cbn in Hw.
    unfold blocked, monitor_step. destruct (mpc m); try done; eexists; split_and!; try done.
Qed.

Lemma holder_moves n q t : net_reachable n -> exited (sys n) = None -> writers n !! q = Some t ->
  returns n q = true -> can_move n t.
Proof.
  intros Hn He Hq Hr. pose proof (net_writers n Hn q t Hq) as Hw.
  destruct (write_step (sys n) t q He Hw) as (l & s' & Ht & Htry & Hj & Hs).
  destruct (nstep_plain n l s' He) as (n' & Hn' & _); [|done|].
  - apply (permitted_plain n l t); [done|done|]. by rewrite Hw.
  - exists (Sup l), n'. split_and!; [done| |done]. intros i [= ->]. by apply (Hj i).
Qed.

(** Waiting for a client to read. *)
Definition unread (n : Net) (q : nat) : Prop := q ∈ full n /\ alive_at (sys n) q = true.

Lemma not_returns n q : returns n q = false -> unread n q.
Proof.
  unfold returns. intros [H1%negb_false_iff H2%negb_false_iff]%orb_false_elim. apply bool_decide_eq_true in H1. by split.
Qed.

(** What a thread about to write waits for. *)
Definition awaits_writer (n : Net) (t : Tid) : Prop := exists q, writes_to (sys n) t = Some q /\
  ((exists t', writers n !! q = Some t' /\ t' <> t /\ can_move n t') \/ unread n q).

Lemma writer_moves n t q : net_reachable n -> exited (sys n) = None -> writes_to (sys n) t = Some q ->
  can_move n t \/ awaits_writer n t.
Proof.
  intros Hn He Hw. destruct (returns n q) eqn:Hr; [|right; exists q; split; [done|right; by apply not_returns]].
  destruct (writers n !! q) as [t'|] eqn:Hq.
  - destruct (decide (t' = t)) as [->|Hne]; [left|right]; [by eapply holder_moves|].
    exists q. split; [done|]. left. exists t'. split_and!; [done..|]. by eapply holder_moves.
  - left. eexists (Grab t), _. split_and!; [done|done|]. unfold nstep. by rewrite He, Hw, Hq.
Qed.

(** A step the supervisor can make that is no write. *)
Lemma plain_moves n t l s' : exited (sys n) = None -> thread_of l = Some t -> is_try l = false ->
  (forall i, l <> LMonitor i (JTryWait false)) -> writes_to (sys n) t = None ->
  step config auth (sys n) l = Some s' -> can_move n t.
Proof.
  intros He Ht Htry Hj Hw Hs. destruct (nstep_plain n l s' He) as (n' & Hn' & _); [|done|].
  - apply (permitted_plain n l t); [done|done|]. by rewrite Hw.
  - exists (Sup l), n'. split_and!; [done| |done]. intros i [= ->]. by apply (Hj i).
Qed.

(** The displaced owner is told, or not, whatever holds its writer. *)
Lemma notify_step n c k o : exited (sys n) = None -> conns (sys n) !! c = Some k -> pc k = PNotify (Some o) ->
  exists free n', nstep n (Sup (LConn c (ITryLock free))) = Some n'.
Proof.
  intros He Hk Hp. set (free := bool_decide (writers n !! o = None) && returns n o). exists free.
  destruct (step config auth (sys n) (LConn c (ITryLock free))) as [s'|] eqn:Hs.
  - destruct (nstep_plain n (LConn c (ITryLock free)) s' He) as (n' & Hn' & _); [|exact Hs|by exists n'].
    unfold permitted. rewrite Hk. cbn. rewrite Hp. apply eqb_reflx.
  - unfold step in Hs. rewrite He, Hk in Hs. unfold blocked, conn_step in Hs. by rewrite Hp in Hs.
Qed.

Lemma sweeper_can_move n : net_reachable n -> exited (sys n) = None -> forall i, held (sys n) = Some i ->
  can_move n (TMonitor i).
Proof.
  intros Hn He i Hh. pose proof (reachable_lock config auth _ (net_sys _ Hn)) as Hlk.
  destruct (sweeper_moves config auth (sys n) i Hlk He Hh) as (x & s' & Hs).
  destruct (lk_holder _ _ _ Hlk i Hh) as (m & Hm & Hsw).
  apply (plain_moves n (TMonitor i) (LMonitor i x) s'); try done.
  - intros j [= -> ->]. unfold step in Hs. rewrite He, Hm in Hs. unfold monitor_step in Hs.
    destruct (mpc m) as [| | | | | | | | | | |[|]|]; try done; by case_match.
  - cbn. rewrite Hm. cbn. by destruct (mpc m).
Qed.

(** ** What a client that does not read can hold up *)

(** What a thread may wait for: a hook that runs; the mutex, whose holder can go on;
    a writer whose holder can go on; a client that does not read. *)
Definition awaits (n : Net) (t : Tid) : Prop :=
  (exists c h hk, t = TConn c /\ pc <$> conns (sys n) !! c = Some (PJoin h) /\ hooks (sys n) !! h = Some hk /\
     finished hk = false) \/
  (exists i, held (sys n) = Some i /\ can_move n (TMonitor i)) \/
  awaits_writer n t.

Lemma mutex_holder n : net_reachable n -> exited (sys n) = None -> awaits_mutex config auth (sys n) ->
  exists i, held (sys n) = Some i /\ can_move n (TMonitor i).
Proof. intros Hn He (i & x & Hh & _). exists i. split; [done|by apply sweeper_can_move]. Qed.

(** C20: However many clients do not read what they are sent, only those who write
    to them wait for it.  In every reachable state of a running supervisor whose
    sockets fill up and whose writers are locked, every thread that has not ended
    can take a step; or it waits for a hook that runs, for the state mutex or for a
    connection's writer held by a thread that can take a step; or its next step is
    a write to a connection whose client does not read and which has not been shut
    down. *)
Theorem only_unread_sockets_block n : net_reachable n -> exited (sys n) = None ->
  (forall c k, conns (sys n) !! c = Some k -> pc k <> PDone -> can_move n (TConn c) \/ awaits n (TConn c)) /\
  (forall i m, monitors (sys n) !! i = Some m -> mpc m <> MUnborn -> mpc m <> MDone ->
     can_move n (TMonitor i) \/ awaits n (TMonitor i)).
Proof.
  intros Hn He. pose proof (net_sys n Hn) as Hr.
  assert (Hwrite : forall t q, writes_to (sys n) t = Some q -> can_move n t \/ awaits n t).
  { intros t q Hw. destruct (writer_moves n t q Hn He Hw); [by left|]. right. by right; right. }
  split.
  - intros c k Hk Hd. destruct (writes_to (sys n) (TConn c)) as [q|] eqn:Hw; [by eapply Hwrite|].
    destruct (conn_not_stuck config auth (sys n) c k Hr He Hk Hd) as [(x & s' & Hs)|[(h & hk & Hj & Hh & Hf)|Ha]].
    + left. destruct (is_try (LConn c x)) eqn:Hx; [|by eapply (plain_moves n _ (LConn c x))].
      destruct x; try done. destruct (pc k) as [| |t0|t0|[o|]| |co po| |ev| | |ch p po|p po|why|why|why| | |hook|hook [|r rs] num|h0| |] eqn:Hp;
        try (unfold step, conn_step in Hs; rewrite He, Hk, Hp in Hs; by destruct (blocked _ _)).
      destruct (notify_step n c k o He Hk Hp) as (b & n' & Hst). by exists (Sup (LConn c (ITryLock b))), n'.
    + right. left. exists c, h, hk. by rewrite Hk, <- Hj.
    + right. right. left. by apply mutex_holder.
  - intros i m Hi Hb Hd. destruct (writes_to (sys n) (TMonitor i)) as [q|] eqn:Hw; [by eapply Hwrite|].
    destruct (monitor_not_stuck config auth (sys n) i m Hr He Hi Hb Hd) as [(x & Hx & s' & Hs)|Ha]; [left|right; right; left; by apply mutex_holder].
    apply (plain_moves n (TMonitor i) (LMonitor i x) s'); try done. by intros j [= _ ->].
Qed.

(** The way of a connection from its [hello] to the reply. *)
Definition way_left (p : Pc) : nat :=
  match p with PNextId _ => 4 | PLease _ => 3 | PNotify _ => 2 | PSnapshot => 1 | _ => 0 end.

Lemma way_step n c k l n' : conns (sys n) !! c = Some k -> (0 < way_left (pc k))%nat ->
  thread_of l = Some (TConn c) -> nstep n (Sup l) = Some n' ->
  exists k', conns (sys n') !! c = Some k' /\ (way_left (pc k') < way_left (pc k))%nat.
Proof.
  intros Hk Hw Ht (He & _ & Hs & _)%nstep_sup. destruct l as [|j x| | | | | | |]; try done. cbn in Ht. injection Ht as ->.
  unfold step in Hs. rewrite He, Hk in Hs. destruct (blocked _ _); [done|].
  assert (Hgo : forall p s1, sys n' = goto c p s1 -> is_Some (conns s1 !! c) -> (way_left p < way_left (pc k))%nat ->
    exists k', conns (sys n') !! c = Some k' /\ (way_left (pc k') < way_left (pc k))%nat).
  { intros p s1 -> [k1 Hk1] Hlt. exists (set_pc p k1). cbn. by rewrite list_lookup_alter_eq, Hk1. }
  assert (Hsome : forall s1 f j, conns s1 = alter f j (conns (sys n)) -> is_Some (conns s1 !! c)).
  { intros s1 f j ->. rewrite list_lookup_alter. case_decide; rewrite ?Hk; [subst|]; rewrite ?Hk; by eexists. }
  unfold conn_step in Hs. destruct (pc k) as [| |t0|t0|[o|]| |co po| |ev| | |ch p po|p po|why|why|why| | |hook|hook [|r rs] num|h0| |]; cbn in Hw; try lia;
    destruct x; try done; try (injection Hs as Hs; symmetry in Hs).
  - eapply Hgo; [exact Hs|by eapply Hsome|cbn; lia].
  - unfold do_lease in Hs. destruct (acquire_lease _ _ _ _) as [st [d|]].
    + eapply Hgo; [exact Hs| |cbn; lia]. destruct (option_map conn d); [by eapply Hsome|by exists k].
    + eapply Hgo; [exact Hs|by eapply Hsome|cbn; lia].
  - eapply Hgo; [exact Hs| |cbn; lia]. apply lookup_lt_is_Some. cbn. rewrite length_alter.
    apply lookup_lt_is_Some. destruct free; [by eapply Hsome|by exists k].
  - eapply Hgo; [exact Hs|by exists k|cbn; lia].
  - destruct (core_snapshot _) as [[co p] po]. injection Hs as Hs. by eapply Hgo; [by symmetry|by exists k|cbn; lia].
Qed.

(** The displaced owner's socket is shut down, and the process goes on. *)
Lemma notify_shuts n c k o l n' : conns (sys n) !! c = Some k -> pc k = PNotify (Some o) ->
  thread_of l = Some (TConn c) -> nstep n (Sup l) = Some n' ->
  exited (sys n') = None /\ alive_at (sys n') o = false.
Proof.
  intros Hk Hp Ht (He & _ & Hs & _)%nstep_sup. destruct l as [|j x| | | | | | |]; try done. cbn in Ht. injection Ht as ->.
  unfold step in Hs. rewrite He, Hk in Hs. destruct (blocked _ _); [done|]. unfold conn_step in Hs. rewrite Hp in Hs.
  destruct x; try done. injection Hs as <-. split; [by destruct free|].
  unfold alive_at, goto, on_conn. cbn [conns with_conns]. rewrite list_lookup_alter.
  case_decide as Hco; [subst c|]; rewrite list_lookup_alter_eq;
    by destruct (conns (if free then write o Event.Kicked (sys n) else sys n) !! o).
Qed.

(** C21: A stuck writer never wedges a takeover.  From its [hello] to the reply a
    connection makes at most four steps, and each of them it can make, or the mutex
    is held by a sweeping monitor that can itself take a step: whatever sockets are
    full and whoever holds the displaced owner's writer.  And when it has told the
    displaced owner, that socket is shut down and the thread that was stuck with its
    writer can go on. *)
Theorem takeover_is_not_wedged n c k : net_reachable n -> exited (sys n) = None ->
  conns (sys n) !! c = Some k -> (0 < way_left (pc k))%nat ->
  (can_move n (TConn c) \/ exists i, held (sys n) = Some i /\ can_move n (TMonitor i)) /\
  (forall l n', thread_of l = Some (TConn c) -> nstep n (Sup l) = Some n' ->
     (exists k', conns (sys n') !! c = Some k' /\ (way_left (pc k') < way_left (pc k))%nat) /\
     (forall o t, pc k = PNotify (Some o) -> writers n' !! o = Some t -> can_move n' t)).
Proof.
  intros Hn He Hk Hw. split.
  - destruct (blocked (locks (pc k)) (sys n)) eqn:Hb.
    + right. apply mutex_holder; [done..|]. eapply blocked_awaits; [|done..]. eapply reachable_lock. by apply net_sys.
    + left. assert (Hs : forall s', conn_step config auth c k INone (sys n) = Some s' -> can_move n (TConn c)).
      { intros s' Hs. apply (plain_moves n (TConn c) (LConn c INone) s'); try done.
        - cbn. rewrite Hk. cbn. destruct (pc k); cbn in Hw; try lia; done.
        - unfold step. by rewrite He, Hk, Hb. }
      unfold conn_step in Hs. destruct (pc k) as [| |t0|t0|[o|]| |co po| |ev| | |ch p po|p po|why|why|why| | |hook|hook [|r rs] num|h0| |] eqn:Hp; cbn in Hw; try lia;
        try by eapply Hs.
      * destruct (notify_step n c k o He Hk Hp) as (b & n' & Hst). by exists (Sup (LConn c (ITryLock b))), n'.
      * destruct (core_snapshot (shared (sys n))) as [[co p] po]. by eapply Hs.
  - intros l n' Ht Hs. split; [by eapply way_step|]. intros o t Hp Hq.
    destruct (notify_shuts n c k o l n' Hk Hp Ht Hs) as [He' Ha].
    eapply holder_moves; [by eapply net_step|done|done|]. unfold returns. by rewrite Ha, orb_true_r.
Qed.

End Program.

(** ** An owner that does not read *)

Import Schedule.

(** The run that takes the mutex of a writer just before each write. *)
Fixpoint grabbing (n : Net) (ls : list Label) : list NLabel :=
  match ls with
  | [] => []
  | l :: ls =>
      let grab :=
        match thread_of l with
        | Some t => match writes_to (sys n) t with Some _ => [Grab t] | None => [] end
        | None => []
        end in
      (grab ++ [Sup l] ++
       match net_run the_config the_auth n (grab ++ [Sup l]) with Some n' => grabbing n' ls | None => [] end)%list
  end.

(** The owner has started a core and stops reading; the core crashes, and its
    monitor is stuck with the owner's writer; another client takes over. *)
Definition unread_schedule : list NLabel :=
  grabbing net_initial (connects 0 false ++ greeted 0 ++ spawns 0 100 ++ started 0) ++
  [Fill 0] ++ map Sup (dies 0 11 ++ [LMonitor 0 JNone]) ++ [Grab (TMonitor 0)].
Definition unread_net : Net := default net_initial (net_run the_config the_auth net_initial unread_schedule).
Definition takeover_net : Net :=
  default net_initial (net_run the_config the_auth net_initial (unread_schedule ++ map Sup (connects 1 true))).

Lemma unread_reachable : net_reachable the_config the_auth unread_net.
Proof. apply (net_run_reachable the_config the_auth unread_schedule net_initial); [constructor|]. vm_compute. reflexivity. Qed.

Lemma takeover_reachable : net_reachable the_config the_auth takeover_net.
Proof.
  apply (net_run_reachable the_config the_auth (unread_schedule ++ map Sup (connects 1 true)) net_initial); [constructor|].
  vm_compute. reflexivity.
Qed.

(** The newcomer is about to tell the displaced owner. *)
Lemma newcomer : exists k, conns (sys takeover_net) !! 1 = Some k /\ pc k = PNotify (Some 0).
Proof. eexists. split; [vm_compute; reflexivity|reflexivity]. Qed.

(** An owner that does not read delays the handling of a crash: the monitor of a
    core that is gone waits to tell the owner, and until then neither runs the
    [down] hook nor sweeps. *)
Theorem unread_owner_delays_down_hook : net_reachable the_config the_auth unread_net /\
  core (shared (sys unread_net)) = Stopped /\ downs (sys unread_net) = [] /\ unread unread_net 0 /\
  mpc <$> monitors (sys unread_net) !! 0 = Some (MPushTo (Some 0) {| code := None; signal := Some 11%Z |}) /\
  forall j, nstep the_config the_auth unread_net (Sup (LMonitor 0 j)) = None.
Proof.
  split; [exact unread_reachable|]. split_and!; try (vm_compute; reflexivity).
  split; [apply (bool_decide_eq_true_1 (0 ∈ full unread_net))|]; vm_compute; reflexivity.
Qed.

Lemma only_unread_sockets_block_witness : mpc <$> monitors (sys unread_net) !! 0 =
    Some (MPushTo (Some 0) {| code := None; signal := Some 11%Z |}) /\
  (can_move the_config the_auth unread_net (TMonitor 0) \/ awaits the_config the_auth unread_net (TMonitor 0)).
Proof.
  split; [vm_compute; reflexivity|].
  destruct (only_unread_sockets_block the_config the_auth unread_net unread_reachable) as [_ H]; [vm_compute; reflexivity|].
  apply (H 0 {| mpid := 100; vars := monitor_init;
    mpc := MPushTo (Some 0) {| code := None; signal := Some 11%Z |}; lost := false |});
    [vm_compute; reflexivity|discriminate|discriminate].
Defined.

Lemma takeover_is_not_wedged_witness : writers takeover_net !! 0 = Some (TMonitor 0) /\
  forall l n', thread_of l = Some (TConn 1) -> nstep the_config the_auth takeover_net (Sup l) = Some n' ->
    forall t, writers n' !! 0 = Some t -> can_move the_config the_auth n' t.
Proof.
  split; [vm_compute; reflexivity|].
  destruct newcomer as (k & Hk & Hp).
  assert (Hw : (0 < way_left (pc k))%nat) by (rewrite Hp; cbn; lia).
  assert (He : exited (sys takeover_net) = None) by (vm_compute; reflexivity).
  destruct (takeover_is_not_wedged the_config the_auth takeover_net 1 k takeover_reachable He Hk Hw) as [_ H].
  intros l n' Ht Hs t Hq. destruct (H l n' Ht Hs) as [_ Hg]. exact (Hg 0 t Hp Hq).
Defined.
