(* ===== verification/Races.v ===== *)
(** * Schedules in which the supervisor does not do what its comments say

    Each theorem gives a complete schedule of the threads of [Supervisor] that
    ends in a state a comment of the source excludes. *)

From Stdlib Require Import ZArith Lia Ascii String.
From stdpp Require Import base list strings gmap.
From S2P Require Import Prelude RustStr Json JsonText Proto ClientProto Config Auth Hooks CoreProc Janitor Server Supervisor Schedules.
Import Proto.

Open Scope string_scope.

Import Schedule.

(** ** The no-owner timer during a disconnect *)

(** The owner's session ends just before the 30 s mark; the core takes a moment to
    die of SIGTERM; the timer sees no owner. *)
Definition timer_schedule : list Label :=
  connects 0 false ++ greeted 0 ++ spawns 0 100 ++ started 0 ++
  [LTick 29000; LConn 0 eof; LConn 0 INone; LConn 0 INone; LConn 0 INone] ++ polls 0 ++
  [LTick 1000; LTimer; LTimer].

(** The no-owner timer can end the supervisor in the middle of an owner's
    disconnect: the process has exited, the core it had asked to stop is still
    running, and no [down] hook was run. *)
Theorem timer_exit_orphans_core :
  exists s, reachable s /\ exited s = Some 0%Z /\ alive_cores s = [100%Z] /\ downs s = [].
Proof. schedule timer_schedule. split_and!; reflexivity. Qed.

(** ** Two [stop]s of one core *)

(** The owner's [stop] is waiting for the core to die when another client takes
    over and sends [stop] as well. *)
Definition two_stops_schedule : list Label :=
  connects 0 false ++ greeted 0 ++ spawns 0 100 ++ started 0 ++
  [LConn 0 (line_of ClientProto.Cmd.Stop); LConn 0 INone] ++
  connects 1 true ++ greeted_over 1 ++
  [LConn 1 (line_of ClientProto.Cmd.Stop); LConn 1 INone] ++
  dies 0 15 ++
  [LConn 0 INone; LConn 0 (IScript true); LConn 1 INone; LConn 1 (IScript true)].

(** One core death can run the [down] hook twice: one core was ever spawned,
    and two [down] hooks with the reason [requested] were run. *)
Theorem one_death_two_downs :
  exists s, reachable s /\ length (procs s) = 1%nat /\
    downs s = [Some Requested; Some Requested].
Proof. schedule two_stops_schedule. split; reflexivity. Qed.

(** ** A new owner during the previous owner's exit *)

(** The owner disconnects with no core running; before it has swept and exited, a
    second client gets the lease and starts a core. *)
Definition new_owner_schedule : list Label :=
  connects 0 false ++ greeted 0 ++ [LConn 0 eof; LConn 0 INone; LConn 0 INone; LConn 0 INone;
    LConn 0 (IPs true); LConn 0 (IScript true)] ++
  connects 1 false ++ greeted 1 ++ spawns 1 100 ++ started 1 ++ [LConn 0 INone].

(** The exit path can run while somebody else owns the supervisor: the process
    has exited with a second connection holding the lease, told that its core had
    started, and that core still running. *)
Theorem exit_under_new_owner :
  exists s, reachable s /\ exited s = Some 0%Z /\ alive_cores s = [100%Z] /\
    option_map conn (owner (shared s)) = Some 1%nat /\
    last (wire_of 1 s) = Some (Event.CoreStarted 100 50321).
Proof. schedule new_owner_schedule. split_and!; reflexivity. Qed.

(** The same, with the sweep after the second client's [start]. *)
Definition swept_owner_schedule : list Label :=
  connects 0 false ++ greeted 0 ++ [LConn 0 eof; LConn 0 INone; LConn 0 INone; LConn 0 INone] ++
  connects 1 false ++ greeted 1 ++ spawns 1 100 ++ started 1 ++
  [LConn 0 (IPs true); LConn 0 (IKill true); LConn 0 (IScript true)].

(** The sweep of the exit path can kill the core of the supervisor's current
    owner. *)
Theorem exit_sweep_kills_owned_core :
  exists s, reachable s /\ option_map conn (owner (shared s)) = Some 1%nat /\
    map status (procs s) = [PZombie 9] /\
    core (shared s) = Running {| pid := 100; rpc_port := 50321; stop_requested := false |} /\
    downs s = [Some Hooks.Janitor].
Proof. schedule swept_owner_schedule. split_and!; reflexivity. Qed.

(** ** A pid between [ps] and [kill] *)

(** The sweep of the exit path lists an orphan; the orphan ends, its parent reaps
    it, and another program is given its pid before the sweep comes to the kill. *)
Definition recycled_schedule : list Label :=
  LForeign 77 (core_path the_config ++ " --daemon") ::
  connects 0 false ++ greeted 0 ++
  [LConn 0 eof; LConn 0 INone; LConn 0 INone; LConn 0 INone; LConn 0 (IPs true);
   LDies 0 0; LForeignReap 0; LForeign 77 "/usr/bin/vim notes.txt"; LConn 0 (IKill true)].

(** A sweep can kill a program that is not a core: the pid it read from [ps]
    may belong to another process by the time of its [kill]. *)
Theorem sweep_kills_recycled_pid :
  exists s, reachable s /\ map (fun p => (ppid p, cmdline p, status p)) (procs s) =
    [(77%Z, core_path the_config ++ " --daemon", PReaped);
     (77%Z, "/usr/bin/vim notes.txt", PZombie 9)].
Proof. schedule recycled_schedule. reflexivity. Qed.

(** ** A push before the greeting *)

(** The core dies between a takeover and the [hello] reply to the new owner. *)
Definition early_push_schedule : list Label :=
  connects 0 false ++ greeted 0 ++ spawns 0 100 ++ started 0 ++
  connects 1 true ++ [LConn 1 (ITryLock true)] ++
  dies 0 11 ++ [LMonitor 0 JNone; LMonitor 0 JNone; LConn 1 INone; LConn 1 INone].

(** The first event a new owner receives need not be the [hello] reply: a
    [core_exited] push can come before it. *)
Theorem push_before_hello :
  exists s, reachable s /\
    wire_of 1 s = [Event.CoreExited None (Some 11%Z);
                   Event.Hello 1 "0.1.0" CoreState.Stopped None].
Proof. schedule early_push_schedule. reflexivity. Qed.

(** ** A [stop] that waits for the wrong core *)

(** The owner's [stop] is waiting when another client takes over; the core dies
    and the new owner starts one before the waiting thread has looked. *)
Definition stale_stop_schedule : list Label :=
  connects 0 false ++ greeted 0 ++ spawns 0 100 ++ started 0 ++
  [LConn 0 (line_of ClientProto.Cmd.Stop); LConn 0 INone] ++
  connects 1 true ++ greeted_over 1 ++ dies 0 15 ++ spawns 1 101 ++ started 1 ++
  [LConn 0 INone; LConn 0 INone] ++ dies 1 11 ++ [LConn 0 INone; LConn 0 (IScript true)].

(** A [stop] that was displaced while it waited outlives the core it stopped:
    it waits for the next owner's core, whose crash, never requested, then runs a
    [down] hook with the reason [requested]. *)
Theorem stale_stop_runs_down :
  exists s, reachable s /\ map ppid (procs s) = [100%Z; 101%Z] /\ requested s = [0%nat] /\
    mpc <$> monitors s !! 1%nat = Some (MPush {| code := None; signal := Some 11%Z |}) /\
    downs s = [Some Requested].
Proof. schedule stale_stop_schedule. split_and!; reflexivity. Qed.

(** ** A [try_wait] that fails *)

(** The monitor of a running core gets an error from [try_wait]; it clears the state
    and ends, and the owner starts a core again. *)
Definition failed_wait_schedule : list Label :=
  connects 0 false ++ greeted 0 ++ spawns 0 100 ++ started 0 ++ [LMonitor 0 (JTryWait false); LMonitor 0 JNone] ++
  spawns 0 101 ++ started 0.

(** After a failed [try_wait] the state says [Stopped] although the core runs, and
    the next [start] spawns a second one beside it. *)
Theorem failed_wait_two_cores :
  exists s, reachable s /\ alive_cores s = [100%Z; 101%Z] /\
    core (shared s) = Running {| pid := 101; rpc_port := 50321; stop_requested := false |}.
Proof. schedule failed_wait_schedule. split; reflexivity. Qed.
