(* ===== verification/Lives.v ===== *)
(** * Supervisors, one after the other: [supervisor/src/main.rs] around [Supervisor]

    The process as the operating system sees it: its accept loops, the ways it
    ends (exit, panic, a signal from outside), what becomes of the processes it
    leaves behind, and the next supervisor, whose [main] sweeps before it serves. *)

From Stdlib Require Import ZArith Lia Ascii String.
From stdpp Require Import base list strings gmap.
From S2P Require Import Prelude RustStr Json JsonText Proto ClientProto Config Auth Hooks CoreProc Janitor Main Server Supervisor Schedules ProcInv LockInv Causes Sweeps.

Open Scope string_scope.

(** ** The process *)

Inductive Ending : Type :=
| ByExit (code : Z)
| ByPanic
| BySignal.

(** No supervisor runs, because of how the last one ended if there was one; or one
    serves with so many accept loops left. *)
Inductive Phase : Type :=
| Absent (why : option Ending)
| Serving (loops : nat).

(** [sys] is the supervisor that serves, or the last one, with the process table of
    the machine; [past] the processes in it that earlier supervisors spawned. *)
Record Life : Type := { sys : Sys; phase : Phase; past : list nat }.

Definition with_sys (s : Sys) (L : Life) : Life := {| sys := s; phase := phase L; past := past L |}.
Definition with_phase (p : Phase) (L : Life) : Life := {| sys := sys L; phase := p; past := past L |}.

Inductive Move : Type :=
| Own (l : Label)         (* a step of the threads or of the environment *)
| AcceptFails             (* an accept loop breaks *)
| MainReturns             (* every accept loop was joined *)
| Dies (how : Ending).    (* a panic, or a signal from outside *)

(** What happens on the machine while no supervisor runs. Zombies whose parent is
    gone are reaped by launchd. *)
Inductive Fate : Type :=
| Ends (i : nat) (status : Z)
| IsReaped (i : nat)
| Starts (pid : Z) (cmdline : string).

(** A start of the program: its command line and what [Main.main] asks the
    operating system. *)
Record Boot : Type := {
  argv : list string;
  launch_activate_socket : string -> Z * list Z;
  os_error : Z -> io_error;
  bind : string -> result Z io_error;
  lstat : string -> result Metadata io_error;
  read_to_string : string -> result string io_error;
  toml_from_str : string -> result Config string;
  geteuid : Z;
  self : Z;
  ps_out : result string string;
  kill : Z -> KillAnswer
}.

Definition booted (b : Boot) : Startup :=
  main (launch_activate_socket b) (os_error b) (bind b) (lstat b) (read_to_string b)
    (toml_from_str b) (geteuid b) (self b) (ps_out b) (kill b) (argv b).

(** The process table after the sweep of [main], if it came to it. *)
Definition boot_table (b : Boot) (ps : list Proc) : list Proc :=
  match Main.swept (booted b) with
  | Some sw => map (hit_by (among (signalled sw) (is_killed (kill b)))) ps
  | None => ps
  end.

Definition disown (q : Proc) : Proc :=
  {| ppid := ppid q; cmdline := cmdline q; ours := false; status := status q |}.

Fixpoint own_indices (ps : list Proc) (i : nat) : list nat :=
  match ps with
  | [] => []
  | q :: ps => if ours q then i :: own_indices ps (S i) else own_indices ps (S i)
  end.

Section Lives.
Context {SJ : SerdeJson} (config : Config) (auth : AuthMode).

Abbreviation swept_by := (Supervisor.swept config).

Definition is_accept (l : Label) : bool := match l with LAccept _ => true | _ => false end.

(** One move of a supervisor that serves. *)
Definition move (L : Life) (m : Move) : option Life :=
  match phase L with
  | Absent _ => None
  | Serving loops =>
      match m with
      | Own l =>
          if is_accept l && (loops =? 0)%nat then None else
          match step config auth (sys L) l with
          | Some s => Some {| sys := s;
                              phase := match exited s with
                                       | Some code => Absent (Some (ByExit code))
                                       | None => Serving loops
                                       end;
                              past := past L |}
          | None => None
          end
      | AcceptFails => match loops with S n => Some (with_phase (Serving n) L) | O => None end
      | MainReturns => match loops with O => Some (with_phase (Absent (Some (ByExit 0))) L) | S _ => None end
      | Dies how => match how with ByExit _ => None | _ => Some (with_phase (Absent (Some how)) L) end
      end
  end.

Definition fate (L : Life) (f : Fate) : option Life :=
  let set ps := Some (with_sys (with_procs ps (sys L)) L) in
  let ps := procs (sys L) in
  match phase L with
  | Serving _ => None
  | Absent _ =>
      match f with
      | Ends i st => match status <$> ps !! i with
                     | Some PAlive => set (alter (set_status (PZombie st)) i ps)
                     | _ => None
                     end
      | IsReaped i => match status <$> ps !! i with
                      | Some (PZombie _) => set (alter (set_status PReaped) i ps)
                      | _ => None
                      end
      | Starts p cmd =>
          if pid_free p (sys L)
          then set (ps ++ [{| ppid := p; cmdline := cmd; ours := false; status := PAlive |}])%list
          else None
      end
  end.

(** A start that does not come to serve, but may have swept. *)
Definition fails_to_serve (b : Boot) (L : Life) : Life :=
  with_sys (with_procs (boot_table b (procs (sys L))) (sys L)) L.

(** [main] up to its accept loops: a fresh [Shared], one loop per listener. The hook
    its sweep may have started runs beside it and is waited for by nobody. *)
Definition serves (b : Boot) (listeners : list Z) (L : Life) : Life :=
  let ps := boot_table b (procs (sys L)) in
  {| sys := with_procs (map disown ps) initial;
     phase := Serving (length listeners);
     past := (past L ++ own_indices ps 0)%list |}.

(** The sweep of a start can do its work: [ps] runs and lists the processes there
    are, and signals to cores are permitted. *)
Definition sees (b : Boot) (ps : list Proc) : Prop :=
  exists o, ps_out b = Ok o /\ lists config (self b) ps (lines (from_utf8_lossy o)) /\
    forall q, q ∈ ps -> swept_by q = true -> kill b (ppid q) = Killed.

Definition absent (L : Life) : Prop := exists why, phase L = Absent why.

Definition before_all : Life := {| sys := initial; phase := Absent None; past := [] |}.

(** Supervisors with this configuration, each started when the one before it has
    ended, however it did; in a [full] history every sweep could do its work. *)
Inductive lived (full : bool) : Life -> Prop :=
| lived_none : lived full before_all
| lived_move L m L' : lived full L -> move L m = Some L' -> lived full L'
| lived_fate L f L' : lived full L -> fate L f = Some L' -> lived full L'
| lived_fails L b : lived full L -> absent L ->
    (forall c a ls, outcome (booted b) <> Serve c a ls) -> lived full (fails_to_serve b L)
| lived_serves L b ls : lived full L -> absent L -> outcome (booted b) = Serve config auth ls ->
    (full = true -> sees b (procs (sys L))) -> lived full (serves b ls L).

(** A process of the table that a supervisor spawned. *)
Definition a_core (L : Life) (i : nat) (q : Proc) : Prop :=
  procs (sys L) !! i = Some q /\ (ours q = true \/ i ∈ past L).

(** ** The process table *)

(** Grown older, none added. *)
Definition aged (ps ps' : list Proc) : Prop := length ps' = length ps /\ ages ps ps'.

Lemma aged_back ps ps' i p' : aged ps ps' -> ps' !! i = Some p' -> exists p, ps !! i = Some p /\ older p p'.
Proof.
  intros [Hl Ha] Hi. destruct (ps !! i) as [p|] eqn:Hp.
  - destruct (Ha i p Hp) as (p2 & Hp2 & Ho). exists p. split; [done|]. congruence.
  - apply lookup_ge_None_1 in Hp. apply lookup_lt_Some in Hi. lia.
Qed.

Lemma older_alive p p' : older p p' -> status p' = PAlive -> status p = PAlive.
Proof.
  intros (_ & _ & H) Ha. destruct (status p) eqn:E; [done|destruct H; congruence|subst p'; congruence].
Qed.

Lemma aged_refl ps : aged ps ps.
Proof. split; [done|apply ages_refl]. Qed.

Lemma aged_alter f i ps : (forall p, ps !! i = Some p -> older p (f p)) -> aged ps (alter f i ps).
Proof. intros H. split; [by rewrite length_alter|by apply ages_alter]. Qed.

Lemma aged_hits f ps : aged ps (map (hit_by f) ps).
Proof.
  split; [apply length_map|]. intros i p Hp. exists (hit_by f p). split.
  - change (map ?g ?l) with (g <$> l). by rewrite list_lookup_fmap, Hp.
  - unfold hit_by. case_match; [apply killed_older|apply older_refl].
Qed.

Lemma boot_aged b ps : aged ps (boot_table b ps).
Proof. unfold boot_table. destruct (Main.swept (booted b)); auto using aged_hits, aged_refl. Qed.

(** Every child is a core; a pid comes back only after its process was reaped. *)
Record table_ok (ps : list Proc) : Prop := {
  t_core i q : ps !! i = Some q -> ours q = true -> exists port, cmdline q = core_line config port;
  t_fresh i j p q : (i < j)%nat -> ps !! i = Some p -> ps !! j = Some q -> ppid p = ppid q -> status p = PReaped
}.

Lemma table_aged ps ps' : table_ok ps -> aged ps ps' -> table_ok ps'.
Proof.
  intros [H1 H2] Ha. constructor.
  - intros i q' Hq Ho. destruct (aged_back _ _ _ _ Ha Hq) as (q & Hq0 & _ & [E1 E2] & _).
    rewrite E2. apply (H1 i q Hq0). congruence.
  - intros i j p' q' Hij Hp Hq Epid. destruct (aged_back _ _ _ _ Ha Hp) as (p & Hp0 & Ep & _ & Hs).
    destruct (aged_back _ _ _ _ Ha Hq) as (q & Hq0 & Eq & _).
    pose proof (H2 i j p q Hij Hp0 Hq0 ltac:(congruence)) as Hr. rewrite Hr in Hs. by subst p'.
Qed.

Lemma free_spec p s i q : pid_free p s = true -> procs s !! i = Some q -> ppid q = p -> status q = PReaped.
Proof.
  intros Hf Hq Hp. apply reaped_status, not_true_iff_false. intros Hu. unfold pid_free in Hf.
  rewrite forallb_forall in Hf. specialize (Hf q). rewrite Hu, Hp, Z.eqb_refl in Hf. cbn in Hf.
  discriminate Hf. apply list_elem_of_In. by eapply list_elem_of_lookup_2.
Qed.

Lemma table_app s q : table_ok (procs s) -> pid_free (ppid q) s = true ->
  (ours q = true -> exists port, cmdline q = core_line config port) -> table_ok (procs s ++ [q]).
Proof.
  intros [H1 H2] Hf Hc. constructor.
  - intros i q'. rewrite lookup_app_Some. intros [Hq|[_ Hq]]; [eauto|].
    apply list_lookup_singleton_Some in Hq as [_ <-]. done.
  - intros i j p q' Hij. rewrite !lookup_app_Some. intros [Hp|[Hi _]] [Hq|[Hj Hq]] Epid.
    + eauto.
    + apply list_lookup_singleton_Some in Hq as [_ <-]. by eapply free_spec.
    + apply lookup_lt_Some in Hq. lia.
    + apply list_lookup_singleton_Some in Hq as [Hq _]. lia.
Qed.


(** ** One step of a supervisor *)

(** What a step does to the table: processes grow older, and one may be added. *)
Definition tabled (s s' : Sys) : Prop :=
  aged (procs s) (procs s') \/
  exists q, procs s' = (procs s ++ [q])%list /\ pid_free (ppid q) s = true /\
    (ours q = true -> exists port, cmdline q = core_line config port).

Lemma tabled_same s s' : procs s' = procs s -> tabled s s'.
Proof. intros E. left. rewrite E. apply aged_refl. Qed.

Lemma tabled_kill p ok s s1 hit : kill_pid p ok s = (s1, hit) -> aged (procs s) (procs s1).
Proof.
  intros H. split; [|by eapply kill_ages]. destruct (kill_pid_procs p ok s) as (ps & E & Hps).
  rewrite H in E. cbn in E. subst s1. destruct Hps as [->|(i & _ & ->)]; [done|]. apply length_alter.
Qed.

Lemma tabled_send i p sg s : aged (procs s) (procs (send_signal i p sg s)).
Proof.
  split; [|apply send_ages]. unfold send_signal. destruct sg, (holder p (procs s) 0); try done. apply length_alter.
Qed.

Lemma tabled_start c env s : spawn_possible env s = true -> tabled s (do_start config c env s).
Proof.
  unfold do_start. intros [_ Hs]%andb_prop.
  destruct (start_locked config env (shared s)) as [st [[|p q cmd]|]] eqn:Hl; [by apply tabled_same| |by apply tabled_same].
  unfold start_locked, build_command in Hl. destruct (core (shared s)); [|done].
  repeat (case_match; simplify_eq/=). right. eexists. split; [reflexivity|]. split; [by breflect|].
  intros _. by eexists.
Qed.

Lemma conn_step_tabled c k i s s' : conn_step config auth c k i s = Some s' -> tabled s s'.
Proof.
  unfold conn_step. destruct (pc k), i; try done; repeat case_match; intros; simplify_eq;
    try (apply tabled_same; cbn; by rewrite ?end_sweep_procs, ?write_all_procs, ?lease_procs, ?turn_procs, ?fire_procs,
      ?stop_procs).
  - exact (tabled_start c env s H).
  - left. exact (tabled_kill _ _ _ _ _ H0).
Qed.

Lemma monitor_step_tabled i m x s s' : monitor_step config i m x s = Some s' -> tabled s s'.
Proof.
  intros H. left. split; [|by eapply monitor_step_ages]. revert H. unfold monitor_step.
  destruct (mpc m) as [| | |stop| |info|info|to info| | | |[|p ps] n|], x as [|[]| | |]; try done.
  - destruct (procs s !! i) as [p|] eqn:Hi; cbn; [|done].
    destruct (status p); intros [= <-]; [done|]. cbn. apply length_alter.
  - by intros [= <-].
  - by intros [= <-].
  - destruct (escalate _ _ _) as [[sg|] v]; intros [= <-]; [apply (tabled_send i (mpid m) sg s)|done].
  - by intros [= <-].
  - destruct (handle_core_exit_locked _ _) as [st expected]. by intros [= <-].
  - by intros [= <-].
  - intros [= <-]. by destruct to.
  - intros [= <-]. cbn. by rewrite fire_procs.
  - intros [= <-]. by destruct (is_stopped (shared s)).
  - by intros [= <-].
  - intros [= <-]. cbn. by rewrite end_sweep_procs.
  - destruct (kill_pid p ok s) as [s1 hit] eqn:Hk. intros [= <-]. by apply (tabled_kill _ _ _ _ _ Hk).
Qed.

Lemma step_tabled s l s' : step config auth s l = Some s' -> tabled s s'.
Proof.
  intros Hst. pose proof (step_ages config auth s l s' Hst) as Ha. revert Hst.
  unfold step. destruct (exited s); [done|]. destruct l as [p|c i|i x| |ms|i st|p cmd|i|h].
  - intros [= <-]. by apply tabled_same.
  - repeat case_match; try done. apply conn_step_tabled.
  - repeat case_match; try done. apply monitor_step_tabled.
  - unfold timer_step. repeat case_match; intros; simplify_eq; by apply tabled_same.
  - case_match; intros; simplify_eq; by apply tabled_same.
  - repeat case_match; try done. intros [= <-]. left. split; [apply length_alter|done].
  - destruct (pid_free p s) eqn:Hf; [|done]. intros [= <-]. right. eexists. split; [reflexivity|]. by split.
  - repeat case_match; try done. intros [= <-]. left. split; [apply length_alter|done].
  - intros [= <-]. by apply tabled_same.
Qed.

Lemma tabled_ok s s' : tabled s s' -> table_ok (procs s) -> table_ok (procs s').
Proof.
  intros [Ha|(q & -> & Hf & Hc)] H; [by eapply table_aged|by apply table_app].
Qed.

(** ** A supervisor starts among the processes there are *)

Lemma disown_view ps : table_ok ps -> forall i j p q, (i < j)%nat ->
  map disown ps !! i = Some p -> map disown ps !! j = Some q -> ppid p = ppid q -> status p = PReaped.
Proof.
  intros [_ H2] i j p q Hij. change (map disown ps) with (disown <$> ps). rewrite !list_lookup_fmap.
  destruct (ps !! i) as [p0|] eqn:Hp, (ps !! j) as [q0|] eqn:Hq; try done. cbn. intros [= <-] [= <-] E.
  exact (H2 i j p0 q0 Hij Hp Hq E).
Qed.

(** The steps of the environment that put a process into the table. *)
Definition placed (i : nat) (q : Proc) : list Label :=
  Supervisor.LForeign (ppid q) (cmdline q) ::
  match status q with
  | PAlive => []
  | PZombie st => [LDies i st]
  | PReaped => [LDies i 0; LForeignReap i]
  end.

Lemma placed_run ps q : pid_free (ppid q) (with_procs ps initial) = true -> ours q = false ->
  run config auth (with_procs ps initial) (placed (length ps) q) = Some (with_procs (ps ++ [q]) initial).
Proof.
  intros Hf Ho. unfold placed. cbn [run]. unfold step at 1. cbn [exited with_procs initial].
  change (procs (with_procs ps initial)) with ps.
  assert (Hl : forall r, (ps ++ [r])%list !! length ps = Some r) by (intros r; by apply list_lookup_middle).
  assert (Hal : forall f r, alter f (length ps) (ps ++ [r])%list = (ps ++ [f r])%list).
  { intros f r. rewrite <- (Nat.add_0_r (length ps)), alter_app_r. done. }
  change {| shared := shared initial; held := _; next_id := _; conns := _; procs := ps; monitors := _; cur := _;
    requested := _; sent := _; fired := _; hooks := _; timer := _; now := _; exited := _ |} with (with_procs ps initial).
  rewrite Hf. destruct q as [p cmd o st]. cbn in Ho. subst o. destruct st as [|st|]; cbn [run status ppid cmdline].
  - done.
  - unfold step. cbn. rewrite Hl. cbn. by rewrite Hal.
  - unfold step. cbn. rewrite Hl. cbn. rewrite Hal. cbn. rewrite Hl. cbn. by rewrite Hal.
Qed.

Lemma inherited_reachable ps : Forall (fun q => ours q = false) ps ->
  (forall i j p q, (i < j)%nat -> ps !! i = Some p -> ps !! j = Some q -> ppid p = ppid q -> status p = PReaped) ->
  reachable config auth (with_procs ps initial).
Proof.
  induction ps as [|q ps IH] using rev_ind; intros Ho Hf; [constructor|].
  apply Forall_app in Ho as [Hps [Hq _]%Forall_cons_1].
  eapply run_reachable; [apply IH; [done|]|apply placed_run; [|exact Hq]].
  - intros i j p r Hij Hi Hj. apply (Hf i j); [done|by apply lookup_app_l_Some..].
  - unfold pid_free. apply forallb_forall. cbn. intros r Hr. apply list_elem_of_In, list_elem_of_lookup_1 in Hr as [i Hr].
    apply negb_true_iff, not_true_iff_false. intros [Hu Hp%Z.eqb_eq]%andb_prop.
    assert (Hrd : status r = PReaped).
    { apply (Hf i (length ps) r q); [by eapply lookup_lt_Some|by apply lookup_app_l_Some|by apply list_lookup_middle|done]. }
    unfold unreaped in Hu. by rewrite Hrd in Hu.
Qed.

(** ** What the sweep of a start does *)

Lemma served_swept b c a ls : outcome (booted b) = Serve c a ls ->
  Main.swept (booted b) = Some (the_sweep c a (self b) (ps_out b) (kill b) (lstat b)).
Proof.
  unfold booted, main. destruct (parse_args (argv b)) as [args|[]]; [|done..].
  destruct (load _ _ _ _ _); [|done]. cbn. destruct (snd (obtain_listeners _ _ _ _)); [|done].
  by intros [= <- <- _].
Qed.

Lemma table_uniq ps : table_ok ps -> uniq ps.
Proof.
  intros [_ H] i j p o1 o2 Hi Hj.
  destruct (ps !! i) as [q|] eqn:Eq, (ps !! j) as [r|] eqn:Er; try done. cbn in *. unfold pview in *. simplify_eq.
  destruct (Nat.lt_trichotomy i j) as [Hlt|[Hlt|Hlt]]; [exfalso|done|exfalso].
  - assert (Hd : status q = PReaped) by (by apply (H i j q r)). unfold unreaped in *. rewrite Hd in *. done.
  - assert (Hd : status r = PReaped) by (by apply (H j i r q)). unfold unreaped in *. rewrite Hd in *. done.
Qed.

Lemma among_perm ts ts' f p : Permutation ts ts' -> among ts f p = among ts' f p.
Proof.
  intros Hp. apply eq_true_iff_eq. unfold among. rewrite !existsb_exists.
  by setoid_rewrite <- list_elem_of_In; setoid_rewrite Hp.
Qed.

Section Sweep.
Context (b : Boot) (listeners : list Z) (ps : list Proc) (o : string).
Context (Hserves : outcome (booted b) = Serve config auth listeners) (Htable : table_ok ps).
Context (Hps : ps_out b = Ok o) (Hlists : lists config (self b) ps (lines (from_utf8_lossy o))).

Abbreviation sweep := (the_sweep config auth (self b) (ps_out b) (kill b) (lstat b)).

Lemma boot_agrees : Permutation (signalled sweep) (map ppid (List.filter swept_by ps)) /\
  killed sweep = length (List.filter (is_killed (kill b)) (map ppid (List.filter swept_by ps))).
Proof using Hps Hlists.
  pose proof (agrees config auth (self b) (ps_out b) (kill b) (lstat b) (with_procs ps initial)) as H.
  unfold ps_output_ok, targets in H. rewrite Hps in *. exact (H Hlists).
Qed.

Lemma boot_kills : boot_table b ps = after_kills config (is_killed (kill b)) ps.
Proof using Hserves Htable Hps Hlists.
  unfold boot_table. rewrite (served_swept _ _ _ _ Hserves).
  etrans; [|apply (kills_targets config (is_killed (kill b)) (with_procs ps initial)); by apply table_uniq].
  apply map_ext. intros q. unfold hit_by. by rewrite (among_perm _ _ _ _ (proj1 boot_agrees)).
Qed.

End Sweep.

Lemma sweep_hook c a me out k lst :
  down_hook (the_sweep c a me out k lst) =
  if (0 <? killed (the_sweep c a me out k lst))%nat then (run_hook lst c a Down (Some Hooks.Janitor)).1 else None.
Proof.
  unfold the_sweep, sweep_orphans. destruct out as [o|]; [|done].
  destruct (sweep_lines _ _ _ _ _ _ _ _) as [[n sent] out]. destruct (Nat.ltb 0 n) eqn:Hn.
  - destruct (run_hook _ _ _ _ _) as [job errs]. cbn [killed down_hook fst]. by rewrite Hn.
  - cbn [killed down_hook]. by rewrite Hn.
Qed.

Lemma killed_some f ps : (0 <? length (List.filter f (map ppid (List.filter swept_by ps))))%nat =
  existsb (fun q => swept_by q && f (ppid q)) ps.
Proof.
  induction ps as [|q ps IH]; [done|]. cbn [List.filter existsb]. destruct (swept_by q); cbn; [|done].
  by destruct (f (ppid q)).
Qed.

(** ** The invariant of all lives *)

Context (core_path_absolute : starts_with "/" (core_path config) = true).

Lemma core_is_swept q port : status q = PAlive -> cmdline q = core_line config port -> swept_by q = true.
Proof using core_path_absolute.
  intros Ha Hc. unfold Supervisor.swept. rewrite Ha, Hc. apply argv0_matches_iff. right. eexists.
  apply starts_with_spec in core_path_absolute as [rest Hr]. unfold core_line. cbn [String.concat].
  rewrite Hr. cbn [String.append]. by rewrite trim_start_solid.
Qed.

Definition was_core (q : Proc) : Prop := exists port, cmdline q = core_line config port.

(** A process an earlier supervisor spawned. *)
Definition left_over (full : bool) (q : Proc) : Prop := was_core q /\ (full = true -> status q <> PAlive).

Lemma left_over_older full q q' : left_over full q -> older q q' -> left_over full q'.
Proof.
  intros [[port Hc] Hd] Ho. split; [exists port; by destruct Ho as (_ & [_ ->] & _)|].
  intros Hf Ha. by apply Hd, (older_alive q q').
Qed.

Record sane (full : bool) (L : Life) : Prop := {
  sn_table : table_ok (procs (sys L));
  sn_run loops : phase L = Serving loops -> reachable config auth (sys L);
  sn_past i : i ∈ past L -> exists q, procs (sys L) !! i = Some q /\ left_over full q;
  sn_one i p : procs (sys L) !! i = Some p -> ours p = true -> status p = PAlive ->
    lost_at (sys L) i \/ i = cur (sys L)
}.

Lemma past_ages full ps ps' (xs : list nat) : ages ps ps' ->
  (forall i, i ∈ xs -> exists q, ps !! i = Some q /\ left_over full q) ->
  forall i, i ∈ xs -> exists q, ps' !! i = Some q /\ left_over full q.
Proof.
  intros Ha H i Hi. destruct (H i Hi) as (q & Hq & Hs). destruct (Ha i q Hq) as (q' & Hq' & Ho).
  exists q'. split; [done|]. by eapply left_over_older.
Qed.

(** The table of an absent supervisor grows older. *)
Lemma sane_aged full L ps : sane full L -> absent L -> aged (procs (sys L)) ps -> sane full (with_sys (with_procs ps (sys L)) L).
Proof.
  intros [H1 H2 H3 H4] [why Hw] Ha. constructor; cbn.
  - by eapply table_aged.
  - intros loops E. congruence.
  - by eapply past_ages; [apply Ha|].
  - intros i p' Hp Op Ap. destruct (aged_back _ _ _ _ Ha Hp) as (p & Hp0 & Ep).
    apply (H4 i p Hp0); [by destruct Ep as (_ & [<- _] & _)|by eapply older_alive].
Qed.

Lemma sane_phase full L p : sane full L -> (forall n, p = Serving n -> exists m, phase L = Serving m) -> sane full (with_phase p L).
Proof. intros [H1 H2 H3 H4] Hp. constructor; cbn; [done| |done|done]. intros n [m Hm]%Hp. by apply (H2 m). Qed.

Lemma alive_child s i p : reachable config auth s -> procs s !! i = Some p -> ours p = true ->
  status p = PAlive -> lost_at s i \/ i = cur s /\ exists r, core (shared s) = Running r /\ pid r = ppid p.
Proof. intros Hr Hp Ho Ha. apply (unreaped_child config auth); try done. unfold unreaped. by rewrite Ha. Qed.

Lemma sane_move full L m L' : sane full L -> move L m = Some L' -> sane full L'.
Proof.
  intros H. unfold move. destruct (phase L) as [|loops] eqn:Hp; [done|]. destruct m as [l| | |how].
  - destruct (is_accept l && _); [done|]. destruct (step config auth (sys L) l) as [s|] eqn:Hst; [|done].
    intros [= <-]. destruct H as [H1 H2 H3 H4]. assert (Hr : reachable config auth s) by (econstructor; eauto).
    constructor; cbn.
    + by eapply tabled_ok; [eapply step_tabled|].
    + done.
    + eapply past_ages; [by eapply step_ages|done].
    + intros i p Hpi Ho Ha. destruct (alive_child s i p Hr Hpi Ho Ha) as [|[-> _]]; auto.
  - destruct loops; [done|]. intros [= <-]. apply sane_phase; eauto.
  - destruct loops; [|done]. intros [= <-]. by apply sane_phase.
  - destruct how; intros; simplify_eq; by apply sane_phase.
Qed.

Lemma sane_fate full L f L' : sane full L -> fate L f = Some L' -> sane full L'.
Proof.
  intros H. unfold fate. destruct (phase L) as [why|] eqn:Hw; [|done].
  assert (Hab : absent L) by (by exists why). destruct f as [i st|i|p cmd].
  - destruct (procs (sys L) !! i) as [q|] eqn:Hq; cbn; [|done]. destruct (status q) eqn:Hs; try done.
    intros [= <-]. apply sane_aged; [done..|]. apply aged_alter. intros q' Hq'. simplify_eq. unfold older. by rewrite Hs.
  - destruct (procs (sys L) !! i) as [q|] eqn:Hq; cbn; [|done]. destruct (status q) eqn:Hs; try done.
    intros [= <-]. apply sane_aged; [done..|]. apply aged_alter. intros q' Hq'. simplify_eq. unfold older. rewrite Hs. auto.
  - destruct (pid_free p (sys L)) eqn:Hf; [|done]. intros [= <-]. destruct H as [H1 H2 H3 H4]. constructor; cbn.
    + by apply table_app.
    + intros loops E. congruence.
    + eapply past_ages; [apply ages_app|done].
    + intros i q. rewrite lookup_app_Some. intros [Hq|[_ [_ <-]%list_lookup_singleton_Some]]; [|done].
      by apply (H4 i q).
Qed.

Lemma own_indices_spec ps : forall k i, i ∈ own_indices ps k <->
  exists n q, i = (k + n)%nat /\ ps !! n = Some q /\ ours q = true.
Proof.
  induction ps as [|q ps IH]; intros k i; cbn [own_indices].
  - split; [by intros ?%elem_of_nil|]. by intros (n & q & _ & Hq & _).
  - assert (Hr : i ∈ own_indices ps (S k) <-> exists n r, i = (k + S n)%nat /\ ps !! n = Some r /\ ours r = true).
    { rewrite IH. by setoid_rewrite Nat.add_succ_r. }
    destruct (ours q) eqn:Ho; [rewrite elem_of_cons|]; rewrite Hr; split.
    + intros [->|(n & r & H)]; [exists 0%nat, q; split_and!; [lia|done..]|by exists (S n), r].
    + intros ([|n] & r & -> & Hn & Hor); [left; lia|right; by exists n, r].
    + intros (n & r & H). by exists (S n), r.
    + intros ([|n] & r & -> & Hn & Hor); [cbn in Hn; congruence|by exists n, r].
Qed.

(** No core of an earlier supervisor is alive when the next one serves. *)
Lemma swept_dead b ls ps : outcome (booted b) = Serve config auth ls -> table_ok ps -> sees b ps ->
  forall i q, boot_table b ps !! i = Some q -> ours q = true -> status q <> PAlive.
Proof using core_path_absolute.
  intros Hs Ht (o & Ho & Hl & Hk) i q. rewrite (boot_kills b ls ps o) by done. unfold after_kills.
  change (map ?f ps) with (f <$> ps). rewrite list_lookup_fmap. destruct (ps !! i) as [r|] eqn:Hr; [|done].
  cbn. intros [= <-] Hown Hal. destruct (swept_by r) eqn:Hsw; cbn in *.
  - assert (Hkr : kill b (ppid r) = Killed) by (apply Hk; [by eapply list_elem_of_lookup_2|done]).
    unfold is_killed in *. rewrite Hkr in *. cbn in *. unfold killed_proc in *.
    by destruct (status r) eqn:E; cbn in *; rewrite ?E in *.
  - destruct (t_core ps Ht i r Hr Hown) as [port Hc]. by rewrite (core_is_swept r port) in Hsw.
Qed.

Lemma sane_serves full L b ls : sane full L -> outcome (booted b) = Serve config auth ls ->
  (full = true -> sees b (procs (sys L))) -> sane full (serves b ls L).
Proof using core_path_absolute.
  intros [H1 H2 H3 H4] Hs Hsee. pose proof (boot_aged b (procs (sys L))) as Ha.
  pose proof (table_aged _ _ H1 Ha) as Ht. unfold serves. set (ps := boot_table b (procs (sys L))) in *.
  assert (Hno : Forall (fun q => ours q = false) (map disown ps)) by (apply Forall_map, Forall_true; done).
  assert (Hnone : forall i q, map disown ps !! i = Some q -> ours q = true -> False).
  { intros i q Hq Ho. rewrite Forall_lookup in Hno. specialize (Hno i q Hq). cbn in Hno. congruence. }
  constructor; cbn.
  - constructor; [intros i q Hq Ho; by destruct (Hnone i q)|]. by apply disown_view.
  - intros _ _. apply inherited_reachable; [done|by apply disown_view].
  - assert (Hd : forall i q, ps !! i = Some q -> left_over full q ->
      exists q', map disown ps !! i = Some q' /\ left_over full q').
    { intros i q Hq Hd. exists (disown q). split; [|done]. change (map disown ps) with (disown <$> ps).
      by rewrite list_lookup_fmap, Hq. }
    intros i [Hi|Hi]%elem_of_app.
    + destruct (past_ages _ _ _ _ (proj2 Ha) H3 i Hi) as (q & Hq & Hal). by apply (Hd i q).
    + apply own_indices_spec in Hi as (n & q & -> & Hq & Ho). apply (Hd _ q Hq).
      split; [by apply (t_core ps Ht n q)|]. intros Hf.
      by apply (swept_dead b ls (procs (sys L)) Hs H1 (Hsee Hf) n q).
  - intros i p Hp Op. by destruct (Hnone i p).
Qed.

Lemma lived_sane full L : lived full L -> sane full L.
Proof using core_path_absolute.
  induction 1 as [|L m L' _ IH Hm|L f L' _ IH Hf|L b _ IH Ha _|L b ls _ IH Ha Hs Hsee].
  - constructor; cbn; [by constructor|done|by intros i ?%elem_of_nil|done].
  - by eapply sane_move.
  - by eapply sane_fate.
  - apply sane_aged; [done..|]. apply boot_aged.
  - by apply sane_serves.
Qed.

(** ** Properties *)

(** C5: one core at a time, whatever happens to the supervisors: let each of them,
    with the same configuration (whose core path is absolute), end in any state, by
    an exit, a panic or a signal, and the next one start at any later moment; as
    long as the sweep of every start can see the processes and signal them, of all
    the processes any supervisor ever spawned at most one is alive, and while a
    supervisor serves this is the core its shared state records.  Not counted are
    processes whose [try_wait] failed in the current supervisor
    ([Races.failed_wait_two_cores]). *)
Theorem one_core_at_a_time L i j p q : lived true L ->
  a_core L i p -> a_core L j q -> status p = PAlive -> status q = PAlive ->
  lost_at (sys L) i \/ lost_at (sys L) j \/
  i = j /\
  match phase L with
  | Serving _ => exists r, core (shared (sys L)) = Running r /\ pid r = ppid p
  | Absent _ => True
  end.
Proof using core_path_absolute.
  intros HL [Hp Op] [Hq Oq] Ap Aq. destruct (lived_sane _ L HL) as [_ Hrun Hpast Hone].
  assert (Hours : forall n r, procs (sys L) !! n = Some r -> ours r = true \/ n ∈ past L -> status r = PAlive -> ours r = true).
  { intros n r Hr [?|Hn] Ar; [done|]. destruct (Hpast n Hn) as (r' & Hr' & _ & Hd). simplify_eq. by destruct Hd. }
  destruct (Hone i p) as [|Hi]; eauto. destruct (Hone j q) as [|Hj]; eauto.
  assert (Hij : i = j) by congruence.
  destruct (phase L) as [|loops] eqn:Hph; [by right; right|].
  destruct (alive_child (sys L) i p) as [|[_ Hc]]; eauto.
Qed.

(** C6: the next supervisor cleans up after the last one, in whatever state that
    ended: if it comes to serve with the same configuration (whose core path is
    absolute), and [ps] has run and lists the processes there are, its [main] has signalled every core of an earlier
    supervisor that was alive, and nothing but live processes whose command line
    is the core path; exactly those whose signal was permitted are dead by the
    time it serves, and the [down] hook was run, if its script passes the gate,
    if and only if there was one. *)
Theorem next_supervisor_cleans_up full L b ls o : lived full L ->
  outcome (booted b) = Serve config auth ls -> ps_out b = Ok o ->
  lists config (self b) (procs (sys L)) (lines (from_utf8_lossy o)) ->
  exists sw, Main.swept (booted b) = Some sw /\
    (forall i q, a_core L i q -> status q = PAlive -> ppid q ∈ signalled sw) /\
    (forall p, p ∈ signalled sw -> exists q, q ∈ procs (sys L) /\ ppid q = p /\ status q = PAlive /\
       argv0_matches (trim_start (cmdline q)) (core_path config) = true) /\
    boot_table b (procs (sys L)) = after_kills config (is_killed (kill b)) (procs (sys L)) /\
    down_hook sw =
      if existsb (fun q => swept_by q && is_killed (kill b) (ppid q)) (procs (sys L))
      then (run_hook (lstat b) config auth Down (Some Hooks.Janitor)).1 else None.
Proof using core_path_absolute.
  intros HL Hs Hps Hl. destruct (lived_sane full L HL) as [Ht _ Hpast _].
  destruct (boot_agrees b (procs (sys L)) o Hps Hl) as [Hperm Hkilled].
  eexists. split; [by eapply served_swept|]. split_and!.
  - intros i q [Hq Ho] Ha. rewrite Hperm. apply list_elem_of_fmap. exists q. split; [done|].
    apply list_elem_of_In, filter_In. split; [by apply list_elem_of_In; eapply list_elem_of_lookup_2|].
    assert (Hc : was_core q).
    { destruct Ho as [Ho|Hi]; [by apply (t_core _ Ht i q)|]. destruct (Hpast i Hi) as (r & Hr & Hd & _). congruence. }
    destruct Hc as [port Hc]. by apply (core_is_swept q port).
  - intros p. rewrite Hperm. intros (q & -> & Hq)%list_elem_of_fmap. apply list_elem_of_In, filter_In in Hq as [Hq Hsw].
    exists q. split; [by apply list_elem_of_In|]. unfold Supervisor.swept in Hsw. by destruct (status q).
  - by apply (boot_kills b ls (procs (sys L)) o).
  - by rewrite sweep_hook, Hkilled, killed_some.
Qed.

End Lives.

(** ** Witnesses *)

Import Schedule.

Fixpoint moves (L : Life) (ms : list Move) : option Life :=
  match ms with
  | [] => Some L
  | m :: ms => match move the_config the_auth L m with Some L' => moves L' ms | None => None end
  end.

Lemma moves_lived full ms : forall L L', lived the_config the_auth full L -> moves L ms = Some L' ->
  lived the_config the_auth full L'.
Proof.
  induction ms as [|m ms IH]; intros L L' H; cbn [moves]; [by intros [= <-]|].
  destruct (move the_config the_auth L m) as [L1|] eqn:Hm; [|done]. apply IH. by eapply lived_move.
Qed.

(** launchd starts the supervisor of the sample configuration, and [ps] prints this
    text. *)
Definition launchd_start (out : result string string) : Boot := {|
  argv := ["easytier-supervisor"];
  launch_activate_socket := fun _ => (0%Z, [3%Z]);
  os_error := fun _ => IoError Other "no such process";
  bind := fun _ => Ok 4%Z;
  lstat := fun p => if p =? DEFAULT_CONFIG_PATH
                    then Ok {| md_is_file := true; md_uid := 0; md_gid := 0; md_mode := 420 |}
                    else sample_fs p;
  read_to_string := fun _ => Ok "proto = 1";
  toml_from_str := fun _ => Ok the_config;
  geteuid := 0;
  self := 500;
  ps_out := out;
  kill := fun _ => Killed |}.

Lemma launchd_serves out : outcome (booted (launchd_start out)) = Serve the_config the_auth [3%Z].
Proof. vm_compute. reflexivity. Qed.

Definition own_line : string := "  500 /opt/et/bin/easytier-supervisor".
Definition orphan_line : string := "  100 " ++ core_line the_config 50321.

(** A supervisor has started a core and is killed. *)
Definition first_start : Boot := launchd_start (Ok (own_line ++ nl)).
Definition first_life : Life := serves first_start [3%Z] before_all.
Definition crashes : list Move :=
  (map Own (connects 0 false ++ greeted 0 ++ spawns 0 100 ++ started 0) ++ [Dies BySignal])%list.
Definition after_crash : Life := default before_all (moves first_life crashes).

(** The next one starts a core of its own. *)
Definition second_start : Boot := launchd_start (Ok (own_line ++ nl ++ orphan_line ++ nl)).
Definition second_life : Life := serves second_start [3%Z] after_crash.
Definition restarts : list Move :=
  map Own (connects 0 false ++ greeted 0 ++ spawns 0 101 ++ started 0).
Definition after_restart : Life := default before_all (moves second_life restarts).

Lemma first_sees : sees the_config first_start [].
Proof.
  exists (own_line ++ nl). split; [done|]. split; [|by intros q ?%elem_of_nil].
  exists own_line, [], [], []. split; [vm_compute; reflexivity|]. split; [eexists; vm_compute; reflexivity|].
  by repeat constructor.
Qed.

(** The process table the killed supervisor leaves. *)
Definition orphan : Proc :=
  {| ppid := 100; cmdline := core_line the_config 50321; ours := true; status := PAlive |}.

Lemma left_behind : procs (sys after_crash) = [orphan].
Proof. vm_compute. reflexivity. Qed.

Lemma second_lists : lists the_config 500 (procs (sys after_crash))
  (lines (from_utf8_lossy (own_line ++ nl ++ orphan_line ++ nl))).
Proof.
  rewrite left_behind. exists own_line, [], [orphan_line], [orphan]. split; [vm_compute; reflexivity|].
  split; [eexists; vm_compute; reflexivity|]. split; [done|]. split; [|by repeat constructor].
  constructor; [|done]. split; [unfold i32_max; cbn; lia|].
  exists 2, (core_line the_config 50321). split; vm_compute; reflexivity.
Qed.

Lemma after_crash_lived : lived the_config the_auth true after_crash.
Proof.
  apply (moves_lived true crashes first_life); [|vm_compute; reflexivity].
  apply lived_serves; [constructor|by exists None|apply launchd_serves|]. intros _. apply first_sees.
Qed.

Lemma after_restart_lived : lived the_config the_auth true after_restart.
Proof.
  apply (moves_lived true restarts second_life); [|vm_compute; reflexivity].
  apply lived_serves; [apply after_crash_lived|exists (Some BySignal); vm_compute; reflexivity|apply launchd_serves|].
  intros _. exists (own_line ++ nl ++ orphan_line ++ nl). split; [done|]. split; [apply second_lists|].
  by intros q _ _.
Qed.

Definition new_core : Proc :=
  {| ppid := 101; cmdline := core_line the_config 50321; ours := true; status := PAlive |}.

Lemma new_core_is_core : a_core after_restart 1 new_core.
Proof. split; [vm_compute; reflexivity|by left]. Qed.

Lemma one_core_at_a_time_witness :
  map status (procs (sys after_restart)) = [PZombie 9; PAlive] /\ past after_restart = [0%nat] /\
  exists r, core (shared (sys after_restart)) = Running r /\ pid r = 101%Z.
Proof.
  split; [vm_compute; reflexivity|]. split; [vm_compute; reflexivity|].
  assert (Hn : ~ lost_at (sys after_restart) 1).
  { intros (m & Hm & Hl). vm_compute in Hm. injection Hm as <-. discriminate Hl. }
  destruct (one_core_at_a_time the_config the_auth eq_refl after_restart 1 1 new_core new_core
    after_restart_lived new_core_is_core new_core_is_core eq_refl eq_refl) as [H|[H|[_ H]]];
    [destruct (Hn H)..|exact H].
Defined.

Lemma next_supervisor_cleans_up_witness : exists sw,
  Main.swept (booted second_start) = Some sw /\ 100%Z ∈ signalled sw /\
  boot_table second_start (procs (sys after_crash)) = [killed_proc orphan] /\
  down_hook sw <> None.
Proof.
  destruct (next_supervisor_cleans_up the_config the_auth eq_refl true after_crash second_start [3%Z] _
    after_crash_lived (launchd_serves _) eq_refl second_lists) as (sw & Hsw & Hall & _ & Htable & Hdown).
  exists sw. split; [exact Hsw|]. split.
  - apply (Hall 0 orphan); [|reflexivity]. split; [rewrite left_behind; reflexivity|left; reflexivity].
  - rewrite Htable, Hdown, left_behind. split; vm_compute; [reflexivity|discriminate].
Defined.

(** ** A failed [accept] *)

(** The owner has a core running when [accept] fails once, say for want of a free
    descriptor. *)
Definition accept_fails : list Move :=
  (map Own (connects 0 false ++ greeted 0 ++ spawns 0 100 ++ started 0) ++ [AcceptFails; MainReturns])%list.

(** One failed [accept] ends the supervisor under its owner: the loop breaks, [main]
    has nothing left to join and returns, and the process exits with the owner
    still connected, its core running and no [down] hook run. *)
Theorem accept_failure_orphans_core :
  exists L, lived the_config the_auth true L /\ phase L = Absent (Some (ByExit 0)) /\
    option_map conn (owner (shared (sys L))) = Some 0%nat /\ alive_cores (sys L) = [100%Z] /\
    downs (sys L) = [].
Proof.
  exists (default before_all (moves first_life accept_fails)). split; [|by vm_compute].
  apply (moves_lived true accept_fails first_life); [|vm_compute; reflexivity].
  apply lived_serves; [constructor|by exists None|apply launchd_serves|]. intros _. apply first_sees.
Qed.

(** ** A sweep that cannot see *)

Definition blind_start : Boot := launchd_start (Err "Resource temporarily unavailable (os error 35)").

(** When [ps] cannot be run, [main] serves all the same: two cores of the same
    configuration are then alive at a time. *)
Theorem blind_sweep_two_cores :
  exists L, lived the_config the_auth false L /\
    map (fun q => (ppid q, cmdline q, status q)) (procs (sys L)) =
    [(100%Z, core_line the_config 50321, PAlive); (101%Z, core_line the_config 50321, PAlive)].
Proof.
  exists (default before_all (moves (serves blind_start [3%Z] after_crash) restarts)). split; [|by vm_compute].
  assert (Hl : lived the_config the_auth false after_crash).
  { apply (moves_lived false crashes first_life); [|vm_compute; reflexivity].
    apply lived_serves; [constructor|by exists None|apply launchd_serves|done]. }
  apply (moves_lived false restarts (serves blind_start [3%Z] after_crash)); [|vm_compute; reflexivity].
  apply lived_serves; [done|exists (Some BySignal); vm_compute; reflexivity|apply launchd_serves|done].
Qed.
