(* ===== verification/SupervisorClient.v ===== *)
(** * The control client: [bridge/src/supervisor_client.rs]

    The driver task ([run_driver], [connect_and_hello], [run_session]) as a step
    function over its state, its queue of requests and what it has sent and
    answered.  A step is one branch of a [select!], one connection attempt, or a
    call from outside. *)

From Stdlib Require Import ZArith Lia Ascii String.
From stdpp Require Import base list strings.
From S2P Require Import Prelude RustStr Json ClientProto.

Open Scope string_scope.

(** ** Data *)

Definition DEFAULT_SOCKET_PATH : string := "/var/run/easytier.supervisor.sock".

(** In milliseconds. *)
Definition REQUEST_TIMEOUT : Z := 20000.

Definition resolve_socket_path (ET_SUPERVISOR_SOCKET : option string) : string :=
  match ET_SUPERVISOR_SOCKET with Some p => p | None => DEFAULT_SOCKET_PATH end.

Record StartInfo : Type := { si_pid : Z; si_rpc_port : Z }.

Record StatusInfo : Type := {
  st_core : CoreState.CoreState; st_pid : option Z; st_rpc_port : option Z
}.

Module SupervisorEvent.
Inductive SupervisorEvent : Type :=
| Connected (version : string) (core : CoreState.CoreState) (rpc_port : option Z)
| Disconnected
| CoreStarted (pid rpc_port : Z)
| CoreStopped (reason : string)
| CoreExited (code signal : option Z)
| Kicked
| Busy (owner : bool)
| Error (code msg : string).
End SupervisorEvent.

Record SupervisorConfig : Type := {
  socket_path : string;
  takeover : bool;
  initial_backoff : Z;
  max_backoff : Z
}.

(** In milliseconds. *)
Definition default_config (ET_SUPERVISOR_SOCKET : option string) : SupervisorConfig := {|
  socket_path := resolve_socket_path ET_SUPERVISOR_SOCKET;
  takeover := false;
  initial_backoff := 1000;
  max_backoff := 30000
|}.

(** A request and the one-shot channel its caller waits on, named by a ticket. *)
Inductive RequestKind : Type := RStart | RStop | RStatus.

Record Request : Type := { what : RequestKind; ticket : nat }.

Definition cmd (r : Request) : Cmd.Cmd :=
  match what r with RStart => Cmd.Start | RStop => Cmd.Stop | RStatus => Cmd.Status end.

(** What comes through the one-shot channel; [Dropped] when its sender is gone. *)
Inductive Answer : Type :=
| Started (i : StartInfo)
| StoppedOk
| StatusOk (i : StatusInfo)
| Failed (msg : string)
| Dropped.

Definition fail (r : Request) (msg : string) : nat * Answer := (ticket r, Failed msg).

(** What the caller of [dispatch] gets to see: the answer, unless the channel to
    the driver is closed or the wait took longer than [REQUEST_TIMEOUT]. *)
Inductive Waited : Type :=
| NotSent
| TimedOutWaiting
| Received (a : Answer).

Definition dispatch_result (w : Waited) : result Answer string :=
  match w with
  | NotSent => Err "supervisor client stopped"
  | TimedOutWaiting => Err "supervisor request timed out"
  | Received Dropped => Err "supervisor disconnected before reply"
  | Received (Failed msg) => Err msg
  | Received a => Ok a
  end.

(** ** Routing an event *)

(** The pending request afterwards, the events sent to the application, the
    answers given. *)
Definition dispatch_event (ev : Event.Event) (pending : option Request)
    : option Request * list SupervisorEvent.SupervisorEvent * list (nat * Answer) :=
  match ev with
  | Event.CoreExited code signal => (pending, [SupervisorEvent.CoreExited code signal], [])
  | Event.Kicked => (pending, [SupervisorEvent.Kicked], [])
  | Event.Busy owner => (pending, [SupervisorEvent.Busy owner], [])
  | Event.CoreStarted pid rpc_port =>
      (None, [SupervisorEvent.CoreStarted pid rpc_port],
       match pending with
       | Some r =>
           match what r with
           | RStart => [(ticket r, Started {| si_pid := pid; si_rpc_port := rpc_port |})]
           | _ => [fail r "unexpected core_started reply"]
           end
       | None => []
       end)
  | Event.CoreStopped reason =>
      (None, [SupervisorEvent.CoreStopped reason],
       match pending with
       | Some r =>
           match what r with
           | RStop => [(ticket r, StoppedOk)]
           | _ => [fail r "unexpected core_stopped reply"]
           end
       | None => []
       end)
  | Event.Status core pid rpc_port =>
      (None, [],
       match pending with
       | Some r =>
           match what r with
           | RStatus =>
               [(ticket r, StatusOk {| st_core := core; st_pid := pid; st_rpc_port := rpc_port |})]
           | _ => [fail r "unexpected status reply"]
           end
       | None => []
       end)
  | Event.Error code msg =>
      match pending with
      | Some r => (None, [], [fail r msg])
      | None => (None, [SupervisorEvent.Error code msg], [])
      end
  | Event.Hello _ _ _ _ | Event.Unknown => (pending, [], [])
  end.

(** ** The driver *)

Inductive DriverPc : Type :=
| DConnect                              (* connect_and_hello *)
| DSession (pending : option Request)   (* run_session *)
| DPaused                               (* busy: waits for a takeover *)
| DBackoff                              (* the wait between two attempts *)
| DStopped.

(** [takeover_permit], [reconnect_permit] and [shutdown_permit] are the permits of
    the three [Notify]s: [notify_one] stores at most one while nobody waits.
    [line] is what the current [read_line] has taken from the socket.  [queue] is
    the command channel.  [sent], [events] and [answers] list the commands written
    and flushed to control sockets, what was sent to the application and what was
    answered, in order. *)
Record Driver : Type := {
  dpc : DriverPc;
  next_takeover : bool;
  backoff : Z;
  connected : bool;
  takeover_permit : bool;
  reconnect_permit : bool;
  shutdown_permit : bool;
  line : string;
  queue : list Request;
  sent : list Cmd.Cmd;
  events : list SupervisorEvent.SupervisorEvent;
  answers : list (nat * Answer)
}.

Definition set_dpc (p : DriverPc) (d : Driver) : Driver :=
  {| dpc := p; next_takeover := next_takeover d; backoff := backoff d; connected := connected d;
     takeover_permit := takeover_permit d; reconnect_permit := reconnect_permit d;
     shutdown_permit := shutdown_permit d; line := line d; queue := queue d; sent := sent d;
     events := events d; answers := answers d |}.
Definition set_takeover (b : bool) (d : Driver) : Driver :=
  {| dpc := dpc d; next_takeover := b; backoff := backoff d; connected := connected d;
     takeover_permit := takeover_permit d; reconnect_permit := reconnect_permit d;
     shutdown_permit := shutdown_permit d; line := line d; queue := queue d; sent := sent d;
     events := events d; answers := answers d |}.
Definition set_backoff (n : Z) (d : Driver) : Driver :=
  {| dpc := dpc d; next_takeover := next_takeover d; backoff := n; connected := connected d;
     takeover_permit := takeover_permit d; reconnect_permit := reconnect_permit d;
     shutdown_permit := shutdown_permit d; line := line d; queue := queue d; sent := sent d;
     events := events d; answers := answers d |}.
Definition set_connected (b : bool) (d : Driver) : Driver :=
  {| dpc := dpc d; next_takeover := next_takeover d; backoff := backoff d; connected := b;
     takeover_permit := takeover_permit d; reconnect_permit := reconnect_permit d;
     shutdown_permit := shutdown_permit d; line := line d; queue := queue d; sent := sent d;
     events := events d; answers := answers d |}.
Definition set_permits (t r s : bool) (d : Driver) : Driver :=
  {| dpc := dpc d; next_takeover := next_takeover d; backoff := backoff d; connected := connected d;
     takeover_permit := t; reconnect_permit := r; shutdown_permit := s; line := line d;
     queue := queue d; sent := sent d; events := events d; answers := answers d |}.
Definition set_line (s : string) (d : Driver) : Driver :=
  {| dpc := dpc d; next_takeover := next_takeover d; backoff := backoff d; connected := connected d;
     takeover_permit := takeover_permit d; reconnect_permit := reconnect_permit d;
     shutdown_permit := shutdown_permit d; line := s; queue := queue d; sent := sent d;
     events := events d; answers := answers d |}.
Definition set_queue (q : list Request) (d : Driver) : Driver :=
  {| dpc := dpc d; next_takeover := next_takeover d; backoff := backoff d; connected := connected d;
     takeover_permit := takeover_permit d; reconnect_permit := reconnect_permit d;
     shutdown_permit := shutdown_permit d; line := line d; queue := q; sent := sent d;
     events := events d; answers := answers d |}.
Definition send_cmds (cs : list Cmd.Cmd) (d : Driver) : Driver :=
  {| dpc := dpc d; next_takeover := next_takeover d; backoff := backoff d; connected := connected d;
     takeover_permit := takeover_permit d; reconnect_permit := reconnect_permit d;
     shutdown_permit := shutdown_permit d; line := line d; queue := queue d;
     sent := sent d ++ cs; events := events d; answers := answers d |}%list.
Definition emit (evs : list SupervisorEvent.SupervisorEvent) (d : Driver) : Driver :=
  {| dpc := dpc d; next_takeover := next_takeover d; backoff := backoff d; connected := connected d;
     takeover_permit := takeover_permit d; reconnect_permit := reconnect_permit d;
     shutdown_permit := shutdown_permit d; line := line d; queue := queue d; sent := sent d;
     events := events d ++ evs; answers := answers d |}%list.
Definition answer (xs : list (nat * Answer)) (d : Driver) : Driver :=
  {| dpc := dpc d; next_takeover := next_takeover d; backoff := backoff d; connected := connected d;
     takeover_permit := takeover_permit d; reconnect_permit := reconnect_permit d;
     shutdown_permit := shutdown_permit d; line := line d; queue := queue d; sent := sent d;
     events := events d; answers := answers d ++ xs |}%list.

(** What becomes of a connection attempt: no connection, a failed write, an end
    or error of the read, or a first line. *)
Inductive Handshake : Type :=
| HNoConnect
| HWriteFailed
| HNoLine
| HLine (l : string).

Inductive ConnectErr : Type := CBusy | COther.

(** What becomes of writing a command. *)
Inductive Written : Type :=
| WOk
| WFailed (e : string)
| FlushFailed (e : string).

Inductive DLabel : Type :=
| DIssue (r : Request)                  (* start, stop, status: cmd_tx.send *)
| DTakeover                             (* request_takeover *)
| DReconnect                            (* request_reconnect *)
| DShutdown                             (* shutdown *)
| DClosed                               (* the last handle is dropped *)
| DTakePermit                           (* a stored takeover permit is taken *)
| DEnd                                  (* a branch of shutdown.notified() *)
| DEndAfterHello                        (* the same in connect_and_hello, after the hello *)
| DAttempt (h : Handshake)
| DRequest (w : Written)                (* the branch of cmd_rx.recv() *)
| DBytes (s : string)                   (* bytes without a newline arrive *)
| DLine (s : string)                    (* bytes that end a line arrive *)
| DEof                                  (* end of the stream, or an error: [DReadError] *)
| DReadError
| DWake (early : bool).                 (* the end of the backoff, by the clock or a reconnect *)

(** The capacity of the command channel. *)
Definition CHANNEL : nat := 16.

Section Driver.
Context {SJ : SerdeJson} (config : SupervisorConfig).

(** The result, the events sent to the application, the command written and
    flushed. *)
Definition connect_and_hello (takeover : bool) (h : Handshake)
    : result unit ConnectErr * list SupervisorEvent.SupervisorEvent * list Cmd.Cmd :=
  let hello := [Cmd.Hello PROTO_VERSION takeover] in
  match h with
  | HNoConnect | HWriteFailed => (Err COther, [], [])
  | HNoLine => (Err COther, [], hello)
  | HLine l =>
      if utf8_valid l then
        match decode_event l with
        | Ok (Event.Hello _ version core rpc_port) =>
            (Ok tt, [SupervisorEvent.Connected version core rpc_port], hello)
        | Ok (Event.Busy owner) => (Err CBusy, [SupervisorEvent.Busy owner], hello)
        | Ok (Event.Error code msg) => (Err COther, [SupervisorEvent.Error code msg], hello)
        | _ => (Err COther, [], hello)
        end
      else (Err COther, [], hello)
  end.

(** The end of [run_session]: the pending request's channel is dropped. *)
Definition end_session (pending : option Request) (next : DriverPc) (d : Driver) : Driver :=
  set_dpc next (set_connected false (set_line "" (emit [SupervisorEvent.Disconnected]
    (answer (match pending with Some r => [(ticket r, Dropped)] | None => [] end) d)))).

(** The end of [run_driver]: the command channel goes away with what is in it. *)
Definition stop_driver (d : Driver) : Driver :=
  set_dpc DStopped (set_connected false
    (set_queue [] (answer (map (fun r => (ticket r, Dropped)) (queue d)) d))).

(** A line, which [read_line] returns only if it is UTF-8. *)
Definition handle_line (pending : option Request) (l : string) (d : Driver) : Driver :=
  if utf8_valid l then
    let d := set_line "" d in
    match decode_event l with
    | Ok ev =>
        let '(pending', evs, xs) := dispatch_event ev pending in
        set_dpc (DSession pending') (emit evs (answer xs d))
    | Err _ => d
    end
  else end_session pending DBackoff d.

(** A stored shutdown permit is taken, in any of the selects. *)
Definition take_shutdown (d : Driver) : Driver :=
  set_permits (takeover_permit d) (reconnect_permit d) false d.

Definition attempt (h : Handshake) (d : Driver) : Driver :=
  let '(r, evs, cmds) := connect_and_hello (next_takeover d) h in
  let d := set_takeover false (emit evs (send_cmds cmds d)) in
  match r with
  | Ok _ => set_dpc (DSession None) (set_connected true (set_backoff (initial_backoff config) d))
  | Err CBusy => set_dpc DPaused d
  | Err COther => set_dpc DBackoff d
  end.

(** The branch of [cmd_rx.recv()]: the pending [read_line] is dropped, and the
    next turn clears [line]. *)
Definition take_request (pending : option Request) (r : Request) (w : Written) (d : Driver) : Driver :=
  let d := set_line "" d in
  match pending with
  | Some _ => answer [fail r "another request is already in flight"] d
  | None =>
      match w with
      | WOk => set_dpc (DSession (Some r)) (send_cmds [cmd r] d)
      | WFailed e => end_session None DBackoff (answer [fail r ("write failed: " ++ e)] d)
      | FlushFailed e => end_session None DBackoff (answer [fail r ("flush failed: " ++ e)] d)
      end
  end.

Definition next_backoff (b : Z) : Z := Z.min (b * 2) (max_backoff config).

Definition driver_step (d : Driver) (l : DLabel) : option Driver :=
  match l, dpc d with
  | DIssue r, DStopped => Some (answer [(ticket r, Failed "supervisor client stopped")] d)
  | DIssue r, _ =>
      if (length (queue d) <? CHANNEL)%nat then Some (set_queue (queue d ++ [r])%list d) else None
  | DTakeover, DPaused => Some (set_dpc DConnect (set_takeover true d))
  | DTakeover, _ => Some (set_permits true (reconnect_permit d) (shutdown_permit d) d)
  | DReconnect, DBackoff =>
      Some (set_dpc DConnect (set_backoff (next_backoff (backoff d)) d))
  | DReconnect, _ => Some (set_permits (takeover_permit d) true (shutdown_permit d) d)
  | DShutdown, _ => Some (set_permits (takeover_permit d) (reconnect_permit d) true d)
  | DClosed, DSession p =>
      match queue d with
      | [] => Some (stop_driver (end_session p DStopped d))
      | _ => None
      end
  | DTakePermit, DPaused =>
      if takeover_permit d
      then Some (set_dpc DConnect (set_takeover true
                  (set_permits false (reconnect_permit d) (shutdown_permit d) d)))
      else None
  | DEnd, DStopped => None
  | DEnd, DSession p =>
      if shutdown_permit d then Some (stop_driver (end_session p DStopped (take_shutdown d))) else None
  | DEnd, _ => if shutdown_permit d then Some (stop_driver (take_shutdown d)) else None
  | DEndAfterHello, DConnect =>
      if shutdown_permit d
      then Some (stop_driver (take_shutdown (set_takeover false
                  (send_cmds [Cmd.Hello PROTO_VERSION (next_takeover d)] d))))
      else None
  | DAttempt h, DConnect => Some (attempt h d)
  | DRequest w, DSession p =>
      match queue d with
      | r :: q => Some (take_request p r w (set_queue q d))
      | [] => None
      end
  | DBytes s, DSession _ => if occurs "010" s then None else Some (set_line (line d ++ s) d)
  | DLine s, DSession p =>
      if occurs "010" s then None else Some (handle_line p (line d ++ s ++ nl) d)
  | DEof, DSession p =>
      Some (if line d =? "" then end_session p DBackoff d else handle_line p (line d) d)
  | DReadError, DSession p => Some (end_session p DBackoff d)
  | DWake early, DBackoff =>
      if early && negb (reconnect_permit d) then None
      else Some (set_dpc DConnect (set_backoff (next_backoff (backoff d))
                  (if early then set_permits (takeover_permit d) false (shutdown_permit d) d else d)))
  | _, _ => None
  end.

Definition driver_init : Driver := {|
  dpc := DConnect; next_takeover := takeover config; backoff := initial_backoff config;
  connected := false; takeover_permit := false; reconnect_permit := false; shutdown_permit := false;
  line := ""; queue := []; sent := []; events := []; answers := [] |}.

Fixpoint driver_run (d : Driver) (ls : list DLabel) : option Driver :=
  match ls with
  | [] => Some d
  | l :: ls => match driver_step d l with Some d' => driver_run d' ls | None => None end
  end.

End Driver.
