(* ===== verification/ClientInv.v ===== *)
(** * The control client: what its driver does with requests, takeovers and time *)

From Stdlib Require Import ZArith Lia Ascii String.
From stdpp Require Import base list strings.
From S2P Require Import Prelude RustStr Json JsonText Proto ClientProto Wire CoreProc Server SupervisorClient.
Import ClientProto SupervisorClient.

Open Scope string_scope.

Section Client.
Context {SJ : SerdeJson} (config : SupervisorConfig).

(** ** Requests *)

Definition pending_of (p : DriverPc) : list nat :=
  match p with DSession (Some r) => [ticket r] | _ => [] end.

(** Every ticket the driver has been handed. *)
Definition held (d : Driver) : list nat :=
  (map fst (answers d) ++ pending_of (dpc d) ++ map ticket (queue d))%list.

Definition issued (ls : list DLabel) : list nat :=
  omap (fun l => match l with DIssue r => Some (ticket r) | _ => None end) ls.

Lemma held_dispatch ev p : forall p' evs xs, dispatch_event ev p = (p', evs, xs) ->
  (map fst xs ++ pending_of (DSession p'))%list = pending_of (DSession p).
Proof.
  intros p' evs xs. unfold dispatch_event, fail. destruct ev; try (intros [= <- <- <-]; done);
    destruct p as [[[] t]|]; intros [= <- <- <-]; done.
Qed.

Lemma held_end p next d : dpc d = DSession p -> pending_of next = [] ->
  held (end_session p next d) = held d.
Proof.
  intros Hp Hn. unfold held. cbn. rewrite Hn, Hp, map_app. destruct p as [r|]; cbn.
  - by rewrite <- app_assoc.
  - by rewrite app_nil_r.
Qed.

Lemma held_stop d : pending_of (dpc d) = [] -> held (stop_driver d) = held d.
Proof.
  intros Hp. unfold held. cbn. rewrite Hp, map_app, map_map. cbn. by rewrite app_nil_r.
Qed.

Lemma held_line p l d : dpc d = DSession p -> held (handle_line p l d) = held d.
Proof.
  intros Hp. unfold handle_line. destruct (utf8_valid l); [|by apply held_end].
  destruct (decode_event l) as [ev|]; [|done].
  destruct (dispatch_event ev p) as [[p' evs] xs] eqn:He. unfold held. cbn [answers dpc queue set_dpc emit answer set_line].
  rewrite Hp, map_app, <- (held_dispatch ev p p' evs xs He), <- !app_assoc. done.
Qed.

Lemma held_request p r w d q : dpc d = DSession p -> queue d = r :: q ->
  Permutation (held (take_request p r w (set_queue q d))) (held d).
Proof.
  intros Hp Hq. unfold take_request, held. destruct p as [r'|].
  - cbn. rewrite Hp, Hq, map_app. cbn. rewrite <- app_assoc. apply Permutation_app_head.
    cbn. apply perm_swap.
  - destruct w; cbn; rewrite ?Hp, Hq, ?map_app; cbn; rewrite <- ?app_assoc; cbn; done.
Qed.

Lemma held_attempt h d : dpc d = DConnect -> held (attempt config h d) = held d.
Proof.
  intros Hp. unfold attempt. destruct (connect_and_hello _ h) as [[[[]|[]] evs] cmds]; unfold held; cbn;
    by rewrite Hp.
Qed.

Lemma held_step d l d' : driver_step config d l = Some d' ->
  Permutation (held d') (held d ++ issued [l])%list.
Proof.
  assert (Hsame : forall x y : list nat, x = y -> Permutation x (y ++ [])%list) by (intros x y ->; by rewrite app_nil_r).
  unfold driver_step. destruct l as [r| | | | | | | |h|w|s|s| | |early].
  - change (issued [DIssue r]) with [ticket r]. destruct (dpc d) eqn:Hp;
      try (destruct (length (queue d) <? CHANNEL)%nat; [|done]); intros [= <-]; unfold held; cbn;
      rewrite ?map_app, Hp; cbn; rewrite <- ?app_assoc; try done.
    cbn. apply Permutation_app_head. by rewrite Permutation_app_comm.
  - destruct (dpc d) eqn:Hp; intros [= <-]; apply Hsame; unfold held; cbn; by rewrite ?Hp.
  - destruct (dpc d) eqn:Hp; intros [= <-]; apply Hsame; unfold held; cbn; by rewrite ?Hp.
  - intros [= <-]. by apply Hsame.
  - destruct (dpc d) eqn:Hp; try done. destruct (queue d) eqn:Hq; [|done]. intros [= <-].
    apply Hsame. rewrite held_stop by done. by apply held_end.
  - destruct (dpc d) eqn:Hp; try done. destruct (takeover_permit d); [|done]. intros [= <-].
    apply Hsame. unfold held. cbn. by rewrite Hp.
  - destruct (dpc d) eqn:Hp; try done; (destruct (shutdown_permit d); [|done]); intros [= <-]; apply Hsame.
    + rewrite held_stop; [done|]. cbn. by rewrite Hp.
    + rewrite held_stop by done. rewrite held_end by done. done.
    + rewrite held_stop; [done|]. cbn. by rewrite Hp.
    + rewrite held_stop; [done|]. cbn. by rewrite Hp.
  - destruct (dpc d) eqn:Hp; try done. destruct (shutdown_permit d); [|done]. intros [= <-]. apply Hsame.
    rewrite held_stop; [done|]. cbn. by rewrite Hp.
  - destruct (dpc d) eqn:Hp; try done. intros [= <-]. apply Hsame. by apply held_attempt.
  - destruct (dpc d) eqn:Hp; try done. destruct (queue d) eqn:Hq; [done|]. intros [= <-].
    change (issued _) with (@nil nat). rewrite app_nil_r. by apply held_request.
  - destruct (dpc d) eqn:Hp; try done. destruct (occurs _ s); [done|]. intros [= <-]. by apply Hsame.
  - destruct (dpc d) eqn:Hp; try done. destruct (occurs _ s); [done|]. intros [= <-]. apply Hsame.
    by apply held_line.
  - destruct (dpc d) eqn:Hp; try done. intros [= <-]. apply Hsame.
    destruct (line d =? ""); [by apply held_end|by apply held_line].
  - destruct (dpc d) eqn:Hp; try done. intros [= <-]. apply Hsame. by apply held_end.
  - destruct (dpc d) eqn:Hp; try done. destruct (early && _); [done|]. intros [= <-]. apply Hsame.
    unfold held. destruct early; cbn; by rewrite Hp.
Qed.

Lemma issued_cons l ls : issued (l :: ls) = (issued [l] ++ issued ls)%list.
Proof. unfold issued. cbn. by destruct l. Qed.

Lemma held_run ls : forall d d', driver_run config d ls = Some d' ->
  Permutation (held d') (held d ++ issued ls)%list.
Proof.
  induction ls as [|l ls IH]; intros d d'; cbn [driver_run].
  - intros [= <-]. by rewrite app_nil_r.
  - destruct (driver_step config d l) as [d1|] eqn:Hl; [|done]. intros Hr.
    rewrite (IH _ _ Hr), (held_step _ _ _ Hl), (issued_cons l ls). by rewrite <- app_assoc.
Qed.

Lemma stopped_queue d l d' : driver_step config d l = Some d' ->
  (dpc d = DStopped -> queue d = []) -> dpc d' = DStopped -> queue d' = [].
Proof.
  unfold driver_step, attempt, handle_line, take_request.
  destruct l, (dpc d) eqn:Hp; try done.
  all: repeat match goal with |- context [match ?x with _ => _ end] => destruct x eqn:? end.
  all: intros Hs Hq; simplify_eq/=; auto.
  all: intros Hq'; congruence.
Qed.

Lemma stopped_queue_run ls : forall d d', driver_run config d ls = Some d' ->
  (dpc d = DStopped -> queue d = []) -> dpc d' = DStopped -> queue d' = [].
Proof.
  induction ls as [|l ls IH]; intros d d'; cbn [driver_run]; [by intros [= <-]|].
  destruct (driver_step config d l) as [d1|] eqn:Hl; [|done]. intros Hr Hq.
  apply (IH _ _ Hr). by eapply stopped_queue.
Qed.

(** C35: no request is lost or answered twice: what callers have asked for is, at
    any time, exactly what has been answered, the one request in flight and what
    waits in the queue; when the driver has stopped, everything was answered. *)
Theorem requests_conserved ls d : driver_run config (driver_init config) ls = Some d ->
  Permutation (issued ls)
    (map fst (answers d) ++
     match dpc d with DSession (Some r) => [ticket r] | _ => [] end ++ map ticket (queue d))%list /\
  (dpc d = DStopped -> Permutation (issued ls) (map fst (answers d))).
Proof.
  intros Hr. pose proof (held_run _ _ _ Hr) as H. split.
  - symmetry. exact H.
  - intros Hs. change (held (driver_init config) ++ issued ls)%list with (issued ls) in H. rewrite <- H. unfold held. rewrite Hs, (stopped_queue_run _ _ _ Hr) by done. cbn.
    by rewrite app_nil_r.
Qed.

(** ** Time *)

(** The labels of attempts that fail for another reason than [busy], each followed
    by the whole wait. *)
Definition failing (hs : list Handshake) : list DLabel :=
  flat_map (fun h => [DAttempt h; DWake false]) hs.

Definition fails (h : Handshake) : Prop :=
  forall t, (connect_and_hello t h).1.1 = Err COther.

Lemma next_backoff_pow k : (0 < initial_backoff config)%Z ->
  (initial_backoff config <= max_backoff config)%Z -> (0 <= k)%Z ->
  next_backoff config (Z.min (initial_backoff config * 2 ^ k) (max_backoff config))
    = Z.min (initial_backoff config * 2 ^ (k + 1)) (max_backoff config).
Proof.
  intros Hi Hm Hk. unfold next_backoff. rewrite Z.pow_add_r, Z.mul_assoc by lia.
  change (2 ^ 1)%Z with 2%Z.
  pose proof (Z.mul_pos_pos _ _ Hi (Z.pow_pos_nonneg 2 k ltac:(lia) Hk)). lia.
Qed.

Lemma driver_run_app ls1 ls2 : forall d, driver_run config d (ls1 ++ ls2)%list =
  match driver_run config d ls1 with Some d' => driver_run config d' ls2 | None => None end.
Proof. induction ls1 as [|l ls1 IH]; intros d; cbn; [done|]. destruct (driver_step config d l); [apply IH|done]. Qed.

Lemma failing_once h d : fails h -> dpc d = DConnect ->
  exists d', driver_run config d [DAttempt h; DWake false] = Some d' /\ dpc d' = DConnect /\
    backoff d' = next_backoff config (backoff d).
Proof.
  intros Hh Hd. cbn [driver_run]. unfold driver_step at 1. rewrite Hd. specialize (Hh (next_takeover d)).
  unfold attempt. destruct (connect_and_hello (next_takeover d) h) as [[r evs] cmds]. cbn in Hh.
  subst r. by eexists.
Qed.

Lemma failing_run hs : Forall fails hs -> (0 < initial_backoff config)%Z ->
  (initial_backoff config <= max_backoff config)%Z -> forall d k,
  (0 <= k)%Z -> dpc d = DConnect ->
  backoff d = Z.min (initial_backoff config * 2 ^ k) (max_backoff config) ->
  exists d', driver_run config d (failing hs) = Some d' /\ dpc d' = DConnect /\
    backoff d' = Z.min (initial_backoff config * 2 ^ (k + Z.of_nat (length hs))) (max_backoff config).
Proof.
  intros Hhs Hi Hm. induction Hhs as [|h hs Hh _ IH]; intros d k Hk Hd Hb.
  - exists d. cbn. rewrite Z.add_0_r. done.
  - destruct (failing_once h d Hh Hd) as (d1 & Hr1 & Hd1 & Hb1).
    rewrite Hb, next_backoff_pow in Hb1 by done.
    destruct (IH d1 (k + 1)%Z ltac:(lia) Hd1 Hb1) as (d' & Hr & Hd' & Hb'). exists d'.
    change (failing (h :: hs)) with ([DAttempt h; DWake false] ++ failing hs)%list.
    rewrite driver_run_app, Hr1. split_and!; [done|done|]. rewrite Hb'. cbn [length]. do 3 f_equal. lia.
Qed.

(** The wait between attempts doubles from its initial value up to its
    maximum: after [n] attempts that failed for another reason than [busy] the
    driver is about to make its next attempt and its next wait is
    [min (initial * 2^n) max]; a session resets it to the initial value. *)
Theorem backoff_doubles hs h d' d'' : Forall fails hs -> (0 < initial_backoff config)%Z ->
  (initial_backoff config <= max_backoff config)%Z ->
  driver_run config (driver_init config) (failing hs) = Some d' ->
  dpc d' = DConnect /\
  backoff d' = Z.min (initial_backoff config * 2 ^ Z.of_nat (length hs)) (max_backoff config) /\
  (driver_step config d' (DAttempt h) = Some d'' -> dpc d'' = DSession None ->
   backoff d'' = initial_backoff config).
Proof.
  intros Hhs Hi Hm Hr.
  destruct (failing_run hs Hhs Hi Hm (driver_init config) 0 ltac:(lia) eq_refl) as (d1 & Hr1 & Hd1 & Hb1).
  { cbn [backoff driver_init]. change (2 ^ 0)%Z with 1%Z. lia. }
  rewrite Hr in Hr1. injection Hr1 as <-. split_and!; [done|by rewrite Hb1|].
  unfold driver_step. rewrite Hd1. intros [= <-]. unfold attempt.
  by destruct (connect_and_hello _ h) as [[[[]|[]] evs] cmds].
Qed.

(** ** Takeovers *)

Definition is_takeover (c : Cmd.Cmd) : bool :=
  match c with Cmd.Hello _ true => true | _ => false end.

Definition takeovers (cs : list Cmd.Cmd) : nat := length (List.filter is_takeover cs).

Definition takeover_requests (ls : list DLabel) : nat :=
  length (List.filter (fun l => match l with DTakeover => true | _ => false end) ls).

(** The takeovers sent, the one decided on and the one still permitted. *)
Definition granted (d : Driver) : nat :=
  takeovers (sent d) + (if next_takeover d then 1 else 0) + (if takeover_permit d then 1 else 0).

Lemma takeovers_app a b : takeovers (a ++ b)%list = (takeovers a + takeovers b)%nat.
Proof. unfold takeovers. by rewrite List.filter_app, length_app. Qed.

Lemma takeovers_hello t h : (takeovers (connect_and_hello t h).2 <= if t then 1 else 0)%nat.
Proof.
  destruct h as [| | |l]; cbn; try lia; [by destruct t|].
  destruct (utf8_valid l); [|by destruct t].
  destruct (decode_event l) as [[]|]; by destruct t.
Qed.

Lemma granted_attempt h d : (granted (attempt config h d) <= granted d)%nat.
Proof.
  unfold attempt. pose proof (takeovers_hello (next_takeover d) h) as Hh.
  destruct (connect_and_hello (next_takeover d) h) as [[r evs] cmds]. cbn -[takeovers] in Hh.
  unfold granted. destruct r as [[]|[]]; cbn -[takeovers]; rewrite takeovers_app; lia.
Qed.

Lemma granted_line p l d : granted (handle_line p l d) = granted d.
Proof.
  unfold handle_line. destruct (utf8_valid l); [|done]. destruct (decode_event l) as [ev|]; [|done].
  by destruct (dispatch_event ev p) as [[p' evs] xs].
Qed.

Lemma granted_request p r w d : granted (take_request p r w d) = granted d.
Proof.
  unfold take_request. destruct p; [done|]. destruct w; [|done|done].
  unfold granted. cbn -[takeovers]. rewrite takeovers_app. destruct r as [[] t]; cbn; lia.
Qed.

Lemma granted_step d l d' : driver_step config d l = Some d' ->
  (granted d' <= granted d + takeover_requests [l])%nat.
Proof.
  unfold driver_step. intros Hs. destruct l as [r| | | | | | | |h|w|s|s| | |early].
  all: destruct (dpc d) eqn:Hp; try done.
  all: repeat match type of Hs with context [match ?x with _ => _ end] => destruct x eqn:? end.
  all: simplify_eq; rewrite ?granted_line, ?granted_request; try (pose proof (granted_attempt h d));
    unfold granted, takeover_requests in *; cbn -[takeovers] in *; rewrite ?takeovers_app; try lia.
  - rewrite Heqb. lia.
  - cbn. destruct (next_takeover d); cbn; lia.
Qed.

(** A takeover is asked of the supervisor only if somebody asked the client for
    it: the number of [hello]s with the takeover flag never exceeds the number of
    [request_takeover] calls, and one more if the configuration starts with
    one. *)
Theorem takeovers_requested ls d : driver_run config (driver_init config) ls = Some d ->
  (takeovers (sent d) <= takeover_requests ls + if takeover config then 1 else 0)%nat.
Proof.
  enough (H : forall ls d d', driver_run config d ls = Some d' ->
    (granted d' <= granted d + takeover_requests ls)%nat).
  { intros Hr%H. unfold granted in Hr. cbn in *. lia. }
  clear ls d. intros ls. induction ls as [|l ls IH]; intros d d'; cbn [driver_run].
  - intros [= <-]. unfold takeover_requests. cbn. lia.
  - destruct (driver_step config d l) as [d1|] eqn:Hl; [|done]. intros Hr%IH.
    pose proof (granted_step _ _ _ Hl) as Hs. unfold takeover_requests in *. cbn in *.
    destruct l; cbn in *; lia.
Qed.

(** ** The pause after [busy] *)

Definition wakes_paused (l : DLabel) : bool :=
  match l with DTakeover | DShutdown => true | _ => false end.

Lemma paused_step d l d' : driver_step config d l = Some d' -> wakes_paused l = false ->
  dpc d = DPaused -> takeover_permit d = false -> shutdown_permit d = false ->
  dpc d' = DPaused /\ takeover_permit d' = false /\ shutdown_permit d' = false /\ sent d' = sent d.
Proof.
  unfold driver_step. intros Hs Hw Hp Ht Hsd. rewrite Hp, ?Ht, ?Hsd in Hs.
  destruct l; try done; try (injection Hs as <-; done).
  case_match; [|done]. by injection Hs as <-.
Qed.

(** A client that was told [busy] does not connect again by itself: until
    [request_takeover] or [shutdown] is called it stays where it is and sends
    nothing, whatever requests are issued and however long it takes, if no earlier
    [request_takeover] is still pending. *)
Theorem busy_waits_for_user ls : forall d d', driver_run config d ls = Some d' ->
  dpc d = DPaused -> takeover_permit d = false -> shutdown_permit d = false ->
  Forall (fun l => wakes_paused l = false) ls -> dpc d' = DPaused /\ sent d' = sent d.
Proof.
  induction ls as [|l ls IH]; intros d d'; cbn [driver_run]; [by intros [= <-]|].
  destruct (driver_step config d l) as [d1|] eqn:Hl; [|done]. intros Hr Hp Ht Hs Hls.
  inversion Hls as [|? ? Hw Hws]. subst.
  destruct (paused_step _ _ _ Hl Hw Hp Ht Hs) as (Hp1 & Ht1 & Hs1 & <-). by apply IH.
Qed.

(** ** Replies *)

(** The events the supervisor answers the three commands with, and what their
    callers are told. *)
Inductive reply_of : RequestKind -> Proto.Event.Event -> Answer -> Prop :=
| reply_started pid port :
    reply_of RStart (start_reply (Ok (pid, port))) (Started {| si_pid := pid; si_rpc_port := port |})
| reply_not_started msg : reply_of RStart (start_reply (Err msg)) (Failed msg)
| reply_stopped was_running : reply_of RStop (stop_reply was_running) StoppedOk
| reply_status core pid port :
    reply_of RStatus (Proto.Event.Status core pid port)
      (StatusOk {| st_core := client_core core; st_pid := pid; st_rpc_port := port |}).

Lemma sapp_inv_tail a b c : a ++ c = b ++ c -> a = b.
Proof.
  intros H%(f_equal srev). rewrite !srev_app in H. apply sapp_inv_head in H.
  by rewrite <- (srev_involutive a), H, srev_involutive.
Qed.

Lemma trim_line_nonempty fs : trim (to_string (JObj fs) ++ nl) <> "".
Proof. destruct (to_string_braces fs) as [b ->]. by rewrite trim_line. Qed.

(** The command loop on a command of the client. *)
Lemma command_turn_cmd r : command_turn (Ok (Some (encode_cmd (cmd r)))) =
  (match what r with RStart => DoStart | RStop => DoStop | RStatus => DoStatus end).
Proof.
  unfold command_turn. destruct (String.eqb_spec (trim (encode_cmd (cmd r))) "") as [E|_].
  { by apply trim_line_nonempty in E. }
  rewrite decode_encode_cmd by (unfold cmd; by destruct (what r)). unfold cmd. by destruct (what r).
Qed.

(** The encoding of an event is a line of UTF-8. *)
Lemma encode_event_line ev body : Proto.Event.wf ev -> Proto.encode_event ev = body ++ nl ->
  occurs "010" body = false /\ utf8_valid (body ++ nl) = true.
Proof.
  intros Hwf%fields_flat Hb. unfold Proto.encode_event in Hb. apply sapp_inv_tail in Hb. subst body.
  split; [by apply to_string_no_newline|]. by rewrite utf8_app by by apply to_string_utf8.
Qed.

Lemma dispatch_reply k ev a t : reply_of k ev a ->
  exists evs, dispatch_event (client_event ev) (Some {| what := k; ticket := t |}) = (None, evs, [(t, a)]).
Proof. by destruct 1; eexists. Qed.

(** A request reaches the supervisor as the command it stands for, and the
    supervisor's reply reaches its caller: the line the client writes makes the
    supervisor's command loop do what was requested, and however the bytes of the
    reply's line are cut in two, the pending request is answered with the reply's
    content and nothing else is. *)
Theorem request_answered r ev a d s1 s2 : reply_of (what r) ev a -> Proto.Event.wf ev ->
  Proto.encode_event ev = (s1 ++ s2) ++ nl -> dpc d = DSession (Some r) -> line d = "" ->
  command_turn (Ok (Some (encode_cmd (cmd r)))) =
    (match what r with RStart => DoStart | RStop => DoStop | RStatus => DoStatus end) /\
  exists d', driver_run config d [DBytes s1; DLine s2] = Some d' /\
    dpc d' = DSession None /\ answers d' = (answers d ++ [(ticket r, a)])%list /\ line d' = "".
Proof.
  intros Hre Hwf Henc Hp Hline. split; [apply command_turn_cmd|].
  destruct (encode_event_line ev _ Hwf Henc) as [Hnl Hu].
  rewrite occurs_app in Hnl. apply orb_false_elim in Hnl as [Hn1 Hn2].
  cbn [driver_run]. unfold driver_step at 1. rewrite Hp, Hn1.
  unfold driver_step at 1. cbn [dpc set_line line]. rewrite Hp, Hn2, Hline.
  change ("" ++ s1) with s1. unfold handle_line. rewrite <- sapp_assoc, Hu, <- Henc.
  rewrite decode_encode_event by done.
  destruct (dispatch_reply _ _ _ (ticket r) Hre) as [evs He].
  destruct r as [k t]. cbn [what ticket] in He. rewrite He. by eexists.
Qed.

End Client.

(** ** Witnesses *)

Definition the_client : SupervisorConfig := default_config None.

(** Lines of the supervisor. *)
Definition hello_line : string := Proto.encode_event (hello_event Proto.CoreState.Stopped None).
Definition busy_line : string := Proto.encode_event (Proto.Event.Busy true).

Definition client_run (ls : list DLabel) : option Driver :=
  driver_run the_client (driver_init the_client) ls.

Definition started_reply : Proto.Event.Event := start_reply (Ok (4321%Z, 50321%Z)).

(** A session with a request in flight, a second one refused, then a shutdown. *)
Definition session_labels : list DLabel :=
  [DIssue {| what := RStart; ticket := 0 |}; DAttempt (HLine hello_line); DRequest WOk;
   DIssue {| what := RStatus; ticket := 1 |}; DRequest WOk; DIssue {| what := RStop; ticket := 2 |};
   DShutdown; DEnd].

Lemma requests_conserved_witness : exists d, client_run session_labels = Some d /\
  dpc d = DStopped /\ map fst (answers d) = [1; 0; 2] /\ Permutation [0; 1; 2] (map fst (answers d)).
Proof.
  eexists. split; [vm_compute; reflexivity|]. split; [reflexivity|]. split; [reflexivity|].
  apply (requests_conserved the_client session_labels); [vm_compute; reflexivity|reflexivity].
Defined.

Lemma fails_no_connect : fails HNoConnect.
Proof. intros t. reflexivity. Qed.

Definition three_failures : list Handshake := [HNoConnect; HNoConnect; HNoConnect].
Definition retrying : Driver := default (driver_init the_client) (client_run (failing three_failures)).

Lemma backoff_doubles_witness : client_run (failing three_failures) = Some retrying /\
  backoff retrying = 8000%Z.
Proof.
  assert (Hr : client_run (failing three_failures) = Some retrying) by (vm_compute; reflexivity).
  split; [exact Hr|].
  assert (Hf : Forall fails three_failures) by (repeat apply Forall_cons_2; auto using fails_no_connect).
  assert (Hi : (0 < initial_backoff the_client)%Z) by (vm_compute; reflexivity).
  assert (Hm : (initial_backoff the_client <= max_backoff the_client)%Z) by (vm_compute; discriminate).
  destruct (backoff_doubles the_client three_failures HNoConnect retrying retrying Hf Hi Hm Hr) as (_ & Hb & _).
  rewrite Hb. vm_compute. reflexivity.
Defined.

Definition takeover_labels : list DLabel :=
  [DAttempt (HLine busy_line); DTakeover; DAttempt (HLine hello_line)].
Definition took_over : Driver := default (driver_init the_client) (client_run takeover_labels).

Lemma takeovers_requested_witness : client_run takeover_labels = Some took_over /\
  takeovers (sent took_over) = 1 /\ takeovers (sent took_over) <= takeover_requests takeover_labels + 0.
Proof.
  assert (Hr : client_run takeover_labels = Some took_over) by (vm_compute; reflexivity).
  split; [exact Hr|]. split; [vm_compute; reflexivity|].
  exact (takeovers_requested the_client takeover_labels took_over Hr).
Defined.

Definition told_busy : Driver :=
  default (driver_init the_client) (client_run [DAttempt (HLine busy_line)]).
Definition nudges : list DLabel := [DReconnect; DIssue {| what := RStart; ticket := 0 |}].

Lemma busy_waits_for_user_witness : exists d', driver_run the_client told_busy nudges = Some d' /\
  dpc d' = DPaused /\ sent d' = [Cmd.Hello 1 false].
Proof.
  destruct (driver_run the_client told_busy nudges) as [d'|] eqn:Hr; [|vm_compute in Hr; discriminate Hr].
  exists d'. split; [reflexivity|].
  destruct (busy_waits_for_user the_client nudges told_busy d' Hr ltac:(vm_compute; reflexivity)
    ltac:(vm_compute; reflexivity) ltac:(vm_compute; reflexivity)
    ltac:(repeat apply Forall_cons_2; auto)) as [Hp Hs].
  split; [exact Hp|]. rewrite Hs. vm_compute. reflexivity.
Defined.

Definition in_session : Driver :=
  default (driver_init the_client)
    (client_run [DIssue {| what := RStart; ticket := 7 |}; DAttempt (HLine hello_line); DRequest WOk]).

(** The first half and the rest of the reply's line, without the newline. *)
Definition half1 : string := String.substring 0 20 (Proto.encode_event started_reply).
Definition half2 : string :=
  String.substring 20 (String.length (Proto.encode_event started_reply) - 21) (Proto.encode_event started_reply).

Lemma request_answered_witness : exists d',
  driver_run the_client in_session [DBytes half1; DLine half2] = Some d' /\
  answers d' = [(7, Started {| si_pid := 4321; si_rpc_port := 50321 |})].
Proof.
  destruct (request_answered the_client {| what := RStart; ticket := 7 |} started_reply
    (Started {| si_pid := 4321; si_rpc_port := 50321 |}) in_session half1 half2
    (reply_started 4321 50321) ltac:(vm_compute; auto) ltac:(vm_compute; reflexivity)
    ltac:(vm_compute; reflexivity) ltac:(vm_compute; reflexivity)) as (_ & d' & Hr & _ & Ha & _).
  exists d'. split; [exact Hr|exact Ha].
Defined.

(** ** Schedules in which the client does not do what it means to *)

(** A reply can be lost: the read of a line is dropped with the bytes it has
    taken whenever a request arrives, so a [core_started] line that comes in two
    pieces with a second request between them reaches nobody; the first request
    stays in flight, and blocks all others, until the connection ends. *)
Theorem interrupted_read_loses_reply : exists d,
  half1 ++ half2 ++ nl = Proto.encode_event started_reply /\
  driver_run the_client in_session
    [DBytes half1; DIssue {| what := RStatus; ticket := 8 |}; DRequest WOk; DLine half2] = Some d /\
  dpc d = DSession (Some {| what := RStart; ticket := 7 |}) /\
  answers d = [(8, Failed "another request is already in flight")] /\
  events d = events in_session.
Proof.
  eexists. split; [vm_compute; reflexivity|]. split; [vm_compute; reflexivity|].
  split_and!; vm_compute; reflexivity.
Qed.

(** A takeover can go out that answers no [busy] the user has seen: a
    [request_takeover] made during a session stays pending, and the next [busy],
    whenever it comes, is followed by a takeover at once. *)
Theorem stale_takeover_request : exists d,
  client_run [DAttempt (HLine hello_line); DTakeover; DEof; DWake false; DAttempt (HLine busy_line);
              DTakePermit; DAttempt (HLine hello_line)] = Some d /\
  sent d = [Cmd.Hello 1 false; Cmd.Hello 1 false; Cmd.Hello 1 true].
Proof. eexists. split; vm_compute; reflexivity. Qed.
