(* ===== verification/Link.v ===== *)
(** * The bridge and the supervisor, connected

    One connection of the supervisor ([Supervisor]) and the driver of the bridge
    ([SupervisorClient]) at its other end: what one writes the other reads, line by
    line and in order, while everything else about both is left free.  The
    protocol has no request ids; here the reply a caller is given is shown to be
    the supervisor's reply to that caller's command. *)

From Stdlib Require Import ZArith Lia Ascii String.
From stdpp Require Import base list strings gmap.
From S2P Require Import Prelude RustStr Json JsonText Proto ClientProto Wire Config Auth Hooks CoreProc Server Supervisor Schedules Carried WireInv ReplyInv SupervisorClient ClientInv.

Open Scope string_scope.

(** ** What a step of the supervisor does to a connection *)

(** The commands it reads, and that events are only added. *)
Definition evolves (ts : list Turn) (k k' : Conn) : Prop :=
  heard k' = (heard k ++ ts)%list /\ exists evs, wire k' = (wire k ++ evs)%list.

Lemma evolves_refl k k' : heard k' = heard k -> wire k' = wire k -> evolves [] k k'.
Proof. intros Hh Hw. split; [by rewrite app_nil_r|]. exists []. by rewrite app_nil_r. Qed.

Lemma evolves_trans ts ts' k1 k2 k3 : evolves ts k1 k2 -> evolves ts' k2 k3 -> evolves (ts ++ ts')%list k1 k3.
Proof.
  intros [Hh (e & Hw)] [Hh' (e' & Hw')]. split; [by rewrite Hh', Hh, app_assoc|].
  exists (e ++ e')%list. by rewrite Hw', Hw, app_assoc.
Qed.

(** Connections are kept, and none of them reads a command. *)
Definition keeps (s s' : Sys) : Prop := forall c k, conns s !! c = Some k ->
  exists k', conns s' !! c = Some k' /\ evolves [] k k'.

Lemma keeps_view s s' : conns s' = conns s -> keeps s s'.
Proof. intros E c k Hk. exists k. rewrite E. split; [done|by apply evolves_refl]. Qed.

Lemma keeps_trans s1 s2 s3 : keeps s1 s2 -> keeps s2 s3 -> keeps s1 s3.
Proof.
  intros H1 H2 c k Hk. destruct (H1 c k Hk) as (k2 & Hk2 & He2). destruct (H2 c k2 Hk2) as (k3 & Hk3 & He3).
  exists k3. split; [done|]. exact (evolves_trans [] [] _ _ _ He2 He3).
Qed.

Lemma keeps_conn s c f : (forall k, evolves [] k (f k)) -> keeps s (on_conn c f s).
Proof.
  intros Hf j k Hk. cbn. rewrite list_lookup_alter. case_decide; [subst j|].
  - rewrite Hk. exists (f k). by split.
  - exists k. split; [done|by apply evolves_refl].
Qed.

Lemma evolves_put ev k : evolves [] k (put ev k).
Proof.
  split; [by rewrite app_nil_r|]. cbn. destruct (live k); [by exists [ev]|]. exists []. by rewrite app_nil_r.
Qed.

(** A thread goes on after something else. *)
Lemma keeps_goto s s1 c p : keeps s s1 -> keeps s (goto c p s1).
Proof. intros H. eapply keeps_trans; [exact H|]. apply keeps_conn. intros k. by apply evolves_refl. Qed.

Lemma keeps_write s s1 c ev : keeps s s1 -> keeps s (write c ev s1).
Proof. intros H. eapply keeps_trans; [exact H|]. apply keeps_conn, evolves_put. Qed.

Lemma keeps_write_all c evs : forall s s1, keeps s s1 -> keeps s (write_all c evs s1).
Proof. induction evs as [|ev evs IH]; intros s s1 H; [done|]. apply IH. by apply keeps_write. Qed.

Lemma keeps_self s : keeps s s.
Proof. by apply keeps_view. Qed.

Create HintDb keeps.
#[local] Hint Resolve keeps_goto keeps_write keeps_write_all keeps_self : keeps.

Section Steps.
Context {SJ : SerdeJson} (config : Config) (auth : AuthMode).

(** The command a label gives to connection [c] at the command loop. *)
Definition reads (c : nat) (k : Conn) (l : Supervisor.Label) : list Turn :=
  match l, pc k with
  | LConn c' (IRead r), PLoop => if (c' =? c)%nat then [command_turn r] else []
  | _, _ => []
  end.

Lemma keeps_lease c k t s : keeps s (do_lease c k t s).
Proof.
  unfold do_lease. destruct (acquire_lease _ _ _ _) as [st [d|]]; [|by apply keeps_goto, keeps_write, keeps_self].
  apply keeps_goto. destruct (option_map conn d) as [o|]; [|by apply keeps_view].
  eapply keeps_trans; [by apply (keeps_view _ (with_shared st s))|]. apply keeps_conn.
  intros k0. by apply evolves_refl.
Qed.

Lemma keeps_start c env s : keeps s (do_start config c env s).
Proof. unfold do_start. repeat case_match; apply keeps_goto; by apply keeps_view. Qed.

Lemma keeps_stop c why s : keeps s (do_stop c why s).
Proof. unfold do_stop. repeat case_match; apply keeps_goto; by apply keeps_view. Qed.

(** Every other step of a connection. *)
Lemma keeps_conn_step c k i s s' : conn_step config auth c k i s = Some s' ->
  (forall r, i = IRead r -> pc k <> PLoop) -> keeps s s'.
Proof.
  unfold conn_step. intros Hs Hi.
  destruct (pc k) as [| |t|t|[o|]| |co po| |ev| | |ch p po|p po|why|why|why| | |hook|hook [|q qs] n|h| |] eqn:E, i;
    try done.
  - injection Hs as <-. repeat case_match; auto with keeps.
  - destruct (read_hello r) as [t evs]. injection Hs as <-. auto with keeps.
  - injection Hs as <-. apply keeps_goto. eapply keeps_trans; [by apply (keeps_view _ (with_next_id (next_id s + 1)%Z s))|].
    apply keeps_conn. intros k0. by apply evolves_refl.
  - injection Hs as <-. apply keeps_lease.
  - injection Hs as <-. apply keeps_goto. eapply keeps_trans; [|apply keeps_conn; intros k0; by apply evolves_refl].
    destruct free; auto with keeps.
  - injection Hs as <-. auto with keeps.
  - destruct (core_snapshot _) as [[co p] po]. injection Hs as <-. auto with keeps.
  - injection Hs as <-. auto with keeps.
  - exfalso. by eapply Hi.
  - injection Hs as <-. auto with keeps.
  - destruct (core_snapshot _) as [[co p] po]. injection Hs as <-. auto with keeps.
  - case_match; [|done]. injection Hs as <-. apply keeps_start.
  - injection Hs as <-. apply keeps_goto. by apply keeps_view.
  - injection Hs as <-. apply keeps_goto. apply keeps_view, fire_conns'.
  - injection Hs as <-. apply keeps_stop.
  - injection Hs as <-. case_match; auto with keeps.
  - injection Hs as <-. apply keeps_goto. apply keeps_view, fire_conns'.
  - injection Hs as <-. auto with keeps.
  - injection Hs as <-. apply keeps_goto. by apply keeps_view.
  - injection Hs as <-. auto with keeps.
  - injection Hs as <-. apply keeps_goto. apply keeps_view, end_sweep_conns'.
  - destruct (kill_pid q ok s) as [s1 hit] eqn:Hkill. injection Hs as <-. apply keeps_goto.
    apply keeps_view. by eapply kill_conns.
  - case_match; [|done]. case_match; [|done]. injection Hs as <-. auto with keeps.
  - injection Hs as <-. by apply keeps_view.
Qed.

Lemma keeps_monitor_step i m j s s' : monitor_step config i m j s = Some s' -> keeps s s'.
Proof.
  unfold monitor_step.
  destruct (mpc m) as [| | |stop| |info|info|to info| | | |[|p ps] n|] eqn:Hpc, j as [|[]| | |]; try done.
  - repeat case_match; intros; simplify_eq; by apply keeps_view.
  - intros [= <-]. by apply keeps_view.
  - intros [= <-]. by apply keeps_view.
  - destruct (escalate _ _ _) as [[sg|] v]; intros [= <-]; apply keeps_view; [|done].
    unfold send_signal. by destruct sg, (holder (mpid m) (procs s) 0).
  - intros [= <-]. by apply keeps_view.
  - destruct (handle_core_exit_locked _ _) as [st expected]. intros [= <-]. by apply keeps_view.
  - intros [= <-]. by apply keeps_view.
  - intros [= <-]. destruct to as [c|]; [|by apply keeps_view].
    apply (keeps_trans _ (write c (Proto.Event.CoreExited (code info) (signal info)) s)); [|by apply keeps_view].
    auto with keeps.
  - intros [= <-]. apply keeps_view, fire_conns'.
  - intros [= <-]. case_match; by apply keeps_view.
  - intros [= <-]. by apply keeps_view.
  - intros [= <-]. apply keeps_view, end_sweep_conns'.
  - destruct (kill_pid p ok s) as [s1 hit] eqn:Hkill. intros [= <-].
    apply keeps_view. exact (kill_conns _ _ _ _ _ Hkill).
Qed.

(** The connection [c] after a step: it has read what the label gave it. *)
Lemma step_evolves s l s' c k : Supervisor.step config auth s l = Some s' -> conns s !! c = Some k ->
  exists k', conns s' !! c = Some k' /\ evolves (reads c k l) k k'.
Proof.
  intros Hs Hk.
  assert (Hkeep : keeps s s' -> reads c k l = [] -> exists k', conns s' !! c = Some k' /\ evolves (reads c k l) k k').
  { intros H ->. by apply H. }
  unfold Supervisor.step in Hs. destruct (exited s); [done|]. destruct l as [p|c' i|i j| |ms|i st|p cmd|i|h].
  - injection Hs as <-. exists k. split; [|by apply evolves_refl]. cbn. by apply lookup_app_l_Some.
  - destruct (conns s !! c') as [k0|] eqn:Hk0; [|done]. case_match; [done|].
    assert (Hd : (exists r, i = IRead r /\ pc k0 = PLoop) \/ forall r, i = IRead r -> pc k0 <> PLoop).
    { destruct i; try by right. destruct (pc k0); try (by right). left. by exists r. }
    destruct Hd as [(r & -> & Hpc)|Hno].
    + unfold conn_step in Hs. rewrite Hpc in Hs. injection Hs as <-.
      assert (Hturn : keeps (on_conn c' (hear (command_turn r)) s)
        (do_turn c' (command_turn r) (on_conn c' (hear (command_turn r)) s))).
      { destruct (command_turn r); apply keeps_goto, keeps_self. }
      destruct (decide (c' = c)) as [->|Hne].
      * rewrite Hk in Hk0. injection Hk0 as <-.
        destruct (Hturn c (hear (command_turn r) k)) as (k' & Hk' & He).
        { cbn. by rewrite list_lookup_alter_eq, Hk. }
        exists k'. split; [done|]. unfold reads. rewrite Hpc, Nat.eqb_refl. destruct He as [Hh Hw].
        split; [by rewrite Hh, app_nil_r|exact Hw].
      * destruct (Hturn c k) as (k' & Hk' & He); [cbn; by rewrite list_lookup_alter_ne|].
        exists k'. split; [done|]. unfold reads. apply Nat.eqb_neq in Hne as ->. by destruct (pc k).
    + apply Hkeep.
      * by eapply keeps_conn_step.
      * unfold reads. destruct i; try done. destruct (pc k) eqn:Hpc; try done. destruct (Nat.eqb_spec c' c) as [->|]; [|done].
        rewrite Hk in Hk0. injection Hk0 as <-. by destruct (Hno r eq_refl).
  - destruct (monitors s !! i) eqn:Hm; [|done]. case_match; [done|]. apply Hkeep; [|done].
    by eapply keeps_monitor_step.
  - apply Hkeep; [|done]. unfold timer_step in Hs. repeat case_match; simplify_eq; by apply keeps_view.
  - apply Hkeep; [|done]. case_match; simplify_eq; by apply keeps_view.
  - apply Hkeep; [|done]. repeat case_match; simplify_eq; by apply keeps_view.
  - apply Hkeep; [|done]. case_match; simplify_eq; by apply keeps_view.
  - apply Hkeep; [|done]. repeat case_match; simplify_eq; by apply keeps_view.
  - apply Hkeep; [|done]. injection Hs as <-. by apply keeps_view.
Qed.

End Steps.

(** ** The two ends *)

(** The supervisor, the driver, the requests whose commands the driver has written
    to this connection, how many of these the supervisor has read, how many of the
    supervisor's lines the driver has read in full, the bytes of the next one it has
    taken from the socket, whether a read was ever cut short (a request or the end
    of the stream came in the middle of a line), and the answers the driver has
    given on reading lines. *)
Record Link : Type := {
  sup : Sys;
  client : Driver;
  requests : list Request;
  taken : nat;
  got : nat;
  part : string;
  torn : bool;
  told : list (nat * Answer)
}.

Definition with_sup (s : Sys) (n : nat) (L : Link) : Link :=
  {| sup := s; client := client L; requests := requests L; taken := taken L + n; got := got L;
     part := part L; torn := torn L; told := told L |}.
Definition with_client (d : Driver) (L : Link) : Link :=
  {| sup := sup L; client := d; requests := requests L; taken := taken L; got := got L;
     part := part L; torn := torn L; told := told L |}.
Definition wrote (rs : list Request) (L : Link) : Link :=
  {| sup := sup L; client := client L; requests := (requests L ++ rs)%list; taken := taken L; got := got L;
     part := part L; torn := torn L; told := told L |}.
Definition read_one (xs : list (nat * Answer)) (L : Link) : Link :=
  {| sup := sup L; client := client L; requests := requests L; taken := taken L; got := S (got L);
     part := ""; torn := torn L; told := (told L ++ xs)%list |}.
Definition fetched (s : string) (L : Link) : Link :=
  {| sup := sup L; client := client L; requests := requests L; taken := taken L; got := got L;
     part := part L ++ s; torn := torn L; told := told L |}.
(** The read of the driver is dropped, or returns at the end of the stream. *)
Definition cut (L : Link) : Link :=
  {| sup := sup L; client := client L; requests := requests L; taken := taken L; got := got L;
     part := part L; torn := torn L || negb (part L =? ""); told := told L |}.

(** The driver still has this connection, or is about to open it. *)
Definition connected_here (d : Driver) : bool :=
  match dpc d with DConnect | DSession _ => true | _ => false end.

(** The request a session waits for. *)
Definition in_flight (d : Driver) : list Request :=
  match dpc d with DSession (Some r) => [r] | _ => [] end.

Section Link.
Context {SJ : SerdeJson} (config : Config) (auth : AuthMode) (cc : SupervisorConfig).
(** The connection's index in the supervisor. *)
Context (c : nat).

Definition conn_of (L : Link) : Conn := default (new_conn (Ok 0%Z)) (conns (sup L) !! c).

(** What the supervisor reads from the connection is what the driver has written
    to it, as long as the driver is there: the number of commands the step reads,
    [None] if there is no such line.  The end of the stream, an error and all
    that concerns other connections are free. *)
Definition fed (L : Link) (l : Supervisor.Label) : option nat :=
  match l with
  | LConn c' (IRead (Ok (Some s))) =>
      if negb (c' =? c)%nat || negb (connected_here (client L)) then Some 0 else
      match pc (conn_of L) with
      | PHello =>
          if s =? encode_cmd (Cmd.Hello ClientProto.PROTO_VERSION (next_takeover (client L)))
          then Some 0 else None
      | PLoop =>
          match requests L !! taken L with
          | Some r => if s =? encode_cmd (cmd r) then Some 1 else None
          | None => None
          end
      | _ => Some 0
      end
  | _ => Some 0
  end.

Definition sup_move (l : Supervisor.Label) (L : Link) : option Link :=
  match fed L l, Supervisor.step config auth (sup L) l with
  | Some n, Some s => Some (with_sup s n L)
  | _, _ => None
  end.

(** The next line on its way to the driver, the newline included. *)
Definition next_line (L : Link) : option string := Proto.encode_event <$> wire (conn_of L) !! got L.

Definition is_next (s : string) (L : Link) : bool := bool_decide (next_line L = Some s).

(** What the driver reads is what the supervisor has written, bytes in any pieces.
    A request, or the end of the stream, can come at any time: in the middle of a
    line the bytes already taken from the socket are lost with the dropped
    [read_line], or are all there is of the line, and the rest is read as a line of
    its own.  That nothing is read after the end of the stream is not used.  When
    the session has ended this connection is not used again. *)
Definition client_move (l : DLabel) (L : Link) : option Link :=
  match driver_step cc (client L) l with
  | None => None
  | Some d =>
      let L' := with_client d L in
      match dpc (client L), l with
      | DConnect, DAttempt (HLine s) =>
          if is_next s L then Some (read_one [] L')
          else match next_line L with
               | Some next => if negb (s =? "") && starts_with s next then Some (cut (fetched s L')) else None
               | None => None
               end
      | DConnect, _ => Some L'
      | DSession _, DBytes s =>
          match next_line L with
          | Some next => if starts_with (part L ++ s) next then Some (fetched s L') else None
          | None => None
          end
      | DSession _, DLine s =>
          if is_next (part L ++ s ++ nl) L
          then Some (read_one (drop (length (answers (client L))) (answers d)) L') else None
      | DSession p, DRequest w =>
          Some (cut (match p, w, queue (client L) with None, WOk, r :: _ => wrote [r] L' | _, _, _ => L' end))
      | DSession _, DEof => Some (cut L')
      | DSession _, _ => Some L'
      | _, _ => None
      end
  end.

Definition link_step (L : Link) (a : Supervisor.Label + DLabel) : option Link :=
  match a with inl l => sup_move l L | inr l => client_move l L end.

Fixpoint link_run (L : Link) (acts : list (Supervisor.Label + DLabel)) : option Link :=
  match acts with
  | [] => Some L
  | a :: acts => match link_step L a with Some L' => link_run L' acts | None => None end
  end.

(** The connection is accepted and the driver about to use it. *)
Definition link_start (s : Sys) (d : Driver) : Link :=
  {| sup := s; client := d; requests := []; taken := 0; got := 0; part := ""; torn := false; told := [] |}.

(** The supervisor's replies the driver has read. *)
Definition read_replies (L : Link) : list Proto.Event.Event :=
  List.filter (fun ev => negb (is_push ev)) (take (got L) (wire (conn_of L))).

(** What the caller of [r] is to be told when the supervisor replies [ev]. *)
Definition outcome (r : Request) (ev : Proto.Event.Event) : option (nat * Answer) :=
  match what r, ev with
  | RStart, Proto.Event.CoreStarted pid port => Some (ticket r, Started {| si_pid := pid; si_rpc_port := port |})
  | RStart, Proto.Event.Error code msg => if code =? "spawn_failed" then Some (ticket r, Failed msg) else None
  | RStop, Proto.Event.CoreStopped _ => Some (ticket r, StoppedOk)
  | RStatus, Proto.Event.Status core pid port =>
      Some (ticket r, StatusOk {| st_core := client_core core; st_pid := pid; st_rpc_port := port |})
  | _, _ => None
  end.

End Link.

Section Proofs.
Context {SJ : SerdeJson} (config : Config) (auth : AuthMode) (cc : SupervisorConfig).
Context (core_path_utf8 : utf8_valid (core_path config) = true).
Context (c : nat).

(** ** The invariant *)

Definition turn_of (r : Request) : Turn :=
  match what r with RStart => DoStart | RStop => DoStop | RStatus => DoStatus end.

(** The supervisor has heard the commands it has read; the driver, the [hello] and
    one reply for each request but the one it waits for, and has passed each reply
    on. *)
Record in_step (L : Link) (k : Conn) : Prop := {
  is_heard : List.filter asks (heard k) = map turn_of (take (taken L) (requests L));
  is_taken : taken L <= length (requests L);
  is_got : got L <= length (wire k)
}.

Record conversing (L : Link) : Prop := {
  cv_hello : exists ev rs answered, read_replies c L = ev :: rs /\ is_hello ev = true /\
    requests L = (answered ++ in_flight (client L))%list /\ length answered = length rs /\
    map Some (told L) = zip_with outcome answered rs
}.

Record link_ok (L : Link) : Prop := {
  lk_sup : Supervisor.reachable config auth (sup L);
  lk_conn : exists k, conns (sup L) !! c = Some k /\ (connected_here (client L) = true -> in_step L k);
  lk_idle : dpc (client L) = DConnect ->
    requests L = [] /\ got L = 0 /\ told L = [] /\ line (client L) = "" /\ part L = "";
  lk_session : forall p, dpc (client L) = DSession p -> torn L = false ->
    line (client L) = part L /\ conversing L
}.

(** A line is gone when the session is. *)
Definition line_ok (d : Driver) : Prop := match dpc d with DSession _ => True | _ => line d = "" end.

Lemma line_dispatch p l d : dpc d = DSession p -> line_ok (handle_line p l d).
Proof.
  intros Hp. unfold handle_line, line_ok. destruct (utf8_valid l); [|done].
  destruct (decode_event l) as [ev|]; [|by cbn; rewrite Hp].
  by destruct (dispatch_event ev p) as [[p' evs] xs].
Qed.

Lemma line_request p r w d : dpc d = DSession p -> line_ok (take_request p r w d).
Proof. intros Hp. unfold take_request, line_ok. destruct p; [by cbn; rewrite Hp|]. by destruct w. Qed.

Lemma line_step d l d' : driver_step cc d l = Some d' -> line_ok d -> line_ok d'.
Proof.
  unfold driver_step, attempt. intros Hs Hd. destruct l as [r| | | | | | | |h|w|s|s| | |early].
  all: destruct (dpc d) eqn:Hp; try done.
  all: repeat match type of Hs with context [match ?x with _ => _ end] => destruct x eqn:? end.
  all: simplify_eq; try by apply line_dispatch.
  all: try by apply line_request.
  all: unfold line_ok in *; cbn; rewrite ?Hp in *; done.
Qed.

Lemma line_run ls : forall d d', driver_run cc d ls = Some d' -> line_ok d -> line_ok d'.
Proof.
  induction ls as [|l ls IH]; intros d d'; cbn [driver_run]; [by intros [= <-]|].
  destruct (driver_step cc d l) eqn:Hl; [|done]. intros Hr Hd. by eapply IH, line_step.
Qed.

(** ** The supervisor's steps *)

Lemma conn_of_eq L k : conns (sup L) !! c = Some k -> conn_of c L = k.
Proof. unfold conn_of. by intros ->. Qed.

Lemma asks_turn r : asks (turn_of r) = true.
Proof. unfold turn_of. by destruct (what r). Qed.

Lemma fed_reads L k l n : fed c L l = Some n -> conns (sup L) !! c = Some k -> connected_here (client L) = true ->
  List.filter asks (reads c k l) = map turn_of (take n (drop (taken L) (requests L))) /\
  (taken L <= length (requests L) -> taken L + n <= length (requests L)).
Proof.
  intros Hf Hk Hc.
  assert (Hnone : n = 0 -> List.filter asks (reads c k l) = [] ->
    List.filter asks (reads c k l) = map turn_of (take n (drop (taken L) (requests L))) /\
    (taken L <= length (requests L) -> taken L + n <= length (requests L))).
  { intros -> ->. split; [done|lia]. }
  unfold fed in Hf. rewrite Hc, (conn_of_eq L k Hk) in Hf.
  destruct l as [|c' [| |[[s|]|e]| | | | |]| | | | | | |]; try (injection Hf as <-; apply Hnone; [done|];
    unfold reads; destruct (pc k); try done; by case_match).
  unfold reads in *. destruct (c' =? c)%nat; cbn [negb orb] in Hf.
  2: { injection Hf as <-. apply Hnone; [done|]. by destruct (pc k). }
  destruct (pc k); try (injection Hf as <-; by apply Hnone).
  { case_match; [|done]. injection Hf as <-. by apply Hnone. }
  destruct (requests L !! taken L) as [r|] eqn:Hr; [|done].
  destruct (String.eqb_spec s (encode_cmd (cmd r))) as [->|]; [|done]. injection Hf as <-.
  rewrite command_turn_cmd. fold (turn_of r). cbn [List.filter]. rewrite asks_turn.
  rewrite (drop_S _ _ _ Hr). cbn. split; [done|]. apply lookup_lt_Some in Hr. lia.
Qed.

Lemma take_plus {A} (l : list A) n m : take (n + m) l = (take n l ++ take m (drop n l))%list.
Proof. revert l. induction n as [|n IH]; intros [|x l]; cbn; rewrite ?take_nil; [done..|]. by rewrite IH. Qed.

Lemma sup_move_ok L l L' : link_ok L -> sup_move config auth c l L = Some L' -> link_ok L'.
Proof.
  intros [Hsup (k & Hk & Hin) Hidle Hses]. unfold sup_move.
  destruct (fed c L l) as [n|] eqn:Hf; [|done].
  destruct (Supervisor.step config auth (sup L) l) as [s'|] eqn:Hs; [|done]. intros [= <-].
  destruct (step_evolves config auth _ _ _ c k Hs Hk) as (k' & Hk' & Hh & evs & Hw).
  constructor; cbn.
  - by econstructor.
  - exists k'. split; [done|]. intros Hc. destruct (Hin Hc) as [H1 H2 H3].
    destruct (fed_reads L k l n Hf Hk Hc) as [Hr Hn]. constructor; cbn.
    + by rewrite Hh, List.filter_app, H1, Hr, take_plus, map_app.
    + auto.
    + rewrite Hw, length_app. lia.
  - done.
  - intros p Hp Ht. destruct (Hses p Hp Ht) as [Hline [H]]. split; [done|]. constructor.
    assert (Hc : connected_here (client L) = true) by (unfold connected_here; by rewrite Hp).
    destruct (Hin Hc) as [_ _ H3].
    assert (E : read_replies c (with_sup s' n L) = read_replies c L); [|rewrite E; exact H].
    unfold read_replies. rewrite (conn_of_eq _ k Hk). cbn.
    rewrite (conn_of_eq (with_sup s' n L) k' Hk'), Hw. by rewrite take_app_le.
Qed.

(** ** The driver's steps *)

(** The reply the driver reads next answers the request it waits for. *)
Lemma reply_for L k ev rs h answered p : Supervisor.reachable config auth (sup L) -> conns (sup L) !! c = Some k ->
  in_step L k -> wire k !! got L = Some ev -> is_push ev = false ->
  read_replies c L = h :: rs -> is_hello h = true -> dpc (client L) = DSession p ->
  requests L = (answered ++ in_flight (client L))%list -> length answered = length rs ->
  exists r, p = Some r /\ ReplyInv.answers (Some (turn_of r)) ev = true.
Proof.
  intros Hsup Hk [Hh Ht Hg] Hev Hpush Hread Hhello Hp Hreq Hlen.
  assert (Hrep : exists rest, replies k = (h :: rs ++ ev :: rest)%list).
  { unfold read_replies in Hread. rewrite (conn_of_eq L k Hk) in Hread.
    exists (List.filter (fun e => negb (is_push e)) (drop (S (got L)) (wire k))). unfold replies.
    rewrite <- (take_drop_middle (wire k) _ _ Hev) at 1. rewrite List.filter_app, Hread. cbn. by rewrite Hpush. }
  destruct Hrep as [rest Hrep].
  destruct (reachable_reply config auth _ Hsup c k Hk) as [Hu|(_ & _ & Hno)].
  2: { rewrite Hrep in Hno. inversion Hno. congruence. }
  destruct (some_prefix k Hu) as [n Hn]. rewrite Hrep in Hn.
  destruct (Forall2_lookup_r _ _ _ (S (length rs)) ev Hn) as (t & Hlook & Hans).
  { change ((rs ++ ev :: rest)%list !! length rs = Some ev). by apply list_lookup_middle. }
  apply lookup_take_Some in Hlook as [Hlook _]. unfold asked in Hlook.
  change ((None :: map Some (List.filter asks (heard k))) !! S (length rs))
    with (map Some (List.filter asks (heard k)) !! length rs) in Hlook.
  apply list_lookup_fmap_Some in Hlook as (t0 & -> & Ht0). rewrite Hh in Ht0.
  apply list_lookup_fmap_Some in Ht0 as (r & -> & Hr). apply lookup_take_Some in Hr as [Hr _].
  rewrite Hreq, lookup_app_r, Hlen, Nat.sub_diag in Hr by lia. unfold in_flight in Hr. rewrite Hp in Hr.
  destruct p as [r0|]; [|done]. injection Hr as ->. by exists r.
Qed.

(** A reply and a push, at the driver. *)
Lemma dispatch_outcome r ev : ReplyInv.answers (Some (turn_of r)) ev = true -> is_push ev = false ->
  exists x evs, outcome r ev = Some x /\ dispatch_event (client_event ev) (Some r) = (None, evs, [x]).
Proof.
  destruct r as [q t]. unfold turn_of, outcome. destruct q, ev; try done; cbn; intros H _; rewrite ?H; by eexists _, _.
Qed.

Lemma dispatch_push ev p : is_push ev = true ->
  exists evs, dispatch_event (client_event ev) p = (p, evs, []).
Proof. destruct ev; try done; intros _; by eexists. Qed.

(** The driver gets the line of an event. *)
Lemma handle_event ev p d : Proto.Event.wf ev ->
  handle_line p (Proto.encode_event ev) d =
  (let '(p', evs, xs) := dispatch_event (client_event ev) p in
   set_dpc (DSession p') (emit evs (answer xs (set_line "" d)))).
Proof.
  intros Hwf. destruct (encoded_event_one_line ev Hwf) as (b & Hb & _).
  pose proof (encode_event_line ev b Hwf Hb) as [_ Hu]. unfold handle_line.
  rewrite Hb, Hu, <- Hb, decode_encode_event by done. by destruct (dispatch_event _ p) as [[p' evs] xs].
Qed.

(** The session is over. *)
Lemma link_over L L' : link_ok L -> sup L' = sup L -> connected_here (client L') = false -> link_ok L'.
Proof.
  intros [Hsup (k & Hk & _) _ _] Hs Hc. unfold connected_here in Hc.
  constructor; rewrite ?Hs; [done| |intros Hp; by rewrite Hp in Hc|intros p Hp; by rewrite Hp in Hc].
  exists k. split; [done|]. unfold connected_here. by rewrite Hc.
Qed.

(** The driver stays where it is. *)
Lemma link_same L d : link_ok L -> dpc d = dpc (client L) -> line d = line (client L) ->
  link_ok (with_client d L).
Proof.
  intros [Hsup (k & Hk & Hin) Hidle Hses] Hp Hl. constructor; cbn [with_client sup client]; [done| | |].
  - exists k. split; [done|]. intros Hc. unfold connected_here in Hc. rewrite Hp in Hc. by destruct (Hin Hc).
  - intros Hd. rewrite Hp in Hd. destruct (Hidle Hd) as (? & ? & ? & Hline & ?).
    by rewrite Hl, Hline.
  - intros p Hd Ht. rewrite Hp in Hd. destruct (Hses p Hd Ht) as [Hline [H]]. split; [by rewrite Hl|]. constructor.
    unfold in_flight in *. cbn [with_client client]. rewrite Hp. exact H.
Qed.

(** A read was cut short: only the commands are still followed. *)
Lemma link_torn L L' : link_ok L -> sup L' = sup L -> connected_here (client L) = true ->
  dpc (client L') <> DConnect -> torn L' = true ->
  (forall k, conns (sup L) !! c = Some k -> in_step L k -> in_step L' k) -> link_ok L'.
Proof.
  intros [Hsup (k & Hk & Hin) _ _] Hs Hc Hd Ht Hstep. constructor; rewrite ?Hs; [done| |done|congruence].
  exists k. split; [done|]. auto.
Qed.

(** The next line is an event of the supervisor. *)
Lemma next_event L s : link_ok L -> is_next c s L = true ->
  exists k ev, conns (sup L) !! c = Some k /\ wire k !! got L = Some ev /\ Proto.Event.wf ev /\
    s = Proto.encode_event ev.
Proof using core_path_utf8.
  intros [Hsup (k & Hk & _) _ _] Hnext%bool_decide_eq_true. unfold next_line in Hnext.
  rewrite (conn_of_eq L k Hk) in Hnext. destruct (wire k !! got L) as [ev|] eqn:Hev; [|done].
  exists k, ev. split_and!; [done..| |by injection Hnext].
  destruct (ca_conn _ (reachable_typed config auth core_path_utf8 _ Hsup) c k Hk) as [_ Hw].
  eapply Forall_lookup_1; eauto.
Qed.

Lemma read_replies_eq L k : conns (sup L) !! c = Some k ->
  read_replies c L = List.filter (fun ev => negb (is_push ev)) (take (got L) (wire k)).
Proof. intros Hk. unfold read_replies. by rewrite (conn_of_eq L k Hk). Qed.

(** The driver reads an event and the session goes on. *)
Lemma link_read L k ev d xs p : link_ok L -> conns (sup L) !! c = Some k -> wire k !! got L = Some ev ->
  connected_here (client L) = true -> dpc d = DSession p -> line d = "" ->
  (torn L = false -> conversing (read_one xs (with_client d L))) -> link_ok (read_one xs (with_client d L)).
Proof.
  intros [Hsup (k' & Hk' & Hin) _ _] Hk Hev Hc Hp Hl Hcv. rewrite Hk in Hk'. injection Hk' as <-.
  constructor; cbn [read_one with_client sup client part torn]; [done| |by rewrite Hp|by auto].
  exists k. split; [done|]. intros _. destruct (Hin Hc). constructor; [done..|].
  by apply lookup_lt_Some in Hev.
Qed.

Lemma encoded_utf8 ev : Proto.Event.wf ev -> utf8_valid (Proto.encode_event ev) = true.
Proof. intros Hwf. destruct (encoded_event_one_line ev Hwf) as (b & Hb & _). rewrite Hb. by eapply encode_event_line. Qed.

(** The first line. *)
Lemma link_greeted L s d : link_ok L -> dpc (client L) = DConnect -> is_next c s L = true ->
  driver_step cc (client L) (DAttempt (HLine s)) = Some d -> link_ok (read_one [] (with_client d L)).
Proof using core_path_utf8.
  intros H Hp Hnext Hs. destruct (next_event L s H Hnext) as (k & ev & Hk & Hev & Hwf & ->).
  destruct (lk_idle L H Hp) as (Hreq & Hgot & Htold & Hline & _). unfold driver_step in Hs. rewrite Hp in Hs.
  injection Hs as <-. pose proof (encoded_utf8 ev Hwf) as Hu.
  destruct (is_hello ev) eqn:Hh.
  2: { apply (link_over L); [done..|]. unfold attempt, connect_and_hello. rewrite Hu, decode_encode_event by done.
       by destruct ev. }
  assert (Hd : dpc (attempt cc (HLine (Proto.encode_event ev)) (client L)) = DSession None /\
    line (attempt cc (HLine (Proto.encode_event ev)) (client L)) = "").
  { unfold attempt, connect_and_hello. rewrite Hu, decode_encode_event by done. by destruct ev. }
  destruct Hd as [Hd Hdl].
  apply (link_read L k ev _ _ None H Hk Hev); [by unfold connected_here; rewrite Hp|done|done|].
  intros _. constructor. exists ev, [], []. unfold in_flight. cbn [read_one with_client client requests told].
  rewrite Hd, Hreq, Htold, (read_replies_eq _ k) by exact Hk. split_and!; try done. cbn [read_one with_client got].
  rewrite Hgot in *. destruct (wire k) as [|e w]; [done|]. injection Hev as ->. cbn. by destruct ev.
Qed.

(** A session does not go back to its beginning. *)
Lemma session_leaves d l d' p : driver_step cc d l = Some d' -> dpc d = DSession p -> dpc d' <> DConnect.
Proof.
  unfold driver_step, handle_line, take_request. intros Hs Hp. rewrite Hp in Hs.
  destruct l as [r| | | | | | | |h|w|s|s| | |early]; try done.
  all: repeat match type of Hs with
       | context [dispatch_event ?e ?q] => destruct (dispatch_event e q) as [[? ?] ?]
       | context [match ?x with _ => _ end] => destruct x
       end; simplify_eq; cbn; congruence.
Qed.

Lemma attempt_leaves h d : dpc (attempt cc h d) <> DConnect.
Proof.
  unfold attempt. by destruct (connect_and_hello (next_takeover d) h) as [[[[]|[]] evs] cmds].
Qed.

(** The next line, to a driver whose reads were never cut short ... *)
Lemma link_line_whole L s d p : link_ok L -> dpc (client L) = DSession p -> torn L = false ->
  is_next c (part L ++ s ++ nl) L = true -> driver_step cc (client L) (DLine s) = Some d ->
  link_ok (read_one (drop (length (answers (client L))) (answers d)) (with_client d L)).
Proof using core_path_utf8.
  intros H Hp Ht Hnext Hs. destruct (next_event L _ H Hnext) as (k & ev & Hk & Hev & Hwf & Hline).
  destruct (lk_session L H p Hp Ht) as [Hpart [(h & rs & answered & Hread & Hhello & Hreq & Hlen & Htold)]].
  rewrite <- Hpart in Hline.
  assert (Hc : connected_here (client L) = true) by (unfold connected_here; by rewrite Hp).
  unfold driver_step in Hs. rewrite Hp in Hs. destruct (occurs "010" s); [done|]. injection Hs as <-.
  rewrite Hline, handle_event by done.
  assert (Hread' : forall xs d', read_replies c (read_one xs (with_client d' L)) =
    (h :: rs ++ (if is_push ev then [] else [ev]))%list).
  { intros xs d'. rewrite (read_replies_eq _ k) by exact Hk. cbn [read_one with_client got].
    rewrite (take_S_r _ _ _ Hev), List.filter_app, <- (read_replies_eq L k Hk), Hread. cbn. by destruct (is_push ev). }
  destruct (is_push ev) eqn:Hpush.
  - destruct (dispatch_push ev p Hpush) as [evs ->]. eapply link_read; try done. intros _. constructor.
    exists h, rs, answered. rewrite Hread', app_nil_r. unfold in_flight in *. rewrite Hp in Hreq.
    split_and!; try done. cbn. by rewrite app_nil_r, drop_all, app_nil_r.
  - pose proof H as [Hsup (k' & Hk' & Hin) _ _]. rewrite Hk in Hk'. injection Hk' as <-.
    destruct (reply_for L k ev rs h answered p) as (r & -> & Hans); auto.
    destruct (dispatch_outcome r ev Hans Hpush) as (x & evs & Hx & ->). eapply link_read; try done.
    intros _. constructor.
    exists h, (rs ++ [ev])%list, (answered ++ [r])%list. rewrite Hread'. unfold in_flight in *. rewrite Hp in Hreq.
    split_and!; [done|done| | |].
    + cbn. by rewrite app_nil_r.
    + rewrite !length_app. cbn. lia.
    + cbn. rewrite drop_app_length, map_app, Htold, zip_with_app by done. cbn. by rewrite Hx.
Qed.

(** ... and to any. *)
Lemma link_line L s d p : link_ok L -> dpc (client L) = DSession p -> is_next c (part L ++ s ++ nl) L = true ->
  driver_step cc (client L) (DLine s) = Some d ->
  link_ok (read_one (drop (length (answers (client L))) (answers d)) (with_client d L)).
Proof using core_path_utf8.
  intros H Hp Hnext Hs. destruct (torn L) eqn:Ht; [|by eapply link_line_whole].
  destruct (next_event L _ H Hnext) as (k & ev & Hk & Hev & _).
  apply (link_torn L); try done; [by unfold connected_here; rewrite Hp|by eapply session_leaves|].
  intros k' Hk' [H1 H2 _]. rewrite Hk in Hk'. injection Hk' as <-. constructor; [done..|]. cbn.
  by apply lookup_lt_Some in Hev.
Qed.

(** Before the first line the driver waits or gives up. *)
Lemma connecting_step d l d' : driver_step cc d l = Some d' -> dpc d = DConnect ->
  (forall s, l <> DAttempt (HLine s)) ->
  (dpc d' = dpc d /\ line d' = line d) \/ connected_here d' = false.
Proof.
  unfold driver_step, attempt. intros Hs Hp Hl. rewrite Hp in Hs. rewrite Hp.
  destruct l as [r| | | | | | | |[| | |s]|w|s|s| | |early]; try done; try by destruct (Hl s).
  all: repeat match type of Hs with context [if ?x then _ else _] => destruct x end; simplify_eq; auto.
Qed.

(** In a session a label that reads nothing and takes no request leaves it as it
    is or ends it. *)
Lemma session_step d l d' p : driver_step cc d l = Some d' -> dpc d = DSession p ->
  match l with
  | DLine _ | DBytes _ | DRequest _ => False
  | DEof => line d = ""
  | _ => True
  end -> (dpc d' = dpc d /\ line d' = line d) \/ connected_here d' = false.
Proof.
  unfold driver_step. intros Hs Hp Hl. rewrite Hp in Hs. rewrite Hp.
  destruct l as [r| | | | | | | |h|w|s|s| | |early]; try done.
  all: repeat match type of Hs with
       | context [if ?x then _ else _] => destruct x eqn:?
       | context [match queue ?x with _ => _ end] => destruct (queue x)
       end; simplify_eq; auto.
  by rewrite Hl in Heqb.
Qed.

(** A request is taken, and its command written if none is in flight. *)
Lemma link_request L d w p : link_ok L -> dpc (client L) = DSession p ->
  driver_step cc (client L) (DRequest w) = Some d ->
  link_ok (cut (match p, w, queue (client L) with
                | None, WOk, r :: _ => wrote [r] (with_client d L) | _, _, _ => with_client d L end)).
Proof.
  intros H Hp Hs. assert (Hc : connected_here (client L) = true) by (unfold connected_here; by rewrite Hp).
  destruct (torn L || negb (part L =? "")) eqn:Ht.
  - apply (link_torn L); [done| |done| | |].
    + by destruct p, w, (queue (client L)).
    + apply (session_leaves _ _ _ _ Hs) in Hp as Hd. by destruct p, w, (queue (client L)).
    + by destruct p, w, (queue (client L)).
    + intros k Hk [H1 H2 H3]. destruct p, w, (queue (client L)); constructor; cbn; try done; [by rewrite take_app_le|].
      rewrite length_app. lia.
  - apply orb_false_iff in Ht as [Ht Hpart]. apply negb_false_iff, String.eqb_eq in Hpart.
    destruct H as [Hsup (k & Hk & Hin) Hidle Hses].
    destruct (Hses p Hp Ht) as [Hline [(h & rs & answered & Hread & Hhello & Hreq & Hlen & Htold)]].
    unfold driver_step in Hs. rewrite Hp in Hs. destruct (queue (client L)) as [|r q] eqn:Hq; [done|].
    injection Hs as <-. unfold in_flight in Hreq. rewrite Hp in Hreq. unfold take_request.
    destruct p as [r0|]; [|destruct w].
    + constructor; cbn; [done| |by rewrite Hp|].
      * exists k. split; [done|]. intros _. by destruct (Hin Hc).
      * intros p _ _. split; [done|]. constructor. exists h, rs, answered. unfold in_flight. cbn. by rewrite Hp.
    + constructor; cbn; [done| |done|].
      * exists k. split; [done|]. intros _. destruct (Hin Hc). constructor; cbn; [by rewrite take_app_le|rewrite length_app; lia|done].
      * intros p _ _. split; [done|]. constructor. exists h, rs, answered. unfold in_flight. cbn.
        rewrite app_nil_r in Hreq. by rewrite Hreq.
    + apply (link_over L); [by constructor; eauto|done|done].
    + apply (link_over L); [by constructor; eauto|done|done].
Qed.

(** The stream ends. *)
Lemma link_eof L d p : link_ok L -> dpc (client L) = DSession p ->
  driver_step cc (client L) DEof = Some d -> link_ok (cut (with_client d L)).
Proof.
  intros H Hp Hs. destruct (torn L || negb (part L =? "")) eqn:Ht.
  - apply (link_torn L); try done; [by unfold connected_here; rewrite Hp|by eapply session_leaves|].
    by intros k Hk [].
  - apply orb_false_iff in Ht as [Ht Hpart]. apply negb_false_iff, String.eqb_eq in Hpart.
    destruct (lk_session L H p Hp Ht) as [Hline _]. apply (link_over L); [done..|].
    unfold driver_step in Hs. rewrite Hp, Hline, Hpart in Hs. by injection Hs as <-.
Qed.

(** Bytes arrive. *)
Lemma link_fetched L d s p : link_ok L -> dpc (client L) = DSession p ->
  driver_step cc (client L) (DBytes s) = Some d -> link_ok (fetched s (with_client d L)).
Proof.
  intros [Hsup (k & Hk & Hin) _ Hses] Hp Hs. unfold driver_step in Hs. rewrite Hp in Hs.
  destruct (occurs "010" s); [done|]. injection Hs as <-.
  constructor; cbn; rewrite ?Hp; [done| |done|].
  - exists k. split; [done|]. intros _. destruct Hin as [H1 H2 H3]; [by unfold connected_here; rewrite Hp|done].
  - intros p' [= <-] Ht. destruct (Hses p Hp Ht) as [-> [Hcv]]. split; [done|]. constructor.
    unfold in_flight in *. cbn. by rewrite Hp in *.
Qed.

Lemma client_move_ok L l L' : link_ok L -> client_move cc c l L = Some L' -> link_ok L'.
Proof using core_path_utf8.
  intros H. unfold client_move. destruct (driver_step cc (client L) l) as [d|] eqn:Hs; [|done].
  assert (Hstay : (dpc d = dpc (client L) /\ line d = line (client L)) \/ connected_here d = false ->
    link_ok (with_client d L)).
  { intros [[Hd Hl]|Hd]; [by apply link_same|by apply (link_over L)]. }
  destruct (dpc (client L)) as [|p| | |] eqn:Hp; try done.
  - assert (Hd : (forall s, l <> DAttempt (HLine s)) -> link_ok (with_client d L)).
    { intros Hno. apply Hstay. rewrite <- Hp. by eapply connecting_step. }
    destruct l as [r| | | | | | | |[| | |s]|w|s|s| | |early]; try (intros [= <-]; by apply Hd).
    destruct (is_next c s L) eqn:Hn; [intros [= <-]; by apply (link_greeted L s d)|].
    destruct (next_line c L) as [next|]; [|done]. destruct (String.eqb_spec s "") as [|Hne]; [done|].
    destruct (starts_with s next); [|done]. intros [= <-].
    assert (Hd' : dpc d <> DConnect).
    { unfold driver_step in Hs. rewrite Hp in Hs. injection Hs as <-. apply attempt_leaves. }
    destruct (lk_idle L H Hp) as (_ & _ & _ & _ & Hpart).
    apply (link_torn L); try done; [by unfold connected_here; rewrite Hp|cbn|by intros k Hk []].
    rewrite Hpart. apply orb_true_iff. right. cbn. destruct (String.eqb_spec s ""); done.
  - assert (Hd : match l with DLine _ | DBytes _ | DRequest _ => False | DEof => line (client L) = "" | _ => True end ->
      link_ok (with_client d L)).
    { intros Hl. apply Hstay. rewrite <- Hp. by eapply session_step. }
    destruct l as [r| | | | | | | |h|w|s|s| | |early]; try (intros [= <-]; by apply Hd).
    + intros [= <-]. by apply link_request.
    + destruct (next_line c L); [|done]. destruct (starts_with _ _); [|done]. intros [= <-]. by eapply link_fetched.
    + destruct (is_next c _ L) eqn:Hn; [|done]. intros [= <-]. by apply (link_line L s d p).
    + intros [= <-]. by eapply link_eof.
Qed.

(** ** Every run *)

Lemma link_start_ok s d peer ls : Supervisor.reachable config auth s -> conns s !! c = Some (new_conn peer) ->
  driver_run cc (driver_init cc) ls = Some d -> dpc d = DConnect -> link_ok (link_start s d).
Proof.
  intros Hs Hk Hr Hp. constructor; cbn [link_start sup client]; [done| | |by rewrite Hp].
  - exists (new_conn peer). split; [done|]. intros _. constructor; cbn; [done|lia..].
  - intros _. split_and!; [done..| |done]. pose proof (line_run ls _ _ Hr eq_refl) as H. unfold line_ok in H. by rewrite Hp in H.
Qed.

Lemma link_run_ok acts : forall L L', link_ok L -> link_run config auth cc c L acts = Some L' -> link_ok L'.
Proof using core_path_utf8.
  induction acts as [|[l|l] acts IH]; intros L L' HL; cbn [link_run link_step]; [by intros [= <-]|..].
  - destruct (sup_move config auth c l L) as [L1|] eqn:Hl; [|done]. by eapply IH, sup_move_ok.
  - destruct (client_move cc c l L) as [L1|] eqn:Hl; [|done]. by eapply IH, client_move_ok.
Qed.

(** All the supervisor has read is answered when its thread waits for the next
    command and the driver has read everything. *)
Lemma nothing_in_flight L p : link_ok L -> dpc (client L) = DSession p -> pc (conn_of c L) = PLoop ->
  live (conn_of c L) = true -> got L = length (wire (conn_of c L)) -> taken L = length (requests L) ->
  torn L = false -> p = None.
Proof.
  intros H Hp Hpc Hlive Hgot Htaken Htorn. pose proof H as [Hsup (k & Hk & Hin) _ Hses].
  rewrite (conn_of_eq L k Hk) in *. destruct (Hses p Hp Htorn) as [_ [(h & rs & answered & Hread & _ & Hreq & Hlen & _)]].
  destruct Hin as [Hh _ _]; [by unfold connected_here; rewrite Hp|].
  destruct (reachable_reply config auth _ Hsup c k Hk) as [Hu|[Hd _]]; [|by rewrite Hpc in Hd].
  unfold up_to_date in Hu. rewrite Hlive, Hpc in Hu. cbn in Hu. apply Forall2_length in Hu.
  rewrite (read_replies_eq L k Hk), Hgot, firstn_all in Hread. fold (replies k) in Hread. rewrite Hread in Hu.
  unfold asked in Hu. cbn in Hu. rewrite length_map, Hh, length_map, Htaken, firstn_all, Hreq, length_app, Hlen in Hu.
  unfold in_flight in Hu. rewrite Hp in Hu. destruct p; [cbn in Hu; lia|done].
Qed.

(** C7: the supervisor and the bridge, connected, match replies to requests
    although the protocol carries no request ids: however the supervisor's
    threads, its other connections, the processes and the client's callers
    interleave, in every session of the driver the answers it gives on reading the
    connection are, one to one and in order, what the supervisor replied to the
    commands of the very requests that are answered ([core_started] and
    [spawn_failed] to a start, [core_stopped] to a stop, [status] to a status, so
    that no caller is told of an unexpected reply), and only the last request can
    be unanswered; none is when the supervisor's thread waits for a command and
    everything written has been read.  All this is of a connection on which no read
    was cut short so far: once a request, or the end of the stream, has come in the
    middle of a line, a reply may be lost ([interrupted_read_loses_reply]). *)
Theorem replies_reach_their_requests s d peer ls acts L p :
  Supervisor.reachable config auth s -> conns s !! c = Some (new_conn peer) ->
  driver_run cc (driver_init cc) ls = Some d -> dpc d = DConnect ->
  link_run config auth cc c (link_start s d) acts = Some L -> dpc (client L) = DSession p ->
  torn L = false ->
  (exists hello rs answered, read_replies c L = hello :: rs /\ is_hello hello = true /\
    requests L = (answered ++ in_flight (client L))%list /\ length answered = length rs /\
    map Some (told L) = zip_with outcome answered rs) /\
  (pc (conn_of c L) = PLoop -> live (conn_of c L) = true -> got L = length (wire (conn_of c L)) ->
   taken L = length (requests L) -> p = None).
Proof using core_path_utf8.
  intros Hs Hk Hr Hd Hrun Hp Ht.
  pose proof (link_run_ok acts _ _ (link_start_ok s d peer ls Hs Hk Hr Hd) Hrun) as H.
  split; [by destruct (lk_session L H p Hp Ht) as [_ []]|]. intros. by apply (nothing_in_flight L p).
Qed.

End Proofs.

(** ** Witness *)

Import Schedule.

Definition accepted : Sys := default initial (Schedule.run [LAccept (Ok 501%Z)]).

Definition sup_acts (ls : list Supervisor.Label) : list (Supervisor.Label + DLabel) := map inl ls.

(** A start, whose reply comes in two pieces, the death of the core, and a status;
    a stop is refused meanwhile. *)
Definition talk : list (Supervisor.Label + DLabel) :=
  sup_acts ([LConn 0 (IClone true); LConn 0 (line_of (Cmd.Hello 1 false)); LConn 0 INone; LConn 0 INone] ++ greeted 0) ++
  [inr (DIssue {| what := RStart; ticket := 7 |}); inr (DAttempt (HLine hello_line)); inr (DRequest WOk)] ++
  sup_acts (spawns 0 4321 ++ started 0) ++
  [inr (DBytes half1); inr (DLine half2)] ++
  sup_acts (dies 0 11 ++ [LMonitor 0 JNone; LMonitor 0 JNone]) ++
  [inr (DIssue {| what := RStatus; ticket := 8 |}); inr (DIssue {| what := RStop; ticket := 9 |});
   inr (DRequest WOk); inr (DRequest WOk)] ++
  sup_acts [LConn 0 (line_of Cmd.Status); LConn 0 INone; LConn 0 INone] ++
  [inr (DLine (String.substring 0 (String.length (Proto.encode_event (Proto.Event.CoreExited None (Some 11%Z))) - 1)
     (Proto.encode_event (Proto.Event.CoreExited None (Some 11%Z)))));
   inr (DLine (String.substring 0 (String.length (Proto.encode_event (Proto.Event.Status Proto.CoreState.Stopped None None)) - 1)
     (Proto.encode_event (Proto.Event.Status Proto.CoreState.Stopped None None))))].

Definition talked : Link :=
  default (link_start accepted (driver_init the_client))
    (link_run the_config the_auth the_client 0 (link_start accepted (driver_init the_client)) talk).

Example talk_told : map fst (answers (client talked)) = [7; 9; 8] /\ map fst (told talked) = [7; 8] /\ got talked = 4.
Proof. vm_compute. done. Qed.

(** The same start, but a request comes between the two pieces of its reply: the
    reply is lost to its caller. *)
Definition cut_short : list (Supervisor.Label + DLabel) :=
  sup_acts ([LConn 0 (IClone true); LConn 0 (line_of (Cmd.Hello 1 false)); LConn 0 INone; LConn 0 INone] ++ greeted 0) ++
  [inr (DIssue {| what := RStart; ticket := 7 |}); inr (DAttempt (HLine hello_line)); inr (DRequest WOk)] ++
  sup_acts (spawns 0 4321 ++ started 0) ++
  [inr (DBytes half1); inr (DIssue {| what := RStatus; ticket := 8 |}); inr (DRequest WOk); inr (DLine half2)].

Example cut_short_loses : exists L,
  link_run the_config the_auth the_client 0 (link_start accepted (driver_init the_client)) cut_short = Some L /\
  torn L = true /\ got L = 2 /\ told L = [] /\ in_flight (client L) = [{| what := RStart; ticket := 7 |}].
Proof. eexists. split; [vm_compute; reflexivity|]. by vm_compute. Qed.

Lemma accepted_reachable : Schedule.reachable accepted.
Proof.
  apply (run_reachable the_config the_auth [LAccept (Ok 501%Z)] initial); [constructor|]. vm_compute. reflexivity.
Qed.

Lemma replies_reach_their_requests_witness :
  torn talked = false /\
  told talked = [(7, Started {| si_pid := 4321; si_rpc_port := 50321 |});
    (8, StatusOk {| st_core := ClientProto.CoreState.Stopped; st_pid := None; st_rpc_port := None |})] /\
  requests talked = [{| what := RStart; ticket := 7 |}; {| what := RStatus; ticket := 8 |}] /\
  exists hello rs answered, read_replies 0 talked = hello :: rs /\ is_hello hello = true /\
    requests talked = (answered ++ in_flight (client talked))%list /\ length answered = length rs /\
    map Some (told talked) = zip_with outcome answered rs.
Proof.
  split; [vm_compute; reflexivity|]. split; [vm_compute; reflexivity|]. split; [vm_compute; reflexivity|].
  apply (replies_reach_their_requests the_config the_auth the_client ltac:(vm_compute; reflexivity) 0
    accepted (driver_init the_client) (Ok 501%Z) [] talk talked None accepted_reachable);
    vm_compute; reflexivity.
Defined.
