(* ===== verification/Install.v ===== *)
(** * Installing the supervisor: [bridge/src/install.rs]

    The command line is quoted for [/bin/sh], then escaped for an AppleScript
    string literal. *)

From Stdlib Require Import ZArith Lia Ascii String.
From stdpp Require Import base list strings.
From S2P Require Import Prelude RustStr Config Auth Hooks CoreProc Janitor.

Open Scope string_scope.

Definition PLIST_PATH : string := "/Library/LaunchDaemons/com.easytier.supervisor.plist".
Definition SUPERVISOR_DST : string :=
  "/Library/Application Support/EasyTier/bin/easytier-supervisor".
Definition CORE_DST : string := "/Library/Application Support/EasyTier/bin/easytier-core".

Record InstallationStatus : Type := {
  plist_exists : bool;
  supervisor_bin_exists : bool;
  core_bin_exists : bool;
  installed : bool
}.

(** ** Quoting *)

Definition squote : ascii := "'"%char.
Definition dquote : ascii := "034"%char.
Definition bslash : ascii := "092"%char.

(** [s.replace(c, r)]. *)
Fixpoint replace_char (c : ascii) (r s : string) : string :=
  match s with
  | "" => ""
  | String d s => (if (d =? c)%char then r else String d "") ++ replace_char c r s
  end.

Definition shell_quote (s : string) : string :=
  "'" ++ replace_char squote (String squote (String bslash (String squote (String squote "")))) s ++ "'".

Definition applescript_escape (s : string) : string :=
  replace_char dquote (String bslash (String dquote ""))
    (replace_char bslash (String bslash (String bslash "")) s).

Section Install.
(** The build's manifest directory, the file system, the uid and [osascript]: its
    success and its stderr. *)
Context (CARGO_MANIFEST_DIR : string).
Context (exists_ : string -> bool).
Context (getuid : Z).
Context (osascript : string -> result (bool * string) string).

Definition installation_status : InstallationStatus :=
  let plist := exists_ PLIST_PATH in
  let sup := exists_ SUPERVISOR_DST in
  let core := exists_ CORE_DST in
  {| plist_exists := plist; supervisor_bin_exists := sup; core_bin_exists := core;
     installed := plist && sup && core |}.

Definition repo_root : string := path_join CARGO_MANIFEST_DIR "..".
Definition scripts_dir : string := path_join repo_root "scripts".
Definition dev_bin (name : string) : string :=
  path_join (path_join (path_join repo_root "target") "debug") name.

Definition admin_script (raw_cmd : string) : string :=
  "do shell script " ++ String dquote (applescript_escape raw_cmd ++
    String dquote " with administrator privileges").

Definition run_osascript_admin (raw_cmd : string) : result unit string :=
  match osascript (admin_script raw_cmd) with
  | Err e => Err ("failed to launch osascript: " ++ e)
  | Ok (true, _) => Ok tt
  | Ok (false, stderr) => Err ("privileged command failed: " ++ trim (from_utf8_lossy stderr))
  end.

Definition install_command (script supervisor_bin core_bin : string) : string :=
  shell_quote script ++ " --supervisor-bin " ++ shell_quote supervisor_bin ++
  " --core-bin " ++ shell_quote core_bin ++ " --owner-uid " ++ dec getuid.

Definition vendored_core : string :=
  path_join (path_join (path_join (path_join (path_join repo_root "vendor") "EasyTier") "target") "debug")
    "easytier-core".

Definition run_install (supervisor_bin core_bin : option string) : result unit string :=
  let supervisor_bin := default (dev_bin "easytier-supervisor") supervisor_bin in
  let core_bin := default vendored_core core_bin in
  let script := path_join scripts_dir "install.sh" in
  if negb (exists_ script) then Err ("install script not found: " ++ script)
  else if negb (exists_ supervisor_bin) then
    Err ("supervisor binary not found: " ++ supervisor_bin ++ " (build it first)")
  else if negb (exists_ core_bin) then
    Err ("core binary not found: " ++ core_bin ++ " (build it first)")
  else run_osascript_admin (install_command script supervisor_bin core_bin).

Definition run_uninstall : result unit string :=
  let script := path_join scripts_dir "uninstall.sh" in
  if negb (exists_ script) then Err ("uninstall script not found: " ++ script)
  else run_osascript_admin (shell_quote script).

End Install.

(** ** What the two readers of the text must see *)

(** The quoting rules of the POSIX shell: the fields of a command of plain
    characters, blanks, single-quoted text and escaped characters; [None] if
    anything else would be left to the shell's expansions or operators. *)
Definition plain (c : ascii) : bool :=
  within 48 57 c || within 65 90 c || within 97 122 c || within 45 47 c || within 95 95 c.

Inductive Quoting : Type := Unquoted | Quoted | Escaped.

Definition field (cur : option string) : list string :=
  match cur with Some w => [w] | None => [] end.

Definition grow (cur : option string) (c : ascii) : option string :=
  Some (default "" cur ++ String c "").

Fixpoint sh_fields (q : Quoting) (cur : option string) (s : string) : option (list string) :=
  match q, s with
  | Unquoted, "" => Some (field cur)
  | _, "" => None
  | Unquoted, String c s =>
      if (c =? squote)%char then sh_fields Quoted (Some (default "" cur)) s
      else if (c =? bslash)%char then sh_fields Escaped cur s
      else if (c =? " ")%char then
        option_map (app (field cur)) (sh_fields Unquoted None s)
      else if plain c then sh_fields Unquoted (grow cur c) s
      else None
  | Quoted, String c s =>
      if (c =? squote)%char then sh_fields Unquoted cur s else sh_fields Quoted (grow cur c) s
  | Escaped, String c s => sh_fields Unquoted (grow cur c) s
  end.

(** An AppleScript string literal, after its opening quote: its value and what
    follows the closing one.  A backslash takes the next character as it is; the
    escapes that stand for another character are left out. *)
Fixpoint as_literal (esc : bool) (s : string) : option (string * string) :=
  match s with
  | "" => None
  | String c s =>
      if esc then
        if (c =? dquote)%char || (c =? bslash)%char
        then option_map (fun p => (String c p.1, p.2)) (as_literal false s) else None
      else if (c =? bslash)%char then as_literal true s
      else if (c =? dquote)%char then Some ("", s)
      else option_map (fun p => (String c p.1, p.2)) (as_literal false s)
  end.

(** ** Properties *)

(** The inside of a quoted word, up to its closing quote. *)
Lemma quoted_inside s : forall w rest,
  sh_fields Quoted (Some w)
    (replace_char squote (String squote (String bslash (String squote (String squote "")))) s
     ++ String squote rest)
  = sh_fields Unquoted (Some (w ++ s)) rest.
Proof.
  induction s as [|c s IH]; intros w rest.
  - cbn. by rewrite sapp_nil_r.
  - cbn [replace_char]. destruct (Ascii.eqb_spec c squote) as [->|Hne].
    + cbn. rewrite IH. cbn. by rewrite sapp_assoc.
    + rewrite sapp_assoc. cbn [String.append sh_fields].
      apply Ascii.eqb_neq in Hne. rewrite Hne. unfold grow. cbn [default]. rewrite IH, sapp_assoc. done.
Qed.

Lemma shell_quote_field s rest :
  sh_fields Unquoted None (shell_quote s ++ rest) = sh_fields Unquoted (Some s) rest.
Proof. unfold shell_quote. cbn. rewrite sapp_assoc. cbn. by rewrite quoted_inside. Qed.

Fixpoint all_plain (s : string) : bool :=
  match s with "" => true | String c s => plain c && all_plain s end.

Lemma plain_step c cur s : plain c = true ->
  sh_fields Unquoted cur (String c s) = sh_fields Unquoted (grow cur c) s.
Proof.
  intros Hc. cbn. rewrite Hc.
  destruct (Ascii.eqb_spec c squote) as [->|_]; [done|].
  destruct (Ascii.eqb_spec c bslash) as [->|_]; [done|].
  by destruct (Ascii.eqb_spec c " ") as [->|_].
Qed.

Lemma plain_field w : forall cur rest, all_plain w = true ->
  sh_fields Unquoted (Some cur) (w ++ rest) = sh_fields Unquoted (Some (cur ++ w)) rest.
Proof.
  induction w as [|c w IH]; intros cur rest; cbn [all_plain String.append].
  - by rewrite sapp_nil_r.
  - intros [Hc Hw]%andb_prop. rewrite plain_step by done. unfold grow. cbn [default].
    rewrite IH by done. by rewrite sapp_assoc.
Qed.

Lemma digits_plain s : all_digits s = true -> all_plain s = true.
Proof.
  induction s as [|c s IH]; cbn; [done|]. intros [Hc Hs]%andb_prop. rewrite IH by done.
  unfold plain. by rewrite Hc.
Qed.

Lemma replace_char_app c r a b : replace_char c r (a ++ b) = replace_char c r a ++ replace_char c r b.
Proof. induction a as [|d a IH]; cbn [replace_char String.append]; [done|]. by rewrite IH, sapp_assoc. Qed.

Lemma as_literal_escape s rest :
  as_literal false (applescript_escape s ++ String dquote rest) = Some (s, rest).
Proof.
  unfold applescript_escape. induction s as [|c s IH]; [done|]. cbn [replace_char].
  rewrite replace_char_app, sapp_assoc. destruct (Ascii.eqb_spec c bslash) as [->|Hb].
  - cbn. by rewrite IH.
  - cbn [replace_char]. destruct (Ascii.eqb_spec c dquote) as [->|Hq].
    + cbn. by rewrite IH.
    + cbn. apply Ascii.eqb_neq in Hb, Hq. rewrite Hb, Hq. by rewrite IH.
Qed.

(** A blank, an option and a blank end the word before them. *)
Lemma option_word w c o rest : all_plain (String c o) = true ->
  sh_fields Unquoted (Some w) (" " ++ String c o ++ " " ++ rest)
  = option_map (app [w; String c o]) (sh_fields Unquoted None rest).
Proof.
  cbn [all_plain]. intros [Hc Ho]%andb_prop. cbn [String.append].
  change (sh_fields Unquoted (Some w) (String " " (String c (o ++ String " " rest)))) with
    (option_map (app [w]) (sh_fields Unquoted None (String c (o ++ String " " rest)))).
  rewrite plain_step by done. unfold grow. cbn [default String.append]. rewrite plain_field by done.
  cbn. by destruct (sh_fields Unquoted None rest).
Qed.

(** C36: the installation command survives both of its readers: AppleScript reads
    the literal in the script back as the command, and the shell splits the
    command into the script's path, the three options and their values, each path
    being one word whatever characters it holds. *)
Theorem install_command_words uid script sup core : (0 <= uid)%Z -> exists lit,
  admin_script (install_command uid script sup core) = "do shell script " ++ String dquote lit /\
  as_literal false lit =
    Some (install_command uid script sup core, " with administrator privileges") /\
  sh_fields Unquoted None (install_command uid script sup core) =
    Some [script; "--supervisor-bin"; sup; "--core-bin"; core; "--owner-uid"; dec uid].
Proof.
  intros Huid. eexists. split; [reflexivity|]. split; [apply as_literal_escape|].
  unfold install_command. rewrite shell_quote_field.
  change (" --supervisor-bin " ++ ?x) with (" " ++ "--supervisor-bin" ++ " " ++ x).
  rewrite option_word by done. rewrite shell_quote_field.
  change (" --core-bin " ++ ?x) with (" " ++ "--core-bin" ++ " " ++ x).
  rewrite option_word by done. rewrite shell_quote_field.
  change (" --owner-uid " ++ ?x) with (" " ++ "--owner-uid" ++ " " ++ x).
  rewrite option_word by done. rewrite <- (sapp_nil_r (dec uid)).
  pose proof (digits_plain _ (all_digits_dec uid Huid)) as Hd.
  pose proof (dec_not_sign uid Huid) as Hns. destruct (dec uid) as [|c r]; [done|].
  cbn [all_plain] in Hd. apply andb_prop in Hd as [Hc Hr]. cbn [String.append].
  rewrite plain_step, sapp_nil_r by done. unfold grow. cbn [default String.append].
  by rewrite <- (sapp_nil_r r), plain_field, !sapp_nil_r by done.
Qed.

Lemma install_command_words_witness :
  shell_quote "it's" = "'it'\''s'" /\ exists lit,
  admin_script (install_command 501 "/a b/install.sh" "/x/it's" "/c$d") = "do shell script " ++ String dquote lit /\
  sh_fields Unquoted None (install_command 501 "/a b/install.sh" "/x/it's" "/c$d") =
    Some ["/a b/install.sh"; "--supervisor-bin"; "/x/it's"; "--core-bin"; "/c$d"; "--owner-uid"; "501"].
Proof.
  split; [vm_compute; reflexivity|].
  destruct (install_command_words 501 "/a b/install.sh" "/x/it's" "/c$d" ltac:(lia)) as (lit & Ha & _ & Hs).
  exists lit. split; [exact Ha|exact Hs].
Defined.
