(* ===== verification/Conflict.v ===== *)
(** * Conflict detection: [bridge/src/conflict.rs] *)

From Stdlib Require Import ZArith Lia Ascii String.
From stdpp Require Import base list strings.
From S2P Require Import Prelude RustStr.

Open Scope string_scope.

Definition MANAGED_CORE : string := "/Library/Application Support/EasyTier/bin/easytier-core".

Record Conflicts : Type := {
  unmanaged_core : bool;
  unmanaged_core_cmds : list string;
  tun_vpn : bool;
  tun_vpn_cmds : list string
}.

Definition no_conflicts : Conflicts := {|
  unmanaged_core := false; unmanaged_core_cmds := []; tun_vpn := false; tun_vpn_cmds := [] |}.

Definition is_core_argv0 (argv0 : string) : bool :=
  (argv0 =? "easytier-core") || ends_with "/easytier-core" argv0.

Definition is_managed_core (args : string) : bool :=
  (args =? MANAGED_CORE) || starts_with (MANAGED_CORE ++ " ") args.

Definition is_tun_vpn (argv0 : string) : bool :=
  bool_decide (basename argv0 ∈
    ["mihomo"; "clash"; "clash-meta"; "clashx"; "ClashX"; "sing-box"; "sing_box"]).

(** [args.split_whitespace().next().unwrap_or("")] of a trimmed text. *)
Definition first_word (args : string) : string :=
  match split_once_ws args with Some (a, _) => a | None => args end.

(** The command line and the first word of a line of [ps]. *)
Definition line_args (line : string) : option string :=
  match split_once_ws (trim_start line) with Some (_, args) => Some (trim args) | None => None end.

Definition classify_line (c : Conflicts) (line : string) : Conflicts :=
  match line_args line with
  | None => c
  | Some args =>
      let argv0 := first_word args in
      let c :=
        if is_core_argv0 argv0 && negb (is_managed_core args)
        then {| unmanaged_core := true; unmanaged_core_cmds := unmanaged_core_cmds c ++ [args];
                tun_vpn := tun_vpn c; tun_vpn_cmds := tun_vpn_cmds c |}
        else c in
      if is_tun_vpn argv0
      then {| unmanaged_core := unmanaged_core c; unmanaged_core_cmds := unmanaged_core_cmds c;
              tun_vpn := true; tun_vpn_cmds := tun_vpn_cmds c ++ [args] |}
      else c
  end%list.

Definition classify (lines : list string) : Conflicts := foldl classify_line no_conflicts lines.

(** [ps] is the output of [ps], or [None] when it could not be run or failed. *)
Definition process_lines (ps : option string) : option (list string) :=
  option_map (fun output => lines (from_utf8_lossy output)) ps.

Definition detect (ps : option string) : Conflicts :=
  match process_lines ps with Some ls => classify ls | None => no_conflicts end.

(** ** Properties *)

(** The command lines that are a core, or a VPN. *)
Definition core_cmds (ls : list string) : list string :=
  List.filter (fun a => is_core_argv0 (first_word a) && negb (is_managed_core a)) (omap line_args ls).
Definition vpn_cmds (ls : list string) : list string :=
  List.filter (fun a => is_tun_vpn (first_word a)) (omap line_args ls).

Lemma classify_from ls : forall c, foldl classify_line c ls =
  {| unmanaged_core := unmanaged_core c || negb (bool_decide (core_cmds ls = []));
     unmanaged_core_cmds := unmanaged_core_cmds c ++ core_cmds ls;
     tun_vpn := tun_vpn c || negb (bool_decide (vpn_cmds ls = []));
     tun_vpn_cmds := tun_vpn_cmds c ++ vpn_cmds ls |}%list.
Proof.
  induction ls as [|l ls IH]; intros c; cbn [foldl].
  - destruct c. cbn. by rewrite !orb_false_r, !app_nil_r.
  - rewrite IH. unfold classify_line, core_cmds, vpn_cmds. cbn [omap list_omap].
    destruct (line_args l) as [a|]; [|done]. cbn [List.filter].
    destruct (is_core_argv0 (first_word a) && negb (is_managed_core a)), (is_tun_vpn (first_word a));
      cbn; rewrite ?orb_true_r, <- ?app_assoc; done.
Qed.

(** The report lists, in the order of [ps], exactly the command lines whose
    first word names a core and that are not the managed one, and those whose
    first word names a known VPN; each flag says whether its list is not empty. *)
Theorem classify_spec ls :
  unmanaged_core_cmds (classify ls) = core_cmds ls /\
  tun_vpn_cmds (classify ls) = vpn_cmds ls /\
  (unmanaged_core (classify ls) = true <-> core_cmds ls <> []) /\
  (tun_vpn (classify ls) = true <-> vpn_cmds ls <> []).
Proof.
  unfold classify. rewrite classify_from. cbn. split_and!; try done; rewrite negb_true_iff;
    apply bool_decide_eq_false.
Qed.

(** A managed core is never reported: its path has a blank, so its first word is
    not the name of a core. *)
Lemma managed_first_word args : is_managed_core args = true -> first_word args = "/Library/Application".
Proof.
  unfold is_managed_core. intros [H|H]%orb_prop.
  - apply String.eqb_eq in H as ->. reflexivity.
  - apply starts_with_spec in H as [t ->]. reflexivity.
Qed.

(** For the same reason an unmanaged core whose path has a blank is missed. *)
Theorem spaced_core_missed :
  classify ["  501 /Users/me/My Apps/easytier-core --daemon"] = no_conflicts.
Proof. vm_compute. reflexivity. Qed.
