(* ===== verification/Rpc.v ===== *)
(** * The RPC client: [bridge/src/rpc.rs]

    The port, the calls over it with their error texts, the rows of the status
    table, the bounded retry of [run_network_instance] and the text of a rejected
    configuration.  The calls themselves and the data they return are the
    [easytier] crate's: [Crate] is what the code reads of them. *)

From Stdlib Require Import ZArith Lia Ascii String.
From stdpp Require Import base list strings.
From S2P Require Import Prelude RustStr.

Open Scope string_scope.

(** ** [new_client] *)

Definition NO_PORT : string := "core is not running (no rpc port)".

Definition new_client (port : option Z) : result string string :=
  match port with
  | Some p => Ok ("tcp://127.0.0.1:" ++ dec p)
  | None => Err NO_PORT
  end.

(** ** Status of an instance *)

Record PeerRow {f64 : Type} : Type := {
  peer_id : Z;
  hostname : string;
  ipv4 : string;
  cost : string;
  latency_ms : f64;
  loss_rate : f64;
  rx_bytes : Z;
  tx_bytes : Z;
  nat_type : string;
  version : string;
  is_local : bool;
  protos : list string
}.
Arguments PeerRow : clear implicits.

Record NetworkStatus {f64 : Type} : Type := { instance_id : string; rows : list (PeerRow f64) }.
Arguments NetworkStatus : clear implicits.

(** What [rpc.rs] reads of the data of the [easytier] crate, and the floating-point
    numbers. *)
Class Crate := {
  f64 : Type;
  f64_zero : f64;
  f64_of_i32 : Z -> f64;
  Route : Type;
  default_route : Route;
  route_peer_id : Route -> Z;
  route_hostname : Route -> string;
  route_ipv4_addr : Route -> option string;
  route_cost : Route -> Z;
  route_version : Route -> string;
  path_latency_latency_first : Route -> Z;
  PeerRoutePair : Type;
  pair_route : PeerRoutePair -> option Route;
  get_latency_ms : PeerRoutePair -> option f64;
  get_loss_rate : PeerRoutePair -> option f64;
  get_rx_bytes : PeerRoutePair -> option Z;
  get_tx_bytes : PeerRoutePair -> option Z;
  get_udp_nat_type : PeerRoutePair -> string;
  get_conn_protos : PeerRoutePair -> option (list string);
  PeerInfo : Type;
  list_peer_route_pair : list PeerInfo -> list Route -> list PeerRoutePair;
  NodeInfo : Type;
  node_peer_id : NodeInfo -> Z;
  node_hostname : NodeInfo -> string;
  node_ipv4_addr : NodeInfo -> string;
  node_udp_nat_type : NodeInfo -> option string;
  node_version : NodeInfo -> string
}.

Section Status.
Context {C : Crate}.

Definition peer_row_from_pair (pair : PeerRoutePair) : PeerRow f64 :=
  let route := default default_route (pair_route pair) in
  {| peer_id := route_peer_id route;
     hostname := route_hostname route;
     ipv4 := default "" (route_ipv4_addr route);
     cost := if (route_cost route =? 1)%Z then "direct" else "relay(" ++ dec (route_cost route) ++ ")";
     latency_ms := if (route_cost route =? 1)%Z then default f64_zero (get_latency_ms pair)
                   else f64_of_i32 (path_latency_latency_first route);
     loss_rate := default f64_zero (get_loss_rate pair);
     rx_bytes := default 0%Z (get_rx_bytes pair);
     tx_bytes := default 0%Z (get_tx_bytes pair);
     nat_type := get_udp_nat_type pair;
     version := if route_version route =? "" then "unknown" else route_version route;
     is_local := false;
     protos := default [] (get_conn_protos pair) |}.

Definition local_row (node : NodeInfo) : PeerRow f64 :=
  {| peer_id := node_peer_id node;
     hostname := node_hostname node;
     ipv4 := node_ipv4_addr node;
     cost := "local";
     latency_ms := f64_zero;
     loss_rate := f64_zero;
     rx_bytes := 0;
     tx_bytes := 0;
     nat_type := default "" (node_udp_nat_type node);
     version := node_version node;
     is_local := true;
     protos := [] |}.

(** What the core's portal answers: to the connection and to each call. *)
Record Portal : Type := {
  connected : result unit string;
  list_peer : result (list PeerInfo) string;
  list_route : result (list Route) string;
  show_node_info : result (option NodeInfo) string;
  run_instance : result unit string;
  delete_instance : result unit string
}.

(** [manage_client] and [peer_client]. *)
Definition portal_client (portal : Portal) : result unit string :=
  map_err (fun e => "connect rpc portal: " ++ e) (connected portal).

Definition try_run_network_instance (port : option Z) (portal : Portal) : result unit string :=
  let? _ := new_client port in
  let? _ := portal_client portal in
  map_err (fun e => "run network instance: " ++ e) (run_instance portal).

Definition delete_network_instance (port : option Z) (portal : Portal) : result unit string :=
  let? _ := new_client port in
  let? _ := portal_client portal in
  map_err (fun e => "delete network instance: " ++ e) (delete_instance portal).

Definition network_status (port : option Z) (portal : Portal) (inst_id : string)
    : result (NetworkStatus f64) string :=
  let? _ := new_client port in
  let? _ := portal_client portal in
  let? peers := map_err (fun e => "list peers: " ++ e) (list_peer portal) in
  let? routes := map_err (fun e => "list routes: " ++ e) (list_route portal) in
  let local := match show_node_info portal with Ok (Some node) => [local_row node] | _ => [] end in
  Ok {| instance_id := inst_id;
        rows := (local ++ map peer_row_from_pair (list_peer_route_pair peers routes))%list |}.

(** The status of an instance is a table with one row for each pair of the
    crate's listing, in its order, after at most one row for the node itself, which
    is there exactly if the node's own data could be read; the only errors are
    those of the port, the connection and the two listings, the first of them with
    its text. *)
Theorem network_status_spec port portal id :
  match network_status port portal id with
  | Ok st =>
      exists p peers routes local, port = Some p /\ connected portal = Ok tt /\
        list_peer portal = Ok peers /\ list_route portal = Ok routes /\
        instance_id st = id /\
        rows st = (local ++ map peer_row_from_pair (list_peer_route_pair peers routes))%list /\
        List.filter is_local (rows st) = local /\
        match show_node_info portal with
        | Ok (Some node) => local = [local_row node]
        | _ => local = []
        end
  | Err e =>
      port = None /\ e = NO_PORT \/
      exists p, port = Some p /\
        ((exists m, connected portal = Err m /\ e = "connect rpc portal: " ++ m) \/
         connected portal = Ok tt /\
         ((exists m, list_peer portal = Err m /\ e = "list peers: " ++ m) \/
          (exists peers m, list_peer portal = Ok peers /\ list_route portal = Err m /\
             e = "list routes: " ++ m)))
  end.
Proof.
  unfold network_status, new_client, portal_client. destruct port as [p|]; [|by left].
  destruct (connected portal) as [[]|m]; cbn [map_err]; [|right; eauto 10].
  destruct (list_peer portal) as [peers|m]; cbn [map_err]; [|right; eauto 10].
  destruct (list_route portal) as [routes|m]; cbn [map_err]; [|right; exists p; eauto 10].
  exists p, peers, routes, (match show_node_info portal with Ok (Some node) => [local_row node] | _ => [] end).
  assert (Hno : forall l, List.filter is_local (map peer_row_from_pair l) = []) by (induction l; done).
  split_and!; try done.
  - cbn. rewrite List.filter_app, Hno, app_nil_r. by destruct (show_node_info portal) as [[]|].
  - by destruct (show_node_info portal) as [[]|].
Qed.

End Status.

(** ** [run_network_instance] *)

Definition MAX_ATTEMPTS : nat := 30.

(** In milliseconds. *)
Definition RETRY_DELAY : Z := 200.

Definition attempts_failed (last_err : string) : string :=
  "run network instance failed after " ++ dec (Z.of_nat MAX_ATTEMPTS) ++ " attempts: " ++ last_err.

Section Retry.
(** What each attempt returns. *)
Context (attempt : nat -> result unit string).

(** The result, and the milliseconds slept: the loop from attempt [i] on, with [n]
    attempts left. *)
Fixpoint retry (n i : nat) (last_err : string) (slept : Z) : result unit string * Z :=
  match n with
  | O => (Err (attempts_failed last_err), slept)
  | S n =>
      match attempt i with
      | Ok _ => (Ok tt, slept)
      | Err e => retry n (S i) e (if (S i <? MAX_ATTEMPTS)%nat then slept + RETRY_DELAY else slept)%Z
      end
  end.

End Retry.

Section Run.
(** The [easytier] and [toml] crates: the loader with its text of an error, the
    id and the network configuration it gives, the call on a connected portal, and
    the check of the syntax. *)
Context {Loader Config : Type}.
Context (new_from_str : string -> result Loader string).
Context (get_id : Loader -> string).
Context (new_from_config : Loader -> result Config string).
Context (parse_table : string -> result unit string).

(** [s.replace(pat, "")] for a non-empty pattern; for the empty one it is [s]. *)
Fixpoint remove_all (fuel : nat) (pat s : string) : string :=
  match fuel, s with
  | O, _ | _, "" => s
  | S fuel, String c s' =>
      if starts_with pat s
      then remove_all fuel pat (String.substring (String.length pat) (String.length s) s)
      else String c (remove_all fuel pat s')
  end.

Definition replace_empty (pat s : string) : string :=
  if pat =? "" then s else remove_all (String.length s) pat s.

Fixpoint drop_colons (s : string) : string :=
  match s with String ":"%char s' => drop_colons s' | _ => s end.

(** [trim_end_matches(':')]. *)
Definition trim_end_colons (s : string) : string := srev (drop_colons (srev s)).

Definition friendly_config_error (toml_text raw : string) : string :=
  match parse_table toml_text with
  | Err e => "配置解析失败: " ++ match lines e with l :: _ => l | [] => "TOML parse error" end
  | Ok _ =>
      let stripped :=
        replace_empty "invalid config:" (replace_empty "failed to parse config file:"
          (replace_empty (trim toml_text) (replace_empty toml_text raw))) in
      let msg := trim (trim_end_colons (trim stripped)) in
      if msg =? "" then "配置无效(字段校验失败)" else "配置无效: " ++ msg
  end.

Definition validate_config (toml_text : string) : result unit string :=
  match new_from_str toml_text with
  | Err e => Err (friendly_config_error toml_text e)
  | Ok loader =>
      match new_from_config loader with
      | Err e => Err (friendly_config_error toml_text e)
      | Ok _ => Ok tt
      end
  end.

(** [call] is one connection to the portal and call; the result and the
    milliseconds slept. *)
Definition run_network_instance (call : nat -> string -> Config -> result unit string)
    (toml_text : string) : result string string * Z :=
  match new_from_str toml_text with
  | Err e => (Err (friendly_config_error toml_text e), 0%Z)
  | Ok loader =>
      match new_from_config loader with
      | Err e => (Err (friendly_config_error toml_text e), 0%Z)
      | Ok config =>
          let (r, slept) := retry (fun i => call i (get_id loader) config) MAX_ATTEMPTS 0 "" 0 in
          (match r with Ok _ => Ok (get_id loader) | Err e => Err e end, slept)
      end
  end.

(** ** Properties *)

(** A configuration that is not TOML is reported in one line, made of the first
    line of the [toml] crate's message; nothing of the other error, which quotes
    the configuration, gets into it. *)
Theorem syntax_error_one_line toml_text raw e : parse_table toml_text = Err e ->
  occurs "010" (friendly_config_error toml_text raw) = false /\
  forall raw', friendly_config_error toml_text raw' = friendly_config_error toml_text raw.
Proof.
  intros He. unfold friendly_config_error. rewrite He. split; [|done].
  rewrite occurs_app. apply orb_false_intro; [done|].
  pose proof (lines_no_newline e) as Hl. destruct (lines e) as [|l ls]; [done|]. by inversion Hl.
Qed.

Section RetrySpec.
Context (attempt : nat -> result unit string).

Lemma first_ok n :
  (exists k, (k < n)%nat /\ is_ok (attempt k) = true /\ forall j, (j < k)%nat -> is_ok (attempt j) = false)
  \/ (forall j, (j < n)%nat -> is_ok (attempt j) = false).
Proof.
  induction n as [|n [(k & Hk & Hg & Hb)|Hb]]; [right; lia|left; exists k; split_and!; [lia|done|done]|].
  destruct (is_ok (attempt n)) eqn:E; [left; exists n; split_and!; [lia|done|done]|].
  right. intros j Hj. destruct (decide (j = n)) as [->|]; [done|]. apply Hb. lia.
Qed.

Lemma retry_success k : forall n i e slept, (k < n)%nat -> (i + n = MAX_ATTEMPTS)%nat ->
  (forall j, (i <= j < i + k)%nat -> is_ok (attempt j) = false) -> is_ok (attempt (i + k)%nat) = true ->
  retry attempt n i e slept = (Ok tt, (slept + Z.of_nat k * RETRY_DELAY)%Z).
Proof.
  induction k as [|k IH]; intros n i e slept Hk Hn Hbad Hgood; (destruct n as [|n]; [lia|]); cbn [retry].
  - rewrite Nat.add_0_r in Hgood. destruct (attempt i) as [[]|]; [|done].
    f_equal. lia.
  - pose proof (Hbad i ltac:(lia)) as Hi. destruct (attempt i) as [u|e']; [done|].
    assert (Hlt : (S i <? MAX_ATTEMPTS)%nat = true) by (apply Nat.ltb_lt; lia). rewrite Hlt.
    rewrite IH; [f_equal; lia|lia|lia| |].
    + intros j Hj. apply Hbad. lia.
    + by replace (S i + k)%nat with (i + S k)%nat by lia.
Qed.

Lemma retry_failure n : forall i e slept, (i + n = MAX_ATTEMPTS)%nat -> (0 < n)%nat ->
  (forall j, (i <= j < i + n)%nat -> is_ok (attempt j) = false) ->
  exists last, attempt (i + n - 1)%nat = Err last /\
    retry attempt n i e slept =
      (Err (attempts_failed last), (slept + Z.of_nat (n - 1) * RETRY_DELAY)%Z).
Proof.
  induction n as [|n IH]; intros i e slept Hn Hpos Hbad; [lia|]. cbn [retry].
  pose proof (Hbad i ltac:(lia)) as Hi. destruct (attempt i) as [u|e'] eqn:Ha; [done|].
  destruct n as [|n].
  - exists e'. replace (i + 1 - 1)%nat with i by lia. split; [done|]. cbn [retry].
    assert (Hlt : (S i <? MAX_ATTEMPTS)%nat = false) by (apply Nat.ltb_ge; lia). rewrite Hlt.
    f_equal. unfold RETRY_DELAY. lia.
  - assert (Hlt : (S i <? MAX_ATTEMPTS)%nat = true) by (apply Nat.ltb_lt; lia). rewrite Hlt.
    destruct (IH (S i) e' (slept + RETRY_DELAY)%Z ltac:(lia) ltac:(lia)) as (last & Hl & Hr).
    { intros j Hj. apply Hbad. lia. }
    exists last. replace (i + S (S n) - 1)%nat with (S i + S n - 1)%nat by lia. split; [done|].
    rewrite Hr. f_equal. unfold RETRY_DELAY. lia.
Qed.

End RetrySpec.

(** C37: running a network instance parses the configuration once and never retries
    a bad one; it then makes attempts until the first that succeeds, at most 30,
    with 200 ms between two of them: it succeeds with the instance's id exactly if
    one of the first 30 attempts does, and otherwise reports the last error after
    5.8 s of waiting. *)
Theorem run_network_instance_spec call toml_text loader config r slept :
  new_from_str toml_text = Ok loader -> new_from_config loader = Ok config ->
  run_network_instance call toml_text = (r, slept) ->
  (exists k, (k < 30)%nat /\ r = Ok (get_id loader) /\ slept = (200 * Z.of_nat k)%Z /\
     is_ok (call k (get_id loader) config) = true /\
     forall j, (j < k)%nat -> is_ok (call j (get_id loader) config) = false) \/
  (exists e, call 29%nat (get_id loader) config = Err e /\
     r = Err ("run network instance failed after 30 attempts: " ++ e) /\ slept = 5800%Z /\
     forall j, (j < 30)%nat -> is_ok (call j (get_id loader) config) = false).
Proof.
  intros Hl Hc. unfold run_network_instance. rewrite Hl, Hc.
  set (attempt := fun i => call i (get_id loader) config).
  destruct (first_ok attempt 30) as [(k & Hk & Hgood & Hbad)|Hbad].
  - rewrite (retry_success attempt k MAX_ATTEMPTS 0 "" 0 Hk eq_refl) by (try done; intros; apply Hbad; lia).
    intros [= <- <-]. left. exists k. split_and!; [done|done|unfold RETRY_DELAY; lia|done|done].
  - destruct (retry_failure attempt MAX_ATTEMPTS 0 "" 0 eq_refl) as (last & Hlast & Hr);
      [unfold MAX_ATTEMPTS; lia|intros j Hj; apply Hbad; exact (proj2 Hj)|].
    rewrite Hr. intros [= <- <-]. right. by exists last.
Qed.

End Run.

Lemma run_network_instance_spec_witness :
  run_network_instance (fun _ => Ok tt) (fun _ => "id") (fun _ => Ok tt) (fun _ => Ok tt)
    (fun i _ _ => if (i <? 3)%nat then Err "refused" else Ok tt) "x = 1" = (Ok "id", 600%Z) /\
  exists k, (k < 30)%nat /\ (600 = 200 * Z.of_nat k)%Z.
Proof.
  split; [vm_compute; reflexivity|].
  destruct (run_network_instance_spec (fun _ => Ok tt) (fun _ : unit => "id") (fun _ => Ok tt)
    (fun _ => Ok tt) (fun i _ _ => if (i <? 3)%nat then Err "refused" else Ok tt) "x = 1" tt tt
    (Ok "id") 600 eq_refl eq_refl ltac:(vm_compute; reflexivity)) as [(k & Hk & _ & Hs & _)|(e & _ & Hr & _)].
  - exists k. split; [exact Hk|exact Hs].
  - discriminate Hr.
Defined.
