(* ===== verification/Ffi.v ===== *)
(** * The C entry points: [bridge/src/ffi.rs]

    A session is the [EtbHandle] behind the pointer [etb_init] returns: the driver
    of the supervisor connection, the port and the instance, and what its two
    background tasks have done.  An entry point that takes a handle runs on the
    thread of its caller beside the tasks and other calls, so it is a program
    counter and [thread_step] one of its steps: from one [await], or one access to
    the shared fields, to the next.  A C string is an [option string], [None] for
    NULL. *)

From Stdlib Require Import ZArith Lia Ascii String.
From stdpp Require Import base list strings.
From S2P Require Import Prelude RustStr Json JsonText ClientProto SupervisorClient.
From S2P Require Rpc Install Conflict.
Import ClientProto SupervisorClient.

Open Scope string_scope.

(** ** Boundary helpers *)

Definition NUL : ascii := "000"%char.

Definition to_cstr (s : string) : string :=
  if occurs NUL s then "bridge: string contained interior nul" else s.

Definition result_to_cstr (r : result unit string) : option string :=
  match r with Ok _ => None | Err e => Some (to_cstr e) end.

(** The bytes before the terminator, as text. *)
Definition opt_string (p : option string) : option string := option_map from_utf8_lossy p.

(** ** JSON

    [json!] builds a [serde_json::Value]: its objects are ordered by key. *)

Definition ser_opt_int (o : option Z) : json :=
  match o with Some n => JInt n | None => JNull end.

(** The names of [CoreState]'s derived [Serialize]. *)
Definition core_name (c : CoreState.CoreState) : string :=
  match c with CoreState.Stopped => "stopped" | CoreState.Running => "running" end.

Definition event_to_json (ev : SupervisorEvent.SupervisorEvent) : json :=
  json_object match ev with
       | SupervisorEvent.Connected version core rpc_port =>
           [("type", JStr "connected"); ("version", JStr version); ("core", JStr (core_name core));
            ("rpc_port", ser_opt_int rpc_port)]
       | SupervisorEvent.Disconnected => [("type", JStr "disconnected")]
       | SupervisorEvent.CoreStarted pid rpc_port =>
           [("type", JStr "core_started"); ("pid", JInt pid); ("rpc_port", JInt rpc_port)]
       | SupervisorEvent.CoreStopped reason =>
           [("type", JStr "core_stopped"); ("reason", JStr reason)]
       | SupervisorEvent.CoreExited code signal =>
           [("type", JStr "core_exited"); ("code", ser_opt_int code); ("signal", ser_opt_int signal)]
       | SupervisorEvent.Busy owner => [("type", JStr "busy"); ("owner", JBool owner)]
       | SupervisorEvent.Kicked => [("type", JStr "kicked")]
       | SupervisorEvent.Error code msg =>
           [("type", JStr "error"); ("code", JStr code); ("msg", JStr msg)]
       end.

(** The derived [Serialize] of the status, inside [json!], and of [Conflicts],
    printed as it is; [ser_f64] is [serde_json]'s of a floating-point number. *)
Section Status.
Context {C : Rpc.Crate} (ser_f64 : Rpc.f64 -> json).

Definition row_json (r : Rpc.PeerRow Rpc.f64) : json :=
  json_object [("peer_id", JInt (Rpc.peer_id r)); ("hostname", JStr (Rpc.hostname r));
        ("ipv4", JStr (Rpc.ipv4 r)); ("cost", JStr (Rpc.cost r));
        ("latency_ms", ser_f64 (Rpc.latency_ms r)); ("loss_rate", ser_f64 (Rpc.loss_rate r));
        ("rx_bytes", JInt (Rpc.rx_bytes r)); ("tx_bytes", JInt (Rpc.tx_bytes r));
        ("nat_type", JStr (Rpc.nat_type r)); ("version", JStr (Rpc.version r));
        ("is_local", JBool (Rpc.is_local r)); ("protos", JArr (map JStr (Rpc.protos r)))].

Definition status_json (st : Rpc.NetworkStatus Rpc.f64) : json :=
  json_object [("instance_id", JStr (Rpc.instance_id st)); ("rows", JArr (map row_json (Rpc.rows st)))].
End Status.

Definition conflicts_json (c : Conflict.Conflicts) : json :=
  JObj [("unmanaged_core", JBool (Conflict.unmanaged_core c));
        ("unmanaged_core_cmds", JArr (map JStr (Conflict.unmanaged_core_cmds c)));
        ("tun_vpn", JBool (Conflict.tun_vpn c));
        ("tun_vpn_cmds", JArr (map JStr (Conflict.tun_vpn_cmds c)))].

(** The port [RpcClient::set_port] leaves after an event. *)
Definition event_port (port : option Z) (ev : SupervisorEvent.SupervisorEvent) : option Z :=
  match ev with
  | SupervisorEvent.Connected _ _ (Some p) => Some p
  | SupervisorEvent.CoreStarted _ rpc_port => Some rpc_port
  | SupervisorEvent.CoreStopped _ | SupervisorEvent.CoreExited _ _ => None
  | _ => port
  end.

(** ** The handle *)

(** A request the core's portal has accepted, and the call that made it. *)
Inductive RpcCall : Type :=
| RunInstance (caller : nat) (port : Z) (id : string)
| DeleteInstance (caller : nat) (port : Z) (id : string).

(** [callback] tells whether there is one, [forwarded] how many of the driver's
    events [forward_events] has received, [emitted] the texts the callback was
    given, [rpcs] what was asked of the core. *)
Record EtbHandle : Type := {
  supervisor : Driver;
  port : option Z;
  instance_id : option string;
  callback : bool;
  forwarded : nat;
  emitted : list string;
  rpcs : list RpcCall
}.

Definition set_supervisor (d : Driver) (h : EtbHandle) : EtbHandle :=
  {| supervisor := d; port := port h; instance_id := instance_id h; callback := callback h;
     forwarded := forwarded h; emitted := emitted h; rpcs := rpcs h |}.
Definition set_port (p : option Z) (h : EtbHandle) : EtbHandle :=
  {| supervisor := supervisor h; port := p; instance_id := instance_id h; callback := callback h;
     forwarded := forwarded h; emitted := emitted h; rpcs := rpcs h |}.
Definition set_instance (i : option string) (h : EtbHandle) : EtbHandle :=
  {| supervisor := supervisor h; port := port h; instance_id := i; callback := callback h;
     forwarded := forwarded h; emitted := emitted h; rpcs := rpcs h |}.
Definition add_rpc (r : RpcCall) (h : EtbHandle) : EtbHandle :=
  {| supervisor := supervisor h; port := port h; instance_id := instance_id h; callback := callback h;
     forwarded := forwarded h; emitted := emitted h; rpcs := rpcs h ++ [r] |}%list.

(** [EventSink::emit]. *)
Definition sink_emit (t : string) (h : EtbHandle) : EtbHandle :=
  if callback h && negb (occurs NUL t)
  then {| supervisor := supervisor h; port := port h; instance_id := instance_id h;
          callback := callback h; forwarded := forwarded h; emitted := emitted h ++ [t];
          rpcs := rpcs h |}%list
  else h.

Definition received (h : EtbHandle) : EtbHandle :=
  {| supervisor := supervisor h; port := port h; instance_id := instance_id h; callback := callback h;
     forwarded := S (forwarded h); emitted := emitted h; rpcs := rpcs h |}.

(** ** Background tasks *)

Section Bridge.
Context {SJ : SerdeJson} {C : Rpc.Crate} (ser_f64 : Rpc.f64 -> json).
(** The variable of the environment, and the build's manifest directory. *)
Context (ET_SUPERVISOR_SOCKET : option string) (CARGO_MANIFEST_DIR : string).
(** The loader of the [easytier] and [toml] crates, as in [Rpc]. *)
Context {Loader Config : Type}.
Context (new_from_str : string -> result Loader string) (get_id : Loader -> string).
Context (new_from_config : Loader -> result Config string).
Context (parse_table : string -> result unit string).

Definition config : SupervisorConfig := default_config ET_SUPERVISOR_SOCKET.

(** One turn of [forward_events]; [None] while there is nothing to receive. *)
Definition forward_events (h : EtbHandle) : option EtbHandle :=
  match events (supervisor h) !! forwarded h with
  | None => None
  | Some ev =>
      Some (sink_emit (to_string (event_to_json ev)) (received (set_port (event_port (port h) ev) h)))
  end.

(** The branches of the driver that no call of the handle's owner is. *)
Definition by_driver (l : DLabel) : bool :=
  match l with DIssue _ | DTakeover | DReconnect | DShutdown | DClosed => false | _ => true end.

Definition run_driver (h : EtbHandle) (l : DLabel) : option EtbHandle :=
  if by_driver l
  then match driver_step config (supervisor h) l with
       | Some d => Some (set_supervisor d h)
       | None => None
       end
  else None.

(** ** Calls *)

(** What a call finds outside: files, the user, [osascript] and [ps]. *)
Record Env : Type := {
  exists_ : string -> bool;
  getuid : Z;
  osascript : string -> result (bool * string) string;
  ps : option string
}.

Definition is_installed (env : Env) : bool := Install.installed (Install.installation_status (exists_ env)).

(** What a function returns: nothing, or a [char *]. *)
Inductive Out : Type :=
| OVoid
| OStr (s : option string).

Definition error_out (e : string) : Out := OStr (result_to_cstr (Err e)).
Definition json_out (fs : list (string * json)) : Out := OStr (Some (to_cstr (to_string (json_object fs)))).

(** The points at which a call of [etb_connect], [etb_disconnect], [etb_status],
    [etb_supervisor_status], [etb_takeover] and [etb_shutdown] can be. *)
Inductive Pc : Type :=
| CnStart (toml : string)                         (* supervisor.start(): the send *)
| CnWait (toml : string)                          (* its reply *)
| CnStarted (toml : string) (info : StartInfo)    (* set_port, and the configuration *)
| CnAttempt (id : string) (cfg : Config) (i : nat)       (* attempt i: new_client *)
| CnCall (id : string) (cfg : Config) (i : nat) (p : Z)  (* the call to the portal *)
| CnStore (id : string)                           (* instance_id *)
| DcTake                                          (* instance_id.take() *)
| DcPort (id : string)                            (* rpc.port() *)
| DcDelete (id : string)                          (* delete_network_instance: new_client *)
| DcCall (id : string) (p : Z)
| DcStop                                          (* supervisor.stop(): the send *)
| DcWait
| DcClear                                         (* set_port(None) *)
| StRead                                          (* instance_id *)
| StPort (id : string)                            (* rpc.port() *)
| StQuery (id : string)                           (* network_status: new_client *)
| StCall (id : string) (p : Z)
| SsPort
| SsConnected (p : option Z)
| TkNotify
| SdNotify
| SdAwait                                         (* the end of the driver *)
| SdDrop                                          (* drop(h) *)
| Helper (o on_panic : Out)                       (* a function without handle *)
| Ret (o : Out).

(** The handle's pointer, [None] for NULL. *)
Definition ptr : Type := option nat.

Definition NULL_HANDLE : string := "bridge: null handle".

Definition etb_connect (handle : ptr) (toml_text : option string) : Pc :=
  match handle, opt_string toml_text with
  | None, _ => Ret (error_out NULL_HANDLE)
  | Some _, None => Ret (error_out "bridge: null config")
  | Some _, Some toml => CnStart toml
  end.

Definition etb_disconnect (handle : ptr) : Pc :=
  match handle with None => Ret (error_out NULL_HANDLE) | Some _ => DcTake end.

Definition etb_status (handle : ptr) : Pc :=
  match handle with None => Ret (json_out [("err", JStr NULL_HANDLE)]) | Some _ => StRead end.

Definition supervisor_status (connected : bool) (p : option Z) (env : Env) : list (string * json) :=
  [("connected", JBool connected); ("core_running", JBool (match p with Some _ => true | None => false end));
   ("rpc_port", ser_opt_int p); ("installed", JBool (is_installed env))].

(** The closure [disconnected]. *)
Definition disconnected (env : Env) : Out := json_out (supervisor_status false None env).

Definition etb_supervisor_status (handle : ptr) (env : Env) : Pc :=
  match handle with None => Ret (disconnected env) | Some _ => SsPort end.

Definition etb_takeover (handle : ptr) : Pc :=
  match handle with None => Ret OVoid | Some _ => TkNotify end.

Definition etb_shutdown (handle : ptr) : Pc :=
  match handle with None => Ret OVoid | Some _ => SdNotify end.

Definition etb_validate (toml_text : option string) : Pc :=
  Helper
    (json_out match opt_string toml_text with
              | None => [("ok", JBool false); ("error", JStr "bridge: null config")]
              | Some toml =>
                  match Rpc.validate_config new_from_str new_from_config parse_table toml with
                  | Ok _ => [("ok", JBool true)]
                  | Err e => [("ok", JBool false); ("error", JStr e)]
                  end
              end)
    (json_out [("ok", JBool false); ("error", JStr "bridge: panic in etb_validate")]).

Definition etb_install (env : Env) (supervisor_bin core_bin : option string) : Pc :=
  Helper
    (OStr (result_to_cstr (Install.run_install CARGO_MANIFEST_DIR (exists_ env) (getuid env)
       (osascript env) (opt_string supervisor_bin) (opt_string core_bin))))
    (error_out "bridge: panic in etb_install").

Definition etb_uninstall (env : Env) : Pc :=
  Helper
    (OStr (result_to_cstr (Install.run_uninstall CARGO_MANIFEST_DIR (exists_ env) (osascript env))))
    (error_out "bridge: panic in etb_uninstall").

Definition etb_detect_conflicts (env : Env) : Pc :=
  Helper (OStr (Some (to_cstr (to_string (conflicts_json (Conflict.detect (ps env)))))))
    (OStr (Some (to_cstr "{}"))).

(** What lets a call go on: nothing more, what is outside, the answers of the
    core's portal, the end of a wait by its timeout, or a panic below it. *)
Inductive Input : Type :=
| IGo (env : Env)
| IPortal (portal : Rpc.Portal)
| ITimeout
| IPanic (env : Env).

(** The outcome of attempt [i] was [e]; the wait before the next one is not a step. *)
Definition next_attempt (id : string) (cfg : Config) (i : nat) (e : string) : Pc :=
  if (S i <? Rpc.MAX_ATTEMPTS)%nat then CnAttempt id cfg (S i)
  else Ret (error_out (Rpc.attempts_failed e)).

(** [run_network_instance], up to its attempts. *)
Definition parse_config (toml : string) : Pc :=
  match new_from_str toml with
  | Err e => Ret (error_out (Rpc.friendly_config_error parse_table toml e))
  | Ok loader =>
      match new_from_config loader with
      | Err e => Ret (error_out (Rpc.friendly_config_error parse_table toml e))
      | Ok cfg => CnAttempt (get_id loader) cfg 0
      end
  end.

Definition status_out (r : result (Rpc.NetworkStatus Rpc.f64) string) : Out :=
  json_out match r with
           | Ok status => [("ok", status_json ser_f64 status)]
           | Err e => [("err", JStr e)]
           end.

(** [dispatch]: the request of call [k], and its reply. *)
Definition send_request (k : nat) (w : RequestKind) (h : EtbHandle) : option EtbHandle :=
  match driver_step config (supervisor h) (DIssue {| what := w; ticket := k |}) with
  | Some d => Some (set_supervisor d h)
  | None => None
  end.

Definition reply (k : nat) (h : EtbHandle) : option Answer :=
  option_map snd (List.find (fun a => (a.1 =? k)%nat) (answers (supervisor h))).

(** What [dispatch] returns, at an answer or at the timeout; [None] while it waits. *)
Definition await_reply (k : nat) (h : EtbHandle) (timed_out : bool) : option (result Answer string) :=
  match reply k h with
  | Some a => if timed_out then None else Some (dispatch_result (Received a))
  | None => if timed_out then Some (dispatch_result TimedOutWaiting) else None
  end.

(** After the reply to [start]; its channel carries no other kind of success. *)
Definition started (toml : string) (r : result Answer string) : Pc :=
  match r with
  | Ok (Started info) => CnStarted toml info
  | Ok _ => CnWait toml
  | Err e => Ret (error_out e)
  end.

(** [catch_unwind]. *)
Definition panicked (env : Env) (pc : Pc) : Pc :=
  match pc with
  | CnStart _ | CnWait _ | CnStarted _ _ | CnAttempt _ _ _ | CnCall _ _ _ _ | CnStore _ =>
      Ret (error_out "bridge: panic in etb_connect")
  | DcTake | DcPort _ | DcDelete _ | DcCall _ _ | DcStop | DcWait | DcClear =>
      Ret (error_out "bridge: panic in etb_disconnect")
  | StRead | StPort _ | StQuery _ | StCall _ _ =>
      Ret (json_out [("err", JStr "bridge: panic in etb_status")])
  | SsPort | SsConnected _ => Ret (disconnected env)
  | TkNotify => Ret OVoid
  | SdNotify | SdAwait | SdDrop => SdDrop
  | Helper _ _ | Ret _ => pc
  end.

(** A call that goes on by itself; a call without a port fails in [new_client]. *)
Definition go (k : nat) (env : Env) (h : EtbHandle) (pc : Pc) : option (EtbHandle * Pc) :=
  match pc with
  | CnStart toml => option_map (fun h => (h, CnWait toml)) (send_request k RStart h)
  | CnWait toml => option_map (fun r => (h, started toml r)) (await_reply k h false)
  | CnStarted toml info => Some (set_port (Some (si_rpc_port info)) h, parse_config toml)
  | CnAttempt id cfg i =>
      Some (h, match port h with
               | Some p => CnCall id cfg i p
               | None => next_attempt id cfg i Rpc.NO_PORT
               end)
  | CnStore id => Some (set_instance (Some id) h, Ret (OStr (result_to_cstr (Ok tt))))
  | DcTake =>
      Some (set_instance None h, match instance_id h with Some id => DcPort id | None => DcStop end)
  | DcPort id => Some (h, match port h with Some _ => DcDelete id | None => DcStop end)
  | DcDelete id => Some (h, match port h with Some p => DcCall id p | None => DcStop end)
  | DcStop => option_map (fun h => (h, DcWait)) (send_request k RStop h)
  | DcWait => option_map (fun _ => (h, DcClear)) (await_reply k h false)
  | DcClear => Some (set_port None h, Ret (OStr (result_to_cstr (Ok tt))))
  | StRead =>
      Some (h, match instance_id h with
               | Some id => StPort id
               | None => Ret (json_out [("err", JStr "not connected")])
               end)
  | StPort id =>
      Some (h, match port h with
               | Some _ => StQuery id
               | None => Ret (json_out [("err", JStr "core is not running")])
               end)
  | StQuery id =>
      Some (h, match port h with
               | Some p => StCall id p
               | None => Ret (status_out (Err Rpc.NO_PORT))
               end)
  | SsPort => Some (h, SsConnected (port h))
  | SsConnected p =>
      Some (h, Ret (json_out (supervisor_status (connected (supervisor h)) p env)))
  | TkNotify =>
      option_map (fun d => (set_supervisor d h, Ret OVoid)) (driver_step config (supervisor h) DTakeover)
  | SdNotify =>
      option_map (fun d => (set_supervisor d h, SdAwait)) (driver_step config (supervisor h) DShutdown)
  | SdAwait => match dpc (supervisor h) with DStopped => Some (h, SdDrop) | _ => None end
  | CnCall _ _ _ _ | DcCall _ _ | StCall _ _ | SdDrop | Helper _ _ | Ret _ => None
  end.

(** The portal answers call [k], which waits for it. *)
Definition answered (k : nat) (portal : Rpc.Portal) (h : EtbHandle) (pc : Pc) : option (EtbHandle * Pc) :=
  match pc with
  | CnCall id cfg i p =>
      Some match Rpc.try_run_network_instance (Some p) portal with
           | Ok _ => (add_rpc (RunInstance k p id) h, CnStore id)
           | Err e => (h, next_attempt id cfg i e)
           end
  | DcCall id p =>
      Some match Rpc.delete_network_instance (Some p) portal with
           | Ok _ => (add_rpc (DeleteInstance k p id) h, DcStop)
           | Err _ => (h, DcStop)
           end
  | StCall id p => Some (h, Ret (status_out (Rpc.network_status (Some p) portal id)))
  | _ => None
  end.

(** One step of call [k] on its handle; [None] if it cannot make it now. *)
Definition thread_step (k : nat) (h : EtbHandle) (pc : Pc) (i : Input) : option (EtbHandle * Pc) :=
  match i, pc with
  | IGo env, _ => go k env h pc
  | IPortal portal, _ => answered k portal h pc
  | ITimeout, CnWait toml => option_map (fun r => (h, started toml r)) (await_reply k h true)
  | ITimeout, DcWait => option_map (fun _ => (h, DcClear)) (await_reply k h true)
  | ITimeout, _ => None
  | IPanic _, (SdDrop | Helper _ _ | Ret _) => None
  | IPanic env, _ => Some (h, panicked env pc)
  end.

(** The step of a function without handle. *)
Definition helper_step (pc : Pc) (i : Input) : option Pc :=
  match pc, i with
  | Helper o _, IGo _ => Some (Ret o)
  | Helper _ on_panic, IPanic _ => Some (Ret on_panic)
  | _, _ => None
  end.

(** The calls with their arguments; the bytes of a text are those before its
    terminator. *)
Inductive Call : Type :=
| Connect (handle : ptr) (toml_text : option string)
| Disconnect (handle : ptr)
| Status (handle : ptr)
| SupervisorStatus (handle : ptr)
| Takeover (handle : ptr)
| Shutdown (handle : ptr)
| Validate (toml_text : option string)
| Install (supervisor_bin core_bin : option string)
| Uninstall
| DetectConflicts.

Definition handle_of (c : Call) : ptr :=
  match c with
  | Connect p _ | Disconnect p | Status p | SupervisorStatus p | Takeover p | Shutdown p => p
  | Validate _ | Install _ _ | Uninstall | DetectConflicts => None
  end.

(** Where a call begins. *)
Definition enter (env : Env) (c : Call) : Pc :=
  match c with
  | Connect p toml_text => etb_connect p toml_text
  | Disconnect p => etb_disconnect p
  | Status p => etb_status p
  | SupervisorStatus p => etb_supervisor_status p env
  | Takeover p => etb_takeover p
  | Shutdown p => etb_shutdown p
  | Validate toml_text => etb_validate toml_text
  | Install supervisor_bin core_bin => etb_install env supervisor_bin core_bin
  | Uninstall => etb_uninstall env
  | DetectConflicts => etb_detect_conflicts env
  end.

Definition new_handle (callback : bool) : EtbHandle :=
  {| supervisor := driver_init config; port := None; instance_id := None; callback := callback;
     forwarded := 0; emitted := []; rpcs := [] |}.

(** The result of [etb_init]'s closure; [built] tells whether there is a runtime. *)
Definition etb_init (event_cb built : bool) : option EtbHandle :=
  if built then Some (new_handle event_cb) else None.

End Bridge.
