(* ===== verification/Bridge.v ===== *)
(** * The C library as a whole: sessions, strings, and the calls under way

    The memory the library hands out through its C interface, the calls its client
    is making, and what a client that keeps the rules of
    [include/easytier_bridge.h] can rely on. *)

From Stdlib Require Import ZArith Lia Ascii String.
From stdpp Require Import base list strings gmap sets.
From S2P Require Import Prelude RustStr Json JsonText ClientProto SupervisorClient Ffi.
From S2P Require Rpc Conflict.
Import ClientProto SupervisorClient.

Open Scope string_scope.

Section Bridge.
Context {SJ : SerdeJson} {C : Rpc.Crate} (ser_f64 : Rpc.f64 -> json).
Context (ET_SUPERVISOR_SOCKET : option string) (CARGO_MANIFEST_DIR : string).
Context {Loader Config : Type}.
Context (new_from_str : string -> result Loader string) (get_id : Loader -> string).
Context (new_from_config : Loader -> result Config string).
Context (parse_table : string -> result unit string).

Notation Pc := (Pc (Config := Config)).
Notation enter := (enter CARGO_MANIFEST_DIR new_from_str new_from_config parse_table).
Notation thread_step :=
  (thread_step ser_f64 ET_SUPERVISOR_SOCKET new_from_str get_id new_from_config parse_table).
Notation run_driver := (run_driver ET_SUPERVISOR_SOCKET).
Notation etb_init := (etb_init ET_SUPERVISOR_SOCKET).

(** ** State and steps *)

Inductive Activity : Type :=
| Running (pc : Pc)
| Returned (r : ptr).

Record Thread : Type := { call : Call; activity : Activity }.

(** The live sessions and strings by address, and every call made so far. *)
Record World : Type := {
  handles : gmap nat EtbHandle;
  strings : gmap nat string;
  threads : list Thread
}.

Definition set_handles (hs : gmap nat EtbHandle) (w : World) : World :=
  {| handles := hs; strings := strings w; threads := threads w |}.
Definition set_strings (ss : gmap nat string) (w : World) : World :=
  {| handles := handles w; strings := ss; threads := threads w |}.
Definition set_activity (k : nat) (c : Call) (a : Activity) (w : World) : World :=
  {| handles := handles w; strings := strings w;
     threads := <[k := {| call := c; activity := a |}]> (threads w) |}.

(** What happens next: [place] is where the allocator puts what is allocated, and
    the tasks of a session run between the steps of the calls. *)
Inductive Label : Type :=
| Init (event_cb built : bool) (place : nat)
| Enter (c : Call) (env : Env)
| Step (k : nat) (i : Input)
| Return (k place : nat)
| Drive (p : nat) (l : DLabel)
| Forward (p : nat)
| FreeString (s : ptr).

(** [UB]: memory that is not the library's, or no longer, was used. *)
Inductive Outcome : Type :=
| Fine (w : World)
| UB.

Definition vacant (w : World) (place : nat) : bool :=
  match handles w !! place, strings w !! place with None, None => true | _, _ => false end.

(** [Box::into_raw]. *)
Definition init (w : World) (built : option EtbHandle) (place : nat) : option Outcome :=
  match built with
  | None => Some (Fine w)
  | Some h => if vacant w place then Some (Fine (set_handles (<[place := h]> (handles w)) w)) else None
  end.

Definition begin (w : World) (c : Call) (env : Env) : Outcome :=
  let w' := {| handles := handles w; strings := strings w;
               threads := threads w ++ [{| call := c; activity := Running (enter env c) |}] |}%list in
  match handle_of c with
  | None => Fine w'
  | Some p => match handles w !! p with Some _ => Fine w' | None => UB end
  end.

(** A step of a call that has not come to its return; [drop(h)] frees the handle. *)
Definition call_step (w : World) (k : nat) (c : Call) (pc : Pc) (i : Input) : option Outcome :=
  match pc, handle_of c with
  | Ret _, _ => None
  | _, None => option_map (fun pc' => Fine (set_activity k c (Running pc') w)) (helper_step pc i)
  | SdDrop, Some p =>
      match handles w !! p with
      | None => Some UB
      | Some _ =>
          Some (Fine (set_handles (delete p (handles w)) (set_activity k c (Running (Ret OVoid)) w)))
      end
  | _, Some p =>
      match handles w !! p with
      | None => Some UB
      | Some h =>
          option_map (fun '(h', pc') =>
            Fine (set_handles (<[p := h']> (handles w)) (set_activity k c (Running pc') w)))
            (thread_step k h pc i)
      end
  end.

(** [CString::into_raw], and the return. *)
Definition return_ (w : World) (k : nat) (c : Call) (o : Out) (place : nat) : option Outcome :=
  match o with
  | OStr (Some s) =>
      if vacant w place
      then Some (Fine (set_strings (<[place := s]> (strings w))
                   (set_activity k c (Returned (Some place)) w)))
      else None
  | OStr None | OVoid => Some (Fine (set_activity k c (Returned None) w))
  end.

(** [etb_free_string]: [CString::from_raw]. *)
Definition etb_free_string (w : World) (s : ptr) : Outcome :=
  match s with
  | None => Fine w
  | Some q =>
      match strings w !! q with Some _ => Fine (set_strings (delete q (strings w)) w) | None => UB end
  end.

(** A step of the tasks of a session. *)
Definition task_step (w : World) (p : nat) (f : EtbHandle -> option EtbHandle) : option Outcome :=
  match handles w !! p with
  | Some h => option_map (fun h' => Fine (set_handles (<[p := h']> (handles w)) w)) (f h)
  | None => None
  end.

Definition step (w : World) (l : Label) : option Outcome :=
  match l with
  | Init event_cb built place => init w (etb_init event_cb built) place
  | Enter c env => Some (begin w c env)
  | Step k i =>
      match threads w !! k with
      | Some {| call := c; activity := Running pc |} => call_step w k c pc i
      | _ => None
      end
  | Return k place =>
      match threads w !! k with
      | Some {| call := c; activity := Running (Ret o) |} => return_ w k c o place
      | _ => None
      end
  | Drive p l => task_step w p (fun h => run_driver h l)
  | Forward p => task_step w p forward_events
  | FreeString s => Some (etb_free_string w s)
  end.

Definition nothing : World := {| handles := ∅; strings := ∅; threads := [] |}.

(** ** What holds of every session *)

(** A property of sessions is kept by every step of the library if a new session
    has it and the steps of the calls and of the tasks keep it. *)
Section Sessions.
Context (P : nat -> EtbHandle -> Prop) (w : World).

Definition all_handles (w : World) : Prop := forall p h, handles w !! p = Some h -> P p h.

Hypothesis of_new : forall event_cb p, handles w !! p = None ->
  P p (new_handle ET_SUPERVISOR_SOCKET event_cb).
Hypothesis of_thread : forall k c pc p h i h' pc',
  threads w !! k = Some {| call := c; activity := Running pc |} -> handle_of c = Some p ->
  handles w !! p = Some h -> P p h -> thread_step k h pc i = Some (h', pc') -> P p h'.
Hypothesis of_forward : forall p h h', handles w !! p = Some h -> P p h -> forward_events h = Some h' -> P p h'.

Lemma all_insert p h : all_handles w -> P p h -> all_handles (set_handles (<[p := h]> (handles w)) w).
Proof using Type.
  intros Hw Hh q h'. cbn. intros [[<- <-]|[_ Hq]]%lookup_insert_Some; [done|by eapply Hw].
Qed.

Lemma all_call k c pc i w' : all_handles w -> threads w !! k = Some {| call := c; activity := Running pc |} ->
  call_step w k c pc i = Some (Fine w') -> all_handles w'.
Proof using of_thread.
  intros Hw Hk. unfold call_step. destruct (handle_of c) as [p|] eqn:Hc.
  2: { destruct (helper_step pc i) as [pc'|]; destruct pc; try done; by intros [= <-]. }
  destruct (handles w !! p) as [h|] eqn:Hp; [|by destruct pc].
  assert (Hgo : forall o, option_map (fun '(h', pc') =>
    Fine (set_handles (<[p := h']> (handles w)) (set_activity k c (Running pc') w))) (thread_step k h pc i)
    = Some (Fine o) -> all_handles o).
  { intros o. destruct (thread_step k h pc i) as [[h' pc']|] eqn:Hst; [|done]. intros [= <-].
    apply (all_insert p h'); [done|]. eapply of_thread; eauto. }
  destruct pc; try done; try exact (Hgo w'). intros [= <-].
  intros q h'. cbn. intros [_ Hq]%lookup_delete_Some. by eapply Hw.
Qed.

Lemma all_step l w' : all_handles w ->
  (forall p dl h d, l = Drive p dl -> handles w !! p = Some h -> by_driver dl = true -> P p h ->
     driver_step (Ffi.config ET_SUPERVISOR_SOCKET) (supervisor h) dl = Some d -> P p (set_supervisor d h)) ->
  step w l = Some (Fine w') -> all_handles w'.
Proof using of_new of_thread of_forward.
  intros Hw Hd. destruct l as [cb built place|c env|k i|k place|p l|p|[q|]]; cbn [step].
  - unfold init, Ffi.etb_init. destruct built; [|by intros [= <-]].
    unfold vacant. destruct (handles w !! place) eqn:Hp; [done|]. destruct (strings w !! place); [done|].
    intros [= <-]. apply all_insert; [done|by apply of_new].
  - intros [= Hb]. unfold begin in Hb. by repeat case_match; simplify_eq.
  - destruct (threads w !! k) as [[c [pc|r]]|] eqn:Hk; [|done..]. by eapply all_call.
  - destruct (threads w !! k) as [[c [pc|r]]|] eqn:Hk; [|done..]. destruct pc; try done.
    unfold return_. destruct o as [|[s|]]; [|destruct (vacant w place); [|done]|]; by intros [= <-].
  - unfold task_step. destruct (handles w !! p) as [h|] eqn:Hp; [|done]. unfold Ffi.run_driver.
    destruct (by_driver l) eqn:Hby; [|done]. destruct (driver_step _ _ l) as [d|] eqn:Hl; [|done]. intros [= <-].
    apply all_insert; [done|].
    exact (Hd p l h d eq_refl Hp Hby (Hw p h Hp) Hl).
  - unfold task_step. destruct (handles w !! p) as [h|] eqn:Hp; [|done].
    destruct (forward_events h) as [h'|] eqn:Hf; [|done]. intros [= <-]. apply all_insert; [done|].
    exact (of_forward p h h' Hp (Hw p h Hp) Hf).
  - unfold etb_free_string. destruct (strings w !! q); [|done]. by intros [= <-].
  - by intros [= <-].
Qed.
End Sessions.

End Bridge.

(** ** A concrete library, for examples *)

Module Sample.

(** A crate with nothing to show: no routes; a number is its literal. *)
#[export] Instance crate : Rpc.Crate := {|
  Rpc.f64 := string; Rpc.f64_zero := "0.0"; Rpc.f64_of_i32 := fun n => dec n ++ ".0";
  Rpc.Route := unit; Rpc.default_route := tt; Rpc.route_peer_id := fun _ => 0%Z;
  Rpc.route_hostname := fun _ => ""; Rpc.route_ipv4_addr := fun _ => None;
  Rpc.route_cost := fun _ => 1%Z; Rpc.route_version := fun _ => "";
  Rpc.path_latency_latency_first := fun _ => 0%Z;
  Rpc.PeerRoutePair := unit; Rpc.pair_route := fun _ => None; Rpc.get_latency_ms := fun _ => None;
  Rpc.get_loss_rate := fun _ => None; Rpc.get_rx_bytes := fun _ => None;
  Rpc.get_tx_bytes := fun _ => None; Rpc.get_udp_nat_type := fun _ => "Unknown";
  Rpc.get_conn_protos := fun _ => None;
  Rpc.PeerInfo := unit; Rpc.list_peer_route_pair := fun _ _ => [];
  Rpc.NodeInfo := unit; Rpc.node_peer_id := fun _ => 1%Z; Rpc.node_hostname := fun _ => "local";
  Rpc.node_ipv4_addr := fun _ => "10.0.0.1"; Rpc.node_udp_nat_type := fun _ => None;
  Rpc.node_version := fun _ => "0.1.0" |}.

Definition env : Env := {|
  exists_ := fun _ => true; getuid := 501; osascript := fun _ => Ok (true, ""); ps := None |}.

(** A portal that accepts everything. *)
Definition portal : Rpc.Portal := {|
  Rpc.connected := Ok tt; Rpc.list_peer := Ok []; Rpc.list_route := Ok [];
  Rpc.show_node_info := Ok (Some tt); Rpc.run_instance := Ok tt; Rpc.delete_instance := Ok tt |}.

(** A loader that takes every text, gives it the id ["id"] and keeps the text. *)
Definition step : World (Config := string) -> Label -> option (Outcome (Config := string)) :=
  Bridge.step JFloat None "/src" (fun t => @Ok string string t) (fun _ => "id")
    (fun t => @Ok string string t) (fun _ => Ok tt).

Definition world : Type := World (Config := string).

End Sample.
