(* ===== verification/FfiMemory.v ===== *)
(** * The ownership rules of [include/easytier_bridge.h]

    What a client knows it owns, the calls the rules allow it, and the agreement of
    both with the memory of the library. *)

From Stdlib Require Import ZArith Lia Ascii String.
From stdpp Require Import base list strings gmap sets.
From S2P Require Import Prelude RustStr Json JsonText ClientProto SupervisorClient Ffi Bridge.
From S2P Require Rpc Conflict.
Import ClientProto SupervisorClient.

Open Scope string_scope.

Section Memory.
Context {SJ : SerdeJson} {C : Rpc.Crate} (ser_f64 : Rpc.f64 -> json).
Context (ET_SUPERVISOR_SOCKET : option string) (CARGO_MANIFEST_DIR : string).
Context {Loader Config : Type}.
Context (new_from_str : string -> result Loader string) (get_id : Loader -> string).
Context (new_from_config : Loader -> result Config string).
Context (parse_table : string -> result unit string).

Notation Pc := (Pc (Config := Config)).
Notation World := (World (Config := Config)).
Notation enter := (enter CARGO_MANIFEST_DIR new_from_str new_from_config parse_table).
Notation thread_step :=
  (thread_step ser_f64 ET_SUPERVISOR_SOCKET new_from_str get_id new_from_config parse_table).
Notation step := (Bridge.step ser_f64 ET_SUPERVISOR_SOCKET CARGO_MANIFEST_DIR new_from_str get_id
  new_from_config parse_table).

(** ** The client *)

(** The sessions it may use and the strings it has to free. *)
Record Ledger : Type := { sessions : gset nat; texts : gset nat }.

Definition is_ret (pc : Pc) : bool := match pc with Ret _ => true | _ => false end.

Definition running_on (w : World) (p : nat) : Prop :=
  Exists (fun t => match activity t with
                   | Running _ => handle_of (call t) = Some p
                   | Returned _ => False
                   end) (threads w).

(** A handle is used from [etb_init] to [etb_shutdown], which no other call on it
    overlaps; a string is freed once. *)
Definition allowed (w : World) (g : Ledger) (l : Label) : Prop :=
  match l with
  | Enter c _ =>
      match handle_of c with
      | Some p => p ∈ sessions g /\ match c with Shutdown _ => ~ running_on w p | _ => True end
      | None => True
      end
  | FreeString (Some q) => q ∈ texts g
  | _ => True
  end.

#[local] Instance allowed_dec w g l : Decision (allowed w g l).
Proof.
  assert (Hr : forall p, Decision (running_on w p)).
  { intros p. apply Exists_dec. intros [c [pc|r]]; cbn; apply _. }
  destruct l as [| c env| | | | |[q|]]; cbn; try apply _.
  destruct (handle_of c); [|apply _]. destruct c; apply _.
Defined.

(** The ledger after a step that leads to [w]. *)
Definition note (g : Ledger) (l : Label) (w : World) : Ledger :=
  match l with
  | Init _ true place => {| sessions := {[place]} ∪ sessions g; texts := texts g |}
  | Enter (Shutdown (Some p)) _ => {| sessions := sessions g ∖ {[p]}; texts := texts g |}
  | Return k _ =>
      match threads w !! k with
      | Some {| activity := Returned (Some q) |} =>
          {| sessions := sessions g; texts := {[q]} ∪ texts g |}
      | _ => g
      end
  | FreeString (Some q) => {| sessions := sessions g; texts := texts g ∖ {[q]} |}
  | _ => g
  end.

(** A client that keeps the rules, beside the library. *)
Inductive played : World -> Ledger -> Prop :=
| played_nothing : played nothing {| sessions := ∅; texts := ∅ |}
| played_step w g l w' : played w g -> allowed w g l -> step w l = Some (Fine w') ->
    played w' (note g l w').

(** The same for a given schedule. *)
Fixpoint play (ls : list Label) (w : World) (g : Ledger) : option (World * Ledger) :=
  match ls with
  | [] => Some (w, g)
  | l :: ls =>
      if decide (allowed w g l) then
        match step w l with
        | Some (Fine w') => play ls w' (note g l w')
        | _ => None
        end
      else None
  end.

Lemma play_played ls : forall w g w' g', played w g -> play ls w g = Some (w', g') -> played w' g'.
Proof.
  induction ls as [|l ls IH]; intros w g w' g' Hp; cbn [play]; [by intros [= <- <-]|].
  case_decide as Ha; [|done]. destruct (step w l) as [[w1|]|] eqn:Hs; [|done..].
  apply IH. by eapply played_step.
Qed.

(** ** What a call may return *)

Definition no_nul (s : string) : bool := negb (occurs NUL s).

(** The functions the header says never return NULL. *)
Definition never_null (c : Call) : bool :=
  match c with Status _ | SupervisorStatus _ | Validate _ | DetectConflicts => true | _ => false end.

Definition ret_ok (c : Call) (o : Out) : bool :=
  match o, c with
  | OVoid, (Takeover _ | Shutdown _) => true
  | OStr None, (Connect _ _ | Disconnect _ | Install _ _ | Uninstall) => true
  | OStr (Some s), (Takeover _ | Shutdown _) => false
  | OStr (Some s), _ => no_nul s
  | _, _ => false
  end.

(** The points of each call. *)
Definition belongs (c : Call) (pc : Pc) : bool :=
  match pc, c with
  | Ret o, _ => ret_ok c o
  | Helper o x, (Validate _ | Install _ _ | Uninstall | DetectConflicts) => ret_ok c o && ret_ok c x
  | (CnStart _ | CnWait _ | CnStarted _ _ | CnAttempt _ _ _ | CnCall _ _ _ _ | CnStore _),
    Connect (Some _) _ => true
  | (DcTake | DcPort _ | DcDelete _ | DcCall _ _ | DcStop | DcWait | DcClear), Disconnect (Some _) => true
  | (StRead | StPort _ | StQuery _ | StCall _ _), Status (Some _) => true
  | (SsPort | SsConnected _), SupervisorStatus (Some _) => true
  | TkNotify, Takeover (Some _) => true
  | (SdNotify | SdAwait | SdDrop), Shutdown (Some _) => true
  | _, _ => false
  end.

Lemma to_cstr_no_nul s : no_nul (to_cstr s) = true.
Proof. unfold to_cstr, no_nul. destruct (occurs NUL s) eqn:E; [done|by rewrite E]. Qed.

Lemma ret_ok_error c e : match c with Connect _ _ | Disconnect _ | Install _ _ | Uninstall => True | _ => False end ->
  ret_ok c (error_out e) = true.
Proof. unfold error_out. cbn -[to_cstr]. destruct c; try done; intros _; apply to_cstr_no_nul. Qed.

Lemma ret_ok_json c fs : never_null c = true -> ret_ok c (json_out fs) = true.
Proof. unfold json_out. cbn -[to_cstr to_string]. destruct c; try done; intros _; apply to_cstr_no_nul. Qed.

Lemma ret_ok_result c r : match c with Connect _ _ | Disconnect _ | Install _ _ | Uninstall => True | _ => False end ->
  ret_ok c (OStr (result_to_cstr r)) = true.
Proof. intros Hc. destruct r; [by destruct c|by apply ret_ok_error]. Qed.

Create HintDb ret.
Hint Resolve ret_ok_error ret_ok_json ret_ok_result to_cstr_no_nul : ret.

Lemma belongs_enter env c : belongs c (enter env c) = true.
Proof.
  destruct c; cbn [Ffi.enter]; unfold etb_connect, etb_disconnect, etb_status, etb_supervisor_status,
    etb_takeover, etb_shutdown, etb_validate, etb_install, etb_uninstall, etb_detect_conflicts, disconnected;
    repeat case_match; cbn [belongs]; rewrite ?andb_true_iff; try split; auto with ret;
    by apply to_cstr_no_nul.
Qed.

Lemma belongs_helper c pc i pc' : belongs c pc = true -> helper_step pc i = Some pc' -> belongs c pc' = true.
Proof.
  destruct pc; try done. intros Hb. assert (ret_ok c o && ret_ok c on_panic = true) as [Ho Hp]%andb_prop.
  { by destruct c. }
  destruct i; try done; intros [= <-]; done.
Qed.

Lemma belongs_parse p t toml : belongs (Connect (Some p) t)
  (parse_config new_from_str get_id new_from_config parse_table toml) = true.
Proof. unfold parse_config. repeat case_match; cbn [belongs]; auto with ret. Qed.

Lemma belongs_next p t id cfg i e : belongs (Connect (Some p) t) (next_attempt id cfg i e) = true.
Proof. unfold next_attempt. case_match; cbn [belongs]; auto with ret. Qed.
Hint Resolve belongs_parse belongs_next : ret.

Lemma belongs_step c k h pc i h' pc' : belongs c pc = true -> thread_step k h pc i = Some (h', pc') ->
  belongs c pc' = true.
Proof.
  intros Hb Hs. unfold Ffi.thread_step in Hs. destruct i as [env|portal| |env].
  - destruct pc; try done; cbn [go] in Hs; destruct c as [[q|] ?|[q|]|[q|]|[q|]|[q|]|[q|]| | | |]; try done;
      unfold option_map, started in Hs; repeat case_match; simplify_eq; cbn [belongs];
      unfold status_out; auto with ret.
  - destruct pc; try done; cbn [answered] in Hs; destruct c as [[q|] ?|[q|]|[q|]|[q|]|[q|]|[q|]| | | |]; try done;
      repeat case_match; simplify_eq; cbn [belongs]; unfold status_out; auto with ret.
  - destruct pc; try done; destruct c as [[q|] ?|[q|]|[q|]|[q|]|[q|]|[q|]| | | |]; try done;
      unfold option_map, started in Hs; repeat case_match; simplify_eq; cbn [belongs]; auto with ret.
  - destruct pc; try done; destruct c as [[q|] ?|[q|]|[q|]|[q|]|[q|]|[q|]| | | |]; try done;
      injection Hs as <- <-; cbn [panicked belongs]; unfold disconnected; auto with ret.
Qed.

(** ** The invariant *)

Definition shutting (w : World) (k p : nat) : Prop :=
  exists pc, threads w !! k = Some {| call := Shutdown (Some p); activity := Running pc |} /\ is_ret pc = false.

Definition closing (w : World) (p : nat) : Prop := exists k, shutting w k p.

(** What holds of a thread: a call at one of its points whose handle is still
    there, or one that has returned what it may. *)
Definition fits (w : World) (g : Ledger) (t : Thread) : Prop :=
  match activity t with
  | Running pc => belongs (call t) pc = true /\
      (is_ret pc = false -> forall p, handle_of (call t) = Some p -> p ∈ dom (handles w) /\
         match call t with Shutdown _ => p ∉ sessions g | _ => p ∈ sessions g end)
  | Returned r => never_null (call t) = true -> r <> None
  end.

Record sound (w : World) (g : Ledger) : Prop := {
  s_texts : dom (strings w) = texts g;
  s_nul : map_Forall (fun _ s => no_nul s = true) (strings w);
  s_disjoint : dom (handles w) ## dom (strings w);
  s_sessions : sessions g ⊆ dom (handles w);
  s_owned : forall p, p ∈ dom (handles w) -> p ∈ sessions g \/ closing w p;
  s_threads : forall k t, threads w !! k = Some t -> fits w g t;
  s_shutdown : forall k k' p, shutting w k p -> shutting w k' p -> k = k'
}.

Lemma vacant_dom (w : World) place : vacant w place = true -> place ∉ dom (handles w) /\ place ∉ dom (strings w).
Proof. unfold vacant. intros H. rewrite !not_elem_of_dom. by repeat case_match. Qed.

(** A step that changes one thread, and neither the ledger nor what is allocated. *)
Lemma sound_thread w g k c pc a hs : sound w g ->
  threads w !! k = Some {| call := c; activity := Running pc |} -> dom hs = dom (handles w) ->
  fits (set_handles hs w) g {| call := c; activity := a |} ->
  (forall p, handle_of c = Some p -> match c with Shutdown _ =>
     match a with Running pc' => is_ret pc' = is_ret pc | Returned _ => is_ret pc = true end | _ => True end) ->
  sound (set_handles hs (set_activity k c a w)) g.
Proof.
  intros [Ht Hn Hd Hs Ho Hth Hsd] Hk Hdom Hf Hret.
  assert (Hsh : forall k' p, shutting (set_handles hs (set_activity k c a w)) k' p <-> shutting w k' p).
  { intros k' p. unfold shutting. cbn. destruct (decide (k = k')) as [<-|Hne].
    - rewrite list_lookup_insert_eq by (by eapply lookup_lt_Some). rewrite Hk.
      split; intros (pc' & Hpc & Hr); simplify_eq; specialize (Hret p eq_refl); cbn in Hret.
      + exists pc. split; [done|congruence].
      + destruct a as [pc''|]; [|congruence]. exists pc''. split; [done|congruence].
    - by rewrite list_lookup_insert_ne. }
  split; cbn; rewrite ?Hdom; try done.
  - intros p Hp. destruct (Ho p Hp) as [|[k' Hk']]; [by left|]. right. exists k'. by apply Hsh.
  - intros k' t. destruct (decide (k = k')) as [<-|Hne].
    + rewrite list_lookup_insert_eq by (by eapply lookup_lt_Some). intros [= <-]. exact Hf.
    + rewrite list_lookup_insert_ne by done. intros Hk'%Hth. unfold fits in *. cbn. by rewrite Hdom.
  - intros k1 k2 p H1%Hsh H2%Hsh. by eapply Hsd.
Qed.

(** The handles' contents do not matter. *)
Lemma sound_contents (w : World) g hs : sound w g -> dom hs = dom (handles w) -> sound (set_handles hs w) g.
Proof.
  intros [Ht Hn Hd Hs Ho Hth Hsd] Hdom. split; cbn; rewrite ?Hdom; try done.
  intros k t Hk%Hth. unfold fits in *. cbn. by rewrite Hdom.
Qed.

Lemma sound_init w g h place : sound w g -> vacant w place = true ->
  sound (set_handles (<[place := h]> (handles w)) w)
    {| sessions := {[place]} ∪ sessions g; texts := texts g |}.
Proof.
  intros [Ht Hn Hd Hs Ho Hth Hsd] [Hv1 Hv2]%vacant_dom. split; cbn; rewrite ?dom_insert_L; try done.
  - set_solver.
  - set_solver.
  - intros p [Hp%elem_of_singleton|Hp]%elem_of_union; [set_solver|]. destruct (Ho p Hp) as [|Hc]; [set_solver|].
    by right.
  - intros k t Hk%Hth. unfold fits in *. cbn. rewrite dom_insert_L. destruct (activity t) as [pc|r]; [|done].
    destruct Hk as [Hb Hp]. split; [done|]. intros Hr p Hc. destruct (Hp Hr p Hc) as [Hd' Hs'].
    split; [set_solver|]. destruct (call t); set_solver.
Qed.

Lemma running_on_intro w k c pc p : threads w !! k = Some {| call := c; activity := Running pc |} ->
  handle_of c = Some p -> running_on w p.
Proof. intros Hk Hc. apply Exists_exists. eexists. split; [by eapply list_elem_of_lookup_2|]. exact Hc. Qed.

(** The new thread of a call. *)
Definition began (w : World) (c : Call) (pc : Pc) : World :=
  {| handles := handles w; strings := strings w;
     threads := threads w ++ [{| call := c; activity := Running pc |}] |}%list.

Lemma began_thread (w : World) c pc k t : threads (began w c pc) !! k = Some t ->
  threads w !! k = Some t \/ k = length (threads w) /\ t = {| call := c; activity := Running pc |}.
Proof.
  unfold began. cbn [threads]. intros [H|[Hl H]]%lookup_app_Some; [by left|]. right.
  apply list_lookup_singleton_Some in H as [Hk <-]. split; [lia|done].
Qed.

Lemma sound_enter w g c env : sound w g -> (forall p, handle_of c = Some p -> p ∈ sessions g) ->
  (forall p, c = Shutdown (Some p) -> ~ running_on w p) ->
  sound (began w c (enter env c)) (note g (Enter c env) (began w c (enter env c))).
Proof.
  intros [Ht Hn Hd Hs Ho Hth Hsd] Hc Hsh.
  assert (Hg : exists g', g' = note g (Enter c env) (began w c (enter env c)) /\ texts g' = texts g /\
    sessions g' ⊆ sessions g /\ forall p, p ∈ sessions g -> p ∈ sessions g' \/ c = Shutdown (Some p)).
  { eexists. split; [reflexivity|]. destruct c as [| | | | |[p|]| | | |]; cbn; split_and!; try done; try (by left).
    - set_solver.
    - intros q Hq. destruct (decide (q = p)) as [->|]; [by right|]. left. set_solver. }
  destruct Hg as (g' & Eg & Htx & Hsub & Hcov). rewrite <- Eg.
  assert (Hold : forall k p, shutting (began w c (enter env c)) k p ->
    shutting w k p \/ k = length (threads w) /\ c = Shutdown (Some p)).
  { intros k p (pc & [Hk|[-> Hk]]%began_thread & Hr); [left; by exists pc|right]. by simplify_eq. }
  assert (Hback : forall k p, shutting w k p -> shutting (began w c (enter env c)) k p).
  { intros k p (pc & Hk & Hr). exists pc. split; [|done]. cbn. by apply lookup_app_l_Some. }
  split; cbn [strings handles began]; rewrite ?Htx; try done.
  - set_solver.
  - intros p Hp. destruct (Ho p Hp) as [[Hp'|Hp']%Hcov|[k Hk]]; [by left| |right; exists k; by apply Hback].
    right. exists (length (threads w)), (enter env c). subst c. split; [|done].
    cbn. rewrite lookup_app_r, Nat.sub_diag by done. done.
  - intros k t [Hk|[-> ->]]%began_thread.
    + pose proof (Hth k t Hk) as Hf. unfold fits in *. cbn [handles began]. destruct t as [c' [pc|r]]; [|done].
      cbn [call activity] in *. destruct Hf as [Hb Hf]. split; [done|]. intros Hr p Hp.
      destruct (Hf Hr p Hp) as [Hp1 Hp2]. split; [done|].
      destruct c'; try (destruct (Hcov p Hp2) as [|Hcs]; [done|]; exfalso; apply (Hsh p Hcs); by eapply running_on_intro).
      set_solver.
    + unfold fits. cbn [call activity handles began]. split; [apply belongs_enter|]. intros _ p Hp.
      split; [apply Hs, Hc, Hp|]. pose proof (Hc p Hp) as Hin.
      destruct c; try (destruct (Hcov p Hin) as [|]; [done|discriminate]).
      cbn in Hp. subst handle. subst g'. cbn. set_solver.
  - intros k k' p [Hk|[-> Hk]]%Hold [Hk'|[-> Hk']]%Hold; [by eapply Hsd|exfalso..|done].
    + apply (Hsh p Hk'). destruct Hk as (pc & Hk & _). by eapply running_on_intro.
    + apply (Hsh p Hk). destruct Hk' as (pc & Hk1 & _). by eapply running_on_intro.
Qed.
(** [drop(h)]: nobody else is on the handle. *)
Lemma sound_drop w g k p : sound w g ->
  threads w !! k = Some {| call := Shutdown (Some p); activity := Running SdDrop |} ->
  sound (set_handles (delete p (handles w)) (set_activity k (Shutdown (Some p)) (Running (Ret OVoid)) w)) g.
Proof.
  intros Hw Hk. pose proof Hw as [Ht Hn Hd Hs Ho Hth Hsd].
  assert (Hsk : shutting w k p) by by exists SdDrop.
  destruct (Hth k _ Hk) as [_ Hf]. destruct (Hf eq_refl p eq_refl) as [Hin Hout]. cbn in Hout.
  assert (Hsh : forall k' p', shutting (set_handles (delete p (handles w))
      (set_activity k (Shutdown (Some p)) (Running (Ret OVoid)) w)) k' p' <-> shutting w k' p' /\ k' <> k).
  { intros k' p'. unfold shutting. cbn. destruct (decide (k = k')) as [<-|Hne].
    - rewrite list_lookup_insert_eq by (by eapply lookup_lt_Some).
      split; [intros (pc & Hpc & Hr); by simplify_eq|]. by intros [_ []].
    - rewrite list_lookup_insert_ne by done. split; [intros H; split; [done|congruence]|by intros [H _]]. }
  split; cbn; rewrite ?dom_delete_L; try done.
  - set_solver.
  - set_solver.
  - intros q [Hq Hqp]%elem_of_difference. destruct (Ho q Hq) as [|[k' Hk']]; [by left|].
    right. exists k'. apply Hsh. split; [done|]. intros ->. destruct Hk' as (pc & Hk' & _).
    simplify_eq. set_solver.
  - intros k' t. destruct (decide (k = k')) as [<-|Hne].
    + rewrite list_lookup_insert_eq by (by eapply lookup_lt_Some). by intros [= <-].
    + rewrite list_lookup_insert_ne by done. intros Hk'. pose proof (Hth k' t Hk') as Hft. unfold fits in *.
      cbn. destruct t as [c' [pc|r]]; [|done]. cbn in *. destruct Hft as [Hb Hft]. split; [done|].
      intros Hr q Hq. destruct (Hft Hr q Hq) as [Hq1 Hq2]. split; [|done]. rewrite dom_delete_L.
      apply elem_of_difference. split; [done|]. intros ->%elem_of_singleton.
      destruct c'; try done. cbn in Hq. subst handle. apply Hne. eapply Hsd; [done|]. by exists pc.
  - intros k1 k2 q [H1 _]%Hsh [H2 _]%Hsh. by eapply Hsd.
Qed.

(** The return of a string. *)
Lemma sound_return w g k c s place : sound w g -> vacant w place = true ->
  threads w !! k = Some {| call := c; activity := Running (Ret (OStr (Some s))) |} ->
  sound (set_strings (<[place := s]> (strings w)) (set_activity k c (Returned (Some place)) w))
    {| sessions := sessions g; texts := {[place]} ∪ texts g |}.
Proof.
  intros Hw [Hv1 Hv2]%vacant_dom Hk.
  assert (Hno : no_nul s = true).
  { destruct (s_threads _ _ Hw _ _ Hk) as [Hb _]. cbn in Hb. by destruct c. }
  assert (H : sound (set_activity k c (Returned (Some place)) w) g).
  { apply (sound_thread w g k c _ (Returned (Some place)) (handles w)) in Hk; [done|done|done|done|].
    intros p _. by destruct c. }
  destruct H as [Ht Hn Hd Hs Ho Hth Hsd]. split; cbn in *; try done.
  - rewrite dom_insert_L. congruence.
  - by apply map_Forall_insert_2.
  - rewrite dom_insert_L. set_solver.
Qed.

Lemma sound_free w g q : sound w g ->
  sound (set_strings (delete q (strings w)) w) {| sessions := sessions g; texts := texts g ∖ {[q]} |}.
Proof.
  intros [Ht Hn Hd Hs Ho Hth Hsd]. split; cbn in *; try done.
  - rewrite dom_delete_L. congruence.
  - by apply map_Forall_delete.
  - rewrite dom_delete_L. set_solver.
Qed.
Lemma shutdown_point k h c pc i h' pc' : belongs c pc = true -> thread_step k h pc i = Some (h', pc') ->
  match c with Shutdown _ => is_ret pc' = is_ret pc | _ => True end.
Proof.
  intros Hb Hs. destruct c; try done. destruct pc; try done; destruct i; try done; cbn in Hs;
    unfold option_map in Hs; repeat case_match; by simplify_eq.
Qed.

(** What a step may lead to, under the rules. *)
Definition good (g : Ledger) (l : Label) (o : option Outcome) : Prop :=
  match o with
  | Some (Fine w') => sound w' (note g l w')
  | Some UB => False
  | None => True
  end.

Lemma good_call w g k c pc i : sound w g ->
  threads w !! k = Some {| call := c; activity := Running pc |} ->
  good g (Step k i) (call_step ser_f64 ET_SUPERVISOR_SOCKET new_from_str get_id new_from_config parse_table
    w k c pc i).
Proof.
  intros Hw Hk. destruct (s_threads _ _ Hw _ _ Hk) as [Hb Hf]. cbn [call activity] in *.
  unfold call_step. destruct (is_ret pc) eqn:Hret; [by destruct pc|].
  destruct (handle_of c) as [p|] eqn:Hc.
  - destruct (Hf eq_refl p eq_refl) as [[h Hh]%elem_of_dom Hses].
    assert (Hgo : good g (Step k i) (option_map (fun '(h', pc') =>
      Fine (set_handles (<[p := h']> (handles w)) (set_activity k c (Running pc') w))) (thread_step k h pc i))).
    { destruct (thread_step k h pc i) as [[h' pc']|] eqn:Hst; [|done]. cbn.
      assert (Hdom : dom (<[p := h']> (handles w)) = dom (handles w)).
      { rewrite dom_insert_L. apply elem_of_dom_2 in Hh. set_solver. }
      eapply sound_thread; try done.
      - split; [by eapply belongs_step|]. cbn. intros _ q Hq. rewrite Hdom, Hc in *. by apply Hf.
      - intros q _. pose proof (shutdown_point _ _ _ _ _ _ _ Hb Hst). by destruct c. }
    destruct pc; try done; rewrite Hh; try exact Hgo.
    destruct c; try done. cbn in Hc. subst handle. by apply sound_drop.
  - assert (Hgo : good g (Step k i) (option_map (fun pc' => Fine (set_activity k c (Running pc') w)) (helper_step pc i))).
    { destruct (helper_step pc i) as [pc'|] eqn:Hst; [|done]. cbn.
      apply (sound_thread w g k c pc (Running pc') (handles w)); try done.
      - split; [by eapply belongs_helper|]. cbn. intros _ q Hq. congruence.
      - intros q Hq. congruence. }
    destruct pc; done.
Qed.

Lemma good_step w g l : sound w g -> allowed w g l -> good g l (step w l).
Proof.
  intros Hw Ha. destruct l as [cb built place|c env|k i|k place|p l|p|[q|]].
  - cbn. destruct built; cbn; [|done]. destruct (vacant w place) eqn:Hv; [|done]. cbn. by apply sound_init.
  - cbn [Bridge.step]. cbn in Ha. unfold begin.
    assert (He : (forall p, handle_of c = Some p -> p ∈ sessions g) ->
      (forall p, c = Shutdown (Some p) -> ~ running_on w p) -> good g (Enter c env) (Some (Fine (began w c (enter env c))))).
    { intros H1 H2. apply sound_enter; done. }
    destruct (handle_of c) as [p|] eqn:Hc.
    + destruct Ha as [Hp Hsh]. destruct (handles w !! p) eqn:Hh.
      * apply He; [by intros ? [= <-]|]. intros q ->. cbn in Hc. by simplify_eq.
      * apply not_elem_of_dom in Hh. by apply Hh, (s_sessions _ _ Hw).
    + apply He; [done|]. intros q ->. done.
  - cbn [Bridge.step]. destruct (threads w !! k) as [[c [pc|r]]|] eqn:Hk; [|done..]. by apply good_call.
  - cbn [Bridge.step]. destruct (threads w !! k) as [[c [pc|r]]|] eqn:Hk; [|done..].
    destruct pc as [| | | | | | | | | | | | | | | | | | | | | | | |o]; try done.
    destruct (s_threads _ _ Hw _ _ Hk) as [Hb _]. cbn in Hb.
    assert (Hnone : o = OVoid \/ o = OStr None -> sound (set_activity k c (Returned None) w) g).
    { intros Ho. apply (sound_thread w g k c _ (Returned None) (handles w)) in Hk; try done.
      - intros Hn. by destruct Ho as [-> | ->], c.
      - intros p _. by destruct c. }
    pose proof (lookup_lt_Some _ _ _ Hk) as Hlt.
    destruct o as [|[s|]]; cbn [return_ good note].
    + cbn. rewrite list_lookup_insert_eq by done. by apply Hnone; left.
    + destruct (vacant w place) eqn:Hv; [|done]. cbn. rewrite list_lookup_insert_eq by done.
      by apply sound_return.
    + cbn. rewrite list_lookup_insert_eq by done. by apply Hnone; right.
  - cbn. unfold task_step. destruct (handles w !! p) as [h|] eqn:Hh; [|done]. cbn.
    destruct (run_driver _ h l) as [h'|]; [|done]. cbn. apply sound_contents; [done|].
    apply elem_of_dom_2 in Hh. rewrite dom_insert_L. set_solver.
  - cbn. unfold task_step. destruct (handles w !! p) as [h|] eqn:Hh; [|done]. cbn.
    destruct (forward_events h) as [h'|]; [|done]. cbn. apply sound_contents; [done|].
    apply elem_of_dom_2 in Hh. rewrite dom_insert_L. set_solver.
  - cbn in *. destruct (strings w !! q) eqn:Hq; [by apply sound_free|].
    apply not_elem_of_dom in Hq. apply Hq. by rewrite (s_texts _ _ Hw).
  - done.
Qed.

Lemma played_sound w g : played w g -> sound w g.
Proof.
  induction 1 as [|w g l w' _ IH Ha Hs].
  { split; cbn; try done; try set_solver. intros k k' p (pc & Hk & _). done. }
  pose proof (good_step w g l IH Ha) as H.
  by rewrite Hs in H.
Qed.

(** C25: a client that uses a handle from [etb_init] until [etb_shutdown], lets no
    call overlap the shutdown, and frees each string it was returned at most once,
    never makes the library touch memory it does not own, however its calls and
    the tasks of its sessions interleave and wherever the allocator puts things.
    The strings alive are exactly those it was returned and has not freed, without
    interior NULs; the sessions alive are exactly those it has not shut down, or
    is shutting down; and the functions that return JSON never return NULL. *)
Theorem client_memory_safe w g : played w g ->
  (forall l, allowed w g l -> step w l <> Some UB) /\
  dom (strings w) = texts g /\ map_Forall (fun _ s => occurs NUL s = false) (strings w) /\
  (forall p, p ∈ dom (handles w) <-> p ∈ sessions g \/ closing w p) /\
  dom (handles w) ## dom (strings w) /\
  (forall k c r, threads w !! k = Some {| call := c; activity := Returned r |} ->
     never_null c = true -> r <> None).
Proof.
  intros Hw%played_sound. split_and!.
  - intros l Ha Hs. pose proof (good_step w g l Hw Ha) as H. by rewrite Hs in H.
  - apply Hw.
  - apply (map_Forall_impl _ _ _ (s_nul _ _ Hw)). intros q s Hs. by apply negb_true_iff in Hs.
  - intros p. split; [apply Hw|]. intros [Hp|[k (pc & Hk & Hr)]]; [by apply (s_sessions _ _ Hw)|].
    destruct (s_threads _ _ Hw _ _ Hk) as [_ Hf]. by apply (Hf Hr p eq_refl).
  - apply Hw.
  - intros k c r Hk. apply (s_threads _ _ Hw _ _ Hk).
Qed.
End Memory.

(** ** An example *)

#[local] Existing Instance Sample.crate.

(** A session that is opened, asked for its status, and shut down. *)
Definition session_schedule : list Label :=
  [Init true true 0; Enter (Status (Some 0)) Sample.env; Step 0 (IGo Sample.env); Return 0 1;
   Enter (Validate (Some "x")) Sample.env; Step 1 (IGo Sample.env); Return 1 2; FreeString (Some 1);
   Enter (Shutdown (Some 0)) Sample.env; Step 2 (IGo Sample.env); Drive 0 DEnd; Step 2 (IGo Sample.env);
   Step 2 (IGo Sample.env); Return 2 7].

Definition play_sample (ls : list Label) : option (Sample.world * Ledger) :=
  play JFloat None "/src" (fun t => @Ok string string t) (fun _ => "id") (fun t => @Ok string string t)
    (fun _ => Ok tt) ls nothing {| sessions := ∅; texts := ∅ |}.

Definition session_world : Sample.world :=
  default nothing (option_map fst (play_sample session_schedule)).
Definition session_ledger : Ledger := {| sessions := ∅; texts := {[2]} |}.

Lemma session_played : play_sample session_schedule = Some (session_world, session_ledger).
Proof. vm_compute. reflexivity. Qed.

Lemma client_memory_safe_witness :
  dom (strings session_world) = {[2]} /\ dom (handles session_world) = ∅ /\
  Sample.step session_world (FreeString (Some 2)) <> Some UB.
Proof.
  destruct (@client_memory_safe _ Sample.crate JFloat None "/src" string string (fun t => @Ok string string t) (fun _ => "id")
    (fun t => @Ok string string t) (fun _ => Ok tt) session_world session_ledger) as (Hub & Hd & _).
  { by eapply play_played, session_played; apply played_nothing. }
  split; [exact Hd|]. split; [vm_compute; reflexivity|].
  apply Hub. cbn [allowed session_ledger texts]. set_solver.
Defined.
