(* ===== verification/FfiInv.v ===== *)
(** * What calls that overlap leave behind

    The port and the instance of a session, whatever calls and tasks run beside each
    other, and the schedules in which they are not what was meant. *)

From Stdlib Require Import ZArith Lia Ascii String.
From stdpp Require Import base list strings gmap sets.
From S2P Require Import Prelude RustStr Json JsonText ClientProto SupervisorClient ClientInv Ffi Bridge FfiMemory.
From S2P Require Rpc Conflict Proto.
Import ClientProto SupervisorClient.

Open Scope string_scope.

(** ** The events of a driver only grow *)

Section Driver.
Context {SJ : SerdeJson} (config : SupervisorConfig).

(** A start among the answers [xs] is also among the events [evs]. *)
Definition reported (evs : list SupervisorEvent.SupervisorEvent) (xs : list (nat * Answer)) : Prop :=
  forall t i, In (t, Started i) xs -> In (SupervisorEvent.CoreStarted (si_pid i) (si_rpc_port i)) evs.

(** [d'] adds events and answers to those of [d], which are of that kind. *)
Definition grows (d d' : Driver) : Prop := exists evs xs,
  events d' = (events d ++ evs)%list /\ answers d' = (answers d ++ xs)%list /\ reported evs xs.

Lemma reported_none evs xs : Forall (fun x => match x.2 with Started _ => False | _ => True end) xs ->
  reported evs xs.
Proof. intros Hf t i Hin. rewrite List.Forall_forall in Hf. by apply Hf in Hin. Qed.

Lemma reported_app evs evs' xs xs' : reported evs xs -> reported evs' xs' ->
  reported (evs ++ evs')%list (xs ++ xs')%list.
Proof.
  intros H H' t i. rewrite !in_app_iff. intros [Hin|Hin]; [left; by eapply H|right; by eapply H'].
Qed.

Lemma reported_dispatch ev p : reported (dispatch_event ev p).1.2 (dispatch_event ev p).2.
Proof.
  destruct ev; cbn; try by apply reported_none.
  - intros t i. destruct p as [[[] t']|]; cbn; try done; intros [[= <- <-]|[]]; by left.
  - destruct p as [[[] t']|]; apply reported_none; by repeat constructor.
  - destruct p as [[[] t']|]; apply reported_none; by repeat constructor.
  - destruct p as [r|]; apply reported_none; by repeat constructor.
Qed.

Lemma grows_refl d d' : events d' = events d -> answers d' = answers d -> grows d d'.
Proof. intros He Ha. exists [], []. rewrite !app_nil_r. split_and!; [done..|]. by apply reported_none. Qed.

Lemma grows_trans d1 d2 d3 : grows d1 d2 -> grows d2 d3 -> grows d1 d3.
Proof.
  intros (e & x & He & Hx & Hr) (e' & x' & He' & Hx' & Hr'). exists (e ++ e')%list, (x ++ x')%list.
  split_and!; [by rewrite He', He, app_assoc|by rewrite Hx', Hx, app_assoc|]. by apply reported_app.
Qed.

(** Events without answers, and answers of other kinds. *)
Lemma grows_by d d' evs xs : events d' = (events d ++ evs)%list -> answers d' = (answers d ++ xs)%list ->
  Forall (fun x => match x.2 with Started _ => False | _ => True end) xs -> grows d d'.
Proof. intros He Hx Hf. exists evs, xs. split_and!; [done..|]. by apply reported_none. Qed.

Lemma grows_end p next d : grows d (end_session p next d).
Proof. eapply grows_by; [reflexivity|reflexivity|]. destruct p; by repeat constructor. Qed.

Lemma grows_stop d : grows d (stop_driver d).
Proof.
  eapply (grows_by _ _ []); [by rewrite app_nil_r|reflexivity|]. apply List.Forall_forall.
  by intros x (r & <- & _)%in_map_iff.
Qed.

Lemma grows_line p l d : grows d (handle_line p l d).
Proof.
  unfold handle_line. destruct (utf8_valid l); [|apply grows_end].
  destruct (decode_event l) as [ev|]; [|by apply grows_refl].
  pose proof (reported_dispatch ev p) as H. destruct (dispatch_event ev p) as [[p' evs] xs].
  by exists evs, xs.
Qed.

Lemma grows_request p r w d : grows d (take_request p r w d).
Proof.
  unfold take_request. destruct p.
  { eapply (grows_by _ _ []); [by rewrite app_nil_r|reflexivity|by repeat constructor]. }
  destruct w; [by apply grows_refl|..]; eapply grows_trans; [|apply grows_end| |apply grows_end];
    eapply (grows_by _ _ []); [by rewrite app_nil_r|reflexivity|by repeat constructor..
      |by rewrite app_nil_r|reflexivity|by repeat constructor].
Qed.

Lemma grows_attempt h d : grows d (attempt config h d).
Proof.
  unfold attempt. destruct (connect_and_hello (next_takeover d) h) as [[r evs] cmds].
  apply (grows_by _ _ evs []); [|by rewrite app_nil_r; destruct r as [[]|[]]|done].
  by destruct r as [[]|[]].
Qed.
Create HintDb grows.
#[local] Hint Resolve grows_end grows_stop grows_line grows_request grows_attempt : grows.

Lemma grows_step d l d' : driver_step config d l = Some d' -> grows d d'.
Proof.
  unfold driver_step. intros Hs. destruct l as [r| | | | | | | |h|w|s|s| | |early].
  all: destruct (dpc d) eqn:Hp; try done.
  all: repeat match type of Hs with context [match ?x with _ => _ end] => destruct x eqn:? end.
  all: simplify_eq; auto with grows; try by apply grows_refl.
  all: try (eapply grows_trans; [|apply grows_stop]; auto with grows; by apply grows_refl).
  - eapply (grows_by _ _ []); [by rewrite app_nil_r|reflexivity|by repeat constructor].
  - eapply grows_trans; [|eapply grows_trans; [apply grows_end|apply grows_stop]]. by apply grows_refl.
  - eapply grows_trans; [|apply grows_request]. by apply grows_refl.
Qed.

(** ** A request is not forgotten *)

(** The driver was asked this: it has answered, waits for the reply, or has it in
    its channel. *)
Definition asked (r : Request) (d : Driver) : Prop :=
  (exists a, In (ticket r, a) (answers d)) \/ dpc d = DSession (Some r) \/ In r (queue d).

Lemma asked_more r d d' : grows d d' -> (exists a, In (ticket r, a) (answers d)) -> asked r d'.
Proof. intros (e & x & _ & Hx & _) [a Ha]. left. exists a. rewrite Hx. apply in_or_app. by left. Qed.

Lemma asked_end r p next d : dpc d = DSession p -> asked r d -> asked r (end_session p next d).
Proof.
  intros Hp [Ha|[Ha|Ha]]; [by eapply asked_more; [apply grows_end|]| |by right; right].
  rewrite Hp in Ha. injection Ha as ->. left. exists Dropped. cbn. apply in_or_app. right. by left.
Qed.

Lemma asked_over r d : (forall p, dpc d <> DSession p) -> asked r d -> asked r (stop_driver d).
Proof.
  intros Hp [Ha|[Ha|Ha]]; [by eapply asked_more; [apply grows_stop|]|by apply Hp in Ha|].
  left. exists Dropped. cbn. apply in_or_app. right. apply in_map_iff. by exists r.
Qed.

Lemma dispatch_keeps ev r : (dispatch_event ev (Some r)).1.1 = Some r \/
  exists a, (dispatch_event ev (Some r)).2 = [(ticket r, a)].
Proof. destruct r as [[] t], ev; cbn; eauto. Qed.

Lemma asked_line r p l d : dpc d = DSession p -> asked r d -> asked r (handle_line p l d).
Proof.
  intros Hp Ha. unfold handle_line. destruct (utf8_valid l); [|by apply asked_end].
  destruct (decode_event l) as [ev|]; [|exact Ha].
  destruct Ha as [[a Ha]|[Ha|Ha]].
  - left. exists a. destruct (dispatch_event ev p) as [[p' evs] xs]. cbn. apply in_or_app. by left.
  - rewrite Hp in Ha. injection Ha as ->. pose proof (dispatch_keeps ev r) as Hd.
    destruct (dispatch_event ev (Some r)) as [[p' evs] xs]. destruct Hd as [Hd|[a Hd]]; cbn in Hd; subst.
    + by right; left.
    + left. exists a. cbn. apply in_or_app. right. by left.
  - right; right. by destruct (dispatch_event ev p) as [[p' evs] xs].
Qed.

Lemma asked_request r p r0 q w d : dpc d = DSession p -> queue d = r0 :: q -> asked r d ->
  asked r (take_request p r0 w (set_queue q d)).
Proof.
  intros Hp Hq [Ha|[Ha|Ha]].
  - eapply asked_more; [|exact Ha]. eapply grows_trans; [|apply grows_request]. by apply grows_refl.
  - rewrite Hp in Ha. injection Ha as ->. by right; left.
  - rewrite Hq in Ha. destruct Ha as [->|Ha]; unfold take_request; destruct p, w; try by right; right.
    all: try by right; left. all: left; eexists; cbn; rewrite ?in_app_iff; cbn; eauto.
Qed.

(** A point outside a session has only the channel. *)
Lemma asked_same r d d' : answers d' = answers d -> queue d' = queue d ->
  dpc d' = dpc d \/ (forall p, dpc d <> DSession p) -> asked r d -> asked r d'.
Proof.
  unfold asked. intros -> -> Hp [Ha|[Ha|Ha]]; [by left| |by right; right].
  destruct Hp as [->|Hp]; [by right; left|by apply Hp in Ha].
Qed.

Lemma asked_attempt r h d : dpc d = DConnect -> asked r d -> asked r (attempt config h d).
Proof.
  intros Hp. unfold attempt. destruct (connect_and_hello (next_takeover d) h) as [[[[]|[]] evs] cmds];
    apply asked_same; try done; right; intros p; by rewrite Hp.
Qed.

Lemma asked_step r d l d' : driver_step config d l = Some d' -> asked r d -> asked r d'.
Proof.
  intros Hs Ha. unfold driver_step in Hs.
  assert (Hout : (forall p, dpc d <> DSession p) -> forall d1, answers d1 = answers d -> queue d1 = queue d ->
    dpc d1 = dpc d -> asked r (stop_driver d1)).
  { intros Hno d1 Hx Hq H1. apply asked_over; [by rewrite H1|]. eapply asked_same; eauto. }
  destruct l as [r0| | | | | | | |h|w|s|s| | |early].
  - assert (Hd : asked r (set_queue (queue d ++ [r0])%list d)).
    { destruct Ha as [Ha|[Ha|Ha]]; [by left|by right; left|right; right]. apply in_or_app. by left. }
    destruct (dpc d) eqn:Hp; try (destruct (_ <? _)%nat; [|done]); injection Hs as <-; try done.
    destruct Ha as [[a Ha]|[Ha|Ha]]; [left; exists a; apply in_or_app; by left|congruence|by right; right].
  - destruct (dpc d) eqn:Hp; injection Hs as <-; (eapply asked_same; [..|exact Ha]; [done..|]); auto.
    right. by rewrite Hp.
  - destruct (dpc d) eqn:Hp; injection Hs as <-; (eapply asked_same; [..|exact Ha]; [done..|]); auto.
    right. by rewrite Hp.
  - injection Hs as <-. eapply asked_same; [..|exact Ha]; auto.
  - destruct (dpc d) eqn:Hp; try done. destruct (queue d); [|done]. injection Hs as <-.
    apply asked_over; [done|]. by apply asked_end.
  - destruct (dpc d) eqn:Hp; try done. destruct (takeover_permit d); [|done]. injection Hs as <-.
    eapply asked_same; [..|exact Ha]; [done..|]. right. by rewrite Hp.
  - destruct (dpc d) eqn:Hp; try done; destruct (shutdown_permit d); try done; injection Hs as <-;
      try (apply Hout; done).
    apply asked_over; [done|]. apply asked_end; [done|]. eapply asked_same; [..|exact Ha]; auto.
  - destruct (dpc d) eqn:Hp; try done. destruct (shutdown_permit d); [|done]. injection Hs as <-.
    by apply Hout.
  - destruct (dpc d) eqn:Hp; try done. injection Hs as <-. by apply asked_attempt.
  - destruct (dpc d) eqn:Hp; try done. destruct (queue d) eqn:Hq; [done|]. injection Hs as <-.
    by eapply asked_request.
  - destruct (dpc d) eqn:Hp; try done. destruct (occurs _ s); [done|]. injection Hs as <-.
    eapply asked_same; [..|exact Ha]; auto.
  - destruct (dpc d) eqn:Hp; try done. destruct (occurs _ s); [done|]. injection Hs as <-. by apply asked_line.
  - destruct (dpc d) eqn:Hp; try done. injection Hs as <-.
    destruct (line d =? ""); [by apply asked_end|by apply asked_line].
  - destruct (dpc d) eqn:Hp; try done. injection Hs as <-. by apply asked_end.
  - destruct (dpc d) eqn:Hp; try done. destruct (early && _); [done|]. injection Hs as <-.
    eapply asked_same; [..|exact Ha]; [by destruct early..|]. right. by rewrite Hp.
Qed.

(** What stays true of a driver as it goes on. *)
Definition onward (d d' : Driver) : Prop := grows d d' /\ forall r, asked r d -> asked r d'.

Lemma onward_same d d' : d' = d -> onward d d'.
Proof. intros ->. split; [by apply grows_refl|done]. Qed.

Lemma onward_step d l d' : driver_step config d l = Some d' -> onward d d'.
Proof. intros Hs. split; [by eapply grows_step|intros r; by eapply asked_step]. Qed.

Lemma asked_issue r d d' : driver_step config d (DIssue r) = Some d' -> asked r d'.
Proof.
  unfold driver_step. destruct (dpc d); try (destruct (_ <? _)%nat; [|done]); intros [= <-].
  all: try (right; right; apply in_or_app; right; by left).
  left. eexists. apply in_or_app. right. by left.
Qed.

End Driver.

(** ** A session beside its calls *)

Section Calls.
Context {SJ : SerdeJson} {C : Rpc.Crate} (ser_f64 : Rpc.f64 -> json).
Context (ET_SUPERVISOR_SOCKET : option string) (CARGO_MANIFEST_DIR : string).
Context {Loader Config : Type}.
Context (new_from_str : string -> result Loader string) (get_id : Loader -> string).
Context (new_from_config : Loader -> result Config string).
Context (parse_table : string -> result unit string).

Notation Pc := (Pc (Config := Config)).
Notation World := (World (Config := Config)).
Notation enter := (enter CARGO_MANIFEST_DIR new_from_str new_from_config parse_table).
Notation thread_step :=
  (thread_step ser_f64 ET_SUPERVISOR_SOCKET new_from_str get_id new_from_config parse_table).
Notation step := (Bridge.step ser_f64 ET_SUPERVISOR_SOCKET CARGO_MANIFEST_DIR new_from_str get_id
  new_from_config parse_table).
Notation played := (played ser_f64 ET_SUPERVISOR_SOCKET CARGO_MANIFEST_DIR new_from_str get_id
  new_from_config parse_table).

(** The port the session will have when [forward_events] has caught up, and the one
    the events alone give. *)
Definition settled (h : EtbHandle) : option Z :=
  foldl event_port (port h) (drop (forwarded h) (events (supervisor h))).
Definition told (h : EtbHandle) : option Z := foldl event_port None (events (supervisor h)).

(** The start of the core that call [k] was told of, in the reply to its own
    request. *)
Definition told_start (k : nat) (h : EtbHandle) (info : StartInfo) : Prop :=
  In (k, Started info) (answers (supervisor h)).

(** A start of the core that some caller was told of. *)
Definition start_of (h : EtbHandle) (info : StartInfo) : Prop := exists k, told_start k h info.

(** The request of [etb_disconnect]. *)
Definition stop_by (k : nat) : Request := {| what := RStop; ticket := k |}.

(** A call [etb_disconnect] was made on the handle. *)
Definition disconnected_once (w : World) (p : nat) : Prop :=
  exists k t, threads w !! k = Some t /\ call t = Disconnect (Some p).

(** The settled port is the one the events give, or that of an answered start, or
    none after a disconnection. *)
Definition port_ok (w : World) (p : nat) (h : EtbHandle) : Prop :=
  settled h = told h \/
  (exists info, start_of h info /\ settled h = Some (si_rpc_port info)) \/
  settled h = None /\ disconnected_once w p.

Definition handle_ok (w : World) (p : nat) (h : EtbHandle) : Prop :=
  reported (events (supervisor h)) (answers (supervisor h)) /\
  (forwarded h <= length (events (supervisor h)))%nat /\ port_ok w p h.

(** The configuration a text stands for. *)
Definition loads (t id : string) (cfg : Config) : Prop :=
  exists l, new_from_str (from_utf8_lossy t) = Ok l /\ get_id l = id /\ new_from_config l = Ok cfg.

(** What call [k] has achieved at its points. *)
Definition progress (k : nat) (c : Call) (pc : Pc) (h : EtbHandle) : Prop :=
  match c, pc with
  | Connect _ (Some t), (CnStart toml | CnWait toml) => toml = from_utf8_lossy t
  | Connect _ (Some t), CnStarted toml info => toml = from_utf8_lossy t /\ told_start k h info
  | Connect _ (Some t), (CnAttempt id cfg _ | CnCall id cfg _ _) =>
      loads t id cfg /\ exists info, told_start k h info
  | Connect _ (Some t), CnStore id =>
      (exists cfg, loads t id cfg) /\ (exists info, told_start k h info) /\
      exists q, In (RunInstance k q id) (rpcs h)
  | Connect _ None, pc => is_ret pc = true
  | Disconnect _, (DcWait | DcClear) => asked (stop_by k) (supervisor h)
  | _, _ => True
  end.

(** The handle later on. *)
Definition later (h h' : EtbHandle) : Prop :=
  onward (supervisor h) (supervisor h') /\ exists rs, rpcs h' = (rpcs h ++ rs)%list.

Lemma later_same h h' : supervisor h' = supervisor h -> rpcs h' = rpcs h -> later h h'.
Proof. intros Hs Hr. split; [by apply onward_same|]. exists []. by rewrite app_nil_r. Qed.

Lemma later_refl h : later h h.
Proof. by apply later_same. Qed.

Lemma later_told k h h' info : later h h' -> told_start k h info -> told_start k h' info.
Proof. intros [[(e & x & _ & Hx & _) _] _] Ht. unfold told_start. rewrite Hx. apply in_or_app. by left. Qed.

Lemma later_start h h' info : later h h' -> start_of h info -> start_of h' info.
Proof. intros Hl [t Ht]. exists t. by eapply later_told. Qed.

Lemma later_progress k h h' c pc : later h h' -> progress k c pc h -> progress k c pc h'.
Proof.
  intros Hl. destruct c as [? [t|]|q| | | | | | | |]; try done; destruct pc; cbn; try done.
  - intros [-> Hs]. eauto using later_told.
  - intros (Hc & info & Hs). eauto using later_told.
  - intros (Hc & info & Hs). eauto using later_told.
  - intros (Hc & (info & Hs) & q & Hq). split_and!; eauto using later_told.
    exists q. destruct Hl as [_ [rs ->]]. apply in_or_app. by left.
  - apply Hl.
  - apply Hl.
Qed.

(** ** The settled port *)

Lemma port_forget evs : forall a b, foldl event_port a evs = foldl event_port b evs \/
  foldl event_port a evs = a /\ foldl event_port b evs = b.
Proof.
  induction evs as [|ev evs IH]; intros a b; cbn [foldl]; [by right|].
  destruct ev as [v core [q|]| |pid q|r|code sig| |o|code m]; cbn [event_port]; auto.
Qed.

Lemma settled_grow h h' evs : events (supervisor h') = (events (supervisor h) ++ evs)%list ->
  port h' = port h -> forwarded h' = forwarded h -> (forwarded h <= length (events (supervisor h)))%nat ->
  settled h' = foldl event_port (settled h) evs /\ told h' = foldl event_port (told h) evs.
Proof.
  intros He Hp Hf Hl. unfold settled, told. rewrite He, Hp, Hf, foldl_app. split; [|done].
  rewrite drop_app_le by done. by rewrite foldl_app.
Qed.

Lemma told_started h info : reported (events (supervisor h)) (answers (supervisor h)) ->
  start_of h info -> In (SupervisorEvent.CoreStarted (si_pid info) (si_rpc_port info)) (events (supervisor h)).
Proof. intros Hr [t Ht]. by eapply Hr. Qed.

(** The driver moves. *)
Lemma handle_ok_driver w p h h' : handle_ok w p h -> onward (supervisor h) (supervisor h') ->
  port h' = port h -> forwarded h' = forwarded h -> rpcs h' = rpcs h -> handle_ok w p h' /\ later h h'.
Proof.
  intros (Hr & Hf & Hp) Hg Hport Hfw Hrpc.
  assert (Hl : later h h') by (split; [done|]; exists []; by rewrite app_nil_r).
  split; [|done]. destruct Hg as [(evs & xs & He & Hx & Hr') _].
  split; [rewrite He, Hx; by apply reported_app|]. split; [rewrite Hfw, He, length_app; lia|].
  destruct (settled_grow h h' evs He Hport Hfw Hf) as [Hs Ht].
  unfold port_ok. rewrite Hs, Ht. destruct (port_forget evs (settled h) (told h)) as [Heq|[Ha Hb]]; [by left|].
  rewrite Ha, Hb. destruct Hp as [|[(info & Hi & ?)|?]]; [by left| |by right; right].
  right; left. exists info. split; [|done]. by eapply later_start.
Qed.

(** [forward_events] takes an event. *)
Lemma handle_ok_forward w p h h' : handle_ok w p h -> forward_events h = Some h' ->
  handle_ok w p h' /\ later h h'.
Proof.
  intros (Hr & Hf & Hp). unfold forward_events. destruct (events (supervisor h) !! forwarded h) as [ev|] eqn:He; [|done].
  intros [= <-]. set (h' := sink_emit _ _).
  assert (Hh : supervisor h' = supervisor h /\ rpcs h' = rpcs h /\ port h' = event_port (port h) ev /\
    forwarded h' = S (forwarded h)) by (unfold h', sink_emit; case_match; done).
  clearbody h'. destruct Hh as (Hs & Hrp & Hpo & Hfw).
  assert (Hl : later h h').
  { by apply later_same. }
  split; [|done]. split; [by rewrite Hs|]. pose proof (lookup_lt_Some _ _ _ He) as Hlt.
  split; [rewrite Hs, Hfw; lia|].
  assert (Hset : settled h' = settled h).
  { unfold settled. rewrite Hs, Hfw, Hpo. erewrite (drop_S _ _ (forwarded h)) by exact He. done. }
  unfold port_ok, told. rewrite Hset, Hs. destruct Hp as [|[(info & Hi & ?)|?]]; [by left| |by right; right].
  right; left. exists info. split; [|done]. by eapply later_start.
Qed.

(** Neither the driver nor the port. *)
Lemma handle_ok_same w p h h' rs : handle_ok w p h -> supervisor h' = supervisor h -> port h' = port h ->
  forwarded h' = forwarded h -> rpcs h' = (rpcs h ++ rs)%list -> handle_ok w p h' /\ later h h'.
Proof.
  intros H Hs Hp Hf Hr. split.
  - unfold handle_ok, port_ok, settled, told, start_of, told_start in *. by rewrite Hs, Hp, Hf.
  - split; [by apply onward_same|]. by exists rs.
Qed.

(** The port is set by a call. *)
Lemma handle_ok_port w p h q : handle_ok w p h ->
  ((exists info, start_of h info /\ q = Some (si_rpc_port info)) \/ q = None /\ disconnected_once w p) ->
  handle_ok w p (set_port q h) /\ later h (set_port q h).
Proof.
  intros (Hr & Hf & Hp) Hq. split.
  2: { by apply later_same. }
  split; [done|]. split; [done|].
  unfold port_ok. change (told (set_port q h)) with (told h).
  change (settled (set_port q h)) with (foldl event_port q (drop (forwarded h) (events (supervisor h)))).
  destruct (port_forget (drop (forwarded h) (events (supervisor h))) q (port h)) as [->|[-> _]]; [done|].
  destruct Hq as [(info & Hi & ->)|[-> ?]]; right; [left; by exists info|by right].
Qed.

(** A request, a notification. *)
Lemma handle_ok_issue w p h d l : handle_ok w p h ->
  driver_step (config ET_SUPERVISOR_SOCKET) (supervisor h) l = Some d ->
  handle_ok w p (set_supervisor d h) /\ later h (set_supervisor d h).
Proof. intros H Hd. apply (handle_ok_driver w p h _ H); try done. by eapply onward_step. Qed.

Lemma reply_in k h a : reply k h = Some a -> In (k, a) (answers (supervisor h)).
Proof.
  unfold reply. destruct (List.find _ _) as [[t b]|] eqn:Hf; [|done]. intros [= <-].
  apply find_some in Hf as [Hin Ht]. apply Nat.eqb_eq in Ht. cbn in Ht. by subst t.
Qed.

(** The reply to a start. *)
Lemma progress_started p t toml k h timed_out r : await_reply k h timed_out = Some r ->
  toml = from_utf8_lossy t ->
  progress k (Connect p (Some t)) (started (Config := Config) toml r) h.
Proof.
  intros Hr Ht. unfold started. destruct r as [[info| | | |]|e] eqn:E; cbn; try done. split; [done|].
  unfold await_reply in Hr. destruct (reply k h) as [a|] eqn:Ha; [|by destruct timed_out].
  destruct timed_out; [done|]. apply reply_in in Ha. destruct a; simplify_eq/=. done.
Qed.

Lemma progress_parse k p t h info : told_start k h info ->
  progress k (Connect p (Some t))
    (parse_config new_from_str get_id new_from_config parse_table (from_utf8_lossy t)) h.
Proof.
  intros Hi. unfold parse_config. destruct (new_from_str _) as [l|] eqn:Hl; [|done].
  destruct (new_from_config l) as [cfg|] eqn:Hc; [|done]. split; [by exists l|by exists info].
Qed.

Lemma progress_next k p t h id cfg i e : loads t id cfg -> (exists info, told_start k h info) ->
  progress k (Connect p (Some t)) (next_attempt id cfg i e) h.
Proof. intros Hl Hs. unfold next_attempt. by case_match. Qed.

(** A step of a call keeps what holds of its handle ... *)
Lemma thread_handle w p k c pc h i h' pc' : handle_ok w p h -> handle_of c = Some p ->
  threads w !! k = Some {| call := c; activity := Running pc |} -> belongs c pc = true ->
  progress k c pc h -> thread_step k h pc i = Some (h', pc') -> handle_ok w p h' /\ later h h'.
Proof.
  intros Hh Hc Hk Hb Hp Hs.
  assert (Hsame : handle_ok w p h /\ later h h) by (split; [done|apply later_refl]).
  assert (Hinst : forall o, handle_ok w p (set_instance o h) /\ later h (set_instance o h)).
  { intros o. apply (handle_ok_same w p h _ []); try done. by rewrite app_nil_r. }
  assert (Hrpc : forall r, handle_ok w p (add_rpc r h) /\ later h (add_rpc r h)).
  { intros r. by apply (handle_ok_same w p h _ [r]). }
  unfold Ffi.thread_step in Hs. destruct i as [env|portal| |env].
  - unfold go, send_request, option_map in Hs. destruct pc; try done; repeat case_match; simplify_eq; try done;
      try by eapply handle_ok_issue.
    + apply handle_ok_port; [done|]. left. exists info. split; [|done]. exists k.
      by destruct c as [? [t|]| | | | | | | | |]; try done; destruct Hp.
    + apply handle_ok_port; [done|]. right. split; [done|]. exists k, {| call := c; activity := Running DcClear |}.
      split; [done|]. destruct c as [|[q|]| | | | | | | |]; try done. cbn in *. by simplify_eq.
  - destruct pc; try done; cbn [answered] in Hs; repeat case_match; by simplify_eq.
  - unfold option_map in Hs. destruct pc; try done; repeat case_match; by simplify_eq.
  - destruct pc; try done; by simplify_eq.
Qed.

(** ... and achieves what its next point stands for: an [etb_connect], ... *)
Lemma connect_progress k q t pc h i h' pc' : progress k (Connect (Some q) (Some t)) pc h ->
  belongs (Connect (Some q) (Some t)) pc = true ->
  thread_step k h pc i = Some (h', pc') -> later h h' -> progress k (Connect (Some q) (Some t)) pc' h'.
Proof.
  intros Hp Hb Hs Hl. apply (later_progress k h h' _ _ Hl) in Hp. unfold Ffi.thread_step in Hs.
  destruct i as [env|portal| |env].
  - destruct pc; try done; cbn [go] in Hs; unfold option_map in Hs; repeat case_match; simplify_eq; try done.
    + eapply progress_started; [done|exact Hp].
    + destruct Hp as [-> Hi]. by eapply progress_parse.
    + destruct Hp as [Hld Hi]. by apply progress_next.
  - destruct pc; try done; cbn [answered] in Hs. destruct Hp as [Hld Hi]. repeat case_match; simplify_eq.
    + split_and!; [by exists cfg|done|]. exists p. apply in_or_app. right. by left.
    + by apply progress_next.
  - destruct pc; try done; unfold option_map in Hs; repeat case_match; simplify_eq.
    eapply progress_started; [done|exact Hp].
  - by destruct pc; try done; simplify_eq.
Qed.

(** ... an [etb_disconnect], ... *)
Lemma disconnect_progress k q pc h i h' pc' : progress k (Disconnect q) pc h ->
  belongs (Disconnect q) pc = true ->
  thread_step k h pc i = Some (h', pc') -> later h h' -> progress k (Disconnect q) pc' h'.
Proof.
  intros Hp Hb Hs Hl. apply (later_progress k h h' _ _ Hl) in Hp. unfold Ffi.thread_step in Hs.
  destruct i as [env|portal| |env].
  - destruct pc; try done; cbn [go] in Hs; unfold option_map, send_request in Hs; repeat case_match; simplify_eq; try done.
    by eapply asked_issue.
  - destruct pc; try done; cbn [answered] in Hs; repeat case_match; by simplify_eq.
  - destruct pc; try done; unfold option_map in Hs; repeat case_match; by simplify_eq.
  - by destruct pc; try done; simplify_eq.
Qed.

(** ... and any other. *)
Lemma thread_progress c k pc h i h' pc' : belongs c pc = true -> progress k c pc h ->
  thread_step k h pc i = Some (h', pc') -> later h h' -> progress k c pc' h'.
Proof.
  intros Hb Hp Hs Hl. destruct c as [[q|] [t|]|q| | | | | | | |]; try done.
  - by eapply connect_progress.
  - destruct pc; try done; by destruct i.
  - destruct pc; try done; by destruct i.
  - destruct pc; try done; by destruct i.
  - by eapply disconnect_progress.
Qed.

(** ** Every reachable state *)

Record kept (w : World) : Prop := {
  k_handles : forall p h, handles w !! p = Some h -> handle_ok w p h;
  k_threads : forall k c pc p h, threads w !! k = Some {| call := c; activity := Running pc |} ->
    handle_of c = Some p -> handles w !! p = Some h -> is_ret pc = false -> progress k c pc h
}.

(** Nobody who disconnected is forgotten. *)
Definition remembers (w w' : World) : Prop := forall p, disconnected_once w p -> disconnected_once w' p.

Lemma handle_ok_mono w w' p h : remembers w w' -> handle_ok w p h -> handle_ok w' p h.
Proof.
  intros Hm (Hr & Hf & Hp). split_and!; try done. destruct Hp as [|[|[? ?]]]; [by left|by right; left|].
  right; right. split; [done|by apply Hm].
Qed.

(** A handle moves on. *)
Lemma kept_handle w p h h' : kept w -> handles w !! p = Some h -> handle_ok w p h' -> later h h' ->
  kept (set_handles (<[p := h']> (handles w)) w).
Proof.
  intros [Kh Kt] Hp Hok Hl. split; cbn.
  - intros q h1. destruct (decide (p = q)) as [<-|Hne].
    + rewrite lookup_insert_eq. by intros [= <-].
    + rewrite lookup_insert_ne by done. apply Kh.
  - intros k c pc q h1 Hk Hc. destruct (decide (p = q)) as [<-|Hne].
    + rewrite lookup_insert_eq. intros [= <-] Hr. eapply later_progress; [done|]. by eapply Kt.
    + rewrite lookup_insert_ne by done. by eapply Kt.
Qed.

Lemma remembers_activity w k c a a' : threads w !! k = Some {| call := c; activity := a |} ->
  remembers w (set_activity k c a' w).
Proof.
  intros Hk p (k' & t & Hk' & Ht). destruct (decide (k = k')) as [<-|Hne].
  - exists k, {| call := c; activity := a' |}. cbn.
    rewrite list_lookup_insert_eq by (by eapply lookup_lt_Some). by simplify_eq.
  - exists k', t. cbn. by rewrite list_lookup_insert_ne.
Qed.

(** A call moves on. *)
Lemma kept_activity w k c a a' : kept w -> threads w !! k = Some {| call := c; activity := a |} ->
  match a' with
  | Running pc' => forall p h, handle_of c = Some p -> handles w !! p = Some h -> progress k c pc' h
  | Returned _ => True
  end -> kept (set_activity k c a' w).
Proof.
  intros [Kh Kt] Hk Ha. split; cbn.
  - intros p h Hp%Kh. eapply handle_ok_mono; [by eapply remembers_activity|done].
  - intros k' c' pc p h. destruct (decide (k = k')) as [<-|Hne].
    + rewrite list_lookup_insert_eq by (by eapply lookup_lt_Some). intros [= <- ->] Hc Hp _. by eapply Ha.
    + rewrite list_lookup_insert_ne by done. apply Kt.
Qed.

(** The handles of other sessions, or of none. *)
Lemma kept_drop w hs : kept w -> (forall p h, hs !! p = Some h -> handles w !! p = Some h) ->
  kept (set_handles hs w).
Proof.
  intros [Kh Kt] Hs. split; cbn; [intros p h Hp; by apply Kh, Hs|].
  intros k c pc p h Hk Hc Hp Hr. eapply Kt; eauto.
Qed.

Lemma kept_strings w ss : kept w -> kept (set_strings ss w).
Proof. by intros [Kh Kt]. Qed.

Lemma kept_task w p f o : kept w ->
  (forall h h', handle_ok w p h -> f h = Some h' -> handle_ok w p h' /\ later h h') ->
  task_step w p f = Some (Fine o) -> kept o.
Proof.
  intros Hw Hf. unfold task_step. destruct (handles w !! p) as [h|] eqn:Hp; [|done].
  destruct (f h) as [h'|] eqn:Hh; [|done]. intros [= <-].
  destruct (Hf h h' (k_handles _ Hw _ _ Hp) Hh) as [Hok Hl]. by eapply kept_handle.
Qed.

Lemma progress_enter k env c h : progress k c (enter env c) h.
Proof.
  destruct c as [[p|] [t|]|[q|]| | | | | | | |]; try done.
Qed.

(** Nothing is going on on an address nobody has. *)
Lemma kept_init w g event_cb place : sound w g -> kept w -> vacant w place = true ->
  kept (set_handles (<[place := new_handle ET_SUPERVISOR_SOCKET event_cb]> (handles w)) w).
Proof.
  intros Hs [Kh Kt] Hv. split; cbn.
  - intros p h. destruct (decide (place = p)) as [<-|Hne].
    + rewrite lookup_insert_eq. intros [= <-]. split; [by intros t i|]. split; [cbn; lia|]. by left.
    + rewrite lookup_insert_ne by done. apply Kh.
  - intros k c pc p h Hk Hc. destruct (decide (place = p)) as [<-|Hne].
    + intros _ Hr. apply vacant_dom in Hv as [Hv _]. destruct (s_threads _ _ Hs _ _ Hk) as [_ Hf].
      destruct (Hf Hr place Hc) as [Hin _]. done.
    + rewrite lookup_insert_ne by done. by eapply Kt.
Qed.

Lemma kept_begin w c env w' : kept w -> begin CARGO_MANIFEST_DIR new_from_str new_from_config parse_table w c env = Fine w' ->
  kept w'.
Proof.
  intros [Kh Kt] Hb. assert (w' = began w c (enter env c)) as ->.
  { unfold begin in Hb. by repeat case_match; simplify_eq. }
  assert (Hm : remembers w (began w c (enter env c))).
  { intros p (k & t & Hk & Ht). exists k, t. split; [|done]. cbn. by apply lookup_app_l_Some. }
  split.
  - intros p h Hp. by apply (handle_ok_mono w), Kh.
  - intros k c' pc p h [Hk|[_ Hk]]%began_thread Hc Hp Hr; [by eapply Kt|].
    injection Hk as -> ->. apply progress_enter.
Qed.

Lemma kept_call w g k c pc i w' : sound w g -> kept w ->
  threads w !! k = Some {| call := c; activity := Running pc |} ->
  call_step ser_f64 ET_SUPERVISOR_SOCKET new_from_str get_id new_from_config parse_table w k c pc i
    = Some (Fine w') -> kept w'.
Proof.
  intros Hs Hw Hk. destruct (s_threads _ _ Hs _ _ Hk) as [Hb _]. cbn [call activity] in Hb.
  unfold call_step. destruct (is_ret pc) eqn:Hret; [by destruct pc|].
  destruct (handle_of c) as [p|] eqn:Hc.
  - destruct (handles w !! p) as [h|] eqn:Hp; [|by destruct pc].
    pose proof (k_threads _ Hw _ _ _ _ _ Hk Hc Hp Hret) as Hpr.
    assert (Hgo : forall o, option_map (fun '(h', pc') =>
      Fine (set_handles (<[p := h']> (handles w)) (set_activity k c (Running pc') w))) (thread_step k h pc i)
      = Some (Fine o) -> kept o).
    { intros o. destruct (thread_step k h pc i) as [[h' pc']|] eqn:Hst; [|done]. intros [= <-].
      destruct (thread_handle w p k c pc h i h' pc' (k_handles _ Hw _ _ Hp) Hc Hk Hb Hpr Hst) as [Hok Hl].
      change (kept (set_activity k c (Running pc') (set_handles (<[p := h']> (handles w)) w))).
      eapply kept_activity; [by eapply kept_handle|exact Hk|].
      intros q h1 Hq. rewrite Hc in Hq. injection Hq as <-. cbn. rewrite lookup_insert_eq. intros [= <-].
      by eapply thread_progress. }
    destruct pc; try done; try exact (Hgo w'). intros [= <-].
    apply (kept_drop (set_activity k c (Running (Ret OVoid)) w)).
    + apply (kept_activity w k c _ _ Hw Hk). intros q h1 _ _. by destruct c as [? []| | | | | | | | |].
    + cbn. intros q h1 [_ Hq]%lookup_delete_Some. exact Hq.
  - assert (Hgo : forall o, option_map (fun pc' => Fine (set_activity k c (Running pc') w)) (helper_step pc i)
      = Some (Fine o) -> kept o).
    { intros o. destruct (helper_step pc i); [|done]. intros [= <-].
      apply (kept_activity w k c _ _ Hw Hk). intros q h1 Hq. congruence. }
    destruct pc; try done; exact (Hgo w').
Qed.

Lemma kept_step w g l w' : sound w g -> kept w -> step w l = Some (Fine w') -> kept w'.
Proof.
  intros Hs Hw. destruct l as [cb built place|c env|k i|k place|p l|p|[q|]]; cbn [Bridge.step].
  - unfold init, etb_init. destruct built; [|by intros [= <-]]. destruct (vacant w place) eqn:Hv; [|done].
    intros [= <-]. by eapply kept_init.
  - intros [= Hb]. by eapply kept_begin.
  - destruct (threads w !! k) as [[c [pc|r]]|] eqn:Hk; [|done..]. by eapply kept_call.
  - destruct (threads w !! k) as [[c [pc|r]]|] eqn:Hk; [|done..].
    destruct pc as [| | | | | | | | | | | | | | | | | | | | | | | |o]; try done.
    unfold return_. destruct o as [|[s|]]; [|destruct (vacant w place); [|done]|]; intros [= <-];
      try apply kept_strings; by eapply (kept_activity w k c).
  - apply (kept_task w p _ w' Hw). intros h h' Hok. unfold run_driver.
    destruct (by_driver l); [|done]. destruct (driver_step _ _ l) as [d|] eqn:Hd; [|done]. intros [= <-].
    by eapply handle_ok_issue.
  - apply (kept_task w p _ w' Hw). intros h h'. apply handle_ok_forward.
  - unfold etb_free_string. destruct (strings w !! q); [|done]. intros [= <-]. by apply kept_strings.
  - by intros [= <-].
Qed.

Lemma played_kept w g : played w g -> kept w.
Proof.
  induction 1 as [|w g l w' Hp IH Ha Hs]; [by split|].
  eapply kept_step; [|exact IH|exact Hs]. by eapply played_sound.
Qed.

(** ** Properties *)

(** Once [forward_events] has caught up with the driver, the port of a session
    is the one the supervisor last told about, or that of a core whose start an
    [etb_connect] was told of, or none after an [etb_disconnect]: whatever calls
    overlap, it is never a port no core was announced on. *)
Theorem settled_port w g p h : played w g -> handles w !! p = Some h ->
  forwarded h = length (events (supervisor h)) ->
  port h = told h \/
  (exists info, start_of h info /\ port h = Some (si_rpc_port info) /\
     In (SupervisorEvent.CoreStarted (si_pid info) (si_rpc_port info)) (events (supervisor h))) \/
  port h = None /\ disconnected_once w p.
Proof.
  intros Hw%played_kept Hp Hf. destruct (k_handles _ Hw _ _ Hp) as (Hr & _ & Hport).
  assert (Hs : settled h = port h) by (unfold settled; by rewrite Hf, drop_all).
  rewrite <- Hs. destruct Hport as [|[(info & Hi & He)|]]; [by left| |by right; right].
  right; left. exists info. split_and!; [done|done|]. by apply told_started.
Qed.

(** The step at which [etb_connect] succeeds, and no other, sets the instance ... *)
Lemma connect_step k q t pc h i h' pc' : belongs (Connect (Some q) t) pc = true ->
  thread_step k h pc i = Some (h', pc') ->
  match pc' with
  | Ret (OStr None) => exists id, pc = CnStore id /\ h' = set_instance (Some id) h
  | _ => instance_id h' = instance_id h
  end.
Proof.
  intros Hb Hs. unfold Ffi.thread_step, go, answered, send_request, started, parse_config, next_attempt,
    option_map, error_out in Hs.
  destruct i, pc; try done; repeat case_match; simplify_eq/=; eauto.
Qed.

(** ... and [etb_disconnect] touches it at its first. *)
Lemma disconnect_step k q pc h i h' pc' : belongs (Disconnect (Some q)) pc = true ->
  thread_step k h pc i = Some (h', pc') ->
  instance_id h' = match pc, i with DcTake, IGo _ => None | _, _ => instance_id h end /\
  forall s, pc' = Ret (OStr s) -> is_ret pc = false ->
    pc = DcClear /\ s = None /\ h' = set_port None h \/ s = Some "bridge: panic in etb_disconnect" /\ h' = h.
Proof.
  intros Hb Hs. unfold Ffi.thread_step, go, answered, send_request, option_map in Hs.
  destruct i, pc; try done; repeat case_match; simplify_eq/=; split; try done; intros ? [= <-]; auto.
Qed.

(** C38: what a call of [etb_connect] or [etb_disconnect] does to its session, step by
    step.  [etb_connect] leaves the instance as it is at every step but the one that
    returns NULL; at that step it has been told, in the reply to its own request,
    that the core runs on the process and port the driver reported, the portal has
    accepted the configuration the given text loads to as a request of this call,
    and the instance becomes that configuration's.  [etb_disconnect] takes the
    instance at its first step and touches it at no other; when it returns NULL it
    has handed its own stop request to the driver, which has answered it or still
    holds it, and leaves no port; the only other string it returns is the text of a
    panic, at a step that changes nothing. *)
Theorem connect_disconnect w g k c p pc h i h' pc' : played w g ->
  threads w !! k = Some {| call := c; activity := Running pc |} -> handle_of c = Some p ->
  handles w !! p = Some h -> thread_step k h pc i = Some (h', pc') ->
  match c with
  | Connect _ t =>
      match pc' with
      | Ret (OStr None) => exists info toml id cfg q, told_start k h' info /\
          In (SupervisorEvent.CoreStarted (si_pid info) (si_rpc_port info)) (events (supervisor h')) /\
          t = Some toml /\ loads toml id cfg /\ In (RunInstance k q id) (rpcs h') /\ instance_id h' = Some id
      | _ => instance_id h' = instance_id h
      end
  | Disconnect _ =>
      instance_id h' = match pc, i with DcTake, IGo _ => None | _, _ => instance_id h end /\
      forall s, pc' = Ret (OStr s) ->
        s = None /\ port h' = None /\ asked (stop_by k) (supervisor h') \/
        s = Some "bridge: panic in etb_disconnect" /\ h' = h
  | _ => True
  end.
Proof.
  intros Hpl Hk Hc Hp Hs. pose proof (played_kept _ _ Hpl) as Hw.
  destruct (s_threads _ _ (played_sound _ _ _ _ _ _ _ _ _ Hpl) _ _ Hk) as [Hb _]. cbn [call activity] in Hb.
  destruct (k_handles _ Hw _ _ Hp) as (Hr & _).
  assert (Hret : is_ret pc = false) by (by destruct pc; destruct i).
  pose proof (k_threads _ Hw _ _ _ _ _ Hk Hc Hp Hret) as Hpr.
  destruct c as [? t|q|q|q|q|q| | | |]; try done; cbn in Hc; subst.
  - pose proof (connect_step _ _ _ _ _ _ _ _ Hb Hs) as Hst. destruct pc' as [| | | | | | | | | | | | | | | | | | | | | | | |[|[e|]]]; try done.
    destruct Hst as (id & -> & ->). cbn in Hpr. destruct t as [t|]; [|done].
    destruct Hpr as ((cfg & Hld) & (info & Hi) & q & Hq). exists info, t, id, cfg, q.
    split_and!; try done. by eapply Hr.
  - destruct (disconnect_step _ _ _ _ _ _ _ Hb Hs) as [Hinst Hend]. split; [done|].
    intros s Hpc. destruct (Hend s Hpc Hret) as [(-> & -> & ->)|]; [left|by right]. by split_and!.
Qed.
End Calls.

(** ** An example *)

#[local] Existing Instance Sample.crate.

(** A line of the supervisor, without its newline. *)
Definition reply_line (ev : Proto.Event.Event) : string :=
  String.substring 0 (String.length (Proto.encode_event ev) - 1) (Proto.encode_event ev).

Definition go_on : Input := IGo Sample.env.

(** A session whose [etb_connect] is about to store its instance. *)
Definition connecting : list Label :=
  [Init true true 0; Drive 0 (DAttempt (HLine hello_line)); Enter (Connect (Some 0) (Some "x")) Sample.env;
   Step 0 go_on; Drive 0 (DRequest WOk); Drive 0 (DLine (reply_line started_reply)); Step 0 go_on;
   Step 0 go_on; Step 0 go_on; Step 0 (IPortal Sample.portal); Forward 0; Forward 0].

Definition connecting_world : Sample.world := default nothing (option_map fst (play_sample connecting)).
Definition one_session : Ledger := {| sessions := {[0]}; texts := ∅ |}.

Lemma connecting_played : play_sample connecting = Some (connecting_world, one_session).
Proof. vm_compute. reflexivity. Qed.

Definition connecting_handle : EtbHandle := default (new_handle None true) (handles connecting_world !! 0).

Lemma settled_port_witness : told connecting_handle = Some 50321%Z /\
  (port connecting_handle = told connecting_handle \/
   (exists info, start_of connecting_handle info /\ port connecting_handle = Some (si_rpc_port info)) \/
   port connecting_handle = None).
Proof.
  split; [vm_compute; reflexivity|].
  destruct (@settled_port _ Sample.crate JFloat None "/src" string string (fun t => Ok t) (fun _ => "id")
    (fun t => Ok t) (fun _ => Ok tt) connecting_world one_session 0 connecting_handle)
    as [H|[(info & Hi & H & _)|[H _]]].
  - eapply play_played, connecting_played. apply played_nothing.
  - vm_compute. reflexivity.
  - vm_compute. reflexivity.
  - left. exact H.
  - right. left. exists info. split; [exact Hi|exact H].
  - right. right. exact H.
Defined.

Lemma connect_disconnect_witness : exists info toml id,
  instance_id (set_instance (Some "id") connecting_handle) = Some id /\
  told_start 0 (set_instance (Some "id") connecting_handle) info /\ Some "x" = Some toml.
Proof.
  pose proof (@connect_disconnect _ Sample.crate JFloat None "/src" string string (fun t => Ok t) (fun _ => "id")
    (fun t => Ok t) (fun _ => Ok tt) connecting_world one_session 0 (Connect (Some 0) (Some "x")) 0
    (CnStore "id") connecting_handle go_on (set_instance (Some "id") connecting_handle) (Ret (OStr None)))
    as H.
  destruct H as (info & toml & id & cfg & q & Hi & _ & Ht & _ & _ & Hinst).
  - eapply play_played, connecting_played. apply played_nothing.
  - vm_compute. reflexivity.
  - reflexivity.
  - vm_compute. reflexivity.
  - reflexivity.
  - exists info, toml, id. split; [exact Hinst|]. split; [exact Hi|exact Ht].
Defined.
