(* ===== verification/Returns.v ===== *)
(** * Every call of the library returns

    A call of an entry point makes a bounded number of steps of its own: the
    attempts of [etb_connect] are counted, every wait for a reply has its
    timeout, and the channel of a reply carries the answer to its own request and
    no other kind of success.  What it can wait for without bound is named. *)

From Stdlib Require Import ZArith Lia Ascii String.
From stdpp Require Import base list strings gmap sets.
From S2P Require Import Prelude RustStr Json JsonText ClientProto SupervisorClient ClientInv Ffi Bridge FfiMemory FfiInv.
From S2P Require Rpc Proto.
Import ClientProto SupervisorClient.

Open Scope string_scope.

(** ** Answers are of the kind that was asked for *)

Section Driver.
Context {SJ : SerdeJson} (cc : SupervisorConfig).
(** The kind of request each ticket stands for. *)
Context (want : nat -> option RequestKind).

Definition known (r : Request) : Prop := want (ticket r) = Some (what r).

Definition suits (x : nat * Answer) : Prop :=
  match x.2 with
  | Started _ => want x.1 = Some RStart
  | StoppedOk => want x.1 = Some RStop
  | StatusOk _ => want x.1 = Some RStatus
  | Failed _ | Dropped => True
  end.

Definition pending_known (p : option Request) : Prop := match p with Some r => known r | None => True end.

Record matched (d : Driver) : Prop := {
  ma_queue : Forall known (queue d);
  ma_pending : match dpc d with DSession p => pending_known p | _ => True end;
  ma_answers : Forall suits (answers d)
}.

Lemma dispatch_suits ev p : pending_known p ->
  Forall suits (dispatch_event ev p).2 /\ pending_known (dispatch_event ev p).1.1.
Proof.
  intros Hp. destruct p as [[[] t]|], ev; cbn; (split; [|done]); by repeat constructor.
Qed.

Lemma matched_answer xs d : matched d -> Forall suits xs -> matched (answer xs d).
Proof. intros [H1 H2 H3] H. constructor; [done|done|]. by apply Forall_app. Qed.

(** The driver goes elsewhere. *)
Lemma matched_goto d d' : matched d -> queue d' = queue d -> answers d' = answers d ->
  match dpc d' with DSession p => pending_known p | _ => True end -> matched d'.
Proof. intros [H1 H2 H3] Hq Ha Hp. by constructor; rewrite ?Hq, ?Ha. Qed.

Lemma matched_same d d' : matched d -> dpc d' = dpc d -> queue d' = queue d -> answers d' = answers d -> matched d'.
Proof. intros H Hp Hq Ha. apply (matched_goto d); [done..|]. rewrite Hp. apply H. Qed.

Lemma matched_end p next d : matched d -> match next with DSession _ => False | _ => True end ->
  matched (end_session p next d).
Proof.
  intros H Hn. apply (matched_goto (answer (match p with Some r => [(ticket r, Dropped)] | None => [] end) d)); [|done..|].
  - apply matched_answer; [done|]. destruct p; by repeat constructor.
  - by destruct next.
Qed.

Lemma matched_stop d : matched d -> matched (stop_driver d).
Proof.
  intros [H1 H2 H3]. constructor; [by constructor|done|]. cbn. apply Forall_app. split; [done|].
  by apply Forall_map, Forall_true.
Qed.

Lemma matched_line p l d : matched d -> pending_known p -> dpc d = DSession p -> matched (handle_line p l d).
Proof.
  intros H Hp Hd. unfold handle_line. destruct (utf8_valid l); [|by apply matched_end].
  destruct (decode_event l) as [ev|]; [|by apply (matched_goto d); [..|cbn; rewrite Hd]].
  destruct (dispatch_suits ev p Hp) as [Hx Hp']. destruct (dispatch_event ev p) as [[p' evs] xs].
  apply (matched_goto (answer xs d)); [by apply matched_answer|done..].
Qed.

Lemma matched_fail r msg d : matched d -> matched (answer [fail r msg] d).
Proof. intros H. apply matched_answer; [done|]. by repeat constructor. Qed.

Lemma matched_request p r w d : matched d -> known r -> dpc d = DSession p -> matched (take_request p r w d).
Proof.
  intros H Hr Hd. assert (H' : matched (set_line "" d)) by by apply (matched_same d).
  unfold take_request. destruct p; [by apply matched_fail|].
  destruct w; [by apply (matched_goto d)|..]; apply matched_end; try done; by apply matched_fail.
Qed.

Lemma matched_attempt h d : matched d -> matched (attempt cc h d).
Proof.
  intros H. unfold attempt. destruct (connect_and_hello (next_takeover d) h) as [[r evs] cmds].
  by destruct r as [|[]]; apply (matched_goto d).
Qed.

Lemma matched_pop d r q : matched d -> queue d = r :: q -> known r /\ matched (set_queue q d).
Proof. intros [H1 H2 H3] Hq. rewrite Hq in H1. inversion H1. by repeat constructor. Qed.

Lemma matched_step d l d' : matched d -> match l with DIssue r => known r | _ => True end ->
  driver_step cc d l = Some d' -> matched d'.
Proof.
  intros H Hl Hs. unfold driver_step in Hs. pose proof (ma_pending d H) as Hpend.
  assert (Hissue : forall r, known r -> matched (set_queue (queue d ++ [r])%list d)).
  { intros r Hr. destruct H as [H1 H2 H3]. constructor; [|done|done]. cbn. apply Forall_app. by repeat constructor. }
  destruct l as [r| | | | | | | |h|w|s|s| | |early]; destruct (dpc d) as [|p| | |] eqn:Hp; try done.
  all: repeat match type of Hs with context [if ?x then _ else _] => destruct x eqn:? end; simplify_eq; try by apply Hissue.
  all: try (by apply (matched_goto d); cbn; rewrite ?Hp); try by apply matched_stop, (matched_same d).
  - by apply matched_fail.
  - by apply matched_stop, matched_end.
  - apply matched_stop, matched_end; [by apply (matched_same d)|done].
  - by apply matched_attempt.
  - destruct (queue d) as [|r q] eqn:Hq; [done|]. injection Hs as <-.
    destruct (matched_pop d r q H Hq) as [Hr H']. by apply matched_request.
  - by apply matched_line.
  - by apply matched_end.
  - by apply matched_line.
  - by apply matched_end.
Qed.
End Driver.

Lemma matched_mono (want want' : nat -> option RequestKind) d :
  (forall t k, want t = Some k -> want' t = Some k) -> matched want d -> matched want' d.
Proof.
  intros Hw [H1 H2 H3]. constructor.
  - eapply Forall_impl; [exact H1|]. intros r. apply Hw.
  - destruct (dpc d) as [|[r|]| | |]; try done. by apply Hw.
  - eapply Forall_impl; [exact H3|]. intros [t a]. unfold suits. cbn. destruct a; try done; apply Hw.
Qed.

(** ** The steps of a call *)

Section Calls.
Context {SJ : SerdeJson} {C : Rpc.Crate} (ser_f64 : Rpc.f64 -> json).
Context (ET_SUPERVISOR_SOCKET : option string) (CARGO_MANIFEST_DIR : string).
Context {Loader Config : Type}.
Context (new_from_str : string -> result Loader string) (get_id : Loader -> string).
Context (new_from_config : Loader -> result Config string).
Context (parse_table : string -> result unit string).

Abbreviation Pc := (Pc (Config := Config)).
Abbreviation World := (World (Config := Config)).
Abbreviation enter := (enter CARGO_MANIFEST_DIR new_from_str new_from_config parse_table).
Abbreviation thread_step :=
  (thread_step ser_f64 ET_SUPERVISOR_SOCKET new_from_str get_id new_from_config parse_table).
Abbreviation step := (Bridge.step ser_f64 ET_SUPERVISOR_SOCKET CARGO_MANIFEST_DIR new_from_str get_id
  new_from_config parse_table).
Abbreviation played := (played ser_f64 ET_SUPERVISOR_SOCKET CARGO_MANIFEST_DIR new_from_str get_id
  new_from_config parse_table).
Abbreviation play := (play ser_f64 ET_SUPERVISOR_SOCKET CARGO_MANIFEST_DIR new_from_str get_id
  new_from_config parse_table).

(** What the call with this ticket asks the supervisor for. *)
Definition asks_for (c : Call) : option RequestKind :=
  match c with Connect _ _ => Some RStart | Disconnect _ => Some RStop | _ => None end.
Definition want (w : World) (t : nat) : option RequestKind :=
  match threads w !! t with Some th => asks_for (call th) | None => None end.

Definition well_matched (w : World) : Prop := all_handles (fun _ h => matched (want w) (supervisor h)) w.

Lemma matched_new kinds event_cb : matched kinds (supervisor (new_handle ET_SUPERVISOR_SOCKET event_cb)).
Proof. by repeat constructor. Qed.

Lemma matched_forward kinds h h' : matched kinds (supervisor h) -> forward_events h = Some h' ->
  matched kinds (supervisor h').
Proof.
  intros H. unfold forward_events. destruct (events _ !! _); [|done]. intros [= <-].
  unfold sink_emit. by case_match.
Qed.

Lemma matched_thread w k c pc h i h' pc' : belongs c pc = true ->
  threads w !! k = Some {| call := c; activity := Running pc |} -> matched (want w) (supervisor h) ->
  thread_step k h pc i = Some (h', pc') -> matched (want w) (supervisor h').
Proof.
  intros Hb Hk H Hs.
  assert (Hw : want w k = asks_for c) by (unfold want; by rewrite Hk).
  assert (Hd : forall l d, driver_step (Ffi.config ET_SUPERVISOR_SOCKET) (supervisor h) l = Some d ->
    match l with DIssue r => known (want w) r | _ => True end -> matched (want w) d).
  { intros l d Hl Hr. by eapply matched_step. }
  unfold Ffi.thread_step in Hs. destruct i as [env|portal| |env].
  - unfold go, send_request, option_map in Hs. destruct pc; try done; repeat case_match; simplify_eq; try done;
      (eapply Hd; [by eassumption|]; try done); unfold known; cbn; rewrite Hw; by destruct c as [[?|]| | | | | | | | |].
  - destruct pc; try done; cbn [answered] in Hs; repeat case_match; by simplify_eq.
  - unfold option_map in Hs. destruct pc; try done; repeat case_match; by simplify_eq.
  - destruct pc; try done; by simplify_eq.
Qed.

(** Calls stay what they are. *)
Lemma step_calls w l w' k t : step w l = Some (Fine w') -> threads w !! k = Some t ->
  exists t', threads w' !! k = Some t' /\ call t' = call t.
Proof.
  assert (Hact : forall c a a' w0, threads w0 = threads w -> threads w !! k = Some t ->
    forall k', threads w !! k' = Some {| call := c; activity := a |} ->
    exists t', threads (set_activity k' c a' w0) !! k = Some t' /\ call t' = call t).
  { intros c a a' w0 Ew Hk k' Hk'. cbn. rewrite Ew. destruct (decide (k' = k)) as [->|Hne].
    - rewrite list_lookup_insert_eq by (by eapply lookup_lt_Some). simplify_eq. by eexists.
    - rewrite list_lookup_insert_ne by done. by exists t. }
  intros Hs Hk. destruct l as [cb built place|c env|k' i|k' place|p l|p|[q|]]; cbn [Bridge.step] in Hs.
  - unfold init, etb_init in Hs. repeat case_match; simplify_eq; by exists t.
  - assert (Hk' : (threads w ++ [{| call := c; activity := Running (enter env c) |}])%list !! k = Some t)
      by by apply lookup_app_l_Some.
    injection Hs as Hs. unfold begin in Hs. repeat case_match; simplify_eq; by exists t.
  - destruct (threads w !! k') as [[c [pc|r]]|] eqn:Hk'; [|done..]. unfold call_step in Hs.
    assert (Hgo : forall pc' hs, set_handles hs (set_activity k' c (Running pc') w) = w' ->
      exists t', threads w' !! k = Some t' /\ call t' = call t).
    { intros pc' hs <-. by eapply (Hact c _ _ w). }
    assert (Hgo' : forall pc', set_activity k' c (Running pc') w = w' ->
      exists t', threads w' !! k = Some t' /\ call t' = call t).
    { intros pc' <-. by eapply (Hact c _ _ w). }
    unfold option_map in Hs. repeat case_match; try done; injection Hs as Hs; eauto.
  - destruct (threads w !! k') as [[c [pc|r]]|] eqn:Hk'; [|done..]. destruct pc; try done. unfold return_ in Hs.
    repeat case_match; try done; injection Hs as <-; by eapply (Hact c).
  - unfold task_step, option_map in Hs. repeat case_match; simplify_eq; by exists t.
  - unfold task_step, option_map in Hs. repeat case_match; simplify_eq; by exists t.
  - unfold etb_free_string in Hs. repeat case_match; simplify_eq; by exists t.
  - unfold etb_free_string in Hs. simplify_eq. by exists t.
Qed.

Lemma want_step w l w' t x : step w l = Some (Fine w') -> want w t = Some x -> want w' t = Some x.
Proof.
  intros Hs. unfold want. destruct (threads w !! t) as [th|] eqn:Ht; [|done].
  by destruct (step_calls w l w' t th Hs Ht) as (th' & -> & ->).
Qed.

Lemma played_matched w g : played w g -> well_matched w.
Proof.
  induction 1 as [|w g l w' Hpl IH Hal Hs]; [by intros p h Hp|].
  assert (H : all_handles (fun _ h => matched (want w) (supervisor h)) w').
  { eapply (all_step _ _ _ _ _ _ _ (fun _ h => matched (want w) (supervisor h)) w); [| | |exact IH| |exact Hs].
    - intros cb p _. apply matched_new.
    - intros k c pc p h i h' pc' Hk _ _ Hh Hst. eapply matched_thread; [|done..].
      by destruct (s_threads _ _ (played_sound _ _ _ _ _ _ _ _ _ Hpl) _ _ Hk).
    - intros p h h' _. apply matched_forward.
    - intros p dl h d -> Hp Hby Hh Hd. eapply matched_step; [exact Hh| |exact Hd]. by destruct dl. }
  intros p h Hp. eapply matched_mono; [|by eapply H]. intros t x. by eapply want_step.
Qed.

(** The steps a call at [pc] has left at most. *)
Definition left (pc : Pc) : nat :=
  match pc with
  | CnStart _ => 2 * Rpc.MAX_ATTEMPTS + 6
  | CnWait _ => 2 * Rpc.MAX_ATTEMPTS + 5
  | CnStarted _ _ => 2 * Rpc.MAX_ATTEMPTS + 4
  | CnAttempt _ _ i => 2 * (Rpc.MAX_ATTEMPTS - i) + 3
  | CnCall _ _ i _ => 2 * (Rpc.MAX_ATTEMPTS - i) + 2
  | CnStore _ => 1
  | DcTake => 7 | DcPort _ => 6 | DcDelete _ => 5 | DcCall _ _ => 4 | DcStop => 3 | DcWait => 2 | DcClear => 1
  | StRead => 4 | StPort _ => 3 | StQuery _ => 2 | StCall _ _ => 1
  | SsPort => 2 | SsConnected _ => 1
  | TkNotify => 1
  | SdNotify => 3 | SdAwait => 2 | SdDrop => 1
  | Helper _ _ => 1
  | Ret _ => 0
  end.

Definition limit (c : Call) : nat :=
  match c with
  | Connect _ _ => 2 * Rpc.MAX_ATTEMPTS + 6
  | Disconnect _ => 7
  | Status _ => 4
  | SupervisorStatus _ => 2
  | Shutdown _ => 3
  | _ => 1
  end.

Lemma left_next id cfg i e : (left (next_attempt id cfg i e) < 2 * (Rpc.MAX_ATTEMPTS - i) + 2)%nat.
Proof. unfold next_attempt. destruct (Nat.ltb_spec (S i) Rpc.MAX_ATTEMPTS); cbn [left error_out]; lia. Qed.

Lemma left_parse toml :
  (left (parse_config new_from_str get_id new_from_config parse_table toml) < 2 * Rpc.MAX_ATTEMPTS + 4)%nat.
Proof. unfold parse_config. repeat case_match; cbn [left]; lia. Qed.

(** The channel of a start carries a [Started] or no success. *)
Lemma left_started w k c toml h b r : threads w !! k = Some {| call := c; activity := Running (CnWait toml) |} ->
  asks_for c = Some RStart -> matched (want w) (supervisor h) -> await_reply k h b = Some r ->
  (left (started (Config := Config) toml r) < 2 * Rpc.MAX_ATTEMPTS + 5)%nat.
Proof.
  intros Hk Hc Hm Hr. unfold await_reply in Hr. destruct (reply k h) as [a|] eqn:Ha.
  2: { destruct b; [|done]. injection Hr as <-. cbn [started dispatch_result left error_out]. lia. }
  destruct b; [done|]. injection Hr as <-. apply reply_in in Ha.
  pose proof (ma_answers _ _ Hm) as Hans. rewrite List.Forall_forall in Hans. specialize (Hans _ Ha).
  assert (Hw : want w k = Some RStart) by (unfold want; by rewrite Hk).
  unfold suits in Hans. cbn in Hans. destruct a; cbn [started dispatch_result left]; try lia; congruence.
Qed.

Lemma left_step w k c pc h i h' pc' : threads w !! k = Some {| call := c; activity := Running pc |} ->
  belongs c pc = true -> matched (want w) (supervisor h) -> thread_step k h pc i = Some (h', pc') ->
  (left pc' < left pc)%nat.
Proof.
  intros Hk Hb Hm Hs.
  assert (Hstart : forall toml b r, pc = CnWait toml -> await_reply k h b = Some r ->
    (left (started (Config := Config) toml r) < left pc)%nat).
  { intros toml b r -> Hr. eapply left_started; [done| |done|done]. by destruct c. }
  unfold Ffi.thread_step in Hs. destruct i as [env|portal| |env].
  - unfold go, send_request, option_map in Hs.
    destruct pc; try done; repeat case_match; simplify_eq; cbn [left error_out]; try lia; try by eapply Hstart.
    + apply left_parse.
    + pose proof (left_next id cfg i Rpc.NO_PORT). lia.
  - destruct pc; try done; cbn [answered] in Hs; repeat case_match; simplify_eq; cbn [left]; try lia. apply left_next.
  - unfold option_map in Hs. destruct pc; try done; repeat case_match; simplify_eq; cbn [left]; try lia; by eapply Hstart.
  - destruct pc; try done; simplify_eq; cbn [left panicked]; lia.
Qed.

(** ** Whole runs *)

Definition step_of (k : nat) (l : Label) : bool := match l with Step j _ => (j =? k)%nat | _ => false end.
Definition steps_of (k : nat) (ls : list Label) : nat := length (List.filter (step_of k) ls).

Definition budget (t : Thread (Config := Config)) : nat := match activity t with Running pc => left pc | Returned _ => 0 end.

Lemma left_enter c env : (left (enter env c) <= limit c)%nat.
Proof. destruct c as [[p|] [t|]|[p|]|[p|]|[p|]|[p|]|[p|]|[t|]| | |]; cbn; lia. Qed.

(** A call pays for its own steps, and for nothing else. *)
Definition pays (k : nat) (l : Label) (t : Thread) (w' : World) : Prop :=
  exists t', threads w' !! k = Some t' /\ call t' = call t /\ (Nat.b2n (step_of k l) + budget t' <= budget t)%nat.

Lemma pays_same k l t w w' : threads w' = threads w -> threads w !! k = Some t -> step_of k l = false -> pays k l t w'.
Proof. intros E Hk Hl. exists t. rewrite E, Hl. split_and!; [done|done|cbn; lia]. Qed.

(** The thread of call [k'] goes from [a] to [a']. *)
Lemma pays_activity k l t k' c a a' w w1 : threads w !! k = Some t -> threads w1 = threads w ->
  threads w !! k' = Some {| call := c; activity := a |} ->
  (Nat.b2n (step_of k' l) + budget {| call := c; activity := a' |} <= budget {| call := c; activity := a |})%nat ->
  (k' <> k -> step_of k l = false) -> pays k l t (set_activity k' c a' w1).
Proof.
  intros Hk Ew Hk' Hle Hne. unfold pays. cbn. rewrite Ew. destruct (decide (k' = k)) as [->|Hk1].
  - rewrite list_lookup_insert_eq by (by eapply lookup_lt_Some). rewrite Hk' in Hk. injection Hk as <-.
    eexists. split_and!; [done|done|exact Hle].
  - rewrite list_lookup_insert_ne by done. exists t. rewrite (Hne Hk1). split_and!; [done|done|cbn; lia].
Qed.

Lemma pays_call w g k k' c pc i w' t : played w g -> threads w !! k = Some t ->
  threads w !! k' = Some {| call := c; activity := Running pc |} ->
  call_step ser_f64 ET_SUPERVISOR_SOCKET new_from_str get_id new_from_config parse_table w k' c pc i
    = Some (Fine w') -> pays k (Step k' i) t w'.
Proof.
  intros Hpl Hk Hk' Hs.
  assert (Hgo : forall pc' hs, (left pc' < left pc)%nat ->
    pays k (Step k' i) t (set_handles hs (set_activity k' c (Running pc') w))).
  { intros pc' hs Hlt. eapply (pays_activity k _ t k' c _ (Running pc') w w Hk); [done|exact Hk'| |].
    - cbn. rewrite Nat.eqb_refl. cbn. lia.
    - intros Hne. by apply Nat.eqb_neq. }
  destruct (s_threads _ _ (played_sound _ _ _ _ _ _ _ _ _ Hpl) _ _ Hk') as [Hb _]. cbn in Hb.
  unfold call_step in Hs. destruct (is_ret pc) eqn:Hret; [by destruct pc|].
  destruct (handle_of c) as [p|] eqn:Hc.
  - destruct (handles w !! p) as [h|] eqn:Hp; [|by destruct pc].
    pose proof (played_matched w g Hpl p h Hp) as Hm.
    destruct (thread_step k' h pc i) as [[h' pc']|] eqn:Hst.
    + pose proof (left_step w k' c pc h i h' pc' Hk' Hb Hm Hst) as Hlt. cbn in Hs.
      destruct pc; try done; injection Hs as <-; first [by apply Hgo | apply Hgo; cbn; lia].
    + destruct pc; try done. injection Hs as <-. apply Hgo. cbn. lia.
  - unfold option_map in Hs. destruct pc; try done; destruct i; try done; injection Hs as <-;
      apply (Hgo _ (handles w)); cbn; lia.
Qed.

Lemma step_budget w g l w' k t : played w g -> step w l = Some (Fine w') -> threads w !! k = Some t -> pays k l t w'.
Proof.
  intros Hpl Hs Hk.
  assert (Hkeep : forall w1, threads w1 = threads w -> step_of k l = false -> pays k l t w1).
  { intros w1 E. by apply (pays_same k l t w). }
  destruct l as [cb built place|c env|k' i|k' place|p l|p|[q|]]; cbn [Bridge.step] in Hs.
  - unfold init, etb_init in Hs. repeat case_match; simplify_eq; by apply Hkeep.
  - injection Hs as Hs. assert (threads w' = (threads w ++ [{| call := c; activity := Running (enter env c) |}])%list) as E.
    { unfold begin in Hs. by repeat case_match; simplify_eq. }
    exists t. rewrite E. split_and!; [by apply lookup_app_l_Some|done|cbn; lia].
  - destruct (threads w !! k') as [[c [pc|r]]|] eqn:Hk'; [|done..]. by eapply pays_call.
  - destruct (threads w !! k') as [[c [pc|r]]|] eqn:Hk'; [|done..]. destruct pc; try done. unfold return_ in Hs.
    repeat case_match; try done; injection Hs as <-;
      (eapply (pays_activity k _ t k' c _ _ w); [done|done|exact Hk'|by cbn; lia|done]).
  - unfold task_step, option_map in Hs. repeat case_match; simplify_eq; by apply Hkeep.
  - unfold task_step, option_map in Hs. repeat case_match; simplify_eq; by apply Hkeep.
  - unfold etb_free_string in Hs. repeat case_match; simplify_eq; by apply Hkeep.
  - unfold etb_free_string in Hs. simplify_eq. by apply Hkeep.
Qed.

(** Where a thread that runs comes from. *)
Lemma step_from w l w' k c pc : step w l = Some (Fine w') ->
  threads w' !! k = Some {| call := c; activity := Running pc |} ->
  threads w !! k = Some {| call := c; activity := Running pc |} \/ (exists env, pc = enter env c) \/
  (exists i pc0, l = Step k i /\ threads w !! k = Some {| call := c; activity := Running pc0 |} /\
     call_step ser_f64 ET_SUPERVISOR_SOCKET new_from_str get_id new_from_config parse_table w k c pc0 i
       = Some (Fine w')).
Proof.
  intros Hs Hk.
  assert (Hact : forall k' c' a, threads w' = <[k' := {| call := c'; activity := a |}]> (threads w) ->
    threads w !! k = Some {| call := c; activity := Running pc |} \/ k' = k /\ c' = c /\ a = Running pc).
  { intros k' c' a Ew. rewrite Ew in Hk. apply list_lookup_insert_Some in Hk as [(-> & [= -> ->] & _)|[_ Hk]]; auto. }
  destruct l as [cb built place|c' env|k' i|k' place|p l|p|[q|]]; cbn [Bridge.step] in Hs.
  - left. unfold init, etb_init in Hs. by repeat case_match; simplify_eq.
  - injection Hs as Hs.
    assert (threads w' = (threads w ++ [{| call := c'; activity := Running (enter env c') |}])%list) as Ew.
    { unfold begin in Hs. by repeat case_match; simplify_eq. }
    rewrite Ew in Hk. apply lookup_app_Some in Hk as [Hk|[_ Hk]]; [by left|].
    apply list_lookup_singleton_Some in Hk as [_ [= -> <-]]. right. left. by exists env.
  - destruct (threads w !! k') as [[c' [pc'|r]]|] eqn:Hk'; [|done..].
    destruct (Hact k' c' (default (Returned None) (option_map activity (threads w' !! k')))) as [H|(-> & -> & _)].
    + pose proof (lookup_lt_Some _ _ _ Hk') as Hlt. unfold call_step, option_map in Hs.
      repeat case_match; try done; injection Hs as <-; cbn; by rewrite list_lookup_insert_eq.
    + by left.
    + right. right. by exists i, pc'.
  - left. destruct (threads w !! k') as [[c' [pc'|r]]|] eqn:Hk'; [|done..]. destruct pc'; try done.
    unfold return_ in Hs. repeat case_match; try done; injection Hs as <-; cbn in Hact;
      destruct (Hact _ _ _ eq_refl) as [Ha|(_ & _ & Ha)]; done.
  - left. unfold task_step, option_map in Hs. by repeat case_match; simplify_eq.
  - left. unfold task_step, option_map in Hs. by repeat case_match; simplify_eq.
  - left. unfold etb_free_string in Hs. by repeat case_match; simplify_eq.
  - left. unfold etb_free_string in Hs. by simplify_eq.
Qed.

(** ** The task that [etb_shutdown] waits for *)

(** It has been told to end, or it has ended. *)
Definition ending (d : Driver) : Prop := shutdown_permit d = true \/ dpc d = DStopped.

Lemma ending_same d d' : ending d -> shutdown_permit d' = shutdown_permit d ->
  (dpc d = DStopped -> dpc d' = DStopped) -> ending d'.
Proof. intros [H|H] Hp Hd; [left; by rewrite Hp|right; by apply Hd]. Qed.

Lemma ending_line p l d : ending d -> dpc d <> DStopped -> ending (handle_line p l d).
Proof.
  intros [H|H]; [|done]. intros _. left. unfold handle_line. destruct (utf8_valid l); [|done].
  destruct (decode_event l) as [ev|]; [|done]. by destruct (dispatch_event ev p) as [[p' evs] xs].
Qed.

Lemma ending_step d l d' : ending d ->
  driver_step (Ffi.config ET_SUPERVISOR_SOCKET) d l = Some d' -> ending d'.
Proof.
  intros H Hs. unfold driver_step in Hs.
  destruct l as [r| | | | | | | |h|w|s|s| | |early]; destruct (dpc d) as [|p| | |] eqn:Hp; try done.
  all: repeat match type of Hs with context [if ?x then _ else _] => destruct x eqn:? end; simplify_eq;
    try (by right); try by apply ending_line; rewrite ?Hp.
  all: try (destruct H as [H|H]; [by left|congruence]).
  all: try by (apply (ending_same d); [done|done|by rewrite Hp]).
  - unfold attempt. destruct (connect_and_hello _ h) as [[r evs] cmds].
    destruct H as [H|H]; [|congruence]. left. by destruct r as [|[]].
  - destruct (queue d) as [|r q]; [done|]. injection Hs as <-. destruct H as [H|H]; [|congruence]. left.
    unfold take_request. destruct p; [done|]. by destruct w.
Qed.

Lemma ending_thread k h pc i h' pc' : ending (supervisor h) -> thread_step k h pc i = Some (h', pc') ->
  ending (supervisor h').
Proof.
  intros H Hs. unfold Ffi.thread_step in Hs. destruct i as [env|portal| |env].
  - unfold go, send_request, option_map in Hs.
    destruct pc; try done; repeat case_match; simplify_eq; try done; by eapply ending_step.
  - destruct pc; try done; cbn [answered] in Hs; repeat case_match; by simplify_eq.
  - unfold option_map in Hs. destruct pc; try done; repeat case_match; by simplify_eq.
  - destruct pc; try done; by simplify_eq.
Qed.

(** It awaits the task once it has told it. *)
Lemma ending_notified p k h pc i h' : belongs (Shutdown p) pc = true ->
  thread_step k h pc i = Some (h', SdAwait) -> ending (supervisor h').
Proof.
  intros Hb. unfold Ffi.thread_step. destruct i as [env|portal| |env]; destruct pc; try done; cbn.
  - by destruct (dpc (supervisor h)); intros [= <-]; left.
  - by destruct (dpc (supervisor h)).
Qed.

Lemma ending_forward h h' : ending (supervisor h) -> forward_events h = Some h' -> ending (supervisor h').
Proof.
  intros H. unfold forward_events. destruct (events _ !! _); [|done]. intros [= <-].
  unfold sink_emit. by case_match.
Qed.

(** A shutdown of session [p] awaits the session's task. *)
Definition awaiting (w : World) (p : nat) : Prop :=
  exists k c, threads w !! k = Some {| call := c; activity := Running SdAwait |} /\ handle_of c = Some p.

Definition awaited (w : World) : Prop := all_handles (fun p h => awaiting w p -> ending (supervisor h)) w.

Lemma live_handle w g k c pc p : played w g -> threads w !! k = Some {| call := c; activity := Running pc |} ->
  is_ret pc = false -> handle_of c = Some p -> exists h, handles w !! p = Some h.
Proof.
  intros Hpl Hk Hr Hc. destruct (s_threads _ _ (played_sound _ _ _ _ _ _ _ _ _ Hpl) _ _ Hk) as [_ Hf].
  destruct (Hf Hr p Hc) as [Hp _]. apply elem_of_dom in Hp as [h Hp]. by exists h.
Qed.

(** The step after which a shutdown awaits the task. *)
Lemma awaiting_call w k c pc i w' p h : belongs c pc = true -> belongs (Config := Config) c SdAwait = true ->
  threads w !! k = Some {| call := c; activity := Running pc |} -> handle_of c = Some p ->
  call_step ser_f64 ET_SUPERVISOR_SOCKET new_from_str get_id new_from_config parse_table w k c pc i = Some (Fine w') ->
  threads w' !! k = Some {| call := c; activity := Running SdAwait |} -> handles w' !! p = Some h ->
  ending (supervisor h).
Proof.
  intros Hb Hc Hk0 Hp Hcs Hk Hh. destruct c as [| | | | |q| | | |]; try done. cbn in Hp. subst q.
  assert (Hpc : forall hs pc', Fine (set_handles hs (set_activity k (Shutdown (Some p)) (Running pc') w)) = Fine w' ->
    pc' = SdAwait /\ hs !! p = Some h).
  { intros hs pc' [= <-]. cbn in Hk, Hh. split; [|done].
    rewrite list_lookup_insert_eq in Hk by (by eapply lookup_lt_Some). by simplify_eq. }
  unfold call_step in Hcs. cbn [handle_of] in Hcs. destruct (handles w !! p) as [h0|]; [|by destruct pc].
  destruct (thread_step k h0 pc i) as [[h' pc']|] eqn:Hst; destruct pc; try done; injection Hcs as Hcs;
    destruct (Hpc _ _ (f_equal Fine Hcs)) as [He Hl]; try done; subst pc';
    rewrite lookup_insert_eq in Hl; injection Hl as <-; by eapply ending_notified.
Qed.

Lemma played_awaited w g : played w g -> awaited w.
Proof.
  induction 1 as [|w g l w' Hpl IH Hal Hs]; [by intros p h Hp|].
  assert (H : all_handles (fun p h => awaiting w p -> ending (supervisor h)) w').
  { eapply (all_step _ _ _ _ _ _ _ (fun p h => awaiting w p -> ending (supervisor h)) w);
      [| | |exact IH| |exact Hs].
    - intros cb p Hp (k & c & Hk & Hc). by destruct (live_handle w g k c _ p Hpl Hk eq_refl Hc) as [h Hh]; simplify_eq.
    - intros k c pc p h i h' pc' _ _ _ Hh Hst Haw. eapply ending_thread; [by apply Hh|exact Hst].
    - intros p h h' _ Hh Hf Haw. eapply ending_forward; [by apply Hh|exact Hf].
    - intros p dl h d -> Hp Hby Hh Hd Haw. eapply ending_step; [by apply Hh|exact Hd]. }
  intros p h Hp (k & c & Hk & Hc).
  destruct (step_from w l w' k c SdAwait Hs Hk) as [Hk0|[[env He]|(i & pc0 & -> & Hk0 & Hcs)]].
  - apply (H p h Hp). by exists k, c.
  - by destruct c as [[?|] [?|]|[?|]|[?|]|[?|]|[?|]|[?|]|[?|]| | |].
  - destruct (s_threads _ _ (played_sound _ _ _ _ _ _ _ _ _ Hpl) _ _ Hk0) as [Hb0 _].
    pose proof (played_step _ _ _ _ _ _ _ _ _ _ _ Hpl Hal Hs) as Hpl'.
    destruct (s_threads _ _ (played_sound _ _ _ _ _ _ _ _ _ Hpl') _ _ Hk) as [Hb _].
    exact (awaiting_call w k c pc0 i w' p h Hb0 Hb Hk0 Hc Hcs Hk Hp).
Qed.

(** ** The theorem *)

Lemma played_limit w g k t : played w g -> threads w !! k = Some t -> (budget t <= limit (call t))%nat.
Proof.
  intros Hpl. revert k t. induction Hpl as [|w g l w' Hpl IH Hal Hs]; [done|]. intros k t Hk.
  destruct (threads w !! k) as [t0|] eqn:Hk0.
  - destruct (step_budget w g l w' k t0 Hpl Hs Hk0) as (t' & Ht' & Hc & Hle). simplify_eq.
    pose proof (IH k t0 Hk0). rewrite Hc. lia.
  - destruct t as [c [pc|r]]; [|cbn; lia].
    destruct (step_from w l w' k c pc Hs Hk) as [H|[[env ->]|(i & pc0 & _ & H & _)]]; [congruence| |congruence].
    apply left_enter.
Qed.

Lemma play_bound ls : forall w g w' g' k t, played w g -> play ls w g = Some (w', g') -> threads w !! k = Some t ->
  (steps_of k ls <= budget t)%nat.
Proof.
  induction ls as [|l ls IH]; intros w g w' g' k t Hpl Hrun Hk; [cbn; lia|]. cbn [FfiMemory.play] in Hrun.
  case_decide as Ha; [|done]. destruct (step w l) as [[w1|]|] eqn:Hs; [|done..].
  destruct (step_budget w g l w1 k t Hpl Hs Hk) as (t1 & Hk1 & _ & Hle).
  assert (Hpl1 : played w1 (note g l w1)) by by eapply played_step.
  pose proof (IH w1 _ w' g' k t1 Hpl1 Hrun Hk1) as Hrest. unfold steps_of in *. cbn.
  destruct (step_of k l); cbn in Hle |- *; lia.
Qed.

(** What a call may wait for: room in the channel of commands, which only the
    driver makes; and the end of the session's task, which can end at once. *)
Definition waits (w : World) (k : nat) (c : Call) (pc : Pc) : Prop :=
  exists p h, handle_of c = Some p /\ handles w !! p = Some h /\
    match pc with
    | CnStart _ | DcStop => (CHANNEL <= length (queue (supervisor h)))%nat /\ dpc (supervisor h) <> DStopped
    | SdAwait => exists w1, step w (Drive p DEnd) = Some (Fine w1) /\
        forall env, exists w2, step w1 (Step k (IGo env)) = Some (Fine w2)
    | _ => False
    end.

Definition can_go (w : World) (k : nat) : Prop :=
  exists i w', match i with IPanic _ => False | _ => True end /\ step w (Step k i) = Some (Fine w').

Lemma goes w k c pc i p h h' pc' : threads w !! k = Some {| call := c; activity := Running pc |} ->
  handle_of c = Some p -> handles w !! p = Some h -> thread_step k h pc i = Some (h', pc') ->
  is_ret pc = false -> exists w', step w (Step k i) = Some (Fine w').
Proof.
  intros Hk Hc Hp Hst Hr. cbn [Bridge.step]. rewrite Hk. unfold call_step. rewrite Hc, Hp, Hst.
  destruct pc; try done; by eexists.
Qed.

Lemma issue_refused d r : driver_step (Ffi.config ET_SUPERVISOR_SOCKET) d (DIssue r) = None ->
  (CHANNEL <= length (queue d))%nat /\ dpc d <> DStopped.
Proof. unfold driver_step. destruct (dpc d); try done; destruct (Nat.ltb_spec (length (queue d)) CHANNEL); try done; by split. Qed.

Lemma ending_ends d : ending d -> dpc d <> DStopped ->
  exists d', driver_step (Ffi.config ET_SUPERVISOR_SOCKET) d DEnd = Some d' /\ dpc d' = DStopped.
Proof. intros [Hp|Hp]; [|done]. unfold driver_step. rewrite Hp. destruct (dpc d); try done; by eexists. Qed.

Lemma awaits_or_goes w g k c p h : played w g ->
  threads w !! k = Some {| call := c; activity := Running SdAwait |} -> handle_of c = Some p ->
  handles w !! p = Some h -> can_go w k \/ waits w k c SdAwait.
Proof.
  intros Hpl Hk Hc Hp.
  assert (Hstop : forall w0 h0 env, threads w0 = threads w -> handles w0 !! p = Some h0 ->
    dpc (supervisor h0) = DStopped -> exists w', step w0 (Step k (IGo env)) = Some (Fine w')).
  { intros w0 h0 env Ew Hh Hd. rewrite <- Ew in Hk. eapply (goes w0 k c SdAwait (IGo env) p h0 h0 SdDrop); try done.
    cbn. by rewrite Hd. }
  assert (dpc (supervisor h) = DStopped \/ dpc (supervisor h) <> DStopped) as [Hd|Hd].
  { destruct (dpc (supervisor h)); auto. }
  - left. destruct (Hstop w h Sample.env) as [w' Hw]; [done..|]. by exists (IGo Sample.env), w'.
  - right. exists p, h. split_and!; [done|done|].
    destruct (ending_ends (supervisor h)) as (d & Hd1 & Hd2); [|done|].
    { eapply (played_awaited w g Hpl p h Hp). by exists k, c. }
    eexists. split.
    { cbn [Bridge.step]. unfold task_step. rewrite Hp. unfold Ffi.run_driver. cbn [by_driver]. rewrite Hd1. reflexivity. }
    intros env. eapply Hstop; [done|cbn; by rewrite lookup_insert_eq|done].
Qed.

(** Where a call that has a handle can be. *)
Lemma go_on_or_wait w g k c pc p (portal : Rpc.Portal) (env : Env) : played w g ->
  threads w !! k = Some {| call := c; activity := Running pc |} -> is_ret pc = false -> handle_of c = Some p ->
  can_go w k \/ waits w k c pc.
Proof.
  intros Hpl Hk Hr Hc. destruct (live_handle w g k c pc p Hpl Hk Hr Hc) as [h Hp].
  assert (Hgo : forall i x, match i with IPanic _ => False | _ => True end -> thread_step k h pc i = Some x ->
    can_go w k).
  { intros i [h' pc'] Hi Hst. destruct (goes w k c pc i p h h' pc' Hk Hc Hp Hst Hr) as [w' Hw]. by exists i, w'. }
  assert (Hissue : forall r pc', (forall env', thread_step k h pc (IGo env') =
      option_map (fun h => (h, pc')) (send_request ET_SUPERVISOR_SOCKET k r h)) ->
    can_go w k \/ (CHANNEL <= length (queue (supervisor h)))%nat /\ dpc (supervisor h) <> DStopped).
  { intros r pc' Hst. specialize (Hst env). unfold send_request in Hst.
    destruct (driver_step _ _ _) as [d|] eqn:Hd in Hst; [|right; by eapply issue_refused]. left. by eapply (Hgo (IGo env)). }
  assert (Hreply : forall f, (forall env', thread_step k h pc (IGo env') =
      option_map (fun r => (h, f r)) (await_reply k h false)) ->
    thread_step k h pc ITimeout = option_map (fun r => (h, f r)) (await_reply k h true) -> can_go w k).
  { intros f H1 H2. specialize (H1 env). unfold await_reply in *.
    destruct (reply k h) as [a|]; [by eapply (Hgo (IGo env))|by eapply (Hgo ITimeout)]. }
  destruct (s_threads _ _ (played_sound _ _ _ _ _ _ _ _ _ Hpl) _ _ Hk) as [Hb _].
  destruct pc; try done; try (left; by eapply (Hgo (IGo env))); try (left; by eapply (Hgo (IPortal portal))).
  - destruct (Hissue RStart (CnWait toml)) as [H|H]; [done|by left|right]. by exists p, h.
  - left. by apply (Hreply (started toml)).
  - destruct (Hissue RStop DcWait) as [H|H]; [done|by left|right]. by exists p, h.
  - left. by apply (Hreply (fun _ => DcClear)).
  - left. cbn in Hgo. destruct (dpc (supervisor h)) eqn:Hd; by eapply (Hgo (IGo env)); cbn; rewrite ?Hd.
  - by apply (awaits_or_goes w g k c p h).
  - left. exists (IGo env). eexists. split; [done|]. cbn [Bridge.step]. rewrite Hk. unfold call_step. by rewrite Hc, Hp.
  - by destruct c.
Qed.

(** There is always room for a string. *)
Lemma some_vacant (w : World) : exists place, vacant w place = true.
Proof.
  destruct (exist_fresh (dom (handles w) ∪ dom (strings w))) as [q Hq]. exists q.
  rewrite not_elem_of_union, !not_elem_of_dom in Hq. destruct Hq as [H1 H2]. unfold vacant. by rewrite H1, H2.
Qed.

Lemma returns w k c o : threads w !! k = Some {| call := c; activity := Running (Ret o) |} ->
  exists place w', step w (Return k place) = Some (Fine w').
Proof.
  intros Hk. destruct (some_vacant w) as [q Hq]. exists q. cbn [Bridge.step]. rewrite Hk. unfold return_. rewrite Hq.
  destruct o as [|[s|]]; by eexists.
Qed.

(** C24: No call of the library runs for ever.  A call that is under way makes at
    most [limit] steps of its own whatever a well-behaved client, the driver and
    the core do: 66 for [etb_connect], whose attempts to reach the core are counted,
    7 for [etb_disconnect], 4 for [etb_status] and fewer for the others; none waits
    for the same reply twice, because the channel of a request carries the answer to
    a request of that kind.  And unless it has come to its return, which it can
    always make, it can be given a step that is no panic (the reply or the timeout
    where it waits for the supervisor, the portal's answer where it waits for the
    core), but for two places: a request waits while the command channel is full,
    and [etb_shutdown] waits for the session's task, which can end at once, whatever
    it is doing, after which the call can go on. *)
Theorem calls_return w g k c pc (portal : Rpc.Portal) (env : Env) : played w g ->
  threads w !! k = Some {| call := c; activity := Running pc |} ->
  (forall ls w' g', play ls w g = Some (w', g') -> (steps_of k ls <= limit c)%nat) /\
  match pc with
  | Ret _ => exists place w', step w (Return k place) = Some (Fine w')
  | _ => can_go w k \/ waits w k c pc
  end.
Proof.
  intros Hpl Hk. split.
  - intros ls w' g' Hrun. pose proof (play_bound ls w g w' g' k _ Hpl Hrun Hk).
    pose proof (played_limit w g k _ Hpl Hk) as Hl. cbn [call] in Hl. lia.
  - destruct (is_ret pc) eqn:Hr; [destruct pc; try done; by eapply returns|].
    assert (can_go w k \/ waits w k c pc); [|by destruct pc].
    destruct (handle_of c) as [p|] eqn:Hc; [by apply (go_on_or_wait w g k c pc p portal env)|].
    left. destruct (s_threads _ _ (played_sound _ _ _ _ _ _ _ _ _ Hpl) _ _ Hk) as [Hb _].
    exists (IGo env). cbn [Bridge.step]. rewrite Hk. unfold call_step. rewrite Hc.
    destruct pc; try (by destruct c as [[?|] ?|[?|]|[?|]|[?|]|[?|]|[?|]| | | |]); by eexists.
Qed.

End Calls.

(** ** An example *)

#[local] Existing Instance Sample.crate.

Lemma calls_return_witness :
  (forall ls w' g', play JFloat None "/src"
     (fun t => @Ok string string t) (fun _ => "id") (fun t => @Ok string string t) (fun _ => Ok tt)
     ls connecting_world one_session = Some (w', g') -> (steps_of 0 ls <= 66)%nat) /\
  exists i w', Sample.step connecting_world (Step 0 i) = Some (Fine w').
Proof.
  destruct (@calls_return _ Sample.crate JFloat None "/src" string string (fun t => Ok t) (fun _ => "id")
    (fun t => Ok t) (fun _ => Ok tt) connecting_world one_session 0 (Connect (Some 0) (Some "x")) (CnStore "id")
    Sample.portal Sample.env) as [Hb Hg].
  - eapply play_played, connecting_played. apply played_nothing.
  - vm_compute. reflexivity.
  - split; [exact Hb|]. destruct Hg as [(i & w' & _ & H)|(p & h & _ & _ & [])].
    exists i, w'. exact H.
Defined.
