(* ===== verification/Stack.v ===== *)
(** * The whole stack: callers of the C library, bridge, supervisors, processes

    The supervisors launchd starts one after the other ([Supervisor]), the library
    with every session and call ([Bridge]) and the sockets between them: a driver
    reads what a supervisor wrote to the connection it dialled, through as many
    sessions and restarts as there are.  What a caller of [etb_connect], the
    callback and [etb_supervisor_status] are told is traced back to the processes
    a supervisor spawned. *)

From Stdlib Require Import ZArith Lia Ascii String.
From stdpp Require Import base list strings gmap sets.
From S2P Require Import Prelude RustStr Json JsonText.
From S2P Require Proto Config CoreProc Supervisor Schedules.
From S2P Require Import Auth ClientProto Wire ProcInv LockInv HookInv Carried WireInv Causes SupervisorClient ClientInv Ffi Bridge FfiMemory FfiInv.
From S2P Require Rpc.
Import ClientProto SupervisorClient.

Open Scope string_scope.

(** ** What a driver is told *)

Section Driver.
Context {SJ : SerdeJson} (cc : SupervisorConfig).
(** What holds of the events sent to the application and of the answers given. *)
Context (E : SupervisorEvent.SupervisorEvent -> Prop) (A : Answer -> Prop).
Context (E_over : E SupervisorEvent.Disconnected) (A_failed : forall msg, A (Failed msg)) (A_dropped : A Dropped).

Definition honest (d : Driver) : Prop := Forall E (events d) /\ Forall (fun x => A x.2) (answers d).

(** An event that may be read, in a session and as its first line. *)
Definition sound_event (ev : Event.Event) : Prop :=
  forall p, Forall E (dispatch_event ev p).1.2 /\ Forall (fun x => A x.2) (dispatch_event ev p).2.
Definition sound_line (l : string) : Prop := forall ev, decode_event l = Ok ev -> sound_event ev.
Definition sound_first (l : string) : Prop := forall t, Forall E (connect_and_hello t (HLine l)).1.2.

(** What the step reads from the socket is sound. *)
Definition reads_sound (d : Driver) (l : DLabel) : Prop :=
  match l, dpc d with
  | DAttempt (HLine s), DConnect => sound_first s
  | DLine s, DSession _ => sound_line (line d ++ s ++ nl)
  | DEof, DSession _ => line d = ""
  | _, _ => True
  end.

Lemma honest_keep d d' : honest d -> events d' = events d -> answers d' = answers d -> honest d'.
Proof. unfold honest. by intros ? -> ->. Qed.

Lemma honest_emit evs d : honest d -> Forall E evs -> honest (emit evs d).
Proof. intros [H1 H2] H. split; [|done]. by apply Forall_app. Qed.

Lemma honest_answer xs d : honest d -> Forall (fun x => A x.2) xs -> honest (answer xs d).
Proof. intros [H1 H2] H. split; [done|]. by apply Forall_app. Qed.

Lemma honest_end p next d : honest d -> honest (end_session p next d).
Proof.
  intros H. apply (honest_keep (emit [SupervisorEvent.Disconnected]
    (answer (match p with Some r => [(ticket r, Dropped)] | None => [] end) d))); [|done..].
  apply honest_emit; [|by constructor]. apply honest_answer; [done|]. destruct p; by repeat constructor.
Qed.

Lemma honest_stop d : honest d -> honest (stop_driver d).
Proof.
  intros H. apply (honest_keep (answer (map (fun r => (ticket r, Dropped)) (queue d)) d)); [|done..].
  apply honest_answer; [done|]. by apply Forall_map, Forall_true.
Qed.

Lemma honest_line p l d : honest d -> sound_line l -> honest (handle_line p l d).
Proof.
  intros H Hl. unfold handle_line. destruct (utf8_valid l); [|by apply honest_end].
  destruct (decode_event l) as [ev|] eqn:Hev; [|done]. destruct (Hl ev Hev p) as [He Ha].
  destruct (dispatch_event ev p) as [[p' evs] xs]. by apply honest_emit; [apply honest_answer|].
Qed.

Lemma honest_request p r w d : honest d -> honest (take_request p r w d).
Proof.
  intros H. unfold take_request. destruct p.
  { apply honest_answer; [done|]. by apply Forall_singleton, A_failed. }
  destruct w as [|e|e]; [done|..]; apply honest_end; (apply honest_answer; [done|]); by apply Forall_singleton, A_failed.
Qed.

Lemma honest_attempt h d : honest d -> match h with HLine s => sound_first s | _ => True end ->
  honest (attempt cc h d).
Proof.
  intros H Hh. unfold attempt.
  assert (He : Forall E (connect_and_hello (next_takeover d) h).1.2) by (destruct h; [by constructor..|by apply Hh]).
  destruct (connect_and_hello (next_takeover d) h) as [[r evs] cmds].
  eapply (honest_keep (emit evs d)); [by apply honest_emit|..]; by destruct r as [|[]].
Qed.

Lemma honest_step d l d' : honest d -> reads_sound d l -> driver_step cc d l = Some d' -> honest d'.
Proof.
  intros H Hr Hs. unfold driver_step, reads_sound in *.
  destruct l as [r| | | | | | | |h|w|s|s| | |early]; destruct (dpc d) eqn:Hp; try done.
  all: repeat match type of Hs with context [match ?x with _ => _ end] => destruct x eqn:? end.
  all: simplify_eq; try done; try by apply honest_stop.
  - apply honest_answer; [done|]. by apply Forall_singleton, A_failed.
  - by apply honest_stop, honest_end.
  - by apply honest_stop, honest_end.
  - by apply honest_attempt.
  - by apply honest_request.
  - by apply honest_line.
  - by apply honest_end.
  - rewrite Hr in *. done.
  - by apply honest_end.
Qed.

(** What the driver's [read_line] holds is what was taken of the current line, [s],
    as long as it has a session. *)
Definition aligned (s : string) (d : Driver) : Prop :=
  line d = match dpc d with DSession _ => s | _ => "" end.

(** The part taken after a step that cuts no read short. *)
Definition part_after (s : string) (l : DLabel) : string :=
  match l with DBytes b => s ++ b | DLine _ | DAttempt _ => "" | _ => s end.

Lemma aligned_line p l d : dpc d = DSession p -> aligned "" (handle_line p l d).
Proof.
  intros Hp. unfold handle_line, aligned. destruct (utf8_valid l); [|done].
  destruct (decode_event l) as [ev|]; [|by cbn; rewrite Hp].
  by destruct (dispatch_event ev p) as [[p' evs] xs].
Qed.

Lemma aligned_attempt h d : dpc d = DConnect -> aligned "" d -> aligned "" (attempt cc h d).
Proof.
  unfold aligned, attempt. intros ->.
  by destruct (connect_and_hello (next_takeover d) h) as [[[[]|[]] evs] cmds].
Qed.

Lemma aligned_step s d l d' : driver_step cc d l = Some d' -> aligned s d ->
  match l with DRequest _ | DEof => s = "" | _ => True end -> aligned (part_after s l) d'.
Proof.
  intros Hs Ha Hl. unfold driver_step in Hs.
  destruct l as [r| | | | | | | |h|w|b|b| | |early]; cbn [part_after]; destruct (dpc d) eqn:Hp; try done.
  all: repeat match type of Hs with
       | context [if ?x then _ else _] => destruct x eqn:?
       | context [match queue ?x with _ => _ end] => destruct (queue x)
       end; simplify_eq.
  all: try by apply aligned_line.
  all: try (apply aligned_attempt; [done|by unfold aligned in *; rewrite Hp in *]).
  all: unfold aligned in *; rewrite Hp in *; cbn; rewrite ?Hp; try done.
  - unfold take_request. by destruct pending, w; cbn; rewrite ?Hp.
  - by rewrite Ha.
Qed.

(** Without a session, an attempt that gets no line gives none. *)
Lemma attempt_no_line h d t : dpc d = DConnect -> (forall s, h <> HLine s) -> aligned "" d -> aligned t (attempt cc h d).
Proof. unfold aligned, attempt. intros -> Hh. destruct h as [| | |s]; [done..|]. by destruct (Hh s). Qed.
End Driver.

(** ** The stack *)

(** A supervisor process and the steps it has made. *)
Record Incarnation : Type := { now_ : Supervisor.Sys; so_far : list Supervisor.Label }.

Definition launched : Incarnation := {| now_ := Supervisor.initial; so_far := [] |}.

(** Where a driver is connected: the supervisor, the connection, how many of its
    lines the driver has read in full and the bytes it has taken of the next one;
    and whether a read of the session was ever cut short, on this connection or an
    earlier one. *)
Record Plug : Type := { with_ : nat; on_ : nat; lines_read : nat; part : string; torn : bool }.

Definition fetched (s : string) (q : Plug) : Plug :=
  {| with_ := with_ q; on_ := on_ q; lines_read := lines_read q; part := part q ++ s; torn := torn q |}.
Definition line_read (q : Plug) : Plug :=
  {| with_ := with_ q; on_ := on_ q; lines_read := S (lines_read q); part := ""; torn := torn q |}.
Definition cut (q : Plug) : Plug :=
  {| with_ := with_ q; on_ := on_ q; lines_read := lines_read q; part := part q;
     torn := torn q || negb (part q =? "") |}.

Definition cut_short (qs : gmap nat Plug) (p : nat) : bool :=
  match qs !! p with Some q => torn q | None => false end.
Definition part_of (qs : gmap nat Plug) (p : nat) : string :=
  match qs !! p with Some q => part q | None => "" end.

Section Stack.
Context {SJ : SerdeJson}.
(** The supervisor. *)
Context (config : Config.Config) (auth : AuthMode).
(** The library, as in [Bridge]. *)
Context {C : Rpc.Crate} (ser_f64 : Rpc.f64 -> json).
Context (ET_SUPERVISOR_SOCKET : option string) (CARGO_MANIFEST_DIR : string).
Context {Loader LibConfig : Type}.
Context (new_from_str : string -> result Loader string) (get_id : Loader -> string).
Context (new_from_config : Loader -> result LibConfig string).
Context (parse_table : string -> result unit string).

Abbreviation World := (World (Config := LibConfig)).
Abbreviation lib_step := (Bridge.step ser_f64 ET_SUPERVISOR_SOCKET CARGO_MANIFEST_DIR new_from_str get_id
  new_from_config parse_table).
Abbreviation thread_step :=
  (thread_step ser_f64 ET_SUPERVISOR_SOCKET new_from_str get_id new_from_config parse_table).
Abbreviation played := (played ser_f64 ET_SUPERVISOR_SOCKET CARGO_MANIFEST_DIR new_from_str get_id
  new_from_config parse_table).
#[local] Existing Instance allowed_dec.

(** [plugs]: the connection of each session of the library that has had one. *)
Record Stack : Type := {
  sups : list Incarnation;
  lib : World;
  owned : Ledger;
  plugs : gmap nat Plug
}.

(** What happens next: launchd starts a supervisor, supervisor [n] makes a step,
    the library or its client does something, or the attempt of session [p] reaches
    connection [c] of supervisor [n] and reads a first line, or the bytes of it that
    come before the end of the stream. *)
Inductive Act : Type :=
| Launch
| Sup (n : nat) (l : Supervisor.Label)
| Lib (l : Bridge.Label)
| Dial (p n c : nat) (s : string).

Definition set_sups (us : list Incarnation) (K : Stack) : Stack :=
  {| sups := us; lib := lib K; owned := owned K; plugs := plugs K |}.

(** The next line on its way to a driver, its newline included. *)
Definition next_line (K : Stack) (q : Plug) : option string :=
  u ← sups K !! with_ q; k ← Supervisor.conns (now_ u) !! on_ q;
  Proto.encode_event <$> Supervisor.wire k !! lines_read q.

(** A driver reads what was written to its connection, bytes in any pieces; the
    plugs after that, [None] if this is not the next to be read.  As in [Link] a
    request or the end of the stream may come in the middle of a line. *)
Definition reading (K : Stack) (l : Bridge.Label) : option (gmap nat Plug) :=
  match l with
  | Drive p l =>
      h ← handles (lib K) !! p;
      let d := supervisor h in
      match dpc d, l with
      | DConnect, DAttempt (HLine _) => None
      | DSession _, DBytes s =>
          q ← plugs K !! p; next ← next_line K q;
          if starts_with (part q ++ s) next then Some (<[p := fetched s q]> (plugs K)) else None
      | DSession _, DLine s =>
          q ← plugs K !! p;
          if bool_decide (next_line K q = Some (part q ++ s ++ nl))
          then Some (<[p := line_read q]> (plugs K)) else None
      | DSession _, (DRequest _ | DEof) => q ← plugs K !! p; Some (<[p := cut q]> (plugs K))
      | _, _ => Some (plugs K)
      end
  | Init _ true place => Some (delete place (plugs K))
  | _ => Some (plugs K)
  end.

(** The library makes a step its client may cause. *)
Definition lib_move (l : Bridge.Label) (qs : gmap nat Plug) (K : Stack) : option Stack :=
  if decide (allowed (lib K) (owned K) l) then
    match lib_step (lib K) l with
    | Some (Fine w) => Some {| sups := sups K; lib := w; owned := note (owned K) l w; plugs := qs |}
    | _ => None
    end
  else None.

Definition stack_step (K : Stack) (a : Act) : option Stack :=
  match a with
  | Launch => Some (set_sups (sups K ++ [launched])%list K)
  | Sup n l =>
      u ← sups K !! n; s ← Supervisor.step config auth (now_ u) l;
      Some (set_sups (<[n := {| now_ := s; so_far := so_far u ++ [l] |}]> (sups K))%list K)
  | Lib l => qs ← reading K l; lib_move l qs K
  | Dial p n c s =>
      let q := {| with_ := n; on_ := c; lines_read := 0; part := ""; torn := cut_short (plugs K) p |} in
      next ← next_line K q;
      if s =? next then lib_move (Drive p (DAttempt (HLine s))) (<[p := line_read q]> (plugs K)) K
      else if negb (s =? "") && starts_with s next
      then lib_move (Drive p (DAttempt (HLine s))) (<[p := cut (fetched s q)]> (plugs K)) K
      else None
  end.

Definition stack_init : Stack :=
  {| sups := []; lib := nothing; owned := {| sessions := ∅; texts := ∅ |}; plugs := ∅ |}.

Fixpoint stack_run (K : Stack) (acts : list Act) : option Stack :=
  match acts with
  | [] => Some K
  | a :: acts => match stack_step K a with Some K' => stack_run K' acts | None => None end
  end.

(** ** What is true *)

(** What has happened in a supervisor. *)
Definition history (u : Incarnation) : list Fact := facts config auth Supervisor.initial (so_far u).

(** An event with its cause in the history of one of the supervisors. *)
Definition happened (us : list Incarnation) (ev : Proto.Event.Event) : Prop :=
  exists n u c, us !! n = Some u /\ caused (history u) c ev.

(** What the application is sent and a caller is given on an event. *)
Definition shown (ev : Proto.Event.Event) : option SupervisorEvent.SupervisorEvent :=
  match ev with
  | Proto.Event.Hello _ version co port => Some (SupervisorEvent.Connected version (client_core co) port)
  | Proto.Event.CoreStarted pid port => Some (SupervisorEvent.CoreStarted pid port)
  | Proto.Event.CoreStopped reason => Some (SupervisorEvent.CoreStopped reason)
  | Proto.Event.CoreExited code signal => Some (SupervisorEvent.CoreExited code signal)
  | Proto.Event.Kicked => Some SupervisorEvent.Kicked
  | Proto.Event.Busy owner => Some (SupervisorEvent.Busy owner)
  | Proto.Event.Error code msg => Some (SupervisorEvent.Error code msg)
  | Proto.Event.Status _ _ _ => None
  end.

Definition granted (ev : Proto.Event.Event) : option Answer :=
  match ev with
  | Proto.Event.CoreStarted pid port => Some (Started {| si_pid := pid; si_rpc_port := port |})
  | Proto.Event.CoreStopped _ => Some StoppedOk
  | Proto.Event.Status co pid port =>
      Some (StatusOk {| st_core := client_core co; st_pid := pid; st_rpc_port := port |})
  | _ => None
  end.

Definition event_true (us : list Incarnation) (x : SupervisorEvent.SupervisorEvent) : Prop :=
  x = SupervisorEvent.Disconnected \/ exists ev, happened us ev /\ shown ev = Some x.

Definition answer_true (us : list Incarnation) (x : Answer) : Prop :=
  match x with
  | Failed _ | Dropped => True
  | _ => exists ev, happened us ev /\ granted ev = Some x
  end.

(** A process that a supervisor spawned with this RPC portal. *)
Definition port_true (us : list Incarnation) (q : Z) : Prop :=
  exists n u pid, us !! n = Some u /\ spawned_as (history u) pid q.

Definition honest_handle (us : list Incarnation) (h : EtbHandle) : Prop :=
  honest (event_true us) (answer_true us) (supervisor h) /\ (forall q, port h = Some q -> port_true us q).

(** ** Supervisors go on *)

(** The supervisors later on. *)
Definition extends (us us' : list Incarnation) : Prop :=
  forall n u, us !! n = Some u -> exists u', us' !! n = Some u' /\ history u ⊆ history u'.

Lemma extends_refl us : extends us us.
Proof. intros n u Hn. by exists u. Qed.

Lemma happened_extends us us' ev : extends us us' -> happened us ev -> happened us' ev.
Proof.
  intros H (n & u & c & Hn & Hc). destruct (H n u Hn) as (u' & Hn' & Hsub). exists n, u', c.
  split; [done|]. by eapply caused_mono.
Qed.

Lemma event_extends us us' x : extends us us' -> event_true us x -> event_true us' x.
Proof. intros H [->|(ev & Hev & Hx)]; [by left|right]. exists ev. split; [by eapply happened_extends|done]. Qed.

Lemma answer_extends us us' x : extends us us' -> answer_true us x -> answer_true us' x.
Proof.
  intros H. destruct x; cbn; try done; intros (ev & Hev & Hx); exists ev; by eauto using happened_extends.
Qed.

Lemma port_extends us us' q : extends us us' -> port_true us q -> port_true us' q.
Proof.
  intros H (n & u & pid & Hn & Hs). destruct (H n u Hn) as (u' & Hn' & Hsub). exists n, u', pid.
  split; [done|]. by eapply spawned_mono.
Qed.

Lemma honest_extends us us' h : extends us us' -> honest_handle us h -> honest_handle us' h.
Proof.
  intros H [[He Ha] Hp]. split; [split|].
  - eapply Forall_impl; [exact He|]. intros x. by apply event_extends.
  - eapply Forall_impl; [exact Ha|]. intros x. by apply answer_extends.
  - intros q Hq. eapply port_extends; [done|]. by apply Hp.
Qed.

(** A step adds to the history. *)
Lemma facts_snoc ls : forall s s1 l s', Supervisor.run config auth s ls = Some s1 -> Supervisor.step config auth s1 l = Some s' ->
  facts config auth s (ls ++ [l]) = (facts config auth s ls ++ logged config s1 l)%list.
Proof.
  induction ls as [|l0 ls IH]; intros s s1 l s'; cbn.
  - intros [= <-] ->. by rewrite app_nil_r.
  - destruct (Supervisor.step config auth s l0) as [s0|]; [|done]. intros Hr Hs.
    by rewrite (IH _ _ _ _ Hr Hs), app_assoc.
Qed.

Lemma run_snoc ls : forall s s1 l s', Supervisor.run config auth s ls = Some s1 -> Supervisor.step config auth s1 l = Some s' ->
  Supervisor.run config auth s (ls ++ [l])%list = Some s'.
Proof.
  induction ls as [|l0 ls IH]; intros s s1 l s'; cbn; [by intros [= <-] ->|].
  destruct (Supervisor.step config auth s l0) as [s0|]; [|done]. apply IH.
Qed.

Definition genuine (u : Incarnation) : Prop := Supervisor.run config auth Supervisor.initial (so_far u) = Some (now_ u).

(** What a genuine supervisor has written is true, and its spawned processes exist. *)
Lemma genuine_causes u : genuine u ->
  causes (history u) (now_ u) /\ cores_real config (history u) (now_ u).
Proof.
  intros H. destruct (run_causes config auth (so_far u) [] Supervisor.initial (now_ u)) as (H1 & _ & H3); [constructor| | | |done|done].
  - by constructor.
  - constructor; cbn; try done; intros i *; rewrite ?elem_of_nil; done.
  - intros i p q Hi%elem_of_nil. done.
Qed.

Lemma genuine_reachable u : genuine u -> Supervisor.reachable config auth (now_ u).
Proof. intros H. eapply Supervisor.run_reachable; [constructor|exact H]. Qed.

(** ** What may be read is sound *)

Lemma shown_sound us ev : happened us ev ->
  sound_event (event_true us) (answer_true us) (client_event ev).
Proof.
  intros H p.
  assert (He : forall x, shown ev = Some x -> Forall (event_true us) [x]).
  { intros x Hx. apply Forall_singleton. right. by exists ev. }
  assert (Hans : forall x r, granted ev = Some x -> Forall (fun y => answer_true us y.2) [(ticket r, x)]).
  { intros x r Hx. apply Forall_singleton. destruct ev; try done; injection Hx as <-; cbn; by eexists. }
  destruct ev, p as [[[] t]|]; cbn; split; try by constructor; try by apply He.
  all: try (by apply Forall_singleton).
  all: try (by apply (Hans _ {| what := RStatus; ticket := t |})).
  all: by apply He.
Qed.

Lemma hello_sound us ev : happened us ev -> Proto.Event.wf ev ->
  sound_first (event_true us) (Proto.encode_event ev).
Proof.
  intros H Hwf t. unfold connect_and_hello. destruct (utf8_valid _); [|by constructor].
  rewrite decode_encode_event by done.
  destruct ev; cbn; try (by constructor); apply Forall_singleton; right; eexists; by split.
Qed.

(** ** A session *)

Lemma honest_drive us h l d : honest_handle us h ->
  reads_sound (event_true us) (answer_true us) (supervisor h) l ->
  driver_step (Ffi.config ET_SUPERVISOR_SOCKET) (supervisor h) l = Some d -> honest_handle us (set_supervisor d h).
Proof.
  intros [H Hp] Hr Hs. split; [|done]. eapply honest_step; [by left|done|done|exact H|exact Hr|exact Hs].
Qed.

Lemma event_port_true us ev : event_true us ev -> forall q0 q, event_port q0 ev = Some q ->
  (forall q, q0 = Some q -> port_true us q) -> port_true us q.
Proof.
  intros Hev q0 q Hq H0. destruct Hev as [->|(e & (n & u & c & Hn & Hc) & Hsh)]; [by apply H0|].
  destruct e as [pv v co port|pid port|co pid port|r|co sg|co msg|o|]; try done; injection Hsh as <-; cbn in Hq;
    try done; try by apply H0.
  - destruct port as [port|]; [|by apply H0]. injection Hq as ->. destruct Hc as [_ Hc]. destruct co; [done|].
    destruct Hc as (pid & q1 & [= <-] & Hsp). by exists n, u, pid.
  - injection Hq as ->. by exists n, u, pid.
Qed.

Lemma honest_forward us h h' : honest_handle us h -> forward_events h = Some h' -> honest_handle us h'.
Proof.
  intros [H Hp]. unfold forward_events. destruct (events (supervisor h) !! forwarded h) as [ev|] eqn:He; [|done].
  intros [= <-]. set (h' := sink_emit _ _).
  assert (supervisor h' = supervisor h /\ port h' = event_port (port h) ev) as [Hs Hq]
    by (unfold h', sink_emit; by case_match).
  split; [by rewrite Hs|]. rewrite Hq. intros q Hport. eapply event_port_true; [|exact Hport|exact Hp].
  destruct H as [Hev _]. by eapply Forall_lookup_1 in Hev.
Qed.

(** A start that was answered. *)
Lemma start_true us h info : honest_handle us h -> start_of h info ->
  exists n u, us !! n = Some u /\ spawned_as (history u) (si_pid info) (si_rpc_port info).
Proof.
  intros [[_ Ha] _] [t Ht]. rewrite List.Forall_forall in Ha. destruct (Ha _ Ht) as (ev & (n & u & c & Hn & Hc) & Hg).
  destruct ev; try done. injection Hg as <-. by exists n, u.
Qed.

Lemma honest_thread us k h pc i h' pc' : honest_handle us h ->
  (forall toml info, pc = CnStarted toml info -> start_of h info) ->
  thread_step k h pc i = Some (h', pc') -> honest_handle us h'.
Proof.
  intros H Hst Hs.
  assert (Hd : forall l d, driver_step (Ffi.config ET_SUPERVISOR_SOCKET) (supervisor h) l = Some d ->
    match l with DIssue _ | DTakeover | DShutdown => True | _ => False end -> honest_handle us (set_supervisor d h)).
  { intros l d Hl Hk. eapply honest_drive; [done| |exact Hl]. by destruct l. }
  unfold Ffi.thread_step in Hs. destruct i as [env|portal| |env].
  - unfold go, send_request, option_map in Hs. destruct pc; try done; repeat case_match; simplify_eq; try done;
      try (by eapply Hd).
    + split; [apply H|]. intros q [= <-]. destruct (start_true us h info H (Hst _ _ eq_refl)) as (n & u & Hn & Hsp).
      by exists n, u, (si_pid info).
    + by split; [apply H|].
  - destruct pc; try done; cbn [answered] in Hs; repeat case_match; by simplify_eq.
  - unfold option_map in Hs. destruct pc; try done; repeat case_match; by simplify_eq.
  - destruct pc; try done; by simplify_eq.
Qed.

(** A call moves the driver only by its requests and notifications. *)
Lemma aligned_thread t k h pc i h' pc' : aligned t (supervisor h) ->
  thread_step k h pc i = Some (h', pc') -> aligned t (supervisor h').
Proof.
  intros H Hs.
  assert (Hd : forall l d, driver_step (Ffi.config ET_SUPERVISOR_SOCKET) (supervisor h) l = Some d ->
    match l with DIssue _ | DTakeover | DShutdown => True | _ => False end -> aligned t (supervisor (set_supervisor d h))).
  { intros l d Hl Hk. pose proof (aligned_step _ t _ _ _ Hl H) as Ha. by destruct l; try done; apply Ha. }
  unfold Ffi.thread_step in Hs. destruct i as [env|portal| |env].
  - unfold go, send_request, option_map in Hs. destruct pc; try done; repeat case_match; simplify_eq; try done; by eapply Hd.
  - destruct pc; try done; cbn [answered] in Hs; repeat case_match; by simplify_eq.
  - unfold option_map in Hs. destruct pc; try done; repeat case_match; by simplify_eq.
  - destruct pc; try done; by simplify_eq.
Qed.

(** ** The library *)

(** A session none of whose reads was cut short is told the truth. *)
Definition whole (us : list Incarnation) (qs : gmap nat Plug) (p : nat) (h : EtbHandle) : Prop :=
  cut_short qs p = false -> honest_handle us h /\ aligned (part_of qs p) (supervisor h).

Definition honest_world (us : list Incarnation) (qs : gmap nat Plug) (w : World) : Prop :=
  all_handles (whole us qs) w.

Lemma honest_new us cb : honest_handle us (new_handle ET_SUPERVISOR_SOCKET cb).
Proof. by split; [split; constructor|]. Qed.

(** Everything but the drivers. *)
Lemma honest_lib us w g qs qs' l w' : played w g -> honest_world us qs w -> (forall p dl, l <> Drive p dl) ->
  (forall p h, handles w !! p = Some h -> qs' !! p = qs !! p) ->
  lib_step w l = Some (Fine w') -> honest_world us qs' w'.
Proof.
  intros Hpl Hw Hl Hq. apply all_step.
  - intros cb p Hp _. split; [apply honest_new|done].
  - intros k c pc p h i h' pc' Hk Hc Hp Hh Hst Hcut. destruct (Hh Hcut) as [H1 H2].
    split; [|by eapply aligned_thread]. eapply honest_thread; [done| |exact Hst]. intros toml info ->. exists k.
    pose proof (k_threads _ _ _ _ (played_kept _ _ _ _ _ _ _ _ _ Hpl) _ _ _ _ _ Hk Hc Hp eq_refl) as Hpr.
    destruct (s_threads _ _ (played_sound _ _ _ _ _ _ _ _ _ Hpl) _ _ Hk) as [Hb _].
    destruct c as [? [t|]| | | | | | | | |]; try done. by destruct Hpr.
  - intros p h h' _ Hh Hf Hcut. destruct (Hh Hcut) as [H1 H2]. split; [by eapply honest_forward|].
    replace (supervisor h') with (supervisor h); [done|]. unfold forward_events in Hf.
    destruct (events (supervisor h) !! forwarded h); [|done]. injection Hf as <-. unfold sink_emit. by case_match.
  - intros p h Hp. unfold whole, cut_short, part_of. rewrite (Hq p h Hp). exact (Hw p h Hp).
  - intros p dl h d ->. by destruct (Hl p dl).
Qed.

(** A driver. *)
Lemma honest_driven us w qs q p dl w' : honest_world us qs w ->
  (forall h d, handles w !! p = Some h -> driver_step (Ffi.config ET_SUPERVISOR_SOCKET) (supervisor h) dl = Some d ->
     whole us qs p h -> whole us q p (set_supervisor d h)) ->
  (forall p', p' <> p -> q !! p' = qs !! p') ->
  lib_step w (Drive p dl) = Some (Fine w') -> honest_world us q w'.
Proof.
  intros Hw Hd Hq. cbn [Bridge.step]. unfold task_step. destruct (handles w !! p) as [h|] eqn:Hp; [|done].
  unfold run_driver. destruct (by_driver dl); [|done]. destruct (driver_step _ _ dl) as [d|] eqn:Hs; [|done].
  intros [= <-] p' h'. cbn. intros [[<- <-]|[Hne Hp']]%lookup_insert_Some; [by eapply Hd; eauto|].
  unfold whole, cut_short, part_of. rewrite Hq by done. exact (Hw p' h' Hp').
Qed.

(** ** Every run of the stack *)

Context (core_path_utf8 : utf8_valid (Config.core_path config) = true).

Record true_stack (K : Stack) : Prop := {
  ts_sups n u : sups K !! n = Some u -> genuine u;
  ts_played : played (lib K) (owned K);
  ts_lib : honest_world (sups K) (plugs K) (lib K)
}.

(** The next line is an event that happened. *)
Lemma next_happened K q s : true_stack K -> next_line K q = Some s ->
  exists ev, happened (sups K) ev /\ Proto.Event.wf ev /\ s = Proto.encode_event ev.
Proof using core_path_utf8.
  intros HK. unfold next_line. destruct (sups K !! with_ q) as [u|] eqn:Hu; cbn; [|done].
  destruct (Supervisor.conns (now_ u) !! on_ q) as [k|] eqn:Hk; cbn; [|done].
  destruct (Supervisor.wire k !! lines_read q) as [ev|] eqn:Hev; cbn; [|done]. intros [= <-]. exists ev.
  pose proof (ts_sups K HK _ _ Hu) as Hg.
  destruct (genuine_causes u Hg) as [Hc _]. destruct (ca_conn _ Hc _ _ Hk) as [_ Hw].
  destruct (ca_conn _ (reachable_typed config auth core_path_utf8 _ (genuine_reachable u Hg)) _ _ Hk) as [_ Ht].
  split_and!; [|by eapply Forall_lookup_1 in Ht|done].
  exists (with_ q), u, (on_ q). split; [done|]. by eapply Forall_lookup_1 in Hw.
Qed.

(** A driver goes on without reading a line. *)
Lemma drive_on us t l q q' p h d : whole us q p h ->
  driver_step (Ffi.config ET_SUPERVISOR_SOCKET) (supervisor h) l = Some d ->
  (cut_short q' p = false -> cut_short q p = false /\
   (aligned (part_of q p) (supervisor h) -> aligned t (supervisor h) /\
      reads_sound (event_true us) (answer_true us) (supervisor h) l /\
      match l with DRequest _ | DEof => t = "" | _ => True end /\
      (aligned (part_after t l) d -> aligned (part_of q' p) d))) -> whole us q' p (set_supervisor d h).
Proof.
  intros Hh Hs Hq Hcut. destruct (Hq Hcut) as [Hcut' Hq']. destruct (Hh Hcut') as [H1 H2].
  destruct (Hq' H2) as (Ht & Hr & Hl & Ha). split; [by eapply honest_drive|]. by eapply Ha, aligned_step.
Qed.

(** What a session reads, or does meanwhile. *)
Lemma session_sound K p l q q' p0 h d : true_stack K -> handles (lib K) !! p = Some h ->
  dpc (supervisor h) = DSession p0 -> plugs K !! p = Some q ->
  driver_step (Ffi.config ET_SUPERVISOR_SOCKET) (supervisor h) l = Some d ->
  whole (sups K) (plugs K) p h ->
  match l with
  | DBytes s => q' = fetched s q
  | DLine s => q' = line_read q /\ next_line K q = Some (part q ++ s ++ nl)
  | DRequest _ | DEof => q' = cut q
  | _ => False
  end -> whole (sups K) (<[p := q']> (plugs K)) p (set_supervisor d h).
Proof using core_path_utf8.
  intros HK Hp Hd Hq Hs Hh Hl. apply (drive_on (sups K) (part q) l (plugs K) _ p h d Hh Hs).
  unfold cut_short, part_of, aligned, reads_sound. rewrite lookup_insert_eq, Hq, Hd.
  destruct l as [r| | | | | | | |b|w|s|s| | |early]; try done.
  - subst q'. cbn. intros [-> Hpart]%orb_false_iff. apply negb_false_iff, String.eqb_eq in Hpart.
    split; [done|]. intros Hline. by split_and!.
  - subst q'. cbn. intros Ht. split; [done|]. intros Hline. by split_and!.
  - destruct Hl as [-> Hn]. cbn. intros Ht. split; [done|]. intros Hline. split; [done|]. split; [|done]. rewrite Hline.
    destruct (next_happened K q _ HK Hn) as (ev & Hev & Hwf & ->). intros e He.
    rewrite decode_encode_event in He by done. injection He as <-. by apply shown_sound.
  - subst q'. cbn. intros [-> Hpart]%orb_false_iff. apply negb_false_iff, String.eqb_eq in Hpart. rewrite Hpart.
    split; [done|]. intros Hline. by split_and!.
Qed.

Lemma reading_sound K p l qs h d : true_stack K -> handles (lib K) !! p = Some h ->
  reading K (Drive p l) = Some qs -> driver_step (Ffi.config ET_SUPERVISOR_SOCKET) (supervisor h) l = Some d ->
  whole (sups K) qs p (set_supervisor d h).
Proof using core_path_utf8.
  intros HK Hp Hr Hs. pose proof (ts_lib K HK p h Hp) as Hh.
  cbn -[bool_decide] in Hr. rewrite Hp in Hr. cbn -[bool_decide] in Hr.
  assert (Hstay : qs = plugs K -> match l with DAttempt (HLine _) | DRequest _ | DEof | DBytes _ | DLine _ => False | _ => True end ->
    whole (sups K) qs p (set_supervisor d h)).
  { intros -> Hl. apply (drive_on (sups K) (part_of (plugs K) p) l (plugs K) _ p h d Hh Hs).
    intros Hc. split; [done|]. intros Hal. unfold reads_sound.
    destruct l as [r| | | | | | | |[| | |s]|w|s|s| | |early]; try done; split_and!; try done;
      unfold driver_step in Hs; destruct (dpc (supervisor h)) eqn:Hd; try done; intros _;
      injection Hs as <-; (apply attempt_no_line; [done|done|]); unfold aligned in *; by rewrite Hd in *. }
  destruct (dpc (supervisor h)) as [|p0| | |] eqn:Hd.
  2: { destruct l as [r| | | | | | | |b|w|s|s| | |early]; try (injection Hr as <-; by apply Hstay);
         try (unfold driver_step in Hs; by rewrite Hd in Hs);
         (destruct (plugs K !! p) as [q|] eqn:Hq; cbn -[bool_decide] in Hr; [|done]).
       - injection Hr as <-. by eapply session_sound.
       - destruct (next_line K q) as [next|]; cbn in Hr; [|done]. destruct (starts_with _ _); [|done].
         injection Hr as <-. by eapply session_sound.
       - case_bool_decide as Hn; [|done]. injection Hr as <-. by eapply session_sound.
       - injection Hr as <-. by eapply session_sound. }
  all: destruct l as [r| | | | | | | |[| | |s]|w|s|s| | |early]; try done;
    try (unfold driver_step in Hs; by rewrite Hd in Hs); injection Hr as <-; by apply Hstay.
Qed.

(** A first line. *)
Lemma dialled K p n c s next h d : true_stack K -> handles (lib K) !! p = Some h ->
  driver_step (Ffi.config ET_SUPERVISOR_SOCKET) (supervisor h) (DAttempt (HLine s)) = Some d ->
  let q := {| with_ := n; on_ := c; lines_read := 0; part := ""; torn := cut_short (plugs K) p |} in
  next_line K q = Some next ->
  (s = next -> whole (sups K) (<[p := line_read q]> (plugs K)) p (set_supervisor d h)) /\
  (s <> "" -> whole (sups K) (<[p := cut (fetched s q)]> (plugs K)) p (set_supervisor d h)).
Proof using core_path_utf8.
  intros HK Hp Hs q Hn. pose proof (ts_lib K HK p h Hp) as Hh. split.
  - intros ->. apply (drive_on (sups K) (part_of (plugs K) p) (DAttempt (HLine next)) (plugs K) _ p h d Hh Hs).
    unfold cut_short at 1. unfold part_of at 4. rewrite lookup_insert_eq. cbn. intros Hc. split; [done|].
    intros Hal. split_and!; try done. unfold reads_sound. destruct (dpc (supervisor h)); try done.
    destruct (next_happened K _ _ HK Hn) as (ev & Hev & Hwf & ->). by apply hello_sound.
  - intros Hne Hc. unfold cut_short in Hc. rewrite lookup_insert_eq in Hc. cbn in Hc.
    apply orb_false_iff in Hc as [_ Hc]. apply negb_false_iff, String.eqb_eq in Hc. done.
Qed.

(** The library goes on. *)
Lemma true_lib K l qs K' : true_stack K ->
  (forall w, lib_step (lib K) l = Some (Fine w) -> honest_world (sups K) qs w) ->
  lib_move l qs K = Some K' -> true_stack K' /\ sups K' = sups K.
Proof.
  intros [Hs Hpl Hw] Hr. unfold lib_move. case_decide as Hal; [|done].
  destruct (lib_step (lib K) l) as [[w|]|] eqn:Hl; [|done..]. intros [= <-]. split; [|done].
  constructor; cbn; [done|by eapply played_step|by eapply Hr].
Qed.

(** A plug is replaced when its session is, or moves with its driver. *)
Lemma reading_plugs K l qs w : (forall p dl, l <> Drive p dl) -> reading K l = Some qs ->
  lib_step (lib K) l = Some (Fine w) -> forall p h, handles (lib K) !! p = Some h -> qs !! p = plugs K !! p.
Proof.
  intros Hl Hr Hs p h Hp. destruct l as [cb [] place|c env|k i|k place|p' dl|p'|sp]; cbn in Hr; try (by injection Hr as <-).
  - injection Hr as <-. apply lookup_delete_ne. intros ->. cbn in Hs. unfold vacant in Hs. by rewrite Hp in Hs.
  - by destruct (Hl p' dl).
Qed.

Lemma drive_plugs K p dl qs : reading K (Drive p dl) = Some qs -> forall p', p' <> p -> qs !! p' = plugs K !! p'.
Proof.
  cbn -[bool_decide]. intros Hr p' Hne. destruct (handles (lib K) !! p) as [h|]; cbn -[bool_decide] in Hr; [|done].
  assert (Hq : forall q, (<[p := q]> (plugs K)) !! p' = plugs K !! p') by (intros q; by apply lookup_insert_ne).
  destruct (dpc (supervisor h)), dl as [r| | | | | | | |[| | |s]|w|s|s| | |early]; try done; try (by injection Hr as <-).
  all: destruct (plugs K !! p) as [q|]; cbn -[bool_decide] in Hr; [|done].
  all: repeat match type of Hr with
       | context [next_line ?a ?b ≫= _] => destruct (next_line a b); cbn in Hr; [|done]
       | context [if ?x then _ else _] => destruct x; [|done]
       end; injection Hr as <-; apply Hq.
Qed.


Lemma true_sups K us : true_stack K -> extends (sups K) us -> (forall n u, us !! n = Some u -> genuine u) ->
  true_stack (set_sups us K).
Proof.
  intros [Hs Hpl Hw] He Hg. constructor; [done|done|]. intros p h Hp Hc. destruct (Hw p h Hp Hc) as [H1 H2]. split; [by eapply honest_extends|done].
Qed.

Lemma true_step K a K' : true_stack K -> stack_step K a = Some K' -> true_stack K'.
Proof using core_path_utf8.
  intros HK. destruct a as [|n l|l|p n c s]; cbn [stack_step].
  - intros [= <-]. apply true_sups; [done| |].
    + intros n u Hn. exists u. split; [by apply lookup_app_l_Some|done].
    + intros n u [Hn|[_ Hn]]%lookup_app_Some; [by eapply ts_sups|]. apply list_lookup_singleton_Some in Hn as [_ <-]. done.
  - destruct (sups K !! n) as [u|] eqn:Hn; cbn; [|done].
    destruct (Supervisor.step config auth (now_ u) l) as [s|] eqn:Hs; cbn; [|done]. intros [= <-].
    pose proof (ts_sups K HK n u Hn) as Hg. pose proof (lookup_lt_Some _ _ _ Hn) as Hlt.
    apply true_sups; [done| |].
    + intros m v Hm. destruct (decide (n = m)) as [<-|Hne].
      * rewrite Hn in Hm. injection Hm as <-. eexists. rewrite list_lookup_insert_eq by done. split; [done|].
        unfold history. cbn. rewrite (facts_snoc _ _ _ _ _ Hg Hs). intros f Hf. apply elem_of_app. by left.
      * exists v. by rewrite list_lookup_insert_ne.
    + intros m v. rewrite list_lookup_insert_Some. intros [(<- & <- & _)|[_ Hm]]; [|by eapply ts_sups].
      by eapply run_snoc.
  - destruct (reading K l) as [qs|] eqn:Hr; cbn; [|done]. intros Hl.
    eapply true_lib; [done| |exact Hl]. intros w Hs.
    assert (Hd : (exists p dl, l = Drive p dl) \/ forall p dl, l <> Drive p dl) by (destruct l; eauto; by right).
    destruct Hd as [(p & dl & ->)|Hd].
    + eapply honest_driven; [by apply HK| |by eapply drive_plugs|exact Hs].
      intros h d Hp Hd _. by eapply reading_sound.
    + eapply honest_lib; [by apply HK|by apply HK|done| |exact Hs]. by eapply reading_plugs.
  - set (q := {| with_ := n; on_ := c; lines_read := 0; part := ""; torn := cut_short (plugs K) p |}).
    destruct (next_line K q) as [next|] eqn:Hn; cbn -[q]; [|done].
    assert (Hgo : forall q', (forall h d, handles (lib K) !! p = Some h ->
        driver_step (Ffi.config ET_SUPERVISOR_SOCKET) (supervisor h) (DAttempt (HLine s)) = Some d ->
        whole (sups K) (<[p := q']> (plugs K)) p (set_supervisor d h)) ->
      lib_move (Drive p (DAttempt (HLine s))) (<[p := q']> (plugs K)) K = Some K' -> true_stack K').
    { intros q' Hw Hl. eapply true_lib; [done| |exact Hl]. intros w Hs.
      eapply honest_driven; [by apply HK| | |exact Hs].
      - intros h d Hp Hd _. by eapply Hw.
      - intros p' Hne. by apply lookup_insert_ne. }
    destruct (String.eqb_spec s next) as [->|Hne].
    + apply Hgo. intros h d Hp Hd. by destruct (dialled K p n c next next h d HK Hp Hd Hn) as [H1 _]; apply H1.
    + destruct (String.eqb_spec s "") as [|Hs]; [done|]. destruct (starts_with s next); [|done].
      apply Hgo. intros h d Hp Hd. by destruct (dialled K p n c s next h d HK Hp Hd Hn) as [_ H2]; apply H2.
Qed.

Lemma true_run acts : forall K K', true_stack K -> stack_run K acts = Some K' -> true_stack K'.
Proof using core_path_utf8.
  induction acts as [|a acts IH]; intros K K' HK; cbn; [by intros [= <-]|].
  destruct (stack_step K a) as [K1|] eqn:Ha; [|done]. apply IH. by eapply true_step.
Qed.

Lemma true_init : true_stack stack_init.
Proof. by constructor; [|constructor|]. Qed.

(** ** Properties *)


(** C9: [etb_connect] returns NULL only when there is a core: the reply to this
    call's own start request named a pid and a port, a supervisor spawned a process
    with this pid, whose command line is that of the core of the supervisor's
    configuration on this port, the portal accepted the configuration of the given
    text as a request of this call, and it is the session's instance.  As for C8,
    of a session none of whose reads was cut short. *)
Theorem connect_means_a_core acts K p h k toml pc i h' : stack_run stack_init acts = Some K ->
  handles (lib K) !! p = Some h ->
  threads (lib K) !! k = Some {| call := Connect (Some p) toml; activity := Running pc |} ->
  thread_step k h pc i = Some (h', Ret (OStr None)) -> cut_short (plugs K) p = false ->
  exists info id q n u j pr, told_start k h info /\ instance_id h' = Some id /\ In (RunInstance k q id) (rpcs h') /\
    (exists text cfg, toml = Some text /\ loads new_from_str get_id new_from_config text id cfg) /\
    sups K !! n = Some u /\ Supervisor.procs (now_ u) !! j = Some pr /\ Supervisor.ours pr = true /\
    Supervisor.ppid pr = si_pid info /\ Supervisor.cmdline pr = core_line config (si_rpc_port info).
Proof using core_path_utf8.
  intros Hr Hp Hk Hs Hcut. pose proof (true_run acts _ _ true_init Hr) as HK.
  assert (Hpc : exists id, pc = CnStore id /\ h' = set_instance (Some id) h).
  { destruct (s_threads _ _ (played_sound _ _ _ _ _ _ _ _ _ (ts_played K HK)) _ _ Hk) as [Hb _]. cbn in Hb.
    unfold Ffi.thread_step, go, answered, started, parse_config, next_attempt, option_map, error_out in Hs.
    destruct i, pc; try done; repeat case_match; simplify_eq/=; eauto. }
  destruct Hpc as (id & -> & ->).
  pose proof (k_threads _ _ _ _ (played_kept _ _ _ _ _ _ _ _ _ (ts_played K HK)) _ _ _ _ _ Hk eq_refl Hp eq_refl) as Hpr.
  destruct toml as [toml|]; [|done]. destruct Hpr as ((cfg & Hcfg) & (info & Hi) & q & Hq).
  destruct (ts_lib K HK p h Hp Hcut) as [Hh _].
  destruct (start_true _ _ info Hh) as (n & u & Hn & j & Hj); [by exists k|].
  destruct (genuine_causes u (ts_sups K HK n u Hn)) as [_ Hreal].
  destruct (Hreal j _ _ Hj) as (pr & Hpr & Ho & Hpid & Hc). exists info, id, q, n, u, j, pr.
  split_and!; try done. by exists toml, cfg.
Qed.

End Stack.

(** ** An example *)

#[local] Existing Instance Sample.crate.

Import Schedules.Schedule.

Definition sup_acts (n : nat) (ls : list Supervisor.Label) : list Act := map (Sup n) ls.
Definition lib_acts (ls : list Bridge.Label) : list Act := map Lib ls.

(** A supervisor is launched and [etb_connect] makes it start a core, up to the step
    that stores the instance. *)
Definition connects_a_core : list Act :=
  [Launch] ++ sup_acts 0 (connects 0 false ++ greeted 0) ++
  [Lib (Init true true 0); Dial 0 0 0 hello_line] ++
  lib_acts [Enter (Connect (Some 0) (Some "x")) Sample.env; Step 0 go_on; Drive 0 (DRequest WOk)] ++
  sup_acts 0 (spawns 0 4321 ++ Schedules.Schedule.started 0) ++
  lib_acts [Drive 0 (DLine (reply_line started_reply)); Step 0 go_on; Step 0 go_on; Step 0 go_on;
            Step 0 (IPortal Sample.portal); Forward 0; Forward 0].

(** The supervisor is lost, another one is launched, and the session goes on. *)
Definition survives_a_restart : list Act :=
  connects_a_core ++ lib_acts [Step 0 go_on; Drive 0 DReadError] ++
  [Launch] ++ sup_acts 1 (connects 0 false ++ greeted 0) ++
  [Lib (Drive 0 (DWake false)); Dial 0 1 0 hello_line; Lib (Forward 0); Lib (Forward 0)].

Abbreviation sample_run := (stack_run (C := Sample.crate) the_config the_auth JFloat None "/src"
  (fun t => @Ok string string t) (fun _ => "id") (fun t => @Ok string string t) (fun _ => Ok tt) stack_init).

Definition with_core : Stack := default stack_init (sample_run connects_a_core).
Definition restarted : Stack := default stack_init (sample_run survives_a_restart).
Definition session_of (K : Stack (LibConfig := string)) : EtbHandle :=
  default (new_handle None true) (handles (lib K) !! 0).

(** An [etb_disconnect] comes between the two pieces of the reply to the start: the
    reply reaches nobody. *)
Definition cut_in_two : list Act :=
  firstn (length connects_a_core - 7) connects_a_core ++
  lib_acts [Drive 0 (DBytes half1); Enter (Disconnect (Some 0)) Sample.env; Step 1 go_on; Step 1 go_on;
            Drive 0 (DRequest WOk); Drive 0 (DLine half2)].

Example cut_in_two_loses : exists K, sample_run cut_in_two = Some K /\ cut_short (plugs K) 0 = true /\
  answers (supervisor (session_of K)) = [(1, Failed "another request is already in flight")].
Proof. eexists. split; [vm_compute; reflexivity|]. by vm_compute. Qed.


Lemma connect_means_a_core_witness : exists info n u j pr,
  told_start 0 (session_of with_core) info /\ sups with_core !! n = Some u /\
  Supervisor.procs (now_ u) !! j = Some pr /\ Supervisor.ppid pr = si_pid info /\
  Supervisor.cmdline pr = core_line the_config (si_rpc_port info).
Proof.
  assert (Hr : sample_run connects_a_core = Some with_core) by (vm_compute; reflexivity).
  assert (Hp : handles (lib with_core) !! 0 = Some (session_of with_core)) by (vm_compute; reflexivity).
  assert (Hcut : cut_short (plugs with_core) 0 = false) by (vm_compute; reflexivity).
  assert (Hk : threads (lib with_core) !! 0 =
    Some {| call := Connect (Some 0) (Some "x"); activity := Running (CnStore "id") |}) by (vm_compute; reflexivity).
  assert (Hu : utf8_valid (Config.core_path the_config) = true) by (vm_compute; reflexivity).
  destruct (connect_means_a_core (C := Sample.crate) the_config the_auth JFloat None "/src" (fun t => @Ok string string t)
    (fun _ => "id") (fun t => @Ok string string t) (fun _ => Ok tt) Hu connects_a_core with_core 0
    (session_of with_core) 0 (Some "x") (CnStore "id") go_on (set_instance (Some "id") (session_of with_core))
    Hr Hp Hk eq_refl Hcut) as (info & id & q & n & u & j & pr & H1 & _ & _ & _ & H2 & H3 & _ & H4 & H5).
  exists info, n, u, j, pr. split; [exact H1|]. split; [exact H2|]. split; [exact H3|]. split; [exact H4|exact H5].
Defined.
