(* ===== verification/FfiRaces.v ===== *)
(** * Schedules of the C interface that do not end as meant *)

From Stdlib Require Import ZArith Lia Ascii String.
From stdpp Require Import base list strings gmap sets.
From S2P Require Import Prelude RustStr Json JsonText ClientProto SupervisorClient ClientInv Ffi Bridge FfiMemory FfiInv.
From S2P Require Rpc Proto CoreProc Server.
Import ClientProto SupervisorClient.

Open Scope string_scope.

(** ** A full command channel *)

Section Blocked.
Context {SJ : SerdeJson} {C : Rpc.Crate} (ser_f64 : Rpc.f64 -> json).
Context (ET_SUPERVISOR_SOCKET : option string) (CARGO_MANIFEST_DIR : string).
Context {Loader Config : Type}.
Context (new_from_str : string -> result Loader string) (get_id : Loader -> string).
Context (new_from_config : Loader -> result Config string).
Context (parse_table : string -> result unit string).

Notation Pc := (Pc (Config := Config)).
Notation World := (World (Config := Config)).
Notation enter := (enter CARGO_MANIFEST_DIR new_from_str new_from_config parse_table).
Notation thread_step :=
  (thread_step ser_f64 ET_SUPERVISOR_SOCKET new_from_str get_id new_from_config parse_table).
Notation step := (Bridge.step ser_f64 ET_SUPERVISOR_SOCKET CARGO_MANIFEST_DIR new_from_str get_id
  new_from_config parse_table).

Fixpoint run (ls : list Label) (w : World) : option World :=
  match ls with
  | [] => Some w
  | l :: ls => match step w l with Some (Fine w') => run ls w' | _ => None end
  end.

(** The driver waits for a takeover, and the channel is full. *)
Definition stuffed (d : Driver) : Prop :=
  dpc d = DPaused /\ (CHANNEL <= length (queue d))%nat /\
  takeover_permit d = false /\ shutdown_permit d = false.

(** The points from which a call wakes the driver, or drops it. *)
Definition stirring (pc : Pc) : bool :=
  match pc with TkNotify | SdNotify | SdAwait | SdDrop => true | _ => false end.

Definition stirs (l : Label) : bool :=
  match l with Enter (Takeover _ | Shutdown _) _ => true | Step _ (IPanic _) => true | _ => false end.

Definition waits (w : World) (p k : nat) (t : option string) (toml : string) : Prop :=
  (exists h, handles w !! p = Some h /\ stuffed (supervisor h)) /\
  (forall k' c pc, threads w !! k' = Some {| call := c; activity := Running pc |} -> stirring pc = false) /\
  threads w !! k = Some {| call := Connect (Some p) t; activity := Running (CnStart toml) |}.

Lemma stuffed_issue config d r : stuffed d -> driver_step config d (DIssue r) = None.
Proof. intros (Hp & Hq & _). unfold driver_step. rewrite Hp. by apply Nat.ltb_ge in Hq as ->. Qed.

Lemma stuffed_driver config d l : stuffed d -> by_driver l = true -> driver_step config d l = None.
Proof.
  intros (Hp & _ & Ht & Hs). unfold driver_step. rewrite Hp, Ht, Hs. by destruct l.
Qed.

(** No call gets past the driver ... *)
Lemma stuffed_thread k h pc i h' pc' : stuffed (supervisor h) -> stirring pc = false ->
  thread_step k h pc i = Some (h', pc') -> match i with IPanic _ => False | _ => True end ->
  supervisor h' = supervisor h /\ stirring pc' = false.
Proof.
  intros Hh Hpc Hs Hi. unfold Ffi.thread_step, go, answered, send_request, option_map, started, parse_config,
    next_attempt in Hs.
  destruct i, pc; try done; rewrite ?stuffed_issue in Hs by done; repeat case_match; by simplify_eq.
Qed.

Lemma calm_thread k h pc i h' pc' : stirring pc = false -> thread_step k h pc i = Some (h', pc') ->
  match i with IPanic _ => False | _ => True end -> stirring pc' = false.
Proof.
  intros Hpc Hs Hi. unfold Ffi.thread_step, go, answered, option_map, started, parse_config, next_attempt in Hs.
  destruct i, pc; try done; repeat case_match; by simplify_eq.
Qed.

Lemma enter_calm env c : stirs (Enter c env) = false -> stirring (enter env c) = false.
Proof.
  destruct c; try done; intros _; cbn; unfold etb_connect, etb_disconnect, etb_status, etb_supervisor_status;
    by repeat case_match.
Qed.

Lemma waits_handles w p k t toml hs : waits w p k t toml ->
  (exists h, hs !! p = Some h /\ stuffed (supervisor h)) -> waits (set_handles hs w) p k t toml.
Proof. intros (_ & Hc & Hk) Hh. by split. Qed.

Lemma waits_other w p k t toml q h : waits w p k t toml -> q <> p ->
  waits (set_handles (<[q := h]> (handles w)) w) p k t toml.
Proof.
  intros Hw Hne. apply waits_handles; [done|]. rewrite lookup_insert_ne by done. apply Hw.
Qed.

Lemma waits_activity w p k t toml k' c a a' : waits w p k t toml -> k' <> k ->
  threads w !! k' = Some {| call := c; activity := a |} ->
  match a' with Running pc => stirring pc = false | Returned _ => True end ->
  waits (set_activity k' c a' w) p k t toml.
Proof.
  intros (Hh & Hcalm & Hk) Hne Hk' Ha. split; [done|]. split; cbn.
  - intros k1 c1 pc1. destruct (decide (k' = k1)) as [<-|].
    + rewrite list_lookup_insert_eq by (by eapply lookup_lt_Some). intros [= <- ->]. exact Ha.
    + rewrite list_lookup_insert_ne by done. apply Hcalm.
  - by rewrite list_lookup_insert_ne.
Qed.

Lemma waits_begin w p k t toml c env w' : waits w p k t toml -> stirs (Enter c env) = false ->
  begin CARGO_MANIFEST_DIR new_from_str new_from_config parse_table w c env = Fine w' -> waits w' p k t toml.
Proof.
  intros (Hh & Hcalm & Hk) Hl Hb. assert (w' = began w c (enter env c)) as ->.
  { unfold begin in Hb. by repeat case_match; simplify_eq. }
  split; [done|]. split.
  - intros k1 c1 pc1 [H|[_ H]]%began_thread; [by eapply Hcalm|]. injection H as -> ->. by apply enter_calm.
  - cbn. by apply lookup_app_l_Some.
Qed.

(** ... and the call that waits stays where it is. *)
Lemma waits_call w p k t toml k' c pc i w' : waits w p k t toml -> stirs (Step k' i) = false ->
  threads w !! k' = Some {| call := c; activity := Running pc |} ->
  call_step ser_f64 ET_SUPERVISOR_SOCKET new_from_str get_id new_from_config parse_table w k' c pc i
    = Some (Fine w') -> waits w' p k t toml.
Proof.
  intros Hw Hl Hk'. pose proof Hw as ((h & Hp & Hh) & Hcalm & Hk). pose proof (Hcalm _ _ _ Hk') as Hpc.
  assert (Hi : match i with IPanic _ => False | _ => True end) by (by destruct i).
  unfold call_step. destruct (decide (k' = k)) as [->|Hne].
  { rewrite Hk in Hk'. injection Hk' as <- <-. cbn [handle_of]. rewrite Hp.
    destruct i; try done. unfold Ffi.thread_step, go, send_request, option_map. by rewrite stuffed_issue. }
  assert (Hact : forall pc', stirring pc' = false -> waits (set_activity k' c (Running pc') w) p k t toml).
  { intros pc' Hpc'. by eapply waits_activity. }
  destruct (handle_of c) as [q|]; [destruct (handles w !! q) as [h1|] eqn:Hq|].
  - assert (Hgo : forall o, option_map (fun '(h', pc') =>
      Fine (set_handles (<[q := h']> (handles w)) (set_activity k' c (Running pc') w))) (thread_step k' h1 pc i)
      = Some (Fine o) -> waits o p k t toml).
    { intros o. destruct (thread_step k' h1 pc i) as [[h' pc']|] eqn:Hst; [|done]. intros [= <-].
      change (waits (set_activity k' c (Running pc') (set_handles (<[q := h']> (handles w)) w)) p k t toml).
      destruct (decide (q = p)) as [->|Hqp].
      - rewrite Hp in Hq. injection Hq as <-.
        destruct (stuffed_thread _ _ _ _ _ _ Hh Hpc Hst Hi) as [Hsup Hpc'].
        eapply waits_activity; [|done|exact Hk'|done]. apply waits_handles; [done|].
        exists h'. by rewrite lookup_insert_eq, Hsup.
      - eapply waits_activity; [by apply waits_other|done|exact Hk'|]. by eapply calm_thread. }
    destruct pc; try done; exact (Hgo w').
  - by destruct pc.
  - unfold helper_step, option_map. destruct pc; try done; destruct i; try done; intros [= <-]; by apply Hact.
Qed.

Lemma waits_step w p k t toml l w' : waits w p k t toml -> stirs l = false -> step w l = Some (Fine w') ->
  waits w' p k t toml.
Proof.
  intros Hw Hl Hs. pose proof Hw as ((h & Hp & Hh) & Hcalm & Hk).
  destruct l as [cb built place|c env|k' i|k' place|q l|q|[q|]]; cbn [Bridge.step] in Hs.
  - unfold init, etb_init in Hs. destruct built; [|by simplify_eq]. destruct (vacant w place) eqn:Hv; [|done].
    injection Hs as <-. apply waits_other; [done|]. intros ->. apply vacant_dom in Hv as [Hv _].
    apply not_elem_of_dom in Hv. congruence.
  - injection Hs as Hs. by eapply waits_begin.
  - destruct (threads w !! k') as [[c [pc|r]]|] eqn:Hk'; [|done..]. by eapply waits_call.
  - destruct (threads w !! k') as [[c [pc|r]]|] eqn:Hk'; [|done..].
    destruct pc as [| | | | | | | | | | | | | | | | | | | | | | | |o]; try done.
    assert (Hne : k' <> k) by congruence.
    assert (Hact : forall r, waits (set_activity k' c (Returned r) w) p k t toml).
    { intros r. by eapply waits_activity. }
    unfold return_ in Hs. repeat case_match; simplify_eq; by apply Hact.
  - unfold task_step in Hs. destruct (handles w !! q) as [h1|] eqn:Hq; [|done].
    unfold run_driver in Hs. destruct (by_driver l) eqn:Hby; [|done].
    destruct (decide (q = p)) as [->|Hqp].
    + rewrite Hp in Hq. injection Hq as <-. by rewrite stuffed_driver in Hs.
    + unfold option_map in Hs. repeat case_match; simplify_eq. by apply waits_other.
  - unfold task_step in Hs. destruct (handles w !! q) as [h1|] eqn:Hq; [|done].
    destruct (forward_events h1) as [h'|] eqn:Hf; [|done]. injection Hs as <-.
    destruct (decide (q = p)) as [->|Hqp]; [|by apply waits_other].
    rewrite Hp in Hq. injection Hq as <-. apply waits_handles; [done|]. exists h'.
    rewrite lookup_insert_eq. split; [done|]. unfold forward_events, sink_emit in Hf.
    by repeat case_match; simplify_eq.
  - unfold etb_free_string in Hs. by repeat case_match; simplify_eq.
  - by injection Hs as <-.
Qed.

Lemma calm_intro (w : World) :
  forallb (fun t => match activity t with Running pc => negb (stirring pc) | Returned _ => true end) (threads w) = true ->
  forall k c pc, threads w !! k = Some {| call := c; activity := Running pc |} -> stirring pc = false.
Proof.
  intros Hf k c pc Hk. rewrite forallb_forall in Hf. apply list_elem_of_lookup_2, list_elem_of_In in Hk.
  apply Hf in Hk. by apply negb_true_iff in Hk.
Qed.

(** C39: the wait for room in the command channel has no timeout.  Once a paused
    driver has a full channel, a further [etb_connect] does not come back, and is
    given no error, for as long as nobody calls [etb_takeover] or [etb_shutdown],
    however many other calls are made and whatever the tasks do. *)
Theorem full_channel_blocks w p k t toml ls w' : waits w p k t toml ->
  Forall (fun l => stirs l = false) ls -> run ls w = Some w' ->
  threads w' !! k = Some {| call := Connect (Some p) t; activity := Running (CnStart toml) |}.
Proof.
  revert w. induction ls as [|l ls IH]; intros w Hw Hls; cbn [run].
  - intros [= <-]. apply Hw.
  - inversion Hls as [|? ? Hl Hls']; subst. destruct (step w l) as [[w1|]|] eqn:Hs; [|done..].
    apply IH; [|done]. by eapply waits_step.
Qed.

End Blocked.

(** ** Runs *)

#[local] Existing Instance Sample.crate.

(** Each of [n] calls of [etb_connect] times out and returns its error. *)
Definition timed_out_calls (n : nat) : list Label :=
  flat_map (fun k => [Enter (Connect (Some 0) (Some "x")) Sample.env; Step k go_on; Step k ITimeout;
                      Return k (100 + k)]) (seq 0 n).

Definition blocked_schedule : list Label :=
  [Init true true 0; Drive 0 (DAttempt (HLine busy_line))] ++ timed_out_calls 16 ++
  [Enter (Connect (Some 0) (Some "x")) Sample.env].

Definition blocked_world : Sample.world := default nothing (option_map fst (play_sample blocked_schedule)).
Definition run_sample : list Label -> Sample.world -> option Sample.world :=
  run JFloat None "/src" (fun t => @Ok string string t) (fun _ => "id") (fun t => @Ok string string t) (fun _ => Ok tt).

(** Another call and the tasks, meanwhile. *)
Definition meanwhile : list Label :=
  [Enter (SupervisorStatus (Some 0)) Sample.env; Step 17 go_on; Step 17 go_on; Return 17 200; Forward 0].
Definition still_blocked : Sample.world := default nothing (run_sample meanwhile blocked_world).

Lemma full_channel_blocks_witness :
  match play_sample blocked_schedule with Some _ => True | None => False end /\
  threads still_blocked !! 16 =
    Some {| call := Connect (Some 0) (Some "x"); activity := Running (CnStart "x") |}.
Proof.
  split; [vm_compute; exact I|].
  apply (@full_channel_blocks _ Sample.crate JFloat None "/src" string string (fun t => Ok t) (fun _ => "id")
    (fun t => Ok t) (fun _ => Ok tt) blocked_world 0 16 (Some "x") "x" meanwhile still_blocked).
  - split; [|split].
    + exists (default (new_handle None true) (handles blocked_world !! 0)).
      split; [vm_compute; reflexivity|]. split_and!; vm_compute; [reflexivity|lia|reflexivity|reflexivity].
    + apply calm_intro. vm_compute. reflexivity.
    + vm_compute. reflexivity.
  - repeat (constructor; [reflexivity|]). constructor.
  - vm_compute. reflexivity.
Defined.

(** The disconnection overlaps the end of a connection. *)
Definition overlapping : list Label :=
  connecting ++
  [Enter (Disconnect (Some 0)) Sample.env; Step 1 go_on; Step 1 go_on; Drive 0 (DRequest WOk);
   Drive 0 (DLine (reply_line (Server.stop_reply true))); Forward 0; Step 1 go_on; Step 1 go_on; Return 1 0;
   Step 0 go_on; Return 0 0].

(** The calls on a handle are not serialised: an [etb_disconnect] that runs while
    [etb_connect] is about to store its instance finds none to delete, stops the
    core and returns NULL; [etb_connect] then stores the instance and returns NULL
    too.  Both have succeeded, the core is stopped, and the session counts as
    connected. *)
Theorem overlapping_calls : exists w g h, play_sample overlapping = Some (w, g) /\
  threads w = [{| call := Connect (Some 0) (Some "x"); activity := Returned None |};
               {| call := Disconnect (Some 0); activity := Returned None |}] /\
  handles w !! 0 = Some h /\ instance_id h = Some "id" /\ port h = None /\
  rpcs h = [RunInstance 0 50321 "id"] /\
  last (events (supervisor h)) = Some (SupervisorEvent.CoreStopped "requested").
Proof. do 3 eexists. split; [vm_compute; reflexivity|]. split_and!; vm_compute; reflexivity. Qed.

(** The core exits between the reply to [start] and the call that waits for it. *)
Definition exited_early : list Label :=
  firstn 6 connecting ++
  [Drive 0 (DLine (reply_line (Proto.Event.CoreExited (Some 1%Z) None))); Forward 0; Forward 0; Forward 0;
   Step 0 go_on; Step 0 go_on].

(** [etb_connect] sets the port it was answered although the exit of that core has
    been forwarded meanwhile: the session has the port of a core that is gone. *)
Theorem port_after_exit : exists w g h, play_sample exited_early = Some (w, g) /\
  handles w !! 0 = Some h /\ port h = Some 50321%Z /\ told h = None /\
  forwarded h = length (events (supervisor h)).
Proof. do 3 eexists. split; [vm_compute; reflexivity|]. split_and!; vm_compute; reflexivity. Qed.

(** A session that loses its supervisor and finds a new one, without a core. *)
Definition reconnected (running stopped : string) : list Label :=
  [Init true true 0; Drive 0 (DAttempt (HLine running)); Drive 0 DEof; Drive 0 (DWake false);
   Drive 0 (DAttempt (HLine stopped)); Forward 0; Forward 0; Forward 0].

Definition running_line : string :=
  Proto.encode_event (Server.hello_event Proto.CoreState.Running (Some 50321%Z)).

(** A reconnection to a supervisor without a core does not clear the port of
    the previous one: the status then says that the core is running, with a port
    nobody listens on. *)
Theorem stale_port_after_reconnect : exists w g h, play_sample (reconnected running_line hello_line) = Some (w, g) /\
  handles w !! 0 = Some h /\ forwarded h = length (events (supervisor h)) /\
  last (events (supervisor h)) = Some (SupervisorEvent.Connected "0.1.0" CoreState.Stopped None) /\
  thread_step JFloat None (fun t => @Ok string string t) (fun _ => "id") (fun t => @Ok string string t) (fun _ => Ok tt)
    7 h (SsConnected (port h)) go_on =
    Some (h, Ret (json_out [("connected", JBool true); ("core_running", JBool true);
                            ("rpc_port", JInt 50321); ("installed", JBool true)])).
Proof. do 3 eexists. split; [vm_compute; reflexivity|]. split_and!; vm_compute; reflexivity. Qed.

(** A request that timed out stays in the channel: after the user has taken the
    lease over, the core is started for a call that has long returned an error. *)
Definition late_start : list Label :=
  [Init true true 0; Drive 0 (DAttempt (HLine busy_line))] ++ timed_out_calls 1 ++
  [Enter (Takeover (Some 0)) Sample.env; Step 1 go_on; Return 1 0; Drive 0 (DAttempt (HLine hello_line));
   Drive 0 (DRequest WOk)].

Theorem timed_out_start_still_sent : exists w g h, play_sample late_start = Some (w, g) /\
  handles w !! 0 = Some h /\ threads w = [{| call := Connect (Some 0) (Some "x"); activity := Returned (Some 100) |};
                                          {| call := Takeover (Some 0); activity := Returned None |}] /\
  strings w !! 100 = Some "supervisor request timed out" /\
  last (sent (supervisor h)) = Some Cmd.Start.
Proof. do 3 eexists. split; [vm_compute; reflexivity|]. split_and!; vm_compute; reflexivity. Qed.
