(* ===== verification/UnitTests.v ===== *)
(** * The unit tests of the crates, run on the model

    One definition for each [#[test]] whose assertions are about code of the
    repository, and the theorem that all of them hold.  JSON is the text of
    [JsonText]; a literal with double quotes is written with single ones and
    [quotes].  Left out are the tests of what the [toml] and [easytier] crates do
    with a configuration. *)

From Stdlib Require Import ZArith Lia Ascii String.
From stdpp Require Import base list strings gmap.
From S2P Require Import Prelude RustStr Json JsonText.
From S2P Require Auth Config Hooks Proto ClientProto Server Janitor SupervisorClient Install Conflict Rpc Ffi Bridge.

Open Scope string_scope.

Notation "a ==? b" := (bool_decide (a = b)) (at level 70).

Definition quotes (s : string) : string := Install.replace_char "'" (String Install.dquote "") s.

(** [str::contains]. *)
Fixpoint contains (pat s : string) : bool :=
  starts_with pat s || match s with String _ s' => contains pat s' | "" => false end.

(** [unwrap_err], on a text. *)
Definition fails_with {A} (r : result A string) (pat : string) : bool :=
  match r with Err e => contains pat e | Ok _ => false end.

(** ** [supervisor/src/auth.rs] *)

Module AuthTests.
Import Auth.
Definition launchd_allows_root_and_owner_only : bool :=
  let m := Launchd 501 in allows m 0 && allows m 501 && negb (allows m 502).
Definition dev_allows_only_self : bool :=
  let m := Dev 501 in allows m 501 && negb (allows m 0) && negb (allows m 502).
Definition all : list bool := [launchd_allows_root_and_owner_only; dev_allows_only_self].
End AuthTests.

(** ** [supervisor/src/config.rs] *)

Module ConfigTests.
Import Config.
(** Octal 644, 664 and 646. *)
Definition secure_ownership_predicate : bool :=
  is_ok (check_secure_ownership true 0 420) && negb (is_ok (check_secure_ownership false 0 420)) &&
  negb (is_ok (check_secure_ownership true 501 420)) &&
  negb (is_ok (check_secure_ownership true 0 436)) && negb (is_ok (check_secure_ownership true 0 422)).
Definition all : list bool := [secure_ownership_predicate].
End ConfigTests.

(** ** [supervisor/src/proto.rs] *)

Module ProtoTests.
Import Proto.
Definition decode_hello_with_takeover : bool :=
  decode_cmd (quotes "{'cmd':'hello','proto':1,'takeover':true}") ==? Ok (Cmd.Hello 1 true).
Definition decode_hello_defaults_takeover_false : bool :=
  decode_cmd (quotes "{'cmd':'hello','proto':1}") ==? Ok (Cmd.Hello 1 false).
Definition decode_unit_variants : bool :=
  (decode_cmd (quotes "{'cmd':'start'}") ==? Ok Cmd.Start) &&
  (decode_cmd (quotes "{'cmd':'status'}") ==? Ok Cmd.Status) &&
  (decode_cmd (quotes "{'cmd':'stop'}") ==? Ok Cmd.Stop).
Definition decode_tolerates_surrounding_whitespace : bool :=
  decode_cmd (quotes "  {'cmd':'stop'}  " ++ nl) ==? Ok Cmd.Stop.
Definition decode_rejects_unknown_cmd : bool := negb (is_ok (decode_cmd (quotes "{'cmd':'frobnicate'}"))).
Definition encode_hello_event_shape : bool :=
  encode_event (Event.Hello 1 "0.1.0" CoreState.Stopped None)
  ==? quotes "{'event':'hello','proto':1,'version':'0.1.0','core':'stopped','rpc_port':null}" ++ nl.
Definition encode_core_started_shape : bool :=
  encode_event (Event.CoreStarted 12345 50321)
  ==? quotes "{'event':'core_started','pid':12345,'rpc_port':50321}" ++ nl.
Definition encode_status_running_shape : bool :=
  encode_event (Event.Status CoreState.Running (Some 12345%Z) (Some 50321%Z))
  ==? quotes "{'event':'status','core':'running','pid':12345,'rpc_port':50321}" ++ nl.
Definition encode_busy_and_kicked_shape : bool :=
  (encode_event (Event.Busy true) ==? quotes "{'event':'busy','owner':true}" ++ nl) &&
  (encode_event Event.Kicked ==? quotes "{'event':'kicked'}" ++ nl).
Definition encode_core_exited_shape : bool :=
  encode_event (Event.CoreExited None (Some 9%Z))
  ==? quotes "{'event':'core_exited','code':null,'signal':9}" ++ nl.
Definition event_round_trips_through_a_line : bool :=
  let line := encode_event (Event.CoreStopped "requested") in
  ends_with nl line && (length (List.filter (Ascii.eqb "010") (String.list_ascii_of_string line)) =? 1)%nat.
Definition all : list bool :=
  [decode_hello_with_takeover; decode_hello_defaults_takeover_false; decode_unit_variants;
   decode_tolerates_surrounding_whitespace; decode_rejects_unknown_cmd; encode_hello_event_shape;
   encode_core_started_shape; encode_status_running_shape; encode_busy_and_kicked_shape;
   encode_core_exited_shape; event_round_trips_through_a_line].
End ProtoTests.

(** ** [bridge/src/proto.rs] *)

Module ClientProtoTests.
Import ClientProto.
#[local] Instance core_state_eq_dec : EqDecision CoreState.CoreState.
Proof. solve_decision. Defined.
#[local] Instance event_eq_dec : EqDecision Event.Event.
Proof. solve_decision. Defined.
Definition encode_hello_cmd_shape : bool :=
  encode_cmd (Cmd.Hello 1 false) ==? quotes "{'cmd':'hello','proto':1,'takeover':false}" ++ nl.
Definition encode_unit_cmds : bool :=
  (encode_cmd Cmd.Start ==? quotes "{'cmd':'start'}" ++ nl) &&
  (encode_cmd Cmd.Status ==? quotes "{'cmd':'status'}" ++ nl) &&
  (encode_cmd Cmd.Stop ==? quotes "{'cmd':'stop'}" ++ nl).
Definition decode_hello_event : bool :=
  decode_event (quotes "{'event':'hello','proto':1,'version':'0.1.0','core':'stopped','rpc_port':null}")
  ==? Ok (Event.Hello 1 "0.1.0" CoreState.Stopped None).
Definition decode_core_started_and_status : bool :=
  (decode_event (quotes "{'event':'core_started','pid':123,'rpc_port':50321}")
   ==? Ok (Event.CoreStarted 123 50321)) &&
  (decode_event (quotes "{'event':'status','core':'running','pid':123,'rpc_port':50321}")
   ==? Ok (Event.Status CoreState.Running (Some 123%Z) (Some 50321%Z))).
Definition decode_pushes : bool :=
  (decode_event (quotes "{'event':'core_exited','code':null,'signal':9}")
   ==? Ok (Event.CoreExited None (Some 9%Z))) &&
  (decode_event (quotes "{'event':'busy','owner':true}") ==? Ok (Event.Busy true)) &&
  (decode_event (quotes "{'event':'kicked'}") ==? Ok Event.Kicked).
Definition decode_tolerates_whitespace_and_unknown_events : bool :=
  (decode_event (quotes "  {'event':'kicked'}  " ++ nl) ==? Ok Event.Kicked) &&
  (decode_event (quotes "{'event':'future_thing','x':1}") ==? Ok Event.Unknown).
Definition decode_error_event : bool :=
  decode_event (quotes "{'event':'error','code':'not_owner','msg':'nope'}")
  ==? Ok (Event.Error "not_owner" "nope").
Definition all : list bool :=
  [encode_hello_cmd_shape; encode_unit_cmds; decode_hello_event; decode_core_started_and_status;
   decode_pushes; decode_tolerates_whitespace_and_unknown_events; decode_error_event].
End ClientProtoTests.

(** ** [supervisor/src/server.rs] *)

Module ServerTests.
Import Server.
#[local] Instance lease_eq_dec : EqDecision Lease.
Proof. solve_decision. Defined.
(** A reader of the given bytes. *)
Definition reader (data : string) : Stream := {| bytes := data; failure := None |}.
Definition lease_no_owner_accepts : bool :=
  (lease_decision false false ==? Accept) && (lease_decision false true ==? Accept).
Definition lease_with_owner_busy_unless_takeover : bool :=
  (lease_decision true false ==? Busy) && (lease_decision true true ==? Takeover).
Definition read_line_limited_reads_and_trims_to_newline : bool :=
  (read_line_limited (reader (quotes "{'cmd':'stop'}" ++ nl ++ "leftover")) MAX_LINE).1
  ==? Ok (Some (quotes "{'cmd':'stop'}" ++ nl)).
Definition read_line_limited_eof_is_none : bool :=
  (read_line_limited (reader "") MAX_LINE).1 ==? Ok None.
Definition read_line_limited_rejects_overlong_line : bool :=
  match (read_line_limited (reader (string_of_list_ascii (repeat "x"%char 100))) 16).1 with
  | Err e => kind e ==? InvalidData
  | Ok _ => false
  end.
Definition all : list bool :=
  [lease_no_owner_accepts; lease_with_owner_busy_unless_takeover;
   read_line_limited_reads_and_trims_to_newline; read_line_limited_eof_is_none;
   read_line_limited_rejects_overlong_line].
End ServerTests.

(** ** [supervisor/src/janitor.rs] *)

Module JanitorTests.
Import Janitor.
Definition matches_exact_and_with_args : bool :=
  let cp := "/Library/Application Support/EasyTier/bin/easytier-core" in
  argv0_matches cp cp && argv0_matches (cp ++ " --daemon --rpc-portal 127.0.0.1:5000") cp.
Definition does_not_match_sibling_or_substring : bool :=
  let cp := "/tmp/et/easytier-core" in
  negb (argv0_matches "/tmp/et/easytier-core-extra --daemon" cp) &&
  negb (argv0_matches "/usr/bin/easytier-core --daemon" cp) &&
  negb (argv0_matches "/bin/sh /tmp/et/easytier-core --daemon" cp).
Definition all : list bool := [matches_exact_and_with_args; does_not_match_sibling_or_substring].
End JanitorTests.

(** ** [supervisor/src/hooks.rs] *)

Module HookTests.
Import Auth Config Hooks.
Definition facts (is_file : bool) (uid gid mode : Z) : FileFacts :=
  {| is_file := is_file; uid := uid; gid := gid; mode := mode |}.
Definition PROD : AuthMode := Launchd 501.
Definition DEV : AuthMode := Dev 501.
(** Octal 755 and 700. *)
Definition prod_accepts_root_wheel_executable : bool :=
  is_ok (check_hook_security (facts true 0 0 493) PROD) && is_ok (check_hook_security (facts true 0 0 448) PROD).
Definition prod_rejects_non_root_owner : bool :=
  fails_with (check_hook_security (facts true 501 0 493) PROD) "owned by root".
Definition prod_rejects_non_wheel_group : bool :=
  fails_with (check_hook_security (facts true 0 20 493) PROD) "gid".
(** Octal 775 and 757. *)
Definition rejects_group_or_world_writable : bool :=
  fails_with (check_hook_security (facts true 0 0 509) PROD) "writable" &&
  fails_with (check_hook_security (facts true 0 0 495) PROD) "writable".
(** Octal 644. *)
Definition rejects_non_executable : bool :=
  fails_with (check_hook_security (facts true 0 0 420) PROD) "executable".
Definition rejects_non_regular_file : bool :=
  fails_with (check_hook_security (facts false 0 0 493) PROD) "regular file".
Definition dev_accepts_process_owner_and_rejects_others : bool :=
  is_ok (check_hook_security (facts true 501 20 493) DEV) &&
  fails_with (check_hook_security (facts true 0 0 493) DEV) "uid 501".
Definition event_and_reason_strings : bool :=
  (event_str Up ==? "up") && (event_str Down ==? "down") &&
  (script_name Up ==? "up.sh") && (script_name Down ==? "down.sh") &&
  (reason_str Requested ==? "requested") && (reason_str OwnerDrop ==? "owner_drop") &&
  (reason_str CoreExited ==? "core_exited") && (reason_str Hooks.Janitor ==? "janitor").
(** The temporary directory holds [logs] and nothing else. *)
Definition missing_script_is_skipped_silently : bool :=
  let root := "/tmp/dir" in
  let lstat := fun path => if path ==? path_join root "logs"
    then Ok {| md_is_file := false; md_uid := 501; md_gid := 20; md_mode := 493 |}
    else Err (IoError NotFound "No such file or directory (os error 2)") in
  let cfg := {| proto := 1; owner_uid := 501; core_path := path_join root "easytier-core";
                log_dir := path_join root "logs"; cfg_hooks_dir := Some (path_join root "hooks");
                hook_timeout_secs := Some 30%Z |} in
  match (run_hook lstat cfg DEV Up None).1 with None => true | Some _ => false end.
Definition hooks_dir_and_timeout_defaults : bool :=
  let cfg := {| proto := 1; owner_uid := 501; core_path := "/opt/et/bin/easytier-core";
                log_dir := "/opt/et/logs"; cfg_hooks_dir := None; hook_timeout_secs := None |} in
  (hooks_dir cfg ==? "/opt/et/hooks") && (hook_timeout cfg =? 30)%Z.
Definition all : list bool :=
  [prod_accepts_root_wheel_executable; prod_rejects_non_root_owner; prod_rejects_non_wheel_group;
   rejects_group_or_world_writable; rejects_non_executable; rejects_non_regular_file;
   dev_accepts_process_owner_and_rejects_others; event_and_reason_strings;
   missing_script_is_skipped_silently; hooks_dir_and_timeout_defaults].
End HookTests.

(** ** [bridge/src/install.rs] and [bridge/src/conflict.rs] *)

Module InstallTests.
Import Install.
Definition shell_quote_wraps_and_escapes_single_quotes : bool :=
  (shell_quote "/a/b c" ==? "'/a/b c'") && (shell_quote "it's" ==? "'it'\''s'").
Definition applescript_escape_order : bool :=
  applescript_escape ("a\b" ++ String dquote "c") ==? "a\\b\" ++ String dquote "c".
Definition all : list bool := [shell_quote_wraps_and_escapes_single_quotes; applescript_escape_order].
End InstallTests.

Module ConflictTests.
Import Conflict.
Definition detects_unmanaged_core_but_not_managed : bool :=
  let c := classify
    ["  501 /Users/me/.bin/easytier-core --daemon";
     "    1 /Library/Application Support/EasyTier/bin/easytier-core --daemon --rpc-portal 127.0.0.1:1"] in
  unmanaged_core c && (length (unmanaged_core_cmds c) =? 1)%nat &&
  forallb (contains "/Users/me/.bin/easytier-core") (firstn 1 (unmanaged_core_cmds c)).
Definition managed_core_alone_is_not_a_conflict : bool :=
  negb (unmanaged_core (classify
    ["    1 /Library/Application Support/EasyTier/bin/easytier-core --daemon"])).
Definition detects_tun_vpn : bool :=
  let c := classify ["  777 /opt/homebrew/bin/mihomo -d /etc/mihomo"] in
  tun_vpn c && (length (tun_vpn_cmds c) =? 1)%nat.
Definition ignores_unrelated_processes : bool :=
  let c := classify ["  123 /usr/sbin/mDNSResponder"] in negb (unmanaged_core c) && negb (tun_vpn c).
Definition all : list bool :=
  [detects_unmanaged_core_but_not_managed; managed_core_alone_is_not_a_conflict; detects_tun_vpn;
   ignores_unrelated_processes].
End ConflictTests.

(** ** [bridge/src/ffi.rs] *)

Module FfiTests.
Import ClientProto SupervisorClient Ffi Bridge.
#[local] Existing Instance Sample.crate.

(** [v[k]] and [v[n]] on a [serde_json::Value]. *)
Definition member (k : string) (v : json) : json :=
  match v with JObj fs => match values k fs with x :: _ => x | [] => JNull end | _ => JNull end.
Definition item (n : nat) (v : json) : json := match v with JArr l => nth n l JNull | _ => JNull end.
(** [assert_eq!] of a value with a text, an integer, a truth value. *)
Definition is_text (v : json) (s : string) : bool := match v with JStr t => t =? s | _ => false end.
Definition is_number (v : json) (n : Z) : bool := match v with JInt m => (m =? n)%Z | _ => false end.
Definition is_bool (v : json) (b : bool) : bool := match v with JBool c => Bool.eqb c b | _ => false end.
Definition is_null (v : json) : bool := match v with JNull => true | _ => false end.

Definition validate_null_is_error_not_crash : bool :=
  match etb_validate (fun t => @Ok string string t) (fun t => @Ok string string t) (fun _ => Ok tt) None with
  | Helper (OStr (Some s)) _ => match from_str s with Some v => is_bool (member "ok" v) false | None => false end
  | _ => false
  end.

Definition free_string_null_is_noop : bool :=
  match etb_free_string (nothing : Sample.world) None with Fine _ => true | UB => false end.

Definition free_string_roundtrip_does_not_leak_or_crash : bool :=
  match etb_free_string (set_strings {[7 := to_cstr "hello bridge"]} (nothing : Sample.world)) (Some 7) with
  | Fine w => bool_decide (strings w = ∅)
  | UB => false
  end.

Definition local_row : Rpc.PeerRow Rpc.f64 := {|
  Rpc.peer_id := 1; Rpc.hostname := "local"; Rpc.ipv4 := "10.0.0.1"; Rpc.cost := "local";
  Rpc.latency_ms := "0.0"; Rpc.loss_rate := "0.0"; Rpc.rx_bytes := 0; Rpc.tx_bytes := 0;
  Rpc.nat_type := "Unknown"; Rpc.version := "0.1.0"; Rpc.is_local := true; Rpc.protos := [] |}.
Definition peer_row : Rpc.PeerRow Rpc.f64 := {|
  Rpc.peer_id := 2; Rpc.hostname := "peer"; Rpc.ipv4 := "10.0.0.2"; Rpc.cost := "direct";
  Rpc.latency_ms := "5.5"; Rpc.loss_rate := "0.0"; Rpc.rx_bytes := 10; Rpc.tx_bytes := 20;
  Rpc.nat_type := "FullCone"; Rpc.version := "0.1.0"; Rpc.is_local := false; Rpc.protos := ["udp"; "tcp"] |}.

Definition status_row_json_shape_includes_protos : bool :=
  let id := "11111111-1111-1111-1111-111111111111" in
  let v := JObj [("ok", status_json JFloat {| Rpc.instance_id := id; Rpc.rows := [local_row; peer_row] |})] in
  let local := item 0 (member "rows" (member "ok" v)) in
  let peer := item 1 (member "rows" (member "ok" v)) in
  is_text (member "instance_id" (member "ok" v)) id && is_bool (member "is_local" local) true &&
  match member "protos" local with JArr [] => true | _ => false end &&
  is_text (member "cost" peer) "direct" &&
  is_text (item 0 (member "protos" peer)) "udp" && is_text (item 1 (member "protos" peer)) "tcp".

Definition event_json_shapes_match_header_schema : bool :=
  let connected := event_to_json (SupervisorEvent.Connected "0.1.0" CoreState.Running (Some 50321%Z)) in
  let started := event_to_json (SupervisorEvent.CoreStarted 4321 50321) in
  let exited := event_to_json (SupervisorEvent.CoreExited None (Some 9%Z)) in
  let stopped := event_to_json (SupervisorEvent.CoreStopped "requested") in
  let busy := event_to_json (SupervisorEvent.Busy true) in
  let err := event_to_json (SupervisorEvent.Error "spawn_failed" "boom") in
  is_text (member "type" connected) "connected" && is_text (member "core" connected) "running" &&
  is_number (member "rpc_port" connected) 50321 && is_text (member "version" connected) "0.1.0" &&
  is_text (member "type" started) "core_started" && is_number (member "pid" started) 4321 &&
  is_number (member "rpc_port" started) 50321 &&
  is_text (member "type" exited) "core_exited" && is_null (member "code" exited) &&
  is_number (member "signal" exited) 9 &&
  is_text (member "type" stopped) "core_stopped" && is_text (member "reason" stopped) "requested" &&
  is_text (member "type" busy) "busy" && is_bool (member "owner" busy) true &&
  is_text (member "type" (event_to_json SupervisorEvent.Kicked)) "kicked" &&
  is_text (member "type" (event_to_json SupervisorEvent.Disconnected)) "disconnected" &&
  is_text (member "type" err) "error" && is_text (member "code" err) "spawn_failed" &&
  is_text (member "msg" err) "boom".

Definition all : list bool :=
  [validate_null_is_error_not_crash; free_string_null_is_noop; free_string_roundtrip_does_not_leak_or_crash;
   status_row_json_shape_includes_protos; event_json_shapes_match_header_schema].
End FfiTests.

(** The model passes the unit tests of both crates. *)
Theorem unit_tests_pass :
  Forall (fun t => t = true)
    (AuthTests.all ++ ConfigTests.all ++ ProtoTests.all ++ ClientProtoTests.all ++ ServerTests.all ++
     JanitorTests.all ++ HookTests.all ++ InstallTests.all ++ ConflictTests.all ++ FfiTests.all).
Proof. vm_compute. repeat constructor. Qed.
