(* ===== verification/IntegrationTests.v ===== *)
(** * The integration tests, run on the model

    [supervisor/tests/integration.rs] and [bridge/tests/dev_supervisor.rs] drive the
    compiled programs over a socket.  Each test is here one schedule of the
    model in development mode with the assertions of the test about it: the lines a
    client receives, the processes, the hooks, the exit code.  A deadline of a test
    is the point of the schedule at which the assertion stands; what a fake core
    does with its signals is in the schedule. *)

From Stdlib Require Import ZArith Lia Ascii String.
From stdpp Require Import base list strings gmap.
From S2P Require Import Prelude RustStr Json JsonText.
From S2P Require Proto ClientProto Config Hooks Janitor SupervisorClient Rpc.
From S2P Require Import Auth CoreProc Supervisor Schedules UnitTests.
From S2P Require ClientInv Ffi Bridge FfiMemory FfiInv Stack.

Open Scope string_scope.

Definition DEV : AuthMode := Dev 501.
Abbreviation the_config := Schedules.Schedule.the_config.

(** [has_event], and a key with its value. *)
Definition has_event (line ev : string) : bool := contains (quotes ("'event':'" ++ ev ++ "'")) line.
Definition has (line kv : string) : bool := contains (quotes kv) line.

Module SupervisorTests.
Import Schedules.Schedule.

Definition after (ls : list Label) (check : Sys -> bool) : bool :=
  match Supervisor.run the_config DEV initial ls with Some s => check s | None => false end.

Arguments after ls%_list_scope check.

(** The [i]-th line connection [c] receives. *)
Definition recv (s : Sys) (c i : nat) : string := nth i (map Proto.encode_event (wire_of c s)) "".

Definition is_alive (s : Sys) (pid : Z) : bool :=
  existsb (fun p => (ppid p =? pid)%Z && match status p with PReaped => false | _ => true end) (procs s).
Definition waited_for (s : Sys) (pid : Z) : bool := negb (is_alive s pid).
Definition fired_hooks (s : Sys) : list (Hooks.HookEvent * option Hooks.HookReason) :=
  map (fun f => (f_event f, f_reason f)) (filter (fun f => ran f = true) (fired s)).

Definition hello (c : nat) : list Label := (connects c false ++ greeted c)%list.
(** A start with the [up] hook or without. *)
Definition start (c : nat) (pid : Z) (hook : bool) : list Label := (spawns c pid ++ [LConn c INone; LConn c (IScript hook); LConn c INone])%list.
Definition send_status (c : nat) : list Label := [LConn c (line_of ClientProto.Cmd.Status); LConn c INone; LConn c INone].
Definition send_stop (c : nat) : list Label := [LConn c (line_of ClientProto.Cmd.Stop); LConn c INone].
(** The core [i] is sent a signal and ends with this status; the thread of [c], which
    waits for it, sees that and runs the [down] hook, if there is one. *)
Definition signalled (i : nat) (st : Z) : list Label := (polls i ++ dies i st)%list.
Definition stopped (c : nat) (hook : bool) : list Label := [LConn c INone; LConn c (IScript hook); LConn c INone].
(** The connection's end, up to the request to stop. *)
Definition hang_up (c : nat) : list Label := [LConn c eof; LConn c INone; LConn c INone; LConn c INone].

Definition hello_start_status_stop : bool :=
  let ls : list Label := (hello 0 ++ start 0 100 false ++ send_status 0)%list in
  after ls (fun s =>
    has_event (recv s 0 0) "hello" && has (recv s 0 0) "'core':'stopped'" &&
    has_event (recv s 0 1) "core_started" && has (recv s 0 1) "'pid':100" && has (recv s 0 1) "'rpc_port':50321" &&
    is_alive s 100 && has_event (recv s 0 2) "status" && has (recv s 0 2) "'core':'running'" &&
    has (recv s 0 2) "'pid':100") &&
  after (ls ++ send_stop 0 ++ signalled 0 15 ++ stopped 0 false) (fun s =>
    has_event (recv s 0 3) "core_stopped" && waited_for s 100).

Definition disconnect_stops_core_and_exits : bool :=
  let ls : list Label := (hello 0 ++ start 0 100 false)%list in
  after ls (fun s => is_alive s 100) &&
  after (ls ++ hang_up 0 ++ signalled 0 15 ++
         [LConn 0 INone; LConn 0 (IScript false); LConn 0 (IPs true); LConn 0 (IScript false); LConn 0 INone])
    (fun s => waited_for s 100 && (exited s ==? Some 0%Z)).

(** The core ignores SIGTERM: it is still there, and no reply, after four seconds. *)
Definition stop_escalates_to_sigkill : bool :=
  let ls : list Label := (hello 0 ++ start 0 100 false ++ send_stop 0 ++ polls 0 ++ [LTick 4000] ++ polls 0 ++ [LConn 0 INone])%list in
  after ls (fun s => (recv s 0 2 ==? "") && is_alive s 100) &&
  after (ls ++ [LTick 1000] ++ polls 0 ++ [LMonitor 0 (JTryWait true); LMonitor 0 JNone] ++ stopped 0 false) (fun s =>
    has_event (recv s 0 2) "core_stopped" && waited_for s 100).

Definition second_owner_is_busy_then_takeover_kicks : bool :=
  let ls : list Label := (hello 0 ++ connects 1 false ++ connects 2 true ++ greeted_over 2)%list in
  after ls (fun s =>
    has_event (recv s 0 0) "hello" && has_event (recv s 1 0) "busy" && has_event (recv s 2 0) "hello" &&
    has_event (recv s 0 1) "kicked") &&
  after (ls ++ send_status 2) (fun s => has_event (recv s 2 1) "status").

Definition takeover_preserves_running_core : bool :=
  after (hello 0 ++ start 0 100 false ++ connects 1 true ++ greeted_over 1 ++ send_status 1) (fun s =>
    has_event (recv s 1 0) "hello" && has (recv s 1 0) "'core':'running'" && has_event (recv s 0 2) "kicked" &&
    is_alive s 100 && has_event (recv s 1 1) "status" && has (recv s 1 1) "'core':'running'" &&
    has (recv s 1 1) "'pid':100").

(** The reaped pid is not signalled. *)
Definition stop_after_natural_exit_is_clean : bool :=
  let ls : list Label := (hello 0 ++ start 0 100 false ++ dies 0 0 ++ [LMonitor 0 JNone; LMonitor 0 JNone])%list in
  after ls (fun s =>
    has_event (recv s 0 1) "core_started" && has_event (recv s 0 2) "core_exited" && has (recv s 0 2) "'code':0") &&
  after (ls ++ send_stop 0 ++ [LConn 0 INone]) (fun s =>
    has_event (recv s 0 3) "core_stopped" && contains "already_stopped" (recv s 0 3) &&
    (length (sent s) =? 0)%nat).

Definition hook_up_then_down_requested : bool :=
  let ls : list Label := (hello 0 ++ start 0 100 true)%list in
  after ls (fun s => fired_hooks s ==? [(Hooks.Up, None)]) &&
  after (ls ++ send_stop 0 ++ signalled 0 15 ++ stopped 0 true) (fun s =>
    has_event (recv s 0 2) "core_stopped" && waited_for s 100 &&
    (fired_hooks s ==? [(Hooks.Up, None); (Hooks.Down, Some Hooks.Requested)])).

(** The supervisor does not exit before the hook has finished. *)
Definition hook_down_owner_drop : bool :=
  let ls : list Label := (hello 0 ++ start 0 100 false ++ hang_up 0 ++ signalled 0 15 ++
    [LConn 0 INone; LConn 0 (IScript true); LConn 0 (IPs true); LConn 0 (IScript false)])%list in
  after ls (fun s => waited_for s 100 && (fired_hooks s ==? [(Hooks.Down, Some Hooks.OwnerDrop)])) &&
  negb (after (ls ++ [LConn 0 INone]) (fun _ => true)) &&
  after (ls ++ [LHookDone 0; LConn 0 INone; LConn 0 INone]) (fun s => exited s ==? Some 0%Z).

Definition hook_down_core_exited : bool :=
  after (hello 0 ++ start 0 100 false ++ dies 0 9 ++
         [LMonitor 0 JNone; LMonitor 0 JNone; LMonitor 0 (JScript true)]) (fun s =>
    has_event (recv s 0 2) "core_exited" && (fired_hooks s ==? [(Hooks.Down, Some Hooks.CoreExited)])).

(** The sweep at the start finds a process whose first word is [core_path]. *)
Definition orphan_ps : string := "  PID ARGS" ++ nl ++ "   77 " ++ Config.core_path the_config ++ " -c loop" ++ nl.
Definition activation_sweep (lstat : string -> result Config.Metadata io_error) : Janitor.SweepResult :=
  Janitor.sweep_orphans the_config DEV 2 None (Ok orphan_ps) (fun _ => Janitor.Killed) lstat.
Definition owned_script (mode : Z) (path : string) : result Config.Metadata io_error :=
  Ok {| Config.md_is_file := true; Config.md_uid := 501; Config.md_gid := 20; Config.md_mode := mode |}.
Definition no_script (path : string) : result Config.Metadata io_error :=
  Err (IoError NotFound "No such file or directory (os error 2)").

Definition janitor_kills_orphan_core_on_activation : bool :=
  Janitor.signalled (activation_sweep no_script) ==? [77%Z].

(** Octal 755. *)
Definition hook_down_janitor : bool :=
  match Janitor.down_hook (activation_sweep (owned_script 493)) with
  | Some job => (Hooks.event job ==? Hooks.Down) && (Hooks.reason job ==? Some Hooks.Janitor)
  | None => false
  end.

(** A script that runs for ten seconds, and one second allowed: the child is killed,
    the log says so, and the supervisor, which has not waited, starts again. *)
Definition slow_env : Hooks.Env := {|
  Hooks.open_log := Ok tt; Hooks.clones_ok := true; Hooks.spawned := Ok tt; Hooks.start_ms := 0; Hooks.start_secs := 0;
  Hooks.try_wait := fun i => if (i <? 200)%nat then Hooks.StillRunning else Hooks.Exited "exit status: 0";
  Hooks.clock := fun i => (50 * Z.of_nat i)%Z; Hooks.epoch_secs := fun i => 0%Z |}.
Definition hook_timeout_killed_but_state_machine_ok : bool :=
  match Hooks.run_child {| Hooks.script := "down.sh"; Hooks.cwd := "/tmp/dir"; Hooks.log_path := "/tmp/dir/logs/hooks.log";
                           Hooks.event := Hooks.Down; Hooks.reason := Some Hooks.Requested; Hooks.timeout := 1 |} slow_env 30 with
  | Some es => existsb (fun e => match e with Hooks.Sigkill => true | _ => false end) es &&
      existsb (fun e => match e with Hooks.Log _ t => contains "timed out" t | _ => false end) es
  | None => false
  end &&
  after (hello 0 ++ start 0 100 false ++ send_stop 0 ++ signalled 0 15 ++ stopped 0 true ++
         start 0 101 false ++ send_stop 0 ++ signalled 1 15 ++ stopped 0 false) (fun s =>
    has_event (recv s 0 2) "core_stopped" && waited_for s 100 && (map finished (hooks s) ==? [false]) &&
    has_event (recv s 0 3) "core_started" && has_event (recv s 0 4) "core_stopped" && waited_for s 101).

(** Octal 775. *)
Definition hook_group_writable_is_rejected : bool :=
  match Hooks.run_hook (owned_script 509) the_config DEV Hooks.Up None with
  | (None, [line]) => contains "refusing to run" line
  | _ => false
  end &&
  after (hello 0 ++ start 0 100 false ++ send_status 0 ++ send_stop 0 ++ signalled 0 15 ++ stopped 0 false) (fun s =>
    (fired_hooks s ==? []) && has_event (recv s 0 2) "status" && has_event (recv s 0 3) "core_stopped" &&
    waited_for s 100).

Definition all : list bool :=
  [hello_start_status_stop; disconnect_stops_core_and_exits; stop_escalates_to_sigkill;
   second_owner_is_busy_then_takeover_kicks; takeover_preserves_running_core; stop_after_natural_exit_is_clean;
   janitor_kills_orphan_core_on_activation; hook_up_then_down_requested; hook_down_owner_drop;
   hook_down_core_exited; hook_down_janitor; hook_timeout_killed_but_state_machine_ok;
   hook_group_writable_is_rejected].
End SupervisorTests.

(** ** [bridge/tests/dev_supervisor.rs] *)

Module BridgeTests.
Import ClientProto SupervisorClient ClientInv Ffi Bridge FfiMemory FfiInv Stack.
#[local] Existing Instance Sample.crate.

Definition play (acts : list Act) (check : Stack (LibConfig := string) -> bool) : bool :=
  match stack_run (C := Sample.crate) the_config DEV JFloat None "/src" (fun t => @Ok string string t) (fun _ => "id")
          (fun t => @Ok string string t) (fun _ => Ok tt) stack_init acts with
  | Some K => check K
  | None => false
  end.
Arguments play acts%_list_scope check.

Definition sup (ls : list Supervisor.Label) : list Act := map (Sup 0) ls.
Definition goes (k n : nat) : list Act := repeat (Lib (Step k go_on)) n.
Definition hears (ev : Proto.Event.Event) : list Act := [Lib (Drive 0 (DLine (reply_line ev)))].
Definition enters (c : Call) : list Act := [Lib (Enter c Sample.env)].

(** The callback has been given an event of this type. *)
Definition saw_event (ty : string) (K : Stack (LibConfig := string)) : bool :=
  match handles (lib K) !! 0 with
  | Some h => existsb (contains (quotes ("'type':'" ++ ty ++ "'"))) (emitted h)
  | None => false
  end.
(** What call [k] returned: NULL, or the text at an address. *)
Definition null_from (k : nat) (K : Stack (LibConfig := string)) : bool :=
  match threads (lib K) !! k with Some {| activity := Returned None |} => true | _ => false end.
Definition text_at (q : nat) (K : Stack (LibConfig := string)) : string := default "" (strings (lib K) !! q).

(** A stop that ends the core, and the same when there is none. *)
Definition sup_stops : list Act :=
  sup (SupervisorTests.send_stop 0 ++ SupervisorTests.signalled 0 15 ++ SupervisorTests.stopped 0 false) ++
  hears (Proto.Event.CoreStopped "requested").
Definition sup_stopped_already : list Act :=
  sup (SupervisorTests.send_stop 0 ++ [Supervisor.LConn 0 Supervisor.INone]) ++
  hears (Proto.Event.CoreStopped "already_stopped").

Definition init_and_validate : list Act :=
  [Launch] ++ sup (SupervisorTests.hello 0) ++
  [Lib (Init true true 0); Dial 0 0 0 hello_line; Lib (Forward 0)] ++
  enters (Validate (Some "cfg")) ++ [Lib (Step 0 go_on); Lib (Return 0 1)].
Definition connect_ : list Act :=
  [Lib (FreeString (Some 1))] ++ enters (Connect (Some 0) (Some "cfg")) ++ goes 1 1 ++ [Lib (Drive 0 (DRequest WOk))] ++
  sup (SupervisorTests.start 0 4321 false) ++ hears started_reply ++ goes 1 3 ++
  [Lib (Step 1 (IPortal Sample.portal))] ++ goes 1 1 ++ [Lib (Return 1 1); Lib (Forward 0)].
Definition status_ : list Act :=
  enters (Status (Some 0)) ++ goes 2 3 ++ [Lib (Step 2 (IPortal Sample.portal)); Lib (Return 2 2)].
Definition disconnect_ : list Act :=
  [Lib (FreeString (Some 2))] ++ enters (Disconnect (Some 0)) ++ goes 3 3 ++ [Lib (Step 3 (IPortal Sample.portal))] ++
  goes 3 1 ++ [Lib (Drive 0 (DRequest WOk))] ++ sup_stops ++ goes 3 2 ++ [Lib (Return 3 2); Lib (Forward 0)].
Definition disconnect_again : list Act :=
  enters (Disconnect (Some 0)) ++ goes 4 2 ++ [Lib (Drive 0 (DRequest WOk))] ++ sup_stopped_already ++ goes 4 2 ++
  [Lib (Return 4 2)].
Definition shutdown_ : list Act :=
  enters (Shutdown (Some 0)) ++ goes 5 1 ++ [Lib (Drive 0 DEnd)] ++ goes 5 1 ++
  [Lib (Step 5 go_on); Lib (Return 5 2)] ++
  sup (SupervisorTests.hang_up 0 ++ [Supervisor.LConn 0 (Supervisor.IPs true);
    Supervisor.LConn 0 (Supervisor.IScript false); Supervisor.LConn 0 Supervisor.INone]).

Definition init_connect_status_disconnect_shutdown : bool :=
  let s1 : list Act := init_and_validate in
  let s2 : list Act := (s1 ++ connect_)%list in
  let s3 : list Act := (s2 ++ status_)%list in
  let s4 : list Act := (s3 ++ disconnect_)%list in
  let s5 : list Act := (s4 ++ disconnect_again)%list in
  let s6 : list Act := (s5 ++ shutdown_)%list in
  play s1 (fun K => saw_event "connected" K && has (text_at 1 K) "'ok':true") &&
  play s2 (fun K => null_from 1 K && saw_event "core_started" K) &&
  play s3 (fun K => has (text_at 2 K) "'is_local':true" && has (text_at 2 K) "'protos':[") &&
  play s4 (fun K => null_from 3 K && saw_event "core_stopped" K) &&
  play s5 (fun K => null_from 4 K) &&
  play s6 (fun K => bool_decide (handles (lib K) = ∅) && bool_decide (strings (lib K) = ∅) &&
    match sups K with [u] => bool_decide (Supervisor.exited (now_ u) = Some 0%Z) | _ => false end).

Definition all : list bool := [init_connect_status_disconnect_shutdown].
End BridgeTests.

(** The model passes the integration tests of both crates. *)
Theorem integration_tests_pass :
  Forall (fun t => t = true) (SupervisorTests.all ++ BridgeTests.all).
Proof. vm_compute. repeat constructor. Qed.
